(* ===== verification/_CoqProject ===== *)
-Q . S2P
Prelude.v
Coding.v
InternalKey.v
Crc32c.v
Posix.v
WriteBatch.v
Wal.v
Versions.v
Arena.v
Skiplist.v
Iterator.v
MemTable.v
Bloom.v
Cache.v
Block.v
Heap.v
Merge.v
DbIter.v
Options.v
Sstable.v
Records.v
Table.v
Levels.v
ReadPath.v
Gc.v
FileNames.v
Manifest.v
Db.v
Flush.v
Compaction.v
Stats.v
Install.v
Background.v
Write.v
Disk.v
Session.v
Upkeep.v
Commit.v
Recovery.v
Restart.v
System.v
Text.v
Budget.v
Crash.v
Workload.v
Bench.v
