(* ===== verification/Prelude.v ===== *)
(** * Verification of the lsmtree storage engine

    The program is an embedded key-value store: a log-structured merge tree in
    C++ (include/lsm/, src/) with two crash-testing tools (tools/) and a benchmark
    (bench/).

    ** The program and its parts

    A write is encoded as a batch ([WriteBatch]), joins a queue, is appended to
    the write-ahead log ([Wal]) together with the batches behind it, and is then
    inserted into the memtable ([MemTable], a [Skiplist] whose nodes come from
    an [Arena]). A full memtable is set aside with its log; background work
    flushes it to a table file of level 0 ([Sstable], made of [Block]s and a
    [Bloom] filter) and merges tables into deeper levels, dropping the versions
    that no snapshot sees. The manifest names the live tables and the oldest log
    that is still needed; it is replaced by rename. A read asks the memtables,
    level 0 newest first, and one table of each deeper level; a scan merges one
    cursor per source ([Merge], [DbIter]). Table reads go through a shared block
    cache ([Cache]). Opening a directory loads the manifest, replays the logs it
    does not cover, flushes them and starts a new log.

    ** Which file models what

    Base layer:
    - [Prelude]: bytes, [u32]/[u64], [size], statuses (status.h), list lemmas.
    - [Coding] (coding.h), [InternalKey] (internal_key.h), [Crc32c] (crc32c.h,
      crc32c.cpp), [Options] (options.h).
    - [Posix]: the file system and the outcomes of system calls.
    - [Versions]: what a point read means over any collection of versions.

    Components:
    - [WriteBatch], [Wal], [Arena], [Skiplist], [MemTable], [Bloom], [Cache],
      [Block]: the header and source file of the same name.
    - [Iterator] (iterator.h): the virtual interface as a class with its laws;
      [Heap] and [Merge] (iterator.cpp); [DbIter] ([DBIter] of db.cpp).
    - [Sstable] and [Table] (sstable.h, sstable.cpp): builder and reader.

    The database (db.h, db.cpp), in the order of that file:
    - [FileNames] ([NumberedFile], [ParseFileName]), [Manifest]
      ([WriteManifest], [LoadManifest]), [Levels] ([Version], [LevelIterator]),
      [ReadPath] ([Get], [NewIterator]), [Db] (members, snapshots,
      [CommitVersion], [RemoveObsoleteFiles]), [Stats].
    - [Gc], [Flush] ([FlushImmutableMemTable]), [Compaction] and [Install]
      ([PickCompactionLevel], [DoCompaction]), [Background]
      ([BackgroundWorkOnce], [DrainBackgroundWork]).
    - [Write] ([Write], [BuildBatchGroup], [MakeRoomForWrite], [FlushMemTable],
      [CompactAll]), [Recovery] ([Recover], [Open], the destructor).
    - [Records], [Disk], [Session], [Upkeep], [Commit], [Restart]: what the
      directory and the object stand for, and that every operation keeps it.
    - [System]: the public interface as commands over an abstract map.
    - [Text], [Budget]: numbered keys, and what a client's calls use up.
    - [Crash] (tools/crash_worker.cpp, tools/crash_harness.cpp): a client of the
      interface, with everything that can stop it.
    - [Workload] (bench/bench.cpp) and [Bench] (bench/engine.h): the drivers of the
      benchmark over the class [Engine], and the database as an instance of it.

    ** How state and effects are represented

    Strings and buffers are lists of bytes, integers are [Z] with wrap-around
    written out where the code can wrap, doubles are those of SpecFloat. The
    process state is a record per class ([DB], [MemTable], [Table], ...). The
    [World] is a map from paths to contents with an oracle that says how each
    coming system call ends: in full, short, interrupted or failed; an empty
    oracle means that all succeed. The [Env] adds the block cache and the
    counters of the tables. Operations take and return these values. Fallible
    operations return a [Status]. [None] is undefined behaviour (an access
    outside a buffer) or exhausted fuel, so a theorem that gives [Some] shows
    that neither happens.

    A process that dies makes no further system call, and from the directory it
    is the same whether the remaining calls all fail or are never made. The
    theorems stated for every oracle therefore cover a kill at any system call.
    File contents are what the calls made of them: losing what was written but
    not synced (a power failure) is outside of the model.

    Times, random numbers, what [stat] finds, and the CPU's CRC instructions are
    arguments.

    ** What the theorems show

    - Whole system: every sequence of calls on a fresh directory, with restarts
      and failing system calls in between, behaves like a map with snapshots
      ([database_refines_map]); groups are atomic ([group_commit_atomic]);
      a client that is killed anywhere finds a prefix of its writes with all that
      were acknowledged ([crash_prefix_survives], [crash_harness_passes]);
      the benchmark's threads, interleaved in any way, finish without an error
      ([benchmark_completes]), and its scans count what they should
      ([loaded_keys_scan]);
      recovery gives the map back ([recovery_restores]) and can be repeated
      after being cut short ([recovery_repeatable]); maintenance ends and is not
      seen ([compact_all_completes], [drain_terminates],
      [compaction_transparent], [flush_transparent]); the invariant is kept
      ([calls_keep_types]).
    - Reads: lookups and scans answer with the newest visible version, from one
      component up to the database ([db_get_newest], [db_scan_reads],
      [sstable_roundtrip], [memtable_Get_newest], [scan_equals_reads],
      [merging_iterator_merges], [block_Seek_first_not_below],
      [bloom_no_false_negatives], [cache_never_lies]).
    - Durability: torn and damaged logs, the log append and the manifest
      replacement under every outcome ([wal_replay_torn_log],
      [wal_replay_stops_at_damage], [wal_append_all_or_nothing],
      [manifest_commit_atomic]), round trips of every encoding.
    - Memory: the skip list under a concurrent reader
      ([skiplist_Insert_atomic]), aligned disjoint allocation
      ([arena_AllocateAligned_safe]).
    - Limits: where forged or damaged input makes the code leave its buffers,
      and that this is the only way ([table_Open_oob_only_by_wrap],
      [block_oob_only_by_wrap] and their examples), options for which background
      work never ends ([zero_trigger_spins]), and three ways in which the
      database falls short of its documentation ([recovery_opendir_loses],
      [recovery_resurrects], [snapshot_drifts]).

    ** Bounds and fuel

    Loops that are not structural take fuel, and the theorems say how much is
    enough: [drain_turns] turns of background work for [n] stored versions (each
    turn moves versions down one of seven levels or drops them), three rounds of
    [MakeRoomForWrite], one step per byte or entry elsewhere, supplied by the
    definitions themselves. Reads by call use one step per outcome left in the
    oracle. The side conditions [has_room], [affords], [storable], [writable] and
    [feasible] keep the machine integers from wrapping: file numbers below
    2^32 - 1, so that the number of files of a level fits the 32 bits the manifest
    has for it, sequences below 2^56, lengths below 2^32. [drain_files] bounds the
    file numbers that a drain can take, [cost] those of a run of the crash worker:
    the 20000 writes of its default are covered with 190000 turns of the
    background thread. [lsm_cost] and [drain_files] do the same for the benchmark;
    two waits for the background cover about 16000 writes in all, so the
    default of 500000 keys is beyond this bound, which counts a new file for
    every version a compaction moves.

    ** Not modelled

    - Mutexes, condition variables and the background thread as a thread. A call
      runs from lock to unlock as one step; a wait is a turn of the background
      loop. The windows in which the code releases the lock are looked at one by
      one where they matter: the steps of a skip list insertion, and the window
      between reserving sequences and inserting ([snapshot_drifts]).
    - Effects of [fsync] on a power failure, as said above.
    - Of the tools: processes, signals, the shared page and the command lines;
      their effect on the worker is an argument.
    - Of the benchmark: its command line, the printed tables and the adapter for
      LevelDB, which is not part of the repository. [std::pow] is a parameter; an
      index it makes too large to convert is undefined, and the theorems assume
      that there is none.
    - tests/: examples of what is stated here in general. *)

From stdpp Require Export base list gmap strings.
From coqutil Require Export Byte Word.LittleEndianList.
From Stdlib Require Export ZArith Lia Sorted Permutation.

#[export] Set Default Goal Selector "!".

(** ** Bytes and machine integers

    A [std::string], a [std::string_view] and the bytes reachable from a
    [const char*] up to its limit are all lists of bytes. Unsigned integers are
    [Z] with their wrap-around written out by [u32] and [u64]. *)

Abbreviation bytes := (list byte).

Declare Scope lsm_scope.
Delimit Scope lsm_scope with lsm.
Open Scope Z_scope.
Open Scope lsm_scope.

Definition u32 (x : Z) : Z := x mod 2 ^ 32.
Definition u64 (x : Z) : Z := x mod 2 ^ 64.

(** [size b] is the C++ [b.size()] as an integer. *)
Definition size {A} (l : list A) : Z := Z.of_nat (length l).

#[export] Instance byte_eq_dec : EqDecision byte.
Proof. intros x y. exact (Byte.byte_eq_dec x y). Defined.

#[global] Opaque le_split le_combine.

Create HintDb lsm discriminated.
Create Rewrite HintDb lsm.

(** Split on a boolean comparison of the goal and drop the impossible side. *)
Ltac zcase_core tac :=
  match goal with
  | |- context [Z.ltb ?a ?b] => destruct (Z.ltb_spec a b)
  | |- context [Z.leb ?a ?b] => destruct (Z.leb_spec a b)
  | |- context [Z.eqb ?a ?b] => destruct (Z.eqb_spec a b)
  | |- context [Nat.ltb ?a ?b] => destruct (Nat.ltb_spec a b)
  | |- context [Nat.leb ?a ?b] => destruct (Nat.leb_spec a b)
  | |- context [Nat.eqb ?a ?b] => destruct (Nat.eqb_spec a b)
  end; tac.
Ltac zcase := zcase_core ltac:(try lia).

Lemma u32_id x : 0 <= x < 2 ^ 32 -> u32 x = x.
Proof. apply Z.mod_small. Qed.

Lemma u64_id x : 0 <= x < 2 ^ 64 -> u64 x = x.
Proof. apply Z.mod_small. Qed.

Lemma u32_range x : 0 <= u32 x < 2 ^ 32.
Proof. apply Z.mod_pos_bound. lia. Qed.

Lemma u64_range x : 0 <= u64 x < 2 ^ 64.
Proof. apply Z.mod_pos_bound. lia. Qed.

Lemma u32_u32 x : u32 (u32 x) = u32 x.
Proof. apply u32_id, u32_range. Qed.

Lemma u64_u64 x : u64 (u64 x) = u64 x.
Proof. apply u64_id, u64_range. Qed.

Lemma size_nonneg {A} (l : list A) : 0 <= size l.
Proof. unfold size. lia. Qed.

Lemma size_app {A} (l k : list A) : size (l ++ k) = size l + size k.
Proof. unfold size. rewrite length_app. lia. Qed.

Lemma size_cons {A} (x : A) l : size (x :: l) = 1 + size l.
Proof. unfold size. simpl. lia. Qed.

Lemma size_nil {A} : size (@nil A) = 0.
Proof. reflexivity. Qed.

#[export] Hint Rewrite @size_app @size_cons @size_nil @length_app : lsm.
#[export] Hint Resolve u32_range u64_range size_nonneg : lsm.

(** ** Status (include/lsm/status.h) *)

Inductive Code := kOk | kNotFound | kCorruption | kIOError | kInvalidArgument | kNotSupported.

Record Status := mkStatus { code_ : Code; msg_ : string }.

#[export] Instance Code_eq_dec : EqDecision Code.
Proof. solve_decision. Defined.
#[export] Instance Status_eq_dec : EqDecision Status.
Proof. solve_decision. Defined.

Module Status.

Definition OK : Status := mkStatus kOk "".
Definition NotFound (msg : string) : Status := mkStatus kNotFound msg.
Definition Corruption (msg : string) : Status := mkStatus kCorruption msg.
Definition IOError (msg : string) : Status := mkStatus kIOError msg.
Definition InvalidArgument (msg : string) : Status := mkStatus kInvalidArgument msg.
Definition NotSupported (msg : string) : Status := mkStatus kNotSupported msg.

Definition ok (s : Status) : bool := bool_decide (code_ s = kOk).
Definition IsNotFound (s : Status) : bool := bool_decide (code_ s = kNotFound).
Definition IsCorruption (s : Status) : bool := bool_decide (code_ s = kCorruption).
Definition IsIOError (s : Status) : bool := bool_decide (code_ s = kIOError).

Definition ToString (s : Status) : string :=
  let named (name : string) : string :=
    if String.eqb (msg_ s) "" then name else (name ++ ": " ++ msg_ s)%string in
  match code_ s with
  | kOk => "OK"
  | kNotFound => named "NotFound"
  | kCorruption => named "Corruption"
  | kIOError => named "IOError"
  | kInvalidArgument => named "InvalidArgument"
  | kNotSupported => named "NotSupported"
  end.

End Status.

(** ** Byte-string comparison

    [std::string_view::compare]: bytes compare as unsigned characters, a proper
    prefix sorts first. Only the sign of the result is meaningful, so the model
    returns -1, 0 or 1. *)

Fixpoint sv_compare (a b : bytes) : Z :=
  match a, b with
  | [], [] => 0
  | [], _ :: _ => -1
  | _ :: _, [] => 1
  | x :: a', y :: b' =>
      if byte.unsigned x <? byte.unsigned y then -1
      else if byte.unsigned y <? byte.unsigned x then 1
      else sv_compare a' b'
  end.

Definition sv_eqb (a b : bytes) : bool := bool_decide (a = b).

Lemma sv_compare_refl a : sv_compare a a = 0.
Proof. induction a as [|x a IH]; simpl; [done|]. by rewrite Z.ltb_irrefl. Qed.

Lemma sv_compare_eq a b : sv_compare a b = 0 <-> a = b.
Proof.
  split; [|intros ->; apply sv_compare_refl].
  revert b. induction a as [|x a IH]; intros [|y b]; simpl; try done.
  destruct (Z.ltb_spec (byte.unsigned x) (byte.unsigned y)); [done|].
  destruct (Z.ltb_spec (byte.unsigned y) (byte.unsigned x)); [done|].
  intros H1. f_equal; [|by apply IH].
  apply byte.unsigned_inj. lia.
Qed.

Lemma sv_compare_antisym a b : sv_compare b a = - sv_compare a b.
Proof.
  revert b. induction a as [|x a IH]; intros [|y b]; simpl; try done.
  destruct (Z.ltb_spec (byte.unsigned x) (byte.unsigned y));
    destruct (Z.ltb_spec (byte.unsigned y) (byte.unsigned x)); try done; lia.
Qed.

Lemma sv_compare_range a b : sv_compare a b = -1 \/ sv_compare a b = 0 \/ sv_compare a b = 1.
Proof.
  revert b. induction a as [|x a IH]; intros [|y b]; simpl; auto.
  repeat case_match; auto.
Qed.

Lemma sv_compare_lt_trans a b c :
  sv_compare a b < 0 -> sv_compare b c < 0 -> sv_compare a c < 0.
Proof.
  revert b c. induction a as [|x a IH]; intros [|y b] [|z c]; simpl; try lia.
  destruct (Z.ltb_spec (byte.unsigned x) (byte.unsigned y));
  destruct (Z.ltb_spec (byte.unsigned y) (byte.unsigned x));
  destruct (Z.ltb_spec (byte.unsigned y) (byte.unsigned z));
  destruct (Z.ltb_spec (byte.unsigned z) (byte.unsigned y));
  destruct (Z.ltb_spec (byte.unsigned x) (byte.unsigned z));
  destruct (Z.ltb_spec (byte.unsigned z) (byte.unsigned x)); try lia; eauto.
Qed.

Lemma sv_compare_le_lt_trans a b c : sv_compare a b <= 0 -> sv_compare b c < 0 -> sv_compare a c < 0.
Proof.
  intros H1 H2. destruct (decide (sv_compare a b = 0)) as [->%sv_compare_eq|]; [done|].
  eapply sv_compare_lt_trans; [|exact H2]. lia.
Qed.

Lemma sv_compare_lt_le_trans a b c : sv_compare a b < 0 -> sv_compare b c <= 0 -> sv_compare a c < 0.
Proof.
  intros H1 H2. destruct (decide (sv_compare b c = 0)) as [<-%sv_compare_eq|]; [done|].
  eapply sv_compare_lt_trans; [exact H1|]. lia.
Qed.

Lemma sv_compare_le_trans a b c : sv_compare a b <= 0 -> sv_compare b c <= 0 -> sv_compare a c <= 0.
Proof.
  intros H1 H2. destruct (decide (sv_compare a b = 0)) as [->%sv_compare_eq|]; [done|].
  assert (sv_compare a c < 0); [|lia]. eapply sv_compare_lt_le_trans; [|exact H2]. lia.
Qed.

(** ** The prefix of a list that satisfies a test, and what follows it *)

Fixpoint drop_while {A} (p : A -> bool) (l : list A) : list A :=
  match l with
  | [] => []
  | x :: l' => if p x then drop_while p l' else l
  end.

Fixpoint take_while {A} (p : A -> bool) (l : list A) : list A :=
  match l with
  | [] => []
  | x :: l' => if p x then x :: take_while p l' else []
  end.

Lemma drop_while_suffix {A} (p : A -> bool) l : exists pre, l = pre ++ drop_while p l /\ Forall (fun x => p x = true) pre.
Proof.
  induction l as [|x l (pre & Heq & Hpre)]; simpl; [by exists []|].
  destruct (p x) eqn:E; [|by exists []].
  exists (x :: pre). simpl. split; [by f_equal|by constructor].
Qed.

Lemma drop_while_head {A} (p : A -> bool) l x l' : drop_while p l = x :: l' -> p x = false.
Proof.
  induction l as [|y l IH]; simpl; [done|]. destruct (p y) eqn:E; [done|]. by intros [= <- <-].
Qed.

Lemma drop_while_app {A} (p : A -> bool) a b :
  Forall (fun x => p x = true) a -> drop_while p (a ++ b) = drop_while p b.
Proof. induction 1 as [|x a Hx _ IH]; simpl; [done|]. by rewrite Hx. Qed.

Lemma drop_while_not {A} (p : A -> bool) x l : p x = false -> drop_while p (x :: l) = x :: l.
Proof. simpl. by intros ->. Qed.

Lemma take_drop_while {A} (p : A -> bool) l : l = take_while p l ++ drop_while p l.
Proof. induction l as [|x l IH]; simpl; [done|]. destruct (p x); simpl; [by f_equal|done]. Qed.

Lemma take_while_all {A} (p : A -> bool) l : Forall (fun x => p x = true) (take_while p l).
Proof. induction l as [|x l IH]; simpl; [done|]. destruct (p x) eqn:E; by constructor. Qed.

(** When the test holds of the first [i] elements and fails of the next one. *)
Lemma while_split {A} (p : A -> bool) l i :
  (i <= length l)%nat -> Forall (fun x => p x = true) (take i l) ->
  (forall x, l !! i = Some x -> p x = false) ->
  take_while p l = take i l /\ drop_while p l = drop i l.
Proof.
  revert i. induction l as [|x l IH]; intros i Hi Hall Hnot; simpl.
  { by rewrite take_nil, drop_nil. }
  destruct i as [|i]; simpl in *.
  - by rewrite (Hnot x eq_refl).
  - apply Forall_cons in Hall as [-> Hall]. destruct (IH i) as [-> ->]; [lia|done..].
Qed.

Lemma take_while_ext {A} (f g : A -> bool) l :
  (forall x, x ∈ l -> f x = g x) -> take_while f l = take_while g l /\ drop_while f l = drop_while g l.
Proof.
  induction l as [|x l IH]; intros H; simpl; [done|]. rewrite (H x) by set_solver.
  destruct IH as [-> ->]; [set_solver|done].
Qed.

Lemma filter_all {A} (P : A -> Prop) `{forall x, Decision (P x)} l : Forall P l -> filter P l = l.
Proof. induction 1 as [|x l Hx Hl IH]; [done|]. rewrite filter_cons_True by done. by rewrite IH. Qed.

(** Elements with distinct images are told apart by them. *)
Lemma NoDup_map_eq {A B} (f : A -> B) l x y : NoDup (map f l) -> x ∈ l -> y ∈ l -> f x = f y -> x = y.
Proof.
  induction l as [|z l IH]; intros Hnd Hx Hy Heq; [by apply elem_of_nil in Hx|]. apply NoDup_cons in Hnd as [Hz Hnd].
  apply elem_of_cons in Hx as [->|Hx], Hy as [->|Hy]; try done; [..|by apply IH]; destruct Hz; apply list_elem_of_fmap;
    [by exists y|by exists x].
Qed.

Lemma NoDup_map_prefix {A B} (f : A -> B) l l' : NoDup (map f (l ++ l')) -> NoDup (map f l).
Proof. rewrite map_app. intros H%NoDup_app. by destruct H. Qed.

Lemma ok_OK : negb (Status.ok Status.OK) = false.
Proof. done. Qed.

(** ** Binary search

    [while (lo < hi)] over a vector, for the first element where [p] fails. The
    distance [hi - lo] is enough fuel. *)

Fixpoint bsearch {A} (fuel : nat) (p : A -> bool) (l : list A) (lo hi : nat) : nat :=
  match fuel with
  | O => lo
  | S fuel =>
      if (lo <? hi)%nat then
        let mid := (lo + (hi - lo) / 2)%nat in
        match l !! mid with
        | Some x => if p x then bsearch fuel p l (S mid) hi else bsearch fuel p l lo mid
        | None => lo
        end
      else lo
  end.

Definition lower_bound {A} (p : A -> bool) (l : list A) : nat := bsearch (length l) p l 0 (length l).

(** Once [p] fails it fails for the rest. *)
Definition partitioned {A} (p : A -> bool) (l : list A) : Prop :=
  forall i j x y, (i < j)%nat -> l !! i = Some x -> l !! j = Some y -> p y = true -> p x = true.

Lemma bsearch_spec {A} (p : A -> bool) l : partitioned p l -> forall fuel lo hi,
  (lo <= hi <= length l)%nat -> (hi - lo <= fuel)%nat ->
  (forall i x, (i < lo)%nat -> l !! i = Some x -> p x = true) ->
  (forall x, l !! hi = Some x -> p x = false) ->
  let k := bsearch fuel p l lo hi in
  (k <= length l)%nat /\ (forall i x, (i < k)%nat -> l !! i = Some x -> p x = true) /\
  (forall x, l !! k = Some x -> p x = false).
Proof.
  intros Hp fuel. induction fuel as [|fuel IH]; intros lo hi Hr Hf Hlo Hhi; cbn [bsearch].
  { assert (lo = hi) as -> by lia. split_and!; [lia|done|done]. }
  destruct (Nat.ltb_spec lo hi) as [Hlt|Hge].
  2:{ assert (lo = hi) as -> by lia. split_and!; [lia|done|done]. }
  pose proof (Nat.Div0.div_lt_upper_bound (hi - lo) 2 (hi - lo) ltac:(lia)) as Hd.
  set (mid := (lo + (hi - lo) / 2)%nat) in *.
  destruct (lookup_lt_is_Some_2 l mid ltac:(lia)) as [x Hx]. rewrite Hx.
  destruct (p x) eqn:Ep; apply IH; try lia; try done.
  - intros i y Hi Hy. destruct (decide (i = mid)) as [->|]; [congruence|]. by eapply (Hp i mid); eauto; lia.
  - intros y Hy. congruence.
Qed.

Lemma lower_bound_spec {A} (p : A -> bool) l :
  partitioned p l -> let k := lower_bound p l in
  (k <= length l)%nat /\ (forall i x, (i < k)%nat -> l !! i = Some x -> p x = true) /\
  (forall x, l !! k = Some x -> p x = false).
Proof.
  intros Hp. apply bsearch_spec; try done; try lia.
  intros x Hx. apply lookup_lt_Some in Hx. lia.
Qed.

(** ** [std::sort]

    Any sort will do where the order is total on the elements. *)

Section Sort.
Context {A : Type} (lt : A -> A -> bool).

Fixpoint insert_by (x : A) (l : list A) : list A :=
  match l with
  | [] => [x]
  | y :: l' => if lt y x then y :: insert_by x l' else x :: l
  end.

Definition sort_by (l : list A) : list A := foldr insert_by [] l.

Lemma insert_by_perm x l : insert_by x l ≡ₚ x :: l.
Proof. induction l as [|y l IH]; simpl; [done|]. destruct (lt y x); [|done]. rewrite IH. constructor. Qed.

Lemma sort_by_perm l : sort_by l ≡ₚ l.
Proof. induction l as [|x l IH]; simpl; [done|]. by rewrite insert_by_perm, IH. Qed.

(** A list that is in order stays as it is. *)
Lemma sort_by_id l : StronglySorted (fun a b => lt b a = false) l -> sort_by l = l.
Proof.
  induction 1 as [|x l _ IH Hx]; simpl; [done|]. rewrite IH. destruct Hx as [|y l Hy _]; simpl; [done|]. by rewrite Hy.
Qed.

(** [Rel] orders the elements of the list, and [lt] decides it. *)
Section SortRel.
Context (Rel : A -> A -> Prop).
Hypothesis Rel_trans : forall a b c, Rel a b -> Rel b c -> Rel a c.
Hypothesis Rel_lt : forall a b, Rel a b -> lt a b = true /\ lt b a = false.

Lemma insert_by_sorted x l :
  Forall (fun y => Rel x y \/ Rel y x) l -> StronglySorted Rel l -> StronglySorted Rel (insert_by x l).
Proof.
  intros Hc Hs. induction Hs as [|y l Hs IH Hy]; simpl; [by repeat constructor|].
  apply Forall_cons in Hc as [Hxy Hc]. destruct (lt y x) eqn:E.
  - assert (Rel y x) as Hyx by (destruct Hxy as [Hxy|]; [apply Rel_lt in Hxy as [_ ?]; congruence|done]).
    constructor; [by apply IH|]. rewrite insert_by_perm. by constructor.
  - assert (Rel x y) as Hxy' by (destruct Hxy as [|Hxy]; [done|apply Rel_lt in Hxy as [? _]; congruence]).
    constructor; [by constructor|]. constructor; [done|]. eapply Forall_impl; [exact Hy|]. intros z Hz. by eapply Rel_trans.
Qed.

Lemma sort_by_sorted l :
  ForallOrdPairs (fun a b => Rel a b \/ Rel b a) l -> StronglySorted Rel (sort_by l).
Proof.
  induction 1 as [|x l Hx Hl IH]; simpl; [constructor|]. apply insert_by_sorted; [|done]. by rewrite sort_by_perm.
Qed.

End SortRel.

End Sort.

Lemma insert_by_map {A B} (f : A -> B) (lt : B -> B -> bool) x l :
  map f (insert_by (fun a b => lt (f a) (f b)) x l) = insert_by lt (f x) (map f l).
Proof. induction l as [|y l IH]; simpl; [done|]. destruct (lt (f y) (f x)); simpl; [by rewrite IH|done]. Qed.

Lemma sort_by_map {A B} (f : A -> B) (lt : B -> B -> bool) l :
  map f (sort_by (fun a b => lt (f a) (f b)) l) = sort_by lt (map f l).
Proof. induction l as [|x l IH]; simpl; [done|]. by rewrite insert_by_map, IH. Qed.

(** ** Parts of a list *)

Lemma ForallOrdPairs_app {A} (Rel : A -> A -> Prop) a b :
  ForallOrdPairs Rel a -> ForallOrdPairs Rel b -> (forall x y, x ∈ a -> y ∈ b -> Rel x y) -> ForallOrdPairs Rel (a ++ b).
Proof.
  intros Ha Hb Hab. induction Ha as [|x a Hx Ha IH]; simpl; [done|]. constructor.
  - apply Forall_app. split; [done|]. apply Forall_forall. intros y Hy. apply Hab; [left|done].
  - apply IH. intros z y Hz. apply Hab. by right.
Qed.

Lemma StronglySorted_impl {A} (Rel Rel' : A -> A -> Prop) l :
  (forall x y, Rel x y -> Rel' x y) -> StronglySorted Rel l -> StronglySorted Rel' l.
Proof. intros Hi. induction 1; constructor; [done|]. eapply Forall_impl; eauto. Qed.

Lemma StronglySorted_map {A B} (f : A -> B) (Rel : B -> B -> Prop) l :
  StronglySorted (fun x y => Rel (f x) (f y)) l -> StronglySorted Rel (map f l).
Proof. induction 1; simpl; constructor; [done|]. by apply Forall_map. Qed.

Lemma Permutation_refl_eq {A} (l l' : list A) : l = l' -> l ≡ₚ l'.
Proof. by intros ->. Qed.

Lemma filter_sublist {A} (f : A -> bool) l : sublist (List.filter f l) l.
Proof. induction l as [|x l IH]; simpl; [done|]. destruct (f x); [by apply sublist_skip|by apply sublist_cons]. Qed.

Lemma sublist_map {A B} (f : A -> B) l l' : sublist l l' -> sublist (map f l) (map f l').
Proof. induction 1; simpl; [done|by apply sublist_skip|by apply sublist_cons]. Qed.

Lemma tail_app {A} (a b : list A) : a <> [] -> tail (a ++ b) = tail a ++ b.
Proof. by destruct a. Qed.

Lemma filter_split {A} (f : A -> bool) l : l ≡ₚ List.filter f l ++ List.filter (fun x => negb (f x)) l.
Proof.
  induction l as [|x l IH]; simpl; [done|]. destruct (f x); simpl; [by rewrite <- IH|].
  rewrite IH at 1. apply Permutation_middle.
Qed.

Lemma map_filter {A B} (g : A -> B) (f : B -> bool) l : map g (List.filter (fun x => f (g x)) l) = List.filter f (map g l).
Proof. induction l as [|x l IH]; simpl; [done|]. destruct (f (g x)); simpl; [by rewrite IH|done]. Qed.

(** Selecting a part of a list by the keys of its elements. *)
Lemma filter_keys_sublist {A} (f : A -> Z) (part l : list A) (other : list Z) :
  sublist part l -> NoDup (map f l) -> (forall x, x ∈ l -> f x ∈ other -> x ∈ part) ->
  List.filter (fun x => bool_decide (f x ∈ map f part ++ other)) l = part.
Proof.
  intros Hs. revert other. induction Hs as [|x part l Hs IH|x part l Hs IH]; intros other Hnd Ho; [done|..];
    simpl in Hnd; apply NoDup_cons in Hnd as [Hx Hnd]; simpl.
  - rewrite bool_decide_eq_true_2 by set_solver. f_equal. etrans; [|apply (IH (f x :: other)); [done|]].
    + apply filter_ext. intros y. apply bool_decide_ext. set_solver.
    + intros y Hy [Heq|Hin]%elem_of_cons; [exfalso; apply Hx; rewrite <- Heq; apply list_elem_of_fmap; by exists y|].
      specialize (Ho y ltac:(by right) Hin). apply elem_of_cons in Ho as [->|]; [|done].
      exfalso. apply Hx, list_elem_of_fmap. by exists x.
  - rewrite bool_decide_eq_false_2.
    + apply IH; [done|]. intros y Hy. apply Ho. by right.
    + assert (forall y, y ∈ part -> f y <> f x) as Hne.
      { intros y Hy Heq. apply Hx. rewrite <- Heq. apply list_elem_of_fmap. exists y. split; [done|].
        by eapply elem_of_submseteq; [|apply sublist_submseteq]. }
      rewrite elem_of_app. intros [Hin|Hin].
      * apply list_elem_of_fmap in Hin as (y & Heq & Hy). by apply (Hne y).
      * by apply (Hne x); [apply Ho; [left|]|].
Qed.
