(* ===== verification/Coding.v ===== *)
(** * Integer and length-prefixed encodings (include/lsm/coding.h)

    Fixed-width integers are written by [memcpy] on a little-endian host, so
    they are [le_split]/[le_combine]; varint32 is the loop of the source. A
    reader receives the bytes from its pointer up to its limit, and a null
    pointer or a [false] result is [None]. *)

From S2P Require Import Prelude.

(** ** Fixed width *)

Definition PutFixed32 (dst : bytes) (value : Z) : bytes := dst ++ le_split 4 value.
Definition PutFixed64 (dst : bytes) (value : Z) : bytes := dst ++ le_split 8 value.
Definition DecodeFixed32 (ptr : bytes) : Z := le_combine (take 4 ptr).
Definition DecodeFixed64 (ptr : bytes) : Z := le_combine (take 8 ptr).

(** ** Length-prefixed strings *)

Definition PutLengthPrefixed (dst : bytes) (value : bytes) : bytes :=
  PutFixed32 dst (u32 (size value)) ++ value.

(** The result and the input with the consumed bytes removed. *)
Definition GetLengthPrefixed (input : bytes) : option (bytes * bytes) :=
  if size input <? 4 then None
  else
    let len := DecodeFixed32 input in
    if size input <? 4 + len then None
    else Some (take (Z.to_nat len) (drop 4 input), drop (4 + Z.to_nat len) input).

(** ** Varint32 *)

(** [while (value >= 0x80)]: a [uint32_t] leaves the loop within four
    iterations, so five units of fuel are never exhausted
    ([PutVarint32_loop_fuel]). *)
Fixpoint PutVarint32_loop (fuel : nat) (dst : bytes) (value : Z) : bytes :=
  match fuel with
  | O => dst
  | S fuel' =>
      if 0x80 <=? value then
        PutVarint32_loop fuel' (dst ++ [byte.of_Z (Z.lor value 0x80)]) (Z.shiftr value 7)
      else dst ++ [byte.of_Z value]
  end.

Definition PutVarint32 (dst : bytes) (value : Z) : bytes := PutVarint32_loop 5 dst value.

Fixpoint GetVarint32_loop (p : bytes) (shift result : Z) : option (Z * bytes) :=
  match p with
  | [] => None
  | c :: p' =>
      if shift <=? 28 then
        let byte := byte.unsigned c in
        if negb (Z.land byte 0x80 =? 0) then
          GetVarint32_loop p' (shift + 7)
            (Z.lor result (u32 (Z.shiftl (Z.land byte 0x7f) shift)))
        else Some (Z.lor result (u32 (Z.shiftl byte shift)), p')
      else None
  end.

(** The decoded value and the bytes after it. *)
Definition GetVarint32Ptr (p : bytes) : option (Z * bytes) := GetVarint32_loop p 0 0.

(** ** Fixed-width lemmas *)

Lemma le_combine_range l n : length l = n -> 0 <= le_combine l < 2 ^ (8 * Z.of_nat n).
Proof. intros <-. apply le_combine_bound. Qed.

Lemma le_combine_take_range n l : 0 <= le_combine (take n l) < 2 ^ (8 * Z.of_nat n).
Proof.
  pose proof (le_combine_bound (take n l)) as [H1 H2]. split; [done|].
  eapply Z.lt_le_trans; [exact H2|].
  apply Z.pow_le_mono_r; [lia|]. rewrite length_take. lia.
Qed.

Lemma DecodeFixed32_range p : 0 <= DecodeFixed32 p < 2 ^ 32.
Proof. apply (le_combine_take_range 4). Qed.

Lemma DecodeFixed64_range p : 0 <= DecodeFixed64 p < 2 ^ 64.
Proof. apply (le_combine_take_range 8). Qed.

Lemma DecodeFixed32_split v rest : DecodeFixed32 (le_split 4 v ++ rest) = u32 v.
Proof.
  unfold DecodeFixed32. rewrite take_app_length' by (by rewrite length_le_split).
  apply le_combine_split.
Qed.

Lemma DecodeFixed64_split v rest : DecodeFixed64 (le_split 8 v ++ rest) = u64 v.
Proof.
  unfold DecodeFixed64. rewrite take_app_length' by (by rewrite length_le_split).
  apply le_combine_split.
Qed.

Lemma size_le_split4 v : size (le_split 4 v) = 4.
Proof. unfold size. by rewrite length_le_split. Qed.

Lemma size_le_split8 v : size (le_split 8 v) = 8.
Proof. unfold size. by rewrite length_le_split. Qed.

Lemma DecodeFixed32_app p q : 4 <= size p -> DecodeFixed32 (p ++ q) = DecodeFixed32 p.
Proof. unfold size. intros ?. unfold DecodeFixed32. rewrite take_app_le; [done|lia]. Qed.

Lemma DecodeFixed64_app p q : 8 <= size p -> DecodeFixed64 (p ++ q) = DecodeFixed64 p.
Proof. unfold size. intros ?. unfold DecodeFixed64. rewrite take_app_le; [done|lia]. Qed.

#[export] Hint Rewrite size_le_split4 size_le_split8 length_le_split DecodeFixed32_split DecodeFixed64_split : lsm.
#[export] Hint Resolve DecodeFixed32_range DecodeFixed64_range : lsm.

(** ** Length-prefixed lemmas *)

Lemma PutLengthPrefixed_eq dst v :
  PutLengthPrefixed dst v = dst ++ le_split 4 (size v) ++ v.
Proof.
  unfold PutLengthPrefixed, PutFixed32. rewrite <- app_assoc. do 2 f_equal.
  unfold u32. symmetry. apply (le_split_mod (size v) 4).
Qed.

Lemma GetLengthPrefixed_Put v rest :
  size v < 2 ^ 32 -> GetLengthPrefixed (PutLengthPrefixed [] v ++ rest) = Some (v, rest).
Proof.
  intros Hv. rewrite PutLengthPrefixed_eq. simpl. rewrite <- app_assoc.
  unfold GetLengthPrefixed.
  autorewrite with lsm. pose proof (size_nonneg v). pose proof (size_nonneg rest).
  rewrite u32_id by lia.
  do 2 zcase.
  rewrite (drop_app_length' _ _ 4) by (by rewrite length_le_split).
  replace (4 + Z.to_nat (size v))%nat with (length (le_split 4 (size v) ++ v)).
  2:{ autorewrite with lsm. unfold size. lia. }
  rewrite app_assoc, drop_app_length.
  unfold size. by rewrite Nat2Z.id, take_app_length.
Qed.

Lemma GetLengthPrefixed_shrinks input v rest :
  GetLengthPrefixed input = Some (v, rest) ->
  exists pre, input = pre ++ rest /\ size pre = 4 + size v.
Proof.
  unfold GetLengthPrefixed.
  destruct (Z.ltb_spec (size input) 4); [done|].
  destruct (Z.ltb_spec (size input) (4 + DecodeFixed32 input)); [done|].
  intros [= <- <-]. pose proof (DecodeFixed32_range input).
  exists (take (4 + Z.to_nat (DecodeFixed32 input)) input).
  split; [by rewrite take_drop|].
  unfold size in *. rewrite !length_take, length_drop. lia.
Qed.

(** ** Varint lemmas *)

Lemma PutVarint32_loop_app fuel dst v :
  PutVarint32_loop fuel dst v = dst ++ PutVarint32_loop fuel [] v.
Proof.
  revert dst v. induction fuel as [|fuel IH]; intros dst v; simpl; [by rewrite app_nil_r|].
  case_match; [|done].
  rewrite IH, (IH [_]). by rewrite <- app_assoc.
Qed.

Lemma PutVarint32_app dst v : PutVarint32 dst v = dst ++ PutVarint32 [] v.
Proof. apply PutVarint32_loop_app. Qed.

Lemma testbit_byte_high c i : 8 <= i -> Z.testbit (byte.unsigned c) i = false.
Proof.
  intros Hi. rewrite <- (byte.wrap_unsigned c). unfold byte.wrap.
  apply Z.mod_pow2_bits_high. lia.
Qed.

Lemma varint_byte v : byte.unsigned (byte.of_Z v) = v mod 2 ^ 8.
Proof. apply byte.unsigned_of_Z. Qed.

Lemma land_high_bit b : Z.land b 0x80 = if Z.testbit b 7 then 0x80 else 0.
Proof.
  apply Z.bits_inj'. intros i Hi. rewrite Z.land_spec.
  change 0x80 with (2 ^ 7). rewrite Z.pow2_bits_eqb by lia.
  destruct (Z.eqb_spec 7 i) as [<-|Hne].
  - rewrite andb_true_r. destruct (Z.testbit b 7); [|by rewrite Z.bits_0].
    by rewrite Z.pow2_bits_true by lia.
  - rewrite andb_false_r. destruct (Z.testbit b 7); [|by rewrite Z.bits_0].
    by rewrite Z.pow2_bits_false by lia.
Qed.

(** One continuation byte carries the low seven bits of the value. *)
Lemma varint_cont_byte v :
  Z.testbit (byte.unsigned (byte.of_Z (Z.lor v 0x80))) 7 = true /\
  Z.land (byte.unsigned (byte.of_Z (Z.lor v 0x80))) 0x7f = Z.land v 0x7f.
Proof.
  rewrite varint_byte. split.
  - rewrite Z.mod_pow2_bits_low, Z.lor_spec by lia. by rewrite orb_true_r.
  - change 0x7f with (Z.ones 7). apply Z.bits_inj'. intros i Hi.
    rewrite !Z.land_spec. destruct (decide (i < 7)).
    + rewrite Z.mod_pow2_bits_low, Z.lor_spec by lia.
      change 0x80 with (2 ^ 7). rewrite Z.pow2_bits_false by lia. by rewrite orb_false_r.
    + rewrite Z.ones_spec_high by lia. by rewrite !andb_false_r.
Qed.

Lemma varint_last_byte v :
  0 <= v < 0x80 ->
  byte.unsigned (byte.of_Z v) = v /\ Z.testbit v 7 = false.
Proof.
  intros Hv. rewrite varint_byte. split; [apply Z.mod_small; lia|].
  rewrite <- (Z.mod_small v (2 ^ 7)) by lia. apply Z.mod_pow2_bits_high. lia.
Qed.

Lemma lor_land_shiftr v s :
  0 <= s ->
  Z.lor (Z.shiftl (Z.land v 0x7f) s) (Z.shiftl (Z.shiftr v 7) (s + 7)) = Z.shiftl v s.
Proof.
  intros Hs. change 0x7f with (Z.ones 7). apply Z.bits_inj'. intros i Hi.
  rewrite Z.lor_spec, !Z.shiftl_spec, Z.land_spec by lia.
  destruct (decide (i < s)).
  { rewrite !(Z.testbit_neg_r _ (i - _)) by lia. done. }
  destruct (decide (i - s < 7)).
  - rewrite Z.ones_spec_low, (Z.testbit_neg_r _ (i - (s + 7))) by lia.
    by rewrite andb_true_r, orb_false_r.
  - rewrite Z.ones_spec_high, Z.shiftr_spec by lia. rewrite andb_false_r. simpl. f_equal. lia.
Qed.

Lemma shiftl_range v s n : 0 <= v < 2 ^ n -> 0 <= n -> 0 <= s -> 0 <= Z.shiftl v s < 2 ^ (n + s).
Proof.
  intros Hv Hn Hs. rewrite Z.shiftl_mul_pow2 by lia. rewrite Z.pow_add_r by lia.
  pose proof (Z.pow_pos_nonneg 2 s). nia.
Qed.

(** The decoder's loop undoes the encoder's: [shift] bits are already in
    [result] and the remaining value fits in the bits left of 32. *)
Lemma varint_loop_roundtrip fuel v rest shift result :
  0 <= shift -> shift + 7 * Z.of_nat fuel = 35 -> 0 <= v < 2 ^ (32 - shift) ->
  GetVarint32_loop (PutVarint32_loop fuel [] v ++ rest) shift result =
    Some (Z.lor result (Z.shiftl v shift), rest).
Proof.
  revert v shift result. induction fuel as [|fuel IH]; intros v shift result Hs Hf Hv.
  { replace shift with 35 in Hv by lia. simpl in Hv. lia. }
  assert (shift <= 28) by lia.
  assert (0 <= Z.shiftl v shift < 2 ^ 32) as Hsh.
  { replace (2 ^ 32) with (2 ^ ((32 - shift) + shift)) by (f_equal; lia).
    apply shiftl_range; lia. }
  simpl. destruct (Z.leb_spec 0x80 v) as [Hbig|Hsmall].
  - assert (shift <= 21) by (destruct (decide (shift = 28)) as [->|]; [simpl in Hv|]; lia).
    rewrite PutVarint32_loop_app. simpl.
    destruct (varint_cont_byte v) as [Hc Hl].
    rewrite (proj2 (Z.leb_le shift 28)) by lia. rewrite land_high_bit, Hc. simpl.
    rewrite Hl, u32_id.
    + rewrite IH; [|lia..|].
      * by rewrite <- Z.lor_assoc, lor_land_shiftr by lia.
      * rewrite Z.shiftr_div_pow2 by lia. split; [apply Z.div_pos; lia|].
        apply Z.div_lt_upper_bound; [lia|]. rewrite <- Z.pow_add_r by lia.
        replace (7 + (32 - (shift + 7))) with (32 - shift) by lia. lia.
    + change 0x7f with (Z.ones 7). rewrite Z.land_ones by lia.
      pose proof (Z.mod_pos_bound v (2 ^ 7)).
      assert (v mod 2 ^ 7 <= v) by (apply Z.mod_le; lia).
      rewrite Z.shiftl_mul_pow2 in * by lia. pose proof (Z.pow_pos_nonneg 2 shift). nia.
  - destruct (varint_last_byte v) as [Hb Ht]; [lia|]. simpl.
    rewrite (proj2 (Z.leb_le shift 28)) by lia. rewrite Hb, land_high_bit, Ht. simpl.
    by rewrite u32_id.
Qed.

Lemma GetVarint32Ptr_Put v rest :
  0 <= v < 2 ^ 32 -> GetVarint32Ptr (PutVarint32 [] v ++ rest) = Some (v, rest).
Proof.
  intros Hv. unfold GetVarint32Ptr, PutVarint32.
  rewrite varint_loop_roundtrip by (simpl; lia). by rewrite Z.lor_0_l, Z.shiftl_0_r.
Qed.

Lemma lor_u32_range a b : 0 <= a < 2 ^ 32 -> 0 <= b < 2 ^ 32 -> 0 <= Z.lor a b < 2 ^ 32.
Proof.
  intros Ha Hb. assert (0 <= Z.lor a b) by (apply Z.lor_nonneg; lia). split; [done|].
  destruct (decide (Z.lor a b = 0)) as [->|]; [lia|].
  apply Z.log2_lt_pow2; [lia|]. rewrite Z.log2_lor by lia.
  apply Z.max_lub_lt.
  - destruct (decide (a = 0)) as [->|]; [simpl; lia|]. apply Z.log2_lt_pow2; lia.
  - destruct (decide (b = 0)) as [->|]; [simpl; lia|]. apply Z.log2_lt_pow2; lia.
Qed.

Lemma GetVarint32_loop_inv p shift result v rest :
  GetVarint32_loop p shift result = Some (v, rest) ->
  0 <= shift -> 0 <= result < 2 ^ 32 ->
  exists pre, p = pre ++ rest /\ 1 <= size pre /\ shift + 7 * size pre <= 35 /\ 0 <= v < 2 ^ 32.
Proof.
  revert shift result. induction p as [|c p IH]; intros shift result; simpl; [done|].
  zcase; [|done]. case_match.
  - intros Hp Hs Hr. destruct (IH _ _ Hp) as (pre & -> & ? & ? & ?); [lia| |].
    { apply lor_u32_range; auto with lsm. }
    exists (c :: pre). rewrite size_cons. split_and!; [done|lia..].
  - intros [= <- <-] Hs Hr. exists [c]. rewrite size_cons, size_nil.
    split_and!; [done|lia|lia|..]; apply lor_u32_range; auto with lsm.
Qed.

Lemma GetVarint32Ptr_inv p v rest :
  GetVarint32Ptr p = Some (v, rest) ->
  exists pre, p = pre ++ rest /\ 1 <= size pre <= 5 /\ 0 <= v < 2 ^ 32.
Proof.
  intros (pre & ? & ? & ? & ?)%GetVarint32_loop_inv; [|lia..].
  exists pre. split_and!; [done|lia..].
Qed.

Lemma size_PutVarint32 v : 0 <= v < 2 ^ 32 -> 1 <= size (PutVarint32 [] v) <= 5.
Proof.
  intros Hv. pose proof (GetVarint32Ptr_Put v [] Hv) as H.
  apply GetVarint32Ptr_inv in H as (pre & Heq & ? & _).
  rewrite !app_nil_r in Heq. by subst.
Qed.

(** Both string and integer encodings are self-delimiting: whatever bytes
    follow, a length-prefixed string and a varint32 are read back exactly, the
    rest of the input is left, and a varint32 takes one to five bytes. *)
Theorem coding_roundtrip v n rest :
  size v < 2 ^ 32 -> 0 <= n < 2 ^ 32 ->
  GetLengthPrefixed (PutLengthPrefixed [] v ++ rest) = Some (v, rest) /\
  GetVarint32Ptr (PutVarint32 [] n ++ rest) = Some (n, rest) /\
  1 <= size (PutVarint32 [] n) <= 5.
Proof.
  intros Hv Hn. split_and!; [by apply GetLengthPrefixed_Put|by apply GetVarint32Ptr_Put|by apply size_PutVarint32..].
Qed.

Lemma coding_roundtrip_witness :
  GetVarint32Ptr (PutVarint32 [] 0xffffffff ++ [Byte.xff]) = Some (0xffffffff, [Byte.xff]).
Proof.
  apply (coding_roundtrip [Byte.x00] 0xffffffff [Byte.xff]); [vm_compute; reflexivity|lia].
Defined.
