(* ===== verification/InternalKey.v ===== *)
(** * Internal keys and their order (include/lsm/internal_key.h)

    An internal key is a user key followed by the eight bytes of
    [sequence << 8 | type]. The order is user key ascending, then tag
    descending, so that a forward scan meets the newest version first. *)

From S2P Require Import Prelude Coding.

Definition kMaxSequenceNumber : Z := Z.shiftl 1 56 - 1.
Definition kTagSize : nat := 8.

Inductive ValueType := kDeletion | kValue.

#[export] Instance ValueType_eq_dec : EqDecision ValueType.
Proof. solve_decision. Defined.

(** [static_cast<uint8_t>(type)]. *)
Definition type_code (t : ValueType) : Z :=
  match t with kDeletion => 0 | kValue => 1 end.

Definition PackTag (seq : Z) (type : ValueType) : Z :=
  Z.lor (u64 (Z.shiftl seq 8)) (type_code type).

Definition EncodeInternalKey (user_key : bytes) (seq : Z) (type : ValueType) : bytes :=
  PutFixed64 user_key (PackTag seq type).

(** The source asserts [internal_key.size() >= kTagSize]. Without assertions a
    shorter key makes the unsigned subtraction wrap and [substr] return the
    whole string. *)
Definition ExtractUserKey (internal_key : bytes) : bytes :=
  if (length internal_key <? kTagSize)%nat then internal_key
  else take (length internal_key - kTagSize) internal_key.

Definition ExtractTag (internal_key : bytes) : Z :=
  DecodeFixed64 (drop (length internal_key - kTagSize) internal_key).

Definition ExtractSequence (internal_key : bytes) : Z := Z.shiftr (ExtractTag internal_key) 8.

(** The raw type byte: [static_cast<ValueType>(tag & 0xff)]. *)
Definition ExtractValueType (internal_key : bytes) : Z := Z.land (ExtractTag internal_key) 0xff.

Definition CompareInternalKey (a b : bytes) : Z :=
  let r := sv_compare (ExtractUserKey a) (ExtractUserKey b) in
  if negb (r =? 0) then r
  else
    let ta := ExtractTag a in
    let tb := ExtractTag b in
    if tb <? ta then -1 else if ta <? tb then 1 else 0.

Definition InternalKeyLess (a b : bytes) : bool := CompareInternalKey a b <? 0.

Definition LookupKey (user_key : bytes) (seq : Z) : bytes :=
  EncodeInternalKey user_key seq kValue.

(** The stack-backed builder: [memcpy] of the user key then of the tag, into
    the inline buffer or into a heap string of the same size; either way the
    view covers exactly these bytes. *)
Definition kInlineCapacity : Z := 200.

Record LookupKeyBuffer := mkLookupKeyBuffer {
  inline_buf : bytes;  (** bytes written into [inline_buf_] *)
  heap_ : bytes;       (** contents of the heap string *)
  on_heap : bool       (** which of the two [key_] views *)
}.

Definition make_LookupKeyBuffer (user_key : bytes) (seq : Z) (type : ValueType) : LookupKeyBuffer :=
  let total := size user_key + Z.of_nat kTagSize in
  let written := user_key ++ le_split 8 (PackTag seq type) in
  if total <=? kInlineCapacity then mkLookupKeyBuffer written [] false
  else mkLookupKeyBuffer [] written true.

Definition lookup_buffer_key (b : LookupKeyBuffer) : bytes :=
  if on_heap b then heap_ b else inline_buf b.

(** ** Lemmas *)

(** A well-formed internal key is at least as long as its tag. *)
Definition ikey_wf (k : bytes) : Prop := 8 <= size k.

(** A key as the engine encodes it. *)
Definition ikey_typed (k : bytes) : Prop :=
  ikey_wf k /\ (ExtractValueType k = 0 \/ ExtractValueType k = 1).

Lemma PackTag_eq seq t :
  0 <= seq <= kMaxSequenceNumber -> PackTag seq t = seq * 256 + type_code t.
Proof.
  intros Hs. unfold PackTag. change kMaxSequenceNumber with (2 ^ 56 - 1) in Hs.
  rewrite Z.shiftl_mul_pow2 by lia. rewrite u64_id by lia.
  assert (Z.land (seq * 2 ^ 8) (type_code t) = 0) as Hl.
  { destruct t; [apply Z.land_0_r|]. change (type_code kValue) with (Z.ones 1).
    rewrite Z.land_ones by lia. apply Z.mod_divide; [lia|]. exists (seq * 2 ^ 7). lia. }
  by rewrite <- Z.lxor_lor, <- Z.add_nocarry_lxor.
Qed.

Lemma PackTag_range seq t :
  0 <= seq <= kMaxSequenceNumber -> 0 <= PackTag seq t < 2 ^ 64.
Proof.
  intros Hs. rewrite PackTag_eq by done. change kMaxSequenceNumber with (2 ^ 56 - 1) in Hs.
  destruct t; simpl; lia.
Qed.

Lemma ExtractUserKey_app u l : length l = 8%nat -> ExtractUserKey (u ++ l) = u.
Proof.
  intros Hl. unfold ExtractUserKey, kTagSize. rewrite length_app, Hl.
  zcase. rewrite Nat.add_sub. apply take_app_length.
Qed.

Lemma ExtractTag_app u l : length l = 8%nat -> ExtractTag (u ++ l) = le_combine l.
Proof.
  intros Hl. unfold ExtractTag, kTagSize, DecodeFixed64. rewrite length_app, Hl.
  by rewrite Nat.add_sub, drop_app_length, take_ge by lia.
Qed.

(** Every well-formed internal key splits into its user key and its tag. *)
Lemma ikey_split k : ikey_wf k -> k = ExtractUserKey k ++ le_split 8 (ExtractTag k).
Proof.
  unfold ikey_wf, size. intros Hk.
  rewrite <- (take_drop (length k - 8) k) at 1 2 3.
  assert (length (drop (length k - 8) k) = 8%nat) by (rewrite length_drop; lia).
  rewrite ExtractUserKey_app, ExtractTag_app by done. f_equal. symmetry. by apply split_le_combine'.
Qed.

Lemma ExtractTag_range k : 0 <= ExtractTag k < 2 ^ 64.
Proof. apply DecodeFixed64_range. Qed.

Lemma ikey_ext a b :
  ikey_wf a -> ikey_wf b -> ExtractUserKey a = ExtractUserKey b -> ExtractTag a = ExtractTag b ->
  a = b.
Proof. intros Ha Hb Hu Ht. by rewrite (ikey_split a), (ikey_split b), Hu, Ht. Qed.

Section Encoded.
Context (u : bytes) (seq : Z) (t : ValueType).
Hypothesis Hseq : 0 <= seq <= kMaxSequenceNumber.

Lemma Encode_wf : ikey_wf (EncodeInternalKey u seq t).
Proof using.
  unfold ikey_wf, EncodeInternalKey, PutFixed64. autorewrite with lsm.
  pose proof (size_nonneg u). lia.
Qed.

Lemma ExtractUserKey_Encode : ExtractUserKey (EncodeInternalKey u seq t) = u.
Proof using. apply ExtractUserKey_app. apply length_le_split. Qed.

Lemma ExtractTag_Encode : ExtractTag (EncodeInternalKey u seq t) = PackTag seq t.
Proof using Hseq.
  unfold EncodeInternalKey, PutFixed64.
  rewrite ExtractTag_app, le_combine_split by apply length_le_split.
  by apply u64_id, PackTag_range.
Qed.

Lemma ExtractSequence_Encode : ExtractSequence (EncodeInternalKey u seq t) = seq.
Proof using Hseq.
  unfold ExtractSequence. rewrite ExtractTag_Encode, PackTag_eq by done.
  rewrite Z.shiftr_div_pow2 by lia. change (2 ^ 8) with 256.
  rewrite Z.div_add_l, (Z.div_small (type_code t)) by (destruct t; simpl; lia). lia.
Qed.

Lemma ExtractValueType_Encode : ExtractValueType (EncodeInternalKey u seq t) = type_code t.
Proof using Hseq.
  unfold ExtractValueType. rewrite ExtractTag_Encode, PackTag_eq by done.
  change 0xff with (Z.ones 8). rewrite Z.land_ones by lia. change (2 ^ 8) with 256.
  rewrite Z.add_comm, Z.mod_add by lia. by destruct t.
Qed.

Lemma Encode_typed : ikey_typed (EncodeInternalKey u seq t).
Proof using Hseq.
  split; [apply Encode_wf|]. rewrite ExtractValueType_Encode. destruct t; auto.
Qed.

End Encoded.

(** ** The order *)

Notation "a ≺ b" := (CompareInternalKey a b < 0) (at level 70) : lsm_scope.

Lemma CompareInternalKey_lt a b :
  a ≺ b <->
  sv_compare (ExtractUserKey a) (ExtractUserKey b) < 0 \/
  ExtractUserKey a = ExtractUserKey b /\ ExtractTag b < ExtractTag a.
Proof.
  unfold CompareInternalKey. rewrite <- (sv_compare_eq (ExtractUserKey a)).
  repeat (zcase; simpl); lia.
Qed.

Lemma CompareInternalKey_antisym a b : CompareInternalKey b a = - CompareInternalKey a b.
Proof.
  unfold CompareInternalKey. rewrite (sv_compare_antisym (ExtractUserKey a)).
  repeat (zcase; simpl); lia.
Qed.

Lemma CompareInternalKey_refl a : CompareInternalKey a a = 0.
Proof. pose proof (CompareInternalKey_antisym a a). lia. Qed.

Lemma CompareInternalKey_eq a b :
  ikey_wf a -> ikey_wf b -> CompareInternalKey a b = 0 <-> a = b.
Proof.
  intros Ha Hb. split; [|intros ->; apply CompareInternalKey_refl].
  unfold CompareInternalKey. repeat (zcase; simpl); try lia. intros _.
  apply ikey_ext; [done..| |lia]. by apply sv_compare_eq.
Qed.

Lemma ik_lt_trans a b c : a ≺ b -> b ≺ c -> a ≺ c.
Proof.
  rewrite !CompareInternalKey_lt. intros [H1|[H1 H1']] [H2|[H2 H2']].
  - left. by eapply sv_compare_lt_trans.
  - left. congruence.
  - left. congruence.
  - right. split; [congruence|lia].
Qed.

Lemma ik_lt_irrefl a : ~ a ≺ a.
Proof. rewrite CompareInternalKey_refl. lia. Qed.

(** The order is total on views, so a non-strict step composes with a strict one. *)
Lemma ik_le_lt_trans a b c : ~ b ≺ a -> b ≺ c -> a ≺ c.
Proof.
  rewrite !CompareInternalKey_lt. intros H1 H2.
  pose proof (sv_compare_range (ExtractUserKey b) (ExtractUserKey a)) as Hr.
  pose proof (sv_compare_antisym (ExtractUserKey b) (ExtractUserKey a)) as Ha.
  destruct (decide (sv_compare (ExtractUserKey b) (ExtractUserKey a) = 0)) as [He|Hne].
  - apply sv_compare_eq in He. rewrite <- He in *. intuition lia.
  - assert (sv_compare (ExtractUserKey a) (ExtractUserKey b) < 0) as Hlt by (intuition lia).
    destruct H2 as [H2|[H2 _]]; left; [by eapply sv_compare_lt_trans|by rewrite <- H2].
Qed.

Lemma ik_lt_le_trans a b c : a ≺ b -> ~ c ≺ b -> a ≺ c.
Proof.
  intros H1 H2. pose proof (CompareInternalKey_antisym a c).
  pose proof (CompareInternalKey_antisym b c).
  destruct (decide (CompareInternalKey b c < 0)); [by eapply ik_lt_trans|].
  assert (CompareInternalKey b c = 0) as Hbc by lia.
  rewrite CompareInternalKey_lt in *. revert Hbc. unfold CompareInternalKey.
  destruct (Z.eqb_spec (sv_compare (ExtractUserKey b) (ExtractUserKey c)) 0) as [e|]; [|done].
  simpl. repeat (zcase; try done). intros _. apply sv_compare_eq in e. rewrite <- e. destruct H1 as [|[-> ?]]; [by left|right; split; [done|lia]].
Qed.

(** ** Tags of typed keys *)

Lemma tag_decompose k :
  ExtractTag k = ExtractSequence k * 256 + ExtractValueType k /\ 0 <= ExtractValueType k < 256.
Proof.
  unfold ExtractSequence, ExtractValueType. change 0xff with (Z.ones 8).
  rewrite Z.land_ones, Z.shiftr_div_pow2 by lia. change (2 ^ 8) with 256.
  pose proof (Z.div_mod (ExtractTag k) 256). pose proof (Z.mod_pos_bound (ExtractTag k) 256). lia.
Qed.

Lemma ExtractSequence_range k : 0 <= ExtractSequence k <= kMaxSequenceNumber.
Proof.
  pose proof (tag_decompose k). pose proof (ExtractTag_range k).
  change kMaxSequenceNumber with (2 ^ 56 - 1). lia.
Qed.

(** The lookup key for [(u, s)] separates the versions of [u] newer than [s],
    which it sorts after, from those visible at [s], which it sorts before or
    at. *)
Lemma LookupKey_after k u s :
  ikey_typed k -> 0 <= s <= kMaxSequenceNumber ->
  k ≺ LookupKey u s <->
  sv_compare (ExtractUserKey k) u < 0 \/ ExtractUserKey k = u /\ s < ExtractSequence k.
Proof.
  intros [_ Ht] Hs. rewrite CompareInternalKey_lt. unfold LookupKey.
  rewrite ExtractUserKey_Encode, ExtractTag_Encode, PackTag_eq by done.
  pose proof (tag_decompose k) as [-> ?]. simpl. intuition lia.
Qed.

Lemma lookup_buffer_key_eq u s t :
  lookup_buffer_key (make_LookupKeyBuffer u s t) = EncodeInternalKey u s t.
Proof. unfold make_LookupKeyBuffer. by case_match. Qed.

#[export] Hint Rewrite ExtractUserKey_Encode lookup_buffer_key_eq : lsm.
#[export] Hint Resolve Encode_wf Encode_typed ExtractSequence_range : lsm.

(** The order of internal keys is user key ascending, then newest version
    first, and the lookup key for [(u, s)] separates the versions of [u] that
    are newer than [s] (all before it) from those visible at [s] (none before
    it), however the user keys extend each other. *)
Theorem lookup_key_separates u1 s1 t1 u2 s2 :
  0 <= s1 <= kMaxSequenceNumber -> 0 <= s2 <= kMaxSequenceNumber ->
  (EncodeInternalKey u1 s1 t1 ≺ LookupKey u2 s2 <->
   sv_compare u1 u2 < 0 \/ u1 = u2 /\ s2 < s1) /\
  ExtractUserKey (EncodeInternalKey u1 s1 t1) = u1 /\
  ExtractSequence (EncodeInternalKey u1 s1 t1) = s1 /\
  ExtractValueType (EncodeInternalKey u1 s1 t1) = type_code t1.
Proof.
  intros H1 H2. pose proof (ExtractSequence_Encode u1 s1 t1 H1) as Hs.
  split_and!; [|apply ExtractUserKey_Encode|done|by apply ExtractValueType_Encode].
  rewrite LookupKey_after by (done || by apply Encode_typed). by rewrite ExtractUserKey_Encode, Hs.
Qed.

Lemma lookup_key_separates_witness :
  EncodeInternalKey [Byte.x61] 7 kDeletion ≺ LookupKey [Byte.x61] 6 /\
  ~ EncodeInternalKey [Byte.x61] 6 kDeletion ≺ LookupKey [Byte.x61] 6.
Proof.
  assert (0 <= 6 <= kMaxSequenceNumber) as H6 by (vm_compute; intuition congruence).
  assert (0 <= 7 <= kMaxSequenceNumber) as H7 by (vm_compute; intuition congruence). split.
  - apply (lookup_key_separates [Byte.x61] 7 kDeletion [Byte.x61] 6 H7 H6). right. split; [reflexivity|lia].
  - rewrite (proj1 (lookup_key_separates [Byte.x61] 6 kDeletion [Byte.x61] 6 H6 H6)).
    intros [H|[_ H]]; [vm_compute in H; discriminate|lia].
Defined.
