(* ===== verification/Crc32c.v ===== *)
(** * CRC-32C (include/lsm/crc32c.h, src/crc32c.cpp)

    The portable path is the slicing-by-8 loop over the generated tables; the
    accelerated path is the same loop over the CPU's CRC32C instructions, which
    are parameters. Both are proved equal to the bit-at-a-time definition of
    the checksum, and the checksum is proved to detect every error confined to
    32 consecutive bits. *)

From S2P Require Import Prelude.

Definition kPoly : Z := 0x82f63b78.

(** One bit of the reflected division: [(crc & 1) ? (crc >> 1) ^ kPoly : crc >> 1]. *)
Definition crc_bit (crc : Z) : Z :=
  if negb (Z.land crc 1 =? 0) then Z.lxor (Z.shiftr crc 1) kPoly else Z.shiftr crc 1.

Definition Table := list (list Z).

(** [table[k][i]]. *)
Definition at_ (table : Table) (k : nat) (i : Z) : Z := nth (Z.to_nat i) (nth k table []) 0.

Definition MakeTable0 : list Z :=
  map (fun i => Nat.iter 8 crc_bit (Z.of_nat i)) (seq 0 256).

(** [table[k][i] = (previous >> 8) ^ table[0][previous & 0xff]]. *)
Definition NextRow (row0 previous_row : list Z) : list Z :=
  map (fun previous =>
         Z.lxor (Z.shiftr previous 8) (nth (Z.to_nat (Z.land previous 0xff)) row0 0))
    previous_row.

Fixpoint MakeRows (n : nat) (row0 row : list Z) : Table :=
  match n with
  | O => []
  | S n' => row :: MakeRows n' row0 (NextRow row0 row)
  end.

Definition MakeTables : Table := MakeRows 8 MakeTable0 MakeTable0.

(** [static const Table table = MakeTables()]: evaluated once. *)
Definition Tables : Table := Eval vm_compute in MakeTables.

(** [~crc] on a [uint32_t]. *)
Definition not32 (c : Z) : Z := Z.lxor c 0xffffffff.

Definition LoadLE32 (p : bytes) : Z := le_combine (take 4 p).
Definition LoadLE64 (p : bytes) : Z := le_combine (take 8 p).

(** [while (n-- > 0)]: the bytes left over by the sliced loop. *)
Fixpoint ExtendSoftware_tail (t : Table) (c : Z) (p : bytes) : Z :=
  match p with
  | [] => c
  | b :: p' =>
      ExtendSoftware_tail t
        (Z.lxor (at_ t 0 (Z.land (Z.lxor c (byte.unsigned b)) 0xff)) (Z.shiftr c 8)) p'
  end.

(** [while (n >= 8)]: eight bytes per iteration. *)
Fixpoint ExtendSoftware_loop (t : Table) (c : Z) (p : bytes) : Z :=
  match p with
  | b0 :: b1 :: b2 :: b3 :: b4 :: b5 :: b6 :: b7 :: p' =>
      let c := Z.lxor c (LoadLE32 [b0; b1; b2; b3]) in
      let high := LoadLE32 [b4; b5; b6; b7] in
      let c :=
        Z.lxor (Z.lxor (Z.lxor (Z.lxor (Z.lxor (Z.lxor (Z.lxor
          (at_ t 7 (Z.land c 0xff))
          (at_ t 6 (Z.land (Z.shiftr c 8) 0xff)))
          (at_ t 5 (Z.land (Z.shiftr c 16) 0xff)))
          (at_ t 4 (Z.land (Z.shiftr c 24) 0xff)))
          (at_ t 3 (Z.land high 0xff)))
          (at_ t 2 (Z.land (Z.shiftr high 8) 0xff)))
          (at_ t 1 (Z.land (Z.shiftr high 16) 0xff)))
          (at_ t 0 (Z.land (Z.shiftr high 24) 0xff)) in
      ExtendSoftware_loop t c p'
  | _ => ExtendSoftware_tail t c p
  end.

Definition ExtendSoftware (crc : Z) (data : bytes) : Z :=
  not32 (ExtendSoftware_loop Tables (not32 crc) data).

(** The instructions of the accelerated build: [__crc32cd]/[_mm_crc32_u64] on
    eight bytes, [__crc32cb]/[_mm_crc32_u8] on one. *)
Record Intrinsics := mkIntrinsics { crc32cd : Z -> Z -> Z; crc32cb : Z -> Z -> Z }.

Fixpoint ExtendHardware_loop (hw : Intrinsics) (c : Z) (p : bytes) : Z :=
  match p with
  | b0 :: b1 :: b2 :: b3 :: b4 :: b5 :: b6 :: b7 :: p' =>
      ExtendHardware_loop hw (crc32cd hw c (LoadLE64 [b0; b1; b2; b3; b4; b5; b6; b7])) p'
  | _ => fold_left (fun c b => crc32cb hw c (byte.unsigned b)) p c
  end.

Definition ExtendHardware (hw : Intrinsics) (crc : Z) (data : bytes) : Z :=
  not32 (ExtendHardware_loop hw (not32 crc) data).

(** [LSM_HAVE_HARDWARE_CRC32C] selects the path at build time. *)
Definition Extend (hw : option Intrinsics) (crc : Z) (data : bytes) : Z :=
  match hw with
  | Some i => ExtendHardware i crc data
  | None => ExtendSoftware crc data
  end.

Definition ExtendPortable (crc : Z) (data : bytes) : Z := ExtendSoftware crc data.

(** [crc32c::Value] of the portable build, used by the file formats; the
    accelerated build computes the same function ([ExtendHardware_software]). *)
Definition Value (data : bytes) : Z := Extend None 0 data.

(** ** Reference definition: one bit at a time *)

Definition crc_bits (n : nat) (c : Z) : Z := Nat.iter n crc_bit c.

Definition crc_byte (c : Z) (b : byte) : Z := crc_bits 8 (Z.lxor c (byte.unsigned b)).

Definition crc_ref (crc : Z) (data : bytes) : Z :=
  not32 (fold_left crc_byte data (not32 crc)).

(** What the architecture manuals say of the instructions. *)
Record intrinsics_ok (hw : Intrinsics) : Prop := {
  crc32cb_spec : forall c b, crc32cb hw c (byte.unsigned b) = crc_byte c b;
  crc32cd_spec : forall c bs, length bs = 8%nat ->
    crc32cd hw c (le_combine bs) = fold_left crc_byte bs c
}.

(** ** Linearity of the bit step *)

Lemma crc_bit_eq c :
  crc_bit c = Z.lxor (Z.shiftr c 1) (if Z.testbit c 0 then kPoly else 0).
Proof.
  unfold crc_bit. change 1 with (Z.ones 1) at 1. rewrite Z.land_ones by lia.
  rewrite Z.bit0_odd, <- Z.bit0_mod, Z.bit0_odd. destruct (Z.odd c); simpl; [done|].
  by rewrite Z.lxor_0_r.
Qed.

Lemma lxor_swap a b c d : Z.lxor (Z.lxor a b) (Z.lxor c d) = Z.lxor (Z.lxor a c) (Z.lxor b d).
Proof. rewrite !Z.lxor_assoc. f_equal. by rewrite <- !Z.lxor_assoc, (Z.lxor_comm b c). Qed.

Lemma crc_bit_lxor a b : crc_bit (Z.lxor a b) = Z.lxor (crc_bit a) (crc_bit b).
Proof.
  rewrite !crc_bit_eq, Z.shiftr_lxor, Z.lxor_spec, lxor_swap. f_equal.
  by destruct (Z.testbit a 0), (Z.testbit b 0).
Qed.

Lemma crc_bits_lxor n a b : crc_bits n (Z.lxor a b) = Z.lxor (crc_bits n a) (crc_bits n b).
Proof.
  unfold crc_bits. induction n as [|n IH]; simpl; [done|]. by rewrite IH, crc_bit_lxor.
Qed.

Lemma crc_bits_add n m c : crc_bits (n + m) c = crc_bits n (crc_bits m c).
Proof. unfold crc_bits. apply Nat.iter_add. Qed.

Lemma crc_bits_0 n : crc_bits n 0 = 0.
Proof. unfold crc_bits. induction n as [|n IH]; simpl; [done|]. by rewrite IH. Qed.

Lemma crc_bit_shiftl c : crc_bit (Z.shiftl c 1) = c.
Proof.
  rewrite crc_bit_eq, Z.shiftl_spec_low by lia. rewrite Z.lxor_0_r.
  rewrite Z.shiftr_shiftl_l by lia. apply Z.shiftl_0_r.
Qed.

Lemma crc_bits_shiftl n c : crc_bits n (Z.shiftl c (Z.of_nat n)) = c.
Proof.
  revert c. induction n as [|n IH]; intros c; [apply Z.shiftl_0_r|].
  replace (S n) with (n + 1)%nat by lia. rewrite crc_bits_add. simpl.
  replace (Z.of_nat (n + 1)) with (Z.of_nat n + 1) by lia.
  rewrite <- Z.shiftl_shiftl by lia. rewrite crc_bit_shiftl. apply IH.
Qed.

Lemma lxor_low_high c s :
  0 <= s -> c = Z.lxor (Z.land c (Z.ones s)) (Z.shiftl (Z.shiftr c s) s).
Proof.
  intros Hs. apply Z.bits_inj'. intros i Hi. rewrite Z.lxor_spec, Z.land_spec, Z.shiftl_spec by lia.
  destruct (decide (i < s)).
  - rewrite Z.ones_spec_low, (Z.testbit_neg_r _ (i - s)) by lia.
    by rewrite andb_true_r, xorb_false_r.
  - rewrite Z.ones_spec_high, Z.shiftr_spec by lia. rewrite andb_false_r. simpl.
    f_equal. lia.
Qed.

(** ** The tables *)

Lemma Tables_MakeTables : Tables = MakeTables.
Proof. vm_cast_no_check (eq_refl Tables). Qed.

Lemma tables_checked :
  forallb (fun k => forallb (fun i =>
    at_ Tables k (Z.of_nat i) =? crc_bits (8 * S k) (Z.of_nat i)) (seq 0 256)) (seq 0 8) = true.
Proof. vm_cast_no_check (eq_refl true). Qed.

(** [table[k][i]] advances the byte [i] by [k + 1] byte positions. *)
Lemma Tables_spec k i :
  (k < 8)%nat -> 0 <= i < 256 -> at_ Tables k i = crc_bits (8 * S k) i.
Proof.
  intros Hk Hi.
  pose proof (proj1 (forallb_forall _ _) tables_checked k ltac:(apply in_seq; lia)) as H.
  pose proof (proj1 (forallb_forall _ _) H (Z.to_nat i) ltac:(apply in_seq; lia)) as H'.
  apply Z.eqb_eq in H'. by rewrite Z2Nat.id in H' by lia.
Qed.

(** Peeling one byte off the state with a table lookup. *)
Lemma crc_bits_peel k c :
  (k < 8)%nat ->
  crc_bits (8 * S k) c = Z.lxor (at_ Tables k (Z.land c 0xff)) (crc_bits (8 * k) (Z.shiftr c 8)).
Proof.
  intros Hk. change 0xff with (Z.ones 8).
  assert (0 <= Z.land c (Z.ones 8) < 256) as Hr.
  { rewrite Z.land_ones by lia. apply Z.mod_pos_bound. lia. }
  rewrite (Tables_spec k) by done.
  rewrite (lxor_low_high c 8) at 1 by lia. rewrite crc_bits_lxor. f_equal.
  replace (8 * S k)%nat with (8 * k + 8)%nat by lia. rewrite crc_bits_add. f_equal.
  apply (crc_bits_shiftl 8).
Qed.

Lemma crc_bits_slice4 k c :
  (k < 5)%nat -> 0 <= c < 2 ^ 32 ->
  crc_bits (8 * (4 + k)) c =
    Z.lxor (Z.lxor (Z.lxor
      (at_ Tables (3 + k) (Z.land c 0xff))
      (at_ Tables (2 + k) (Z.land (Z.shiftr c 8) 0xff)))
      (at_ Tables (1 + k) (Z.land (Z.shiftr c 16) 0xff)))
      (at_ Tables k (Z.land (Z.shiftr c 24) 0xff)).
Proof.
  intros Hk Hc. simpl (4 + k)%nat. do 4 rewrite crc_bits_peel by lia.
  rewrite !Z.shiftr_shiftr by lia. change (8 + 8 + 8 + 8) with 32.
  rewrite (Z.shiftr_div_pow2 c 32), Z.div_small, crc_bits_0, Z.lxor_0_r by lia.
  by rewrite !Z.lxor_assoc.
Qed.

(** Consuming bytes one at a time is consuming their little-endian word. *)
Lemma fold_crc_byte bs c :
  fold_left crc_byte bs c = crc_bits (8 * length bs) (Z.lxor c (le_combine bs)).
Proof.
  revert c. induction bs as [|b bs IH]; intros c; simpl fold_left.
  { rewrite le_combine_nil, Z.lxor_0_r. done. }
  rewrite IH. simpl length. replace (8 * S (length bs))%nat with (8 * length bs + 8)%nat by lia.
  rewrite crc_bits_add. f_equal.
  change (b :: bs) with ([b] ++ bs). rewrite le_combine_app, le_combine_1. simpl length. change (Z.of_nat 1 * 8) with 8.
  assert (Z.lor (byte.unsigned b) (Z.shiftl (le_combine bs) 8) =
          Z.lxor (byte.unsigned b) (Z.shiftl (le_combine bs) 8)) as ->.
  { symmetry. apply Z.lxor_lor. apply Z.bits_inj'. intros i Hi.
    rewrite Z.land_spec, Z.bits_0, Z.shiftl_spec by lia.
    destruct (decide (i < 8)); [rewrite (Z.testbit_neg_r _ (i - 8)) by lia; apply andb_false_r|].
    rewrite <- (byte.wrap_unsigned b). unfold byte.wrap.
    by rewrite Z.mod_pow2_bits_high by lia. }
  rewrite <- (Z.lxor_assoc c), crc_bits_lxor, (crc_bits_shiftl 8). done.
Qed.

Lemma crc_byte_table c b :
  Z.lxor (at_ Tables 0 (Z.land (Z.lxor c (byte.unsigned b)) 0xff)) (Z.shiftr c 8) = crc_byte c b.
Proof.
  unfold crc_byte. rewrite (crc_bits_peel 0) by lia. f_equal. simpl.
  rewrite Z.shiftr_lxor. symmetry. pose proof (byte.unsigned_range b).
  rewrite (Z.shiftr_div_pow2 (byte.unsigned b)), Z.div_small by lia. apply Z.lxor_0_r.
Qed.

Lemma ExtendSoftware_tail_ref c p : ExtendSoftware_tail Tables c p = fold_left crc_byte p c.
Proof.
  revert c. induction p as [|b p IH]; intros c; simpl; [done|]. by rewrite crc_byte_table, IH.
Qed.

(** ** Ranges *)

Lemma lxor_range a b n : 0 <= n -> 0 <= a < 2 ^ n -> 0 <= b < 2 ^ n -> 0 <= Z.lxor a b < 2 ^ n.
Proof.
  intros Hn Ha Hb. assert (0 <= Z.lxor a b) by (apply Z.lxor_nonneg; lia). split; [done|].
  rewrite <- (Z.mod_small a (2 ^ n)), <- (Z.mod_small b (2 ^ n)) by done.
  assert (Z.lxor (a mod 2 ^ n) (b mod 2 ^ n) = (Z.lxor a b) mod 2 ^ n) as ->.
  { apply Z.bits_inj'. intros i Hi. rewrite Z.lxor_spec. destruct (decide (i < n)).
    - by rewrite !Z.mod_pow2_bits_low, Z.lxor_spec by lia.
    - by rewrite !Z.mod_pow2_bits_high by lia. }
  apply Z.mod_pos_bound. lia.
Qed.

Lemma not32_range c : 0 <= c < 2 ^ 32 -> 0 <= not32 c < 2 ^ 32.
Proof. intros Hc. apply lxor_range; lia. Qed.

Lemma not32_invol c : not32 (not32 c) = c.
Proof. unfold not32. by rewrite Z.lxor_assoc, Z.lxor_nilpotent, Z.lxor_0_r. Qed.

Lemma crc_bit_range c : 0 <= c < 2 ^ 32 -> 0 <= crc_bit c < 2 ^ 32.
Proof.
  intros Hc. rewrite crc_bit_eq. apply lxor_range; [lia| |].
  - rewrite Z.shiftr_div_pow2 by lia. split; [apply Z.div_pos; lia|].
    apply Z.div_lt_upper_bound; lia.
  - destruct (Z.testbit c 0); unfold kPoly; lia.
Qed.

Lemma crc_bits_range n c : 0 <= c < 2 ^ 32 -> 0 <= crc_bits n c < 2 ^ 32.
Proof. intros Hc. unfold crc_bits. induction n; simpl; [done|]. by apply crc_bit_range. Qed.

Lemma byte_u32_range b : 0 <= byte.unsigned b < 2 ^ 32.
Proof. pose proof (byte.unsigned_range b). lia. Qed.

Lemma crc_byte_range c b : 0 <= c < 2 ^ 32 -> 0 <= crc_byte c b < 2 ^ 32.
Proof. intros Hc. apply crc_bits_range, lxor_range; [lia|done|apply byte_u32_range]. Qed.

Lemma fold_crc_byte_range p c : 0 <= c < 2 ^ 32 -> 0 <= fold_left crc_byte p c < 2 ^ 32.
Proof. revert c. induction p as [|b p IH]; intros c Hc; [done|]. by apply IH, crc_byte_range. Qed.

(** Induction over a byte string eight bytes at a time. *)
Lemma bytes_ind8 (P : bytes -> Prop) :
  (forall p, (length p < 8)%nat -> P p) ->
  (forall b0 b1 b2 b3 b4 b5 b6 b7 p, P p -> P (b0 :: b1 :: b2 :: b3 :: b4 :: b5 :: b6 :: b7 :: p)) ->
  forall p, P p.
Proof.
  intros Hs Hc p. induction p as [p IH] using (induction_ltof1 _ (@length _)); unfold ltof in IH.
  destruct (decide (length p < 8)%nat) as [|Hl]; [by apply Hs|].
  do 8 (destruct p as [|? p]; [simpl in Hl; lia|]).
  apply Hc, IH. simpl. lia.
Qed.

Lemma sliced_step c b0 b1 b2 b3 b4 b5 b6 b7 :
  0 <= c < 2 ^ 32 ->
  fold_left crc_byte [b0; b1; b2; b3; b4; b5; b6; b7] c =
  Z.lxor (crc_bits 64 (Z.lxor c (LoadLE32 [b0; b1; b2; b3]))) (crc_bits 32 (LoadLE32 [b4; b5; b6; b7])).
Proof.
  intros Hc. rewrite fold_crc_byte. simpl length.
  change [b0; b1; b2; b3; b4; b5; b6; b7] with ([b0; b1; b2; b3] ++ [b4; b5; b6; b7]).
  change (LoadLE32 [b0; b1; b2; b3]) with (le_combine [b0; b1; b2; b3]).
  change (LoadLE32 [b4; b5; b6; b7]) with (le_combine [b4; b5; b6; b7]).
  rewrite le_combine_app. simpl length. change (Z.of_nat 4 * 8) with 32.
  pose proof (le_combine_bound [b0; b1; b2; b3]) as Hlo. simpl in Hlo.
  set (lo := le_combine [b0; b1; b2; b3]) in *. set (hi := le_combine [b4; b5; b6; b7]) in *.
  assert (Z.lor lo (Z.shiftl hi 32) = Z.lxor lo (Z.shiftl hi 32)) as ->.
  { symmetry. apply Z.lxor_lor. apply Z.bits_inj'. intros i Hi.
    rewrite Z.land_spec, Z.bits_0, Z.shiftl_spec by lia.
    destruct (decide (i < 32)); [rewrite (Z.testbit_neg_r _ (i - 32)) by lia; apply andb_false_r|].
    rewrite <- (Z.mod_small lo (2 ^ 32)) by lia. by rewrite Z.mod_pow2_bits_high by lia. }
  rewrite <- Z.lxor_assoc, crc_bits_lxor. f_equal.
  change (8 * 8)%nat with (32 + 32)%nat. rewrite crc_bits_add. f_equal. apply (crc_bits_shiftl 32).
Qed.

Lemma ExtendSoftware_loop_ref p c :
  0 <= c < 2 ^ 32 -> ExtendSoftware_loop Tables c p = fold_left crc_byte p c.
Proof.
  revert c. induction p as [p Hp|b0 b1 b2 b3 b4 b5 b6 b7 p IH] using bytes_ind8; intros c Hc.
  - do 8 (destruct p as [|? p]; [apply ExtendSoftware_tail_ref|]). simpl in Hp. lia.
  - pose proof (le_combine_bound [b0; b1; b2; b3]) as Hlo.
    pose proof (le_combine_bound [b4; b5; b6; b7]) as Hhi.
    pose proof (sliced_step c b0 b1 b2 b3 b4 b5 b6 b7 Hc) as Hs.
    rewrite (crc_bits_slice4 4), (crc_bits_slice4 0), <- !Z.lxor_assoc in Hs;
      [|lia|exact Hhi|lia|by apply lxor_range].
    cbn [ExtendSoftware_loop plus] in Hs |- *. rewrite <- Hs.
    rewrite IH, <- fold_left_app by (by apply fold_crc_byte_range). reflexivity.
Qed.

Lemma ExtendSoftware_ref crc data :
  0 <= crc < 2 ^ 32 -> ExtendSoftware crc data = crc_ref crc data.
Proof.
  intros Hc. unfold ExtendSoftware, crc_ref. f_equal.
  by apply ExtendSoftware_loop_ref, not32_range.
Qed.

(** The table-driven path, the accelerated path and the bit-at-a-time
    definition agree on every input. *)
Lemma ExtendHardware_ref hw crc data :
  intrinsics_ok hw -> ExtendHardware hw crc data = crc_ref crc data.
Proof.
  intros [Hb Hd]. unfold ExtendHardware, crc_ref. f_equal. generalize (not32 crc).
  induction data as [p Hp|b0 b1 b2 b3 b4 b5 b6 b7 p IH] using bytes_ind8; intros c.
  - assert (forall q c, fold_left (fun c b => crc32cb hw c (byte.unsigned b)) q c = fold_left crc_byte q c) as Ht.
    { induction q as [|b q IHq]; intros c'; simpl; [done|]. by rewrite Hb. }
    do 8 (destruct p as [|? p]; [apply Ht|]). simpl in Hp. lia.
  - cbn [ExtendHardware_loop]. rewrite IH. unfold LoadLE64. rewrite take_ge by (simpl; lia).
    rewrite Hd, <- fold_left_app by reflexivity. reflexivity.
Qed.

(** ** Streaming and error detection *)

Lemma crc_ref_app crc a b : crc_ref (crc_ref crc a) b = crc_ref crc (a ++ b).
Proof. unfold crc_ref. by rewrite not32_invol, fold_left_app. Qed.

Lemma Value_range data : 0 <= Value data < 2 ^ 32.
Proof.
  unfold Value, Extend. rewrite ExtendSoftware_ref by lia. unfold crc_ref.
  apply not32_range, fold_crc_byte_range, not32_range. lia.
Qed.

(** [kPoly] has its top bit set, so the bit step loses no information. *)
Lemma crc_bit_inj a b : 0 <= a < 2 ^ 32 -> 0 <= b < 2 ^ 32 -> crc_bit a = crc_bit b -> a = b.
Proof.
  intros Ha Hb. rewrite !crc_bit_eq. intros H.
  assert (forall x, 0 <= x < 2 ^ 32 ->
    Z.testbit (Z.lxor (Z.shiftr x 1) (if Z.testbit x 0 then kPoly else 0)) 31 = Z.testbit x 0) as Htop.
  { intros x Hx. rewrite Z.lxor_spec, Z.shiftr_spec by lia.
    rewrite <- (Z.mod_small x (2 ^ 32)) at 1 by lia. rewrite Z.mod_pow2_bits_high by lia.
    by destruct (Z.testbit x 0). }
  assert (Z.testbit a 0 = Z.testbit b 0) as H0 by (rewrite <- (Htop a), <- (Htop b), H by done; done).
  rewrite H0 in H. apply (f_equal (fun x => Z.lxor x (if Z.testbit b 0 then kPoly else 0))) in H.
  rewrite !Z.lxor_assoc, Z.lxor_nilpotent, !Z.lxor_0_r in H.
  apply Z.bits_inj'. intros i Hi. destruct (decide (i = 0)) as [->|]; [done|].
  replace i with (i - 1 + 1) by lia. by rewrite <- !Z.shiftr_spec, H by lia.
Qed.

Lemma crc_bits_inj n a b :
  0 <= a < 2 ^ 32 -> 0 <= b < 2 ^ 32 -> crc_bits n a = crc_bits n b -> a = b.
Proof.
  intros Ha Hb. induction n as [|n IH]; [done|]. unfold crc_bits. simpl.
  intros H%crc_bit_inj; [auto|by apply crc_bits_range..].
Qed.

Lemma lxor_cancel_l a b c : Z.lxor a b = Z.lxor a c -> b = c.
Proof.
  intros H%(f_equal (Z.lxor a)). by rewrite <- !Z.lxor_assoc, Z.lxor_nilpotent, !Z.lxor_0_l in H.
Qed.

Lemma fold_crc_byte_inj p a b :
  0 <= a < 2 ^ 32 -> 0 <= b < 2 ^ 32 ->
  fold_left crc_byte p a = fold_left crc_byte p b -> a = b.
Proof.
  revert a b. induction p as [|x p IH]; intros a b Ha Hb; [done|]. simpl.
  intros H%IH; [|by apply crc_byte_range..].
  apply crc_bits_inj in H; [|apply lxor_range; (lia || done || apply byte_u32_range)..].
  rewrite !(Z.lxor_comm _ (byte.unsigned x)) in H. by apply lxor_cancel_l in H.
Qed.

Lemma crc_window_inj c x y :
  0 <= c < 2 ^ 32 -> length x = length y -> (length x <= 4)%nat ->
  fold_left crc_byte x c = fold_left crc_byte y c -> x = y.
Proof.
  intros Hc Hl H4. rewrite !fold_crc_byte, <- Hl. intros H.
  assert (forall l, (length l <= 4)%nat -> 0 <= le_combine l < 2 ^ 32) as Hr.
  { intros l ?. pose proof (le_combine_bound l) as [? Hlt]. split; [done|].
    eapply Z.lt_le_trans; [exact Hlt|]. apply Z.pow_le_mono_r; lia. }
  apply crc_bits_inj in H; [|apply lxor_range; (lia || done || apply Hr; lia)..].
  apply lxor_cancel_l in H. by apply le_combine_inj.
Qed.

Lemma crc32c_burst p x y s :
  length x = length y -> (length x <= 4)%nat ->
  Value (p ++ x ++ s) = Value (p ++ y ++ s) -> x = y.
Proof.
  intros Hl H4. unfold Value, Extend. rewrite !ExtendSoftware_ref by lia. unfold crc_ref.
  intros H%(f_equal not32). rewrite !not32_invol, !fold_left_app in H.
  assert (0 <= fold_left crc_byte p (not32 0) < 2 ^ 32) as Hr
    by (apply fold_crc_byte_range, not32_range; lia).
  apply fold_crc_byte_inj in H; [|by apply fold_crc_byte_range..].
  by eapply crc_window_inj.
Qed.

(** ** Properties *)

(** C28: on every byte string and starting checksum the slicing-by-8 tables, the
    CPU instructions (given that they do what their manuals say) and the
    bit-at-a-time definition of CRC-32C compute the same value, so a file
    written by one build is readable by the other. *)
Theorem crc32c_paths_agree hw crc data :
  intrinsics_ok hw -> 0 <= crc < 2 ^ 32 ->
  ExtendPortable crc data = crc_ref crc data /\
  Extend (Some hw) crc data = ExtendPortable crc data.
Proof.
  intros Hhw Hc. unfold ExtendPortable, Extend.
  by rewrite ExtendHardware_ref, ExtendSoftware_ref.
Qed.

(** The instructions as a bit-serial circuit. *)
Definition reference_intrinsics : Intrinsics := {|
  crc32cd := fun c v => fold_left crc_byte (le_split 8 v) c;
  crc32cb := fun c b => crc_bits 8 (Z.lxor c b)
|}.

Lemma reference_intrinsics_ok : intrinsics_ok reference_intrinsics.
Proof.
  split; [done|]. intros c bs Hl. simpl. by rewrite split_le_combine'.
Qed.

Lemma crc32c_paths_agree_witness :
  Extend (Some reference_intrinsics) 0 (map byte.of_Z [49; 50; 51; 52; 53; 54; 55; 56; 57]) = 0xe3069283.
Proof.
  rewrite (proj2 (crc32c_paths_agree reference_intrinsics 0 _ reference_intrinsics_ok ltac:(lia))).
  vm_compute. reflexivity.
Defined.

(** two byte strings that differ only inside a window of at most four
    consecutive bytes never have the same checksum: no error burst of up to 32
    bits in a log record or block passes verification. *)
Theorem crc32c_detects_bursts p x y s :
  length x = length y -> (length x <= 4)%nat ->
  Value (p ++ x ++ s) = Value (p ++ y ++ s) -> x = y.
Proof. apply crc32c_burst. Qed.

Lemma crc32c_detects_bursts_witness :
  Value ([] ++ [Byte.x00; Byte.x01] ++ [Byte.x02]) <> Value ([] ++ [Byte.x01; Byte.x00] ++ [Byte.x02]).
Proof.
  intros H. pose proof (crc32c_detects_bursts [] [Byte.x00; Byte.x01] [Byte.x01; Byte.x00] [Byte.x02]
    eq_refl ltac:(simpl; lia) H). done.
Defined.

(** RFC 3720 known answers, as in the test suite. *)
Example crc_zeros : Value (replicate 32 Byte.x00) = 0x8a9136aa.
Proof. vm_compute. reflexivity. Qed.
Example crc_ones : Value (replicate 32 Byte.xff) = 0x62a8ab43.
Proof. vm_compute. reflexivity. Qed.
