(* ===== verification/Posix.v ===== *)
(** * The operating system as the engine sees it

    A [World] is the database directory (path to contents) and an oracle: the
    outcomes of the system calls still to come. An exhausted oracle means that
    every further call succeeds in full. Files are only ever appended to,
    truncated at open, renamed, unlinked and read, which is all the source
    does. *)

From S2P Require Import Prelude.

Inductive sysret :=
  | SysOk                    (** success; a transfer moves all it was asked to *)
  | SysShort (n : nat)       (** a transfer of at most [n] bytes *)
  | SysIntr                  (** -1 with EINTR *)
  | SysErr (errno : string). (** -1 with [strerror(errno)] *)

Record World := mkWorld {
  w_files : gmap string bytes;
  w_oracle : list sysret
}.

Definition with_files (f : gmap string bytes) (w : World) : World := mkWorld f (w_oracle w).
Definition with_oracle (o : list sysret) (w : World) : World := mkWorld (w_files w) o.

(** The contents of a path, empty when it does not exist. *)
Definition contents (w : World) (path : string) : bytes := default [] (w_files w !! path).

(** The outcome of the next call. *)
Definition next_ret (w : World) : sysret * World :=
  match w_oracle w with
  | [] => (SysOk, w)
  | r :: o => (r, with_oracle o w)
  end.

(** [what + ": " + strerror(errno)]. *)
Definition PosixError (what errno : string) : Status := Status.IOError (what ++ ": " ++ errno).

(** A call with no partial outcome: open, close, fsync, rename. *)
Definition sys_simple (what : string) (w : World) : Status * World :=
  match next_ret w with
  | (SysErr e, w') => (PosixError what e, w')
  | (SysIntr, w') => (PosixError what "Interrupted system call", w')
  | (_, w') => (Status.OK, w')
  end.

(** The loop of [WriteFully]: the status, the bytes that reached the file, and
    the oracle afterwards. It recurses on the oracle because a call that does
    not finish the transfer consumes an outcome. *)
Fixpoint write_loop (what : string) (oracle : list sysret) (data : bytes) : Status * bytes * list sysret :=
  match data with
  | [] => (Status.OK, [], oracle)
  | _ =>
      match oracle with
      | [] => (Status.OK, data, [])
      | SysOk :: o => (Status.OK, data, o)
      | SysShort n :: o =>
          let '(s, written, o') := write_loop what o (drop n data) in
          (s, take n data ++ written, o')
      | SysIntr :: o => write_loop what o data
      | SysErr e :: o => (PosixError what e, [], o)
      end
  end.

(** The loop with the message of its caller; the table and log writers say
    [write]. *)
Definition WriteAll (what path : string) (data : bytes) (w : World) : Status * World :=
  let '(s, written, o) := write_loop what (w_oracle w) data in
  (s, mkWorld (<[path := contents w path ++ written]> (w_files w)) o).

Definition WriteFully : string -> bytes -> World -> Status * World := WriteAll "write".

(** [read] into a 64 KiB chunk until it returns zero. *)
Fixpoint read_loop (fuel : nat) (what : string) (oracle : list sysret) (rest buf : bytes)
  : Status * bytes * list sysret :=
  match fuel with
  | O => (Status.OK, buf, oracle)
  | S fuel' =>
      let chunk (n : nat) (o : list sysret) :=
        match rest with
        | [] => (Status.OK, buf, o)
        | _ => read_loop fuel' what o (drop n rest) (buf ++ take n rest)
        end in
      match oracle with
      | [] => chunk (Nat.pow 2 16) []
      | SysOk :: o => chunk (Nat.pow 2 16) o
      | SysShort n :: o => chunk (Nat.min (Nat.max 1 n) (Nat.pow 2 16)) o
      | SysIntr :: o => read_loop fuel' what o rest buf
      | SysErr e :: o => (PosixError what e, buf, o)
      end
  end.

Definition ReadAll (path what : string) (w : World) : Status * bytes * World :=
  let data := contents w path in
  let '(s, buf, o) :=
    read_loop (S (length data + length (w_oracle w))) what (w_oracle w) data [] in
  (s, buf, with_oracle o w).

(** [unlink], its outcome ignored. *)
Definition sys_unlink (path : string) (w : World) : World :=
  match next_ret w with
  | (SysOk, w) | (SysShort _, w) => with_files (delete path (w_files w)) w
  | (_, w) => w
  end.

(** [rename], atomic. *)
Definition sys_rename (what from to : string) (w : World) : Status * World :=
  let '(s, w) := sys_simple what w in
  (s, if Status.ok s then with_files (<[to := contents w from]> (delete from (w_files w))) w else w).

(** ** Lemmas *)

Lemma write_loop_ok what oracle data s written o :
  write_loop what oracle data = (s, written, o) ->
  exists tail, data = written ++ tail /\ (Status.ok s = true -> tail = []).
Proof.
  revert data s written o. induction oracle as [|r oracle IH]; intros data s written o.
  { destruct data; simpl; intros [= <- <- <-]; eexists; (split; [by rewrite ?app_nil_r|done]). }
  destruct data as [|b data].
  { simpl. intros [= <- <- <-]. exists []. done. }
  cbn [write_loop]. destruct r as [|n| |e].
  - intros [= <- <- <-]. exists []. by rewrite app_nil_r.
  - destruct (write_loop what oracle (drop n (b :: data))) as [[s' w'] o'] eqn:E.
    intros [= <- <- <-]. destruct (IH _ _ _ _ E) as (tail & Ht & Hs). exists tail.
    split; [|done]. by rewrite <- app_assoc, <- Ht, take_drop.
  - intros E. eauto.
  - intros [= <- <- <-]. exists (b :: data). done.
Qed.

Lemma write_loop_no_faults what data : write_loop what [] data = (Status.OK, data, []).
Proof. by destruct data. Qed.

(** A transfer interrupted any number of times, in pieces of any size, still
    writes everything unless a call fails. *)
Lemma write_loop_progress what oracle data :
  Forall (fun r => match r with SysErr _ => False | _ => True end) oracle ->
  exists o, write_loop what oracle data = (Status.OK, data, o).
Proof.
  revert data. induction oracle as [|r oracle IH]; intros data Hr.
  { exists []. apply write_loop_no_faults. }
  apply Forall_cons in Hr as [Hr Hrs].
  destruct data as [|b data]; [by eexists|]. cbn [write_loop]. destruct r as [|n| |e].
  - by eexists.
  - destruct (IH (drop n (b :: data)) Hrs) as [o ->]. exists o. by rewrite take_drop.
  - by apply IH.
  - done.
Qed.

Lemma WriteAll_no_faults what path data w :
  w_oracle w = [] ->
  WriteAll what path data w =
    (Status.OK, mkWorld (<[path := contents w path ++ data]> (w_files w)) []).
Proof. intros Ho. unfold WriteAll. by rewrite Ho, write_loop_no_faults. Qed.

Lemma WriteAll_ok what path data w s w' :
  WriteAll what path data w = (s, w') ->
  exists written tail, data = written ++ tail /\ (Status.ok s = true -> tail = []) /\
    w_files w' = <[path := contents w path ++ written]> (w_files w).
Proof.
  unfold WriteAll. destruct (write_loop _ _ _) as [[s0 written] o] eqn:E. intros [= <- <-].
  destruct (write_loop_ok _ _ _ _ _ _ E) as (tail & ? & ?). by exists written, tail.
Qed.

Lemma read_loop_no_faults fuel what rest buf :
  (length rest < fuel)%nat -> read_loop fuel what [] rest buf = (Status.OK, buf ++ rest, []).
Proof.
  revert rest buf. induction fuel as [|fuel IH]; intros rest buf Hf; [lia|].
  cbn [read_loop]. destruct rest as [|b rest]; [by rewrite app_nil_r|].
  rewrite IH; [by rewrite <- app_assoc, take_drop|].
  rewrite length_drop. pose proof (Nat.pow_nonzero 2 16). simpl length in *. lia.
Qed.

Lemma ReadAll_no_faults path what w :
  w_oracle w = [] -> ReadAll path what w = (Status.OK, contents w path, w).
Proof.
  intros Ho. unfold ReadAll. rewrite Ho, read_loop_no_faults by lia.
  simpl. by destruct w; simpl in *; subst.
Qed.

(** A read that reports success has read everything, however many calls it took. *)
Lemma read_loop_ok fuel what : forall oracle rest buf s buf' o,
  (length rest + length oracle < fuel)%nat -> read_loop fuel what oracle rest buf = (s, buf', o) ->
  Status.ok s = true -> s = Status.OK /\ buf' = buf ++ rest.
Proof.
  induction fuel as [|fuel IH]; intros oracle rest buf s buf' o Hf; [lia|].
  assert (forall n o', (1 <= n)%nat -> (length rest + length o' < S fuel)%nat ->
    match rest with [] => (Status.OK, buf, o') | _ => read_loop fuel what o' (drop n rest) (buf ++ take n rest) end = (s, buf', o) ->
    Status.ok s = true -> s = Status.OK /\ buf' = buf ++ rest) as Hchunk.
  { intros n o' Hn Hl. destruct rest as [|b rest]; [intros [= <- <- <-]; by rewrite app_nil_r|]. intros E Hs.
    apply IH in E as [-> ->]; [|rewrite length_drop; simpl in *; lia|done]. by rewrite <- app_assoc, take_drop. }
  assert (1 <= Nat.pow 2 16)%nat as Hp by (pose proof (Nat.pow_nonzero 2 16); lia).
  cbn [read_loop]. destruct oracle as [|[|n| |er] oracle]; simpl in Hf.
  - apply Hchunk; [done|simpl; lia].
  - apply Hchunk; [done|lia].
  - apply Hchunk; [|lia]. lia.
  - intros E Hs. apply IH in E; [done|lia|done].
  - by intros [= <- <- <-].
Qed.

Lemma ReadAll_ok path what w s buf w' :
  ReadAll path what w = (s, buf, w') ->
  w_files w' = w_files w /\ (w_oracle w = [] -> s = Status.OK /\ w_oracle w' = []) /\
  (Status.ok s = true -> s = Status.OK /\ buf = contents w path).
Proof.
  intros E. split_and!.
  - unfold ReadAll in E. destruct (read_loop _ _ _ _ _) as [[? ?] ?]. by injection E as <- <- <-.
  - intros Ho. rewrite ReadAll_no_faults in E by done. by injection E as <- <- <-.
  - unfold ReadAll in E. destruct (read_loop _ _ _ _ _) as [[s0 b0] o0] eqn:El. injection E as <- <- <-.
    intros Hs. apply read_loop_ok in El; [done|lia|done].
Qed.

(** ** Frames: what an operation on one file leaves alone *)

Definition touches (path : string) (w w' : World) : Prop :=
  (forall p, p <> path -> w_files w' !! p = w_files w !! p) /\ (w_oracle w = [] -> w_oracle w' = []).

#[export] Instance touches_preorder path : PreOrder (touches path).
Proof.
  split; [done|]. intros a b c [H1 H2] [H3 H4]. split; [|tauto].
  intros p Hp. by rewrite H3, H1.
Qed.

Lemma WriteAll_spec what path data w s w' :
  WriteAll what path data w = (s, w') ->
  touches path w w' /\ (w_oracle w = [] -> s = Status.OK) /\
  (Status.ok s = true -> w_files w' !! path = Some (contents w path ++ data)).
Proof.
  intros E. pose proof E as Hok. apply WriteAll_ok in Hok as (written & tail & Hd & Ht & Hf).
  split_and!; [split| |].
  - intros p Hp. rewrite Hf. by apply lookup_insert_ne.
  - intros Ho. rewrite (WriteAll_no_faults _ _ _ _ Ho) in E. by injection E as <- <-.
  - intros Ho. rewrite (WriteAll_no_faults _ _ _ _ Ho) in E. by injection E as <- <-.
  - intros Hs. rewrite Hf, lookup_insert_eq, Hd, (Ht Hs). by rewrite app_nil_r.
Qed.

Lemma sys_simple_spec what path w s w' :
  sys_simple what w = (s, w') ->
  touches path w w' /\ w_files w' = w_files w /\ (w_oracle w = [] -> s = Status.OK).
Proof.
  unfold sys_simple, next_ret, touches. destruct w as [f [|[| | |e] o]]; simpl; intros [= <- <-]; done.
Qed.

Lemma contents_Some w path f : w_files w !! path = Some f -> contents w path = f.
Proof. unfold contents. by intros ->. Qed.

Lemma sys_unlink_spec path w : touches path w (sys_unlink path w).
Proof.
  unfold sys_unlink, next_ret, touches. destruct w as [f [|[| | |e] o]]; simpl; (split; [|done]); intros p Hp; try done;
    by apply lookup_delete_ne.
Qed.
