(* ===== verification/WriteBatch.v ===== *)
(** * Write batches (include/lsm/write_batch.h, src/write_batch.cpp)

    A batch is its encoded entries and their count. [Decode] takes its handler
    as a state transformer, so that one definition serves every caller: the
    write path inserting into the memtable, recovery, and a plain listing. *)

From S2P Require Import Prelude Coding InternalKey.

Record WriteBatch := mkWriteBatch { rep_ : bytes; count_ : Z }.

Definition empty_batch : WriteBatch := mkWriteBatch [] 0.

Definition EncodeEntry (dst : bytes) (type : ValueType) (key value : bytes) : bytes :=
  let dst := dst ++ [byte.of_Z (type_code type)] in
  let dst := PutVarint32 dst (u32 (size key)) in
  let dst := dst ++ key in
  let dst := PutVarint32 dst (u32 (size value)) in
  dst ++ value.

Definition Put (b : WriteBatch) (key value : bytes) : WriteBatch :=
  mkWriteBatch (EncodeEntry (rep_ b) kValue key value) (u32 (count_ b + 1)).

Definition Delete (b : WriteBatch) (key : bytes) : WriteBatch :=
  mkWriteBatch (EncodeEntry (rep_ b) kDeletion key []) (u32 (count_ b + 1)).

Definition Append (b other : WriteBatch) : WriteBatch :=
  mkWriteBatch (rep_ b ++ rep_ other) (u32 (count_ b + count_ other)).

Definition Clear (b : WriteBatch) : WriteBatch := mkWriteBatch [] 0.

Definition Count (b : WriteBatch) : Z := count_ b.
Definition empty (b : WriteBatch) : bool := count_ b =? 0.
Definition ApproximateSize (b : WriteBatch) : Z := size (rep_ b).
Definition entries (b : WriteBatch) : bytes := rep_ b.

(** [static_cast<ValueType>] of a byte, refused unless it names a type. *)
Definition type_of_byte (b : byte) : option ValueType :=
  if byte.unsigned b =? 0 then Some kDeletion
  else if byte.unsigned b =? 1 then Some kValue
  else None.

(** A varint length followed by that many bytes. *)
Definition GetSlice (p : bytes) : option (bytes * bytes) :=
  match GetVarint32Ptr p with
  | Some (len, p') =>
      if size p' <? len then None
      else Some (take (Z.to_nat len) p', drop (Z.to_nat len) p')
  | None => None
  end.

(** One iteration of the decoding loop: an entry and the bytes after it. *)
Definition DecodeOne (p : bytes) : Status + (ValueType * bytes * bytes * bytes) :=
  match p with
  | [] => inl (Status.Corruption "write batch ended early")
  | c :: p =>
      match type_of_byte c with
      | None => inl (Status.Corruption "write batch has an unknown entry type")
      | Some type =>
          match GetSlice p with
          | None => inl (Status.Corruption "write batch has a truncated key")
          | Some (key, p) =>
              match GetSlice p with
              | None => inl (Status.Corruption "write batch has a truncated value")
              | Some (value, p) => inr (type, key, value, p)
              end
          end
      end
  end.

Section Decode.
Context {St : Type} (handler : ValueType -> bytes -> bytes -> St -> St).

(** [for (i = 0; i < count; ++i)], with [count] the iterations left. Every
    iteration consumes a byte, so the length of the input is enough fuel. *)
Fixpoint Decode_loop (fuel : nat) (p : bytes) (count : Z) (st : St) : Status * St :=
  if count =? 0 then
    match p with
    | [] => (Status.OK, st)
    | _ => (Status.Corruption "write batch has trailing bytes", st)
    end
  else
    match fuel with
    | O => (Status.Corruption "write batch ended early", st)
    | S fuel' =>
        match DecodeOne p with
        | inl s => (s, st)
        | inr (type, key, value, p') =>
            Decode_loop fuel' p' (count - 1) (handler type key value st)
        end
    end.

Definition Decode (entries : bytes) (count : Z) (st : St) : Status * St :=
  Decode_loop (length entries) entries count st.

Definition ForEach (b : WriteBatch) (st : St) : Status * St := Decode (rep_ b) (count_ b) st.

End Decode.

(** ** Specification: a batch is a list of operations *)

Definition op : Type := ValueType * bytes * bytes.

Definition op_wf (o : op) : Prop :=
  let '(t, k, v) := o in size k < 2 ^ 32 /\ size v < 2 ^ 32 /\ (t = kDeletion -> v = []).

Definition encode_op (o : op) : bytes := let '(t, k, v) := o in EncodeEntry [] t k v.
Definition encode_ops (ops : list op) : bytes := concat (map encode_op ops).

Definition run_ops {St} (handler : ValueType -> bytes -> bytes -> St -> St)
    (ops : list op) (st : St) : St :=
  fold_left (fun st (o : op) => let '(t, k, v) := o in handler t k v st) ops st.

(** The batch holds exactly [ops], in order. *)
Record batch_repr (b : WriteBatch) (ops : list op) : Prop := {
  br_rep : rep_ b = encode_ops ops;
  br_count : count_ b = u32 (size ops);
  br_wf : Forall op_wf ops
}.

(** ** Lemmas *)

Lemma EncodeEntry_eq dst t k v :
  size k < 2 ^ 32 -> size v < 2 ^ 32 ->
  EncodeEntry dst t k v =
    dst ++ byte.of_Z (type_code t) :: PutVarint32 [] (size k) ++ k ++ PutVarint32 [] (size v) ++ v.
Proof.
  intros Hk Hv. unfold EncodeEntry.
  rewrite !u32_id by (split; [apply size_nonneg|done]).
  rewrite PutVarint32_app, (PutVarint32_app (_ ++ _)). by rewrite <- !app_assoc.
Qed.

Lemma EncodeEntry_app dst t k v : EncodeEntry dst t k v = dst ++ EncodeEntry [] t k v.
Proof.
  unfold EncodeEntry. rewrite !(PutVarint32_app (_ ++ _)). by rewrite <- !app_assoc.
Qed.

Lemma GetSlice_Put k rest :
  size k < 2 ^ 32 -> GetSlice (PutVarint32 [] (size k) ++ k ++ rest) = Some (k, rest).
Proof.
  intros Hk. unfold GetSlice.
  rewrite GetVarint32Ptr_Put by (split; [apply size_nonneg|done]).
  rewrite size_app. pose proof (size_nonneg rest). zcase.
  unfold size. by rewrite Nat2Z.id, take_app_length, drop_app_length.
Qed.

Lemma GetSlice_shrinks p k rest : GetSlice p = Some (k, rest) -> (length rest < length p)%nat.
Proof.
  unfold GetSlice. destruct (GetVarint32Ptr p) as [[len p']|] eqn:E; [|done].
  apply GetVarint32Ptr_inv in E as (pre & -> & Hpre & _). zcase; [done|].
  intros [= <- <-]. unfold size in *. rewrite length_app, length_drop. lia.
Qed.

Lemma type_of_byte_code t : type_of_byte (byte.of_Z (type_code t)) = Some t.
Proof. by destruct t. Qed.

Lemma DecodeOne_encode o rest :
  op_wf o -> DecodeOne (encode_op o ++ rest) = inr (o, rest).
Proof.
  destruct o as [[t k] v]. intros (Hk & Hv & _). cbn [encode_op].
  rewrite EncodeEntry_eq by done. simpl. rewrite type_of_byte_code, <- !app_assoc.
  by rewrite !GetSlice_Put.
Qed.

Lemma DecodeOne_shrinks p t k v rest :
  DecodeOne p = inr (t, k, v, rest) -> (length rest < length p)%nat.
Proof.
  unfold DecodeOne. destruct p as [|c p]; [done|]. destruct (type_of_byte c); [|done].
  destruct (GetSlice p) as [[k' p1]|] eqn:E1; [|done].
  destruct (GetSlice p1) as [[v' p2]|] eqn:E2; [|done].
  intros [= <- <- <- <-]. apply GetSlice_shrinks in E1, E2. simpl. lia.
Qed.

Lemma encode_op_nonempty o : encode_op o <> [].
Proof.
  destruct o as [[t k] v]. cbn [encode_op]. unfold EncodeEntry.
  by rewrite (PutVarint32_app (PutVarint32 _ _ ++ _)), (PutVarint32_app ([] ++ _)).
Qed.

Lemma encode_ops_length ops : (length ops <= length (encode_ops ops))%nat.
Proof.
  induction ops as [|o ops IH]; [done|]. unfold encode_ops in *. simpl. rewrite length_app.
  pose proof (encode_op_nonempty o). destruct (encode_op o); [done|]. simpl. lia.
Qed.

Section DecodeLemmas.
Context {St : Type} (h : ValueType -> bytes -> bytes -> St -> St).

(** More fuel than bytes never changes the outcome. *)
Lemma Decode_loop_fuel fuel p count st :
  (length p <= fuel)%nat -> Decode_loop h fuel p count st = Decode_loop h (length p) p count st.
Proof using.
  revert p count st. induction fuel as [fuel IH] using lt_wf_ind. intros p count st Hf.
  destruct (decide (fuel = length p)) as [->|]; [done|].
  destruct fuel as [|fuel]; [lia|].
  destruct p as [|c p].
  { simpl. by zcase. }
  simpl length. cbn [Decode_loop]. zcase; [done|].
  destruct (DecodeOne (c :: p)) as [|[[[t k] v] p']] eqn:E; [done|].
  apply DecodeOne_shrinks in E. simpl in E, Hf, n.
  rewrite (IH fuel), (IH (length p)) by lia. done.
Qed.

Lemma Decode_nil count st :
  Decode h [] count st =
    if count =? 0 then (Status.OK, st) else (Status.Corruption "write batch ended early", st).
Proof using. unfold Decode. simpl. by zcase. Qed.

Lemma Decode_cons o rest count st :
  op_wf o -> count <> 0 ->
  Decode h (encode_op o ++ rest) count st =
    Decode h rest (count - 1) (let '(t, k, v) := o in h t k v st).
Proof using.
  intros Ho Hc. unfold Decode.
  assert (length rest < length (encode_op o ++ rest))%nat as Hl.
  { rewrite length_app. pose proof (encode_op_nonempty o). destruct (encode_op o); [done|simpl; lia]. }
  destruct (length (encode_op o ++ rest)) as [|fuel] eqn:E; [lia|].
  cbn [Decode_loop]. zcase. rewrite DecodeOne_encode by done. destruct o as [[t k] v].
  apply Decode_loop_fuel. lia.
Qed.

Lemma Decode_zero p st : p <> [] ->
  Decode h p 0 st = (Status.Corruption "write batch has trailing bytes", st).
Proof using. intros Hp. unfold Decode. destruct p; done. Qed.

Lemma Decode_encode ops count st :
  Forall op_wf ops ->
  count = size ops -> Decode h (encode_ops ops) count st = (Status.OK, run_ops h ops st).
Proof using.
  revert count st. induction ops as [|o ops IH]; intros count st Hwf Hc.
  { unfold encode_ops. simpl. rewrite Decode_nil, Hc. done. }
  apply Forall_cons in Hwf as [Ho Hwf]. rewrite size_cons in Hc. pose proof (size_nonneg ops).
  unfold encode_ops. simpl. rewrite Decode_cons by (done || lia).
  rewrite IH by (done || lia). by destruct o as [[t k] v].
Qed.

Lemma Decode_wrong_count ops count st :
  Forall op_wf ops -> 0 <= count -> count <> size ops ->
  Status.IsCorruption (Decode h (encode_ops ops) count st).1 = true.
Proof using.
  revert count st. induction ops as [|o ops IH]; intros count st Hwf Hp Hc.
  { unfold encode_ops. simpl. rewrite Decode_nil. rewrite size_nil in Hc. by zcase. }
  apply Forall_cons in Hwf as [Ho Hwf]. rewrite size_cons in Hc.
  unfold encode_ops. simpl. destruct (decide (count = 0)) as [->|].
  - rewrite Decode_zero; [done|]. pose proof (encode_op_nonempty o). by destruct (encode_op o).
  - rewrite Decode_cons by done. apply IH; [done|lia..].
Qed.

End DecodeLemmas.

(** ** The representation is kept by every operation *)

Lemma encode_ops_app a b : encode_ops (a ++ b) = encode_ops a ++ encode_ops b.
Proof. unfold encode_ops. by rewrite map_app, concat_app. Qed.

Lemma encode_ops_snoc ops o : encode_ops (ops ++ [o]) = encode_ops ops ++ encode_op o.
Proof. rewrite encode_ops_app. unfold encode_ops. simpl. by rewrite app_nil_r. Qed.

Lemma u32_add_l a b : u32 (u32 a + b) = u32 (a + b).
Proof. unfold u32. apply Zplus_mod_idemp_l. Qed.

Lemma empty_batch_repr : batch_repr empty_batch [].
Proof. by split. Qed.

Lemma Put_repr b ops k v :
  batch_repr b ops -> size k < 2 ^ 32 -> size v < 2 ^ 32 ->
  batch_repr (Put b k v) (ops ++ [(kValue, k, v)]).
Proof.
  intros [Hr Hc Hw] Hk Hv. split; simpl.
  - by rewrite EncodeEntry_app, Hr, encode_ops_snoc.
  - by rewrite Hc, u32_add_l, size_app.
  - apply Forall_app. split; [done|]. by repeat constructor.
Qed.

Lemma Delete_repr b ops k :
  batch_repr b ops -> size k < 2 ^ 32 ->
  batch_repr (Delete b k) (ops ++ [(kDeletion, k, [])]).
Proof.
  intros [Hr Hc Hw] Hk. split; simpl.
  - by rewrite EncodeEntry_app, Hr, encode_ops_snoc.
  - by rewrite Hc, u32_add_l, size_app.
  - apply Forall_app. split; [done|]. by repeat constructor.
Qed.

Lemma Append_repr b c ops ops' :
  batch_repr b ops -> batch_repr c ops' -> batch_repr (Append b c) (ops ++ ops').
Proof.
  intros [Hr Hc Hw] [Hr' Hc' Hw']. split; simpl.
  - by rewrite Hr, Hr', encode_ops_app.
  - rewrite Hc, Hc', u32_add_l, Z.add_comm, u32_add_l, size_app. f_equal. lia.
  - by apply Forall_app.
Qed.

Lemma ForEach_repr {St} (h : ValueType -> bytes -> bytes -> St -> St) b ops st :
  batch_repr b ops -> size ops < 2 ^ 32 -> ForEach h b st = (Status.OK, run_ops h ops st).
Proof.
  intros [Hr Hc Hw] Hs. unfold ForEach. rewrite Hr, Hc, u32_id by (split; [apply size_nonneg|done]).
  by apply Decode_encode.
Qed.

(** ** A batch as its caller builds it *)

Definition apply_op (b : WriteBatch) (o : op) : WriteBatch :=
  match o with
  | (kValue, k, v) => Put b k v
  | (kDeletion, k, _) => Delete b k
  end.

Definition build (ops : list op) : WriteBatch := fold_left apply_op ops empty_batch.

Lemma build_repr_from ops : forall b ops0,
  batch_repr b ops0 -> Forall op_wf ops -> batch_repr (fold_left apply_op ops b) (ops0 ++ ops).
Proof.
  induction ops as [|[[t k] v] ops IH]; intros b ops0 Hb Hwf; [by rewrite app_nil_r|].
  apply Forall_cons in Hwf as [(Hk & Hv & Hd) Hwf]. simpl.
  rewrite (cons_middle (t, k, v)), app_assoc. apply IH; [|done].
  destruct t; [rewrite (Hd eq_refl); by apply Delete_repr|by apply Put_repr].
Qed.

Lemma build_repr ops : Forall op_wf ops -> batch_repr (build ops) ops.
Proof. intros H. apply (build_repr_from ops empty_batch []); [apply empty_batch_repr|done]. Qed.

(** A batch built by any sequence of [Put] and [Delete], also after being
    appended to another batch, hands exactly those operations to the handler,
    in insertion order, and reports success. *)
Theorem write_batch_roundtrip {St} (h : ValueType -> bytes -> bytes -> St -> St) ops ops' st :
  Forall op_wf ops -> Forall op_wf ops' -> size ops + size ops' < 2 ^ 32 ->
  ForEach h (Append (build ops) (build ops')) st = (Status.OK, run_ops h (ops ++ ops') st) /\
  Count (Append (build ops) (build ops')) = size ops + size ops'.
Proof.
  intros H1 H2 Hs. pose proof (Append_repr _ _ _ _ (build_repr _ H1) (build_repr _ H2)) as Hr.
  pose proof (size_nonneg ops). pose proof (size_nonneg ops').
  split; [apply ForEach_repr; [done|rewrite size_app; lia]|].
  unfold Count. rewrite (br_count _ _ Hr), size_app. apply u32_id. lia.
Qed.

(** An entry count that disagrees with the encoded bytes, in either
    direction, is reported as corruption. *)
Theorem write_batch_count_guard {St} (h : ValueType -> bytes -> bytes -> St -> St) ops count st :
  Forall op_wf ops -> 0 <= count -> count <> size ops ->
  Status.IsCorruption (Decode h (entries (build ops)) count st).1 = true.
Proof.
  intros Hw Hc Hn. unfold entries. rewrite (br_rep _ _ (build_repr ops Hw)). by apply Decode_wrong_count.
Qed.

Definition demo_ops : list op := [(kValue, [Byte.x61], [Byte.x31]); (kDeletion, [Byte.x62], [])].

Lemma demo_ops_wf : Forall op_wf demo_ops.
Proof. repeat (constructor; [vm_compute; intuition congruence|]). constructor. Qed.

Lemma write_batch_roundtrip_witness :
  ForEach (fun t k v l => l ++ [(t, k, v)]) (Append (build demo_ops) (build demo_ops)) [] =
    (Status.OK, demo_ops ++ demo_ops).
Proof.
  apply (write_batch_roundtrip (fun t k v l => l ++ [(t, k, v)]) demo_ops demo_ops []);
    [apply demo_ops_wf|apply demo_ops_wf|vm_compute; reflexivity].
Defined.

Lemma write_batch_count_guard_witness :
  Status.IsCorruption (Decode (fun t k v (l : list op) => l) (entries (build demo_ops)) 3 []).1 = true.
Proof.
  apply (write_batch_count_guard (fun t k v (l : list op) => l) demo_ops 3 []);
    [apply demo_ops_wf|lia|vm_compute; discriminate].
Defined.
