(* ===== verification/Wal.v ===== *)
(** * The write-ahead log (include/lsm/wal.h, src/wal.cpp)

    [WalWriter] appends one record per batch to a file of the [World];
    [Replay] reads a file back and hands every entry to its handler, which is a
    state transformer. *)

From S2P Require Import Prelude Coding InternalKey Crc32c Posix WriteBatch.

Definition kHeaderSize : Z := 8.
Definition kFileHeaderSize : Z := 8.
Definition kFileMagic : bytes := [Byte.x4c; Byte.x53; Byte.x4d; Byte.x57; Byte.x41; Byte.x4c; Byte.x00].
Definition kFormatVersion : byte := Byte.x02.

(** ** Writer *)

Record WalWriter := mkWalWriter {
  fd_ : option string;              (** the open file, or -1 *)
  file_size_ : Z;
  scratch_ : bytes;
  hook_ : option (bytes -> bytes)   (** test hook: may rewrite the record *)
}.

Definition new_WalWriter : WalWriter := mkWalWriter None 0 [] None.

Definition IsOpen (l : WalWriter) : bool := match fd_ l with Some _ => true | None => false end.
Definition FileSize (l : WalWriter) : Z := file_size_ l.
Definition SetWriteHook (h : bytes -> bytes) (l : WalWriter) : WalWriter :=
  mkWalWriter (fd_ l) (file_size_ l) (scratch_ l) (Some h).

(** [open] with O_CREAT makes an empty file of a missing path. *)
Definition create (path : string) (w : World) : World :=
  with_files (<[path := contents w path]> (w_files w)) w.

Definition WalWriter_Open (path : string) (l : WalWriter) (w : World) : Status * WalWriter * World :=
  match fd_ l with
  | Some _ => (Status.InvalidArgument "WAL writer already open", l, w)
  | None =>
      let '(s, w) := sys_simple ("open " ++ path) w in
      if negb (Status.ok s) then (s, l, w)
      else
        let w := create path w in
        let file_size := size (contents w path) in
        if file_size =? 0 then
          let header := kFileMagic ++ [kFormatVersion] in
          let '(s, w) := WriteFully path header w in
          if negb (Status.ok s) then
            (s, mkWalWriter (Some path) file_size (scratch_ l) (hook_ l), w)
          else
            (Status.OK,
             mkWalWriter (Some path) (u64 (file_size + size header)) (scratch_ l) (hook_ l), w)
        else (Status.OK, mkWalWriter (Some path) file_size (scratch_ l) (hook_ l), w)
  end.

Definition WalWriter_Close (l : WalWriter) (w : World) : Status * WalWriter * World :=
  match fd_ l with
  | None => (Status.OK, l, w)
  | Some _ =>
      let '(s, w) := sys_simple "close" w in
      (s, mkWalWriter None (file_size_ l) (scratch_ l) (hook_ l), w)
  end.

(** The bytes [AddRecord] assembles in [scratch_]. *)
Definition make_payload (seq : Z) (batch : WriteBatch) : bytes :=
  PutFixed32 (PutFixed64 [] seq) (Count batch) ++ entries batch.

Definition make_record (seq : Z) (batch : WriteBatch) : bytes :=
  let payload := make_payload seq batch in
  PutFixed32 (PutFixed32 [] (Value payload)) (u32 (size payload)) ++ payload.

Definition AddRecord (seq : Z) (batch : WriteBatch) (l : WalWriter) (w : World)
  : Status * WalWriter * World :=
  match fd_ l with
  | None => (Status.InvalidArgument "WAL writer not open", l, w)
  | Some path =>
      if empty batch then (Status.OK, l, w)
      else
        let scratch := make_record seq batch in
        let scratch := match hook_ l with Some h => h scratch | None => scratch end in
        let '(s, w) := WriteFully path scratch w in
        if negb (Status.ok s) then
          (s, mkWalWriter (fd_ l) (file_size_ l) scratch (hook_ l), w)
        else
          (Status.OK,
           mkWalWriter (fd_ l) (u64 (file_size_ l + size scratch)) scratch (hook_ l), w)
  end.

(** The single-write overload. *)
Definition AddRecord1 (seq : Z) (type : ValueType) (key value : bytes) (l : WalWriter) (w : World)
  : Status * WalWriter * World :=
  let batch :=
    match type with
    | kDeletion => Delete empty_batch key
    | kValue => Put empty_batch key value
    end in
  AddRecord seq batch l w.

Definition Sync (l : WalWriter) (w : World) : Status * World :=
  match fd_ l with
  | None => (Status.InvalidArgument "WAL writer not open", w)
  | Some _ => sys_simple "fsync" w
  end.

(** ** Reader *)

Section Replay.
Context {St : Type} (handler : Z -> ValueType -> bytes -> bytes -> St -> St).

(** [handler(seq++, type, key, value)]. *)
Definition count_up (type : ValueType) (key value : bytes) (st : Z * St) : Z * St :=
  (u64 (st.1 + 1), handler st.1 type key value st.2).

(** The record loop over the bytes from [offset] on. The result is the status,
    [*saw_truncated_tail] and the handler's state. A record takes at least
    eight bytes, so the length of the input is enough fuel. *)
Fixpoint Replay_loop (fuel : nat) (buf : bytes) (st : St) : Status * bool * St :=
  match fuel, buf with
  | _, [] => (Status.OK, false, st)
  | O, _ => (Status.OK, false, st)
  | S fuel', _ =>
      if size buf <? kHeaderSize then (Status.OK, true, st)
      else
        let expected_crc := DecodeFixed32 buf in
        let length := DecodeFixed32 (drop 4 buf) in
        if size buf - kHeaderSize <? length then (Status.OK, true, st)
        else
          let payload := take (Z.to_nat length) (drop 8 buf) in
          if negb (Value payload =? expected_crc) then (Status.OK, true, st)
          else if length <? 12 then (Status.Corruption "WAL record too short", false, st)
          else
            let base := DecodeFixed64 payload in
            let count := DecodeFixed32 (drop 8 payload) in
            let '(s, st') := Decode count_up (drop 12 payload) count (base, st) in
            if negb (Status.ok s) then (s, false, st'.2)
            else Replay_loop fuel' (drop (8 + Z.to_nat length) buf) st'.2
  end.

(** What [Replay] does once the file is in memory. *)
Definition ReplayBuf (path : string) (buf : bytes) (st : St) : Status * bool * St :=
  if size buf =? 0 then (Status.OK, false, st)
  else if size buf <? kFileHeaderSize then (Status.OK, true, st)
  else if negb (sv_eqb (take 7 buf) kFileMagic) then
    (Status.Corruption (path ++ ": not a WAL file"), false, st)
  else if negb (bool_decide (buf !! 7%nat = Some kFormatVersion)) then
    (Status.Corruption (path ++ ": unsupported WAL format version"), false, st)
  else Replay_loop (length buf) (drop 8 buf) st.

Definition Replay (path : string) (w : World) (st : St) : Status * bool * St * World :=
  match w_files w !! path with
  | None => (Status.OK, false, st, (next_ret w).2)
  | Some _ =>
      let '(s, w) := sys_simple ("open " ++ path) w in
      if negb (Status.ok s) then (s, false, st, w)
      else
        let '(s, buf, w) := ReadAll path ("read " ++ path) w in
        if negb (Status.ok s) then (s, false, st, w)
        else (ReplayBuf path buf st, w)
  end.

End Replay.

(** ** Specification: a log is a list of records *)

(** A base sequence number and the operations of one batch. *)
Definition record : Type := Z * list op.

Definition payload_of (r : record) : bytes :=
  le_split 8 r.1 ++ le_split 4 (size r.2) ++ encode_ops r.2.

Definition record_of (r : record) : bytes :=
  le_split 4 (Value (payload_of r)) ++ le_split 4 (size (payload_of r)) ++ payload_of r.

Record record_wf (r : record) : Prop := {
  rw_seq : 0 <= r.1 < 2 ^ 64;
  rw_ops : Forall op_wf r.2;
  rw_size : size (payload_of r) < 2 ^ 32
}.

Definition wal_header : bytes := kFileMagic ++ [kFormatVersion].
Definition log_of (rs : list record) : bytes := wal_header ++ concat (map record_of rs).

(** The handler applied to a record: consecutive sequence numbers. *)
Definition run_record {St} (h : Z -> ValueType -> bytes -> bytes -> St -> St) (r : record) (st : St) : St :=
  (run_ops (count_up h) r.2 (r.1, st)).2.

Definition run_log {St} (h : Z -> ValueType -> bytes -> bytes -> St -> St) (rs : list record) (st : St) : St :=
  fold_left (fun st r => run_record h r st) rs st.

(** The records that lie entirely within the first [n] bytes. *)
Fixpoint complete_records (n : nat) (rs : list record) : list record :=
  match rs with
  | [] => []
  | r :: rs' =>
      if (length (record_of r) <=? n)%nat
      then r :: complete_records (n - length (record_of r)) rs'
      else []
  end.

(** Whether the cut at [n] falls inside a record. *)
Fixpoint cut_inside (n : nat) (rs : list record) : bool :=
  match rs with
  | [] => false
  | r :: rs' =>
      if (length (record_of r) <=? n)%nat then cut_inside (n - length (record_of r)) rs'
      else negb (n =? 0)%nat
  end.

(** ** Lemmas *)

Lemma size_payload_of r : size (payload_of r) = 12 + size (encode_ops r.2).
Proof. unfold payload_of. autorewrite with lsm. lia. Qed.

Lemma size_record_of r : size (record_of r) = 8 + size (payload_of r).
Proof. unfold record_of. autorewrite with lsm. lia. Qed.

Lemma record_of_length r : (20 <= length (record_of r))%nat.
Proof.
  pose proof (size_record_of r). pose proof (size_payload_of r).
  pose proof (size_nonneg (encode_ops r.2)). unfold size in *. lia.
Qed.

(** The count of a well-formed record fits its field. *)
Lemma record_wf_count r : record_wf r -> size r.2 < 2 ^ 32.
Proof.
  intros [_ _ Hs]. rewrite size_payload_of in Hs.
  pose proof (encode_ops_length r.2). unfold size in *. lia.
Qed.

Lemma make_record_repr seq b ops :
  batch_repr b ops -> size ops < 2 ^ 32 -> size (payload_of (seq, ops)) < 2 ^ 32 ->
  make_record seq b = record_of (seq, ops).
Proof.
  intros [Hr Hc Hw] Hn Hs.
  assert (make_payload seq b = payload_of (seq, ops)) as Hp.
  { unfold make_payload, payload_of, PutFixed32, PutFixed64, Count, entries.
    rewrite Hr, Hc, u32_id by (split; [apply size_nonneg|done]). simpl. by rewrite <- !app_assoc. }
  unfold make_record, record_of, PutFixed32. rewrite Hp, u32_id by (split; [apply size_nonneg|done]).
  simpl. by rewrite <- !app_assoc.
Qed.

Section ReplayLemmas.
Context {St : Type} (h : Z -> ValueType -> bytes -> bytes -> St -> St).

Lemma Replay_loop_fuel fuel buf st :
  (length buf <= fuel)%nat -> Replay_loop h fuel buf st = Replay_loop h (length buf) buf st.
Proof using.
  revert buf st. induction fuel as [fuel IH] using lt_wf_ind. intros buf st Hf.
  destruct (decide (fuel = length buf)) as [->|Hne]; [done|].
  destruct fuel as [|fuel]; [lia|]. destruct buf as [|b buf]; [done|].
  cbn [Replay_loop length]. repeat (case_match; [done|]).
  destruct (Decode _ _ _ _) as [s st']. case_match; [done|].
  assert (length (drop (8 + Z.to_nat (DecodeFixed32 (drop 4 (b :: buf)))) (b :: buf)) <= length buf)%nat.
  { rewrite length_drop. simpl. lia. }
  simpl in Hf, Hne. rewrite (IH fuel), (IH (length buf)) by lia. done.
Qed.

(** One iteration on a non-empty input, with the fuel normalised. *)
Lemma Replay_loop_step buf st :
  buf <> [] ->
  Replay_loop h (length buf) buf st =
    if size buf <? 8 then (Status.OK, true, st)
    else if size buf - 8 <? DecodeFixed32 (drop 4 buf) then (Status.OK, true, st)
    else
      let len := DecodeFixed32 (drop 4 buf) in
      let payload := take (Z.to_nat len) (drop 8 buf) in
      if negb (Value payload =? DecodeFixed32 buf) then (Status.OK, true, st)
      else if len <? 12 then (Status.Corruption "WAL record too short", false, st)
      else
        let '(s, st') :=
          Decode (count_up h) (drop 12 payload) (DecodeFixed32 (drop 8 payload))
            (DecodeFixed64 payload, st) in
        if negb (Status.ok s) then (s, false, st'.2)
        else
          let rest := drop (8 + Z.to_nat len) buf in Replay_loop h (length rest) rest st'.2.
Proof using.
  intros Hb. destruct buf as [|b buf]; [done|]. cbn [Replay_loop length]. cbv zeta.
  unfold kHeaderSize. repeat (case_match; [done|]).
  destruct (Decode _ _ _ _) as [s st']. case_match; [done|].
  apply Replay_loop_fuel. rewrite length_drop. simpl. lia.
Qed.

Lemma drop_record_4 r rest :
  drop 4 (record_of r ++ rest) = le_split 4 (size (payload_of r)) ++ payload_of r ++ rest.
Proof using.
  unfold record_of. rewrite <- !app_assoc. by rewrite drop_app_length' by (by rewrite length_le_split).
Qed.

Lemma drop_record_8 r rest : drop 8 (record_of r ++ rest) = payload_of r ++ rest.
Proof using.
  change 8%nat with (4 + 4)%nat. rewrite <- drop_drop, drop_record_4.
  by rewrite drop_app_length' by (by rewrite length_le_split).
Qed.

Lemma Decode_payload r st :
  record_wf r ->
  Decode (count_up h) (drop 12 (payload_of r)) (DecodeFixed32 (drop 8 (payload_of r)))
    (DecodeFixed64 (payload_of r), st) = (Status.OK, run_ops (count_up h) r.2 (r.1, st)).
Proof using.
  intros Hr. pose proof (record_wf_count r Hr) as Hn. destruct Hr as [Hseq Hops Hsz].
  unfold payload_of. autorewrite with lsm. rewrite u64_id by done.
  change 12%nat with (8 + 4)%nat. rewrite <- drop_drop.
  rewrite !(drop_app_length' (le_split 8 _)) by (by rewrite length_le_split).
  rewrite drop_app_length' by (by rewrite length_le_split). autorewrite with lsm.
  rewrite u32_id by (split; [apply size_nonneg|done]). by apply Decode_encode.
Qed.

(** A complete record is replayed and the loop goes on behind it. *)
Lemma Replay_loop_record r rest st :
  record_wf r ->
  Replay_loop h (length (record_of r ++ rest)) (record_of r ++ rest) st =
  Replay_loop h (length rest) rest (run_record h r st).
Proof using.
  intros Hr. destruct Hr as [Hseq Hops Hsz] eqn:E; clear E.
  pose proof (size_payload_of r) as Hp. pose proof (size_nonneg (encode_ops r.2)).
  pose proof (size_nonneg rest). pose proof (size_record_of r) as Hrec.
  rewrite Replay_loop_step.
  2:{ pose proof (record_of_length r). by destruct (record_of r). }
  rewrite size_app, drop_record_4, DecodeFixed32_split, u32_id by lia. cbv zeta.
  do 2 zcase. rewrite drop_record_8.
  assert (Z.to_nat (size (payload_of r)) = length (payload_of r)) as Hl by (unfold size; lia).
  rewrite Hl, take_app_length. unfold record_of at 1.
  rewrite <- app_assoc, DecodeFixed32_split, u32_id by apply Value_range.
  rewrite Z.eqb_refl. simpl negb. cbv iota. zcase. rewrite Decode_payload by done.
  change (negb (Status.ok Status.OK)) with false. cbv iota beta.
  by rewrite <- drop_drop, drop_record_8, drop_app_length.
Qed.

(** A torn record - any proper prefix of one - ends the replay. *)
Lemma Replay_loop_torn r n st :
  record_wf r -> (n < length (record_of r))%nat ->
  Replay_loop h (length (take n (record_of r))) (take n (record_of r)) st =
    (Status.OK, negb (n =? 0)%nat, st).
Proof using.
  intros [Hseq Hops Hsz] Hn. destruct (Nat.eqb_spec n 0) as [->|Hn0]; [done|].
  assert (size (take n (record_of r)) = Z.of_nat n) as Ht
    by (unfold size; rewrite length_take; lia).
  rewrite Replay_loop_step.
  2:{ intros H. rewrite H, size_nil in Ht. lia. }
  rewrite Ht. zcase; [done|]. pose proof (size_record_of r) as Hrec. unfold size at 1 in Hrec.
  rewrite skipn_firstn_comm, <- (app_nil_r (record_of r)), drop_record_4.
  rewrite take_app_ge by (rewrite length_le_split; lia).
  rewrite DecodeFixed32_split, u32_id by (split; [apply size_nonneg|done]).
  zcase. done.
Qed.

(** Replaying any prefix of a log replays exactly the records it holds whole. *)
Lemma Replay_loop_prefix rs n st :
  Forall record_wf rs ->
  let buf := take n (concat (map record_of rs)) in
  Replay_loop h (length buf) buf st = (Status.OK, cut_inside n rs, run_log h (complete_records n rs) st).
Proof using.
  cbv zeta. revert n st. induction rs as [|r rs IH]; intros n st Hwf.
  { simpl. by rewrite take_nil. }
  apply Forall_cons in Hwf as [Hr Hwf]. simpl. zcase.
  - rewrite take_app_ge by done. rewrite Replay_loop_record, IH by done. done.
  - rewrite take_app_le by lia. by apply Replay_loop_torn.
Qed.
End ReplayLemmas.

Lemma complete_records_all rs n :
  (length (concat (map record_of rs)) <= n)%nat -> complete_records n rs = rs /\ cut_inside n rs = false.
Proof.
  revert n. induction rs as [|r rs IH]; intros n Hn; [done|]. simpl in *. rewrite length_app in Hn.
  zcase. destruct (IH (n - length (record_of r))%nat) as [-> ->]; [lia|done].
Qed.

(** [complete_records] is a prefix of the log: nothing is skipped. *)
Lemma complete_records_prefix n rs : complete_records n rs `prefix_of` rs.
Proof.
  revert n. induction rs as [|r rs IH]; intros n; simpl; [done|].
  case_match; [by apply prefix_cons|by apply prefix_nil].
Qed.

Lemma ReplayBuf_header {St} (h : Z -> ValueType -> bytes -> bytes -> St -> St) path body st :
  ReplayBuf h path (wal_header ++ body) st = Replay_loop h (length body) body st.
Proof.
  unfold ReplayBuf. rewrite size_app. change (size wal_header) with 8.
  pose proof (size_nonneg body). unfold kFileHeaderSize. do 2 zcase.
  change (take 7 (wal_header ++ body)) with kFileMagic.
  change ((wal_header ++ body) !! 7%nat) with (Some kFormatVersion).
  unfold sv_eqb. rewrite !bool_decide_true by done. simpl negb. cbv iota.
  change (drop 8 (wal_header ++ body)) with body. apply Replay_loop_fuel.
  rewrite length_app. lia.
Qed.

Lemma log_of_app rs rs' : log_of (rs ++ rs') = log_of rs ++ concat (map record_of rs').
Proof. unfold log_of. by rewrite map_app, concat_app, app_assoc. Qed.

Lemma run_log_app {St} (h : Z -> ValueType -> bytes -> bytes -> St -> St) rs rs' st :
  run_log h (rs ++ rs') st = run_log h rs' (run_log h rs st).
Proof. apply fold_left_app. Qed.

Section Replayed.
Context {St : Type} (h : Z -> ValueType -> bytes -> bytes -> St -> St).

Lemma ReplayBuf_prefix path rs n st :
  Forall record_wf rs ->
  ReplayBuf h path (take n (log_of rs)) st =
    (Status.OK, if (n <? 8)%nat then negb (n =? 0)%nat else cut_inside (n - 8) rs,
     run_log h (complete_records (n - 8) rs) st).
Proof using.
  intros Hwf. destruct (Nat.ltb_spec n 8) as [Hn|Hn].
  - assert (complete_records (n - 8) rs = []) as ->.
    { destruct rs as [|r rs]; simpl; [done|]. pose proof (record_of_length r). by zcase. }
    unfold log_of. rewrite take_app_le by (simpl; lia).
    do 8 (destruct n as [|n]; [reflexivity|]). lia.
  - unfold log_of. rewrite take_app_ge by (simpl; lia). change (length wal_header) with 8%nat.
    by rewrite ReplayBuf_header, Replay_loop_prefix.
Qed.

Lemma ReplayBuf_log path rs st :
  Forall record_wf rs -> ReplayBuf h path (log_of rs) st = (Status.OK, false, run_log h rs st).
Proof using.
  intros Hwf. pose proof (ReplayBuf_prefix path rs (length (log_of rs)) st Hwf) as H.
  rewrite take_ge in H by done. rewrite H. unfold log_of. rewrite length_app.
  change (length wal_header) with 8%nat. zcase.
  by destruct (complete_records_all rs (8 + length (concat (map record_of rs)) - 8)) as [-> ->]; [lia|].
Qed.

(** The log followed by a piece of one more record. *)
Lemma ReplayBuf_partial path rs r written tail st :
  Forall record_wf rs -> record_wf r -> record_of r = written ++ tail ->
  ReplayBuf h path (log_of rs ++ written) st =
    match tail with
    | [] => (Status.OK, false, run_log h (rs ++ [r]) st)
    | _ => (Status.OK, bool_decide (written <> []), run_log h rs st)
    end.
Proof using.
  intros Hrs Hr Heq. destruct tail as [|b tail].
  - rewrite app_nil_r in Heq. rewrite <- Heq.
    replace (log_of rs ++ record_of r) with (log_of (rs ++ [r]))
      by (rewrite log_of_app; simpl; by rewrite app_nil_r).
    apply ReplayBuf_log. by apply Forall_app; split; [|constructor].
  - unfold log_of. rewrite <- app_assoc, ReplayBuf_header.
    assert (forall rs st, Forall record_wf rs ->
      Replay_loop h (length (concat (map record_of rs) ++ written)) (concat (map record_of rs) ++ written) st
      = Replay_loop h (length written) written (run_log h rs st)) as Hskip.
    { clear Hrs rs st. induction rs as [|r' rs IH]; intros st Hrs; [done|].
      apply Forall_cons in Hrs as [Hr' Hrs]. simpl. by rewrite <- app_assoc, Replay_loop_record, IH. }
    rewrite Hskip by done.
    assert (written = take (length written) (record_of r)) as Hw by (by rewrite Heq, take_app_length).
    rewrite Hw, Replay_loop_torn; [|done|rewrite Heq, length_app; simpl; lia].
    rewrite <- Hw. by destruct written.
Qed.

End Replayed.

Lemma Replay_no_faults {St} (h : Z -> ValueType -> bytes -> bytes -> St -> St) path w st :
  w_oracle w = [] ->
  Replay h path w st = (ReplayBuf h path (contents w path) st, w).
Proof.
  intros Ho. unfold Replay, sys_simple, next_ret. rewrite Ho. unfold contents.
  destruct (w_files w !! path) as [buf|] eqn:E; [|done]. simpl.
  rewrite ReadAll_no_faults by done. unfold contents. by rewrite E.
Qed.

(** ** What a log file replays to *)

(** Replaying the file succeeds and hands over the records [rs]. *)
Definition replays (b : bytes) (rs : list record) : Prop :=
  forall St (h : Z -> ValueType -> bytes -> bytes -> St -> St) path st,
    (ReplayBuf h path b st).1.1 = Status.OK /\ (ReplayBuf h path b st).2 = run_log h rs st.

Lemma replays_log rs : Forall record_wf rs -> replays (log_of rs) rs.
Proof. intros H St h path st. by rewrite ReplayBuf_log. Qed.

(** A log whose header is not complete, or that has nothing behind it. *)
Lemma replays_blank b : b `prefix_of` wal_header -> replays b [].
Proof.
  intros [tail Ht] St h path st. replace b with (take (length b) (log_of [])).
  - by rewrite ReplayBuf_prefix by constructor.
  - unfold log_of. rewrite Ht. simpl. by rewrite app_nil_r, take_app_length.
Qed.

(** A replay that reports success has handed over everything. *)
Lemma Replay_any {St} (h : Z -> ValueType -> bytes -> bytes -> St -> St) path w st b rs :
  w_files w !! path = Some b -> replays b rs ->
  exists s t st' w', Replay h path w st = (s, t, st', w') /\ w_files w' = w_files w /\
    (w_oracle w = [] -> s = Status.OK /\ w_oracle w' = []) /\
    (Status.ok s = true -> s = Status.OK /\ st' = run_log h rs st).
Proof.
  intros Hb Hr. unfold Replay. rewrite Hb. destruct (sys_simple _ w) as [s0 w0] eqn:E0.
  destruct (sys_simple_spec _ path _ _ _ E0) as (T0 & F0 & O0).
  destruct (Status.ok s0) eqn:Hs0; cbn [negb].
  2:{ do 4 eexists. split_and!; [done|done| |congruence]. intros Ho. rewrite (O0 Ho) in Hs0. done. }
  destruct (ReadAll _ _ w0) as [[s1 buf] w1] eqn:E1. destruct (ReadAll_ok _ _ _ _ _ _ E1) as (F1 & O1 & K1).
  destruct (Status.ok s1) eqn:Hs1; cbn [negb].
  2:{ do 4 eexists. split_and!; [done|congruence| |congruence]. intros Ho. apply O1, T0, Ho. }
  destruct (K1 eq_refl) as [_ ->]. rewrite <- F0 in Hb. rewrite (contents_Some _ _ _ Hb).
  destruct (Hr St h path st) as [H1 H2]. destruct (ReplayBuf h path b st) as [[s2 t] st']. simpl in H1, H2. subst.
  do 4 eexists. split_and!; [done|congruence| |done]. intros Ho. split; [done|]. apply O1, T0, Ho.
Qed.

(** ** Appending to a log *)

Lemma record_not_empty seq b ops : record_wf (seq, ops) -> batch_repr b ops -> ops <> [] -> empty b = false.
Proof.
  intros Hr Hb Hne. pose proof (record_wf_count _ Hr) as Hcount. simpl in Hcount.
  unfold empty. rewrite (br_count _ _ Hb), u32_id by (split; [apply size_nonneg|done]).
  destruct ops; [done|]. rewrite size_cons. pose proof (size_nonneg ops). by zcase.
Qed.

(** An append under any outcome of the system calls. *)
Lemma AddRecord_spec path rs seq b ops l w s l' w' :
  Forall record_wf rs -> record_wf (seq, ops) -> batch_repr b ops -> ops <> [] ->
  fd_ l = Some path -> hook_ l = None -> w_files w !! path = Some (log_of rs) ->
  AddRecord seq b l w = (s, l', w') ->
  touches path w w' /\ fd_ l' = fd_ l /\ hook_ l' = hook_ l /\ (w_oracle w = [] -> s = Status.OK) /\
  (Status.ok s = true -> s = Status.OK) /\
  exists f, w_files w' !! path = Some f /\
    (f = log_of (rs ++ [(seq, ops)]) \/ Status.ok s = false /\ replays f rs).
Proof.
  intros Hrs Hr Hb Hne Hfd Hhook Hc Hadd.
  pose proof (record_wf_count _ Hr) as Hcount. simpl in Hcount. unfold AddRecord in Hadd. rewrite Hfd, Hhook in Hadd.
  rewrite (record_not_empty seq b ops), (make_record_repr _ _ ops) in Hadd by (done || apply Hr).
  destruct (WriteFully path (record_of (seq, ops)) w) as [s0 w0] eqn:Ew.
  destruct (WriteAll_spec _ _ _ _ _ _ Ew) as (T & O & _).
  destruct (WriteAll_ok _ _ _ _ _ _ Ew) as (written & tail & Heq & Hok & Hf).
  rewrite (contents_Some _ _ _ Hc) in Hf.
  destruct (Status.ok s0) eqn:Es; cbn [negb] in Hadd; injection Hadd as <- <- <-; simpl; split_and!; try done; try congruence.
  - eexists. rewrite Hf, lookup_insert_eq. split; [done|]. left. rewrite log_of_app. simpl. rewrite app_nil_r, Heq.
    by rewrite (Hok eq_refl), app_nil_r.
  - eexists. rewrite Hf, lookup_insert_eq. split; [done|]. destruct tail as [|x tail].
    + left. rewrite app_nil_r in Heq. rewrite log_of_app. simpl. by rewrite app_nil_r, Heq.
    + right. split; [done|]. intros St h p st. by rewrite (ReplayBuf_partial h p rs (seq, ops) written (x :: tail)).
Qed.

(** An append through a hook that cuts the record short. *)
Lemma AddRecord_torn path rs seq b ops l h w s l' w' :
  Forall record_wf rs -> record_wf (seq, ops) -> batch_repr b ops -> ops <> [] ->
  fd_ l = Some path -> hook_ l = Some h -> w_files w !! path = Some (log_of rs) ->
  (exists cut, h (record_of (seq, ops)) ++ cut = record_of (seq, ops) /\ cut <> []) ->
  AddRecord seq b l w = (s, l', w') ->
  touches path w w' /\ fd_ l' = fd_ l /\ hook_ l' = hook_ l /\ exists f, w_files w' !! path = Some f /\ replays f rs.
Proof.
  intros Hrs Hr Hb Hne Hfd Hhook Hc (cut & Hcut & Hcne) Hadd.
  pose proof (record_wf_count _ Hr) as Hcount. simpl in Hcount. unfold AddRecord in Hadd. rewrite Hfd, Hhook in Hadd.
  rewrite (record_not_empty seq b ops), (make_record_repr _ _ ops) in Hadd by (done || apply Hr).
  destruct (WriteFully path (h (record_of (seq, ops))) w) as [s0 w0] eqn:Ew.
  destruct (WriteAll_spec _ _ _ _ _ _ Ew) as (T & _ & _).
  destruct (WriteAll_ok _ _ _ _ _ _ Ew) as (written & tail & Heq & _ & Hf).
  rewrite (contents_Some _ _ _ Hc) in Hf.
  assert (exists f, w_files w0 !! path = Some f /\ replays f rs) as Hrep.
  { eexists. rewrite Hf, lookup_insert_eq. split; [done|]. intros St g p st.
    rewrite (ReplayBuf_partial g p rs (seq, ops) written (tail ++ cut)); [|done|done|by rewrite app_assoc, <- Heq].
    destruct (tail ++ cut) eqn:Et; [|done]. by apply app_eq_nil in Et as [_ ?]. }
  destruct (Status.ok s0); cbn [negb] in Hadd; by injection Hadd as <- <- <-.
Qed.

(** Opening a log that does not exist. *)
Lemma WalWriter_Open_spec path w s l w' :
  w_files w !! path = None -> WalWriter_Open path new_WalWriter w = (s, l, w') ->
  touches path w w' /\ (w_oracle w = [] -> s = Status.OK) /\
  (forall b, w_files w' !! path = Some b -> b `prefix_of` wal_header) /\
  (Status.ok s = true -> s = Status.OK /\ fd_ l = Some path /\ hook_ l = None /\ w_files w' !! path = Some (log_of [])).
Proof.
  intros Hn. unfold WalWriter_Open. cbn [fd_ new_WalWriter].
  destruct (sys_simple ("open " ++ path) w) as [s1 w1] eqn:E1.
  destruct (sys_simple_spec _ path _ _ _ E1) as (T1 & F1 & O1).
  destruct (Status.ok s1) eqn:Hs1; cbn [negb].
  2:{ intros [= <- <- <-]. split_and!; [done|done| |congruence]. intros b Hb. by rewrite F1, Hn in Hb. }
  assert (touches path w1 (create path w1)) as T2.
  { split; [|done]. intros p Hp. simpl. by apply lookup_insert_ne. }
  assert (contents w1 path = []) as Hc1 by (unfold contents; by rewrite F1, Hn).
  assert (w_files (create path w1) !! path = Some []) as Hc2 by (simpl; by rewrite lookup_insert_eq, Hc1).
  rewrite (contents_Some _ _ _ Hc2). change (size [] =? 0) with true. cbv iota zeta. fold wal_header.
  destruct (WriteFully path wal_header (create path w1)) as [s3 w3] eqn:E3.
  destruct (WriteAll_spec _ _ _ _ _ _ E3) as (T3 & O3 & _).
  destruct (WriteAll_ok _ _ _ _ _ _ E3) as (written & tail & Heq & Hok & Hf).
  rewrite (contents_Some _ _ _ Hc2) in Hf. simpl app in Hf.
  assert (touches path w w3) as T by (etrans; [exact T1|]; etrans; [exact T2|exact T3]).
  assert (w_files w3 !! path = Some written) as Hw3 by (by rewrite Hf, lookup_insert_eq).
  assert (w_oracle w = [] -> s3 = Status.OK) as O by (intros Ho; by apply O3, T2, T1).
  assert (forall b, w_files w3 !! path = Some b -> b `prefix_of` wal_header) as Hp.
  { intros b. rewrite Hw3. intros [= <-]. rewrite Heq. by exists tail. }
  destruct (Status.ok s3) eqn:Hs3; cbn [negb]; intros [= <- <- <-]; split_and!; try done; [|by intros ?; congruence].
  intros _. split_and!; [done|done|done|]. rewrite Hw3. f_equal. unfold log_of. simpl.
  by rewrite (Hok eq_refl), app_nil_r in Heq.
Qed.

(** ** Properties *)

(** C18: atomicity of a crash. However a log is cut short, replay succeeds,
    never reports an error, and hands the handler exactly the entries of the
    records that lie whole within the remaining bytes - a prefix of the batches,
    in order, none of them partially. *)
Theorem wal_replay_torn_log {St} (h : Z -> ValueType -> bytes -> bytes -> St -> St) path rs n st :
  Forall record_wf rs ->
  exists truncated,
    ReplayBuf h path (take n (log_of rs)) st =
      (Status.OK, truncated, run_log h (complete_records (n - 8) rs) st) /\
    complete_records (n - 8) rs `prefix_of` rs /\
    ((8 <= n)%nat -> truncated = cut_inside (n - 8) rs).
Proof.
  intros Hwf. eexists. rewrite ReplayBuf_prefix by done. split_and!; [done| |].
  - apply complete_records_prefix.
  - intros Hn. by zcase.
Qed.

(** A handler that lists the entries it is given. *)
Definition collect (seq : Z) (t : ValueType) (k v : bytes) (acc : list (Z * op)) : list (Z * op) :=
  acc ++ [(seq, (t, k, v))].

Definition example_log : list record :=
  [(1, [(kValue, [Byte.x61], [Byte.x31]); (kDeletion, [Byte.x62], [])]);
   (3, [(kValue, [Byte.x61], [Byte.x32; Byte.x33])])].

Lemma example_log_wf : Forall record_wf example_log.
Proof. repeat constructor; simpl; (lia || done || (vm_compute; split; congruence) || (vm_compute; congruence)). Qed.

Lemma wal_replay_torn_log_witness :
  exists truncated,
    ReplayBuf collect "000001.log" (take 40 (log_of example_log)) [] =
      (Status.OK, truncated, [(1, (kValue, [Byte.x61], [Byte.x31])); (2, (kDeletion, [Byte.x62], []))]).
Proof.
  destruct (wal_replay_torn_log collect "000001.log" example_log 40 [] example_log_wf) as (t & H & _).
  exists t. exact H.
Defined.

(** C19: durability and atomicity of one append under every outcome of the
    system calls. Whatever [write] does - short counts, interruptions, an error
    in the middle - replaying the file afterwards yields the old entries or the
    old entries followed by the whole batch; when [AddRecord] reports success it
    is the latter. *)
Theorem wal_append_all_or_nothing {St} (h : Z -> ValueType -> bytes -> bytes -> St -> St)
    path rs seq b ops l w s l' w' st :
  Forall record_wf rs -> record_wf (seq, ops) -> batch_repr b ops -> ops <> [] ->
  fd_ l = Some path -> hook_ l = None -> contents w path = log_of rs ->
  AddRecord seq b l w = (s, l', w') ->
  let replayed := (Replay h path (mkWorld (w_files w') []) st).1 in
  replayed.1.1 = Status.OK /\
  (replayed.2 = run_log h (rs ++ [(seq, ops)]) st \/
   Status.ok s = false /\ replayed.2 = run_log h rs st).
Proof.
  intros Hrs Hr Hb Hne Hfd Hhook Hc Hadd. cbv zeta.
  assert (w_files w !! path = Some (log_of rs)) as Hc'.
  { unfold contents in Hc. destruct (w_files w !! path); [by rewrite <- Hc|done]. }
  destruct (AddRecord_spec _ _ _ _ _ _ _ _ _ _ Hrs Hr Hb Hne Hfd Hhook Hc' Hadd) as (_ & _ & _ & _ & _ & f & Hf & Hor).
  rewrite Replay_no_faults, (contents_Some (mkWorld (w_files w') []) _ _ Hf) by done. cbn [fst snd].
  destruct Hor as [->|[Hs Hrep]].
  - destruct (replays_log (rs ++ [(seq, ops)])) with (St := St) (h := h) (path := path) (st := st) as [H1 H2];
      [by apply Forall_app; split; [|constructor]|]. auto.
  - destruct (Hrep St h path st) as [H1 H2]. auto.
Qed.

Definition example_batch : WriteBatch := Put (Delete empty_batch [Byte.x62]) [Byte.x61] [Byte.x31].

Definition example_writer : WalWriter := mkWalWriter (Some "000001.log") 8 [] None.
Definition example_world : World :=
  mkWorld {["000001.log" := log_of []]} [SysShort 5; SysIntr; SysErr "No space left on device"].

Lemma wal_append_all_or_nothing_witness :
  let w' := (AddRecord 7 example_batch example_writer example_world).2 in
  (Replay collect "000001.log" (mkWorld (w_files w') []) []).1.1.1 = Status.OK.
Proof.
  refine (proj1 (wal_append_all_or_nothing collect "000001.log" [] 7 example_batch
    [(kDeletion, [Byte.x62], []); (kValue, [Byte.x61], [Byte.x31])] example_writer example_world
    (AddRecord 7 example_batch example_writer example_world).1.1
    (AddRecord 7 example_batch example_writer example_world).1.2 _ [] _ _ _ _ _ _ _ _)).
  - constructor.
  - repeat constructor; simpl; (lia || done || (vm_compute; congruence)).
  - apply (Put_repr _ [_]); [|done..]. apply (Delete_repr _ []); [|done]. apply empty_batch_repr.
  - done.
  - done.
  - done.
  - done.
  - by destruct (AddRecord _ _ _ _) as [[? ?] ?].
Defined.

(** A record whose payload was damaged on disk after it was written. *)
Definition damaged_record (r : record) (payload : bytes) : bytes :=
  le_split 4 (Value (payload_of r)) ++ le_split 4 (size (payload_of r)) ++ payload.

Lemma Replay_loop_skip {St} (h : Z -> ValueType -> bytes -> bytes -> St -> St) rs rest st :
  Forall record_wf rs ->
  Replay_loop h (length (concat (map record_of rs) ++ rest)) (concat (map record_of rs) ++ rest) st
  = Replay_loop h (length rest) rest (run_log h rs st).
Proof.
  revert st. induction rs as [|r' rs IH]; intros st Hrs; [done|].
  apply Forall_cons in Hrs as [Hr' Hrs]. simpl. by rewrite <- app_assoc, Replay_loop_record, IH.
Qed.

Lemma Replay_loop_bad_crc {St} (h : Z -> ValueType -> bytes -> bytes -> St -> St) r q after st :
  record_wf r -> length q = length (payload_of r) -> Value q <> Value (payload_of r) ->
  Replay_loop h (length (damaged_record r q ++ after)) (damaged_record r q ++ after) st = (Status.OK, true, st).
Proof.
  intros [_ _ Hsz] Hlen Hv. unfold damaged_record. rewrite <- !app_assoc.
  assert (size q = size (payload_of r)) as Hq by (unfold size; by rewrite Hlen).
  pose proof (size_nonneg q). pose proof (size_nonneg after).
  rewrite Replay_loop_step.
  2:{ intros Hnil. apply (f_equal size) in Hnil. autorewrite with lsm in Hnil. lia. }
  autorewrite with lsm.
  rewrite (drop_app_length' (le_split 4 _) _ 4) by (by rewrite length_le_split). autorewrite with lsm.
  rewrite !u32_id by (lia || apply Value_range). cbv zeta. do 2 zcase.
  change 8%nat with (4 + 4)%nat.
  rewrite <- drop_drop, !drop_app_length' by (by rewrite length_le_split).
  rewrite take_app_length' by (unfold size in *; lia). by destruct (Z.eqb_spec (Value q) (Value (payload_of r))).
Qed.

(** C29: bit rot. When up to four consecutive bytes of a record's payload are
    changed on disk, replay stops in front of that record with the truncation
    flag set: the damaged batch reaches the handler neither whole nor in part,
    and neither does anything after it. *)
Theorem wal_replay_stops_at_damage {St} (h : Z -> ValueType -> bytes -> bytes -> St -> St)
    path rs r p x y s after st :
  Forall record_wf rs -> record_wf r ->
  payload_of r = p ++ x ++ s -> length x = length y -> (length x <= 4)%nat -> x <> y ->
  ReplayBuf h path (log_of rs ++ damaged_record r (p ++ y ++ s) ++ after) st =
    (Status.OK, true, run_log h rs st).
Proof.
  intros Hrs Hr Hp Hl H4 Hxy. unfold log_of. rewrite <- app_assoc, ReplayBuf_header.
  rewrite Replay_loop_skip by done. apply Replay_loop_bad_crc; [done| |].
  - rewrite Hp, !length_app. lia.
  - rewrite Hp. intros Hv. apply Hxy. symmetry. eapply crc32c_burst; [..|exact Hv]; lia.
Qed.

Lemma wal_replay_stops_at_damage_witness :
  let r := (3, [(kValue, [Byte.x61], [Byte.x32; Byte.x33])]) in
  ReplayBuf collect "000001.log"
    (log_of [(1, [(kDeletion, [Byte.x62], [])])] ++
     damaged_record r (take 16 (payload_of r) ++ [Byte.x34; Byte.x33] ++ []) ++ []) [] =
  (Status.OK, true, [(1, (kDeletion, [Byte.x62], []))]).
Proof.
  cbv zeta.
  rewrite (wal_replay_stops_at_damage collect "000001.log" [(1, [(kDeletion, [Byte.x62], [])])]
    (3, [(kValue, [Byte.x61], [Byte.x32; Byte.x33])])
    (take 16 (payload_of (3, [(kValue, [Byte.x61], [Byte.x32; Byte.x33])])))
    [Byte.x32; Byte.x33] [Byte.x34; Byte.x33] []).
  - reflexivity.
  - repeat constructor; simpl; (lia || done || (vm_compute; congruence)).
  - repeat constructor; simpl; (lia || done || (vm_compute; congruence)).
  - vm_compute. reflexivity.
  - reflexivity.
  - simpl. lia.
  - congruence.
Defined.

(** a log of another format is refused outright: a file of eight bytes or
    more that does not start with the magic and this format version makes
    replay fail with a corruption error before any entry reaches the handler. *)
Theorem wal_foreign_header_rejected {St} (h : Z -> ValueType -> bytes -> bytes -> St -> St) path buf st :
  8 <= size buf -> take 8 buf <> wal_header ->
  exists msg, ReplayBuf h path buf st = (Status.Corruption msg, false, st).
Proof.
  intros Hs Hh. unfold ReplayBuf, kFileHeaderSize. do 2 zcase.
  unfold sv_eqb. case_bool_decide as Hm; simpl; [|by eexists].
  case_bool_decide as Hv; simpl; [|by eexists].
  destruct Hh. change 8%nat with (7 + 1)%nat.
  rewrite <- (take_drop 7 buf) at 1. rewrite Hm, take_app_ge by (simpl; lia).
  unfold wal_header. f_equal. by rewrite (drop_S _ _ _ Hv).
Qed.

Lemma wal_foreign_header_rejected_witness :
  exists msg, ReplayBuf collect "000001.log" (kFileMagic ++ [Byte.x01]) [] = (Status.Corruption msg, false, []).
Proof. apply (wal_foreign_header_rejected collect); [vm_compute; congruence|discriminate]. Defined.
