(* ===== verification/Versions.v ===== *)
(** * Multi-version contents: the specification every source of entries meets

    Memtables, tables and merges all hold entries, pairs of an internal key and
    a value. A point read at sequence [s] is determined by the newest version
    of the key not newer than [s]. [newest] says which one that is, for any
    collection of entries in any order; [seek] and [get_sorted] are how sorted
    sources find it. *)

From Stdlib Require Export Sorted.
From S2P Require Import Prelude Coding InternalKey.

Definition entry : Type := bytes * bytes.

Definition user_key (e : entry) : bytes := ExtractUserKey e.1.
Definition sequence (e : entry) : Z := ExtractSequence e.1.
Definition tag (e : entry) : Z := ExtractTag e.1.
Definition is_deletion (e : entry) : bool := ExtractValueType e.1 =? 0.

(** Entries whose keys the engine encoded. *)
Definition entries_typed (es : list entry) : Prop := Forall (fun e => ikey_typed e.1) es.

Definition entry_lt (a b : entry) : Prop := a.1 ≺ b.1.
Definition sorted (es : list entry) : Prop := StronglySorted entry_lt es.

(** What a read learns from a source that knows the key: the value, or that the
    key was deleted. *)
Definition answer (e : entry) : option bytes := if is_deletion e then None else Some e.2.

(** ** The specification *)

Definition visible (key : bytes) (seq : Z) (e : entry) : bool :=
  sv_eqb (user_key e) key && (sequence e <=? seq).

Definition newer (a b : option entry) : option entry :=
  match a, b with
  | Some x, Some y => if tag x <? tag y then Some y else Some x
  | Some x, None => Some x
  | None, b => b
  end.

(** The visible version with the greatest tag; the first one on a tie. *)
Fixpoint newest (es : list entry) (key : bytes) (seq : Z) : option entry :=
  match es with
  | [] => None
  | e :: es' => newer (if visible key seq e then Some e else None) (newest es' key seq)
  end.

(** [None]: the source does not know the key. *)
Definition read (es : list entry) (key : bytes) (seq : Z) : option (option bytes) :=
  option_map answer (newest es key seq).

(** ** How a sorted source answers *)

(** The entries from the first one whose key is not below [target]. *)
Definition seek (es : list entry) (target : bytes) : list entry :=
  drop_while (fun e => CompareInternalKey e.1 target <? 0) es.

Definition get_sorted (es : list entry) (key : bytes) (seq : Z) : option (option bytes) :=
  match seek es (LookupKey key seq) with
  | [] => None
  | e :: _ => if sv_eqb (user_key e) key then Some (answer e) else None
  end.

(** The answer in the words of [MemTable::Get] and [Table::Get]: [false], or
    a status and a value. *)
Definition reply (r : option (option bytes)) : option (Status * option bytes) :=
  match r with
  | None => None
  | Some None => Some (Status.NotFound "", None)
  | Some (Some v) => Some (Status.OK, Some v)
  end.

(** ** Lemmas *)

Lemma sv_eqb_true a b : sv_eqb a b = true <-> a = b.
Proof. apply bool_decide_eq_true. Qed.

Lemma sv_eqb_false a b : sv_eqb a b = false <-> a <> b.
Proof. apply bool_decide_eq_false. Qed.

Lemma visible_true key seq e :
  visible key seq e = true <-> user_key e = key /\ sequence e <= seq.
Proof. unfold visible. by rewrite andb_true_iff, sv_eqb_true, Z.leb_le. Qed.

Lemma newer_None_r a : newer a None = a.
Proof. by destruct a. Qed.

Lemma newer_assoc a b c : newer a (newer b c) = newer (newer a b) c.
Proof. destruct a as [x|], b as [y|], c as [z|]; simpl; repeat (zcase; simpl); done.
Qed.

Lemma newest_app a b key seq : newest (a ++ b) key seq = newer (newest a key seq) (newest b key seq).
Proof. induction a as [|e a IH]; simpl; [done|]. by rewrite IH, newer_assoc. Qed.

Lemma newest_None es key seq :
  newest es key seq = None <-> Forall (fun e => visible key seq e = false) es.
Proof.
  induction es as [|e es IH]; simpl; [done|]. rewrite Forall_cons, <- IH.
  destruct (visible key seq e), (newest es key seq); simpl; try case_match; naive_solver.
Qed.

Lemma newest_Some es key seq e :
  newest es key seq = Some e ->
  e ∈ es /\ visible key seq e = true /\
  Forall (fun e' => visible key seq e' = true -> tag e' <= tag e) es.
Proof.
  revert e. induction es as [|x es IH]; intros e; simpl; [done|].
  destruct (newest es key seq) as [y|] eqn:Ey.
  - destruct (IH y eq_refl) as (Hin & Hv & Hmax).
    destruct (visible key seq x) eqn:Ex; simpl.
    + zcase; intros [= <-]; (split_and!; [set_solver|done|]).
      * constructor; [lia|done].
      * constructor; [lia|]. eapply Forall_impl; [exact Hmax|]. simpl. intros z Hz Hvz.
        specialize (Hz Hvz). lia.
    + intros [= <-]. split_and!; [set_solver|done|]. constructor; [congruence|done].
  - destruct (visible key seq x) eqn:Ex; simpl; [|done]. intros [= <-].
    split_and!; [set_solver|done|]. constructor; [lia|].
    apply newest_None in Ey. eapply Forall_impl; [exact Ey|]. simpl. congruence.
Qed.

Lemma sorted_cons e es : sorted (e :: es) <-> Forall (entry_lt e) es /\ sorted es.
Proof. split; [intros H; inversion H; done|intros []; by constructor]. Qed.

Lemma sorted_app a b :
  sorted (a ++ b) <-> sorted a /\ sorted b /\ (forall x y, x ∈ a -> y ∈ b -> entry_lt x y).
Proof.
  unfold sorted. induction a as [|e a IH]; simpl.
  - split; [intros H; split_and!; [constructor|done|set_solver]|naive_solver].
  - rewrite !sorted_cons. fold sorted in *. rewrite IH, Forall_app, !Forall_forall.
    set_solver.
Qed.

Lemma sorted_nth_lt es i j a b :
  sorted es -> es !! i = Some a -> es !! j = Some b -> (i < j)%nat -> entry_lt a b.
Proof.
  intros Hs. revert i j. induction Hs as [|x es Hs IH Hx]; intros i j Ha Hb Hij; [done|].
  destruct j as [|j]; [lia|]. destruct i as [|i]; simpl in *.
  - injection Ha as <-. by apply (Forall_lookup_1 _ _ _ _ Hx Hb).
  - by eapply IH; eauto; lia.
Qed.

Lemma entry_lt_trans a b c : entry_lt a b -> entry_lt b c -> entry_lt a c.
Proof. apply ik_lt_trans. Qed.

Lemma seek_split es target :
  exists pre, es = pre ++ seek es target /\ Forall (fun e => e.1 ≺ target) pre.
Proof.
  destruct (drop_while_suffix (fun e : entry => CompareInternalKey e.1 target <? 0) es) as (pre & ? & Hp).
  exists pre. split; [done|]. eapply Forall_impl; [exact Hp|]. intros e. simpl. lia.
Qed.

Lemma sorted_seek es target : sorted es -> sorted (seek es target).
Proof.
  intros Hs. destruct (seek_split es target) as (pre & Heq & _). rewrite Heq in Hs.
  by apply sorted_app in Hs as (_ & ? & _).
Qed.

Lemma Forall_seek P es target : Forall P es -> Forall P (seek es target).
Proof.
  intros H. destruct (seek_split es target) as (pre & Heq & _). rewrite Heq in H.
  by apply Forall_app in H as [].
Qed.

Lemma seek_app_below a b target : Forall (fun e => e.1 ≺ target) a -> seek (a ++ b) target = seek b target.
Proof. intros H. apply drop_while_app. eapply Forall_impl; [exact H|]. intros e. simpl. lia. Qed.

Lemma seek_app_hit a b target : seek a target <> [] -> seek (a ++ b) target = seek a target ++ b.
Proof.
  intros H. destruct (seek_split a target) as (pre & Heq & Hpre). rewrite Heq at 1.
  rewrite <- app_assoc, seek_app_below by done. destruct (seek a target) as [|e l] eqn:E; [done|].
  simpl. apply drop_while_head in E. unfold seek. simpl. by rewrite E.
Qed.

Lemma seek_hit a e target : last a = Some e -> ~ e.1 ≺ target -> seek a target <> [].
Proof.
  intros Hl He Hs. destruct (seek_split a target) as (pre & Heq & Hpre). rewrite Hs, app_nil_r in Heq.
  subst pre. apply last_Some_elem_of in Hl. rewrite Forall_forall in Hpre. by apply He, Hpre.
Qed.

(** The order of entries with one user key is by descending tag. *)
Lemma entry_lt_same_key a b : user_key a = user_key b -> entry_lt a b <-> tag b < tag a.
Proof.
  intros Hk. unfold entry_lt, user_key, tag in *. rewrite CompareInternalKey_lt, Hk, sv_compare_refl.
  intuition lia.
Qed.

(** The entry a sorted source finds is the newest visible one. *)
Lemma get_sorted_newest es key seq :
  sorted es -> entries_typed es -> 0 <= seq <= kMaxSequenceNumber ->
  get_sorted es key seq = read es key seq.
Proof.
  intros Hs Ht Hseq. unfold get_sorted, read.
  destruct (seek_split es (LookupKey key seq)) as (pre & Heq & Hpre).
  pose proof (sorted_seek es (LookupKey key seq) Hs) as Hs'.
  assert (newest es key seq = newest (seek es (LookupKey key seq)) key seq) as ->.
  { rewrite Heq at 1. rewrite newest_app. replace (newest pre key seq) with (@None entry); [done|].
    symmetry. apply newest_None. rewrite Forall_forall in *. intros e He.
    apply not_true_iff_false. rewrite visible_true. intros [Hk Hv].
    apply Hpre in He as Hlt. apply LookupKey_after in Hlt; [|by eapply (proj1 (Forall_forall _ _) Ht); rewrite Heq; set_solver|done].
    unfold user_key, sequence in *. rewrite Hk, sv_compare_refl in Hlt. lia. }
  assert (entries_typed (seek es (LookupKey key seq))) as Ht'.
  { unfold entries_typed in Ht. rewrite Heq in Ht. by apply Forall_app in Ht as []. }
  destruct (seek es (LookupKey key seq)) as [|e rest] eqn:Ee; [done|].
  assert (~ e.1 ≺ LookupKey key seq) as Hge.
  { apply drop_while_head in Ee. lia. }
  apply Forall_cons in Ht' as [Hte Ht']. apply sorted_cons in Hs' as [Hlt Hs'].
  rewrite LookupKey_after in Hge by done.
  destruct (sv_eqb (user_key e) key) eqn:Ek.
  - apply sv_eqb_true in Ek. unfold user_key in Ek.
    assert (visible key seq e = true) as Hv by (apply visible_true; unfold user_key, sequence; intuition lia).
    simpl. rewrite Hv. destruct (newest rest key seq) as [x|] eqn:Ex; [|done].
    apply newest_Some in Ex as (Hin & Hvx & _). rewrite Forall_forall in Hlt.
    apply Hlt in Hin. apply visible_true in Hvx as [Hkx _].
    apply entry_lt_same_key in Hin; [|unfold user_key in *; congruence]. simpl. by zcase.
  - apply sv_eqb_false in Ek. replace (newest (e :: rest) key seq) with (@None entry); [done|].
    symmetry. apply newest_None. rewrite Forall_forall. intros x Hx.
    apply not_true_iff_false. rewrite visible_true. intros [Hk Hvx].
    assert (sv_compare (user_key e) (user_key x) < 0 \/ user_key e = user_key x) as Hcmp.
    { apply elem_of_cons in Hx as [->|Hx]; [by right|]. rewrite Forall_forall in Hlt.
      apply Hlt in Hx. unfold entry_lt in Hx. rewrite CompareInternalKey_lt in Hx.
      unfold user_key. naive_solver. }
    rewrite Hk in Hcmp. unfold user_key in *. destruct Hcmp as [Hc|Hc]; [|done].
    apply Hge. by left.
Qed.

(** ** Several sources

    The first source that knows the key answers. That is the newest version when
    no later source holds a newer version of a key of an earlier one. *)

Fixpoint first_read (srcs : list (list entry)) (key : bytes) (seq : Z) : option (option bytes) :=
  match srcs with
  | [] => None
  | s :: srcs => match read s key seq with Some r => Some r | None => first_read srcs key seq end
  end.

Fixpoint layered (srcs : list (list entry)) : Prop :=
  match srcs with
  | [] => True
  | s :: srcs =>
      (forall x y, x ∈ s -> y ∈ concat srcs -> user_key x = user_key y -> tag y <= tag x) /\ layered srcs
  end.

Lemma first_read_newest srcs key seq :
  layered srcs -> first_read srcs key seq = read (concat srcs) key seq.
Proof.
  induction srcs as [|s srcs IH]; [done|]. intros [Hl Hls]. simpl. rewrite (IH Hls). unfold read. rewrite newest_app.
  destruct (newest s key seq) as [x|] eqn:Ex; [|done]. simpl.
  destruct (newest (concat srcs) key seq) as [y|] eqn:Ey; [|done].
  apply newest_Some in Ex as (Hx & Hvx & _), Ey as (Hy & Hvy & _).
  apply visible_true in Hvx as [Hkx _], Hvy as [Hky _].
  specialize (Hl x y Hx Hy ltac:(congruence)). simpl. by zcase.
Qed.

(** Sources that lose versions stay layered. *)
Lemma layered_shrink srcs srcs' :
  Forall2 (fun a b => forall x, x ∈ a -> x ∈ b) srcs' srcs -> layered srcs -> layered srcs'.
Proof.
  induction 1 as [|a b srcs' srcs Hab Hf IH]; [done|]. intros [Hl Hls]. split; [|by apply IH].
  intros x y Hx Hy. apply Hl; [by apply Hab|]. clear -Hf Hy.
  induction Hf as [|a b srcs' srcs Hab _ IH]; [done|]. simpl in *. set_solver.
Qed.

Lemma layered_app a b :
  layered (a ++ b) <->
  layered a /\ layered b /\ (forall x y, x ∈ concat a -> y ∈ concat b -> user_key x = user_key y -> tag y <= tag x).
Proof.
  induction a as [|s a IH]; simpl; [split; [intros H; split_and!; [done|done|by intros ? ? ?%elem_of_nil]|tauto]|].
  rewrite IH, concat_app. setoid_rewrite elem_of_app. split.
  - intros (H1 & H2 & H3 & H4). split_and!; [auto|done|done|]. intros x y [Hx|Hx] Hy; auto.
  - intros ((H1 & H2) & H3 & H4). split_and!; [|done|done|auto]. intros x y Hx [Hy|Hy]; auto.
Qed.

(** Versions move from the sources [As] into the source below them. *)
Lemma layered_replace a As B post As' B' :
  layered (a ++ As ++ B :: post) -> layered As' -> (forall x, x ∈ concat As' -> x ∈ concat As) ->
  (forall y, y ∈ B' -> y ∈ B \/ y ∈ concat As) ->
  (forall x y, x ∈ concat As' -> y ∈ B' -> user_key x = user_key y -> tag y <= tag x) ->
  layered (a ++ As' ++ B' :: post).
Proof.
  intros H HA HAs HB HAB. rewrite !layered_app in *. simpl in *. destruct H as (H1 & (H2 & (H3 & H4) & H5) & H6).
  rewrite concat_app in *. simpl in *. setoid_rewrite elem_of_app in H5. setoid_rewrite elem_of_app in H6.
  setoid_rewrite elem_of_app in H6. split_and!; try done.
  - intros x y Hx Hy Hk. destruct (HB x Hx) as [Hx'|Hx']; [by apply H3|]. apply H5; auto.
  - intros x y Hx Hy Hk. apply elem_of_app in Hy as [Hy|Hy]; [by apply HAB|]. apply H5; auto.
  - intros x y Hx Hy Hk. apply H6; [done| |done]. apply elem_of_app in Hy as [Hy|Hy]; [left; auto|].
    apply elem_of_app in Hy as [Hy|Hy]; [|auto]. destruct (HB y Hy); auto.
Qed.

Lemma first_read_app a b key seq :
  first_read (a ++ b) key seq =
    match first_read a key seq with Some r => Some r | None => first_read b key seq end.
Proof. induction a as [|s a IH]; simpl; [done|]. destruct (read s key seq); [done|]. apply IH. Qed.

Lemma read_absent es key seq : Forall (fun e => user_key e <> key) es -> read es key seq = None.
Proof.
  intros H. unfold read. replace (newest es key seq) with (@None entry); [done|]. symmetry. apply newest_None.
  eapply Forall_impl; [exact H|]. intros e He. apply not_true_iff_false. rewrite visible_true. simpl in He. intros [? _]. done.
Qed.

Lemma read_app a b key seq :
  read a key seq = None -> read (a ++ b) key seq = read b key seq.
Proof. unfold read. rewrite newest_app. by destruct (newest a key seq). Qed.

Lemma read_app_l a b key seq :
  read b key seq = None -> read (a ++ b) key seq = read a key seq.
Proof. unfold read. rewrite newest_app. destruct (newest b key seq); [done|]. by rewrite newer_None_r. Qed.

(** ** Contents as a set

    Where the same version is never stored with two values, only the members of
    a collection matter to a read, not their order or number. *)

Definition agree (es : list entry) : Prop := forall x y, x ∈ es -> y ∈ es -> x.1 = y.1 -> x = y.

Lemma same_version x y :
  ikey_typed x.1 -> ikey_typed y.1 -> user_key x = user_key y -> tag x = tag y -> x.1 = y.1.
Proof.
  intros [Hx _] [Hy _] Hk Ht. apply CompareInternalKey_eq; [done|done|].
  pose proof (CompareInternalKey_antisym x.1 y.1) as Ha.
  assert (~ x.1 ≺ y.1 /\ ~ y.1 ≺ x.1) as [H1 H2]; [|lia].
  rewrite !CompareInternalKey_lt. unfold user_key, tag in *. rewrite Hk, Ht, sv_compare_refl. lia.
Qed.

Lemma newest_members a b key seq :
  agree a -> entries_typed a -> (forall x, x ∈ a <-> x ∈ b) -> newest a key seq = newest b key seq.
Proof.
  unfold agree, entries_typed. intros Hag Ht Hm. rewrite Forall_forall in Ht.
  destruct (newest a key seq) as [x|] eqn:Ex, (newest b key seq) as [y|] eqn:Ey.
  - apply newest_Some in Ex as (Hx & Hvx & Hmx), Ey as (Hy & Hvy & Hmy). rewrite Forall_forall in Hmx, Hmy.
    pose proof (Hmx y (proj2 (Hm y) Hy) Hvy). pose proof (Hmy x (proj1 (Hm x) Hx) Hvx).
    apply visible_true in Hvx as [Hkx _], Hvy as [Hky _]. apply Hm in Hy.
    f_equal. apply Hag; [done|done|]. apply same_version; [by apply Ht|by apply Ht|congruence|lia].
  - apply newest_Some in Ex as (Hx & Hvx & _). apply newest_None in Ey. rewrite Forall_forall in Ey.
    rewrite Ey in Hvx; [done|by apply Hm].
  - apply newest_Some in Ey as (Hy & Hvy & _). apply newest_None in Ex. rewrite Forall_forall in Ex.
    rewrite Ex in Hvy; [done|by apply Hm].
  - done.
Qed.

Lemma read_members a b key seq :
  agree a -> entries_typed a -> (forall x, x ∈ a <-> x ∈ b) -> read a key seq = read b key seq.
Proof. intros H1 H2 H3. unfold read. by rewrite (newest_members a b). Qed.

Lemma agree_subset a b : (forall x, x ∈ a -> x ∈ b) -> agree b -> agree a.
Proof. intros Hs Hb x y Hx Hy. by apply Hb; apply Hs. Qed.

Lemma typed_subset a b : (forall x, x ∈ a -> x ∈ b) -> entries_typed b -> entries_typed a.
Proof. unfold entries_typed. rewrite !Forall_forall. auto. Qed.

(** User keys only grow along a sorted source. *)
Lemma entry_lt_user a b : entry_lt a b -> sv_compare (user_key a) (user_key b) <= 0.
Proof.
  unfold entry_lt. rewrite CompareInternalKey_lt. unfold user_key. intros [?|[-> _]]; [lia|].
  rewrite sv_compare_refl. lia.
Qed.

Lemma user_lt_entry_lt a b : sv_compare (user_key a) (user_key b) < 0 -> entry_lt a b.
Proof. intros H. unfold entry_lt. rewrite CompareInternalKey_lt. by left. Qed.

Lemma sorted_head_user e es x : sorted es -> head es = Some e -> x ∈ es -> sv_compare (user_key e) (user_key x) <= 0.
Proof.
  destruct es as [|y es]; intros Hs; [done|]. intros [= ->] Hx. apply sorted_cons in Hs as [Hf _].
  apply elem_of_cons in Hx as [->|Hx]; [rewrite sv_compare_refl; lia|].
  rewrite Forall_forall in Hf. by apply entry_lt_user, Hf.
Qed.

Lemma sorted_last_user e es x : sorted es -> last es = Some e -> x ∈ es -> sv_compare (user_key x) (user_key e) <= 0.
Proof.
  intros Hs Hl Hx. apply last_Some in Hl as [l ->]. apply sorted_app in Hs as (_ & _ & Hlt).
  apply elem_of_app in Hx as [Hx|Hx]; [|apply list_elem_of_singleton in Hx as ->; rewrite sv_compare_refl; lia].
  apply entry_lt_user, Hlt; [done|set_solver].
Qed.

(** ** Insertion into a sorted source *)

Definition insert_entry (e : entry) (es : list entry) : list entry :=
  take_while (fun x : entry => CompareInternalKey x.1 e.1 <? 0) es ++ e :: seek es e.1.

Lemma insert_entry_split (e : entry) es :
  es = take_while (fun x : entry => CompareInternalKey x.1 e.1 <? 0) es ++ seek es e.1.
Proof. apply take_drop_while. Qed.

Lemma Forall_insert_entry P e es : P e -> Forall P es -> Forall P (insert_entry e es).
Proof.
  intros He Hes. unfold insert_entry. rewrite (insert_entry_split e es) in Hes.
  apply Forall_app in Hes as [? ?]. apply Forall_app. auto.
Qed.

Lemma insert_entry_perm e es : insert_entry e es ≡ₚ e :: es.
Proof.
  unfold insert_entry. rewrite (insert_entry_split e es) at 3. by rewrite Permutation_middle.
Qed.

Lemma length_insert_entry e es : length (insert_entry e es) = S (length es).
Proof. by rewrite insert_entry_perm. Qed.

Lemma sorted_insert (e : entry) es :
  sorted es -> Forall (fun x : entry => CompareInternalKey x.1 e.1 <> 0) es -> sorted (insert_entry e es).
Proof.
  intros Hs Hd. unfold insert_entry.
  pose proof (insert_entry_split e es) as Heq.
  pose proof (take_while_all (fun x : entry => CompareInternalKey x.1 e.1 <? 0) es) as Hlo.
  rewrite Heq in Hs, Hd. apply sorted_app in Hs as (H1 & H2 & H12). apply Forall_app in Hd as [_ Hd].
  rewrite Forall_forall in Hlo.
  assert (Forall (entry_lt e) (seek es e.1)) as He.
  { destruct (seek es e.1) as [|x rest] eqn:Ex; [constructor|].
    assert (entry_lt e x) as Hx.
    { unfold seek in Ex. apply drop_while_head in Ex. apply Forall_cons in Hd as [Hd _].
      unfold entry_lt. pose proof (CompareInternalKey_antisym x.1 e.1). lia. }
    constructor; [done|]. apply sorted_cons in H2 as [Hr _].
    eapply Forall_impl; [exact Hr|]. intros y. by apply entry_lt_trans. }
  apply sorted_app. split_and!; [done|by apply sorted_cons|]. intros x y Hx Hy.
  apply Hlo in Hx as Hxe. assert (entry_lt x e) by (unfold entry_lt; lia).
  apply elem_of_cons in Hy as [->|Hy]; [done|]. rewrite Forall_forall in He.
  eapply entry_lt_trans; [done|]. by apply He.
Qed.
