(* ===== verification/Arena.v ===== *)
(** * The bump allocator (include/lsm/arena.h, src/arena.cpp)

    A pointer is a block index and an offset into it. [new char[n]] returns
    storage aligned for [max_align_t], so a pointer's residue modulo the
    alignment is that of its offset; the null pointer's is zero. *)

From S2P Require Import Prelude.

Definition kBlockSize : Z := 4096.
Definition kAlign : Z := 16.  (** [alignof(std::max_align_t)] *)
Definition sizeof_unique_ptr : Z := 8.

Record Arena := mkArena {
  alloc_ptr_ : option (nat * Z);
  alloc_bytes_remaining_ : Z;
  blocks_ : list Z;          (** the size of each block *)
  memory_usage_ : Z
}.

Definition new_Arena : Arena := mkArena None 0 [] 0.

Definition MemoryUsage (a : Arena) : Z := memory_usage_ a.

Definition AllocateNewBlock (block_bytes : Z) (a : Arena) : (nat * Z) * Arena :=
  ((length (blocks_ a), 0),
   mkArena (alloc_ptr_ a) (alloc_bytes_remaining_ a) (blocks_ a ++ [block_bytes])
     (memory_usage_ a + (block_bytes + sizeof_unique_ptr))).

Definition AllocateFallback (bytes : Z) (a : Arena) : (nat * Z) * Arena :=
  if kBlockSize / 4 <? bytes then AllocateNewBlock bytes a
  else
    let '((b, o), a) := AllocateNewBlock kBlockSize a in
    ((b, o), mkArena (Some (b, o + bytes)) (kBlockSize - bytes) (blocks_ a) (memory_usage_ a)).

(** [alloc_ptr_ + d] with [d] bytes taken off the remaining ones. *)
Definition advance (d : Z) (a : Arena) : Arena :=
  mkArena (option_map (fun '(b, o) => (b, o + d)) (alloc_ptr_ a))
    (alloc_bytes_remaining_ a - d) (blocks_ a) (memory_usage_ a).

(** The null pointer is handed out only for zero bytes of an empty arena. *)
Definition Allocate (bytes : Z) (a : Arena) : option (nat * Z) * Arena :=
  if bytes <=? alloc_bytes_remaining_ a then (alloc_ptr_ a, advance bytes a)
  else let '(p, a) := AllocateFallback bytes a in (Some p, a).

Definition slop (a : Arena) : Z :=
  let current := match alloc_ptr_ a with Some (_, o) => o mod kAlign | None => 0 end in
  if current =? 0 then 0 else kAlign - current.

Definition AllocateAligned (bytes : Z) (a : Arena) : option (nat * Z) * Arena :=
  if u64 (bytes + slop a) <=? alloc_bytes_remaining_ a then
    (option_map (fun '(b, o) => (b, o + slop a)) (alloc_ptr_ a), advance (bytes + slop a) a)
  else let '(p, a) := AllocateFallback bytes a in (Some p, a).

(** ** Specification: the regions handed out so far *)

Record region := mkRegion { r_block : nat; r_off : Z; r_len : Z }.

Definition disjoint_regions (x y : region) : Prop :=
  r_block x <> r_block y \/ r_off x + r_len x <= r_off y \/ r_off y + r_len y <= r_off x.

Record arena_inv (a : Arena) (rs : list region) : Prop := {
  ai_ptr : match alloc_ptr_ a with
           | None => alloc_bytes_remaining_ a = 0
           | Some (b, o) =>
               0 <= o /\ 0 <= alloc_bytes_remaining_ a /\
               blocks_ a !! b = Some kBlockSize /\ o + alloc_bytes_remaining_ a = kBlockSize /\
               Forall (fun r => r_block r = b -> r_off r + r_len r <= o) rs
           end;
  ai_bounds : Forall (fun r => 0 <= r_off r /\ 0 <= r_len r /\
                exists n, blocks_ a !! r_block r = Some n /\ r_off r + r_len r <= n) rs;
  ai_disjoint : forall i j x y, rs !! i = Some x -> rs !! j = Some y -> i <> j -> disjoint_regions x y;
  ai_usage : memory_usage_ a = foldr (fun n acc => n + sizeof_unique_ptr + acc) 0 (blocks_ a)
}.

(** ** Lemmas *)

Lemma new_Arena_inv : arena_inv new_Arena [].
Proof. split; simpl; try done. Qed.

Lemma usage_snoc l n :
  foldr (fun n acc => n + sizeof_unique_ptr + acc) 0 (l ++ [n]) =
  foldr (fun n acc => n + sizeof_unique_ptr + acc) 0 l + (n + sizeof_unique_ptr).
Proof. induction l as [|x l IH]; simpl; [lia|]. rewrite IH. lia. Qed.

Lemma disjoint_cons x rs :
  Forall (disjoint_regions x) rs ->
  (forall i j x y, rs !! i = Some x -> rs !! j = Some y -> i <> j -> disjoint_regions x y) ->
  forall i j a b, (x :: rs) !! i = Some a -> (x :: rs) !! j = Some b -> i <> j -> disjoint_regions a b.
Proof.
  intros Hx Hrs [|i] [|j] a b; simpl; intros Ha Hb Hne; [done| | |by eapply Hrs; eauto; lia].
  - injection Ha as <-. by apply (Forall_lookup_1 _ _ _ _ Hx Hb).
  - injection Hb as <-. apply (Forall_lookup_1 _ _ _ _ Hx) in Ha. unfold disjoint_regions in *. lia.
Qed.

Lemma AllocateFallback_inv bytes a rs b o a' :
  0 <= bytes -> arena_inv a rs -> AllocateFallback bytes a = ((b, o), a') ->
  o = 0 /\ arena_inv a' (mkRegion b o bytes :: rs).
Proof.
  intros Hb [Hp Hbd Hd Hu] H. unfold AllocateFallback, AllocateNewBlock in H.
  assert (Forall (fun r => r_block r <> length (blocks_ a)) rs) as Hfresh.
  { eapply Forall_impl; [exact Hbd|]. intros r (_ & _ & n & Hn & _) Heq.
    apply lookup_lt_Some in Hn. lia. }
  assert (Forall (fun r => 0 <= r_off r /\ 0 <= r_len r /\ exists n, forall m,
    (blocks_ a ++ [m]) !! r_block r = Some n /\ r_off r + r_len r <= n) rs) as Hbd'.
  { eapply Forall_impl; [exact Hbd|]. intros r (? & ? & n & Hn & ?). split_and!; try done.
    exists n. intros m. split; [|done]. by apply lookup_app_l_Some. }
  destruct (Z.ltb_spec (kBlockSize / 4) bytes); injection H as <- <- <-; (split; [done|]).
  - split; simpl.
    + destruct (alloc_ptr_ a) as [[b' o']|]; [|done]. destruct Hp as (? & ? & Hl & ? & Hf).
      split_and!; [done|done|by apply lookup_app_l_Some|done|].
      constructor; [|done]. simpl. intros <-. apply lookup_lt_Some in Hl. lia.
    + constructor; simpl.
      * split_and!; [lia|lia|]. exists bytes. rewrite lookup_app_r, Nat.sub_diag by done. simpl. split; [done|lia].
      * eapply Forall_impl; [exact Hbd'|]. intros r (? & ? & n & Hn). naive_solver.
    + apply disjoint_cons; [|done]. eapply Forall_impl; [exact Hfresh|]. intros r ?. left. simpl. congruence.
    + rewrite usage_snoc. lia.
  - change (kBlockSize / 4) with 1024 in *. change kBlockSize with 4096 in *. split; simpl.
    + split_and!; [lia|lia| |unfold kBlockSize; lia|].
      * by rewrite lookup_app_r, Nat.sub_diag by done.
      * constructor; [simpl; lia|]. eapply Forall_impl; [exact Hfresh|]. simpl. done.
    + constructor; simpl.
      * split_and!; [lia|lia|]. exists 4096. rewrite lookup_app_r, Nat.sub_diag by done. simpl. split; [done|lia].
      * eapply Forall_impl; [exact Hbd'|]. intros r (? & ? & n & Hn). naive_solver.
    + apply disjoint_cons; [|done]. eapply Forall_impl; [exact Hfresh|]. intros r ?. left. simpl. congruence.
    + rewrite usage_snoc. lia.
Qed.

(** Handing out [d] bytes at distance [skip] from the bump pointer. *)
Lemma advance_inv a rs b o skip d :
  arena_inv a rs -> alloc_ptr_ a = Some (b, o) -> 0 <= skip -> 0 <= d ->
  d + skip <= alloc_bytes_remaining_ a ->
  arena_inv (advance (d + skip) a) (mkRegion b (o + skip) d :: rs).
Proof.
  intros [Hp Hbd Hd Hu] Ha Hs Hd0 Hle. rewrite Ha in Hp. destruct Hp as (Ho & Hr & Hl & Hsum & Hf).
  split; simpl.
  - rewrite Ha. simpl. split_and!; [lia|lia|done|lia|].
    constructor; [simpl; lia|]. eapply Forall_impl; [exact Hf|]. simpl. intros r Hr' Heq.
    specialize (Hr' Heq). lia.
  - constructor; [|done]. simpl. split_and!; [lia|lia|]. eexists. split; [exact Hl|]. lia.
  - apply disjoint_cons; [|done]. eapply Forall_impl; [exact Hf|]. intros r Hr'. simpl.
    destruct (decide (r_block r = b)) as [Heq|]; [|left; simpl; congruence].
    specialize (Hr' Heq). right. right. simpl. lia.
  - done.
Qed.

Lemma slop_range a : 0 <= slop a < kAlign.
Proof.
  unfold slop, kAlign. destruct (alloc_ptr_ a) as [[b o]|]; [|simpl; lia].
  pose proof (Z.mod_pos_bound o 16). zcase; lia.
Qed.

Lemma slop_aligned a b o : alloc_ptr_ a = Some (b, o) -> (o + slop a) mod kAlign = 0.
Proof.
  intros Ha. unfold slop, kAlign. rewrite Ha. zcase.
  - by rewrite Z.add_0_r.
  - pose proof (Z.div_mod o 16). apply Z.mod_divide; [lia|]. exists (o / 16 + 1). lia.
Qed.

Lemma AllocateAligned_inv bytes a rs p a' :
  arena_inv a rs -> 0 < bytes < 2 ^ 63 -> AllocateAligned bytes a = (p, a') ->
  exists b o, p = Some (b, o) /\ o mod kAlign = 0 /\ arena_inv a' (mkRegion b o bytes :: rs).
Proof.
  intros Hinv Hb H. unfold AllocateAligned in H. pose proof (slop_range a) as Hsl.
  unfold kAlign in Hsl. rewrite u64_id in H by lia.
  destruct (Z.leb_spec (bytes + slop a) (alloc_bytes_remaining_ a)) as [Hle|Hgt].
  - destruct (alloc_ptr_ a) as [[b o]|] eqn:Ea.
    + injection H as <- <-. exists b, (o + slop a). split_and!; [done|by eapply slop_aligned|].
      apply advance_inv; (done || lia).
    + pose proof (ai_ptr _ _ Hinv) as Hp. rewrite Ea in Hp. lia.
  - destruct (AllocateFallback bytes a) as [[b o] a0] eqn:Ef. injection H as <- <-.
    apply (AllocateFallback_inv _ _ rs) in Ef as [-> Hinv']; [|lia|done]. by exists b, 0.
Qed.

(** ** Properties *)

(** C30: memory safety of the allocator. An aligned allocation of a positive
    number of bytes returns a pointer to that many bytes inside one block,
    aligned for any object, overlapping no region handed out before, and keeps
    the books: the usage is the size of all blocks plus their bookkeeping. *)
Theorem arena_AllocateAligned_safe bytes a rs p a' :
  arena_inv a rs -> 0 < bytes < 2 ^ 63 -> AllocateAligned bytes a = (p, a') ->
  exists b o, p = Some (b, o) /\ o mod kAlign = 0 /\ arena_inv a' (mkRegion b o bytes :: rs).
Proof. apply AllocateAligned_inv. Qed.

Lemma arena_AllocateAligned_safe_witness :
  exists b o, (AllocateAligned 104 new_Arena).1 = Some (b, o) /\ o mod kAlign = 0.
Proof.
  destruct (arena_AllocateAligned_safe 104 new_Arena [] (AllocateAligned 104 new_Arena).1
    (AllocateAligned 104 new_Arena).2 new_Arena_inv ltac:(lia) ltac:(reflexivity)) as (b & o & ? & ? & _).
  by exists b, o.
Defined.

(** Bounded waste. When an allocation, aligned or not, gives up on the
    current block and takes a fresh one, fewer than [kBlockSize / 4] bytes are
    left behind in it - also for aligned requests, whose slop does not add to
    the loss because blocks are a multiple of the alignment. *)
Theorem arena_bounded_waste bytes a rs b o :
  arena_inv a rs -> 0 <= bytes < 2 ^ 63 -> alloc_ptr_ a = Some (b, o) ->
  (forall p a', Allocate bytes a = (p, a') ->
     (exists o', alloc_ptr_ a' = Some (b, o')) \/ alloc_bytes_remaining_ a < kBlockSize / 4) /\
  (forall p a', AllocateAligned bytes a = (p, a') ->
     (exists o', alloc_ptr_ a' = Some (b, o')) \/ alloc_bytes_remaining_ a < kBlockSize / 4).
Proof.
  intros [Hp _ _ _] Hb Ha. rewrite Ha in Hp. destruct Hp as (Ho & Hr & _ & Hsum & _).
  assert (forall n p a', AllocateFallback n a = (p, a') ->
    (exists o', alloc_ptr_ a' = Some (b, o')) \/ n <= 1024) as Hfb.
  { intros n [b' o'] a' H. unfold AllocateFallback, AllocateNewBlock in H.
    change (kBlockSize / 4) with 1024 in H. destruct (Z.ltb_spec 1024 n); [|by right].
    injection H as <- <- <-. left. by exists o. }
  change (kBlockSize / 4) with 1024. unfold kBlockSize in Hsum. split; intros p a' H.
  - unfold Allocate in H. destruct (Z.leb_spec bytes (alloc_bytes_remaining_ a)).
    + injection H as <- <-. left. simpl. rewrite Ha. by eexists.
    + destruct (AllocateFallback bytes a) as [q a0] eqn:Ef. injection H as <- <-.
      destruct (Hfb _ _ _ Ef); [by left|right; lia].
  - unfold AllocateAligned in H. pose proof (slop_range a) as Hsl. unfold kAlign in Hsl.
    rewrite u64_id in H by lia. destruct (Z.leb_spec (bytes + slop a) (alloc_bytes_remaining_ a)).
    + injection H as <- <-. left. simpl. rewrite Ha. by eexists.
    + destruct (AllocateFallback bytes a) as [q a0] eqn:Ef. injection H as <- <-.
      destruct (Hfb _ _ _ Ef); [by left|right].
      pose proof (slop_aligned a b o Ha) as Hal. unfold kAlign in Hal.
      apply Z.mod_divide in Hal as [k Hk]; lia.
Qed.

Lemma arena_bounded_waste_witness :
  let a := (AllocateAligned 104 new_Arena).2 in
  (exists o', alloc_ptr_ (AllocateAligned 24 a).2 = Some (0%nat, o')) \/
  alloc_bytes_remaining_ a < kBlockSize / 4.
Proof.
  destruct (AllocateAligned_inv 104 new_Arena [] _ _ new_Arena_inv ltac:(lia) eq_refl)
    as (b & o & _ & _ & Hinv).
  exact (proj2 (arena_bounded_waste 24 _ _ 0%nat 104 Hinv ltac:(lia) eq_refl) _ _ eq_refl).
Defined.
