(* ===== verification/Skiplist.v ===== *)
(** * The skip list (include/lsm/skiplist.h)

    Nodes live in a store indexed by pointer; the head is node 0. The
    comparator and the random engine are parameters, as the source makes them a
    template argument and a member. [Insert] is a sequence of stores, so that
    what a lock-free reader sees between two of them can be stated. *)

From Stdlib Require Import Sorted.
From S2P Require Import Prelude Arena.

Definition kMaxHeight : nat := 12.
Definition kBranching : Z := 4.

Record Node := mkNode {
  nkey : bytes;
  height : nat;
  next_slots : list (option nat)
}.

(** [sizeof(Node) + sizeof(std::atomic<Node*>) * h]. *)
Definition KeyOffset (h : nat) : Z := 8 + 8 * Z.of_nat h.

(** [Next]/[NoBarrierNext] and [SetNext]/[NoBarrierSetNext]: the orderings differ
    only in when another thread sees the store. *)
Definition Next (ns : list Node) (n level : nat) : option nat :=
  match ns !! n with
  | Some nd => default None (next_slots nd !! level)
  | None => None
  end.

Definition SetNext (ns : list Node) (n level : nat) (v : option nat) : list Node :=
  alter (fun nd => mkNode (nkey nd) (height nd) (<[level := v]> (next_slots nd))) n ns.

Definition key_of (ns : list Node) (n : nat) : bytes :=
  match ns !! n with Some nd => nkey nd | None => [] end.

(** What the list needs of its template argument: a strict order by sign. *)
Class Comparator (compare : bytes -> bytes -> Z) : Prop := {
  cmp_antisym : forall a b, compare b a = - compare a b;
  cmp_trans : forall a b c, compare a b < 0 -> compare b c < 0 -> compare a c < 0
}.

Section SkipList.
Context (compare : bytes -> bytes -> Z).
Context {R : Type} (rnd : R -> Z * R).

Record SkipList := mkSkipList {
  nodes : list Node;
  arena_ : Arena;
  max_height_ : nat;
  size_ : Z;
  rnd_ : R
}.

(** The node's memory comes from the arena; its pointer is its index. *)
Definition NewNode (key : bytes) (h : nat) (ns : list Node) (a : Arena) : nat * list Node * Arena :=
  let '(_, a) := AllocateAligned (KeyOffset h + size key) a in
  (length ns, ns ++ [mkNode key h (replicate h None)], a).

Definition new_SkipList (a : Arena) (seed : R) : SkipList :=
  let '(_, ns, a) := NewNode [] kMaxHeight [] a in
  mkSkipList ns a 1 0 seed.

(** [while (height < kMaxHeight && rnd_() % kBranching == 0) ++height]: the
    engine is consulted only while the height may still grow. *)
Fixpoint RandomHeight_loop (fuel h : nat) (r : R) : nat * R :=
  match fuel with
  | O => (h, r)
  | S fuel' =>
      if (h <? kMaxHeight)%nat then
        let '(x, r) := rnd r in
        if x mod kBranching =? 0 then RandomHeight_loop fuel' (S h) r else (h, r)
      else (h, r)
  end.

Definition RandomHeight (r : R) : nat * R := RandomHeight_loop kMaxHeight 1 r.

Definition KeyIsAfterNode (ns : list Node) (key : bytes) (n : option nat) : bool :=
  match n with
  | Some n => compare (key_of ns n) key <? 0
  | None => false
  end.

(** The search loop at [(x, level)]. [prev] is the caller's array, [None] where
    it is not yet written. *)
Fixpoint Find_loop (fuel : nat) (ns : list Node) (key : bytes) (x level : nat)
    (prev : list (option nat)) : option nat * list (option nat) :=
  match fuel with
  | O => (None, prev)
  | S fuel' =>
      let next := Next ns x level in
      match next with
      | Some y =>
          if KeyIsAfterNode ns key next then Find_loop fuel' ns key y level prev
          else
            let prev := <[level := Some x]> prev in
            match level with
            | O => (next, prev)
            | S level' => Find_loop fuel' ns key x level' prev
            end
      | None =>
          let prev := <[level := Some x]> prev in
          match level with
          | O => (next, prev)
          | S level' => Find_loop fuel' ns key x level' prev
          end
      end
  end.

(** Each level is walked at most once from end to end. *)
Definition Find_fuel (ns : list Node) : nat := S (kMaxHeight * S (length ns)).

Definition FindGreaterOrEqual (ns : list Node) (mh : nat) (key : bytes) (prev : list (option nat))
  : option nat * list (option nat) :=
  Find_loop (Find_fuel ns) ns key 0 (mh - 1) prev.

Definition no_prev : list (option nat) := replicate kMaxHeight None.

(** [for (int i = cur_max; i < height; ++i) prev[i] = head_]. *)
Definition raise_prev (cur_max h : nat) (prev : list (option nat)) : list (option nat) :=
  fold_left (fun prev i => <[i := Some 0%nat]> prev) (seq cur_max (h - cur_max)) prev.

(** The two stores that link [node] at level [i]: fill the new node's slot, then
    publish it in its predecessor. An unwritten [prev[i]] is undefined
    behaviour; here it links nothing. *)
Definition fill_slot (node : nat) (prev : list (option nat)) (ns : list Node) (i : nat) : list Node :=
  match prev !! i with
  | Some (Some p) => SetNext ns node i (Next ns p i)
  | _ => ns
  end.

Definition publish (node : nat) (prev : list (option nat)) (ns : list Node) (i : nat) : list Node :=
  match prev !! i with
  | Some (Some p) => SetNext ns p i (Some node)
  | _ => ns
  end.

Definition link_level (node : nat) (prev : list (option nat)) (ns : list Node) (i : nat) : list Node :=
  publish node prev (fill_slot node prev ns i) i.

Definition Insert (key : bytes) (sl : SkipList) : SkipList :=
  let '(_, prev) := FindGreaterOrEqual (nodes sl) (max_height_ sl) key no_prev in
  let '(h, r) := RandomHeight (rnd_ sl) in
  let cur_max := max_height_ sl in
  let prev := if (cur_max <? h)%nat then raise_prev cur_max h prev else prev in
  let mh := if (cur_max <? h)%nat then h else cur_max in
  let '(node, ns, a) := NewNode key h (nodes sl) (arena_ sl) in
  let ns := fold_left (link_level node prev) (seq 0 h) ns in
  mkSkipList ns a mh (size_ sl + 1) r.

Definition Contains (key : bytes) (sl : SkipList) : bool :=
  match (FindGreaterOrEqual (nodes sl) (max_height_ sl) key no_prev).1 with
  | Some x => compare (key_of (nodes sl) x) key =? 0
  | None => false
  end.

(** ** Iterator *)

Definition Iter : Type := option nat.  (** [node_] *)

Definition it_Valid (it : Iter) : bool := match it with Some _ => true | None => false end.
Definition it_key (sl : SkipList) (it : Iter) : bytes :=
  match it with Some n => key_of (nodes sl) n | None => [] end.
Definition it_Next (sl : SkipList) (it : Iter) : Iter :=
  match it with Some n => Next (nodes sl) n 0 | None => None end.
Definition it_Seek (sl : SkipList) (target : bytes) : Iter :=
  (FindGreaterOrEqual (nodes sl) (max_height_ sl) target no_prev).1.
Definition it_SeekToFirst (sl : SkipList) : Iter := Next (nodes sl) 0 0.

(** ** Invariant

    [ch l] lists the nodes linked at level [l]. *)

Definition klt (ns : list Node) (a b : nat) : Prop := compare (key_of ns a) (key_of ns b) < 0.

Definition linked (ns : list Node) (l : nat) (ids : list nat) : Prop :=
  forall i a, (0%nat :: ids) !! i = Some a -> Next ns a l = ids !! i.

Record sl_inv (ns : list Node) (mh : nat) (ch : nat -> list nat) : Prop := {
  inv_head : exists hd, ns !! 0%nat = Some hd /\ length (next_slots hd) = kMaxHeight;
  inv_mh : (1 <= mh <= kMaxHeight)%nat;
  inv_link : forall l, (l < kMaxHeight)%nat -> linked ns l (ch l);
  inv_top : forall l, (mh <= l < kMaxHeight)%nat -> ch l = [];
  inv_sub : forall l x, (S l < kMaxHeight)%nat -> x ∈ ch (S l) -> x ∈ ch l;
  inv_node : forall l x, (l < kMaxHeight)%nat -> x ∈ ch l ->
    x <> 0%nat /\ exists nd, ns !! x = Some nd /\ (l < length (next_slots nd))%nat;
  inv_sorted : forall l, (l < kMaxHeight)%nat -> StronglySorted (klt ns) (ch l)
}.

(** The nodes whose key is below the one looked for. *)
Definition before (ns : list Node) (key : bytes) (n : nat) : bool := compare (key_of ns n) key <? 0.

(** The splice point at one level. *)
Definition pred_of (ns : list Node) (key : bytes) (ids : list nat) : nat :=
  default 0%nat (last (take_while (before ns key) ids)).

(** The keys in order. *)
Definition keys_of (ns : list Node) (ch : nat -> list nat) : list bytes := map (key_of ns) (ch 0%nat).

(** ** Search *)

Context {Hcmp : Comparator compare}.

Lemma klt_irrefl ns a : ~ klt ns a a.
Proof. unfold klt. pose proof (cmp_antisym (key_of ns a) (key_of ns a)). lia. Qed.

Lemma before_mono ns key a b : klt ns a b -> before ns key b = true -> before ns key a = true.
Proof. unfold klt, before. rewrite !Z.ltb_lt. apply cmp_trans. Qed.

Lemma sorted_lookup_lt ns ids i j a b :
  StronglySorted (klt ns) ids -> ids !! i = Some a -> ids !! j = Some b -> (i < j)%nat -> klt ns a b.
Proof.
  intros Hs. revert i j. induction Hs as [|x ids Hs IH Hx]; intros i j Ha Hb Hij; [done|].
  destruct j as [|j]; [lia|]. destruct i as [|i]; simpl in *.
  - injection Ha as <-. by apply (Forall_lookup_1 _ _ _ _ Hx Hb).
  - by eapply IH; eauto; lia.
Qed.

Section Search.
Context (ns : list Node) (mh : nat) (ch : nat -> list nat) (key : bytes).
Hypothesis Hinv : sl_inv ns mh ch.

Lemma ch_NoDup l : (l < kMaxHeight)%nat -> NoDup (ch l).
Proof.
  intros Hl. pose proof (inv_sorted _ _ _ Hinv l Hl) as Hs.
  induction Hs as [|x ids Hs IH Hx]; constructor; [|done].
  rewrite Forall_forall in Hx. intros Hin. by apply (klt_irrefl ns x), Hx.
Qed.

Lemma ch_length l : (l < kMaxHeight)%nat -> (length (ch l) <= length ns)%nat.
Proof.
  intros Hl. rewrite <- (length_seq (length ns) 0). apply submseteq_length.
  apply NoDup_submseteq; [by apply ch_NoDup|]. intros x Hx.
  destruct (inv_node _ _ _ Hinv l x Hl Hx) as (_ & nd & Hnd & _).
  apply elem_of_seq. apply lookup_lt_Some in Hnd. lia.
Qed.

(** What the walk has established when it stands at position [i] of level [l]. *)
Definition at_pos (l i x : nat) : Prop :=
  (0%nat :: ch l) !! i = Some x /\ Forall (fun y => before ns key y = true) (take i (ch l)).

Lemma at_pos_down l i x :
  (S l < kMaxHeight)%nat -> at_pos (S l) i x -> exists j, at_pos l j x.
Proof.
  intros Hl [Hx Hb]. destruct i as [|i]; simpl in Hx.
  - injection Hx as <-. exists 0%nat. by split.
  - assert (x ∈ ch l) as Hin.
    { apply (inv_sub _ _ _ Hinv); [done|]. by eapply list_elem_of_lookup_2. }
    apply list_elem_of_lookup in Hin as [j Hj]. exists (S j). split; [done|].
    assert (before ns key x = true) as Hbx.
    { rewrite (take_S_r _ _ x) in Hb by done. apply Forall_app in Hb as [_ Hb]. by inversion Hb. }
    rewrite (take_S_r _ _ x) by done. apply Forall_app. split; [|by constructor].
    apply Forall_lookup. intros k y Hk. apply lookup_take_Some in Hk as [Hk Hlt].
    eapply before_mono; [|exact Hbx].
    eapply (sorted_lookup_lt ns (ch l)); eauto. apply (inv_sorted _ _ _ Hinv). lia.
Qed.

(** The walk stops at the splice point. *)
Lemma at_pos_stop l i x :
  (l < kMaxHeight)%nat -> at_pos l i x -> (forall y, ch l !! i = Some y -> before ns key y = false) ->
  x = pred_of ns key (ch l) /\ drop_while (before ns key) (ch l) = drop i (ch l).
Proof.
  intros Hl [Hx Hb] Hstop.
  assert (i <= length (ch l))%nat as Hi.
  { apply lookup_lt_Some in Hx. simpl in Hx. lia. }
  destruct (while_split (before ns key) (ch l) i Hi Hb Hstop) as [Ht Hd].
  split; [|done]. unfold pred_of. rewrite Ht. destruct i as [|i]; simpl in Hx.
  - by injection Hx as <-.
  - by rewrite (take_S_r _ _ x), last_snoc.
Qed.

Lemma Find_loop_spec fuel l i x prev :
  (l < kMaxHeight)%nat -> at_pos l i x -> length prev = kMaxHeight ->
  (length (ch l) - i + l * S (length ns) < fuel)%nat ->
  exists prev',
    Find_loop fuel ns key x l prev = (head (drop_while (before ns key) (ch 0%nat)), prev') /\
    length prev' = kMaxHeight /\
    (forall j, (j <= l)%nat -> prev' !! j = Some (Some (pred_of ns key (ch j)))) /\
    (forall j, (l < j)%nat -> prev' !! j = prev !! j).
Proof.
  revert l i x prev. induction fuel as [|fuel IH]; intros l i x prev Hl Hpos Hlen Hfuel; [lia|].
  pose proof (inv_link _ _ _ Hinv l Hl i x (proj1 Hpos)) as Hnext.
  assert ((forall y, ch l !! i = Some y -> before ns key y = false) ->
    exists prev', (let prev := <[l := Some x]> prev in
      match l with
      | O => (ch l !! i, prev)
      | S l' => Find_loop fuel ns key x l' prev
      end) = (head (drop_while (before ns key) (ch 0%nat)), prev') /\
    length prev' = kMaxHeight /\
    (forall j, (j <= l)%nat -> prev' !! j = Some (Some (pred_of ns key (ch j)))) /\
    (forall j, (l < j)%nat -> prev' !! j = prev !! j)) as Hdown.
  { intros Hstop. destruct (at_pos_stop l i x Hl Hpos Hstop) as [-> Hdrop]. cbv zeta.
    destruct l as [|l].
    - exists (<[0%nat := Some (pred_of ns key (ch 0%nat))]> prev).
      rewrite Hdrop, head_lookup, lookup_drop, Nat.add_0_r, length_insert. split_and!; [done|done| |].
      + intros j Hj. replace j with 0%nat by lia. apply list_lookup_insert_eq. unfold kMaxHeight in *. lia.
      + intros j Hj. apply list_lookup_insert_ne. lia.
    - destruct (at_pos_down l i _ Hl Hpos) as [j Hj].
      pose proof (ch_length l ltac:(lia)).
      destruct (IH l j (pred_of ns key (ch (S l))) (<[S l := Some (pred_of ns key (ch (S l)))]> prev)) as (prev' & Heq & Hl' & Hlo & Hhi);
        [lia|done|by rewrite length_insert|lia|].
      exists prev'. rewrite Heq. split_and!; [done|done| |].
      + intros k Hk. destruct (decide (k = S l)) as [->|]; [|apply Hlo; lia].
        rewrite Hhi by lia. apply list_lookup_insert_eq. lia.
      + intros k Hk. rewrite Hhi by lia. apply list_lookup_insert_ne. lia. }
  cbn [Find_loop]. rewrite Hnext. destruct (ch l !! i) as [y|] eqn:Ey; [|by apply Hdown].
  cbn [KeyIsAfterNode]. destruct (compare (key_of ns y) key <? 0) eqn:Eb.
  - apply (IH l (S i)); [done| |done|].
    + split; [done|]. rewrite (take_S_r _ _ y) by done. apply Forall_app. split; [apply Hpos|].
      by constructor.
    + apply lookup_lt_Some in Ey. lia.
  - apply Hdown. intros z [= <-]. done.
Qed.

(** The search returns the first node whose key is not below [key], and the
    splice point of every level in use. *)
Lemma FindGreaterOrEqual_spec :
  exists prev,
    FindGreaterOrEqual ns mh key no_prev = (head (drop_while (before ns key) (ch 0%nat)), prev) /\
    length prev = kMaxHeight /\
    (forall j, (j < mh)%nat -> prev !! j = Some (Some (pred_of ns key (ch j)))).
Proof.
  pose proof (inv_mh _ _ _ Hinv) as Hmh. unfold FindGreaterOrEqual.
  pose proof (ch_length (mh - 1) ltac:(lia)).
  destruct (Find_loop_spec (Find_fuel ns) (mh - 1) 0 0 no_prev) as (prev & Heq & Hl & Hlo & _).
  - lia.
  - by split.
  - done.
  - unfold Find_fuel, kMaxHeight in *. nia.
  - exists prev. split_and!; [done|done|]. intros j Hj. apply Hlo. lia.
Qed.

End Search.

(** ** Stores *)

Lemma Next_SetNext_ne ns n l v m k : (n, l) <> (m, k) -> Next (SetNext ns n l v) m k = Next ns m k.
Proof.
  intros Hne. unfold Next, SetNext. destruct (decide (n = m)) as [->|Hnm].
  - rewrite list_lookup_alter_eq. destruct (ns !! m) as [nd|]; [|done]. simpl.
    by rewrite list_lookup_insert_ne by congruence.
  - by rewrite list_lookup_alter_ne.
Qed.

Lemma Next_SetNext_eq ns n l v nd :
  ns !! n = Some nd -> (l < length (next_slots nd))%nat -> Next (SetNext ns n l v) n l = v.
Proof.
  intros Hn Hl. unfold Next, SetNext. rewrite list_lookup_alter_eq, Hn. simpl.
  by rewrite list_lookup_insert_eq.
Qed.

(** Same nodes up to the contents of their slots. *)
Definition same_nodes (ns ns' : list Node) : Prop :=
  forall x nd, ns !! x = Some nd -> exists nd', ns' !! x = Some nd' /\
    nkey nd' = nkey nd /\ length (next_slots nd') = length (next_slots nd).

Lemma SetNext_same ns n l v : same_nodes ns (SetNext ns n l v).
Proof.
  intros x nd Hx. unfold SetNext. destruct (decide (n = x)) as [->|].
  - rewrite list_lookup_alter_eq, Hx. simpl. eexists. split; [done|]. simpl. by rewrite length_insert.
  - rewrite list_lookup_alter_ne by done. eauto.
Qed.

Lemma same_nodes_trans a b c : same_nodes a b -> same_nodes b c -> same_nodes a c.
Proof.
  intros Hab Hbc x nd Hx. destruct (Hab x nd Hx) as (nd' & Hx' & Hk & Hl).
  destruct (Hbc x nd' Hx') as (nd'' & ? & ? & ?). exists nd''. split_and!; [done|congruence..].
Qed.

Lemma same_nodes_app ns l : same_nodes ns (ns ++ l).
Proof. intros x nd Hx. exists nd. split_and!; [by apply lookup_app_l_Some|done..]. Qed.

Lemma same_nodes_key ns ns' x nd :
  same_nodes ns ns' -> ns !! x = Some nd -> key_of ns' x = key_of ns x.
Proof.
  intros Hs Hx. unfold key_of. rewrite Hx. by destruct (Hs x nd Hx) as (nd' & -> & -> & _).
Qed.

(** ** Linking one level *)

Lemma linked_insert ns ns' l tw dw new p :
  last (0%nat :: tw) = Some p -> linked ns l (tw ++ dw) -> NoDup (0%nat :: tw ++ dw) ->
  new ∉ 0%nat :: tw ++ dw ->
  Next ns' new l = head dw -> Next ns' p l = Some new ->
  (forall a, a <> p -> a <> new -> Next ns' a l = Next ns a l) ->
  linked ns' l (tw ++ new :: dw).
Proof.
  intros Hp Hlink Hnd Hnew Hn Hpn Hother j a Hj.
  rewrite app_comm_cons in Hnd, Hnew, Hj. rewrite last_lookup in Hp. simpl in Hp.
  assert (p ∈ 0%nat :: tw) as Hpin by (by eapply list_elem_of_lookup_2).
  assert (forall b, b ∈ dw -> b <> p) as Hdwp.
  { intros b Hb ->. apply NoDup_app in Hnd as (_ & Hnd & _). by apply (Hnd p). }
  assert (forall b, b ∈ (0%nat :: tw) ++ dw -> b <> new) as Hneq by (intros b Hb ->; done).
  apply lookup_app_Some in Hj as [Hj|[Hge Hj]].
  - assert ((0%nat :: tw ++ dw) !! j = Some a) as Hj' by (rewrite app_comm_cons; by apply lookup_app_l_Some).
    apply lookup_lt_Some in Hj as Hlt. simpl in Hlt.
    destruct (decide (j = length tw)) as [->|Hjne].
    + rewrite Hp in Hj. injection Hj as <-. rewrite Hpn, lookup_app_r, Nat.sub_diag by done. done.
    + rewrite Hother.
      * rewrite (Hlink _ _ Hj'), !lookup_app_l by lia. done.
      * intros ->. apply NoDup_app in Hnd as (Hnd & _).
        apply Hjne. by eapply (NoDup_lookup _ _ _ p).
      * apply Hneq. apply elem_of_app. left. by eapply list_elem_of_lookup_2.
  - simpl in Hge, Hj. destruct (j - S (length tw))%nat as [|t] eqn:Et.
    + simpl in Hj. injection Hj as <-. rewrite Hn.
      rewrite lookup_app_r by lia. replace (j - length tw)%nat with 1%nat by lia. simpl. apply head_lookup.
    + simpl in Hj. assert (a ∈ dw) as Ha by (by eapply list_elem_of_lookup_2).
      rewrite Hother; [|by apply Hdwp|apply Hneq, elem_of_app; by right].
      rewrite (Hlink (length tw + S t)%nat a).
      * rewrite !lookup_app_r by lia. replace (j - length tw)%nat with (S (S t)) by lia.
        simpl. f_equal. lia.
      * rewrite app_comm_cons, lookup_app_r by (simpl; lia). simpl.
        replace (length tw + S t - S (length tw))%nat with t by lia. done.
Qed.

(** [ids] with [new] spliced in where [key] belongs. *)
Definition splice (ns : list Node) (key : bytes) (new : nat) (ids : list nat) : list nat :=
  take_while (before ns key) ids ++ new :: drop_while (before ns key) ids.

Lemma elem_of_splice ns key new ids x : x ∈ splice ns key new ids <-> x = new \/ x ∈ ids.
Proof.
  unfold splice. rewrite (take_drop_while (before ns key) ids) at 3.
  rewrite !elem_of_app, elem_of_cons. tauto.
Qed.

Lemma sorted_splice ns ns' key new ids :
  StronglySorted (klt ns) ids ->
  (forall x, x ∈ ids -> key_of ns' x = key_of ns x) -> key_of ns' new = key ->
  (forall x, x ∈ ids -> compare (key_of ns x) key <> 0) ->
  StronglySorted (klt ns') (splice ns key new ids).
Proof.
  intros Hs. unfold splice, klt. induction Hs as [|x ids Hs IH Hx]; intros Hk Hn Hne; simpl.
  { constructor; constructor. }
  destruct (before ns key x) eqn:Hb; unfold before in Hb; [apply Z.ltb_lt in Hb|apply Z.ltb_ge in Hb].
  - simpl. constructor; [apply IH; set_solver|].
    apply Forall_forall. intros y Hy. apply elem_of_splice in Hy as [->|Hy].
    + rewrite Hn, Hk by set_solver. done.
    + rewrite !Hk by set_solver. by eapply (proj1 (Forall_forall _ _) Hx).
  - assert (compare key (key_of ns x) < 0) as Hgt.
    { rewrite cmp_antisym. specialize (Hne x ltac:(set_solver)). lia. }
    simpl. constructor.
    + constructor.
      * clear IH. assert (forall l, (forall z, z ∈ l -> z ∈ ids) -> StronglySorted (fun a b => compare (key_of ns a) (key_of ns b) < 0) l ->
          StronglySorted (fun a b => compare (key_of ns' a) (key_of ns' b) < 0) l) as Hext.
        { intros l Hsub. induction 1 as [|z l Hl IHl Hz]; constructor; [apply IHl; set_solver|].
          rewrite Forall_forall in *. intros y Hy. rewrite !Hk by set_solver. by apply Hz. }
        by apply Hext.
      * apply Forall_forall. intros y Hy. rewrite !Hk by set_solver.
        by eapply (proj1 (Forall_forall _ _) Hx).
    + apply Forall_forall. intros y Hy. rewrite Hn. apply elem_of_cons in Hy as [->|Hy].
      * by rewrite Hk by set_solver.
      * rewrite Hk by set_solver. eapply cmp_trans; [exact Hgt|].
        by eapply (proj1 (Forall_forall _ _) Hx).
Qed.

Lemma sorted_same ns ns' ids :
  same_nodes ns ns' -> (forall x, x ∈ ids -> exists nd, ns !! x = Some nd) ->
  StronglySorted (klt ns) ids -> StronglySorted (klt ns') ids.
Proof.
  intros Hs Hex. induction 1 as [|x ids Hl IH Hx]; constructor.
  - apply IH. intros y Hy. apply Hex. by apply elem_of_cons; right.
  - rewrite Forall_forall in *. intros y Hy. unfold klt.
    destruct (Hex x ltac:(left)) as [nx Hnx].
    destruct (Hex y ltac:(by right)) as [ny Hny].
    rewrite (same_nodes_key ns ns' x nx), (same_nodes_key ns ns' y ny) by done. by apply Hx.
Qed.

Lemma inv_exists ns mh ch l x :
  sl_inv ns mh ch -> (l < kMaxHeight)%nat -> x ∈ ch l -> exists nd, ns !! x = Some nd.
Proof. intros Hinv Hl Hx. destruct (inv_node _ _ _ Hinv l x Hl Hx) as (_ & nd & ? & _). by exists nd. Qed.

Lemma inv_head_or_node ns mh ch l x :
  sl_inv ns mh ch -> (l < kMaxHeight)%nat -> x ∈ 0%nat :: ch l ->
  exists nd, ns !! x = Some nd /\ (l < length (next_slots nd))%nat.
Proof.
  intros Hinv Hl Hx. apply elem_of_cons in Hx as [->|Hx].
  - destruct (inv_head _ _ _ Hinv) as (hd & ? & Hlen). exists hd. by rewrite Hlen.
  - by destruct (inv_node _ _ _ Hinv l x Hl Hx) as (_ & nd & ? & ?); exists nd.
Qed.

(** A store into slots that no level's chain passes through keeps everything. *)
Lemma sl_inv_same_chains ns ns' mh mh' ch :
  sl_inv ns mh ch -> same_nodes ns ns' -> (mh <= mh' <= kMaxHeight)%nat ->
  (forall l a, (l < kMaxHeight)%nat -> a ∈ 0%nat :: ch l -> Next ns' a l = Next ns a l) ->
  sl_inv ns' mh' ch.
Proof.
  intros Hinv Hs Hmh Hnext. pose proof (inv_mh _ _ _ Hinv). split.
  - destruct (inv_head _ _ _ Hinv) as (hd & Hhd & Hl). destruct (Hs _ _ Hhd) as (hd' & ? & _ & ?).
    exists hd'. split; [done|congruence].
  - lia.
  - intros l Hl i a Ha. rewrite Hnext; [by apply (inv_link _ _ _ Hinv)|done|by eapply list_elem_of_lookup_2].
  - intros l Hl. apply (inv_top _ _ _ Hinv). lia.
  - apply Hinv.
  - intros l x Hl Hx. destruct (inv_node _ _ _ Hinv l x Hl Hx) as (? & nd & Hnd & ?).
    split; [done|]. destruct (Hs _ _ Hnd) as (nd' & ? & _ & ?). exists nd'. split; [done|lia].
  - intros l Hl. eapply sorted_same; [done| |by apply (inv_sorted _ _ _ Hinv)].
    intros x Hx. by eapply inv_exists.
Qed.

Lemma pred_of_in ns key ids : pred_of ns key ids ∈ 0%nat :: ids.
Proof.
  unfold pred_of. destruct (last (take_while (before ns key) ids)) as [x|] eqn:E; simpl; [|left].
  right. rewrite (take_drop_while (before ns key) ids). apply elem_of_app. left.
  apply last_Some in E as [l' ->]. apply elem_of_app. right. left.
Qed.

Section Link.
Context (ns : list Node) (mh : nat) (ch : nat -> list nat) (new : nat) (nd : Node) (i : nat).
Context (prev : list (option nat)).
Hypothesis Hinv : sl_inv ns mh ch.
Hypothesis Hi : (i < mh)%nat.
Hypothesis Hnew : ns !! new = Some nd.
Hypothesis Hslot : (i < length (next_slots nd))%nat.
Hypothesis Hnew0 : new <> 0%nat.
Hypothesis Hnotin : new ∉ ch i.
Hypothesis Hbelow : forall j, i = S j -> new ∈ ch j.
Hypothesis Hdistinct : forall x, x ∈ ch i -> compare (key_of ns x) (nkey nd) <> 0.
Hypothesis Hprev : prev !! i = Some (Some (pred_of ns (nkey nd) (ch i))).

Let p := pred_of ns (nkey nd) (ch i).

Lemma p_ne_new : p <> new.
Proof.
  intros Heq. pose proof (pred_of_in ns (nkey nd) (ch i)) as Hin. fold p in Hin.
  rewrite Heq in Hin. apply elem_of_cons in Hin as [|]; done.
Qed.

(** Between the two stores a reader still sees the old chains. *)
Lemma fill_slot_inv : sl_inv (fill_slot new prev ns i) mh ch /\ same_nodes ns (fill_slot new prev ns i).
Proof.
  unfold fill_slot. rewrite Hprev. split; [|apply SetNext_same].
  pose proof (inv_mh _ _ _ Hinv). eapply sl_inv_same_chains; [done|apply SetNext_same|lia|].
  intros l a Hl Ha. apply Next_SetNext_ne. intros [= <- <-].
  apply elem_of_cons in Ha as [|]; done.
Qed.

Definition ch' (l : nat) : list nat :=
  if (l =? i)%nat then splice ns (nkey nd) new (ch i) else ch l.

Lemma link_level_same : same_nodes ns (link_level new prev ns i).
Proof.
  unfold link_level, publish, fill_slot. rewrite Hprev.
  eapply same_nodes_trans; apply SetNext_same.
Qed.

Lemma link_level_Next_i a : a <> p -> a <> new -> Next (link_level new prev ns i) a i = Next ns a i.
Proof.
  intros Hap Han. unfold link_level, publish, fill_slot. rewrite Hprev.
  rewrite !Next_SetNext_ne by (fold p; congruence). done.
Qed.

Lemma link_level_linked : linked (link_level new prev ns i) i (splice ns (nkey nd) new (ch i)).
Proof.
  pose proof p_ne_new as Hpn. pose proof (inv_mh _ _ _ Hinv).
  assert (i < kMaxHeight)%nat as Hik by lia.
  destruct (inv_head_or_node ns mh ch i p Hinv Hik (pred_of_in _ _ _)) as (np & Hnp & Hlp).
  destruct (SetNext_same ns new i (Next ns p i) p np Hnp) as (np' & Hnp' & _ & Hlp').
  assert (last (0%nat :: take_while (before ns (nkey nd)) (ch i)) = Some p) as Hlast
    by (unfold p, pred_of; by rewrite last_cons; destruct (last _)).
  pose proof (take_drop_while (before ns (nkey nd)) (ch i)) as Hsplit.
  unfold splice. remember (take_while (before ns (nkey nd)) (ch i)) as tw eqn:Etw.
  remember (drop_while (before ns (nkey nd)) (ch i)) as dw eqn:Edw.
  eapply (linked_insert ns _ i _ _ new p).
  - done.
  - rewrite <- Hsplit. by apply (inv_link _ _ _ Hinv).
  - rewrite <- Hsplit. constructor; [|by eapply ch_NoDup].
    intros H0. by destruct (inv_node _ _ _ Hinv i 0%nat Hik H0) as [? _].
  - rewrite <- Hsplit. intros [|]%elem_of_cons; done.
  - unfold link_level, publish, fill_slot. rewrite Hprev. fold p.
    rewrite Next_SetNext_ne by congruence. rewrite (Next_SetNext_eq _ _ _ _ nd) by done.
    rewrite (inv_link _ _ _ Hinv i Hik (length tw) p), Hsplit.
    + rewrite lookup_app_r, Nat.sub_diag by done. symmetry. apply head_lookup.
    + rewrite Hsplit, app_comm_cons, lookup_app_l by (simpl; lia). by rewrite last_lookup in Hlast.
  - unfold link_level, publish, fill_slot. rewrite Hprev. fold p.
    apply (Next_SetNext_eq _ _ _ _ np'); [done|]. by rewrite Hlp'.
  - apply link_level_Next_i.
Qed.

Lemma link_level_inv : sl_inv (link_level new prev ns i) mh ch'.
Proof.
  pose proof (inv_mh _ _ _ Hinv) as Hmh. pose proof link_level_same as Hs.
  split.
  - destruct (inv_head _ _ _ Hinv) as (hd & Hhd & Hl). destruct (Hs _ _ Hhd) as (hd' & ? & _ & ?).
    exists hd'. split; [done|congruence].
  - done.
  - intros l Hl. unfold ch'. destruct (Nat.eqb_spec l i) as [->|Hne]; [apply link_level_linked|].
    intros j a Ha. rewrite <- (inv_link _ _ _ Hinv l Hl j a Ha).
    unfold link_level, publish, fill_slot. rewrite Hprev. by rewrite !Next_SetNext_ne by congruence.
  - intros l Hl. unfold ch'. zcase. by apply (inv_top _ _ _ Hinv).
  - intros l x Hl. unfold ch'.
    destruct (Nat.eqb_spec (S l) i) as [He|]; destruct (Nat.eqb_spec l i) as [He'|]; try lia; intros Hx.
    + apply elem_of_splice in Hx as [->|Hx]; [by apply Hbelow|].
      rewrite <- He in Hx. by apply (inv_sub _ _ _ Hinv).
    + apply elem_of_splice. right. rewrite <- He'. by apply (inv_sub _ _ _ Hinv).
    + by apply (inv_sub _ _ _ Hinv).
  - intros l x Hl Hx.
    assert (x <> 0%nat /\ exists nd0, ns !! x = Some nd0 /\ (l < length (next_slots nd0))%nat) as (? & nd0 & Hx0 & ?).
    { unfold ch' in Hx. destruct (Nat.eqb_spec l i) as [->|]; [|by apply (inv_node _ _ _ Hinv)].
      apply elem_of_splice in Hx as [->|Hx]; [by eauto|]. by apply (inv_node _ _ _ Hinv). }
    split; [done|]. destruct (Hs _ _ Hx0) as (nd' & ? & _ & ?). exists nd'. split; [done|lia].
  - intros l Hl. unfold ch'. destruct (Nat.eqb_spec l i) as [->|].
    + apply (sorted_splice ns).
      * by apply (inv_sorted _ _ _ Hinv).
      * intros x Hx. destruct (inv_exists _ _ _ _ _ Hinv Hl Hx) as [nx ?]. by eapply same_nodes_key.
      * rewrite (same_nodes_key ns _ new nd) by done. unfold key_of. by rewrite Hnew.
      * done.
    + eapply sorted_same; [done| |by apply (inv_sorted _ _ _ Hinv)].
      intros x Hx. by eapply inv_exists.
Qed.

End Link.

(** ** Insertion *)

Lemma sl_inv_ext ns mh ch ch2 : (forall l, ch l = ch2 l) -> sl_inv ns mh ch -> sl_inv ns mh ch2.
Proof.
  intros He [H1 H2 H3 H4 H5 H6 H7]. split; try done; intros l; rewrite <- ?He; eauto.
Qed.

Lemma before_same ns ns' key ids :
  same_nodes ns ns' -> (forall x, x ∈ ids -> exists nd, ns !! x = Some nd) ->
  take_while (before ns' key) ids = take_while (before ns key) ids /\
  drop_while (before ns' key) ids = drop_while (before ns key) ids.
Proof.
  intros Hs Hex. apply take_while_ext. intros x Hx. unfold before.
  destruct (Hex x Hx) as [nd Hnd]. by rewrite (same_nodes_key ns ns' x nd).
Qed.

Lemma RandomHeight_range r : (1 <= (RandomHeight r).1 <= kMaxHeight)%nat.
Proof.
  unfold RandomHeight. assert (forall fuel h r, (1 <= h <= kMaxHeight)%nat ->
    (1 <= (RandomHeight_loop fuel h r).1 <= kMaxHeight)%nat) as H.
  { clear r. induction fuel as [|fuel IH]; intros h r Hh; [done|]. simpl. zcase; [|done].
    destruct (rnd r) as [x r']. case_match; [apply IH; lia|simpl; lia]. }
  apply H. unfold kMaxHeight. lia.
Qed.

Lemma keys_of_same ns ns' mh ch :
  sl_inv ns mh ch -> same_nodes ns ns' -> keys_of ns' ch = keys_of ns ch.
Proof.
  intros Hinv Hs. apply map_ext_in. intros x Hx%list_elem_of_In.
  destruct (inv_exists _ _ _ 0%nat x Hinv ltac:(unfold kMaxHeight; lia) Hx) as [nd Hnd].
  by eapply same_nodes_key.
Qed.

Section Insertion.
Context (ns : list Node) (mh : nat) (ch : nat -> list nat) (key : bytes) (h : nat).
Context (prev : list (option nat)).
Hypothesis Hinv : sl_inv ns mh ch.
Hypothesis Hh : (1 <= h <= mh)%nat.
Hypothesis Hdistinct : forall x, x ∈ ch 0%nat -> compare (key_of ns x) key <> 0.
Hypothesis Hprev : forall j, (j < h)%nat -> prev !! j = Some (Some (pred_of ns key (ch j))).

Let new := length ns.
Let node := mkNode key h (replicate h None).
Let ns1 := ns ++ [node].

Definition chk (k l : nat) : list nat := if (l <? k)%nat then splice ns key new (ch l) else ch l.

Definition linked_upto (k : nat) : list Node := fold_left (link_level new prev) (seq 0 k) ns1.

Lemma ch_lt l x : (l < kMaxHeight)%nat -> x ∈ 0%nat :: ch l -> (x < length ns)%nat.
Proof.
  intros Hl Hx. destruct (inv_head_or_node _ _ _ _ _ Hinv Hl Hx) as (nd & Hnd & _).
  by apply lookup_lt_Some in Hnd.
Qed.

Lemma ch_sub0 l x : (l < kMaxHeight)%nat -> x ∈ ch l -> x ∈ ch 0%nat.
Proof.
  induction l as [|l IH]; [done|]. intros Hl Hx. apply IH; [lia|]. by apply (inv_sub _ _ _ Hinv).
Qed.

Lemma ns1_inv : sl_inv ns1 mh ch.
Proof.
  pose proof (inv_mh _ _ _ Hinv). eapply sl_inv_same_chains; [done|apply same_nodes_app|lia|].
  intros l a Hl Ha. unfold Next, ns1. by rewrite lookup_app_l by (by eapply ch_lt).
Qed.

Lemma linked_upto_step k :
  (k < h)%nat -> sl_inv (linked_upto k) mh (chk k) -> same_nodes ns1 (linked_upto k) ->
  sl_inv (linked_upto (S k)) mh (chk (S k)) /\ same_nodes ns1 (linked_upto (S k)) /\
  sl_inv (fill_slot new prev (linked_upto k) k) mh (chk k) /\
  same_nodes (linked_upto k) (fill_slot new prev (linked_upto k) k).
Proof.
  intros Hk Hik Hsame. pose proof (inv_mh _ _ _ Hinv) as Hmh.
  assert (k < kMaxHeight)%nat as Hkm by lia.
  assert (same_nodes ns (linked_upto k)) as Hsk by (eapply same_nodes_trans; [apply same_nodes_app|done]).
  assert (exists nd, linked_upto k !! new = Some nd /\ nkey nd = key /\ length (next_slots nd) = h)
    as (nd & Hnd & Hkey & Hlen).
  { destruct (Hsame new node) as (nd & ? & ? & Hl).
    - unfold ns1, new. by rewrite lookup_app_r, Nat.sub_diag.
    - exists nd. split_and!; [done|done|]. rewrite Hl. unfold node. simpl. apply length_replicate. }
  assert (chk k k = ch k) as Hckk by (unfold chk; by zcase).
  assert (forall x, x ∈ ch k -> exists nd, ns !! x = Some nd) as Hex.
  { intros x Hx. by eapply inv_exists. }
  destruct (before_same ns (linked_upto k) key (ch k) Hsk Hex) as [Htw Hdw].
  assert (new <> 0%nat) as Hn0.
  { pose proof (ch_lt 0 0 ltac:(unfold kMaxHeight; lia) ltac:(left)). unfold new. lia. }
  assert (new ∉ chk k k) as Hnotin.
  { rewrite Hckk. intros Hin. pose proof (ch_lt k new Hkm ltac:(by right)). unfold new in *. lia. }
  assert (prev !! k = Some (Some (pred_of (linked_upto k) (nkey nd) (chk k k)))) as Hp.
  { rewrite Hprev by done. unfold pred_of. by rewrite Hckk, Hkey, Htw. }
  assert (linked_upto (S k) = link_level new prev (linked_upto k) k) as Hstep.
  { unfold linked_upto. by rewrite seq_S, fold_left_app. }
  rewrite Hstep. split_and!.
  - eapply sl_inv_ext; [|eapply (link_level_inv (linked_upto k) mh (chk k) new nd k prev); try done; try lia].
    + intros l. unfold ch'. destruct (Nat.eqb_spec l k) as [->|].
      * unfold chk at 2. zcase. unfold splice. by rewrite Hckk, Hkey, Htw, Hdw.
      * unfold chk. repeat zcase; done.
    + intros j ->. unfold chk. zcase. apply elem_of_splice. by left.
    + rewrite Hckk, Hkey. intros x Hx. destruct (Hex x Hx) as [nx Hnx].
      rewrite (same_nodes_key ns _ x nx) by done. apply Hdistinct. by eapply ch_sub0.
  - eapply same_nodes_trans; [done|]. by eapply (link_level_same (linked_upto k) (chk k) new nd k prev).
  - eapply (fill_slot_inv (linked_upto k) mh (chk k) new nd k prev); try done; lia.
  - eapply (fill_slot_inv (linked_upto k) mh (chk k) new nd k prev); try done; lia.
Qed.

Lemma linked_upto_inv k :
  (k <= h)%nat -> sl_inv (linked_upto k) mh (chk k) /\ same_nodes ns1 (linked_upto k).
Proof.
  induction k as [|k IH]; intros Hk.
  - split; [|intros x nd ?; eauto]. eapply sl_inv_ext; [|apply ns1_inv]. done.
  - destruct IH as [H1 H2]; [lia|]. by destruct (linked_upto_step k) as (? & ? & _).
Qed.

(** The keys a reader finds after [k] levels are linked. *)
Lemma linked_upto_keys k :
  (k <= h)%nat ->
  keys_of (linked_upto k) (chk k) =
    if (k =? 0)%nat then keys_of ns ch
    else take_while (fun x => compare x key <? 0) (keys_of ns ch) ++
         key :: drop_while (fun x => compare x key <? 0) (keys_of ns ch).
Proof.
  intros Hk. destruct (linked_upto_inv k Hk) as [_ Hs].
  assert (forall x, x ∈ ch 0%nat -> key_of (linked_upto k) x = key_of ns x) as Hkeys.
  { intros x Hx. destruct (inv_exists _ _ _ 0 x Hinv ltac:(unfold kMaxHeight; lia) Hx) as [nd Hnd].
    eapply same_nodes_key; [|done]. eapply same_nodes_trans; [apply same_nodes_app|done]. }
  assert (forall ids, (forall x, x ∈ ids -> x ∈ ch 0%nat) ->
    map (key_of (linked_upto k)) ids = map (key_of ns) ids) as Hmap.
  { intros ids Hsub. apply map_ext_in. intros x Hx. apply Hkeys, Hsub. by apply list_elem_of_In. }
  unfold keys_of, chk. destruct k as [|k]; simpl; [by apply Hmap|].
  unfold splice. rewrite map_app. cbn [map].
  assert (key_of (linked_upto (S k)) new = key) as ->.
  { rewrite (same_nodes_key ns1 _ new node); [|done|].
    - unfold key_of, ns1, new. by rewrite lookup_app_r, Nat.sub_diag.
    - unfold ns1, new. by rewrite lookup_app_r, Nat.sub_diag. }
  assert (forall ids, map (key_of ns) (take_while (before ns key) ids) =
    take_while (fun x => compare x key <? 0) (map (key_of ns) ids) /\
    map (key_of ns) (drop_while (before ns key) ids) =
    drop_while (fun x => compare x key <? 0) (map (key_of ns) ids)) as Hw.
  { induction ids as [|x ids [IH1 IH2]]; simpl; [done|]. unfold before at 1 3.
    destruct (compare (key_of ns x) key <? 0); simpl; [by rewrite IH1, IH2|done]. }
  destruct (Hw (ch 0%nat)) as [<- <-].
  pose proof (take_drop_while (before ns key) (ch 0%nat)) as Hsplit.
  f_equal; [|f_equal]; apply Hmap; intros x Hx; rewrite Hsplit; apply elem_of_app; auto.
Qed.

End Insertion.

Lemma raise_prev_spec cur h prev :
  length prev = kMaxHeight -> (h <= kMaxHeight)%nat ->
  length (raise_prev cur h prev) = kMaxHeight /\
  (forall j, (j < cur)%nat -> raise_prev cur h prev !! j = prev !! j) /\
  (forall j, (cur <= j < h)%nat -> raise_prev cur h prev !! j = Some (Some 0%nat)).
Proof.
  unfold raise_prev. intros Hl Hh. remember (h - cur)%nat as n eqn:En.
  revert cur prev Hl En. induction n as [|n IH]; intros cur prev Hl En; simpl.
  { split_and!; [done|done|intros; lia]. }
  destruct (IH (S cur) (<[cur := Some 0%nat]> prev)) as (H1 & H2 & H3); [by rewrite length_insert|lia|].
  split_and!; [done| |].
  - intros j Hj. rewrite H2 by lia. apply list_lookup_insert_ne. lia.
  - intros j Hj. destruct (decide (j = cur)) as [->|]; [|apply H3; lia].
    rewrite H2 by lia. apply list_lookup_insert_eq. lia.
Qed.

(** The splice points [Insert] works with, for every level of the new node. *)
Lemma Insert_prev ns mh ch key h :
  sl_inv ns mh ch -> (1 <= h <= kMaxHeight)%nat ->
  let prev0 := (FindGreaterOrEqual ns mh key no_prev).2 in
  let prev := if (mh <? h)%nat then raise_prev mh h prev0 else prev0 in
  let mh' := if (mh <? h)%nat then h else mh in
  sl_inv ns mh' ch /\ (1 <= h <= mh')%nat /\
  (forall j, (j < h)%nat -> prev !! j = Some (Some (pred_of ns key (ch j)))).
Proof.
  intros Hinv Hh. destruct (FindGreaterOrEqual_spec ns mh ch key Hinv) as (prev0 & -> & Hlen & Hp).
  simpl. pose proof (inv_mh _ _ _ Hinv) as Hmh. destruct (Nat.ltb_spec mh h) as [Hlt|Hge].
  - destruct (raise_prev_spec mh h prev0 Hlen ltac:(lia)) as (_ & Hlo & Hhi). split_and!; [|lia..|].
    + eapply sl_inv_same_chains; [done|intros x nd ?; eauto|lia|done].
    + intros j Hj. destruct (decide (j < mh)%nat); [rewrite Hlo by done; auto|].
      rewrite Hhi by lia. by rewrite (inv_top _ _ _ Hinv) by lia.
  - split_and!; [done|lia..|]. intros j Hj. apply Hp. lia.
Qed.

(** ** What readers see *)

(** A store and a height that hold the sorted keys [ks]. *)
Definition sl_view (st : list Node * nat) (ks : list bytes) : Prop :=
  exists ch, sl_inv st.1 st.2 ch /\ keys_of st.1 ch = ks.

Definition view (sl : SkipList) : list Node * nat := (nodes sl, max_height_ sl).

(** Where a key goes. *)
Definition insert_key (key : bytes) (ks : list bytes) : list bytes :=
  take_while (fun x => compare x key <? 0) ks ++ key :: drop_while (fun x => compare x key <? 0) ks.

(** Every state of the shared memory during [Insert], one per store. *)
Definition Insert_trace (key : bytes) (sl : SkipList) : list (list Node * nat) :=
  let '(_, prev) := FindGreaterOrEqual (nodes sl) (max_height_ sl) key no_prev in
  let '(h, r) := RandomHeight (rnd_ sl) in
  let cur_max := max_height_ sl in
  let prev := if (cur_max <? h)%nat then raise_prev cur_max h prev else prev in
  let mh := if (cur_max <? h)%nat then h else cur_max in
  let '(node, ns, a) := NewNode key h (nodes sl) (arena_ sl) in
  [(nodes sl, cur_max); (nodes sl, mh); (ns, mh)] ++
  flat_map (fun i =>
    let ns_i := fold_left (link_level node prev) (seq 0 i) ns in
    [(fill_slot node prev ns_i i, mh); (link_level node prev ns_i i, mh)]) (seq 0 h).

Lemma new_SkipList_view a seed : sl_view (view (new_SkipList a seed)) [].
Proof.
  unfold new_SkipList, NewNode. destruct (AllocateAligned _ a) as [? a'].
  exists (fun _ => []). split; [|done]. split; simpl; try set_solver.
  - unfold kMaxHeight. lia.
  - intros l Hl [|i] x; simpl; [|done]. intros [= <-]. unfold Next. simpl.
    do 12 (destruct l as [|l]; [done|]). done.
  - intros. constructor.
Qed.

Lemma distinct_ids ns ch ks key :
  keys_of ns ch = ks -> Forall (fun k => compare k key <> 0) ks ->
  forall x, x ∈ ch 0%nat -> compare (key_of ns x) key <> 0.
Proof.
  intros <- Hd x Hx. rewrite Forall_forall in Hd. apply Hd. unfold keys_of.
  apply list_elem_of_fmap. eauto.
Qed.

Lemma Insert_view key sl ks :
  sl_view (view sl) ks -> Forall (fun k => compare k key <> 0) ks ->
  sl_view (view (Insert key sl)) (insert_key key ks).
Proof.
  intros (ch & Hinv & Hks) Hd. pose proof (distinct_ids _ _ _ _ Hks Hd) as Hdist.
  pose proof (RandomHeight_range (rnd_ sl)) as Hr. simpl in Hinv, Hks, Hdist.
  destruct (Insert_prev _ _ _ key (RandomHeight (rnd_ sl)).1 Hinv Hr) as (Hinv' & Hh & Hp).
  unfold Insert, NewNode. destruct (FindGreaterOrEqual _ _ _ _) as [? prev].
  destruct (RandomHeight (rnd_ sl)) as [h r]. destruct (AllocateAligned _ _) as [? a].
  cbn [fst snd] in *. eexists. split; [by eapply linked_upto_inv|].
  cbn [view nodes fst]. etransitivity; [by eapply linked_upto_keys|]. zcase.
  unfold insert_key. by rewrite Hks.
Qed.

Lemma Insert_trace_view key sl ks st :
  sl_view (view sl) ks -> Forall (fun k => compare k key <> 0) ks ->
  st ∈ Insert_trace key sl -> sl_view st ks \/ sl_view st (insert_key key ks).
Proof.
  intros (ch & Hinv & Hks) Hd. pose proof (distinct_ids _ _ _ _ Hks Hd) as Hdist.
  pose proof (RandomHeight_range (rnd_ sl)) as Hr. simpl in Hinv, Hks, Hdist.
  destruct (Insert_prev _ _ _ key (RandomHeight (rnd_ sl)).1 Hinv Hr) as (Hinv' & Hh & Hp).
  unfold Insert_trace, NewNode. destruct (FindGreaterOrEqual _ _ _ _) as [? prev].
  destruct (RandomHeight (rnd_ sl)) as [h r]. destruct (AllocateAligned _ _) as [? a].
  cbn [fst snd] in *. set (mh := if (max_height_ sl <? h)%nat then h else max_height_ sl) in *.
  set (prev' := if (max_height_ sl <? h)%nat then raise_prev _ _ _ else _) in *.
  rewrite !elem_of_app, !elem_of_cons. intros [[->|[->|[->|[]%elem_of_nil]]]|Hst].
  - left. by exists ch.
  - left. by exists ch.
  - left. eexists. split; [by eapply (ns1_inv _ mh)|].
    pose proof (linked_upto_keys _ _ _ _ _ _ Hinv' Hh Hdist Hp 0%nat ltac:(lia)) as Hk. etransitivity; [exact Hk|done].
  - apply list_elem_of_In, in_flat_map in Hst as (i & Hi & Hst). apply in_seq in Hi.
    destruct (linked_upto_inv _ _ _ _ _ _ Hinv' Hh Hdist Hp i ltac:(lia)) as [Hii Hsi].
    destruct (linked_upto_step _ _ _ _ _ _ Hinv' Hh Hdist Hp i ltac:(lia) Hii Hsi) as (Hj & Hsj & Hf & Hsf).
    pose proof (linked_upto_keys _ _ _ _ _ _ Hinv' Hh Hdist Hp i ltac:(lia)) as Hki.
    pose proof (linked_upto_keys _ _ _ _ _ _ Hinv' Hh Hdist Hp (S i) ltac:(lia)) as Hkj.
    fold (linked_upto (nodes sl) key h prev' i) in Hst.
    destruct Hst as [<-|[<-|[]]].
    + rewrite Hks in Hki. destruct (i =? 0)%nat; [left|right];
        (eexists; split; [exact Hf|]; cbn [fst]; rewrite (keys_of_same _ _ _ _ Hii Hsf); exact Hki).
    + right. unfold linked_upto in *. rewrite seq_S, fold_left_app in Hj, Hkj. simpl in Hj, Hkj.
      eexists. split; [exact Hj|]. cbn [fst]. rewrite Hkj. unfold insert_key. by rewrite Hks.
Qed.

Lemma Insert_trace_last key sl : last (Insert_trace key sl) = Some (view (Insert key sl)).
Proof.
  unfold Insert_trace, Insert, view, NewNode. destruct (FindGreaterOrEqual _ _ _ _) as [? prev].
  pose proof (RandomHeight_range (rnd_ sl)) as Hr. destruct (RandomHeight (rnd_ sl)) as [h r].
  destruct (AllocateAligned _ _) as [? a]. simpl in Hr. cbn [nodes max_height_].
  destruct h as [|h]; [lia|]. rewrite !seq_S, flat_map_app, app_assoc, last_app.
  cbn [flat_map last app]. by rewrite fold_left_app.
Qed.

(** ** Iteration *)

(** The iterator [it] stands before the entries [suf] of a list that holds [ks]. *)
Definition iter_at (sl : SkipList) (ks : list bytes) (it : Iter) (suf : list bytes) : Prop :=
  exists ch pre ids, sl_inv (nodes sl) (max_height_ sl) ch /\ ch 0%nat = pre ++ ids /\
    keys_of (nodes sl) ch = ks /\ it = head ids /\ suf = map (key_of (nodes sl)) ids.

Lemma linked_after ns ids pre x post :
  linked ns 0 ids -> ids = pre ++ x :: post -> Next ns x 0 = head post.
Proof.
  intros Hl ->. rewrite (Hl (S (length pre)) x).
  - rewrite lookup_app_r by lia. replace (S (length pre) - length pre)%nat with 1%nat by lia.
    by destruct post.
  - simpl. by rewrite lookup_app_r, Nat.sub_diag.
Qed.

Lemma iter_at_read sl ks it suf :
  iter_at sl ks it suf ->
  it_Valid it = negb (bool_decide (suf = [])) /\
  (forall k suf', suf = k :: suf' -> it_key sl it = k /\ iter_at sl ks (it_Next sl it) suf').
Proof.
  intros (ch & pre & ids & Hinv & Hch & Hks & -> & ->). destruct ids as [|x ids]; [split; done|].
  split; [done|]. intros k suf' [= <- <-]. split; [done|].
  exists ch, (pre ++ [x]), ids. rewrite <- app_assoc. split_and!; try done.
  simpl. eapply linked_after; [|exact Hch]. apply (inv_link _ _ _ Hinv). unfold kMaxHeight. lia.
Qed.

Lemma map_drop_while ns key ids :
  map (key_of ns) (drop_while (before ns key) ids) =
  drop_while (fun x => compare x key <? 0) (map (key_of ns) ids).
Proof. induction ids as [|x ids IH]; simpl; [done|]. unfold before at 1. by case_match. Qed.

Lemma it_Seek_at sl ks target :
  sl_view (view sl) ks ->
  iter_at sl ks (it_Seek sl target) (drop_while (fun x => compare x target <? 0) ks).
Proof.
  intros (ch & Hinv & Hks). simpl in Hinv, Hks.
  destruct (FindGreaterOrEqual_spec _ _ _ target Hinv) as (prev & Heq & _).
  exists ch, (take_while (before (nodes sl) target) (ch 0%nat)),
    (drop_while (before (nodes sl) target) (ch 0%nat)).
  split_and!; [done|apply take_drop_while|done| |].
  - unfold it_Seek. by rewrite Heq.
  - by rewrite map_drop_while, <- Hks.
Qed.

Lemma it_SeekToFirst_at sl ks : sl_view (view sl) ks -> iter_at sl ks (it_SeekToFirst sl) ks.
Proof.
  intros (ch & Hinv & Hks). simpl in Hinv, Hks. exists ch, [], (ch 0%nat). split_and!; try done.
  unfold it_SeekToFirst. pose proof (inv_link _ _ _ Hinv 0%nat ltac:(unfold kMaxHeight; lia) 0%nat 0%nat eq_refl) as ->.
  by destruct (ch 0%nat).
Qed.

Lemma Contains_view sl ks key :
  sl_view (view sl) ks -> Contains key sl = existsb (fun k => compare k key =? 0) ks.
Proof.
  intros Hv. pose proof Hv as (ch & Hinv & Hks). simpl in Hinv, Hks.
  destruct (FindGreaterOrEqual_spec _ _ _ key Hinv) as (prev & Heq & _).
  unfold Contains. rewrite Heq. cbn [fst]. subst ks. unfold keys_of.
  pose proof (inv_sorted _ _ _ Hinv 0%nat ltac:(unfold kMaxHeight; lia)) as Hs.
  clear Heq Hinv Hv. induction Hs as [|x ids Hs IH Hx]; simpl; [done|].
  change (before (nodes sl) key x) with (compare (key_of (nodes sl) x) key <? 0).
  destruct (Z.ltb_spec (compare (key_of (nodes sl) x) key) 0); simpl; [rewrite IH|];
    destruct (Z.eqb_spec (compare (key_of (nodes sl) x) key) 0); simpl; try done; try lia. symmetry.
  apply not_true_iff_false. rewrite existsb_exists. intros (k & Hk & Hz).
  apply in_map_iff in Hk as (y & <- & Hy). rewrite Forall_forall in Hx.
  apply list_elem_of_In in Hy. apply Hx in Hy. unfold klt in Hy. apply Z.eqb_eq in Hz.
  pose proof (cmp_antisym (key_of (nodes sl) y) key).
  pose proof (cmp_antisym key (key_of (nodes sl) x)).
  assert (compare key (key_of (nodes sl) x) < 0) as Hkx by lia.
  pose proof (cmp_trans _ _ _ Hkx Hy). lia.
Qed.


(** On a list that holds [ks], [Seek] and [SeekToFirst] put the iterator
    before the keys not below the target (all keys), reading and stepping it
    enumerates exactly those in order, and [Contains] is membership. *)
Theorem skiplist_reads_sorted_keys sl ks target :
  sl_view (view sl) ks ->
  iter_at sl ks (it_SeekToFirst sl) ks /\
  iter_at sl ks (it_Seek sl target) (drop_while (fun x => compare x target <? 0) ks) /\
  (forall it suf, iter_at sl ks it suf ->
     it_Valid it = negb (bool_decide (suf = [])) /\
     (forall k suf', suf = k :: suf' -> it_key sl it = k /\ iter_at sl ks (it_Next sl it) suf')) /\
  Contains target sl = existsb (fun k => compare k target =? 0) ks.
Proof.
  intros Hv. split_and!; [by apply it_SeekToFirst_at|by apply it_Seek_at| |by apply Contains_view].
  intros it suf. apply iter_at_read.
Qed.

End SkipList.

#[export] Instance sv_Comparator : Comparator sv_compare.
Proof. split; [apply sv_compare_antisym|apply sv_compare_lt_trans]. Qed.

(** An engine that returns the words of a list, then ones. *)
Definition list_rnd (r : list Z) : Z * list Z := match r with [] => (1, []) | x :: r => (x, r) end.

Definition demo_list : SkipList (R := list Z) :=
  Insert sv_compare list_rnd [Byte.x62] (new_SkipList new_Arena [4; 0; 3; 8]).

Lemma demo_view : sl_view sv_compare (view demo_list) [[Byte.x62]].
Proof. apply (Insert_view sv_compare list_rnd _ _ []); [apply (new_SkipList_view sv_compare list_rnd)|constructor]. Qed.


Lemma skiplist_reads_sorted_keys_witness :
  Contains sv_compare [Byte.x62] demo_list = true.
Proof. rewrite (proj2 (proj2 (proj2 (skiplist_reads_sorted_keys sv_compare demo_list _ [Byte.x62] demo_view)))). reflexivity. Defined.
