(* ===== verification/Iterator.v ===== *)
(** * The iterator interface (include/lsm/iterator.h)

    [Iterator] is the class with its virtual functions; its operations may change
    a world shared with other objects (the block cache), which is threaded
    through them. [IteratorSpec] is what an implementation promises: [at_ it es
    suf] says that [it] is a cursor over the entries [es] and stands before the
    suffix [suf]. Merging, level and user-facing iterators are verified against
    it, and table and memtable iterators discharge it. *)

From S2P Require Import Prelude Coding InternalKey Versions.

Class Iterator (W I : Type) := {
  Valid : I -> bool;
  SeekToFirst : I -> W -> I * W;
  Seek : bytes -> I -> W -> I * W;
  Next : I -> W -> I * W;
  key : I -> bytes;
  value : I -> bytes;
  status : I -> Status
}.

Class IteratorSpec {W I : Type} (ops : Iterator W I) (Winv : W -> Prop)
    (at_ : I -> list entry -> list entry -> Prop) : Prop := {
  at_valid : forall it es suf, at_ it es suf -> Valid it = negb (bool_decide (suf = []));
  at_status : forall it es suf, at_ it es suf -> status it = Status.OK;
  at_entry : forall it es e suf, at_ it es (e :: suf) -> (key it, value it) = e;
  at_next : forall it es e suf w, at_ it es (e :: suf) -> Winv w ->
    at_ (Next it w).1 es suf /\ Winv (Next it w).2;
  at_seek : forall it es suf target w, at_ it es suf -> Winv w -> size target < 2 ^ 32 ->
    at_ (Seek target it w).1 es (seek es target) /\ Winv (Seek target it w).2;
  at_first : forall it es suf w, at_ it es suf -> Winv w ->
    at_ (SeekToFirst it w).1 es es /\ Winv (SeekToFirst it w).2
}.

(** What a cursor shows, wherever it stands. *)
Class Cursor {W I : Type} (ops : Iterator W I) (at_ : I -> list entry -> list entry -> Prop) : Prop := {
  cur_valid : forall it es suf, at_ it es suf -> Valid it = negb (bool_decide (suf = []));
  cur_entry : forall it es e suf, at_ it es (e :: suf) -> (key it, value it) = e
}.

Lemma spec_cursor {W I} (ops : Iterator W I) Winv at_ : IteratorSpec ops Winv at_ -> Cursor ops at_.
Proof. intros H. split; apply H. Qed.

(** What an implementation promises when reads may fail: a step ends where it
    should or breaks the cursor, which then has nothing more to show and reports
    an error for ever after. On a calm system nothing breaks. *)
Class IteratorFaults {W I : Type} (ops : Iterator W I) (calm : Prop) (Wok : W -> Prop)
    (at_ : I -> list entry -> list entry -> Prop) (broken : I -> Prop) : Prop := {
  fault_cursor :: Cursor ops at_;
  fault_first : forall it es suf w, at_ it es suf -> Wok w ->
    (at_ (SeekToFirst it w).1 es es \/ ~ calm /\ broken (SeekToFirst it w).1) /\ Wok (SeekToFirst it w).2;
  fault_next : forall it es e suf w, at_ it es (e :: suf) -> Wok w ->
    (at_ (Next it w).1 es suf \/ ~ calm /\ broken (Next it w).1) /\ Wok (Next it w).2;
  fault_status : forall it es suf, at_ it es suf -> Status.ok (status it) = true;
  broken_valid : forall it, broken it -> Valid it = false;
  broken_status : forall it, broken it -> Status.ok (status it) = false
}.

(** ** A client: draining an iterator

    The loop [for (; it->Valid(); it->Next())] of flush and compaction, handing
    each entry to [f]. The fuel is the number of entries left. *)

Section Drain.
Context {W I : Type} `{ops : Iterator W I}.

Fixpoint drain (fuel : nat) (it : I) (w : W) : list entry * I * W :=
  match fuel with
  | O => ([], it, w)
  | S fuel =>
      if Valid it then
        let e := (key it, value it) in
        let '(it, w) := Next it w in
        let '(es, it, w) := drain fuel it w in
        (e :: es, it, w)
      else ([], it, w)
  end.

Context (Winv : W -> Prop) (at_ : I -> list entry -> list entry -> Prop).
Context `{spec : !IteratorSpec ops Winv at_}.

(** Enough fuel enumerates exactly the entries ahead of the cursor. *)
Lemma drain_spec fuel it es suf w :
  at_ it es suf -> Winv w -> (length suf < fuel)%nat ->
  (drain fuel it w).1.1 = suf /\ at_ (drain fuel it w).1.2 es [] /\ Winv (drain fuel it w).2.
Proof.
  revert it suf w. induction fuel as [|fuel IH]; intros it suf w Hat Hw Hf; [lia|].
  simpl. rewrite (at_valid it es suf Hat). destruct suf as [|e suf]; simpl; [done|].
  rewrite (at_entry it es e suf Hat). destruct (at_next it es e suf w Hat Hw) as [Hat' Hw'].
  destruct (Next it w) as [it' w']. simpl in *.
  destruct (IH it' suf w' Hat' Hw' ltac:(lia)) as (H1 & H2 & H3).
  destruct (drain fuel it' w') as [[es' it''] w'']. simpl in *. by subst.
Qed.

End Drain.

(** ** The simplest implementation: a cursor over a list in memory *)

Record ListIter := mkListIter { all_ : list entry; rest_ : list entry }.

#[export] Instance ListIterator {W} : Iterator W ListIter := {|
  Valid := fun it => negb (bool_decide (rest_ it = []));
  SeekToFirst := fun it w => (mkListIter (all_ it) (all_ it), w);
  Seek := fun target it w => (mkListIter (all_ it) (seek (all_ it) target), w);
  Next := fun it w => (mkListIter (all_ it) (tail (rest_ it)), w);
  key := fun it => match rest_ it with e :: _ => e.1 | [] => [] end;
  value := fun it => match rest_ it with e :: _ => e.2 | [] => [] end;
  status := fun _ => Status.OK
|}.

Definition list_at (it : ListIter) (es suf : list entry) : Prop := all_ it = es /\ rest_ it = suf.

#[export] Instance ListIterator_spec {W} : IteratorSpec (ListIterator (W := W)) (fun _ => True) list_at.
Proof.
  split; simpl; unfold list_at.
  - intros it es suf [_ ->]. done.
  - done.
  - intros it es [k v] suf [_ ->]. done.
  - intros it es e suf w [? ->] _. done.
  - intros it es suf target w [-> _] _ _. done.
  - intros it es suf w [-> _] _. done.
Qed.
