(* ===== verification/MemTable.v ===== *)
(** * The memtable (include/lsm/memtable.h, src/memtable.cpp)

    A skip list of buffers, each a length-prefixed internal key followed by a
    length-prefixed value. The memtable is shown to hold a sorted list of
    entries, [Get] to answer with the newest visible version, and its iterator
    (behind the adapter of src/db.cpp) to meet the interface. *)

From S2P Require Import Prelude Coding InternalKey Versions Arena Skiplist Iterator.

Definition DecodeEntryKey (e : bytes) : bytes :=
  match GetLengthPrefixed e with Some (k, _) => k | None => [] end.

Definition DecodeEntryValue (e : bytes) : bytes :=
  let rest := match GetLengthPrefixed e with Some (_, rest) => rest | None => e end in
  match GetLengthPrefixed rest with Some (v, _) => v | None => [] end.

Definition EntryComparator (a b : bytes) : Z :=
  CompareInternalKey (DecodeEntryKey a) (DecodeEntryKey b).

#[export] Instance EntryComparator_ok : Comparator EntryComparator.
Proof.
  split; unfold EntryComparator; [intros; apply CompareInternalKey_antisym|].
  intros a b c. apply ik_lt_trans.
Qed.

Section MemTable.
Context {R : Type} (rnd : R -> Z * R).

Record MemTable := mkMemTable { table_ : SkipList (R := R) }.

(** The engine of the list is seeded by a constant. *)
Definition new_MemTable (seed : R) : MemTable := mkMemTable (new_SkipList new_Arena seed).

Definition encode_entry (internal_key value : bytes) : bytes :=
  PutLengthPrefixed (PutLengthPrefixed [] internal_key) value.

Definition Add (seq : Z) (type : ValueType) (key value : bytes) (m : MemTable) : MemTable :=
  let internal_key := make_LookupKeyBuffer key seq type in
  mkMemTable (Insert EntryComparator rnd (encode_entry (lookup_buffer_key internal_key) value) (table_ m)).

Definition ApproximateMemoryUsage (m : MemTable) : Z := MemoryUsage (arena_ (table_ m)).
Definition NumEntries (m : MemTable) : Z := size_ (table_ m).
Definition empty (m : MemTable) : bool := size_ (table_ m) =? 0.

(** [MemTable::Iterator]: a cursor of the skip list; [seek_buf_] is scratch. *)
Record MemIterator := mkMemIterator { mem_ : MemTable; iter_ : Iter }.

Definition new_MemIterator (m : MemTable) : MemIterator := mkMemIterator m None.
Definition mi_Valid (it : MemIterator) : bool := it_Valid (iter_ it).
Definition mi_SeekToFirst (it : MemIterator) : MemIterator :=
  mkMemIterator (mem_ it) (it_SeekToFirst (table_ (mem_ it))).
Definition mi_Next (it : MemIterator) : MemIterator :=
  mkMemIterator (mem_ it) (it_Next (table_ (mem_ it)) (iter_ it)).
Definition mi_Seek (target : bytes) (it : MemIterator) : MemIterator :=
  let seek_buf_ := PutFixed32 (PutLengthPrefixed [] target) 0 in
  mkMemIterator (mem_ it) (it_Seek EntryComparator (table_ (mem_ it)) seek_buf_).
Definition mi_internal_key (it : MemIterator) : bytes :=
  DecodeEntryKey (it_key (table_ (mem_ it)) (iter_ it)).
Definition mi_value (it : MemIterator) : bytes :=
  DecodeEntryValue (it_key (table_ (mem_ it)) (iter_ it)).

(** [false] is [None]; otherwise the status and the value, when one is written. *)
Definition Get (key : bytes) (seq : Z) (m : MemTable) : option (Status * option bytes) :=
  let lookup := make_LookupKeyBuffer key seq kValue in
  let iter := mi_Seek (lookup_buffer_key lookup) (new_MemIterator m) in
  if negb (mi_Valid iter) then None
  else
    let found := mi_internal_key iter in
    if negb (sv_eqb (ExtractUserKey found) key) then None
    else if ExtractValueType found =? type_code kDeletion then Some (Status.NotFound "", None)
    else Some (Status.OK, Some (mi_value iter)).

(** [MemTableIteratorAdapter]. *)
#[export] Instance MemTableIteratorAdapter {W} : Iterator W MemIterator := {|
  Valid := mi_Valid;
  SeekToFirst := fun it w => (mi_SeekToFirst it, w);
  Seek := fun target it w => (mi_Seek target it, w);
  Next := fun it w => (mi_Next it, w);
  key := mi_internal_key;
  value := mi_value;
  status := fun _ => Status.OK
|}.

(** ** What a memtable holds *)

Definition entry_fits (e : entry) : Prop := size e.1 < 2 ^ 32 /\ size e.2 < 2 ^ 32.

Abbreviation enc := (fun e : entry => encode_entry e.1 e.2).

(** The memtable [m] holds the sorted entries [es]. *)
Record mem_ok (m : MemTable) (es : list entry) : Prop := {
  mem_view : sl_view EntryComparator (view (table_ m)) (map enc es);
  mem_sorted : sorted es;
  mem_typed : entries_typed es;
  mem_fits : Forall entry_fits es;
  mem_size : NumEntries m = Z.of_nat (length es)
}.

Lemma encode_entry_eq k v : encode_entry k v = PutLengthPrefixed [] k ++ PutLengthPrefixed [] v.
Proof. unfold encode_entry. by rewrite !PutLengthPrefixed_eq, <- !app_assoc. Qed.

Lemma DecodeEntryKey_framed k rest : size k < 2 ^ 32 -> DecodeEntryKey (PutLengthPrefixed [] k ++ rest) = k.
Proof. intros Hk. unfold DecodeEntryKey. by rewrite GetLengthPrefixed_Put. Qed.

Lemma DecodeEntryKey_enc e : entry_fits e -> DecodeEntryKey (enc e) = e.1.
Proof. intros [Hk _]. rewrite encode_entry_eq. by apply DecodeEntryKey_framed. Qed.

Lemma DecodeEntryValue_enc e : entry_fits e -> DecodeEntryValue (enc e) = e.2.
Proof.
  intros [Hk Hv]. rewrite encode_entry_eq. unfold DecodeEntryValue.
  rewrite GetLengthPrefixed_Put by done.
  rewrite <- (app_nil_r (PutLengthPrefixed [] e.2)). by rewrite GetLengthPrefixed_Put.
Qed.

(** The list's order on buffers is the order of their keys. *)
Lemma while_enc es b target :
  Forall entry_fits es -> DecodeEntryKey b = target ->
  drop_while (fun x => EntryComparator x b <? 0) (map enc es) = map enc (seek es target) /\
  take_while (fun x => EntryComparator x b <? 0) (map enc es) =
    map enc (take_while (fun e => CompareInternalKey e.1 target <? 0) es).
Proof.
  intros Hf Hb. unfold seek. induction Hf as [|e es He Hf [IH1 IH2]]; simpl; [done|].
  unfold EntryComparator. rewrite DecodeEntryKey_enc, Hb by done.
  destruct (CompareInternalKey e.1 target <? 0); simpl; [|done].
  unfold EntryComparator in IH1, IH2. rewrite Hb in IH1, IH2. by rewrite IH1, IH2.
Qed.

Lemma new_MemTable_ok seed : mem_ok (new_MemTable seed) [].
Proof.
  split; [apply (new_SkipList_view EntryComparator rnd)|constructor..|].
  unfold NumEntries, new_MemTable, new_SkipList, NewNode. by destruct (AllocateAligned _ _).
Qed.

Lemma Add_ok m es seq type key value :
  mem_ok m es -> 0 <= seq <= kMaxSequenceNumber ->
  size key + 8 < 2 ^ 32 -> size value < 2 ^ 32 ->
  Forall (fun e => e.1 <> EncodeInternalKey key seq type) es ->
  mem_ok (Add seq type key value m) (insert_entry (EncodeInternalKey key seq type, value) es).
Proof.
  intros [Hv Hs Ht Hf Hn] Hseq Hk Hval Hd.
  set (e := (EncodeInternalKey key seq type, value)).
  assert (ikey_typed e.1) as Hte by (by apply Encode_typed).
  assert (entry_fits e) as Hfe.
  { split; [|done]. unfold e, EncodeInternalKey, PutFixed64. simpl. autorewrite with lsm. lia. }
  assert (Forall (fun x : entry => CompareInternalKey x.1 e.1 <> 0) es) as Hd'.
  { unfold entries_typed in Ht. rewrite Forall_forall in *. intros x Hx.
    rewrite CompareInternalKey_eq; [by apply Hd|apply Ht, Hx|apply Hte]. }
  assert (Forall (fun k => EntryComparator k (enc e) <> 0) (map enc es)) as Hdist.
  { apply Forall_map. rewrite Forall_forall in *. intros x Hx.
    cbn [compose]. unfold EntryComparator. rewrite (DecodeEntryKey_enc x), (DecodeEntryKey_enc e) by auto. auto. }
  pose proof (Insert_view EntryComparator rnd (enc e) _ _ Hv Hdist) as Hins.
  unfold Add. rewrite lookup_buffer_key_eq. split.
  - simpl. unfold insert_key in Hins. destruct (while_enc es (enc e) e.1 Hf) as [Hdw Htw];
      [by apply DecodeEntryKey_enc|]. rewrite Hdw, Htw in Hins.
    unfold insert_entry. by rewrite map_app.
  - by apply sorted_insert.
  - by apply Forall_insert_entry.
  - by apply Forall_insert_entry.
  - rewrite length_insert_entry. unfold NumEntries in *. simpl. unfold Insert, NewNode.
    destruct (FindGreaterOrEqual _ _ _ _), (RandomHeight _ _), (AllocateAligned _ _). simpl. lia.
Qed.

(** ** Iteration *)

Definition mem_at (it : MemIterator) (es suf : list entry) : Prop :=
  mem_ok (mem_ it) es /\ Forall entry_fits suf /\
  (iter_ it = None /\ suf = [] \/ iter_at EntryComparator (table_ (mem_ it)) (map enc es) (iter_ it) (map enc suf)).

Lemma mi_Seek_at target it es suf :
  mem_at it es suf -> size target < 2 ^ 32 -> mem_at (mi_Seek target it) es (seek es target).
Proof.
  intros (Hok & _ & _) Ht. split_and!; [done|by apply Forall_seek, (mem_fits _ _ Hok)|right].
  simpl. set (b := PutFixed32 _ 0). pose proof (it_Seek_at _ _ _ b (mem_view _ _ Hok)) as H.
  destruct (while_enc es b target (mem_fits _ _ Hok)) as [Hdw _]; [by apply DecodeEntryKey_framed|].
  by rewrite Hdw in H.
Qed.

#[export] Instance MemTableIterator_spec {W} : IteratorSpec (MemTableIteratorAdapter (W := W)) (fun _ => True) mem_at.
Proof.
  split.
  - intros it es suf (_ & _ & [[Hi ->]|Hat]); simpl; unfold mi_Valid; [by rewrite Hi|].
    rewrite (proj1 (iter_at_read _ _ _ _ _ Hat)). by destruct suf.
  - done.
  - intros it es e suf (_ & Hf & [[_ ?]|Hat]); [done|]. apply Forall_cons in Hf as [He _].
    destruct (proj2 (iter_at_read _ _ _ _ _ Hat) (enc e) (map enc suf) eq_refl) as [Hk _].
    simpl. unfold mi_internal_key, mi_value. rewrite Hk, DecodeEntryKey_enc, DecodeEntryValue_enc by done.
    by destruct e.
  - intros it es e suf w (Hok & Hf & [[_ ?]|Hat]); [done|]. intros _. split; [|done].
    apply Forall_cons in Hf as [_ Hf]. split_and!; [done|done|right].
    by apply (proj2 (iter_at_read _ _ _ _ _ Hat) (enc e) (map enc suf) eq_refl).
  - intros it es suf target w Hat _ Ht. split; [|done]. by eapply mi_Seek_at.
  - intros it es suf w (Hok & _ & _) _. split; [|done]. split_and!; [done|apply (mem_fits _ _ Hok)|right].
    apply it_SeekToFirst_at, (mem_view _ _ Hok).
Qed.

(** ** Reads and writes against the specification *)

Lemma Get_sorted m es key seq :
  mem_ok m es -> size key + 8 < 2 ^ 32 -> Get key seq m = reply (get_sorted es key seq).
Proof.
  intros Hok Hk. unfold Get. rewrite lookup_buffer_key_eq.
  assert (mem_at (new_MemIterator m) es []) as Hnew by (split_and!; [done|constructor|by left]).
  assert (size (EncodeInternalKey key seq kValue) < 2 ^ 32) as Hsz.
  { unfold EncodeInternalKey, PutFixed64. autorewrite with lsm. lia. }
  pose proof (mi_Seek_at _ _ _ _ Hnew Hsz) as Hat.
  pose proof (at_valid (ops := MemTableIteratorAdapter (W := unit)) _ _ _ Hat) as Hvalid. simpl in Hvalid. rewrite Hvalid.
  change (EncodeInternalKey key seq kValue) with (LookupKey key seq) in *.
  unfold get_sorted. destruct (seek es (LookupKey key seq)) as [|e suf]; [done|]. simpl.
  pose proof (at_entry (ops := MemTableIteratorAdapter (W := unit)) _ _ _ _ Hat) as He. simpl in He.
  apply (f_equal fst) in He as Hek. apply (f_equal snd) in He as Hev. simpl in Hek, Hev.
  rewrite Hek, Hev. unfold user_key, answer, is_deletion. simpl.
  destruct (sv_eqb (ExtractUserKey e.1) key); simpl; [|done]. by case_match.
Qed.

(** [Get] answers with the newest version of the key at or below the
    sequence: its value, [NotFound] for a tombstone, or nothing when the
    memtable holds no visible version. *)
Lemma memtable_Get_newest m es key seq :
  mem_ok m es -> size key + 8 < 2 ^ 32 -> 0 <= seq <= kMaxSequenceNumber ->
  Get key seq m = reply (read es key seq).
Proof.
  intros Hok Hk Hs. rewrite <- get_sorted_newest; [by apply Get_sorted|apply Hok|apply Hok|done].
Qed.

(** [Add] keeps the memtable sorted, typed and counted, and what it holds
    afterwards is what it held plus the new version. *)
Theorem memtable_Add_inserts m es seq type key value :
  mem_ok m es -> 0 <= seq <= kMaxSequenceNumber ->
  size key + 8 < 2 ^ 32 -> size value < 2 ^ 32 ->
  Forall (fun e => e.1 <> EncodeInternalKey key seq type) es ->
  exists es', mem_ok (Add seq type key value m) es' /\
    es' ≡ₚ (EncodeInternalKey key seq type, value) :: es.
Proof.
  intros. eexists. split; [by apply Add_ok|]. apply insert_entry_perm.
Qed.

End MemTable.

(** ** A memtable with two versions of a key *)

Definition demo_mem : MemTable (R := list Z) :=
  Add list_rnd 2 kDeletion [Byte.x6b] [] (Add list_rnd 1 kValue [Byte.x6b] [Byte.x76] (new_MemTable [8; 3])).

Definition demo_entries : list entry :=
  [(EncodeInternalKey [Byte.x6b] 2 kDeletion, []); (EncodeInternalKey [Byte.x6b] 1 kValue, [Byte.x76])].

Lemma demo_mem_ok : mem_ok demo_mem demo_entries.
Proof.
  change demo_entries with (insert_entry (EncodeInternalKey [Byte.x6b] 2 kDeletion, [])
    (insert_entry (EncodeInternalKey [Byte.x6b] 1 kValue, [Byte.x76]) [])).
  unfold kMaxSequenceNumber. apply Add_ok; [apply Add_ok|..]; try (vm_compute; intuition congruence).
  - apply (new_MemTable_ok list_rnd).
  - constructor.
  - constructor; [vm_compute; congruence|constructor].
Qed.

Lemma memtable_Get_newest_witness :
  Get [Byte.x6b] 1 demo_mem = Some (Status.OK, Some [Byte.x76]).
Proof.
  rewrite (memtable_Get_newest demo_mem demo_entries [Byte.x6b] 1 demo_mem_ok);
    [reflexivity|reflexivity|vm_compute; intuition congruence].
Defined.

Lemma memtable_Add_inserts_witness :
  exists es, mem_ok (Add list_rnd 3 kValue [Byte.x6b] [] demo_mem) es /\
    es ≡ₚ (EncodeInternalKey [Byte.x6b] 3 kValue, []) :: demo_entries.
Proof.
  apply (memtable_Add_inserts list_rnd demo_mem demo_entries 3 kValue [Byte.x6b] [] demo_mem_ok);
    [vm_compute; intuition congruence|reflexivity|reflexivity|].
  repeat (constructor; [vm_compute; congruence|]). constructor.
Defined.
