(* ===== verification/Bloom.v ===== *)
(** * The Bloom filter (include/lsm/bloom.h, src/bloom.cpp)

    One filter per table, over its user keys. The theorem that matters is the
    absence of false negatives: a key that was put in is never rejected. *)

From Stdlib Require Import SpecFloat.
From S2P Require Import Prelude Coding.

(** ** The hash *)

Definition murmur_m : Z := 0xc6a4a793.
Definition murmur_seed : Z := 0xbc9f1d34.

(** The mixing loop, four bytes at a time, and the [switch] on the tail. *)
Fixpoint BloomHash_loop (h : Z) (data : bytes) : Z :=
  match data with
  | a :: b :: c :: d :: data' =>
      let h := u32 (h + DecodeFixed32 [a; b; c; d]) in
      let h := u32 (h * murmur_m) in
      BloomHash_loop (Z.lxor h (Z.shiftr h 16)) data'
  | [] => h
  | a :: rest =>
      let h := match rest with [b; c] => u32 (h + Z.shiftl (byte.unsigned c) 16) | _ => h end in
      let h := match rest with b :: _ => u32 (h + Z.shiftl (byte.unsigned b) 8) | [] => h end in
      let h := u32 (h + byte.unsigned a) in
      let h := u32 (h * murmur_m) in
      Z.lxor h (Z.shiftr h 24)
  end.

Definition BloomHash (key : bytes) : Z :=
  BloomHash_loop (Z.lxor murmur_seed (u32 (u32 (size key) * murmur_m))) key.

(** ** The number of probes *)

(** The double nearest to 0.69314718056. *)
Definition ln2_literal : spec_float := S754_finite false 6243314768165852 (-53).

(** [static_cast<int>] of a double in range: truncation toward zero. *)
Definition trunc_int (f : spec_float) : Z :=
  match f with
  | S754_finite s m e =>
      let a := if 0 <=? e then Zpos m * 2 ^ e else Zpos m / 2 ^ (- e) in
      if s then - a else a
  | _ => 0
  end.

Definition BitsPerKeyToProbes (bits_per_key : Z) : Z :=
  let k := trunc_int (SFmul 53 1024 (binary_normalize 53 1024 bits_per_key 0 false) ln2_literal) in
  Z.max 1 (Z.min 30 k).

(** ** Building and testing *)

Definition set_bit (filter : bytes) (bitpos : Z) : bytes :=
  alter (fun b => byte.of_Z (Z.lor (byte.unsigned b) (Z.shiftl 1 (bitpos mod 8))))
    (Z.to_nat (bitpos / 8)) filter.

(** A read past the end is undefined behaviour; the positions tested are below
    [8 * bytes]. *)
Definition test_bit (filter : bytes) (bitpos : Z) : bool :=
  match filter !! Z.to_nat (bitpos / 8) with
  | Some b => negb (Z.land (byte.unsigned b) (Z.shiftl 1 (bitpos mod 8)) =? 0)
  | None => false
  end.

Definition rotate (h : Z) : Z := Z.lor (Z.shiftr h 17) (u32 (Z.shiftl h 15)).

Fixpoint add_probes (k : nat) (h delta bits : Z) (filter : bytes) : bytes :=
  match k with
  | O => filter
  | S k => add_probes k (u32 (h + delta)) delta bits (set_bit filter (h mod bits))
  end.

Definition add_key (k bits : Z) (filter : bytes) (key : bytes) : bytes :=
  let h := BloomHash key in
  add_probes (Z.to_nat k) h (rotate h) bits filter.

(** [static_cast<size_t>] of a negative [int] wraps; [bits] is then not what
    was asked for. *)
Definition Build (keys : list bytes) (bits_per_key : Z) : bytes :=
  let k := BitsPerKeyToProbes bits_per_key in
  let bits := u64 (Z.of_nat (length keys) * u64 bits_per_key) in
  let bits := Z.max bits 64 in
  let bytes := u64 (bits + 7) / 8 in
  let bits := bytes * 8 in
  let filter := replicate (Z.to_nat bytes) Byte.x00 in
  fold_left (add_key k bits) keys filter ++ [byte.of_Z k].

Fixpoint test_probes (k : nat) (h delta bits : Z) (data : bytes) : bool :=
  match k with
  | O => true
  | S k =>
      if negb (test_bit data (h mod bits)) then false
      else test_probes k (u32 (h + delta)) delta bits data
  end.

Definition MayContain (data_ : bytes) (key : bytes) : bool :=
  if size data_ <? 2 then true
  else
    let bytes := size data_ - 1 in
    let bits := bytes * 8 in
    let k := byte.unsigned (nth (Z.to_nat bytes) data_ Byte.x00) in
    if 30 <? k then true
    else
      let h := BloomHash key in
      test_probes (Z.to_nat k) h (rotate h) bits data_.

(** ** Lemmas *)

Lemma BitsPerKeyToProbes_range b : 1 <= BitsPerKeyToProbes b <= 30.
Proof. unfold BitsPerKeyToProbes. lia. Qed.

Lemma length_set_bit f p : length (set_bit f p) = length f.
Proof. apply length_alter. Qed.

Lemma land_bit x i : 0 <= i -> negb (Z.land x (Z.shiftl 1 i) =? 0) = Z.testbit x i.
Proof.
  intros Hi. rewrite Z.shiftl_1_l. destruct (Z.testbit x i) eqn:E.
  - destruct (Z.eqb_spec (Z.land x (2 ^ i)) 0) as [H|]; [|done].
    apply (f_equal (fun z => Z.testbit z i)) in H.
    by rewrite Z.land_spec, E, Z.pow2_bits_true, Z.bits_0 in H.
  - replace (Z.land x (2 ^ i)) with 0; [done|]. symmetry. apply Z.bits_inj'. intros n Hn.
    rewrite Z.land_spec, Z.bits_0. destruct (decide (n = i)) as [->|]; [by rewrite E|].
    rewrite Z.pow2_bits_false by done. apply andb_false_r.
Qed.

Lemma test_bit_spec f p :
  test_bit f p = match f !! Z.to_nat (p / 8) with
                 | Some b => Z.testbit (byte.unsigned b) (p mod 8) | None => false end.
Proof.
  unfold test_bit. case_match; [|done]. apply land_bit. apply Z.mod_pos_bound. lia.
Qed.

Lemma testbit_or_byte b i j :
  0 <= i < 8 -> 0 <= j < 8 ->
  Z.testbit (byte.unsigned (byte.of_Z (Z.lor (byte.unsigned b) (Z.shiftl 1 i)))) j =
  Z.testbit (byte.unsigned b) j || (i =? j).
Proof.
  intros Hi Hj. rewrite byte.unsigned_of_Z. unfold byte.wrap. rewrite Z.mod_pow2_bits_low by lia.
  rewrite Z.lor_spec, Z.shiftl_1_l, Z.pow2_bits_eqb by lia. done.
Qed.

Lemma test_set_mono f p q : test_bit f p = true -> test_bit (set_bit f q) p = true.
Proof.
  rewrite !test_bit_spec. unfold set_bit.
  pose proof (Z.mod_pos_bound p 8). pose proof (Z.mod_pos_bound q 8).
  destruct (decide (Z.to_nat (q / 8) = Z.to_nat (p / 8))) as [->|Hne].
  - rewrite list_lookup_alter_eq. destruct (f !! Z.to_nat (p / 8)); simpl; [|done].
    intros Ht. rewrite testbit_or_byte by lia. by rewrite Ht.
  - by rewrite list_lookup_alter_ne.
Qed.

Lemma test_set_same f p : 0 <= p < 8 * size f -> test_bit (set_bit f p) p = true.
Proof.
  intros Hp. rewrite test_bit_spec. unfold set_bit, size in *. rewrite list_lookup_alter_eq.
  pose proof (Z.mod_pos_bound p 8). assert (p / 8 < Z.of_nat (length f)) by (apply Z.div_lt_upper_bound; lia).
  destruct (lookup_lt_is_Some_2 f (Z.to_nat (p / 8))) as [b ->]; [pose proof (Z.div_pos p 8); lia|].
  simpl. rewrite testbit_or_byte by lia. rewrite Z.eqb_refl. apply orb_true_r.
Qed.

Lemma length_add_probes k h d bits f : length (add_probes k h d bits f) = length f.
Proof. revert h f. induction k as [|k IH]; intros h f; simpl; [done|]. rewrite IH. apply length_set_bit. Qed.

Lemma add_probes_mono k h d bits f p : test_bit f p = true -> test_bit (add_probes k h d bits f) p = true.
Proof. revert h f. induction k as [|k IH]; intros h f Hf; simpl; [done|]. by apply IH, test_set_mono. Qed.

(** What a filter answers for a probe sequence only grows with its bits. *)
Lemma test_probes_mono k h d bits f g :
  (forall p, test_bit f p = true -> test_bit g p = true) ->
  test_probes k h d bits f = true -> test_probes k h d bits g = true.
Proof.
  intros Hfg. revert h. induction k as [|k IH]; intros h; simpl; [done|].
  destruct (test_bit f (h mod bits)) eqn:E; simpl; [|done]. rewrite (Hfg _ E). apply IH.
Qed.

Lemma test_after_add k h d f :
  0 < size f -> test_probes k h d (size f * 8) (add_probes k h d (size f * 8) f) = true.
Proof.
  intros Hf. revert h f Hf. induction k as [|k IH]; intros h f Hf; [done|]. cbn [test_probes add_probes].
  pose proof (Z.mod_pos_bound h (size f * 8)). rewrite add_probes_mono.
  - simpl. pose proof (IH (u32 (h + d)) (set_bit f (h mod (size f * 8)))) as H1.
    unfold size in *. rewrite length_set_bit in H1. by apply H1.
  - apply test_set_same. lia.
Qed.

Lemma length_add_keys k bits keys f : length (fold_left (add_key k bits) keys f) = length f.
Proof.
  revert f. induction keys as [|x keys IH]; intros f; simpl; [done|].
  rewrite IH. apply length_add_probes.
Qed.

Lemma add_keys_mono k bits keys f p :
  test_bit f p = true -> test_bit (fold_left (add_key k bits) keys f) p = true.
Proof.
  revert f. induction keys as [|x keys IH]; intros f Hf; simpl; [done|].
  by apply IH, add_probes_mono.
Qed.

Lemma test_bit_app f g p : test_bit f p = true -> test_bit (f ++ g) p = true.
Proof.
  unfold test_bit. destruct (f !! Z.to_nat (p / 8)) eqn:E; [|done]. by rewrite (lookup_app_l_Some _ _ _ _ E).
Qed.

Lemma add_keys_test k keys f key :
  0 < size f -> key ∈ keys ->
  test_probes (Z.to_nat k) (BloomHash key) (rotate (BloomHash key)) (size f * 8)
    (fold_left (add_key k (size f * 8)) keys f) = true.
Proof.
  revert f. induction keys as [|x keys IH]; intros f Hf; [by intros ?%elem_of_nil|].
  intros [->|Hin]%elem_of_cons; simpl.
  - eapply test_probes_mono; [intros p; apply add_keys_mono|]. by apply test_after_add.
  - specialize (IH (add_key k (size f * 8) f x)). unfold size, add_key in *.
    rewrite length_add_probes in IH. by apply IH.
Qed.

Lemma MayContain_Build keys bits_per_key key :
  0 <= bits_per_key < 2 ^ 31 -> Z.of_nat (length keys) * bits_per_key < 2 ^ 64 - 8 ->
  key ∈ keys -> MayContain (Build keys bits_per_key) key = true.
Proof.
  intros Hb Hn Hin. unfold Build. rewrite (u64_id bits_per_key), (u64_id (_ * _)) by nia.
  rewrite u64_id by lia. set (bytes := (Z.max _ 64 + 7) / 8).
  assert (8 <= bytes) as Hbytes by (apply Z.div_le_lower_bound; lia).
  set (f := replicate (Z.to_nat bytes) Byte.x00).
  assert (size f = bytes) as Hf by (unfold f, size; rewrite length_replicate; lia).
  pose proof (BitsPerKeyToProbes_range bits_per_key) as Hk.
  set (k := BitsPerKeyToProbes bits_per_key) in *. rewrite <- Hf.
  set (g := fold_left _ _ _). assert (size g = size f) as Hg by (unfold g, size; by rewrite length_add_keys).
  unfold MayContain. rewrite size_app. change (size [byte.of_Z k]) with 1.
  replace (size g + 1 - 1) with (size f) by lia. zcase.
  rewrite app_nth2 by (unfold size in *; lia).
  replace (Z.to_nat (size f) - length g)%nat with 0%nat by (unfold size in *; lia). cbn [nth].
  rewrite byte.unsigned_of_Z. unfold byte.wrap. rewrite (Z.mod_small k) by lia. zcase.
  eapply test_probes_mono; [intros p; apply test_bit_app|]. apply add_keys_test; [lia|done].
Qed.

(** C23: The filter built over a table's keys has no false negatives: every key
    that was added may be contained. *)
Theorem bloom_no_false_negatives keys bits_per_key key :
  0 <= bits_per_key < 2 ^ 31 -> Z.of_nat (length keys) * bits_per_key < 2 ^ 64 - 8 ->
  key ∈ keys -> MayContain (Build keys bits_per_key) key = true.
Proof. apply MayContain_Build. Qed.

Lemma bloom_no_false_negatives_witness :
  MayContain (Build [[Byte.x61]; [Byte.x62; Byte.x63]; []] 10) [Byte.x62; Byte.x63] = true.
Proof.
  apply (bloom_no_false_negatives [[Byte.x61]; [Byte.x62; Byte.x63]; []] 10);
    [lia|vm_compute; reflexivity|set_solver].
Defined.

(** The probe count is the clamped integer part of [bits_per_key * ln 2]
    (constant to eleven digits), rounding errors of the double product
    included, for every setting below 1000. *)
Lemma BitsPerKeyToProbes_ln2 b :
  0 <= b < 1000 -> BitsPerKeyToProbes b = Z.max 1 (Z.min 30 (b * 69314718056 / 10 ^ 11)).
Proof.
  intros Hb. assert (forallb (fun n => BitsPerKeyToProbes (Z.of_nat n) =?
    Z.max 1 (Z.min 30 (Z.of_nat n * 69314718056 / 10 ^ 11))) (seq 0 1000) = true) as H by (by vm_compute).
  rewrite forallb_forall in H. specialize (H (Z.to_nat b)). rewrite in_seq, Z2Nat.id, Z.eqb_eq in H by lia.
  apply H. lia.
Qed.

(** A key that was not added is rejected when one of its bits is clear. *)
Example bloom_rejects : MayContain (Build [[Byte.x61]] 10) [Byte.x62] = false.
Proof. vm_compute. reflexivity. Qed.

(** Without keys the filter rejects everything. *)
Example bloom_empty_rejects : MayContain (Build [] 10) [Byte.x61] = false.
Proof. vm_compute. reflexivity. Qed.
