(* ===== verification/Cache.v ===== *)
(** * The block cache (include/lsm/cache.h, src/cache.cpp)

    A sharded LRU cache. A shard is a doubly linked list of entries, most
    recently used first, and a hash map from keys to positions in that list.
    List nodes have an identity (the address an iterator holds), so the model
    keeps the two structures and their aliasing apart: [index] maps a key to the
    identity of a node of [order]. Each operation on a shard is shown to refine
    an operation on a plain recency list. *)

From stdpp Require Import gmap.
From S2P Require Import Prelude.

Definition Key : Type := Z * Z.  (** file number, offset *)

Record Entry := mkEntry { ekey : Key; evalue : bytes; echarge : Z }.

Record Shard := mkShard {
  order : list (nat * Entry);
  index : gmap Key nat;
  charge : Z;
  capacity : Z;
  fresh : nat  (** the next node's address *)
}.

Record BlockCache := mkBlockCache {
  capacity_bytes_ : Z;
  shards_ : list Shard;
  hits_ : Z;
  misses_ : Z;
  evictions_ : Z
}.

Definition new_Shard (cap : Z) : Shard := mkShard [] ∅ 0 cap 0.

Definition new_BlockCache (capacity_bytes num_shards : Z) : BlockCache :=
  let n := Z.max 1 num_shards in
  mkBlockCache capacity_bytes (replicate (Z.to_nat n) (new_Shard (capacity_bytes / n))) 0 0 0.

Definition KeyHash (k : Key) : Z :=
  let h := u64 (k.1 * 0x9e3779b97f4a7c15) in
  Z.lxor h (u64 (k.2 + 0x9e3779b97f4a7c15 + u64 (Z.shiftl h 6) + Z.shiftr h 2)).

Definition ShardFor (c : BlockCache) (k : Key) : nat :=
  Z.to_nat (KeyHash k mod Z.of_nat (length (shards_ c))).

(** The node an iterator points at. *)
Definition node_at (id : nat) (l : list (nat * Entry)) : option Entry :=
  match list_find (fun x => x.1 = id) l with Some (_, (_, e)) => Some e | None => None end.

(** [order.splice(order.begin(), order, it)]. *)
Definition splice_front (id : nat) (l : list (nat * Entry)) : list (nat * Entry) :=
  match node_at id l with
  | Some e => (id, e) :: filter (fun x => x.1 <> id) l
  | None => l
  end.

Definition with_order (s : Shard) (o : list (nat * Entry)) : Shard :=
  mkShard o (index s) (charge s) (capacity s) (fresh s).

(** One shard's part of [Lookup]. *)
Definition shard_Lookup (k : Key) (s : Shard) : option bytes * Shard :=
  match index s !! k with
  | None => (None, s)
  | Some id => (evalue <$> node_at id (order s), with_order s (splice_front id (order s)))
  end.

(** The eviction loop; each turn drops the last node. Returns the number evicted. *)
Fixpoint evict_loop (fuel : nat) (s : Shard) : Shard * Z :=
  match fuel with
  | O => (s, 0)
  | S fuel =>
      if (capacity s <? charge s) && negb (bool_decide (order s = [])) then
        match last (order s) with
        | Some (id, victim) =>
            if bool_decide (fst <$> head (order s) = Some id) then (s, 0)  (** victim == begin() *)
            else
              let s := mkShard (removelast (order s)) (delete (ekey victim) (index s))
                         (u64 (charge s - echarge victim)) (capacity s) (fresh s) in
              let '(s, n) := evict_loop fuel s in (s, n + 1)
        | None => (s, 0)
        end
      else (s, 0)
  end.

Definition shard_Insert (k : Key) (block : bytes) (s : Shard) : option bytes * Shard * Z :=
  match index s !! k with
  | Some id => (evalue <$> node_at id (order s), with_order s (splice_front id (order s)), 0)
  | None =>
      let e := mkEntry k block (size block) in
      let s := mkShard ((fresh s, e) :: order s) (<[k := fresh s]> (index s))
                 (u64 (charge s + size block)) (capacity s) (S (fresh s)) in
      let '(s, n) := evict_loop (length (order s)) s in
      (Some block, s, n)
  end.

(** The loop of [EraseFile] over one shard's list. *)
Fixpoint erase_loop (file_number : Z) (todo done : list (nat * Entry)) (s : Shard) : Shard :=
  match todo with
  | [] => with_order s (rev done)
  | (id, e) :: todo =>
      if (ekey e).1 =? file_number then
        erase_loop file_number todo done
          (mkShard (order s) (delete (ekey e) (index s)) (u64 (charge s - echarge e)) (capacity s) (fresh s))
      else erase_loop file_number todo ((id, e) :: done) s
  end.

Definition shard_EraseFile (file_number : Z) (s : Shard) : Shard := erase_loop file_number (order s) [] s.

Definition Lookup (file_number offset : Z) (c : BlockCache) : option bytes * BlockCache :=
  let k := (file_number, offset) in
  let i := ShardFor c k in
  match shards_ c !! i with
  | None => (None, c)
  | Some s =>
      match shard_Lookup k s with
      | (None, _) => (None, mkBlockCache (capacity_bytes_ c) (shards_ c) (hits_ c) (misses_ c + 1) (evictions_ c))
      | (Some v, s) =>
          (Some v, mkBlockCache (capacity_bytes_ c) (<[i := s]> (shards_ c)) (hits_ c + 1) (misses_ c) (evictions_ c))
      end
  end.

Definition Insert (file_number offset : Z) (block : bytes) (c : BlockCache) : option bytes * BlockCache :=
  let k := (file_number, offset) in
  let i := ShardFor c k in
  match shards_ c !! i with
  | None => (None, c)
  | Some s =>
      let '(v, s, n) := shard_Insert k block s in
      (v, mkBlockCache (capacity_bytes_ c) (<[i := s]> (shards_ c)) (hits_ c) (misses_ c) (evictions_ c + n))
  end.

Definition EraseFile (file_number : Z) (c : BlockCache) : BlockCache :=
  mkBlockCache (capacity_bytes_ c) (map (shard_EraseFile file_number) (shards_ c))
    (hits_ c) (misses_ c) (evictions_ c).

Definition charge_bytes (c : BlockCache) : Z := fold_left (fun t s => u64 (t + charge s)) (shards_ c) 0.

(** ** The recency list a shard implements *)

Definition total (l : list Entry) : Z := foldr (fun e t => echarge e + t) 0 l.

Definition lru_find (k : Key) (l : list Entry) : option Entry := snd <$> list_find (fun e => ekey e = k) l.

Definition lru_touch (k : Key) (l : list Entry) : list Entry :=
  match lru_find k l with
  | Some e => e :: filter (fun e => ekey e <> k) l
  | None => l
  end.

(** The longest prefix that fits. *)
Fixpoint lru_fit (budget : Z) (l : list Entry) : list Entry :=
  match l with
  | [] => []
  | e :: l => if echarge e <=? budget then e :: lru_fit (budget - echarge e) l else []
  end.

(** The new entry stays even when it alone exceeds the budget. *)
Definition lru_insert (cap : Z) (k : Key) (block : bytes) (l : list Entry) : list Entry :=
  match lru_find k l with
  | Some _ => lru_touch k l
  | None => mkEntry k block (size block) :: lru_fit (cap - size block) l
  end.

Definition lru_erase (file_number : Z) (l : list Entry) : list Entry :=
  filter (fun e => (ekey e).1 <> file_number) l.

(** ** The invariant of a shard *)

Definition entries (s : Shard) : list Entry := map snd (order s).

Record shard_inv (s : Shard) : Prop := {
  sh_ids : NoDup (map fst (order s));
  sh_keys : NoDup (map ekey (entries s));
  sh_fresh : Forall (fun x => (x.1 < fresh s)%nat) (order s);
  sh_index : forall k id, index s !! k = Some id <-> exists e, (id, e) ∈ order s /\ ekey e = k;
  sh_charge : charge s = total (entries s);
  sh_sizes : Forall (fun e => echarge e = size (evalue e) /\ echarge e < 2 ^ 62) (entries s);
  sh_cap : 0 <= capacity s < 2 ^ 62;
  sh_fits : charge s <= capacity s \/ (length (order s) <= 1)%nat
}.

(** ** Lists *)

Lemma total_app a b : total (a ++ b) = total a + total b.
Proof. induction a as [|e a IH]; simpl; [done|]. rewrite IH. lia. Qed.

Lemma total_perm a b : a ≡ₚ b -> total a = total b.
Proof. intros H. induction H; simpl; lia. Qed.

Lemma node_at_Some id l e : NoDup (map fst l) -> node_at id l = Some e <-> (id, e) ∈ l.
Proof.
  intros Hnd. unfold node_at. split.
  - destruct (list_find _ l) as [[i [id' e']]|] eqn:E; [|done]. intros [= <-].
    apply list_find_Some in E as (Hi & <- & _). by apply list_elem_of_lookup_2 in Hi.
  - intros Hin. destruct (list_find _ l) as [[i [id' e']]|] eqn:E.
    + apply list_find_Some in E as (Hi & Hid & _). simpl in Hid. subst id'.
      apply list_elem_of_lookup in Hin as [a Ha]. assert (a = i) as ->; [|congruence].
      eapply (NoDup_lookup (map fst l)); [done| |]; rewrite list_lookup_fmap; [by rewrite Ha|by rewrite Hi].
    + apply list_find_None in E. rewrite Forall_forall in E. by apply E in Hin.
Qed.

Lemma lru_find_Some k l e : NoDup (map ekey l) -> lru_find k l = Some e <-> e ∈ l /\ ekey e = k.
Proof.
  intros Hnd. unfold lru_find. split.
  - destruct (list_find _ l) as [[i e']|] eqn:E; [|done]. intros [= <-].
    apply list_find_Some in E as (Hi & <- & _). by apply list_elem_of_lookup_2 in Hi.
  - intros [Hin Hk]. destruct (list_find _ l) as [[i e']|] eqn:E; simpl.
    + apply list_find_Some in E as (Hi & Hk' & _). f_equal. apply list_elem_of_lookup_2 in Hi.
      apply list_elem_of_lookup in Hin as [a Ha]. apply list_elem_of_lookup in Hi as [b Hb].
      assert (a = b) as ->; [|congruence].
      eapply (NoDup_lookup (map ekey l)); [done| |].
      * by rewrite list_lookup_fmap, Ha.
      * rewrite list_lookup_fmap, Hb. simpl. congruence.
    + apply list_find_None in E. rewrite Forall_forall in E. by apply E in Hin.
Qed.

Lemma lru_find_cons k x l :
  lru_find k (x :: l) = if decide (ekey x = k) then Some x else lru_find k l.
Proof. unfold lru_find. simpl. case_decide; [done|]. by destruct (list_find _ l) as [[]|]. Qed.

Lemma lru_find_None k l : lru_find k l = None <-> Forall (fun e => ekey e <> k) l.
Proof. unfold lru_find. rewrite fmap_None. apply list_find_None. Qed.

(** Moving a node to the front keeps the same nodes. *)
Lemma splice_front_perm id l e : NoDup (map fst l) -> (id, e) ∈ l -> splice_front id l ≡ₚ l.
Proof.
  intros Hnd Hin. unfold splice_front. rewrite (proj2 (node_at_Some id l e Hnd) Hin).
  induction l as [|[j x] l IH]; [by apply elem_of_nil in Hin|].
  simpl in Hnd. apply NoDup_cons in Hnd as [Hnot Hnd]. rewrite filter_cons. simpl.
  apply elem_of_cons in Hin as [[= <- <-]|Hin].
  - rewrite decide_False by (intros H; by apply H). f_equiv.
    rewrite filter_all; [done|]. apply Forall_forall. intros y Hy Heq. apply Hnot.
    rewrite <- Heq. by apply (list_elem_of_fmap_2 fst).
  - rewrite decide_True by (intros ->; apply Hnot; by apply (list_elem_of_fmap_2 fst) in Hin).
    rewrite Permutation_swap. f_equiv. by apply IH.
Qed.

Lemma splice_front_entries id l e :
  NoDup (map fst l) -> NoDup (map ekey (map snd l)) -> (id, e) ∈ l ->
  map snd (splice_front id l) = lru_touch (ekey e) (map snd l).
Proof.
  intros Hnd Hk Hin. unfold splice_front, lru_touch. rewrite (proj2 (node_at_Some id l e Hnd) Hin).
  assert (e ∈ map snd l) as He by (apply (list_elem_of_fmap_2 snd) in Hin; done).
  rewrite (proj2 (lru_find_Some (ekey e) (map snd l) e Hk)) by done. simpl. f_equal.
  assert (forall x, x ∈ l -> (x.1 <> id <-> ekey x.2 <> ekey e)) as Hiff.
  { intros [j x] Hx. simpl. split; intros Hne Heq; apply Hne.
    - assert (x = e) as -> by (eapply (NoDup_map_eq ekey); eauto; apply (list_elem_of_fmap_2 snd) in Hx; done).
      apply list_elem_of_lookup in Hx as [a Ha], Hin as [b Hb]. assert (a = b); [|congruence].
      eapply (NoDup_lookup (map ekey (map snd l))); [done| |]; rewrite !list_lookup_fmap.
      + by rewrite Ha.
      + by rewrite Hb.
    - subst j. by injection (NoDup_map_eq fst _ _ _ Hnd Hx Hin eq_refl) as ->. }
  clear -Hiff. induction l as [|x l IH]; [done|]. rewrite filter_cons. cbn [map]. rewrite filter_cons.
  assert (x.1 <> id <-> ekey x.2 <> ekey e) as Hx by (apply Hiff; left).
  specialize (IH ltac:(intros y Hy; apply Hiff; by right)).
  destruct (decide (x.1 <> id)), (decide (ekey x.2 <> ekey e)); simpl; try tauto; by rewrite IH.
Qed.

(** ** Eviction *)

Lemma lru_fit_all b l : Forall (fun e => 0 <= echarge e) l -> total l <= b -> lru_fit b l = l.
Proof.
  intros Hl. revert b. induction Hl as [|e l He Hl IH]; intros b Hb; simpl in *; [done|].
  assert (0 <= total l) by (clear -Hl; induction Hl; simpl; lia).
  zcase. by rewrite IH by lia.
Qed.

Lemma lru_fit_snoc b l v :
  Forall (fun e => 0 <= echarge e) l -> b < total (l ++ [v]) -> lru_fit b (l ++ [v]) = lru_fit b l.
Proof.
  intros Hl. revert b. induction Hl as [|e l He Hl IH]; intros b Hb; simpl in *.
  - by zcase.
  - zcase; [|done]. f_equal. apply IH. lia.
Qed.

Lemma lru_fit_prefix b l : exists rest, l = lru_fit b l ++ rest.
Proof.
  revert b. induction l as [|e l IH]; intros b; simpl; [by exists []|].
  zcase; [|by exists (e :: l)]. destruct (IH (b - echarge e)) as [rest Hr]. exists rest. simpl. congruence.
Qed.

Lemma total_nonneg l : Forall (fun e => 0 <= echarge e) l -> 0 <= total l.
Proof. induction 1; simpl; lia. Qed.

Lemma total_fit_le b l : Forall (fun e => 0 <= echarge e) l -> total (lru_fit b l) <= total l.
Proof.
  intros Hl. destruct (lru_fit_prefix b l) as [rest Hr]. rewrite Hr at 2. rewrite total_app.
  rewrite Hr in Hl. apply Forall_app in Hl as [_ Hl]. pose proof (total_nonneg _ Hl). lia.
Qed.

(** The shard while its charge may exceed the capacity. *)
Record shard_pre (s : Shard) : Prop := {
  pr_ids : NoDup (map fst (order s));
  pr_keys : NoDup (map ekey (entries s));
  pr_fresh : Forall (fun x => (x.1 < fresh s)%nat) (order s);
  pr_index : forall k id, index s !! k = Some id <-> exists e, (id, e) ∈ order s /\ ekey e = k;
  pr_charge : charge s = total (entries s) /\ charge s < 2 ^ 64;
  pr_sizes : Forall (fun e => echarge e = size (evalue e) /\ echarge e < 2 ^ 62) (entries s);
  pr_cap : 0 <= capacity s < 2 ^ 62
}.

Lemma sizes_nonneg l :
  Forall (fun e => echarge e = size (evalue e) /\ echarge e < 2 ^ 62) l -> Forall (fun e => 0 <= echarge e) l.
Proof.
  intros H. eapply Forall_impl; [exact H|]. intros e [-> _]. apply size_nonneg.
Qed.

Lemma shard_pre_drop_last o id v s :
  shard_pre s -> order s = o ++ [(id, v)] ->
  shard_pre (mkShard o (delete (ekey v) (index s)) (u64 (charge s - echarge v)) (capacity s) (fresh s)).
Proof.
  intros [Hid Hk Hf Hi [Hc Hc2] Hs Hcap] Ho. unfold entries in *. rewrite Ho in *.
  rewrite map_app in Hk, Hc, Hs. rewrite total_app in Hc. simpl in Hc.
  pose proof (sizes_nonneg _ Hs) as Hnn.
  apply Forall_app in Hs as [Hs Hsv]. apply Forall_app in Hnn as [Hnn Hnv].
  apply Forall_cons in Hnv as [Hnv _]. simpl in Hnv. pose proof (total_nonneg _ Hnn).
  split; cbn [order index charge capacity fresh]; unfold entries; cbn [order].
  - by eapply NoDup_map_prefix.
  - by eapply NoDup_map_prefix.
  - by apply Forall_app in Hf as [Hf _].
  - intros k j. rewrite lookup_delete_Some, Hi. split.
    + intros (Hne & e & He & Hke). exists e. split; [|done].
      apply elem_of_app in He as [He|He]; [done|]. apply list_elem_of_singleton in He. congruence.
    + intros (e & He & Hke). split.
      * intros Heq. rewrite map_app in Hk. apply NoDup_app in Hk as (_ & Hdis & _).
        apply (Hdis (ekey e)); [|rewrite Hke, <- Heq; by left].
        apply (list_elem_of_fmap_2 snd) in He. by apply (list_elem_of_fmap_2 ekey) in He.
      * exists e. split; [|done]. apply elem_of_app. by left.
  - rewrite u64_id by lia. lia.
  - done.
  - done.
Qed.

(** The loop leaves the longest prefix that fits, and at least the first node. *)
Lemma evict_loop_spec o : forall fuel s x,
  shard_pre s -> order s = x :: o -> (length o < fuel)%nat ->
  shard_inv (evict_loop fuel s).1 /\
  entries (evict_loop fuel s).1 = x.2 :: lru_fit (capacity s - echarge x.2) (map snd o) /\
  capacity (evict_loop fuel s).1 = capacity s.
Proof.
  induction o as [|[id v] o IH] using rev_ind; intros [|fuel] s x Hpre Ho Hf; try (simpl in Hf; lia).
  - assert (shard_inv s) as Hinv.
    { destruct Hpre as [? ? ? ? [? ?] ? ?]. split; try done. right. rewrite Ho. simpl. lia. }
    assert ((evict_loop (S fuel) s).1 = s) as ->.
    { simpl. rewrite Ho. destruct x as [i v]. simpl. rewrite bool_decide_true by done. by case_match. }
    unfold entries. by rewrite Ho.
  - assert (order s = (x :: o) ++ [(id, v)]) as Ho' by (by rewrite Ho).
    pose proof (pr_charge _ Hpre) as [Hc _]. pose proof (sizes_nonneg _ (pr_sizes _ Hpre)) as Hnn.
    unfold entries in Hc, Hnn. rewrite Ho' in Hc, Hnn. simpl in Hc, Hnn.
    apply Forall_cons in Hnn as [Hnx Hnn]. rewrite map_app in Hc, Hnn. cbn [map snd] in Hc, Hnn.
    cbn [evict_loop]. rewrite bool_decide_false by (by rewrite Ho'). rewrite andb_true_r.
    rewrite map_app. cbn [map snd]. destruct (Z.ltb_spec (capacity s) (charge s)) as [Hlt|Hge].
    + rewrite Ho', last_snoc.
      assert (x.1 <> id) as Hne.
      { pose proof (pr_ids _ Hpre) as Hnd. rewrite Ho in Hnd. simpl in Hnd. apply NoDup_cons in Hnd as [Hnd _].
        intros Heq. apply Hnd. rewrite Heq, map_app. apply elem_of_app. right. by left. }
      rewrite bool_decide_false by (simpl; congruence). rewrite removelast_last.
      pose proof (shard_pre_drop_last (x :: o) id v s Hpre Ho') as Hpre'.
      rewrite length_app in Hf. simpl in Hf.
      destruct (IH fuel _ x Hpre' eq_refl ltac:(lia)) as (H1 & H2 & H3).
      destruct (evict_loop fuel _) as [s' n]. simpl in *. split_and!; [done| |done].
      rewrite H2. f_equal. symmetry. apply Forall_app in Hnn as [Hnn _]. apply lru_fit_snoc; [done|lia].
    + simpl. split_and!; [| |done].
      * destruct Hpre as [? ? ? ? [? ?] ? ?]. split; try done. by left.
      * unfold entries. rewrite Ho. simpl. rewrite map_app. f_equal. symmetry. apply lru_fit_all; [done|].
        cbn [map snd]. lia.
Qed.

(** ** A shard refines its recency list *)

Lemma index_entry s k id :
  shard_inv s -> index s !! k = Some id ->
  exists e, (id, e) ∈ order s /\ ekey e = k /\ node_at id (order s) = Some e /\ lru_find k (entries s) = Some e.
Proof.
  intros Hinv Hi. apply (sh_index _ Hinv) in Hi as (e & He & Hk). exists e. split_and!; [done|done| |].
  - by apply node_at_Some; [apply Hinv|].
  - apply lru_find_Some; [apply Hinv|]. split; [|done]. by apply (list_elem_of_fmap_2 snd) in He.
Qed.

Lemma index_none s k : shard_inv s -> index s !! k = None -> lru_find k (entries s) = None.
Proof.
  intros Hinv Hi. apply lru_find_None, Forall_forall. intros e He Hk.
  apply list_elem_of_fmap in He as ([id e'] & -> & He). simpl in Hk.
  assert (index s !! k = Some id) as H by (apply (sh_index _ Hinv); eauto). congruence.
Qed.

Lemma shard_inv_splice s k id :
  shard_inv s -> index s !! k = Some id ->
  shard_inv (with_order s (splice_front id (order s))) /\
  entries (with_order s (splice_front id (order s))) = lru_touch k (entries s).
Proof.
  intros Hinv Hi. destruct (index_entry s k id Hinv Hi) as (e & He & Hk & _).
  pose proof (splice_front_perm id (order s) e (sh_ids _ Hinv) He) as Hp.
  assert (entries (with_order s (splice_front id (order s))) ≡ₚ entries s) as Hpe.
  { unfold entries. simpl. by rewrite Hp. }
  split; [|unfold entries; simpl; rewrite <- Hk; by apply splice_front_entries; [apply Hinv|apply Hinv|]].
  destruct Hinv as [H1 H2 H3 H4 H5 H6 H7 H8].
  split; simpl; try done; rewrite ?Hpe, ?Hp; try done.
  - intros k' id'. rewrite H4. by setoid_rewrite Hp.
  - rewrite H5. symmetry. by apply total_perm.
Qed.

Lemma shard_Lookup_refines k s :
  shard_inv s ->
  shard_inv (shard_Lookup k s).2 /\
  (shard_Lookup k s).1 = evalue <$> lru_find k (entries s) /\
  entries (shard_Lookup k s).2 = lru_touch k (entries s).
Proof.
  intros Hinv. unfold shard_Lookup. destruct (index s !! k) as [id|] eqn:Hi; simpl.
  - destruct (shard_inv_splice s k id Hinv Hi) as [H1 H2].
    destruct (index_entry s k id Hinv Hi) as (e & _ & _ & -> & ->). done.
  - pose proof (index_none s k Hinv Hi) as Hn. unfold lru_touch. by rewrite Hn.
Qed.

Lemma shard_pre_push k block s :
  shard_inv s -> index s !! k = None -> size block < 2 ^ 62 ->
  shard_pre (mkShard ((fresh s, mkEntry k block (size block)) :: order s) (<[k := fresh s]> (index s))
              (u64 (charge s + size block)) (capacity s) (S (fresh s))).
Proof.
  intros Hinv Hi Hb. pose proof (index_none s k Hinv Hi) as Hn.
  rewrite lru_find_None, Forall_forall in Hn.
  destruct Hinv as [H1 H2 H3 H4 H5 H6 H7 H8]. pose proof (size_nonneg block).
  assert (0 <= charge s < 2 ^ 62 + 2 ^ 62) as Hc.
  { pose proof (total_nonneg _ (sizes_nonneg _ H6)). split; [lia|]. destruct H8 as [?|Hl]; [lia|].
    rewrite H5. unfold entries in *. destruct (order s) as [|x [|? ?]]; simpl in *; [lia| |lia].
    apply Forall_cons in H6 as [[_ ?] _]. lia. }
  rewrite u64_id by lia. rewrite Forall_forall in H3.
  split; unfold entries; cbn [order index charge capacity fresh map]; try done.
  - apply NoDup_cons. split; [|done]. intros (x & Heq & Hx)%list_elem_of_fmap.
    apply H3 in Hx. rewrite <- Heq in Hx. simpl in Hx. lia.
  - apply NoDup_cons. split; [|done]. intros (x & Heq & Hx)%list_elem_of_fmap. by apply Hn in Hx.
  - constructor; [simpl; lia|]. apply Forall_forall. intros x Hx. apply H3 in Hx. lia.
  - intros k' id. rewrite lookup_insert_Some. setoid_rewrite elem_of_cons. rewrite H4. split.
    + intros [[<- <-]|(Hne & e & He & Hk)]; eauto.
    + intros (e & [[= -> ->]|He] & Hk); [by left|]. right. split; [|eauto].
      intros ->. apply (Hn e); [|done]. apply (list_elem_of_fmap_2 snd) in He. done.
  - simpl. unfold entries in H5. lia.
  - constructor; [done|apply H6].
Qed.

Lemma shard_Insert_refines k block s :
  shard_inv s -> size block < 2 ^ 62 ->
  shard_inv (shard_Insert k block s).1.2 /\
  (shard_Insert k block s).1.1 = Some (default block (evalue <$> lru_find k (entries s))) /\
  entries (shard_Insert k block s).1.2 = lru_insert (capacity s) k block (entries s) /\
  capacity (shard_Insert k block s).1.2 = capacity s.
Proof.
  intros Hinv Hb. unfold shard_Insert, lru_insert. destruct (index s !! k) as [id|] eqn:Hi; cbn [fst snd order length].
  - destruct (shard_inv_splice s k id Hinv Hi) as [H1 H2].
    destruct (index_entry s k id Hinv Hi) as (e & _ & _ & -> & ->). done.
  - rewrite (index_none s k Hinv Hi).
    destruct (evict_loop_spec (order s) (S (length (order s))) _ (fresh s, mkEntry k block (size block))
      (shard_pre_push k block s Hinv Hi Hb) eq_refl ltac:(lia)) as (H1 & H2 & H3).
    destruct (evict_loop _ _) as [s' n]. done.
Qed.

(** ** Erasing a file *)

Lemma shard_inv_remove s a id e b :
  shard_inv (with_order s (a ++ (id, e) :: b)) ->
  shard_inv (mkShard (a ++ b) (delete (ekey e) (index s)) (u64 (charge s - echarge e)) (capacity s) (fresh s)).
Proof.
  intros [H1 H2 H3 H4 H5 H6 H7 H8]. unfold entries in *.
  cbn [order index charge capacity fresh with_order] in *.
  assert (a ++ (id, e) :: b ≡ₚ (id, e) :: a ++ b) as Hp by (by rewrite Permutation_middle).
  rewrite Hp in H1, H2, H3, H6, H8. cbn [map] in H1, H2, H6.
  assert (map snd (a ++ (id, e) :: b) ≡ₚ e :: map snd (a ++ b)) as Hpe by (by rewrite Hp).
  rewrite (total_perm _ _ Hpe) in H5. simpl in H5.
  apply NoDup_cons in H1 as [_ H1], H2 as [Hnk H2]. apply Forall_cons in H3 as [_ H3], H6 as [[He1 He2] H6].
  pose proof (total_nonneg _ (sizes_nonneg _ H6)). pose proof (size_nonneg (evalue e)). simpl in He1, He2.
  assert (charge s < 2 ^ 64).
  { destruct H8 as [?|Hl]; [lia|]. cbn [length] in Hl. destruct (a ++ b); [simpl in H5; lia|simpl in Hl; lia]. }
  split; unfold entries; cbn [order index charge capacity fresh]; rewrite ?u64_id by lia; try done.
  - intros k j. rewrite lookup_delete_Some, H4. setoid_rewrite Hp. setoid_rewrite elem_of_cons. split.
    + intros (Hne & x & [[= -> ->]|Hx] & Hk); [done|eauto].
    + intros (x & Hx & Hk). split; [|eauto]. intros Heq. apply Hnk. simpl. rewrite Heq, <- Hk.
      apply (list_elem_of_fmap_2 ekey). apply (list_elem_of_fmap_2 snd) in Hx. done.
  - lia.
  - destruct H8 as [?|Hl]; [left; lia|right]. cbn [length] in Hl. lia.
Qed.

Lemma erase_loop_spec file todo : forall dn s,
  shard_inv (with_order s (rev dn ++ todo)) ->
  shard_inv (erase_loop file todo dn s) /\
  entries (erase_loop file todo dn s) = map snd (rev dn) ++ lru_erase file (map snd todo).
Proof.
  induction todo as [|[id e] todo IH]; intros dn s Hinv; cbn [erase_loop].
  - rewrite app_nil_r in Hinv. split; [done|]. simpl. by rewrite app_nil_r.
  - unfold lru_erase. cbn [map snd]. rewrite filter_cons.
    destruct (Z.eqb_spec (ekey e).1 file) as [Hf|Hf]; [rewrite decide_False by tauto|rewrite decide_True by tauto].
    + apply IH. by apply shard_inv_remove in Hinv.
    + destruct (IH ((id, e) :: dn) s) as (G1 & G2); [simpl; by rewrite <- app_assoc|].
      split; [done|]. rewrite G2. simpl. rewrite map_app, <- app_assoc. done.
Qed.

Lemma shard_EraseFile_refines file s :
  shard_inv s -> shard_inv (shard_EraseFile file s) /\
  entries (shard_EraseFile file s) = lru_erase file (entries s).
Proof.
  intros Hinv. destruct (erase_loop_spec file (order s) [] s) as (H1 & H2); [by destruct s|done].
Qed.

(** ** The cache *)

Definition cache_inv (c : BlockCache) : Prop := shards_ c <> [] /\ Forall shard_inv (shards_ c).

(** What the cache holds for a key. *)
Definition cached (c : BlockCache) (k : Key) : option bytes :=
  match shards_ c !! ShardFor c k with
  | Some s => evalue <$> lru_find k (entries s)
  | None => None
  end.

Lemma new_BlockCache_inv capacity_bytes num_shards :
  0 <= capacity_bytes < 2 ^ 62 -> cache_inv (new_BlockCache capacity_bytes num_shards).
Proof.
  intros Hc. unfold new_BlockCache, cache_inv. simpl. split.
  - intros H. apply (f_equal length) in H. rewrite length_replicate in H. simpl in H. lia.
  - apply Forall_replicate. split; simpl; try (by constructor); try done.
    + intros k id. rewrite lookup_empty. split; [done|]. intros (e & He & _). by apply elem_of_nil in He.
    + split; [apply Z.div_pos; lia|]. apply Z.div_lt_upper_bound; [lia|]. nia.
    + left. apply Z.div_pos; lia.
Qed.

Lemma ShardFor_lt c k : cache_inv c -> (ShardFor c k < length (shards_ c))%nat.
Proof.
  intros [Hne _]. unfold ShardFor. destruct (shards_ c) as [|s l]; [done|]. cbn [length].
  pose proof (Z.mod_pos_bound (KeyHash k) (Z.of_nat (S (length l)))). lia.
Qed.

Lemma shard_of c k : cache_inv c -> exists s, shards_ c !! ShardFor c k = Some s /\ shard_inv s.
Proof.
  intros Hinv. destruct (lookup_lt_is_Some_2 _ _ (ShardFor_lt c k Hinv)) as [s Hs]. exists s. split; [done|].
  destruct Hinv as [_ Hf]. by eapply Forall_lookup_1.
Qed.

Lemma cached_touch k k' l :
  NoDup (map ekey l) -> evalue <$> lru_find k' (lru_touch k l) = evalue <$> lru_find k' l.
Proof.
  intros Hnd. unfold lru_touch. destruct (lru_find k l) as [e|] eqn:E; [|done]. f_equal.
  pose proof E as [Hin Hk]%lru_find_Some; [|done].
  destruct (decide (k' = k)) as [->|Hne].
  - by rewrite E, lru_find_cons, decide_True.
  - rewrite lru_find_cons, decide_False by congruence.
    clear -Hne. induction l as [|x l IH]; [done|]. rewrite filter_cons, (lru_find_cons k' x l).
    destruct (decide (ekey x <> k)) as [|Hx%dec_stable]; [rewrite lru_find_cons; by case_decide|].
    by rewrite decide_False by congruence.
Qed.

(** Replacing a key's shard changes nothing for keys of other shards. *)
Lemma cached_update c s k k' hits misses evictions :
  cache_inv c ->
  cached (mkBlockCache (capacity_bytes_ c) (<[ShardFor c k := s]> (shards_ c)) hits misses evictions) k' =
  if decide (ShardFor c k' = ShardFor c k) then evalue <$> lru_find k' (entries s) else cached c k'.
Proof.
  intros Hinv. unfold cached, ShardFor at 1. simpl. rewrite length_insert. fold (ShardFor c k').
  case_decide as Heq.
  - rewrite Heq. rewrite list_lookup_insert_eq by (by apply ShardFor_lt). done.
  - by rewrite list_lookup_insert_ne by congruence.
Qed.

Lemma cache_inv_update c s k hits misses evictions :
  cache_inv c -> shard_inv s ->
  cache_inv (mkBlockCache (capacity_bytes_ c) (<[ShardFor c k := s]> (shards_ c)) hits misses evictions).
Proof.
  intros [Hne Hf] Hs. split; simpl.
  - intros H. apply (f_equal length) in H. rewrite length_insert in H. by destruct (shards_ c).
  - by apply Forall_insert.
Qed.

Lemma Lookup_spec file offset c :
  cache_inv c ->
  (Lookup file offset c).1 = cached c (file, offset) /\
  cache_inv (Lookup file offset c).2 /\
  (forall k, cached (Lookup file offset c).2 k = cached c k).
Proof.
  intros Hinv. unfold Lookup. destruct (shard_of c (file, offset) Hinv) as (s & Hs & Hsi).
  unfold cached at 1. rewrite Hs.
  destruct (shard_Lookup_refines (file, offset) s Hsi) as (H1 & H2 & H3).
  destruct (shard_Lookup (file, offset) s) as [r s']. simpl in H1, H2, H3. rewrite H2.
  destruct (lru_find (file, offset) (entries s)) as [e|]; simpl; [|done].
  split_and!; [done|by apply cache_inv_update|]. intros k. rewrite cached_update by done.
  case_decide as Heq; [|done]. rewrite H3, cached_touch by apply Hsi. unfold cached. by rewrite Heq, Hs.
Qed.

Lemma lru_find_fit k b l : lru_find k (lru_fit b l) = lru_find k l \/ lru_find k (lru_fit b l) = None.
Proof.
  destruct (lru_find k (lru_fit b l)) as [e|] eqn:E; [left|by right].
  destruct (lru_fit_prefix b l) as [rest Hr]. rewrite Hr. unfold lru_find in *.
  destruct (list_find (fun e => ekey e = k) (lru_fit b l)) as [[i x]|] eqn:Ef; [|done].
  by rewrite (list_find_app_l _ _ _ _ _ Ef).
Qed.

Lemma lru_insert_find cap k block l k' :
  NoDup (map ekey l) ->
  let r := evalue <$> lru_find k' (lru_insert cap k block l) in
  (k' = k -> r = Some (default block (evalue <$> lru_find k l))) /\
  (k' <> k -> r = evalue <$> lru_find k' l \/ r = None).
Proof.
  intros Hnd. unfold lru_insert. destruct (lru_find k l) as [e|] eqn:E.
  - rewrite cached_touch by done. split; [intros ->; by rewrite E|by left].
  - rewrite lru_find_cons. cbn [ekey]. case_decide; split; intros Hk; try congruence; [done|].
    destruct (lru_find_fit k' (cap - size block) l) as [->| ->]; auto.
Qed.

Lemma Insert_spec file offset block c :
  cache_inv c -> size block < 2 ^ 62 ->
  let k := (file, offset) in
  (Insert file offset block c).1 = Some (default block (cached c k)) /\
  cache_inv (Insert file offset block c).2 /\
  cached (Insert file offset block c).2 k = Some (default block (cached c k)) /\
  (forall k', k' <> k -> cached (Insert file offset block c).2 k' = cached c k' \/
                         cached (Insert file offset block c).2 k' = None).
Proof.
  intros Hinv Hb k. unfold Insert. fold k. destruct (shard_of c k Hinv) as (s & Hs & Hsi).
  assert (cached c k = evalue <$> lru_find k (entries s)) as Hck by (unfold cached; by rewrite Hs).
  rewrite Hs, Hck. destruct (shard_Insert_refines k block s Hsi Hb) as (H1 & H2 & H3 & _).
  destruct (shard_Insert k block s) as [[r s'] n]. cbn [fst snd] in *.
  split_and!; [done|by apply cache_inv_update| |].
  - rewrite cached_update, decide_True, H3 by done. by apply lru_insert_find; [apply Hsi|].
  - intros k' Hne. rewrite cached_update by done. case_decide as Heq; [|by left].
    rewrite H3. unfold cached. rewrite Heq, Hs. by apply lru_insert_find; [apply Hsi|].
Qed.

Lemma lru_find_erase file k l :
  lru_find k (lru_erase file l) = if k.1 =? file then None else lru_find k l.
Proof.
  unfold lru_erase. destruct (Z.eqb_spec k.1 file) as [Hf|Hf].
  - apply lru_find_None, Forall_forall. intros e [He _]%list_elem_of_filter. congruence.
  - induction l as [|x l IH]; [done|]. rewrite filter_cons, (lru_find_cons k x l).
    case_decide as Hx; [rewrite lru_find_cons; by case_decide|].
    by rewrite decide_False by congruence.
Qed.

Lemma EraseFile_spec file c :
  cache_inv c ->
  cache_inv (EraseFile file c) /\
  (forall k, cached (EraseFile file c) k = if k.1 =? file then None else cached c k).
Proof.
  intros Hinv. pose proof Hinv as [Hne Hf]. split; [split; simpl|].
  - by destruct (shards_ c).
  - apply Forall_map. eapply Forall_impl; [exact Hf|]. intros s Hs. by apply shard_EraseFile_refines.
  - intros k. destruct (shard_of c k Hinv) as (s & Hs & Hsi).
    unfold cached, EraseFile, ShardFor. simpl. rewrite length_map. fold (ShardFor c k).
    rewrite list_lookup_fmap, Hs. simpl. rewrite (proj2 (shard_EraseFile_refines file s Hsi)), lru_find_erase.
    by case_match.
Qed.

(** ** Sequences of operations *)

Inductive cache_op :=
  | OpLookup (file offset : Z)
  | OpInsert (file offset : Z) (block : bytes)
  | OpEraseFile (file : Z).

(** The state after an operation and the handle it returns. *)
Definition cache_step (o : cache_op) (c : BlockCache) : option bytes * BlockCache :=
  match o with
  | OpLookup f off => Lookup f off c
  | OpInsert f off b => Insert f off b c
  | OpEraseFile f => (None, EraseFile f c)
  end.

Definition run_cache (ops : list cache_op) (c : BlockCache) : BlockCache :=
  fold_left (fun c o => (cache_step o c).2) ops c.

(** Every block inserted is the one [truth] says the file holds there. *)
Definition faithful (truth : Key -> option bytes) (o : cache_op) : Prop :=
  match o with OpInsert f off b => truth (f, off) = Some b /\ size b < 2 ^ 62 | _ => True end.

Definition coherent (truth : Key -> option bytes) (c : BlockCache) : Prop :=
  forall k v, cached c k = Some v -> truth k = Some v.

Lemma cache_step_coherent truth o c :
  cache_inv c -> coherent truth c -> faithful truth o ->
  cache_inv (cache_step o c).2 /\ coherent truth (cache_step o c).2.
Proof.
  intros Hinv Hco Hf. destruct o as [f off|f off b|f]; simpl in *.
  - destruct (Lookup_spec f off c Hinv) as (_ & H1 & H2). split; [done|]. intros k v. rewrite H2. apply Hco.
  - destruct Hf as [Ht Hb]. destruct (Insert_spec f off _ c Hinv Hb) as (_ & H1 & H2 & H3). split; [done|].
    intros k v Hv. destruct (decide (k = (f, off))) as [->|Hne].
    + rewrite H2 in Hv. injection Hv as <-. destruct (cached c (f, off)) as [w|] eqn:E; [|done].
      simpl. by apply Hco.
    + destruct (H3 k Hne) as [Heq|Heq]; rewrite Heq in Hv; [by apply Hco|done].
  - destruct (EraseFile_spec f c Hinv) as (H1 & H2). split; [done|]. intros k v. rewrite H2.
    case_match; [done|]. apply Hco.
Qed.

Lemma run_cache_coherent truth ops c :
  cache_inv c -> coherent truth c -> Forall (faithful truth) ops ->
  cache_inv (run_cache ops c) /\ coherent truth (run_cache ops c).
Proof.
  intros Hinv Hco Hf. revert c Hinv Hco. induction Hf as [|o ops Ho Hf IH]; intros c Hinv Hco; [done|].
  destruct (cache_step_coherent truth o c Hinv Hco Ho). by apply IH.
Qed.

Lemma new_cache_coherent truth cap n : coherent truth (new_BlockCache cap n).
Proof.
  intros k v. unfold cached, new_BlockCache. simpl. case_match eqn:E; [|done].
  by apply lookup_replicate in E as [-> _].
Qed.

(** C22: Whatever sequence of lookups, insertions and erasures a cache has gone
    through, a lookup returns only the block that belongs to its file and
    offset, and every shard is within its budget or holds one block. *)
Theorem cache_never_lies cap n truth ops file offset :
  0 <= cap < 2 ^ 62 -> Forall (faithful truth) ops ->
  let c := run_cache ops (new_BlockCache cap n) in
  (forall v, (Lookup file offset c).1 = Some v -> truth (file, offset) = Some v) /\
  Forall (fun s => charge s = total (entries s) /\
                   (charge s <= capacity s \/ (length (order s) <= 1)%nat)) (shards_ c).
Proof.
  intros Hc Hf c.
  destruct (run_cache_coherent truth ops _ (new_BlockCache_inv cap n Hc) (new_cache_coherent truth cap n) Hf) as [Hinv Hco].
  split.
  - intros v. rewrite (proj1 (Lookup_spec file offset c Hinv)). apply Hco.
  - eapply Forall_impl; [apply Hinv|]. intros s Hs. split; apply Hs.
Qed.

(** A block just inserted is found again: [Insert] never evicts it, returns
    the canonical copy, and a shard keeps the longest prefix of its recency
    list that fits behind it. *)
Theorem cache_Insert_retains file offset block c :
  cache_inv c -> size block < 2 ^ 62 ->
  let c' := (Insert file offset block c).2 in
  cache_inv c' /\
  (Insert file offset block c).1 = Some (default block (cached c (file, offset))) /\
  (Lookup file offset c').1 = (Insert file offset block c).1 /\
  (forall s, shards_ c !! ShardFor c (file, offset) = Some s ->
     exists s', shards_ c' !! ShardFor c (file, offset) = Some s' /\
       entries s' = lru_insert (capacity s) (file, offset) block (entries s)).
Proof.
  intros Hinv Hb c'. destruct (Insert_spec file offset block c Hinv Hb) as (H1 & H2 & H3 & _).
  split_and!; [done|done|by rewrite (proj1 (Lookup_spec file offset c' H2)), H1|].
  intros s Hs. unfold c', Insert. rewrite Hs.
  assert (shard_inv s) as Hsi by (destruct Hinv as [_ Hf]; by eapply Forall_lookup_1).
  destruct (shard_Insert_refines (file, offset) block s Hsi Hb) as (_ & _ & G & _).
  destruct (shard_Insert (file, offset) block s) as [[r s'] m]. exists s'. split; [|done].
  apply list_lookup_insert_eq. by apply ShardFor_lt.
Qed.

Definition demo_truth (k : Key) : option bytes :=
  Some (if k.2 =? 0 then [Byte.x61; Byte.x62] else [Byte.x63; Byte.x64]).

Lemma cache_never_lies_witness :
  exists v, (Lookup 7 6 (run_cache [OpInsert 7 0 [Byte.x61; Byte.x62]; OpLookup 7 0; OpInsert 7 6 [Byte.x63; Byte.x64]]
    (new_BlockCache 3 1))).1 = Some v /\ demo_truth (7, 6) = Some v.
Proof.
  assert (0 <= 3 < 2 ^ 62) as Hc by lia.
  destruct (cache_never_lies 3 1 demo_truth
    [OpInsert 7 0 [Byte.x61; Byte.x62]; OpLookup 7 0; OpInsert 7 6 [Byte.x63; Byte.x64]] 7 6 Hc) as [H _];
    [repeat constructor|]. exists [Byte.x63; Byte.x64]. split; [vm_compute; reflexivity|].
  apply H. vm_compute. reflexivity.
Defined.

Lemma cache_Insert_retains_witness :
  (Lookup 1 0 (Insert 1 0 [Byte.x61] (new_BlockCache 0 16)).2).1 = Some [Byte.x61].
Proof.
  destruct (cache_Insert_retains 1 0 [Byte.x61] (new_BlockCache 0 16)) as (_ & H1 & H2 & _);
    [apply new_BlockCache_inv; lia|vm_compute; reflexivity|]. rewrite H2, H1. vm_compute. reflexivity.
Defined.
