(* ===== verification/Block.v ===== *)
(** * Data blocks (include/lsm/block.h, src/block.cpp)

    [BlockBuilder] writes prefix-compressed entries followed by an array of
    restart offsets; [BlockReader] is a cursor over the result. The reader's
    steps are partial: [None] is an access past the end of the block, which the
    language leaves undefined. Blocks the builder made are read back exactly and
    searched correctly; a forged block can make the reader leave its bounds. *)

From S2P Require Import Prelude Coding InternalKey Versions.

(** ** Builder *)

Record BlockBuilder := mkBlockBuilder {
  restart_interval_ : Z;
  buffer_ : bytes;
  restarts_ : list Z;
  last_key_ : bytes;
  since_restart_ : Z;
  entries_ : Z
}.

Definition new_BlockBuilder (restart_interval : Z) : BlockBuilder :=
  mkBlockBuilder (if restart_interval <? 1 then 1 else restart_interval) [] [0] [] 0 0.

(** [while (shared < limit && last_key_[shared] == key[shared]) ++shared]. *)
Fixpoint shared_prefix (a b : bytes) : nat :=
  match a, b with
  | x :: a, y :: b => if bool_decide (x = y) then S (shared_prefix a b) else 0
  | _, _ => 0
  end.

Definition Add (key value : bytes) (b : BlockBuilder) : BlockBuilder :=
  let '(shared, restarts, since) :=
    if since_restart_ b <? restart_interval_ b then
      (shared_prefix (last_key_ b) key, restarts_ b, since_restart_ b)
    else (0%nat, restarts_ b ++ [u32 (size (buffer_ b))], 0) in
  let non_shared := size key - Z.of_nat shared in
  let buf := PutVarint32 (buffer_ b) (u32 (Z.of_nat shared)) in
  let buf := PutVarint32 buf (u32 non_shared) in
  let buf := PutVarint32 buf (u32 (size value)) in
  let buf := buf ++ drop shared key in
  let buf := buf ++ value in
  mkBlockBuilder (restart_interval_ b) buf restarts key (since + 1) (entries_ b + 1).

Definition Reset (b : BlockBuilder) : BlockBuilder :=
  mkBlockBuilder (restart_interval_ b) [] [0] [] 0 0.

Definition Finish (b : BlockBuilder) : bytes * BlockBuilder :=
  let buf := fold_left PutFixed32 (restarts_ b) (buffer_ b) in
  let buf := PutFixed32 buf (u32 (size (restarts_ b))) in
  (buf, Reset b).

Definition builder_empty (b : BlockBuilder) : bool := entries_ b =? 0.

Definition CurrentSizeEstimate (b : BlockBuilder) : Z :=
  size (buffer_ b) + (size (restarts_ b) + 1) * 4.

(** ** Reader *)

Record BlockReader := mkBlockReader {
  data_ : option bytes;    (** the block; [None] is the null pointer *)
  entries_size_ : Z;
  num_restarts_ : Z;
  current_ : Z;
  next_ : Z;
  key_ : bytes;
  value_ : bytes;
  valid_ : bool;
  status_ : Status
}.

Definition null_BlockReader : BlockReader := mkBlockReader None 0 0 0 0 [] [] false Status.OK.

Definition failed_BlockReader (msg : string) : BlockReader :=
  mkBlockReader None 0 0 0 0 [] [] false (Status.Corruption msg).

(** [restarts_] points [entries_size_] bytes into the block. *)
Definition RestartOffset_in (contents : bytes) (entries_size index : Z) : Z :=
  DecodeFixed32 (drop (Z.to_nat (entries_size + index * 4)) contents).

Definition RestartOffset (r : BlockReader) (index : Z) : Z :=
  RestartOffset_in (default [] (data_ r)) (entries_size_ r) index.

(** The constructor's loop over the restart array. *)
Definition restarts_in_range (contents : bytes) (entries_size num_restarts : Z) : bool :=
  forallb (fun i => negb (entries_size <? RestartOffset_in contents entries_size (Z.of_nat i)))
    (seq 0 (Z.to_nat num_restarts)).

Definition make_BlockReader (contents : bytes) : BlockReader :=
  if size contents <? 4 then failed_BlockReader "data block shorter than its restart count"
  else
    let num_restarts := DecodeFixed32 (drop (Z.to_nat (size contents - 4)) contents) in
    let trailer := (num_restarts + 1) * 4 in
    if (num_restarts =? 0) || (size contents <? trailer) then
      failed_BlockReader "data block has a malformed restart array"
    else
      let entries_size := u32 (size contents - trailer) in
      if restarts_in_range contents entries_size num_restarts then
        mkBlockReader (Some contents) entries_size num_restarts 0 0 [] [] false Status.OK
      else
        mkBlockReader None entries_size num_restarts 0 0 [] [] false
          (Status.Corruption "data block restart offset out of range").

Definition invalidate (r : BlockReader) (s : Status) : BlockReader :=
  mkBlockReader (data_ r) (entries_size_ r) (num_restarts_ r) (current_ r) (next_ r)
    (key_ r) (value_ r) false s.

(** The three lengths at the front of an entry. *)
Definition parse_header (p : bytes) : option (Z * Z * Z * bytes) :=
  '(shared, p) ← GetVarint32Ptr p;
  '(non_shared, p) ← GetVarint32Ptr p;
  '(value_len, p) ← GetVarint32Ptr p;
  Some (shared, non_shared, value_len, p).

(** The bound is compared against a [uint32_t] sum. *)
Definition ParseEntryAt (offset : Z) (r : BlockReader) : option (bool * BlockReader) :=
  if entries_size_ r <=? offset then Some (false, invalidate r (status_ r))
  else
    data ← data_ r;
    let region := take (Z.to_nat (entries_size_ r)) data in
    let truncated :=
      Some (false, invalidate r (Status.Corruption "truncated data block entry")) in
    match parse_header (drop (Z.to_nat offset) region) with
    | None => truncated
    | Some (shared, non_shared, value_len, p) =>
        if size p <? u32 (non_shared + value_len) then truncated
        else if size (key_ r) <? shared then
          Some (false, invalidate r (Status.Corruption "data block entry shares more than it can"))
        else
          let pos := entries_size_ r - size p in   (** [p - data_] *)
          if size data <? pos + non_shared + value_len then None
          else
            let tail := drop (Z.to_nat pos) data in
            Some (true, mkBlockReader (data_ r) (entries_size_ r) (num_restarts_ r)
              offset (u32 (pos + non_shared + value_len))
              (take (Z.to_nat shared) (key_ r) ++ take (Z.to_nat non_shared) tail)
              (take (Z.to_nat value_len) (drop (Z.to_nat non_shared) tail))
              true (status_ r))
    end.

Definition clear_key (r : BlockReader) : BlockReader :=
  mkBlockReader (data_ r) (entries_size_ r) (num_restarts_ r) (current_ r) (next_ r)
    [] (value_ r) (valid_ r) (status_ r).

Definition SeekToRestart (index : Z) (r : BlockReader) : option BlockReader :=
  snd <$> ParseEntryAt (RestartOffset r index) (clear_key r).

Definition SeekToFirst (r : BlockReader) : option BlockReader :=
  match data_ r with None => Some r | Some _ => SeekToRestart 0 r end.

Definition Next (r : BlockReader) : option BlockReader :=
  if negb (valid_ r) then Some r else snd <$> ParseEntryAt (next_ r) r.

(** The binary search over the restart points; [inl] is the early return. *)
Fixpoint seek_restart (fuel : nat) (target : bytes) (left_ right_ : Z) (r : BlockReader)
  : option (BlockReader + Z * BlockReader) :=
  match fuel with
  | O => Some (inr (left_, r))
  | S fuel =>
      if left_ <? right_ then
        let mid := left_ + u32 (right_ - left_ + 1) / 2 in
        '(ok, r) ← ParseEntryAt (RestartOffset r mid) (clear_key r);
        if negb ok then Some (inl (invalidate r (status_ r)))
        else if CompareInternalKey (key_ r) target <? 0 then seek_restart fuel target mid right_ r
        else seek_restart fuel target left_ (mid - 1) r
      else Some (inr (left_, r))
  end.

(** [while (valid_ && CompareInternalKey(key_, target) < 0) Next()]. *)
Fixpoint seek_walk (fuel : nat) (target : bytes) (r : BlockReader) : option BlockReader :=
  match fuel with
  | O => Some r
  | S fuel =>
      if valid_ r && (CompareInternalKey (key_ r) target <? 0) then
        r ← Next r; seek_walk fuel target r
      else Some r
  end.

(** The interval halves, and every entry takes at least three bytes. *)
Definition Seek (target : bytes) (r : BlockReader) : option BlockReader :=
  match data_ r with
  | None => Some r
  | Some _ =>
      res ← seek_restart (Z.to_nat (num_restarts_ r)) target 0 (u32 (num_restarts_ r - 1)) r;
      match res with
      | inl r => Some r
      | inr (left_, r) =>
          r ← SeekToRestart left_ r;
          seek_walk (S (Z.to_nat (entries_size_ r))) target r
      end
  end.

(** ** Layout of a built block *)

(** One entry as stored: how much of the previous key it reuses, key and value. *)
Record item := mkItem { ishared : nat; ikey : bytes; ivalue : bytes }.

Definition item_entry (it : item) : entry := (ikey it, ivalue it).

Definition chunk (it : item) : bytes :=
  PutVarint32 [] (Z.of_nat (ishared it)) ++
  PutVarint32 [] (size (ikey it) - Z.of_nat (ishared it)) ++
  PutVarint32 [] (size (ivalue it)) ++ drop (ishared it) (ikey it) ++ ivalue it.

Definition item_fits (it : item) : Prop :=
  (ishared it <= length (ikey it))%nat /\ size (ikey it) < 2 ^ 32 /\ size (ivalue it) < 2 ^ 32.

(** What an item reuses is a prefix of the key before it. *)
Fixpoint chain (prev : bytes) (items : list item) : Prop :=
  match items with
  | [] => True
  | it :: items =>
      (ishared it <= length prev)%nat /\ take (ishared it) prev = take (ishared it) (ikey it) /\
      chain (ikey it) items
  end.

Definition region (items : list item) : bytes := concat (map chunk items).

(** The offset of the [i]-th item. *)
Definition offset (items : list item) (i : nat) : Z := size (region (take i items)).

(** The items, the indices of the restart points, and what a block of them needs
    to be readable. *)
Record layout (items : list item) (ridx : list nat) : Prop := {
  lay_fits : Forall item_fits items;
  lay_chain : chain [] items;
  lay_head : head ridx = Some 0%nat;
  lay_whole : forall i it, i ∈ ridx -> items !! i = Some it -> ishared it = 0%nat;
  lay_range : Forall (fun i => i = 0%nat \/ (i < length items)%nat) ridx;
  lay_empty : items = [] -> ridx = [0%nat];
  lay_size : size (region items) + (size ridx + 1) * 4 < 2 ^ 32
}.

(** The finished block. *)
Definition block_of (items : list item) (ridx : list nat) : bytes :=
  PutFixed32 (fold_left PutFixed32 (map (offset items) ridx) (region items)) (size ridx).

(** ** The builder produces a layout *)

Definition builder_at (b : BlockBuilder) (items : list item) (ridx : list nat) : Prop :=
  buffer_ b = region items /\ restarts_ b = map (offset items) ridx /\
  last_key_ b = default [] (ikey <$> last items) /\ entries_ b = Z.of_nat (length items) /\
  1 <= restart_interval_ b /\ 0 <= since_restart_ b.

Lemma shared_prefix_spec a b :
  (shared_prefix a b <= length a)%nat /\ (shared_prefix a b <= length b)%nat /\
  take (shared_prefix a b) a = take (shared_prefix a b) b.
Proof.
  revert b. induction a as [|x a IH]; intros [|y b]; simpl; try (split_and!; (done || lia)).
  case_bool_decide as Hxy; simpl; [|split_and!; (done || lia)]. destruct (IH b) as (? & ? & Heq). subst y.
  split_and!; [lia|lia|]. by f_equal.
Qed.

Lemma region_app a b : region (a ++ b) = region a ++ region b.
Proof. unfold region. by rewrite map_app, concat_app. Qed.

Lemma region_snoc items it : region (items ++ [it]) = region items ++ chunk it.
Proof. rewrite region_app. unfold region at 2. simpl. by rewrite app_nil_r. Qed.

Lemma offset_app items l i : (i <= length items)%nat -> offset (items ++ l) i = offset items i.
Proof. intros Hi. unfold offset. by rewrite take_app_le. Qed.

Lemma offset_all items : offset items (length items) = size (region items).
Proof. unfold offset. by rewrite firstn_all. Qed.

Lemma chain_snoc prev items it :
  chain prev (items ++ [it]) <->
  chain prev items /\ (ishared it <= length (default prev (ikey <$> last items)))%nat /\
  take (ishared it) (default prev (ikey <$> last items)) = take (ishared it) (ikey it).
Proof.
  revert prev. induction items as [|x items IH]; intros prev; cbn [chain app]; [simpl; tauto|].
  rewrite IH, last_cons. destruct (last items) as [z|]; simpl; tauto.
Qed.

Lemma PutFixed32_all l buf : fold_left PutFixed32 l buf = buf ++ fold_left PutFixed32 l [].
Proof.
  revert buf. induction l as [|x l IH]; intros buf; simpl; [by rewrite app_nil_r|].
  rewrite IH, (IH (PutFixed32 [] x)). unfold PutFixed32. simpl. by rewrite app_assoc.
Qed.

Lemma new_builder_at n : builder_at (new_BlockBuilder n) [] [0%nat] /\ layout [] [0%nat].
Proof.
  split.
  - unfold new_BlockBuilder, builder_at. simpl. zcase; split_and!; (done || lia).
  - split; try done; set_solver.
Qed.

Lemma Reset_at b items ridx : builder_at b items ridx -> builder_at (Reset b) [] [0%nat].
Proof. intros (_ & _ & _ & _ & Hr & _). unfold Reset, builder_at. simpl. split_and!; (done || lia). Qed.

(** [Add] in terms of the item it appends. *)
Lemma Add_eq key value b :
  exists it restarts since,
    item_entry it = (key, value) /\
    (ishared it <= length key)%nat /\
    take (ishared it) (last_key_ b) = take (ishared it) key /\ (ishared it <= length (last_key_ b))%nat /\
    0 <= since /\
    (restarts = restarts_ b \/ restarts = restarts_ b ++ [u32 (size (buffer_ b))] /\ ishared it = 0%nat) /\
    (size key < 2 ^ 32 -> size value < 2 ^ 32 -> 0 <= since_restart_ b ->
     Add key value b = mkBlockBuilder (restart_interval_ b) (buffer_ b ++ chunk it) restarts key (since + 1) (entries_ b + 1)).
Proof.
  assert (forall sh restarts since, (sh <= length key)%nat -> size key < 2 ^ 32 -> size value < 2 ^ 32 ->
    mkBlockBuilder (restart_interval_ b)
      (((PutVarint32 (PutVarint32 (PutVarint32 (buffer_ b) (u32 (Z.of_nat sh))) (u32 (size key - Z.of_nat sh)))
         (u32 (size value))) ++ drop sh key) ++ value) restarts key since (entries_ b + 1) =
    mkBlockBuilder (restart_interval_ b) (buffer_ b ++ chunk (mkItem sh key value)) restarts key since (entries_ b + 1)) as Hgen.
  { intros sh restarts since Hsh Hk Hv. f_equal. unfold chunk. cbn [ishared ikey ivalue].
    pose proof (size_nonneg value). unfold size in *. rewrite !u32_id by lia.
    rewrite !(PutVarint32_app (PutVarint32 _ _)), (PutVarint32_app (buffer_ b)). by rewrite <- !app_assoc. }
  destruct (shared_prefix_spec (last_key_ b) key) as (H1 & H2 & H3).
  destruct (Z.ltb_spec (since_restart_ b) (restart_interval_ b)) as [Hlt|Hge].
  - exists (mkItem (shared_prefix (last_key_ b) key) key value), (restarts_ b), (Z.max 0 (since_restart_ b)).
    split_and!; try done; [lia|by left|]. intros Hk Hv Hs. unfold Add. zcase. rewrite Hgen by done.
    by rewrite Z.max_r by lia.
  - exists (mkItem 0 key value), (restarts_ b ++ [u32 (size (buffer_ b))]), 0.
    split_and!; simpl; try done; [lia|lia|by right|]. intros Hk Hv Hs. unfold Add. zcase. rewrite Hgen by (done || lia). done.
Qed.

Lemma layout_snoc items ridx it (r : bool) :
  layout items ridx -> item_fits it ->
  (ishared it <= length (default [] (ikey <$> last items)))%nat ->
  take (ishared it) (default [] (ikey <$> last items)) = take (ishared it) (ikey it) ->
  (r = true -> ishared it = 0%nat) ->
  let ridx' := if r then ridx ++ [length items] else ridx in
  size (region (items ++ [it])) + (size ridx' + 1) * 4 < 2 ^ 32 ->
  layout (items ++ [it]) ridx'.
Proof.
  intros [L1 L2 L3 L4 L5 L6 L7] Hfit Hlen Htake Hr ridx' Hsz. split.
  - apply Forall_app. split; [done|by apply Forall_singleton].
  - by apply chain_snoc.
  - unfold ridx'. destruct r; [|done]. by destruct ridx.
  - intros i it' Hi Hit. assert (i ∈ ridx \/ r = true /\ i = length items) as Hi'.
    { unfold ridx' in Hi. destruct r; [|by left]. apply elem_of_app in Hi as [?|?%list_elem_of_singleton]; auto. }
    destruct Hi' as [Hin|[-> ->]].
    + apply lookup_app_Some in Hit as [Hit|[Hge Hit]]; [by eapply L4|].
      apply list_lookup_singleton_Some in Hit as [Hz <-].
      assert (i = 0%nat) as ->. { rewrite Forall_forall in L5. apply L5 in Hin. lia. }
      assert (items = []) as -> by (destruct items; [done|simpl in Hge; lia]). simpl in Hlen. lia.
    + rewrite lookup_app_r, Nat.sub_diag in Hit by lia. injection Hit as <-. auto.
  - assert (Forall (fun i => i = 0%nat \/ (i < length (items ++ [it]))%nat) ridx) as H.
    { eapply Forall_impl; [exact L5|]. intros i Hi. cbn beta in Hi |- *. rewrite length_app. simpl. lia. }
    unfold ridx'. destruct r; [|done]. apply Forall_app. split; [done|]. constructor; [|constructor].
    right. rewrite length_app. simpl. lia.
  - intros H. apply (f_equal length) in H. rewrite length_app in H. simpl in H. lia.
  - done.
Qed.

Lemma builder_Add_at b items ridx key value :
  builder_at b items ridx -> layout items ridx -> size key < 2 ^ 32 -> size value < 2 ^ 32 ->
  CurrentSizeEstimate (Add key value b) < 2 ^ 32 ->
  exists it ridx', item_entry it = (key, value) /\
    builder_at (Add key value b) (items ++ [it]) ridx' /\ layout (items ++ [it]) ridx'.
Proof.
  intros (B1 & B2 & B3 & B4 & B5 & B6) HL Hk Hv Hsz.
  destruct (Add_eq key value b) as (it & restarts & since & Hit & Hs1 & Hs2 & Hs3 & Hs4 & Hr & Heq).
  rewrite (Heq Hk Hv B6) in *. unfold CurrentSizeEstimate in Hsz. cbn [buffer_ restarts_] in Hsz.
  injection Hit as Hik Hiv. rewrite B3 in Hs2, Hs3.
  set (r := bool_decide (restarts <> restarts_ b)).
  assert (restarts = map (offset (items ++ [it])) (if r then ridx ++ [length items] else ridx)) as Hrestarts.
  { assert (map (offset (items ++ [it])) ridx = map (offset items) ridx) as Hm.
    { apply map_ext_in. intros i Hi%list_elem_of_In. apply offset_app.
      pose proof (lay_range _ _ HL) as Hrg. rewrite Forall_forall in Hrg. apply Hrg in Hi. lia. }
    unfold r. destruct Hr as [->|[-> Hz]].
    - rewrite bool_decide_false by tauto. by rewrite Hm.
    - rewrite bool_decide_true. 2:{ intros H. apply (f_equal length) in H. rewrite length_app in H. simpl in H. lia. }
      rewrite map_app, Hm, B2. simpl. rewrite offset_app, offset_all, B1 by done. f_equal. f_equal.
      apply u32_id. rewrite B1, size_app in Hsz. pose proof (size_nonneg (chunk it)).
      pose proof (size_nonneg (restarts_ b ++ [u32 (size (region items))])). pose proof (size_nonneg (region items)). lia. }
  exists it, (if r then ridx ++ [length items] else ridx). split_and!; [unfold item_entry; by rewrite Hik, Hiv| |].
  - unfold builder_at. cbn [buffer_ restarts_ last_key_ entries_ restart_interval_ since_restart_].
    split_and!; [by rewrite B1, region_snoc|done|rewrite last_snoc; simpl; by rewrite Hik|rewrite B4, length_app; simpl; lia|done|lia].
  - apply (layout_snoc items ridx it r HL); [|lia|by rewrite Hik|..].
    + unfold item_fits. rewrite Hik, Hiv. done.
    + unfold r. intros Hd%bool_decide_eq_true. by destruct Hr as [?|[_ ?]].
    + rewrite region_snoc, <- B1. rewrite Hrestarts in Hsz. unfold size in *. rewrite length_map in Hsz. done.
Qed.

Lemma Finish_block b items ridx :
  builder_at b items ridx -> layout items ridx -> (Finish b).1 = block_of items ridx.
Proof.
  intros (B1 & B2 & _) HL. unfold Finish, block_of. simpl. rewrite B1, B2. f_equal.
  pose proof (lay_size _ _ HL). pose proof (size_nonneg (region items)).
  unfold size in *. rewrite length_map. apply u32_id. lia.
Qed.

(** ** Reading a block back *)

Definition trailer_of (offs : list Z) : bytes := concat (map (le_split 4) offs).

Lemma size_trailer_of offs : size (trailer_of offs) = 4 * size offs.
Proof.
  unfold trailer_of. induction offs as [|x offs IH]; [done|]. simpl. autorewrite with lsm. rewrite IH. lia.
Qed.

Lemma block_of_eq items ridx :
  block_of items ridx = region items ++ trailer_of (map (offset items) ridx) ++ le_split 4 (size ridx).
Proof.
  unfold block_of, PutFixed32 at 1. rewrite PutFixed32_all, <- app_assoc. f_equal. f_equal.
  generalize (map (offset items) ridx). intros l. unfold trailer_of.
  induction l as [|x l IH]; [done|]. simpl. rewrite PutFixed32_all, IH. done.
Qed.

Lemma drop_size {A} (a b : list A) n : n = size a -> drop (Z.to_nat n) (a ++ b) = b.
Proof. intros ->. unfold size. rewrite Nat2Z.id. apply drop_app_length. Qed.

Lemma take_size {A} (a b : list A) n : n = size a -> take (Z.to_nat n) (a ++ b) = a.
Proof. intros ->. unfold size. rewrite Nat2Z.id. apply take_app_length. Qed.

Lemma trailer_lookup offs j o rest :
  offs !! j = Some o -> 0 <= o < 2 ^ 32 ->
  DecodeFixed32 (drop (4 * j) (trailer_of offs ++ rest)) = o.
Proof.
  unfold trailer_of. revert j. induction offs as [|x offs IH]; intros j Hj Ho; [done|].
  destruct j as [|j]; cbn [map concat].
  - injection Hj as ->. rewrite <- app_assoc. simpl. rewrite drop_0, DecodeFixed32_split. by apply u32_id.
  - replace (4 * S j)%nat with (length (le_split 4 x) + 4 * j)%nat by (rewrite length_le_split; lia).
    rewrite <- app_assoc, drop_app_add'. 2: done. by apply IH.
Qed.

Lemma offset_range items i : 0 <= offset items i <= size (region items).
Proof.
  unfold offset. split; [apply size_nonneg|]. rewrite <- (take_drop i items) at 2.
  rewrite region_app, size_app. pose proof (size_nonneg (region (drop i items))). lia.
Qed.

(** A reader over a built block, wherever its cursor is. *)
Definition reader_on (r : BlockReader) (items : list item) (ridx : list nat) : Prop :=
  data_ r = Some (block_of items ridx) /\ entries_size_ r = size (region items) /\
  num_restarts_ r = size ridx /\ status_ r = Status.OK.

(** The cursor stands on the [i]-th entry, or past the last one. *)
Definition reader_at (r : BlockReader) (items : list item) (ridx : list nat) (i : nat) : Prop :=
  reader_on r items ridx /\
  match items !! i with
  | Some it => valid_ r = true /\ key_ r = ikey it /\ value_ r = ivalue it /\ next_ r = offset items (S i)
  | None => valid_ r = false
  end.

Section Reading.
Context (items : list item) (ridx : list nat).
Hypothesis HL : layout items ridx.

Lemma RestartOffset_at j i :
  ridx !! j = Some i ->
  RestartOffset_in (block_of items ridx) (size (region items)) (Z.of_nat j) = offset items i.
Proof.
  intros Hj. unfold RestartOffset_in. rewrite block_of_eq.
  pose proof (size_nonneg (region items)). pose proof (lay_size _ _ HL). pose proof (size_nonneg ridx).
  replace (Z.to_nat (size (region items) + Z.of_nat j * 4)) with (length (region items) + 4 * j)%nat
    by (unfold size; lia).
  rewrite drop_app_add' by done. apply trailer_lookup.
  - by rewrite list_lookup_fmap, Hj.
  - pose proof (offset_range items i). lia.
Qed.

Lemma make_BlockReader_on :
  reader_on (make_BlockReader (block_of items ridx)) items ridx /\
  valid_ (make_BlockReader (block_of items ridx)) = false.
Proof.
  pose proof (lay_size _ _ HL) as Hsz. pose proof (size_nonneg (region items)). pose proof (size_nonneg ridx).
  assert (1 <= size ridx) as Hr1.
  { pose proof (lay_head _ _ HL) as Hh. destruct ridx; [done|]. rewrite size_cons. pose proof (size_nonneg l). lia. }
  assert (size (block_of items ridx) = size (region items) + (size ridx + 1) * 4) as Hbs.
  { rewrite block_of_eq. autorewrite with lsm. rewrite size_trailer_of. unfold size. rewrite length_map. lia. }
  assert (DecodeFixed32 (drop (Z.to_nat (size (block_of items ridx) - 4)) (block_of items ridx)) = size ridx) as Hn.
  { rewrite Hbs, block_of_eq, app_assoc. rewrite drop_size.
    - rewrite <- (app_nil_r (le_split 4 _)), DecodeFixed32_split. apply u32_id. lia.
    - rewrite size_app, size_trailer_of. unfold size. rewrite length_map. lia. }
  unfold make_BlockReader. rewrite Hn, Hbs. zcase. zcase. rewrite orb_false_r.
  destruct (Z.eqb_spec (size ridx) 0); [lia|].
  replace (u32 (size (region items) + (size ridx + 1) * 4 - (size ridx + 1) * 4)) with (size (region items))
    by (rewrite u32_id; lia).
  replace (restarts_in_range _ _ _) with true; [done|]. symmetry. apply forallb_forall.
  intros j Hj%in_seq. destruct (lookup_lt_is_Some_2 ridx j) as [i Hi]; [unfold size in Hj; lia|].
  rewrite (RestartOffset_at j i Hi). pose proof (offset_range items i). by zcase.
Qed.

Lemma parse_header_chunk it rest :
  item_fits it ->
  parse_header (chunk it ++ rest) =
    Some (Z.of_nat (ishared it), size (ikey it) - Z.of_nat (ishared it), size (ivalue it),
          drop (ishared it) (ikey it) ++ ivalue it ++ rest).
Proof.
  intros (H1 & H2 & H3). pose proof (size_nonneg (ivalue it)). unfold parse_header, chunk.
  rewrite <- !app_assoc. rewrite GetVarint32Ptr_Put by (unfold size in *; lia). cbn [mbind option_bind].
  rewrite GetVarint32Ptr_Put by (unfold size in *; lia). cbn [mbind option_bind].
  by rewrite GetVarint32Ptr_Put by lia.
Qed.

Lemma region_split i it :
  items !! i = Some it -> region items = region (take i items) ++ chunk it ++ region (drop (S i) items).
Proof.
  intros Hi. rewrite <- (take_drop_middle items i it Hi) at 1. rewrite region_app. f_equal.
Qed.

Lemma offset_S i it : items !! i = Some it -> offset items (S i) = offset items i + size (chunk it).
Proof. intros Hi. unfold offset. rewrite (take_S_r _ _ _ Hi), region_snoc, size_app. done. Qed.

Lemma size_chunk_pos it : item_fits it -> 3 <= size (chunk it).
Proof.
  intros (H1 & H2 & H3). pose proof (size_nonneg (ivalue it)). unfold chunk. autorewrite with lsm.
  pose proof (size_PutVarint32 (Z.of_nat (ishared it)) ltac:(unfold size in *; lia)).
  pose proof (size_PutVarint32 (size (ikey it) - Z.of_nat (ishared it)) ltac:(unfold size in *; lia)).
  pose proof (size_PutVarint32 (size (ivalue it)) ltac:(lia)).
  pose proof (size_nonneg (drop (ishared it) (ikey it))). lia.
Qed.

(** The bytes around the [i]-th entry: what precedes its key, and what follows. *)
Lemma entry_bytes i it :
  items !! i = Some it ->
  exists front rest,
    region items = front ++ drop (ishared it) (ikey it) ++ ivalue it ++ rest /\
    size front + (size (ikey it) - Z.of_nat (ishared it)) + size (ivalue it) = offset items (S i) /\
    parse_header (drop (Z.to_nat (offset items i)) (region items)) =
      Some (Z.of_nat (ishared it), size (ikey it) - Z.of_nat (ishared it), size (ivalue it),
            drop (ishared it) (ikey it) ++ ivalue it ++ rest).
Proof.
  intros Hi. assert (item_fits it) as Hfit by (eapply Forall_lookup_1; [apply HL|done]).
  pose proof (region_split i it Hi) as Hreg. set (rest := region (drop (S i) items)) in *.
  exists (region (take i items) ++ PutVarint32 [] (Z.of_nat (ishared it)) ++
    PutVarint32 [] (size (ikey it) - Z.of_nat (ishared it)) ++ PutVarint32 [] (size (ivalue it))), rest.
  split_and!.
  - rewrite Hreg. unfold chunk. by rewrite <- !app_assoc.
  - rewrite (offset_S i it Hi). unfold chunk, offset. autorewrite with lsm.
    assert (size (drop (ishared it) (ikey it)) = size (ikey it) - Z.of_nat (ishared it)) as ->
      by (unfold size; rewrite length_drop; destruct Hfit; lia). lia.
  - rewrite Hreg, drop_size by done. by apply parse_header_chunk.
Qed.

(** Decoding the [i]-th entry, given the part of a key it builds on. *)
Lemma ParseEntryAt_item r i it :
  reader_on r items ridx -> items !! i = Some it ->
  (ishared it <= length (key_ r))%nat -> take (ishared it) (key_ r) = take (ishared it) (ikey it) ->
  exists r', ParseEntryAt (offset items i) r = Some (true, r') /\ reader_at r' items ridx i.
Proof.
  intros (R1 & R2 & R3 & R4) Hi Hsh Htake.
  assert (item_fits it) as Hfit by (eapply Forall_lookup_1; [apply HL|done]). pose proof Hfit as (F1 & F2 & F3).
  destruct (entry_bytes i it Hi) as (front & rest & Hreg & Hnext & Hph).
  set (body := drop (ishared it) (ikey it)) in *.
  assert (size body = size (ikey it) - Z.of_nat (ishared it)) as Hbody by (unfold body, size; rewrite length_drop; lia).
  assert (size front = size (region items) - size (body ++ ivalue it ++ rest)) as Hfront by (rewrite Hreg, !size_app; lia).
  assert (size (body ++ ivalue it ++ rest) = size body + size (ivalue it) + size rest) as Hps by (rewrite !size_app; lia).
  pose proof (lay_size _ _ HL) as Hsz. pose proof (size_nonneg ridx). pose proof (offset_S i it Hi) as HoS.
  pose proof (size_chunk_pos it Hfit). pose proof (offset_range items i). pose proof (offset_range items (S i)).
  pose proof (size_nonneg front). pose proof (size_nonneg (ivalue it)). pose proof (size_nonneg rest).
  assert (size (block_of items ridx) = size (region items) + (size ridx + 1) * 4) as Hbs.
  { rewrite block_of_eq. autorewrite with lsm. rewrite size_trailer_of. unfold size. rewrite length_map. lia. }
  unfold ParseEntryAt. rewrite R1, R2. destruct (Z.leb_spec (size (region items)) (offset items i)); [lia|].
  assert (take (Z.to_nat (size (region items))) (block_of items ridx) = region items) as Htk.
  { rewrite block_of_eq. by apply take_size. }
  cbn [mbind option_bind]. rewrite Htk, Hph, Hbs.
  rewrite u32_id by (unfold size in *; lia).
  destruct (Z.ltb_spec (size (body ++ ivalue it ++ rest)) (size (ikey it) - Z.of_nat (ishared it) + size (ivalue it))); [lia|].
  destruct (Z.ltb_spec (size (key_ r)) (Z.of_nat (ishared it))); [unfold size in *; lia|].
  rewrite <- Hfront. zcase. eexists. split; [reflexivity|]. split; [by split_and!|]. rewrite Hi.
  assert (drop (Z.to_nat (size front)) (block_of items ridx) =
    body ++ ivalue it ++ rest ++ trailer_of (map (offset items) ridx) ++ le_split 4 (size ridx)) as ->.
  { rewrite block_of_eq, Hreg, <- !app_assoc. by apply drop_size. }
  cbn [valid_ key_ value_ next_]. split_and!; [done| | |].
  - rewrite Nat2Z.id, Htake, take_size by done. apply take_drop.
  - rewrite drop_size by done. by rewrite take_size.
  - rewrite Hnext. apply u32_id. lia.
Qed.

(** At the end of the entry region the cursor becomes invalid. *)
Lemma ParseEntryAt_end r i :
  reader_on r items ridx -> (length items <= i)%nat ->
  exists r', ParseEntryAt (offset items i) r = Some (false, r') /\ reader_at r' items ridx i.
Proof.
  intros (R1 & R2 & R3 & R4) Hi. unfold ParseEntryAt. rewrite R2.
  assert (offset items i = size (region items)) as -> by (unfold offset; by rewrite take_ge).
  zcase. eexists. split; [reflexivity|]. split; [by split_and!|]. by rewrite lookup_ge_None_2.
Qed.

Lemma chain_at i it prev : chain prev items -> items !! i = Some it ->
  forall p, p = (match i with O => prev | S j => default [] (ikey <$> items !! j) end) ->
  (ishared it <= length p)%nat /\ take (ishared it) p = take (ishared it) (ikey it).
Proof.
  clear HL. revert i prev. induction items as [|x l IH]; intros i prev Hc Hi p Hp; [done|].
  destruct Hc as (H1 & H2 & Hc). destruct i as [|i]; simpl in Hi.
  - injection Hi as <-. by subst.
  - apply (IH i (ikey x) Hc Hi). subst p. by destruct i.
Qed.

Lemma Next_at r i :
  reader_at r items ridx i -> (i < length items)%nat ->
  exists r', Next r = Some r' /\ reader_at r' items ridx (S i).
Proof.
  intros [Hon Hat] Hi. destruct (lookup_lt_is_Some_2 items i Hi) as [it Hit]. rewrite Hit in Hat.
  destruct Hat as (Hv & Hk & _ & Hn). unfold Next. rewrite Hv, Hn. cbn [negb].
  destruct (items !! S i) as [it'|] eqn:Hit'.
  - destruct (chain_at (S i) it' [] (lay_chain _ _ HL) Hit' (ikey it)) as [C1 C2]; [by rewrite Hit|].
    destruct (ParseEntryAt_item r (S i) it' Hon Hit') as (r' & -> & Hr'); [by rewrite Hk..|]. eauto.
  - destruct (ParseEntryAt_end r (S i) Hon) as (r' & -> & Hr'); [by apply lookup_ge_None|]. eauto.
Qed.

Lemma parse_restart r j i :
  reader_on r items ridx -> ridx !! j = Some i ->
  exists r', ParseEntryAt (RestartOffset r (Z.of_nat j)) (clear_key r) =
             Some (bool_decide (i < length items)%nat, r') /\ reader_at r' items ridx i.
Proof.
  intros Hon Hj. pose proof Hon as (R1 & R2 & _). unfold RestartOffset. rewrite R1, R2.
  change (default [] (Some (block_of items ridx))) with (block_of items ridx).
  rewrite (RestartOffset_at j i Hj). assert (reader_on (clear_key r) items ridx) as Hon' by done.
  case_bool_decide as Hi.
  - destruct (lookup_lt_is_Some_2 items i Hi) as [it Hit].
    assert (ishared it = 0%nat) as Hz by (eapply (lay_whole _ _ HL); [by eapply list_elem_of_lookup_2|done]).
    apply (ParseEntryAt_item (clear_key r) i it Hon' Hit); rewrite Hz; [simpl; lia|by rewrite !take_0].
  - apply (ParseEntryAt_end (clear_key r) i Hon'). lia.
Qed.

Lemma SeekToRestart_at r j i :
  reader_on r items ridx -> ridx !! j = Some i ->
  exists r', SeekToRestart (Z.of_nat j) r = Some r' /\ reader_at r' items ridx i.
Proof.
  intros Hon Hj. unfold SeekToRestart. destruct (parse_restart r j i Hon Hj) as (r' & -> & Hr'). eauto.
Qed.

Lemma SeekToFirst_at r :
  reader_on r items ridx -> exists r', SeekToFirst r = Some r' /\ reader_at r' items ridx 0.
Proof.
  intros Hon. unfold SeekToFirst. rewrite (proj1 Hon). apply (SeekToRestart_at r 0 0 Hon).
  pose proof (lay_head _ _ HL). by destruct ridx.
Qed.

(** ** Search *)

Hypothesis Hsorted : sorted (map item_entry items).

(** Where the entries not below [target] start. *)
Definition seek_pos (target : bytes) : nat :=
  length (take_while (fun e : entry => CompareInternalKey e.1 target <? 0) (map item_entry items)).

Definition below (target : bytes) (j : nat) : Prop :=
  j = 0%nat \/ exists i it, ridx !! j = Some i /\ items !! i = Some it /\ ikey it ≺ target.

Lemma seek_restart_spec target fuel : forall l r rd,
  reader_on rd items ridx -> (l <= r < length ridx)%nat -> (r - l <= fuel)%nat -> below target l ->
  exists j rd', seek_restart fuel target (Z.of_nat l) (Z.of_nat r) rd = Some (inr (Z.of_nat j, rd')) /\
    reader_on rd' items ridx /\ (j < length ridx)%nat /\ below target j.
Proof.
  pose proof (lay_size _ _ HL) as Hsz. pose proof (size_nonneg (region items)).
  induction fuel as [|fuel IH]; intros l r rd Hon Hlr Hf Hb; cbn [seek_restart].
  { exists l, rd. split_and!; [done|done|lia|done]. }
  destruct (Z.ltb_spec (Z.of_nat l) (Z.of_nat r)) as [Hlt|Hge].
  2:{ exists l, rd. split_and!; [done|done|lia|done]. }
  rewrite u32_id by (unfold size in *; lia).
  set (mid := (l + (r - l + 1) / 2)%nat).
  assert (Z.of_nat l + (Z.of_nat r - Z.of_nat l + 1) / 2 = Z.of_nat mid) as ->.
  { unfold mid. rewrite Nat2Z.inj_add, Nat2Z.inj_div. do 2 f_equal; lia. }
  assert (l < mid <= r)%nat as Hmid.
  { unfold mid. pose proof (Nat.Div0.div_le_mono 2 (r - l + 1) 2 ltac:(lia)) as H1.
    change (2 / 2)%nat with 1%nat in H1. pose proof (Nat.Div0.div_le_upper_bound (r - l + 1) 2 (r - l) ltac:(lia)). lia. }
  destruct (lookup_lt_is_Some_2 ridx mid ltac:(lia)) as [i Hi].
  assert (i < length items)%nat as Hil.
  { pose proof (lay_range _ _ HL) as Hrg. rewrite Forall_forall in Hrg.
    destruct (Hrg i ltac:(by eapply list_elem_of_lookup_2)) as [->|]; [|done].
    destruct items; [|simpl; lia]. pose proof (lay_empty _ _ HL eq_refl) as Hr0. rewrite Hr0 in Hlr. simpl in Hlr. lia. }
  destruct (parse_restart rd mid i Hon Hi) as (rd' & -> & Hon' & Hat).
  rewrite bool_decide_true by done. cbn [mbind option_bind negb].
  destruct (lookup_lt_is_Some_2 items i Hil) as [it Hit]. rewrite Hit in Hat. destruct Hat as (_ & -> & _ & _).
  destruct (Z.ltb_spec (CompareInternalKey (ikey it) target) 0) as [Hc|Hc].
  - apply IH; [done|lia|lia|]. right. eauto.
  - replace (Z.of_nat mid - 1) with (Z.of_nat (mid - 1)) by lia. apply IH; [done|lia|lia|done].
Qed.

(** Walking forward from a position at or before the answer finds it. *)
Lemma seek_walk_spec target fuel : forall i rd,
  reader_at rd items ridx i -> (i <= seek_pos target)%nat -> (seek_pos target - i < fuel)%nat ->
  exists rd', seek_walk fuel target rd = Some rd' /\ reader_at rd' items ridx (seek_pos target).
Proof.
  set (p := fun e : entry => CompareInternalKey e.1 target <? 0).
  induction fuel as [|fuel IH]; intros i rd Hat Hi Hf; [lia|]. cbn [seek_walk].
  pose proof Hat as [Hon Hcur]. destruct (items !! i) as [it|] eqn:Hit.
  - destruct Hcur as (-> & -> & _). cbn [andb].
    assert (map item_entry items !! i = Some (item_entry it)) as Hmi by (by rewrite list_lookup_fmap, Hit).
    change (CompareInternalKey (ikey it) target <? 0) with (p (item_entry it)).
    destruct (decide (i = seek_pos target)) as [->|Hne].
    + assert (p (item_entry it) = false) as ->; [|eauto].
      assert (drop_while p (map item_entry items) !! 0%nat = Some (item_entry it)) as Hd.
      { rewrite (take_drop_while p (map item_entry items)), lookup_app_r in Hmi by done.
        by rewrite Nat.sub_diag in Hmi. }
      destruct (drop_while p (map item_entry items)) as [|e l] eqn:E; [done|].
      injection Hd as ->. by apply drop_while_head in E.
    + assert (p (item_entry it) = true) as ->.
      { rewrite (take_drop_while p (map item_entry items)), lookup_app_l in Hmi by (unfold seek_pos in *; fold p in Hi, Hne; lia).
        pose proof (take_while_all p (map item_entry items)) as Ha. by apply (Forall_lookup_1 _ _ _ _ Ha Hmi). }
      destruct (Next_at rd i Hat) as (rd' & -> & Hat'); [by apply lookup_lt_Some in Hit|].
      cbn [mbind option_bind]. apply (IH (S i)); [done|lia|lia].
  - rewrite Hcur. cbn [andb]. exists rd. split; [done|]. assert (i = seek_pos target) as <-; [|done].
    apply lookup_ge_None in Hit. assert (seek_pos target <= length items)%nat; [|lia].
    unfold seek_pos. rewrite <- (length_map item_entry items).
    rewrite (take_drop_while p (map item_entry items)) at 2. rewrite length_app. fold p. lia.
Qed.

Lemma below_seek_pos target j i :
  below target j -> ridx !! j = Some i -> (i <= seek_pos target)%nat.
Proof.
  intros [->|(i' & it & Hi' & Hit & Hlt)] Hj.
  - pose proof (lay_head _ _ HL) as Hh. destruct ridx; [done|]. simpl in *. injection Hh as ->. injection Hj as <-. lia.
  - assert (i' = i) as -> by congruence. unfold seek_pos.
    destruct (Nat.le_gt_cases i (length (take_while (fun e : entry => CompareInternalKey e.1 target <? 0) (map item_entry items)))) as [|Hgt]; [done|].
    exfalso. set (p := fun e : entry => CompareInternalKey e.1 target <? 0) in *.
    set (n := length (take_while p (map item_entry items))) in *.
    assert (i < length items)%nat by (by apply lookup_lt_Some in Hit).
    destruct (lookup_lt_is_Some_2 (map item_entry items) n) as [e He]; [rewrite length_map; lia|].
    assert (p e = false) as Hpe.
    { rewrite (take_drop_while p (map item_entry items)), lookup_app_r in He by (fold n; lia).
      fold n in He. rewrite Nat.sub_diag in He. destruct (drop_while p (map item_entry items)) as [|e' l] eqn:E; [done|].
      injection He as <-. by apply drop_while_head in E. }
    assert (entry_lt e (item_entry it)) as Hel.
    { eapply (sorted_nth_lt _ n i); [exact Hsorted|done|by rewrite list_lookup_fmap, Hit|lia]. }
    assert (p e = true); [|congruence]. unfold p. apply Z.ltb_lt.
    eapply (ik_lt_trans e.1 (ikey it)); [exact Hel|done].
Qed.

Lemma seek_pos_fuel target : (seek_pos target <= Z.to_nat (size (region items)))%nat.
Proof.
  assert (seek_pos target <= length items)%nat as H1.
  { unfold seek_pos. rewrite <- (length_map item_entry items).
    rewrite (take_drop_while (fun e : entry => CompareInternalKey e.1 target <? 0) (map item_entry items)) at 2.
    rewrite length_app. lia. }
  assert (Z.of_nat (length items) <= size (region items)) as H2; [|lia].
  pose proof (lay_fits _ _ HL) as Hf. clear -Hf. induction Hf as [|it l Hit Hf IH]; [done|].
  unfold region. cbn [map concat length]. rewrite size_app. fold (region l).
  pose proof (size_chunk_pos it Hit). lia.
Qed.

Lemma Seek_at target r :
  reader_on r items ridx ->
  exists r', Seek target r = Some r' /\ reader_at r' items ridx (seek_pos target).
Proof.
  intros Hon. pose proof Hon as (R1 & R2 & R3 & _). unfold Seek. rewrite R1, R3.
  pose proof (lay_size _ _ HL). pose proof (size_nonneg (region items)).
  assert (1 <= length ridx)%nat by (pose proof (lay_head _ _ HL); destruct ridx; [done|simpl; lia]).
  rewrite u32_id by (unfold size in *; lia).
  replace (size ridx - 1) with (Z.of_nat (length ridx - 1)) by (unfold size; lia).
  destruct (seek_restart_spec target (Z.to_nat (size ridx)) 0 (length ridx - 1) r Hon)
    as (j & rd & Heq & Hon' & Hj & Hb); [lia|unfold size; lia|by left|].
  change 0 with (Z.of_nat 0). rewrite Heq. cbn [mbind option_bind].
  destruct (lookup_lt_is_Some_2 ridx j Hj) as [i Hi].
  destruct (SeekToRestart_at rd j i Hon' Hi) as (rd' & -> & Hat). cbn [mbind option_bind].
  replace (entries_size_ rd') with (size (region items)) by (by destruct Hat as [(_ & -> & _) _]).
  pose proof (seek_pos_fuel target). pose proof (below_seek_pos target j i Hb Hi).
  apply (seek_walk_spec target _ i); [done|done|lia].
Qed.

End Reading.

(** ** Building and reading whole blocks *)

Definition add_all (b : BlockBuilder) (es : list entry) : BlockBuilder :=
  fold_left (fun b e => Add e.1 e.2 b) es b.

Definition entry_small (e : entry) : Prop := size e.1 < 2 ^ 32 /\ size e.2 < 2 ^ 32.

(** The loop [for (; r.Valid(); r.Next())]. *)
Fixpoint block_drain (fuel : nat) (r : BlockReader) : option (list entry) :=
  match fuel with
  | O => Some []
  | S fuel =>
      if valid_ r then
        r' ← Next r; es ← block_drain fuel r'; Some ((key_ r, value_ r) :: es)
      else Some []
  end.

Lemma CurrentSizeEstimate_Add key value b :
  CurrentSizeEstimate b <= CurrentSizeEstimate (Add key value b).
Proof.
  unfold Add. set (x := if since_restart_ b <? _ then _ else _).
  assert (size (restarts_ b) <= size x.1.2) as Hr.
  { unfold x. case_match; simpl; [lia|]. rewrite size_app. pose proof (size_nonneg [u32 (size (buffer_ b))]). lia. }
  destruct x as [[sh restarts] since]. simpl in Hr. unfold CurrentSizeEstimate. cbn [buffer_ restarts_].
  rewrite !(PutVarint32_app (PutVarint32 _ _)), (PutVarint32_app (buffer_ b)), !size_app.
  pose proof (size_nonneg (PutVarint32 [] (u32 (Z.of_nat sh)))).
  pose proof (size_nonneg (PutVarint32 [] (u32 (size key - Z.of_nat sh)))).
  pose proof (size_nonneg (PutVarint32 [] (u32 (size value)))).
  pose proof (size_nonneg (drop sh key)). pose proof (size_nonneg value). lia.
Qed.

Lemma CurrentSizeEstimate_add_all es b : CurrentSizeEstimate b <= CurrentSizeEstimate (add_all b es).
Proof.
  revert b. induction es as [|e es IH]; intros b; simpl; [lia|].
  pose proof (IH (Add e.1 e.2 b)). pose proof (CurrentSizeEstimate_Add e.1 e.2 b).
  unfold add_all in *. lia.
Qed.

Lemma add_all_at es : forall b items ridx,
  builder_at b items ridx -> layout items ridx -> Forall entry_small es ->
  CurrentSizeEstimate (add_all b es) < 2 ^ 32 ->
  exists its ridx', map item_entry its = es /\ builder_at (add_all b es) (items ++ its) ridx' /\
    layout (items ++ its) ridx'.
Proof.
  induction es as [|e es IH]; intros b items ridx Hb HL Hf Hsz.
  - exists [], ridx. by rewrite app_nil_r.
  - apply Forall_cons in Hf as [[He1 He2] Hf]. pose proof (CurrentSizeEstimate_add_all es (Add e.1 e.2 b)) as Hm.
    destruct (builder_Add_at b items ridx e.1 e.2 Hb HL He1 He2) as (it & ridx1 & Hit & Hb1 & HL1).
    { unfold add_all in *. simpl in *. lia. }
    destruct (IH _ _ _ Hb1 HL1 Hf Hsz) as (its & ridx' & Hits & Hb' & HL').
    exists (it :: its), ridx'. rewrite <- app_assoc in Hb', HL'. split_and!; [|done|done].
    simpl. rewrite Hit, Hits. by destruct e.
Qed.

(** The finished block of a list of entries has a layout. *)
Lemma built_block n es :
  Forall entry_small es -> CurrentSizeEstimate (add_all (new_BlockBuilder n) es) < 2 ^ 32 ->
  exists items ridx, map item_entry items = es /\ layout items ridx /\
    (Finish (add_all (new_BlockBuilder n) es)).1 = block_of items ridx.
Proof.
  intros Hf Hsz. destruct (new_builder_at n) as [Hb HL].
  destruct (add_all_at es _ _ _ Hb HL Hf Hsz) as (items & ridx & Hes & Hb' & HL').
  exists items, ridx. split_and!; [done|done|]. by apply Finish_block.
Qed.

Lemma block_drain_at items ridx fuel : forall i r,
  layout items ridx -> reader_at r items ridx i -> (length items - i < fuel)%nat ->
  block_drain fuel r = Some (drop i (map item_entry items)).
Proof.
  induction fuel as [|fuel IH]; intros i r HL Hat Hf; [lia|]. cbn [block_drain].
  pose proof Hat as [_ Hcur]. destruct (items !! i) as [it|] eqn:Hit.
  - destruct Hcur as (-> & -> & -> & _). pose proof Hit as Hlt%lookup_lt_Some.
    destruct (Next_at items ridx HL r i Hat Hlt) as (r' & -> & Hat'). cbn [mbind option_bind].
    rewrite (IH (S i) r' HL Hat') by lia. cbn [mbind option_bind].
    assert (map item_entry items !! i = Some (item_entry it)) as Hmi by (by rewrite list_lookup_fmap, Hit).
    by rewrite (drop_S _ _ _ Hmi).
  - rewrite Hcur. apply lookup_ge_None in Hit. rewrite drop_ge; [done|]. by rewrite length_map.
Qed.

Lemma drop_seek_pos items target :
  drop (seek_pos items target) (map item_entry items) = seek (map item_entry items) target.
Proof.
  unfold seek_pos, seek. set (p := fun e : entry => _). rewrite (take_drop_while p (map item_entry items)) at 2.
  apply drop_app_length.
Qed.

(** C24: A block is read back as it was written: whatever entries are added and
    at whatever restart interval, the finished block is accepted and its
    cursor, from the first entry on, enumerates exactly those entries, without
    ever leaving the block. *)
Theorem block_roundtrip n es :
  Forall entry_small es -> CurrentSizeEstimate (add_all (new_BlockBuilder n) es) < 2 ^ 32 ->
  let r := make_BlockReader (Finish (add_all (new_BlockBuilder n) es)).1 in
  status_ r = Status.OK /\
  exists r', SeekToFirst r = Some r' /\ status_ r' = Status.OK /\ block_drain (S (length es)) r' = Some es.
Proof.
  intros Hf Hsz. destruct (built_block n es Hf Hsz) as (items & ridx & Hes & HL & ->).
  destruct (make_BlockReader_on items ridx HL) as [Hon _]. split; [apply Hon|].
  destruct (SeekToFirst_at items ridx HL _ Hon) as (r' & -> & Hat). exists r'. split_and!; [done|apply Hat|].
  assert (length es = length items) as Hlen by (by rewrite <- Hes, length_map).
  rewrite (block_drain_at items ridx _ 0 r' HL Hat) by lia. by rewrite Hes.
Qed.

(** C21: On a block of sorted entries, [Seek] (binary search over the restart
    points, then decoding forward) puts the cursor on the first entry whose key
    is not below the target, wherever the restart points fall. *)
Theorem block_Seek_first_not_below n es target :
  Forall entry_small es -> sorted es -> CurrentSizeEstimate (add_all (new_BlockBuilder n) es) < 2 ^ 32 ->
  exists r, Seek target (make_BlockReader (Finish (add_all (new_BlockBuilder n) es)).1) = Some r /\
    status_ r = Status.OK /\ block_drain (S (length es)) r = Some (seek es target).
Proof.
  intros Hf Hs Hsz. destruct (built_block n es Hf Hsz) as (items & ridx & Hes & HL & ->).
  destruct (make_BlockReader_on items ridx HL) as [Hon _]. rewrite <- Hes in Hs.
  destruct (Seek_at items ridx HL Hs target _ Hon) as (r & -> & Hat). exists r. split_and!; [done|apply Hat|].
  assert (length es = length items) as Hlen by (by rewrite <- Hes, length_map).
  rewrite (block_drain_at items ridx _ _ r HL Hat) by lia. by rewrite drop_seek_pos, Hes.
Qed.

Definition demo_block_entries : list entry :=
  map (fun n => (EncodeInternalKey [Byte.x6b; byte.of_Z (Z.of_nat n)] 5 kValue, [byte.of_Z (Z.of_nat n)])) (seq 0 7).

Lemma demo_block_small : Forall entry_small demo_block_entries.
Proof. repeat (constructor; [vm_compute; split; reflexivity|]). constructor. Qed.

Lemma demo_block_sorted : sorted demo_block_entries.
Proof. repeat (constructor; [|repeat (constructor; [vm_compute; reflexivity|]); constructor]). constructor. Qed.

Lemma block_roundtrip_witness :
  exists r, SeekToFirst (make_BlockReader (Finish (add_all (new_BlockBuilder 3) demo_block_entries)).1) = Some r /\
    block_drain 8 r = Some demo_block_entries.
Proof.
  destruct (block_roundtrip 3 demo_block_entries demo_block_small) as (_ & r & H1 & _ & H2);
    [vm_compute; reflexivity|]. exists r. by split.
Defined.

Lemma block_Seek_first_not_below_witness :
  exists r, Seek (LookupKey [Byte.x6b; Byte.x05] 9)
      (make_BlockReader (Finish (add_all (new_BlockBuilder 3) demo_block_entries)).1) = Some r /\
    block_drain 8 r = Some (drop 5 demo_block_entries).
Proof.
  destruct (block_Seek_first_not_below 3 demo_block_entries (LookupKey [Byte.x6b; Byte.x05] 9) demo_block_small
    demo_block_sorted) as (r & H1 & _ & H2); [vm_compute; reflexivity|]. exists r. by split.
Defined.

(** ** Forged blocks *)

(** C39: The reader leaves a block only through the wrap-around of the bound
    check: if decoding an entry reads past the end of the block, the two
    lengths in the entry's header sum to at least [2 ^ 32]. *)
Theorem block_oob_only_by_wrap contents off r :
  size contents < 2 ^ 32 -> data_ r = Some contents ->
  0 <= off -> entries_size_ r <= size contents -> ParseEntryAt off r = None ->
  exists shared non_shared value_len p,
    parse_header (drop (Z.to_nat off) (take (Z.to_nat (entries_size_ r)) contents)) =
      Some (shared, non_shared, value_len, p) /\ 2 ^ 32 <= non_shared + value_len.
Proof.
  intros Hsz Hd Hoff Hes. unfold ParseEntryAt. zcase; [done|]. rewrite Hd. cbn [mbind option_bind].
  destruct (parse_header _) as [[[[sh ns] vl] p]|] eqn:Ep; [|done].
  intros Hnone. exists sh, ns, vl, p. split; [done|]. destruct (Z.le_gt_cases (2 ^ 32) (ns + vl)) as [|Hlt]; [done|].
  exfalso. unfold parse_header in Ep.
  destruct (GetVarint32Ptr _) as [[sh' p1]|] eqn:E1; [|done]. cbn [mbind option_bind] in Ep.
  destruct (GetVarint32Ptr p1) as [[ns' p2]|] eqn:E2; [|done]. cbn [mbind option_bind] in Ep.
  destruct (GetVarint32Ptr p2) as [[vl' p3]|] eqn:E3; [|done]. cbn [mbind option_bind] in Ep.
  injection Ep as -> -> -> ->. apply GetVarint32Ptr_inv in E2 as (_ & _ & _ & ?), E3 as (_ & _ & _ & ?).
  revert Hnone. rewrite u32_id by lia. destruct (Z.ltb_spec (size p) (ns + vl)); [done|].
  destruct (Z.ltb_spec (size (key_ r)) sh); [done|]. by zcase.
Qed.

Definition forged_block : bytes :=
  [Byte.x00; Byte.xff; Byte.xff; Byte.xff; Byte.xff; Byte.x0f; Byte.x01] ++ le_split 4 0 ++ le_split 4 1.

Lemma block_oob_only_by_wrap_witness :
  exists shared non_shared value_len p,
    parse_header (take 7 forged_block) = Some (shared, non_shared, value_len, p) /\ 2 ^ 32 <= non_shared + value_len.
Proof.
  apply (block_oob_only_by_wrap forged_block 0 (make_BlockReader forged_block));
    [vm_compute; reflexivity|vm_compute; reflexivity|lia|vm_compute; discriminate|vm_compute; reflexivity].
Defined.

