(* ===== verification/Heap.v ===== *)
(** * Binary min-heaps in a vector, as the merging iterator keeps them

    [SiftDown] and Floyd's construction of src/iterator.cpp, over any strict
    weak order [gt]. *)

From S2P Require Import Prelude.

(** The two stores that exchange slots [i] and [j]. *)
Definition exchange (h : list nat) (i j : nat) : list nat := <[i := h !!! j]> (<[j := h !!! i]> h).

Lemma exchange_perm_lt h i j : (i < j < length h)%nat -> exchange h i j ≡ₚ h.
Proof.
  intros Hij. destruct (lookup_lt_is_Some_2 h i ltac:(lia)) as [x Hx].
  destruct (lookup_lt_is_Some_2 h j ltac:(lia)) as [y Hy]. unfold exchange.
  rewrite (list_lookup_total_correct _ _ _ Hx), (list_lookup_total_correct _ _ _ Hy).
  pose proof (take_drop_middle h i x Hx) as Hh.
  assert (drop (S i) h !! (j - S i)%nat = Some y) as Hy' by (rewrite lookup_drop, <- Hy; f_equal; lia).
  pose proof (take_drop_middle _ _ _ Hy') as Hd. set (a := take i h) in *.
  set (b := take (j - S i) (drop (S i) h)) in *. set (c := drop (S (j - S i)) (drop (S i) h)) in *.
  assert (length a = i) as Ha by (unfold a; rewrite length_take; lia).
  assert (length b = (j - S i)%nat) as Hb by (unfold b; rewrite length_take, length_drop; lia).
  rewrite <- Hh, <- Hd. rewrite !insert_app_r_alt, !Ha by (rewrite ?length_app; lia).
  rewrite Nat.sub_diag. replace (j - i)%nat with (S (j - S i)) by lia.
  assert (forall n (z w : nat) l, <[S n := z]> (w :: l) = w :: <[n := z]> l) as HS by done.
  assert (forall (z w : nat) l, <[0%nat := z]> (w :: l) = z :: l) as H0 by done.
  rewrite HS, insert_app_r_alt, Hb, Nat.sub_diag, !H0 by lia.
  f_equiv. rewrite <- !Permutation_middle. apply Permutation_swap.
Qed.

Section Heap.
Context (gt : nat -> nat -> bool).
Hypothesis gt_asym : forall a b, gt a b = true -> gt b a = false.
Hypothesis gt_weak : forall a b c, gt a c = true -> gt a b = true \/ gt b c = true.

(** The loop: [slot] is in hand and its place [pos] is free. *)
Fixpoint sift_loop (fuel pos slot : nat) (h : list nat) : list nat :=
  match fuel with
  | O => <[pos := slot]> h
  | S fuel =>
      let n := length h in
      let left_ := (2 * pos + 1)%nat in
      if (n <=? left_)%nat then <[pos := slot]> h
      else
        let right_ := S left_ in
        let smallest :=
          if (right_ <? n)%nat && gt (h !!! left_) (h !!! right_) then right_ else left_ in
        if negb (gt slot (h !!! smallest)) then <[pos := slot]> h
        else sift_loop fuel smallest slot (<[pos := h !!! smallest]> h)
  end.

(** Each turn at least doubles [pos]. *)
Definition SiftDown (pos : nat) (h : list nat) : list nat := sift_loop (length h) pos (h !!! pos) h.

(** [for (size_t i = heap_.size() / 2; i-- > 0;) SiftDown(i)]. *)
Definition Heapify (h : list nat) : list nat :=
  foldr (fun i h => SiftDown i h) h (seq 0 (length h / 2)).

Definition child (i c : nat) : Prop := c = (2 * i + 1)%nat \/ c = (2 * i + 2)%nat.

(** Heap order at and below [start]. *)
Definition heap_from (start : nat) (h : list nat) : Prop :=
  forall i c, (start <= i)%nat -> child i c -> (c < length h)%nat -> gt (h !!! i) (h !!! c) = false.

(** Heap order everywhere but at the free place, whose parent is below its
    children. *)
Definition heap_but (start pos : nat) (h : list nat) : Prop :=
  (forall i c, (start <= i)%nat -> i <> pos -> child i c -> (c < length h)%nat ->
     gt (h !!! i) (h !!! c) = false) /\
  (forall i c, (start <= i)%nat -> child i pos -> child pos c -> (c < length h)%nat ->
     gt (h !!! i) (h !!! c) = false).

Lemma heap_but_place start pos slot h :
  (pos < length h)%nat -> heap_but start pos (<[pos := slot]> h) ->
  (forall c, child pos c -> (c < length h)%nat -> gt slot (h !!! c) = false) ->
  heap_from start (<[pos := slot]> h).
Proof.
  intros Hp [H1 _] Hs i c Hi Hc Hl. rewrite length_insert in Hl.
  destruct (decide (i = pos)) as [->|Hne]; [|apply H1; [done|done|done|by rewrite length_insert]].
  rewrite list_lookup_total_insert_eq by done.
  rewrite list_lookup_total_insert_ne by (unfold child in Hc; lia). by apply Hs.
Qed.

(** Moving the smaller child up keeps the invariant, one level further down. *)
Lemma heap_but_step start pos slot h s o :
  (start <= pos)%nat -> (pos < length h)%nat -> (s < length h)%nat -> child pos s ->
  (forall c, child pos c -> (c < length h)%nat -> c = s \/ c = o) ->
  ((o < length h)%nat -> gt (h !!! s) (h !!! o) = false) -> gt slot (h !!! s) = true ->
  heap_but start pos (<[pos := slot]> h) ->
  heap_but start s (<[s := slot]> (<[pos := h !!! s]> h)).
Proof.
  intros Hst Hp Hs Hcs Hco Ho Hgt [H1 H2].
  assert (s <> pos) as Hsp by (unfold child in Hcs; lia).
  assert (forall k, (k < length h)%nat -> <[s := slot]> (<[pos := h !!! s]> h) !!! k =
    if decide (k = s) then slot else if decide (k = pos) then h !!! s else h !!! k) as Hl.
  { intros k Hk. repeat case_decide; subst;
      rewrite ?list_lookup_total_insert_eq, ?list_lookup_total_insert_ne by (rewrite ?length_insert; done || lia); try done.
    by rewrite list_lookup_total_insert_eq. }
  assert (forall k, (k < length h)%nat -> <[pos := slot]> h !!! k = if decide (k = pos) then slot else h !!! k) as Hl'.
  { intros k Hk. case_decide; subst; [by rewrite list_lookup_total_insert_eq|by rewrite list_lookup_total_insert_ne]. }
  assert (forall i c, child i c -> (c < length h)%nat -> (i < length h)%nat) as Hlt by (unfold child; lia).
  split; intros i c Hi; rewrite !length_insert in *.
  - intros Hne Hc Hcl. pose proof (Hlt i c Hc Hcl). rewrite !Hl by done. rewrite (decide_False (P := i = s)) by done.
    destruct (decide (i = pos)) as [->|Hip].
    + destruct (Hco c Hc Hcl) as [->| ->]; [rewrite decide_True by done; by apply gt_asym|].
      case_decide; [by apply gt_asym|]. rewrite decide_False by (unfold child in Hc; lia). by apply Ho.
    + rewrite (decide_False (P := c = s)) by (unfold child in *; lia). case_decide as Hcp.
      * subst c. pose proof (H2 i s Hi Hc Hcs) as Hq. rewrite !Hl' in Hq by done.
        rewrite !decide_False in Hq by done. by apply Hq.
      * pose proof (H1 i c Hi Hip Hc) as Hq. rewrite !Hl' in Hq by done.
        rewrite !decide_False in Hq by done. by apply Hq.
  - intros Hc1 Hc2 Hcl. assert (i = pos) as -> by (unfold child in *; lia).
    rewrite !Hl by (done || eapply Hlt; eauto).
    rewrite (decide_False (P := pos = s)), decide_True by done.
    rewrite !decide_False by (unfold child in *; lia).
    pose proof (H1 s c ltac:(unfold child in Hcs; lia) Hsp Hc2) as Hq. rewrite !Hl' in Hq by done.
    rewrite !decide_False in Hq by (unfold child in *; lia). by apply Hq.
Qed.

Lemma sift_loop_spec start fuel : forall pos slot h,
  (start <= pos < length h)%nat -> (length h - pos <= fuel)%nat ->
  heap_but start pos (<[pos := slot]> h) ->
  heap_from start (sift_loop fuel pos slot h) /\ sift_loop fuel pos slot h ≡ₚ <[pos := slot]> h.
Proof.
  induction fuel as [|fuel IH]; intros pos slot h Hpos Hf Hb; [lia|]. cbn [sift_loop].
  set (l := (2 * pos + 1)%nat). destruct (Nat.leb_spec (length h) l) as [Hend|Hl].
  { split; [|done]. apply heap_but_place; [lia|done|]. unfold child. intros; lia. }
  set (r := S l). set (s := if (r <? length h)%nat && gt (h !!! l) (h !!! r) then r else l).
  set (o := if (r <? length h)%nat && gt (h !!! l) (h !!! r) then l else r).
  assert (child pos s /\ (s < length h)%nat /\ (forall c, child pos c -> (c < length h)%nat -> c = s \/ c = o) /\
    ((o < length h)%nat -> gt (h !!! s) (h !!! o) = false)) as (Hcs & Hs & Hco & Ho).
  { unfold s, o, child. destruct (Nat.ltb_spec r (length h)) as [Hr|Hr]; cbn [andb].
    - destruct (gt (h !!! l) (h !!! r)) eqn:E; split_and!; try lia; intros; [by apply gt_asym|done].
    - split_and!; try lia. }
  destruct (gt slot (h !!! s)) eqn:Egt; cbn [negb].
  - assert (s <> pos) as Hsp by (unfold child in Hcs; lia).
    destruct (IH s slot (<[pos := h !!! s]> h)) as [G1 G2].
    { rewrite length_insert. unfold child in Hcs. lia. }
    { rewrite length_insert. unfold child in Hcs. lia. }
    { apply (heap_but_step start pos slot h s o); try done; lia. }
    split; [done|]. rewrite G2.
    assert (<[s := slot]> (<[pos := h !!! s]> h) = exchange (<[pos := slot]> h) pos s) as ->.
    { unfold exchange. rewrite list_lookup_total_insert_eq, list_lookup_total_insert_ne by (done || lia).
      rewrite (list_insert_insert_ne _ pos s) by done. rewrite list_insert_insert_eq. done. }
    apply exchange_perm_lt. rewrite length_insert. unfold child in Hcs. lia.
  - split; [|done]. apply heap_but_place; [lia|done|]. intros c Hc Hcl.
    destruct (Hco c Hc Hcl) as [->| ->]; [done|].
    apply not_true_iff_false. intros Ht. destruct (gt_weak _ (h !!! s) _ Ht) as [|H]; [congruence|].
    by rewrite Ho in H.
Qed.

Lemma SiftDown_spec start h :
  (start < length h)%nat -> heap_from (S start) h ->
  heap_from start (SiftDown start h) /\ SiftDown start h ≡ₚ h.
Proof.
  intros Hs Hh. destruct (lookup_lt_is_Some_2 h start Hs) as [x Hx].
  assert (<[start := h !!! start]> h = h) as Hid.
  { apply list_insert_id. by rewrite (list_lookup_total_correct _ _ _ Hx). }
  unfold SiftDown. destruct (sift_loop_spec start (length h) start (h !!! start) h) as [G1 G2]; [lia|lia| |].
  - rewrite Hid. split.
    + intros i c Hi Hne. apply Hh. lia.
    + unfold child. intros; lia.
  - rewrite Hid in G2. done.
Qed.

Lemma Heapify_from k : forall a h,
  (a + k = length h / 2)%nat ->
  heap_from a (foldr (fun i h => SiftDown i h) h (seq a k)) /\
  foldr (fun i h => SiftDown i h) h (seq a k) ≡ₚ h.
Proof.
  induction k as [|k IH]; intros a h Ha; cbn [seq foldr].
  - split; [|done]. intros i c Hi Hc Hl. unfold child in Hc.
    pose proof (Nat.div_mod_eq (length h) 2). pose proof (Nat.mod_upper_bound (length h) 2). lia.
  - destruct (IH (S a) h ltac:(lia)) as [G1 G2]. pose proof (Permutation_length G2) as Hl.
    destruct (SiftDown_spec a (foldr (fun i h => SiftDown i h) h (seq (S a) k))) as [F1 F2];
      [|done|split; [done|by rewrite F2]].
    rewrite Hl. pose proof (Nat.Div0.div_le_upper_bound (length h) 2 (length h) ltac:(lia)).
    pose proof (Nat.div_mod_eq (length h) 2). lia.
Qed.

Lemma Heapify_spec h : heap_from 0 (Heapify h) /\ Heapify h ≡ₚ h.
Proof. by apply Heapify_from. Qed.

(** The root of a heap is minimal. *)
Lemma heap_root_min h i : heap_from 0 h -> (i < length h)%nat -> gt (h !!! 0%nat) (h !!! i) = false.
Proof.
  intros Hh. induction i as [i IH] using lt_wf_ind. intros Hi.
  destruct i as [|i]. { apply not_true_iff_false. intros H. pose proof (gt_asym _ _ H). congruence. }
  set (p := (i / 2)%nat). pose proof (Nat.div_mod_eq i 2). pose proof (Nat.mod_upper_bound i 2 ltac:(lia)).
  assert (child p (S i)) as Hc by (unfold child, p; lia).
  apply not_true_iff_false. intros H'. destruct (gt_weak _ (h !!! p) _ H') as [Hg|Hg].
  - rewrite IH in Hg; [done| |]; unfold p; lia.
  - rewrite (Hh p (S i)) in Hg; [done|lia|done|done].
Qed.

(** Two orders that agree on a heap's elements below its root agree on the heap
    order there. *)
Lemma heap_from_1_ext gt' h :
  (forall a b, a ∈ tail h -> b ∈ tail h -> gt' a b = gt a b) ->
  heap_from 0 h ->
  forall i c, (1 <= i)%nat -> child i c -> (c < length h)%nat -> gt' (h !!! i) (h !!! c) = false.
Proof.
  intros He Hh i c Hi Hc Hl. destruct h as [|x h]; [simpl in Hl; lia|].
  assert (forall k, (1 <= k < length (x :: h))%nat -> (x :: h) !!! k ∈ h) as Hin.
  { intros [|k] Hk; [lia|]. simpl in Hk. change ((x :: h) !!! S k) with (h !!! k).
    apply list_elem_of_lookup_total_2. lia. }
  rewrite He; [apply Hh; [lia|done|done]|apply Hin; unfold child in Hc; lia..].
Qed.

End Heap.
