(* ===== verification/Merge.v ===== *)
(** * The merging iterator (src/iterator.cpp)

    An N-way merge over a binary min-heap of child cursors. It is verified
    against the iterator interface: whatever its children are, if each meets the
    interface over a sorted run, so does the merge over the runs' merge, with
    equal keys in child order. *)

From S2P Require Import Prelude Coding InternalKey Versions Iterator Heap.

Section MergingIterator.
Context {W I : Type} {ops : Iterator W I}.

Record MergingIterator := mkMergingIterator {
  children_ : list I;
  heap_ : list nat  (** indices of the valid children *)
}.

Definition NewMergingIterator (children : list I) : MergingIterator := mkMergingIterator children [].

(** The key of a child that is not there is never read. *)
Definition child_key (cs : list I) (i : nat) : bytes :=
  match cs !! i with Some c => key c | None => [] end.

Definition child_valid (cs : list I) (i : nat) : bool :=
  match cs !! i with Some c => Valid c | None => false end.

Definition Greater (cs : list I) (a b : nat) : bool :=
  let c := CompareInternalKey (child_key cs a) (child_key cs b) in
  if negb (c =? 0) then 0 <? c else (b <? a)%nat.

Definition BuildHeap (cs : list I) : list nat :=
  Heapify (Greater cs) (filter (fun i => child_valid cs i = true) (seq 0 (length cs))).

(** [for (auto& child : children_) f(child)]. *)
Fixpoint each (f : I -> W -> I * W) (cs : list I) (w : W) : list I * W :=
  match cs with
  | [] => ([], w)
  | c :: cs =>
      let '(c, w) := f c w in
      let '(cs, w) := each f cs w in
      (c :: cs, w)
  end.

Definition m_Valid (it : MergingIterator) : bool := negb (bool_decide (heap_ it = [])).

Definition m_SeekToFirst (it : MergingIterator) (w : W) : MergingIterator * W :=
  let '(cs, w) := each SeekToFirst (children_ it) w in
  (mkMergingIterator cs (BuildHeap cs), w).

Definition m_Seek (target : bytes) (it : MergingIterator) (w : W) : MergingIterator * W :=
  let '(cs, w) := each (Seek target) (children_ it) w in
  (mkMergingIterator cs (BuildHeap cs), w).

(** [heap_.front() = heap_.back(); heap_.pop_back();]. *)
Definition drop_root (h : list nat) : list nat :=
  removelast (<[0%nat := default 0%nat (last h)]> h).

(** Stepping an invalid iterator is undefined; the caller checks [Valid]. *)
Definition m_Next (it : MergingIterator) (w : W) : MergingIterator * W :=
  match heap_ it with
  | [] => (it, w)
  | top :: _ =>
      match children_ it !! top with
      | None => (it, w)
      | Some c =>
          let '(c, w) := Next c w in
          let cs := <[top := c]> (children_ it) in
          if Valid c then (mkMergingIterator cs (SiftDown (Greater cs) 0 (heap_ it)), w)
          else
            let h := drop_root (heap_ it) in
            (mkMergingIterator cs (if bool_decide (h = []) then h else SiftDown (Greater cs) 0 h), w)
      end
  end.

Definition m_top (it : MergingIterator) : option I := match heap_ it with [] => None | i :: _ => children_ it !! i end.

Definition m_key (it : MergingIterator) : bytes := match m_top it with Some c => key c | None => [] end.
Definition m_value (it : MergingIterator) : bytes := match m_top it with Some c => value c | None => [] end.

(** The first child that is not [OK]. *)
Definition m_status (it : MergingIterator) : Status :=
  match filter (fun c => Status.ok (status c) = false) (children_ it) with
  | c :: _ => status c
  | [] => Status.OK
  end.

#[export] Instance Merging : Iterator W MergingIterator := {|
  Valid := m_Valid;
  SeekToFirst := m_SeekToFirst;
  Seek := m_Seek;
  Next := m_Next;
  key := m_key;
  value := m_value;
  status := m_status
|}.

End MergingIterator.

(** ** The merge of sorted runs *)

(** [a] goes before [b]: by key, then by the position of its run. *)
Definition goes_first (i : nat) (a : entry) (j : nat) (b : entry) : Prop :=
  a.1 ≺ b.1 \/ CompareInternalKey a.1 b.1 = 0 /\ (i <= j)%nat.

Definition first_run (runs : list (list entry)) (i : nat) (e : entry) : Prop :=
  forall j e' s', runs !! j = Some (e' :: s') -> goes_first i e j e'.

Inductive merges : list (list entry) -> list entry -> Prop :=
  | merges_nil runs : Forall (fun r => r = []) runs -> merges runs []
  | merges_cons runs i e s out :
      runs !! i = Some (e :: s) -> first_run runs i e -> merges (<[i := s]> runs) out ->
      merges runs (e :: out).

Lemma CompareInternalKey_eq_trans a b c :
  CompareInternalKey a b = 0 -> CompareInternalKey b c = 0 -> CompareInternalKey a c = 0.
Proof.
  intros H1 H2. pose proof (CompareInternalKey_antisym a b). pose proof (CompareInternalKey_antisym b c).
  pose proof (CompareInternalKey_antisym a c).
  assert (~ a ≺ c) by (intros Hac; assert (b ≺ c) by (eapply ik_le_lt_trans; [|exact Hac]; lia); lia).
  assert (~ c ≺ a) by (intros Hca; assert (b ≺ a) by (eapply ik_le_lt_trans; [|exact Hca]; lia); lia). lia.
Qed.

Lemma goes_first_antisym i a j b : goes_first i a j b -> goes_first j b i a -> i = j.
Proof.
  unfold goes_first. pose proof (CompareInternalKey_antisym a.1 b.1). lia.
Qed.

Lemma first_run_unique runs i e s j e' s' :
  runs !! i = Some (e :: s) -> runs !! j = Some (e' :: s') -> first_run runs i e -> first_run runs j e' -> i = j.
Proof. intros Hi Hj Fi Fj. eapply goes_first_antisym; [by eapply Fi|by eapply Fj]. Qed.

Lemma concat_tail_perm {A} (runs : list (list A)) i e s :
  runs !! i = Some (e :: s) -> e :: concat (<[i := s]> runs) ≡ₚ concat runs.
Proof.
  revert i. induction runs as [|r runs IH]; intros [|i] Hi; try done; simpl in *.
  - injection Hi as ->. done.
  - rewrite Permutation_middle. by rewrite (IH i Hi).
Qed.

(** The merge is a permutation of the runs. *)
Lemma merges_perm runs out : merges runs out -> out ≡ₚ concat runs.
Proof.
  induction 1 as [runs Hn|runs i e s out Hi Hf Hm IH].
  - induction Hn as [|r runs -> Hn IH]; [done|]. simpl. done.
  - rewrite IH. by apply concat_tail_perm.
Qed.

(** Weakly sorted: no entry is above a later one. *)
Definition entry_le (a b : entry) : Prop := ~ b.1 ≺ a.1.

Lemma entry_le_trans a b c : entry_le a b -> entry_le b c -> entry_le a c.
Proof. unfold entry_le. intros H1 H2 H3. apply H1. by eapply ik_le_lt_trans. Qed.

Lemma entry_lt_le a b : entry_lt a b -> entry_le a b.
Proof. unfold entry_lt, entry_le. pose proof (CompareInternalKey_antisym a.1 b.1). lia. Qed.

Lemma sorted_le es : sorted es -> StronglySorted entry_le es.
Proof.
  induction 1 as [|e es _ IH He]; constructor; [done|]. eapply Forall_impl; [exact He|]. intros x. apply entry_lt_le.
Qed.

Lemma sorted_insert_tail runs i e s :
  Forall sorted runs -> runs !! i = Some (e :: s) -> Forall sorted (<[i := s]> runs).
Proof.
  intros Hs Hi. apply Forall_insert; [done|]. eapply Forall_lookup_1 in Hs; [|exact Hi].
  by apply sorted_cons in Hs as [_ ?].
Qed.

(** What is first in a merge is first among all that is left. *)
Lemma first_run_le runs i e s x :
  Forall sorted runs -> runs !! i = Some (e :: s) -> first_run runs i e ->
  x ∈ concat (<[i := s]> runs) -> entry_le e x.
Proof.
  intros Hs Hi Hf Hx. apply list_elem_of_In, in_concat in Hx as (r & Hr & Hx).
  apply list_elem_of_In, list_elem_of_lookup in Hr as [j Hj]. apply list_elem_of_In in Hx.
  destruct (decide (j = i)) as [->|Hne].
  - rewrite list_lookup_insert_eq in Hj by (by apply lookup_lt_Some in Hi). injection Hj as <-.
    eapply Forall_lookup_1 in Hs; [|exact Hi]. apply sorted_cons in Hs as [Hlt _].
    rewrite Forall_forall in Hlt. by apply entry_lt_le, Hlt.
  - rewrite list_lookup_insert_ne in Hj by done. destruct r as [|y r]; [by apply elem_of_nil in Hx|].
    assert (entry_le e y) as Hey.
    { destruct (Hf j y r Hj) as [Hlt|[He _]]; [by apply entry_lt_le|]. unfold entry_le.
      pose proof (CompareInternalKey_antisym e.1 y.1). lia. }
    apply elem_of_cons in Hx as [->|Hx]; [done|]. eapply entry_le_trans; [done|].
    eapply Forall_lookup_1 in Hs; [|exact Hj]. apply sorted_cons in Hs as [Hlt _].
    rewrite Forall_forall in Hlt. by apply entry_lt_le, Hlt.
Qed.

Lemma merges_sorted runs out : merges runs out -> Forall sorted runs -> StronglySorted entry_le out.
Proof.
  induction 1 as [runs Hn|runs i e s out Hi Hf Hm IH]; intros Hs; [constructor|].
  constructor; [apply IH; by eapply sorted_insert_tail|].
  apply Forall_forall. intros x Hx. apply (first_run_le runs i e s); try done.
  by rewrite <- (merges_perm _ _ Hm).
Qed.

(** The newest version is the same in the merge as in the runs one after the
    other: equal tags are taken in the order of the runs in both. *)
Lemma newer_skip x e r : (forall y, x = Some y -> tag y < tag e) ->
  newer x (newer (Some e) r) = newer (Some e) (newer x r).
Proof.
  intros H. destruct x as [y|]; [|done]. specialize (H y eq_refl).
  destruct r as [z|]; simpl; repeat (zcase; simpl); done.
Qed.

Lemma first_run_before runs i e s j r x :
  Forall sorted runs -> runs !! i = Some (e :: s) -> first_run runs i e ->
  (j < i)%nat -> runs !! j = Some r -> x ∈ r -> e.1 ≺ x.1.
Proof.
  intros Hs Hi Hf Hji Hj Hx. destruct r as [|y r]; [by apply elem_of_nil in Hx|].
  destruct (Hf j y r Hj) as [Hlt|[_ ?]]; [|lia]. eapply Forall_lookup_1 in Hs; [|exact Hj].
  apply sorted_cons in Hs as [Hall _]. apply elem_of_cons in Hx as [->|Hx]; [done|].
  rewrite Forall_forall in Hall. eapply ik_lt_trans; [exact Hlt|by apply Hall].
Qed.

Lemma merges_newest runs out key seq :
  merges runs out -> Forall sorted runs -> newest out key seq = newest (concat runs) key seq.
Proof.
  induction 1 as [runs Hn|runs i e s out Hi Hf Hm IH]; intros Hs.
  { symmetry. apply newest_None, Forall_concat. eapply Forall_impl; [exact Hn|]. by intros ? ->. }
  specialize (IH (sorted_insert_tail _ _ _ _ Hs Hi)). cbn [newest]. rewrite IH.
  pose proof Hi as Hlt%lookup_lt_Some. rewrite insert_take_drop by done.
  rewrite <- (take_drop_middle runs i (e :: s) Hi) at 3. rewrite !concat_app, !newest_app. cbn [concat].
  rewrite <- !app_comm_cons. cbn [newest]. destruct (visible key seq e) eqn:Ev; [|done].
  symmetry. apply newer_skip. intros y Hy. apply newest_Some in Hy as (Hy & Hvy & _).
  apply visible_true in Hvy as [Hky _], Ev as [Hke _].
  apply list_elem_of_In, in_concat in Hy as (r & Hr & Hy). apply list_elem_of_In, list_elem_of_lookup in Hr as [j Hj].
  apply list_elem_of_In in Hy. apply lookup_take_Some in Hj as [Hj Hji].
  pose proof (first_run_before runs i e s j r y Hs Hi Hf Hji Hj Hy) as Hlt'.
  apply entry_lt_same_key in Hlt'; [done|congruence].
Qed.

(** Runs without a common key merge into a strictly sorted list. *)
Lemma merges_strict runs out :
  merges runs out -> Forall sorted runs -> NoDup (map fst out) -> Forall (fun e => ikey_wf e.1) out -> sorted out.
Proof.
  intros Hm Hs Hnd Hwf. pose proof (merges_sorted _ _ Hm Hs) as Hle. clear -Hnd Hwf Hle.
  induction Hle as [|e out Hle IH He]; [constructor|]. simpl in Hnd. apply NoDup_cons in Hnd as [Hn Hnd].
  apply Forall_cons in Hwf as [Hwe Hwf]. constructor; [by apply IH|].
  rewrite Forall_forall in *. intros x Hx. unfold entry_lt.
  assert (CompareInternalKey e.1 x.1 <> 0).
  { rewrite CompareInternalKey_eq by auto. intros Heq. apply Hn. rewrite Heq. by apply (list_elem_of_fmap_2 fst). }
  pose proof (CompareInternalKey_antisym e.1 x.1). pose proof (He x Hx) as Hle'. unfold entry_le in Hle'. lia.
Qed.

Lemma seek_cons e es target :
  seek (e :: es) target = if CompareInternalKey e.1 target <? 0 then seek es target else e :: es.
Proof. done. Qed.

(** Seeking in every run is seeking in the merge. *)
Lemma merges_seek runs out target :
  merges runs out -> Forall sorted runs -> merges (map (fun r => seek r target) runs) (seek out target).
Proof.
  induction 1 as [runs Hn|runs i e s out Hi Hf Hm IH]; intros Hs.
  - apply merges_nil, Forall_map. eapply Forall_impl; [exact Hn|]. intros r ->. done.
  - rewrite seek_cons. destruct (Z.ltb_spec (CompareInternalKey e.1 target) 0) as [Hlt|Hge].
    + specialize (IH (sorted_insert_tail _ _ _ _ Hs Hi)). rewrite list_fmap_insert in IH.
      replace (<[i := seek s target]> (map (fun r => seek r target) runs))
        with (map (fun r => seek r target) runs) in IH; [done|].
      symmetry. apply list_insert_id. rewrite list_lookup_fmap, Hi. simpl. rewrite seek_cons. by zcase.
    + replace (map (fun r => seek r target) runs) with runs; [by eapply merges_cons|].
      symmetry. rewrite <- (map_id runs) at 2. apply map_ext_in. intros r Hr.
      apply list_elem_of_In, list_elem_of_lookup in Hr as [j Hj]. destruct r as [|x r]; [done|].
      rewrite seek_cons. zcase; [|done]. exfalso. destruct (Hf j x r Hj) as [Hex|[Hex _]].
      * pose proof (ik_lt_trans _ _ _ Hex H). lia.
      * pose proof (CompareInternalKey_antisym e.1 x.1).
        assert (e.1 ≺ target) by (eapply ik_le_lt_trans; [|exact H]; lia). lia.
Qed.

Lemma first_run_exists runs :
  Forall (fun r => r = []) runs \/ exists i e s, runs !! i = Some (e :: s) /\ first_run runs i e.
Proof.
  induction runs as [|r runs IH] using rev_ind; [by left|].
  assert (forall j x r', (runs ++ [r]) !! j = Some (x :: r') ->
    runs !! j = Some (x :: r') \/ j = length runs /\ r = x :: r') as Hsplit.
  { intros j x r' [Hj|[Hge Hj]]%lookup_app_Some; [by left|]. apply list_lookup_singleton_Some in Hj as [Hz ->].
    right. split; [lia|done]. }
  destruct r as [|y r].
  - destruct IH as [IH|(i & e & s & Hi & Hf)]; [left; apply Forall_app; by repeat constructor|right].
    exists i, e, s. split; [by apply lookup_app_l_Some|]. intros j x r' [Hj|[_ ?]]%Hsplit; [by eapply Hf|done].
  - right. destruct IH as [IH|(i & e & s & Hi & Hf)].
    + exists (length runs), y, r. split; [by rewrite lookup_app_r, Nat.sub_diag by lia|].
      intros j x r' [Hj|[-> [= -> ->]]]%Hsplit.
      * rewrite Forall_forall in IH. by apply list_elem_of_lookup_2, IH in Hj.
      * right. split; [apply CompareInternalKey_refl|lia].
    + destruct (decide (y.1 ≺ e.1)) as [Hlt|Hge].
      * exists (length runs), y, r. split; [by rewrite lookup_app_r, Nat.sub_diag by lia|].
        intros j x r' [Hj|[-> [= -> ->]]]%Hsplit.
        -- left. destruct (Hf j x r' Hj) as [?|[He _]]; [by eapply ik_lt_trans|].
           eapply ik_lt_le_trans; [exact Hlt|]. pose proof (CompareInternalKey_antisym e.1 x.1). lia.
        -- right. split; [apply CompareInternalKey_refl|lia].
      * exists i, e, s. split; [by apply lookup_app_l_Some|]. intros j x r' [Hj|[-> [= -> ->]]]%Hsplit.
        -- by eapply Hf.
        -- apply lookup_lt_Some in Hi. unfold goes_first. pose proof (CompareInternalKey_antisym e.1 x.1). lia.
Qed.

Lemma merges_exists runs : exists out, merges runs out.
Proof.
  remember (length (concat runs)) as n eqn:Hn. revert runs Hn. induction n as [|n IH]; intros runs Hn.
  - exists []. apply merges_nil. apply Forall_forall. intros r Hr.
    apply list_elem_of_In in Hr. destruct r as [|x r]; [done|]. exfalso.
    assert (x ∈ concat runs) as Hx by (apply list_elem_of_In, in_concat; exists (x :: r); split; [done|by left]).
    destruct (concat runs); [by apply elem_of_nil in Hx|done].
  - destruct (first_run_exists runs) as [Hnil|(i & e & s & Hi & Hf)].
    + exists []. by apply merges_nil.
    + destruct (IH (<[i := s]> runs)) as [out Hout]; [|exists (e :: out); by eapply merges_cons].
      pose proof (concat_tail_perm runs i e s Hi) as Hp.
      apply Permutation_length in Hp. simpl in Hp. lia.
Qed.

(** ** The merging iterator meets the interface *)

Section Heaps.
Context {W I : Type} {ops : Iterator W I} (at_ : I -> list entry -> list entry -> Prop) {cur : Cursor ops at_}.

Lemma Greater_asym cs a b : Greater cs a b = true -> Greater cs b a = false.
Proof.
  unfold Greater. rewrite (CompareInternalKey_antisym (child_key cs a) (child_key cs b)).
  set (c := CompareInternalKey _ _). destruct (Z.eqb_spec c 0), (Z.eqb_spec (- c) 0); simpl;
    rewrite ?Z.ltb_lt, ?Z.ltb_ge, ?Nat.ltb_lt, ?Nat.ltb_ge; lia.
Qed.

Lemma Greater_spec cs a b :
  Greater cs a b = true <->
  child_key cs b ≺ child_key cs a \/ CompareInternalKey (child_key cs b) (child_key cs a) = 0 /\ (b < a)%nat.
Proof.
  unfold Greater. rewrite (CompareInternalKey_antisym (child_key cs b) (child_key cs a)).
  set (c := CompareInternalKey _ _). destruct (Z.eqb_spec (- c) 0); simpl; rewrite ?Z.ltb_lt, ?Nat.ltb_lt; lia.
Qed.

Lemma Greater_weak cs a b c : Greater cs a c = true -> Greater cs a b = true \/ Greater cs b c = true.
Proof.
  rewrite !Greater_spec. pose proof (CompareInternalKey_antisym (child_key cs a) (child_key cs b)) as A1.
  pose proof (CompareInternalKey_antisym (child_key cs b) (child_key cs c)) as A2.
  pose proof (CompareInternalKey_antisym (child_key cs a) (child_key cs c)) as A3.
  intros [Hlt|[Heq Hlt]].
  - destruct (decide (child_key cs b ≺ child_key cs a)); [tauto|].
    destruct (decide (CompareInternalKey (child_key cs b) (child_key cs a) = 0)) as [He|];
      [right; left|right; left].
    + eapply ik_lt_le_trans; [exact Hlt|lia].
    + eapply ik_lt_trans; [exact Hlt|lia].
  - destruct (decide (child_key cs b ≺ child_key cs a)) as [|H1]; [tauto|].
    destruct (decide (child_key cs c ≺ child_key cs b)) as [|H2]; [tauto|].
    assert (CompareInternalKey (child_key cs b) (child_key cs a) = 0) as Hba.
    { assert (~ child_key cs a ≺ child_key cs b); [|lia]. intros Hab.
      apply H2. eapply ik_le_lt_trans; [|exact Hab]. lia. }
    assert (CompareInternalKey (child_key cs c) (child_key cs b) = 0) as Hcb.
    { eapply CompareInternalKey_eq_trans; [exact Heq|]. lia. }
    destruct (decide (b < a)%nat); [left; right; done|right; right; split; [done|lia]].
Qed.

(** The heap holds the runs that have something left. *)
Definition heap_live (h : list nat) (sufs : list (list entry)) : Prop :=
  NoDup h /\ forall i, i ∈ h <-> exists e s, sufs !! i = Some (e :: s).

Definition merge_at (it : MergingIterator) (es suf : list entry) : Prop :=
  exists ess sufs, Forall3 at_ (children_ it) ess sufs /\ Forall sorted ess /\
    merges ess es /\ merges sufs suf /\ heap_live (heap_ it) sufs /\
    heap_from (Greater (children_ it)) 0 (heap_ it).

Lemma children_lookup cs ess sufs i e s :
  Forall3 at_ cs ess sufs -> sufs !! i = Some (e :: s) ->
  exists c es, cs !! i = Some c /\ ess !! i = Some es /\ at_ c es (e :: s) /\
    child_key cs i = e.1 /\ key c = e.1 /\ value c = e.2.
Proof.
  intros H3 Hi. destruct (Forall3_lookup_r _ _ _ _ _ _ H3 Hi) as (c & es & Hc & He & Hat).
  exists c, es. pose proof (cur_entry c es e s Hat) as Hkv. unfold child_key. rewrite Hc.
  apply (f_equal fst) in Hkv as Hk. apply (f_equal snd) in Hkv as Hv. done.
Qed.

(** [Greater] on live children is the order of the merge. *)
Lemma Greater_goes_first cs ess sufs i e s j e' s' :
  Forall3 at_ cs ess sufs -> sufs !! i = Some (e :: s) -> sufs !! j = Some (e' :: s') ->
  Greater cs i j = false -> goes_first i e j e'.
Proof.
  intros H3 Hi Hj Hg. destruct (children_lookup _ _ _ _ _ _ H3 Hi) as (_ & _ & _ & _ & _ & Hki & _).
  destruct (children_lookup _ _ _ _ _ _ H3 Hj) as (_ & _ & _ & _ & _ & Hkj & _).
  apply not_true_iff_false in Hg. rewrite Greater_spec, Hki, Hkj in Hg. unfold goes_first.
  pose proof (CompareInternalKey_antisym e.1 e'.1). lia.
Qed.

Lemma BuildHeap_spec cs ess sufs :
  Forall3 at_ cs ess sufs -> heap_live (BuildHeap cs) sufs /\ heap_from (Greater cs) 0 (BuildHeap cs).
Proof.
  intros H3. unfold BuildHeap.
  destruct (Heapify_spec (Greater cs) (Greater_asym cs) (Greater_weak cs)
    (filter (fun i => child_valid cs i = true) (seq 0 (length cs)))) as [G1 G2].
  split; [|done]. split; [rewrite G2; apply NoDup_filter, NoDup_seq|].
  intros i. rewrite G2, list_elem_of_filter, elem_of_seq. unfold child_valid. split.
  - intros [Hv Hi]. destruct (cs !! i) as [c|] eqn:Hc; [|done].
    destruct (Forall3_lookup_l _ _ _ _ _ _ H3 Hc) as (es & suf & He & Hs & Hat).
    rewrite (cur_valid c es suf Hat) in Hv. destruct suf as [|e s]; [done|eauto].
  - intros (e & s & Hs). destruct (Forall3_lookup_r _ _ _ _ _ _ H3 Hs) as (c & es & Hc & He & Hat).
    rewrite Hc, (cur_valid c es _ Hat). split; [done|]. apply lookup_lt_Some in Hc. lia.
Qed.

(** The root of the heap is the run the merge takes next. *)
Lemma root_is_next cs ess sufs top h e suf :
  Forall3 at_ cs ess sufs -> heap_live (top :: h) sufs -> heap_from (Greater cs) 0 (top :: h) ->
  merges sufs (e :: suf) ->
  exists s, sufs !! top = Some (e :: s) /\ merges (<[top := s]> sufs) suf.
Proof.
  intros H3 [Hnd Hlive] Hh Hm. inversion Hm as [|? i ? s ? Hi Hf Hrest]; subst.
  destruct (proj1 (Hlive top) ltac:(left)) as (e' & s' & Htop).
  assert (first_run sufs top e') as Hf'.
  { intros j x r Hj. assert (j ∈ top :: h) as Hin by (apply Hlive; eauto).
    apply list_elem_of_lookup in Hin as [k Hk].
    eapply Greater_goes_first; [exact H3|exact Htop|exact Hj|].
    pose proof (heap_root_min (Greater cs) (Greater_asym cs) (Greater_weak cs) (top :: h) k Hh) as Hmin.
    rewrite (list_lookup_total_correct _ _ _ Hk) in Hmin. apply Hmin. by apply lookup_lt_Some in Hk. }
  assert (i = top) as -> by (by eapply first_run_unique). rewrite Hi in Htop. injection Htop as <- <-. eauto.
Qed.

Lemma merges_nil_inv sufs : merges sufs [] -> forall i e s, sufs !! i <> Some (e :: s).
Proof.
  intros Hm. inversion Hm as [? Hn|]; subst. intros i e s Hi. by eapply Forall_lookup_1 in Hn; [|exact Hi].
Qed.

Lemma merge_heap_nil it es suf : merge_at it es suf -> heap_ it = [] <-> suf = [].
Proof.
  intros (ess & sufs & H3 & Hs & Hm & Hm' & [Hnd Hlive] & Hh). split.
  - intros Hnil. rewrite Hnil in Hlive. inversion Hm' as [|? i e s out Hi]; [done|]. exfalso.
    assert (i ∈ []) as Hin by (apply Hlive; eauto). by apply elem_of_nil in Hin.
  - intros ->. destruct (heap_ it) as [|i h]; [done|].
    destruct (proj1 (Hlive i) ltac:(left)) as (e & s & Hi). by apply merges_nil_inv with (i := i) (e := e) (s := s) in Hm'.
Qed.

Lemma Forall3_insert_at cs ess sufs i c es s :
  Forall3 at_ cs ess sufs -> ess !! i = Some es -> at_ c es s ->
  Forall3 at_ (<[i := c]> cs) ess (<[i := s]> sufs).
Proof.
  intros H3. revert i. induction H3 as [|? ? ? cs ess sufs ? H3 IH]; intros [|i] Hi Hat; try done; simpl in *.
  - injection Hi as ->. by constructor.
  - constructor; [done|]. by apply IH.
Qed.

Lemma child_key_insert_ne cs i c a : a <> i -> child_key (<[i := c]> cs) a = child_key cs a.
Proof. intros Hne. unfold child_key. by rewrite list_lookup_insert_ne. Qed.

(** Moving the root's cursor only disturbs the heap at the root. *)
Lemma heap_from_1_after cs top c h :
  NoDup (top :: h) -> heap_from (Greater cs) 0 (top :: h) ->
  heap_from (Greater (<[top := c]> cs)) 1 (top :: h).
Proof.
  intros [Hn Hnd]%NoDup_cons Hh i ch Hi Hc Hl.
  eapply (heap_from_1_ext (Greater cs)); [|exact Hh|done|done|done]. simpl. intros a b Ha Hb.
  unfold Greater. rewrite !child_key_insert_ne; [done|..]; intros ->; done.
Qed.

Lemma drop_root_cons top h b : drop_root (top :: h ++ [b]) = b :: h.
Proof.
  unfold drop_root. rewrite app_comm_cons, last_snoc. exact (removelast_last (b :: h) b).
Qed.

(** Restoring the heap after the root's run is exhausted. *)
Lemma drop_root_spec gt top h :
  (forall a b, gt a b = true -> gt b a = false) ->
  (forall a b c, gt a c = true -> gt a b = true \/ gt b c = true) ->
  heap_from gt 1 (top :: h) ->
  let h1 := drop_root (top :: h) in
  let h2 := if bool_decide (h1 = []) then h1 else SiftDown gt 0 h1 in
  heap_from gt 0 h2 /\ h2 ≡ₚ h.
Proof.
  intros Ha Hw Hh. destruct h as [|b h _] using rev_ind.
  - simpl. split; [|done]. intros i c _ _ Hl. simpl in Hl. lia.
  - rewrite drop_root_cons. cbn zeta. rewrite bool_decide_false by done.
    destruct (SiftDown_spec gt Ha Hw 0 (b :: h)) as [G1 G2]; [simpl; lia| |].
    + intros i c Hi Hc Hl. specialize (Hh i c Hi Hc). simpl in Hl, Hh. rewrite length_app in Hh. simpl in Hh.
      destruct i as [|i]; [lia|]. destruct c as [|c]; [unfold child in Hc; lia|].
      change ((b :: h) !!! S i) with (h !!! i). change ((b :: h) !!! S c) with (h !!! c).
      change ((top :: h ++ [b]) !!! S i) with ((h ++ [b]) !!! i) in Hh.
      change ((top :: h ++ [b]) !!! S c) with ((h ++ [b]) !!! c) in Hh.
      rewrite !lookup_total_app_l in Hh by (unfold child in Hc; lia). apply Hh. lia.
    + split; [done|]. rewrite G2. by rewrite Permutation_cons_append.
Qed.

(** A step moves the child at the root; wherever that child ends, the merge is
    over what is left. *)
Lemma m_Next_step it es e suf w :
  merge_at it es (e :: suf) ->
  exists sufs i c ces s, sufs !! i = Some (e :: s) /\ children_ it !! i = Some c /\ at_ c ces (e :: s) /\
    merges (<[i := s]> sufs) suf /\
    (m_Next it w).2 = (Next c w).2 /\ children_ (m_Next it w).1 = <[i := (Next c w).1]> (children_ it) /\
    (forall s' out, at_ (Next c w).1 ces s' -> merges (<[i := s']> sufs) out -> merge_at (m_Next it w).1 es out).
Proof.
  intros Hat. pose proof (merge_heap_nil it es (e :: suf) Hat) as Hnil.
  destruct Hat as (ess & sufs & H3 & Hs & Hm & Hm' & Hlive & Hh).
  unfold m_Next. destruct (heap_ it) as [|top h] eqn:Eh; [by destruct Hnil as [Hn _]; specialize (Hn eq_refl)|].
  destruct (root_is_next _ _ _ _ _ _ _ H3 Hlive Hh Hm') as (s & Htop & Hrest).
  destruct (children_lookup _ _ _ _ _ _ H3 Htop) as (c & ces & Hc & Hces & Hcat & _). rewrite Hc.
  exists sufs, top, c, ces, s. destruct (Next c w) as [c' w']. cbn [fst snd].
  split_and!; [done..|by destruct (Valid c')|by destruct (Valid c')|]. intros s' out Hcat' Hout.
  pose proof (Forall3_insert_at _ _ _ _ c' _ s' H3 Hces Hcat') as H3'.
  destruct Hlive as [Hnd Hlive]. pose proof (heap_from_1_after _ top c' h Hnd Hh) as Hh1.
  set (cs := <[top := c']> (children_ it)) in *.
  assert (forall i, i <> top -> <[top := s']> sufs !! i = sufs !! i) as Hother by (intros; by apply list_lookup_insert_ne).
  assert (<[top := s']> sufs !! top = Some s') as Hself by (apply list_lookup_insert_eq; by apply lookup_lt_Some in Htop).
  rewrite (cur_valid c' ces s' Hcat'). destruct s' as [|e' s']; simpl.
  - destruct (drop_root_spec (Greater cs) top h (Greater_asym cs) (Greater_weak cs) Hh1) as [G1 G2].
    exists ess, (<[top := []]> sufs). cbn [children_ heap_]. split_and!; try done.
    apply NoDup_cons in Hnd as [Hn Hnd]. split; [by rewrite G2|]. intros i. rewrite G2.
    destruct (decide (i = top)) as [->|Hne]; [rewrite Hself; naive_solver|].
    rewrite Hother by done. rewrite <- Hlive, elem_of_cons. naive_solver.
  - destruct (SiftDown_spec (Greater cs) (Greater_asym cs) (Greater_weak cs) 0 (top :: h)) as [G1 G2]; [simpl; lia|done|].
    exists ess, (<[top := e' :: s']> sufs). cbn [children_ heap_]. split_and!; try done.
    split; [by rewrite G2|]. intros i. rewrite G2.
    destruct (decide (i = top)) as [->|Hne]; [rewrite Hself; split; [eauto|by left]|].
    rewrite Hother by done. apply Hlive.
Qed.

(** A fresh merge over children that stand at the end. *)
Lemma new_merge_at cs ess :
  Forall2 (fun c es => at_ c es []) cs ess -> Forall sorted ess ->
  exists es, merge_at (NewMergingIterator cs) es [] /\ merges ess es.
Proof.
  intros H2 Hs. destruct (merges_exists ess) as [es Hm]. exists es. split; [|done].
  exists ess, (map (fun _ => []) ess). split_and!; try done.
  - clear -H2. induction H2; simpl; by constructor.
  - apply merges_nil, Forall_map, Forall_true. done.
  - split; [constructor|]. intros i. split; [by intros ?%elem_of_nil|]. intros (e & s & Hi).
    rewrite list_lookup_fmap in Hi. by destruct (ess !! i).
  - intros i c _ _ Hl. simpl in Hl. lia.
Qed.

Lemma merge_at_mono (at' : I -> list entry -> list entry -> Prop) it es suf :
  (forall it es suf, at_ it es suf -> at' it es suf) -> merge_at it es suf ->
  exists ess sufs, Forall3 at' (children_ it) ess sufs /\ Forall sorted ess /\ merges ess es /\ merges sufs suf /\
    heap_live (heap_ it) sufs /\ heap_from (Greater (children_ it)) 0 (heap_ it).
Proof.
  intros Himp (ess & sufs & H3 & Hrest). exists ess, sufs. split; [|done]. clear -H3 Himp.
  induction H3; constructor; auto.
Qed.

#[export] Instance Merging_cursor : Cursor Merging merge_at.
Proof.
  split.
  - intros it es suf Hat. simpl. unfold m_Valid. pose proof (merge_heap_nil it es suf Hat).
    by rewrite (bool_decide_ext (heap_ it = []) (suf = [])).
  - intros it es e suf Hat. pose proof (merge_heap_nil it es (e :: suf) Hat) as Hnil.
    destruct Hat as (ess & sufs & H3 & Hs & Hm & Hm' & Hlive & Hh). simpl. unfold m_key, m_value, m_top.
    destruct (heap_ it) as [|top h] eqn:Eh; [by destruct Hnil as [Hn _]; specialize (Hn eq_refl)|].
    destruct (root_is_next _ _ _ _ _ _ _ H3 Hlive Hh Hm') as (s & Htop & _).
    destruct (children_lookup _ _ _ _ _ _ H3 Htop) as (c & ces & -> & _ & _ & _ & -> & ->). by destruct e.
Qed.

End Heaps.

Section Correct.
Context {W I : Type} {ops : Iterator W I} (Winv : W -> Prop) (at_ : I -> list entry -> list entry -> Prop).
Context {spec : IteratorSpec ops Winv at_}.
Abbreviation merge_at := (merge_at at_).
#[local] Instance at_cursor : Cursor ops at_ := spec_cursor ops Winv at_ spec.

Lemma each_at (f : I -> W -> I * W) (g : list entry -> list entry) cs ess sufs w :
  (forall c es suf w, at_ c es suf -> Winv w -> at_ (f c w).1 es (g es) /\ Winv (f c w).2) ->
  Forall3 at_ cs ess sufs -> Winv w ->
  Forall3 at_ (each f cs w).1 ess (map g ess) /\ Winv (each f cs w).2.
Proof.
  intros Hf H3. revert w. induction H3 as [|c es suf cs ess sufs Hat H3 IH]; intros w Hw; [split; [constructor|done]|].
  simpl. destruct (Hf c es suf w Hat Hw) as [Ha Hw']. destruct (f c w) as [c' w']. simpl in *.
  destruct (IH w' Hw') as [H1 H2]. destruct (each f cs w') as [cs' w'']. simpl in *. split; [by constructor|done].
Qed.

Lemma m_Next_at it es e suf w :
  merge_at it es (e :: suf) -> Winv w -> merge_at (m_Next it w).1 es suf /\ Winv (m_Next it w).2.
Proof.
  intros Hat Hw. destruct (m_Next_step at_ it es e suf w Hat) as (sufs & i & c & ces & s & _ & _ & Hc & Hm' & -> & _ & Hm).
  destruct (at_next c ces e s w Hc Hw). eauto.
Qed.

#[export] Instance Merging_spec : IteratorSpec Merging Winv merge_at.
Proof.
  split.
  - apply (cur_valid (ops := Merging)).
  - intros it es suf (ess & sufs & H3 & _). simpl. unfold m_status.
    assert (Forall (fun c => status c = Status.OK) (children_ it)) as Hok.
    { clear -H3 spec. induction H3 as [|c ces cs ? ? ? Hat]; constructor; [by eapply at_status|done]. }
    clear H3. induction Hok as [|c l Hc Hl IH]; [done|].
    rewrite filter_cons_False; [exact IH|]. rewrite Hc. done.
  - apply (cur_entry (ops := Merging)).
  - intros it es e suf w. apply m_Next_at.
  - intros it es suf target w (ess & sufs & H3 & Hs & Hm & _) Hw Ht. simpl. unfold m_Seek.
    destruct (each_at (Seek target) (fun r => seek r target) _ _ _ w
      ltac:(intros; eapply at_seek; eauto) H3 Hw) as [H3' Hw'].
    destruct (each (Seek target) (children_ it) w) as [cs w']. simpl in *. split; [|done].
    destruct (BuildHeap_spec at_ _ _ _ H3'). exists ess, (map (fun r => seek r target) ess).
    split_and!; try done. by apply merges_seek.
  - intros it es suf w (ess & sufs & H3 & Hs & Hm & _) Hw. simpl. unfold m_SeekToFirst.
    destruct (each_at SeekToFirst (fun r => r) _ _ _ w ltac:(intros; eapply at_first; eauto) H3 Hw) as [H3' Hw'].
    destruct (each SeekToFirst (children_ it) w) as [cs w']. rewrite map_id in H3'. simpl in *. split; [|done].
    destruct (BuildHeap_spec at_ _ _ _ H3'). exists ess, ess. by split_and!.
Qed.

End Correct.

(** ** With reads that fail

    A child that breaks shows nothing more: the merge goes on over what the
    others still hold, and its status tells. *)

Definition cut_short (r' r : list entry) : Prop := r' = r \/ r' = [].

Lemma merges_cut_short runs out : merges runs out -> forall runs',
  Forall2 cut_short runs' runs -> exists out', merges runs' out' /\ sublist out' out.
Proof.
  induction 1 as [runs Hn|runs i e s out Hi Hf Hm IH]; intros runs' Hc.
  - exists []. split; [|done]. apply merges_nil. apply Forall_forall. intros r' Hr'.
    apply list_elem_of_lookup in Hr' as [j Hj]. destruct (Forall2_lookup_l _ _ _ _ _ Hc Hj) as (r & Hr & [->| ->]); [|done].
    by apply (Forall_lookup_1 _ _ _ _ Hn Hr).
  - destruct (Forall2_lookup_r _ _ _ _ _ Hc Hi) as (r' & Hi' & [->| ->]).
    + destruct (IH (<[i := s]> runs')) as (out' & Hm' & Hs); [apply Forall2_insert; [done|by left]|].
      exists (e :: out'). split; [|by apply sublist_skip]. eapply merges_cons; [exact Hi'| |done].
      intros j e' s' Hj. destruct (Forall2_lookup_l _ _ _ _ _ Hc Hj) as (r & Hr & [Heq|]); [|done]. subst r. by eapply Hf.
    + destruct (IH runs') as (out' & Hm' & Hs); [|exists out'; split; [done|by apply sublist_cons]].
      rewrite <- (list_insert_id runs' i [] Hi'). apply Forall2_insert; [done|by right].
Qed.

Section Faults.
Context {W I : Type} {ops : Iterator W I} (calm : Prop) (Wok : W -> Prop) (at_ : I -> list entry -> list entry -> Prop).
Context (broken : I -> Prop) {faults : IteratorFaults ops calm Wok at_ broken}.

(** A child where it should be, or broken. *)
Definition weakly (it : I) (es suf : list entry) : Prop := at_ it es suf \/ broken it /\ suf = [].

Lemma at_not_broken it es suf : at_ it es suf -> ~ broken it.
Proof. intros Hat Hb. pose proof (fault_status _ _ _ Hat). rewrite broken_status in *; done. Qed.

#[export] Instance weakly_cursor : Cursor ops weakly.
Proof.
  split.
  - intros it es suf [Hat|[Hb ->]]; [by eapply cur_valid|]. by rewrite broken_valid.
  - intros it es e suf [Hat|[_ ?]]; [by eapply cur_entry|done].
Qed.

Definition m_broken (it : MergingIterator) : Prop := Exists broken (children_ it).

Lemma each_first_weakly cs ess sufs : Forall3 at_ cs ess sufs -> forall w, Wok w ->
  let r := each SeekToFirst cs w in
  exists sufs', Forall3 weakly r.1 ess sufs' /\ Forall2 cut_short sufs' ess /\
    (sufs' = ess /\ ~ Exists broken r.1 \/ ~ calm /\ Exists broken r.1) /\ Wok r.2.
Proof.
  induction 1 as [|c es suf cs ess sufs Hat H3 IH]; intros w Hw.
  { exists []. split_and!; [constructor|constructor|left; split; [done|by inversion 1]|done]. }
  simpl. destruct (fault_first c es suf w Hat Hw) as [Hc Hw']. destruct (SeekToFirst c w) as [c' w']. simpl in Hc, Hw'.
  destruct (IH w' Hw') as (sufs' & H3' & Hcs & Hb & Hw''). destruct (each SeekToFirst cs w') as [cs' w'']. simpl in *.
  destruct Hc as [Hc|[Hn Hc]].
  - exists (es :: sufs'). split_and!; [constructor; [by left|done]|constructor; [by left|done]| |done].
    destruct Hb as [[-> Hnb]|[? ?]]; [left|right; split; [done|by right]]. split; [done|].
    rewrite Exists_cons. pose proof (at_not_broken _ _ _ Hc). tauto.
  - exists ([] :: sufs'). split_and!; [constructor; [by right|done]|constructor; [by right|done]| |done].
    right. split; [done|by left].
Qed.

Lemma weakly_first it es suf w :
  merge_at at_ it es suf -> Wok w ->
  let r := m_SeekToFirst it w in
  exists suf', merge_at weakly r.1 es suf' /\ sublist suf' es /\
    (suf' = es /\ ~ m_broken r.1 \/ ~ calm /\ m_broken r.1) /\ Wok r.2.
Proof.
  intros (ess & sufs & H3 & Hs & Hm & _) Hw. unfold m_SeekToFirst.
  destruct (each_first_weakly _ _ _ H3 w Hw) as (sufs' & H3' & Hc & Hb & Hw').
  destruct (each SeekToFirst (children_ it) w) as [cs w']. simpl in *.
  destruct (BuildHeap_spec weakly _ _ _ H3') as [Hl Hh].
  assert (exists suf', merges sufs' suf' /\ sublist suf' es /\ (suf' = es /\ ~ Exists broken cs \/ ~ calm /\ Exists broken cs))
    as (suf' & Hm' & Hsub & Hor).
  { destruct Hb as [[-> Hb]|Hb]; [exists es; split_and!; [done|done|by left]|].
    destruct (merges_cut_short _ _ Hm sufs' Hc) as (suf' & ? & ?). exists suf'. split_and!; [done|done|by right]. }
  exists suf'. split_and!; [|done|done|done]. exists ess, sufs'. by split_and!.
Qed.

(** A step consumes the entry shown, and perhaps more. *)
Lemma weakly_next it es e suf w :
  merge_at weakly it es (e :: suf) -> Wok w ->
  let r := m_Next it w in
  exists suf', merge_at weakly r.1 es suf' /\ sublist suf' suf /\
    (suf' = suf /\ (m_broken r.1 -> m_broken it) \/ ~ calm /\ m_broken r.1) /\ (m_broken it -> m_broken r.1) /\ Wok r.2.
Proof.
  intros Hat Hw.
  destruct (m_Next_step weakly it es e suf w Hat) as (sufs & i & c & ces & s & Hi & Hc & Hcat & Hrest & Hw2 & Hcs & Hm).
  destruct Hcat as [Hcat|[_ ?]]; [|done]. destruct (fault_next c ces e s w Hcat Hw) as [Hc' Hw'].
  cbv zeta. rewrite Hw2. unfold m_broken. rewrite Hcs.
  assert (Exists broken (children_ it) -> Exists broken (<[i := (Next c w).1]> (children_ it))) as Hkeep.
  { intros Hb. apply Exists_exists in Hb as (b & Hb & Hbb). apply Exists_exists. exists b. split; [|done].
    apply list_elem_of_lookup in Hb as [j Hj]. apply list_elem_of_lookup. exists j. rewrite list_lookup_insert_ne; [done|].
    intros ->. rewrite Hc in Hj. injection Hj as ->. pose proof (cur_valid b ces (e :: s) Hcat) as Hv.
    rewrite (broken_valid b Hbb) in Hv. done. }
  destruct Hc' as [Hc'|[Hn Hb]].
  { exists suf. split_and!; [eapply Hm; [by left|done]|done| |done|done]. left. split; [done|].
    intros Hb. apply Exists_exists in Hb as (b & Hb & Hbb). apply Exists_exists. exists b. split; [|done].
    apply list_elem_of_lookup in Hb as [j Hj]. apply list_elem_of_lookup. exists j.
    destruct (decide (j = i)) as [->|Hne]; [|by rewrite list_lookup_insert_ne in Hj].
    rewrite list_lookup_insert_eq in Hj by (by apply lookup_lt_Some in Hc). injection Hj as <-.
    by apply at_not_broken in Hc'. }
  destruct (merges_cut_short _ _ Hrest (<[i := []]> sufs)) as (suf' & Hm' & Hsub).
  { apply Forall2_lookup. intros j. destruct (decide (j = i)) as [->|Hne].
    - apply lookup_lt_Some in Hi. rewrite !list_lookup_insert_eq by done. constructor. by right.
    - rewrite !list_lookup_insert_ne by done. destruct (sufs !! j); constructor. by left. }
  exists suf'. split_and!; [eapply Hm; [by right|done]|done| |done|done]. right. split; [done|].
  apply Exists_exists. exists (Next c w).1. split; [|done]. apply list_elem_of_insert. by apply lookup_lt_Some in Hc.
Qed.

Lemma weakly_status it es suf :
  merge_at weakly it es suf -> Status.ok (m_status it) = true <-> ~ m_broken it.
Proof.
  intros (ess & sufs & H3 & _). unfold m_status, m_broken. clear -H3 faults.
  induction H3 as [|c es s cs ess sufs Hc H3 IH]; simpl; [split; [intros _ H; inversion H|done]|].
  rewrite Exists_cons. destruct Hc as [Hat|[Hb ->]].
  - rewrite filter_cons_False by (rewrite (fault_status _ _ _ Hat); done). rewrite IH.
    pose proof (at_not_broken _ _ _ Hat). tauto.
  - rewrite filter_cons_True by (by apply broken_status). rewrite (broken_status c Hb). split; [done|tauto].
Qed.

End Faults.

(** C14: The heap-based merge implements the iterator interface for any children
    that do: from the start it enumerates every entry of every child, in key
    order and with equal keys in child order, without an error; after a seek it
    enumerates exactly those not below the target. *)
Theorem merging_iterator_merges {W I} {ops : Iterator W I} (Winv : W -> Prop) at_
    {spec : IteratorSpec ops Winv at_} cs ess w :
  Forall2 (fun c es => at_ c es []) cs ess -> Forall sorted ess -> Winv w ->
  exists es, merges ess es /\ es ≡ₚ concat ess /\ StronglySorted entry_le es /\
    (let '(it, w1) := SeekToFirst (NewMergingIterator cs) w in
     (drain (S (length es)) it w1).1.1 = es /\ status (drain (S (length es)) it w1).1.2 = Status.OK) /\
    (forall target, size target < 2 ^ 32 ->
     let '(it, w1) := Seek target (NewMergingIterator cs) w in
     (drain (S (length es)) it w1).1.1 = seek es target /\
     status (drain (S (length es)) it w1).1.2 = Status.OK).
Proof.
  intros H2 Hs Hw. destruct (new_merge_at at_ cs ess H2 Hs) as (es & Hat & Hm). exists es.
  split_and!; [done|by apply merges_perm|by eapply merges_sorted| |].
  - destruct (at_first (ops := Merging) _ _ _ w Hat Hw) as [Ha Hw1].
    destruct (SeekToFirst (NewMergingIterator cs) w) as [it w1]. simpl in Ha, Hw1.
    destruct (drain_spec Winv (merge_at at_) (S (length es)) it es es w1 Ha Hw1 ltac:(lia)) as (D1 & D2 & _).
    split; [done|]. by eapply at_status.
  - intros target Ht. destruct (at_seek (ops := Merging) _ _ _ target w Hat Hw Ht) as [Ha Hw1].
    destruct (Seek target (NewMergingIterator cs) w) as [it w1]. simpl in Ha, Hw1.
    destruct (drain_spec Winv (merge_at at_) (S (length es)) it es (seek es target) w1 Ha Hw1) as (D1 & D2 & _).
    { destruct (seek_split es target) as (pre & Heq & _). apply (f_equal length) in Heq. rewrite length_app in Heq. lia. }
    split; [done|]. by eapply at_status.
Qed.

Definition demo_runs : list (list entry) :=
  [ [(EncodeInternalKey [Byte.x61] 9 kDeletion, []); (EncodeInternalKey [Byte.x63] 8 kValue, [Byte.x01])];
    [];
    [(EncodeInternalKey [Byte.x61] 3 kValue, [Byte.x02]); (EncodeInternalKey [Byte.x62] 2 kValue, [Byte.x03])] ].

Lemma merging_iterator_merges_witness :
  exists es, merges demo_runs es /\ length es = 4%nat.
Proof.
  destruct (merging_iterator_merges (W := unit) (fun _ => True) list_at
    (map (fun r => mkListIter r []) demo_runs) demo_runs tt) as (es & Hm & Hp & _).
  - repeat (constructor; [split; reflexivity|]). constructor.
  - repeat (constructor; [repeat (constructor; [|repeat (constructor; [vm_compute; reflexivity|]); constructor]); constructor|]).
    constructor.
  - exact Logic.I.
  - exists es. split; [exact Hm|]. apply Permutation_length in Hp. rewrite Hp. reflexivity.
Defined.

(** The heap at work on the runs of the example. *)
Example merging_iterator_runs :
  let '(it, w) := m_SeekToFirst (NewMergingIterator (map (fun r => mkListIter r []) demo_runs)) tt in
  map (fun e => ExtractSequence e.1) (drain 9 it w).1.1 = [9; 3; 2; 8].
Proof. vm_compute. reflexivity. Qed.
