(* ===== verification/DbIter.v ===== *)
(** * The user-facing iterator ([DBIter] of src/db.cpp)

    Collapses a stream of internal keys into live user keys at a sequence:
    newest visible version of each key, deleted keys hidden. It is verified
    against the iterator interface of the stream below it, and against the
    specification of point reads: a scan returns exactly what [Get] would for
    every key, in key order. *)

From S2P Require Import Prelude Coding InternalKey Versions Iterator Merge.

Section DBIter.
Context {W I : Type} {ops : Iterator W I}.

Record DBIter := mkDBIter {
  inner_ : I;
  seq_ : Z;
  returned_count_ : Z;
  skipped_count_ : Z;
  key_ : bytes;
  value_ : bytes;
  valid_ : bool
}.

Definition new_DBIter (inner : I) (seq : Z) : DBIter := mkDBIter inner seq 0 0 [] [] false.

(** [inner_->Next(); ++skipped_count_;]. *)
Definition skip_inner (it : DBIter) (w : W) : DBIter * W :=
  let '(inner, w) := Next (inner_ it) w in
  (mkDBIter inner (seq_ it) (returned_count_ it) (skipped_count_ it + 1) (key_ it) (value_ it) (valid_ it), w).

(** The fuel of the two loops bounds the entries the stream has left. *)
Fixpoint SkipRestOfCurrentKey (fuel : nat) (it : DBIter) (w : W) : DBIter * W :=
  match fuel with
  | O => (it, w)
  | S fuel =>
      if Valid (inner_ it) && sv_eqb (ExtractUserKey (key (inner_ it))) (key_ it) then
        let '(it, w) := skip_inner it w in SkipRestOfCurrentKey fuel it w
      else (it, w)
  end.

Fixpoint AdvanceToNextLiveKey (fuel : nat) (it : DBIter) (w : W) : DBIter * W :=
  match fuel with
  | O => (it, w)
  | S fuel' =>
      if Valid (inner_ it) then
        let ikey := key (inner_ it) in
        if seq_ it <? ExtractSequence ikey then
          let '(it, w) := skip_inner it w in AdvanceToNextLiveKey fuel' it w
        else
          let it := mkDBIter (inner_ it) (seq_ it) (returned_count_ it) (skipped_count_ it)
                      (ExtractUserKey ikey) (value_ it) (valid_ it) in
          if ExtractValueType ikey =? type_code kDeletion then
            let '(it, w) := SkipRestOfCurrentKey fuel it w in AdvanceToNextLiveKey fuel' it w
          else
            (mkDBIter (inner_ it) (seq_ it) (returned_count_ it + 1) (skipped_count_ it)
               (key_ it) (value (inner_ it)) true, w)
      else
        (mkDBIter (inner_ it) (seq_ it) (returned_count_ it) (skipped_count_ it) (key_ it) (value_ it) false, w)
  end.

Definition with_inner (it : DBIter) (inner : I) : DBIter :=
  mkDBIter inner (seq_ it) (returned_count_ it) (skipped_count_ it) (key_ it) (value_ it) (valid_ it).

Definition d_SeekToFirst (fuel : nat) (it : DBIter) (w : W) : DBIter * W :=
  let '(inner, w) := SeekToFirst (inner_ it) w in
  AdvanceToNextLiveKey fuel (with_inner it inner) w.

Definition d_Seek (fuel : nat) (target : bytes) (it : DBIter) (w : W) : DBIter * W :=
  let lookup := make_LookupKeyBuffer target (seq_ it) kValue in
  let '(inner, w) := Seek (lookup_buffer_key lookup) (inner_ it) w in
  AdvanceToNextLiveKey fuel (with_inner it inner) w.

Definition d_Next (fuel : nat) (it : DBIter) (w : W) : DBIter * W :=
  let '(it, w) := SkipRestOfCurrentKey fuel it w in AdvanceToNextLiveKey fuel it w.

Definition d_status (it : DBIter) : Status := status (inner_ it).

End DBIter.

(** ** Live keys of a stream *)

Definition other_key (k : bytes) (es : list entry) : list entry :=
  drop_while (fun e => sv_eqb (user_key e) k) es.

(** The rows of a scan, computed from the whole stream; the fuel bounds its length. *)
Fixpoint live (fuel : nat) (seq : Z) (es : list entry) : list (bytes * bytes) :=
  match fuel, es with
  | S fuel, e :: es =>
      if seq <? sequence e then live fuel seq es
      else
        let rest := live fuel seq (other_key (user_key e) es) in
        if is_deletion e then rest else (user_key e, e.2) :: rest
  | _, _ => []
  end.

Definition rows (seq : Z) (es : list entry) : list (bytes * bytes) := live (length es) seq es.

Lemma other_key_length k es : (length (other_key k es) <= length es)%nat.
Proof.
  destruct (drop_while_suffix (fun e : entry => sv_eqb (user_key e) k) es) as (pre & Heq & _).
  unfold other_key. rewrite Heq at 2. rewrite length_app. lia.
Qed.

Lemma live_fuel seq fuel : forall fuel' es,
  (length es <= fuel)%nat -> (length es <= fuel')%nat -> live fuel seq es = live fuel' seq es.
Proof.
  induction fuel as [|fuel IH]; intros [|fuel'] [|e es] H1 H2; try done; simpl in *; try lia.
  pose proof (other_key_length (user_key e) es).
  by rewrite (IH fuel' es), (IH fuel' (other_key (user_key e) es)) by lia.
Qed.

Lemma rows_cons seq e es :
  rows seq (e :: es) =
    if seq <? sequence e then rows seq es
    else if is_deletion e then rows seq (other_key (user_key e) es)
    else (user_key e, e.2) :: rows seq (other_key (user_key e) es).
Proof.
  unfold rows at 1. cbn [length live]. pose proof (other_key_length (user_key e) es).
  unfold rows. by rewrite (live_fuel seq (length es) (length (other_key (user_key e) es)) (other_key (user_key e) es)) by lia.
Qed.

(** ** Rows are reads *)

Section Rows.
Context (seq : Z).

Lemma entry_le_user a b : entry_le a b -> sv_compare (user_key a) (user_key b) <= 0.
Proof.
  unfold entry_le, user_key. rewrite CompareInternalKey_lt.
  pose proof (sv_compare_antisym (ExtractUserKey a.1) (ExtractUserKey b.1)). lia.
Qed.

Lemma entry_le_tag a b : entry_le a b -> user_key a = user_key b -> tag b <= tag a.
Proof.
  unfold entry_le, user_key, tag. rewrite CompareInternalKey_lt. intros H1 H2.
  destruct (Z.le_gt_cases (ExtractTag b.1) (ExtractTag a.1)); [done|]. exfalso. apply H1. right. by split; [|lia].
Qed.

(** After a key's versions only greater keys follow. *)
Lemma other_key_above e es :
  StronglySorted entry_le (e :: es) ->
  Forall (fun x => sv_compare (user_key e) (user_key x) < 0) (other_key (user_key e) es) /\
  StronglySorted entry_le (other_key (user_key e) es).
Proof.
  intros Hs. apply StronglySorted_inv in Hs as [Hs He].
  destruct (drop_while_suffix (fun x : entry => sv_eqb (user_key x) (user_key e)) es) as (pre & Heq & _).
  fold (other_key (user_key e) es) in Heq.
  assert (StronglySorted entry_le (other_key (user_key e) es)) as Hs'.
  { rewrite Heq in Hs. clear -Hs. induction pre as [|x pre IH]; [done|]. by apply StronglySorted_inv in Hs as [? _]; apply IH. }
  split; [|done]. destruct (other_key (user_key e) es) as [|y rest] eqn:Ey; [constructor|].
  assert (sv_compare (user_key e) (user_key y) < 0) as Hy.
  { pose proof Ey as Hne. apply drop_while_head in Hne. apply sv_eqb_false in Hne.
    rewrite Forall_forall in He. assert (y ∈ es) as Hin by (rewrite Heq; set_solver).
    pose proof (entry_le_user _ _ (He y Hin)). assert (sv_compare (user_key e) (user_key y) <> 0); [|lia].
    rewrite sv_compare_eq. congruence. }
  constructor; [done|]. apply StronglySorted_inv in Hs' as [_ Hr]. rewrite Forall_forall in *. intros x Hx.
  pose proof (entry_le_user _ _ (Hr x Hx)) as Hyx.
  destruct (decide (sv_compare (user_key y) (user_key x) = 0)) as [Hz|];
    [apply sv_compare_eq in Hz; by rewrite <- Hz|]. eapply sv_compare_lt_trans; [done|lia].
Qed.

Lemma newest_other_key k es key s :
  k <> key -> newest (other_key k es) key s = newest es key s.
Proof.
  intros Hne. induction es as [|e es IH]; [done|]. unfold other_key. simpl.
  destruct (sv_eqb (user_key e) k) eqn:E; [|done]. apply sv_eqb_true in E.
  assert (visible key s e = false) as ->; [|exact IH].
  apply not_true_iff_false. rewrite visible_true. intros [? _]. congruence.
Qed.

(** A first version that is visible is the newest one. *)
Lemma newest_head e es :
  StronglySorted entry_le (e :: es) -> sequence e <= seq -> newest (e :: es) (user_key e) seq = Some e.
Proof.
  intros Hs Hv. apply StronglySorted_inv in Hs as [_ He]. simpl.
  assert (visible (user_key e) seq e = true) as -> by (by apply visible_true).
  destruct (newest es (user_key e) seq) as [x|] eqn:Ex; [|done]. simpl.
  apply newest_Some in Ex as (Hin & [Hk _]%visible_true & _). rewrite Forall_forall in He.
  pose proof (entry_le_tag _ _ (He x Hin) (eq_sym Hk)). by zcase.
Qed.

Lemma newest_absent es key s :
  Forall (fun x => user_key x <> key) es -> newest es key s = None.
Proof.
  intros H. apply newest_None. eapply Forall_impl; [exact H|]. intros x Hx.
  apply not_true_iff_false. rewrite visible_true. by intros [? _].
Qed.

(** Membership in the rows is what a point read answers. *)
Lemma rows_read es k v :
  StronglySorted entry_le es -> (k, v) ∈ rows seq es <-> read es k seq = Some (Some v).
Proof.
  remember (length es) as n eqn:Hn. revert es Hn. induction n as [n IH] using lt_wf_ind. intros es Hn Hs.
  destruct es as [|e es]; [split; [by intros ?%elem_of_nil|done]|]. simpl in Hn. rewrite rows_cons.
  destruct (other_key_above e es Hs) as [Habove Hs']. pose proof (other_key_length (user_key e) es) as Hlen.
  destruct (Z.ltb_spec seq (sequence e)) as [Hinv|Hvis].
  - rewrite (IH (length es)); [|lia|done|by apply StronglySorted_inv in Hs as [? _]]. unfold read. simpl.
    assert (visible k seq e = false) as ->; [|done]. apply not_true_iff_false. rewrite visible_true. lia.
  - pose proof (IH (length (other_key (user_key e) es)) ltac:(lia) _ eq_refl Hs') as IHr.
    destruct (decide (k = user_key e)) as [->|Hne].
    + assert (newest (other_key (user_key e) es) (user_key e) seq = None) as Hnone.
      { apply newest_absent. eapply Forall_impl; [exact Habove|]. simpl. intros x Hx Heq.
        rewrite Heq, sv_compare_refl in Hx. lia. }
      unfold read in *. rewrite newest_head by (done || lia). rewrite Hnone in IHr. simpl in *. unfold answer.
      destruct (is_deletion e); [rewrite IHr; split; done|]. rewrite elem_of_cons, IHr.
      split; [intros [[= ->]|?]; done|intros [= ->]; by left].
    + unfold read in *. rewrite newest_other_key in IHr by done. simpl.
      assert (visible k seq e = false) as ->.
      { apply not_true_iff_false. rewrite visible_true. intros [? _]. congruence. }
      simpl. rewrite <- IHr. destruct (is_deletion e); [done|]. rewrite elem_of_cons.
      split; [intros [[= -> ->]|?]; done|by right].
Qed.

Lemma rows_keys_from es r : r ∈ rows seq es -> exists e, e ∈ es /\ user_key e = r.1.
Proof.
  remember (length es) as n eqn:Hn. revert es Hn. induction n as [n IH] using lt_wf_ind. intros es Hn.
  destruct es as [|e es]; [by intros ?%elem_of_nil|]. simpl in Hn. rewrite rows_cons.
  assert (forall x, x ∈ other_key (user_key e) es -> x ∈ es) as Hsub.
  { intros x Hx. destruct (drop_while_suffix (fun y : entry => sv_eqb (user_key y) (user_key e)) es) as (pre & Heq & _).
    rewrite Heq. apply elem_of_app. by right. }
  pose proof (other_key_length (user_key e) es) as Hlen.
  assert (r ∈ rows seq (other_key (user_key e) es) -> exists x, x ∈ e :: es /\ user_key x = r.1) as Hrec.
  { intros Hr. destruct (IH (length (other_key (user_key e) es)) ltac:(lia) _ eq_refl Hr) as (x & Hx & ?). exists x. split; [right; by apply Hsub|done]. }
  case_match; [|case_match; [done|]].
  - intros Hr. destruct (IH (length es) ltac:(lia) _ eq_refl Hr) as (x & Hx & ?). exists x. split; [by right|done].
  - intros [->|Hr]%elem_of_cons; [|by apply Hrec]. exists e. split; [left|done].
Qed.

(** The rows come in strictly increasing key order, one per key. *)
Lemma rows_sorted es :
  StronglySorted entry_le es -> StronglySorted (fun a b => sv_compare a.1 b.1 < 0) (rows seq es).
Proof.
  remember (length es) as n eqn:Hn. revert es Hn. induction n as [n IH] using lt_wf_ind. intros es Hn Hs.
  destruct es as [|e es]; [constructor|]. simpl in Hn. rewrite rows_cons.
  destruct (other_key_above e es Hs) as [Habove Hs']. pose proof (other_key_length (user_key e) es) as Hlen.
  apply StronglySorted_inv in Hs as [Hs _]. case_match; [by apply (IH (length es) ltac:(lia))|].
  assert (StronglySorted (fun a b => sv_compare a.1 b.1 < 0) (rows seq (other_key (user_key e) es))) as Hrec
    by (by apply (IH (length (other_key (user_key e) es)) ltac:(lia))).
  case_match; [done|]. constructor; [done|]. apply Forall_forall. intros r Hr. simpl.
  destruct (rows_keys_from _ _ Hr) as (x & Hx & <-). rewrite Forall_forall in Habove. by apply Habove.
Qed.

End Rows.

(** What a seek to [(target, seq)] leaves visible: everything from [target] on. *)
Lemma read_seek es target seq k :
  StronglySorted entry_le es -> entries_typed es -> 0 <= seq <= kMaxSequenceNumber ->
  read (seek es (LookupKey target seq)) k seq = if sv_compare k target <? 0 then None else read es k seq.
Proof.
  intros Hs Ht Hseq. destruct (seek_split es (LookupKey target seq)) as (pre & Heq & Hpre).
  unfold read. destruct (Z.ltb_spec (sv_compare k target) 0) as [Hlt|Hge].
  - replace (newest _ k seq) with (@None entry); [done|]. symmetry. apply newest_absent.
    assert (Forall (fun x => ikey_typed x.1) (seek es (LookupKey target seq))) as Ht'.
    { unfold entries_typed in Ht. rewrite Heq in Ht. by apply Forall_app in Ht as []. }
    assert (StronglySorted entry_le (seek es (LookupKey target seq))) as Hs'.
    { rewrite Heq in Hs. clear -Hs. induction pre as [|x pre IH]; [done|].
      apply StronglySorted_inv in Hs as [? _]. by apply IH. }
    destruct (seek es (LookupKey target seq)) as [|x rest] eqn:Ex; [constructor|].
    assert (0 <= sv_compare (user_key x) target) as Hx.
    { apply Forall_cons in Ht' as [Htx _]. unfold seek in Ex. apply drop_while_head in Ex.
      assert (~ x.1 ≺ LookupKey target seq) as Hn by lia. rewrite LookupKey_after in Hn by done.
      unfold user_key. lia. }
    assert (forall y, y = x \/ entry_le x y -> user_key y <> k) as Hy.
    { intros y Hxy <-. assert (sv_compare (user_key x) (user_key y) <= 0) as Hle.
      { destruct Hxy as [->|?]; [rewrite sv_compare_refl; lia|by apply entry_le_user]. }
      destruct (decide (sv_compare (user_key x) (user_key y) = 0)) as [Hz|].
      - apply sv_compare_eq in Hz. rewrite <- Hz in Hlt. lia.
      - assert (sv_compare (user_key x) (user_key y) < 0) as Hxy' by lia.
        pose proof (sv_compare_lt_trans _ _ _ Hxy' Hlt). lia. }
    apply StronglySorted_inv in Hs' as [_ Hle]. constructor; [apply Hy; by left|].
    eapply Forall_impl; [exact Hle|]. intros y ?. apply Hy. by right.
  - rewrite Heq at 2. rewrite newest_app. replace (newest pre k seq) with (@None entry); [done|].
    symmetry. apply newest_None. unfold entries_typed in Ht. rewrite Heq, Forall_app in Ht.
    destruct Ht as [Ht _]. rewrite Forall_forall in *. intros x Hx. apply not_true_iff_false. rewrite visible_true.
    intros [Hk Hv]. pose proof (Hpre x Hx) as Hlt. rewrite LookupKey_after in Hlt by auto.
    unfold user_key, sequence in *. rewrite Hk in Hlt. lia.
Qed.

(** ** The iterator computes the rows *)

Section Correct.
Context {W I : Type} {ops : Iterator W I} (Winv : W -> Prop) (at_ : I -> list entry -> list entry -> Prop).
Context {spec : IteratorSpec ops Winv at_}.

Lemma SkipRest_at fuel : forall it w es s,
  at_ (inner_ it) es s -> Winv w -> (length s < fuel)%nat ->
  let r := SkipRestOfCurrentKey fuel it w in
  at_ (inner_ r.1) es (other_key (key_ it) s) /\ Winv r.2 /\
  key_ r.1 = key_ it /\ seq_ r.1 = seq_ it /\ valid_ r.1 = valid_ it.
Proof.
  induction fuel as [|fuel IH]; intros it w es s Hat Hw Hf; [lia|]. cbn [SkipRestOfCurrentKey].
  rewrite (at_valid _ _ _ Hat). destruct s as [|e s]; [by simpl|]. cbn [negb bool_decide_eq_true andb].
  rewrite bool_decide_false by done. cbn [negb andb].
  pose proof (at_entry _ _ _ _ Hat) as He. apply (f_equal fst) in He as Hk. cbn [fst] in Hk. rewrite Hk.
  change (ExtractUserKey e.1) with (user_key e). unfold other_key. cbn [drop_while].
  destruct (sv_eqb (user_key e) (key_ it)) eqn:E; [|by simpl].
  unfold skip_inner. destruct (at_next _ _ _ _ w Hat Hw) as [Hat' Hw']. destruct (Next (inner_ it) w) as [inner w'].
  simpl in Hf, Hat', Hw'. apply (IH (mkDBIter inner _ _ _ _ _ _) w' es s); [done|done|lia].
Qed.

(** The cursor stands before the rows [rs]; [n] bounds what the stream has left. *)
Definition db_at (n : nat) (it : DBIter) (es : list entry) (rs : list (bytes * bytes)) : Prop :=
  match rs with
  | [] => valid_ it = false /\ exists s, at_ (inner_ it) es s
  | (k, v) :: rest =>
      valid_ it = true /\ key_ it = k /\ value_ it = v /\
      exists e s, at_ (inner_ it) es (e :: s) /\ user_key e = k /\ (length s < n)%nat /\
        rest = rows (seq_ it) (other_key k s)
  end.

Lemma Advance_at n fuel : forall it w es s,
  at_ (inner_ it) es s -> Winv w -> (length s < fuel)%nat -> (fuel <= S n)%nat ->
  let r := AdvanceToNextLiveKey fuel it w in
  db_at n r.1 es (rows (seq_ it) s) /\ Winv r.2 /\ seq_ r.1 = seq_ it.
Proof.
  induction fuel as [|fuel IH]; intros it w es s Hat Hw Hf Hn; [lia|]. cbn [AdvanceToNextLiveKey].
  rewrite (at_valid _ _ _ Hat). destruct s as [|e s]; cbn [negb].
  { rewrite bool_decide_true by done. cbn. split_and!; eauto. }
  rewrite bool_decide_false by done. cbn [negb]. rewrite rows_cons.
  pose proof (at_entry _ _ _ _ Hat) as He. apply (f_equal fst) in He as Hk. apply (f_equal snd) in He as Hv.
  cbn [fst snd] in Hk, Hv. rewrite Hk. change (ExtractSequence e.1) with (sequence e).
  change (ExtractUserKey e.1) with (user_key e). simpl in Hf. destruct (seq_ it <? sequence e) eqn:Eseq.
  - unfold skip_inner. destruct (at_next _ _ _ _ w Hat Hw) as [Hat' Hw'].
    destruct (Next (inner_ it) w) as [inner w']. apply (IH (mkDBIter inner _ _ _ _ _ _) w' es s); [done|done|lia|lia].
  - change (ExtractValueType e.1 =? type_code kDeletion) with (is_deletion e).
    destruct (is_deletion e) eqn:Edel.
    + destruct (SkipRest_at (S fuel) (mkDBIter (inner_ it) (seq_ it) (returned_count_ it) (skipped_count_ it)
        (user_key e) (value_ it) (valid_ it)) w es (e :: s) Hat Hw ltac:(simpl; lia)) as (H1 & H2 & H3 & H4 & H5).
      destruct (SkipRestOfCurrentKey _ _ w) as [it' w']. cbn [fst snd key_ seq_ valid_] in *.
      assert (other_key (user_key e) (e :: s) = other_key (user_key e) s) as Hok.
      { unfold other_key. cbn [drop_while]. by rewrite (proj2 (sv_eqb_true _ _) eq_refl). }
      rewrite Hok in H1. pose proof (other_key_length (user_key e) s).
      rewrite <- H4. apply (IH it' w' es (other_key (user_key e) s)); [done|done|lia|lia].
    + cbn [fst snd inner_ seq_ valid_ key_ value_]. rewrite Hv. split_and!; [|done|done].
      cbn [db_at inner_ seq_ key_ value_ valid_]. split_and!; try done. exists e, s. split_and!; [done|done|lia|done].
Qed.

Lemma d_Next_at n it w es k v rest :
  db_at n it es ((k, v) :: rest) -> Winv w ->
  let r := d_Next (S n) it w in
  db_at n r.1 es rest /\ Winv r.2 /\ seq_ r.1 = seq_ it.
Proof.
  intros (Hv & Hk & _ & e & s & Hat & He & Hs & ->) Hw. unfold d_Next.
  destruct (SkipRest_at (S n) it w es (e :: s) Hat Hw ltac:(simpl; lia)) as (H1 & H2 & H3 & H4 & H5).
  destruct (SkipRestOfCurrentKey (S n) it w) as [it' w']. cbn [fst snd] in *.
  assert (other_key (key_ it) (e :: s) = other_key k s) as Hok.
  { unfold other_key. cbn [drop_while]. by rewrite Hk, (proj2 (sv_eqb_true (user_key e) k) He). }
  rewrite Hok in H1. pose proof (other_key_length k s). rewrite <- H4.
  apply (Advance_at n (S n) it' w' es (other_key k s)); [done|done|lia|lia].
Qed.

(** [for (it->Seek...; it->Valid(); it->Next())], [fuel] being the loop's and
    [n] that of each step. *)
Fixpoint scan (fuel n : nat) (it : DBIter) (w : W) : list (bytes * bytes) * DBIter :=
  match fuel with
  | O => ([], it)
  | S fuel =>
      if valid_ it then
        let row := (key_ it, value_ it) in
        let '(it, w) := d_Next n it w in
        let '(rs, it) := scan fuel n it w in
        (row :: rs, it)
      else ([], it)
  end.

Lemma scan_at n fuel : forall it w es rs,
  db_at n it es rs -> Winv w -> (length rs < fuel)%nat ->
  (scan fuel (S n) it w).1 = rs /\ d_status (scan fuel (S n) it w).2 = Status.OK.
Proof.
  induction fuel as [|fuel IH]; intros it w es rs Hat Hw Hf; [lia|]. cbn [scan].
  destruct rs as [|[k v] rs].
  - destruct Hat as (-> & s & Hs). split; [done|]. by eapply at_status.
  - destruct (d_Next_at n it w es k v rs Hat Hw) as (H1 & H2 & _).
    destruct Hat as (-> & -> & -> & _). destruct (d_Next (S n) it w) as [it' w']. cbn [fst snd] in *.
    destruct (IH it' w' es rs H1 H2 ltac:(simpl in Hf; lia)) as [G1 G2].
    destruct (scan fuel (S n) it' w') as [rs' it'']. simpl in *. by subst.
Qed.

Lemma rows_length seq es : (length (rows seq es) <= length es)%nat.
Proof.
  remember (length es) as n eqn:Hn. revert es Hn. induction n as [n IH] using lt_wf_ind. intros es Hn.
  destruct es as [|e es]; [simpl; lia|]. simpl in Hn. rewrite rows_cons.
  pose proof (other_key_length (user_key e) es). pose proof (IH (length es) ltac:(lia) es eq_refl).
  pose proof (IH (length (other_key (user_key e) es)) ltac:(lia) _ eq_refl).
  repeat case_match; simpl; lia.
Qed.

Lemma d_SeekToFirst_at n it w es s :
  at_ (inner_ it) es s -> Winv w -> (length es <= n)%nat ->
  let r := d_SeekToFirst (S n) it w in db_at n r.1 es (rows (seq_ it) es) /\ Winv r.2.
Proof.
  intros Hat Hw Hn. unfold d_SeekToFirst. destruct (at_first _ _ _ w Hat Hw) as [H1 H2].
  destruct (SeekToFirst (inner_ it) w) as [inner w']. simpl in H1, H2.
  destruct (Advance_at n (S n) (with_inner it inner) w' es es H1 H2) as (G1 & G2 & _); [lia|lia|done].
Qed.

Lemma d_Seek_at n it w es s target :
  at_ (inner_ it) es s -> Winv w -> (length es <= n)%nat -> size target + 8 < 2 ^ 32 ->
  let r := d_Seek (S n) target it w in
  db_at n r.1 es (rows (seq_ it) (seek es (LookupKey target (seq_ it)))) /\ Winv r.2.
Proof.
  intros Hat Hw Hn Ht. unfold d_Seek. rewrite lookup_buffer_key_eq.
  change (EncodeInternalKey target (seq_ it) kValue) with (LookupKey target (seq_ it)).
  assert (size (LookupKey target (seq_ it)) < 2 ^ 32) as Hsz.
  { unfold LookupKey, EncodeInternalKey, PutFixed64. autorewrite with lsm. lia. }
  destruct (at_seek _ _ _ _ w Hat Hw Hsz) as [H1 H2].
  destruct (Seek _ (inner_ it) w) as [inner w']. simpl in H1, H2.
  destruct (seek_split es (LookupKey target (seq_ it))) as (pre & Heq & _).
  apply (f_equal length) in Heq. rewrite length_app in Heq.
  destruct (Advance_at n (S n) (with_inner it inner) w' es _ H1 H2) as (G1 & G2 & _); [lia|lia|done].
Qed.

End Correct.

(** What a seek stands before: the rows that point reads find from the target on. *)
Lemma seek_rows {W I} {ops : Iterator W I} (Winv : W -> Prop) at_
    {spec : IteratorSpec ops Winv at_} inner es s seq target w n :
  at_ inner es s -> Winv w -> StronglySorted entry_le es -> entries_typed es ->
  0 <= seq <= kMaxSequenceNumber -> size target + 8 < 2 ^ 32 -> (length es <= n)%nat ->
  let r := d_Seek (S n) target (new_DBIter inner seq) w in
  exists rs, db_at at_ n r.1 es rs /\ Winv r.2 /\ (length rs <= n)%nat /\ StronglySorted (fun a b => sv_compare a.1 b.1 < 0) rs /\
    forall k v, (k, v) ∈ rs <-> read es k seq = Some (Some v) /\ 0 <= sv_compare k target.
Proof.
  intros Hat Hw Hs Ht Hseq Htg Hn r. destruct (d_Seek_at Winv at_ n (new_DBIter inner seq) w es s target Hat Hw Hn Htg) as [F1 F2].
  cbn [seq_ new_DBIter] in F1. set (es' := seek es (LookupKey target seq)) in *. exists (rows seq es'). pose proof (rows_length seq es').
  destruct (seek_split es (LookupKey target seq)) as (pre & Heq & _). fold es' in Heq.
  assert (length es' <= length es)%nat by (apply (f_equal length) in Heq; rewrite length_app in Heq; lia).
  assert (StronglySorted entry_le es') as Hs'.
  { rewrite Heq in Hs. clear -Hs. induction pre as [|x pre IH]; [done|]. apply StronglySorted_inv in Hs as [? _]. by apply IH. }
  split_and!; [exact F1|exact F2|lia|by apply rows_sorted|]. intros k v. rewrite rows_read by done. unfold es'. rewrite read_seek by done.
  destruct (Z.ltb_spec (sv_compare k target) 0); [split; [done|lia]|]. split; [done|tauto].
Qed.

(** A scan agrees with point reads. Over any stream of versions that meets
    the iterator interface, scanning at a sequence, from the start or from a
    key, returns exactly the pairs a point read at that sequence would find,
    once each and in key order: the newest visible value of every key, and
    nothing for keys whose newest visible version is a tombstone. *)
Lemma scan_equals_reads {W I} {ops : Iterator W I} (Winv : W -> Prop) at_
    {spec : IteratorSpec ops Winv at_} inner es s seq target w n :
  at_ inner es s -> Winv w -> StronglySorted entry_le es -> entries_typed es ->
  0 <= seq <= kMaxSequenceNumber -> size target + 8 < 2 ^ 32 -> (length es <= n)%nat ->
  let scan_from (start : DBIter * W) := scan (S n) (S n) start.1 start.2 in
  let all := scan_from (d_SeekToFirst (S n) (new_DBIter inner seq) w) in
  let from := scan_from (d_Seek (S n) target (new_DBIter inner seq) w) in
  (forall k v, (k, v) ∈ all.1 <-> read es k seq = Some (Some v)) /\
  (forall k v, (k, v) ∈ from.1 <-> read es k seq = Some (Some v) /\ 0 <= sv_compare k target) /\
  StronglySorted (fun a b => sv_compare a.1 b.1 < 0) all.1 /\
  StronglySorted (fun a b => sv_compare a.1 b.1 < 0) from.1 /\
  d_status all.2 = Status.OK /\ d_status from.2 = Status.OK.
Proof.
  intros Hat Hw Hs Ht Hseq Htg Hn scan_from all from.
  destruct (d_SeekToFirst_at Winv at_ n (new_DBIter inner seq) w es s Hat Hw Hn) as [A1 A2]. cbn [seq_ new_DBIter] in A1.
  destruct (seek_rows Winv at_ inner es s seq target w n Hat Hw Hs Ht Hseq Htg Hn) as (rs & F1 & F2 & F3 & F4 & F5).
  pose proof (rows_length seq es). destruct (scan_at Winv at_ n (S n) _ _ es _ A1 A2) as [SA1 SA2]; [lia|].
  destruct (scan_at Winv at_ n (S n) _ _ es _ F1 F2) as [SF1 SF2]; [lia|].
  unfold all, from, scan_from. rewrite SA1, SF1. split_and!; try done; [|by apply rows_sorted]. intros k v. by apply rows_read.
Qed.
