(* ===== verification/Options.v ===== *)
(** * Options (include/lsm/options.h) *)

From S2P Require Import Prelude.

Inductive SyncPolicy := kEveryWrite | kInterval | kNever.

#[export] Instance SyncPolicy_eq_dec : EqDecision SyncPolicy.
Proof. solve_decision. Defined.

Record Options := mkOptions {
  create_if_missing : bool;
  error_if_exists : bool;
  memtable_size_bytes : Z;
  block_size_bytes : Z;
  block_restart_interval : Z;
  bloom_bits_per_key : Z;
  block_cache_bytes : Z;
  l0_compaction_trigger : Z;
  max_bytes_for_level_base : Z;
  target_file_size : Z;
  sync_policy : SyncPolicy;
  fsync_interval_ms : Z;
  background_compaction : bool;
  o_verify_checksums : bool
}.

Definition default_Options : Options :=
  mkOptions true false (Z.shiftl 4 20) 4096 16 10 (Z.shiftl 8 20) 4 (Z.shiftl 10 20) (Z.shiftl 2 20)
    kEveryWrite 1000 true true.

Record WriteOptions := mkWriteOptions { w_sync : bool; use_default_policy : bool }.

Definition default_WriteOptions : WriteOptions := mkWriteOptions false true.

(** A snapshot is the sequence it pins; the null pointer is [None]. *)
Record ReadOptions := mkReadOptions { r_verify_checksums : bool; fill_cache : bool; snapshot : option Z }.

Definition default_ReadOptions : ReadOptions := mkReadOptions true true None.
