(* ===== verification/Sstable.v ===== *)
(** * SSTables (include/lsm/sstable.h, src/sstable.cpp)

    [TableBuilder] writes a file of data blocks, a Bloom block, an index block
    and a footer. *)

From stdpp Require Import gmap.
From S2P Require Import Prelude Coding InternalKey Crc32c Posix Versions Iterator Bloom Cache Block Options.

Definition kFooterSize : Z := 40.
Definition kTableMagic : Z := 0x4c534d5442aa5502.
Definition kBlockTrailerSize : Z := 4.

(** ** Builder *)

Record TableBuilder := mkTableBuilder {
  options_ : Options;
  path_ : string;
  fd_ : bool;          (** open for writing *)
  finished_ : bool;
  block_ : BlockBuilder;
  index_block_ : bytes;
  last_key_in_block_ : bytes;
  filter_keys_ : list bytes;
  file_size_ : Z;
  num_entries_ : Z;
  smallest_key_ : bytes;
  largest_key_ : bytes
}.

Definition new_TableBuilder (options : Options) : TableBuilder :=
  mkTableBuilder options "" false false (new_BlockBuilder (block_restart_interval options)) [] [] [] 0 0 [] [].

(** [open] with [O_CREAT | O_TRUNC]. *)
Definition TableBuilder_Open (path : string) (b : TableBuilder) (w : World) : Status * TableBuilder * World :=
  match sys_simple ("open " ++ path) w with
  | (s, w) =>
      if Status.ok s then
        (Status.OK,
         mkTableBuilder (options_ b) path true (finished_ b) (block_ b) (index_block_ b) (last_key_in_block_ b)
           (filter_keys_ b) (file_size_ b) (num_entries_ b) (smallest_key_ b) (largest_key_ b),
         with_files (<[path := []]> (w_files w)) w)
      else (s, b, w)
  end.

(** The status, the handle of the block, and the builder with its new size. *)
Definition WriteBlock (contents : bytes) (b : TableBuilder) (w : World)
  : Status * (Z * Z) * TableBuilder * World :=
  let handle := (file_size_ b, size contents) in
  let '(s, w) := WriteFully (path_ b) contents w in
  if negb (Status.ok s) then (s, handle, b, w)
  else
    let trailer := PutFixed32 [] (Value contents) in
    let '(s, w) := WriteFully (path_ b) trailer w in
    if negb (Status.ok s) then (s, handle, b, w)
    else
      (Status.OK, handle,
       mkTableBuilder (options_ b) (path_ b) (fd_ b) (finished_ b) (block_ b) (index_block_ b)
         (last_key_in_block_ b) (filter_keys_ b) (u64 (file_size_ b + (size contents + kBlockTrailerSize)))
         (num_entries_ b) (smallest_key_ b) (largest_key_ b), w).

Definition index_entry (last_key : bytes) (offset size : Z) : bytes :=
  PutFixed64 (PutFixed64 (PutLengthPrefixed [] last_key) offset) size.

Definition with_block (b : TableBuilder) (blk : BlockBuilder) (idx : bytes) : TableBuilder :=
  mkTableBuilder (options_ b) (path_ b) (fd_ b) (finished_ b) blk idx (last_key_in_block_ b)
    (filter_keys_ b) (file_size_ b) (num_entries_ b) (smallest_key_ b) (largest_key_ b).

(** [block_.Finish()] resets the block before the write is attempted. *)
Definition FlushDataBlock (b : TableBuilder) (w : World) : Status * TableBuilder * World :=
  if builder_empty (block_ b) then (Status.OK, b, w)
  else
    let '(contents, blk) := Finish (block_ b) in
    let '(s, (off, sz), b, w) := WriteBlock contents (with_block b blk (index_block_ b)) w in
    if negb (Status.ok s) then (s, b, w)
    else
      (Status.OK,
       with_block b (block_ b)
         (PutFixed64 (PutFixed64 (PutLengthPrefixed (index_block_ b) (last_key_in_block_ b)) off) sz), w).

Definition Add (internal_key value : bytes) (b : TableBuilder) (w : World) : Status * TableBuilder * World :=
  if negb (fd_ b) then (Status.InvalidArgument "TableBuilder not open", b, w)
  else
    let b :=
      mkTableBuilder (options_ b) (path_ b) (fd_ b) (finished_ b) (Block.Add internal_key value (block_ b))
        (index_block_ b) internal_key (filter_keys_ b ++ [ExtractUserKey internal_key])
        (file_size_ b) (num_entries_ b + 1)
        (if num_entries_ b =? 0 then internal_key else smallest_key_ b) internal_key in
    if block_size_bytes (options_ b) <=? CurrentSizeEstimate (block_ b) then FlushDataBlock b w
    else (Status.OK, b, w).

Definition make_footer (index_offset index_size bloom_offset bloom_size : Z) : bytes :=
  PutFixed64 (PutFixed64 (PutFixed64 (PutFixed64 (PutFixed64 [] index_offset) index_size) bloom_offset)
    bloom_size) kTableMagic.

Definition close_builder (b : TableBuilder) (finished : bool) : TableBuilder :=
  mkTableBuilder (options_ b) (path_ b) false finished (block_ b) (index_block_ b) (last_key_in_block_ b)
    (filter_keys_ b) (file_size_ b) (num_entries_ b) (smallest_key_ b) (largest_key_ b).

Definition grow (b : TableBuilder) (n : Z) : TableBuilder :=
  mkTableBuilder (options_ b) (path_ b) (fd_ b) (finished_ b) (block_ b) (index_block_ b)
    (last_key_in_block_ b) (filter_keys_ b) (u64 (file_size_ b + n)) (num_entries_ b) (smallest_key_ b)
    (largest_key_ b).

Definition TableBuilder_Finish (b : TableBuilder) (w : World) : Status * TableBuilder * World :=
  if negb (fd_ b) then (Status.InvalidArgument "TableBuilder not open", b, w)
  else
    let '(s, b, w) := FlushDataBlock b w in
    if negb (Status.ok s) then (s, b, w)
    else
      let bloom := Build (filter_keys_ b) (bloom_bits_per_key (options_ b)) in
      let '(s, (bloom_offset, bloom_size), b, w) := WriteBlock bloom b w in
      if negb (Status.ok s) then (s, b, w)
      else
        let '(s, (index_offset, index_size), b, w) := WriteBlock (index_block_ b) b w in
        if negb (Status.ok s) then (s, b, w)
        else
          let footer := make_footer index_offset index_size bloom_offset bloom_size in
          let '(s, w) := WriteFully (path_ b) footer w in
          if negb (Status.ok s) then (s, b, w)
          else
            let b := grow b (size footer) in
            let '(s, w) := sys_simple "fsync" w in
            if negb (Status.ok s) then (s, b, w)
            else
              let '(s, w) := sys_simple "close" w in
              (s, close_builder b true, w).

(** Closes and unlinks; the outcomes of the calls are not looked at. *)
Definition Abandon (b : TableBuilder) (w : World) : TableBuilder * World :=
  let '(b', w) := if fd_ b then (close_builder b (finished_ b), (next_ret w).2) else (b, w) in
  (b', if negb (bool_decide (path_ b' = ""%string)) && negb (finished_ b') then sys_unlink (path_ b') w else w).

(** [~TableBuilder]. *)
Definition destroy_TableBuilder (b : TableBuilder) (w : World) : TableBuilder * World :=
  if fd_ b && negb (finished_ b) then Abandon b w else (b, w).

(** ** The file a builder writes

    A table is a list of laid out blocks; the index has an entry per block. *)

Record IndexEntry := mkIndexEntry { ie_last_key : bytes; ie_offset : Z; ie_size : Z }.

Record tblock := mkTblock { b_items : list item; b_ridx : list nat }.

Definition b_bytes (b : tblock) : bytes := block_of (b_items b) (b_ridx b).
Definition b_entries (b : tblock) : list entry := map item_entry (b_items b).
Definition b_last (b : tblock) : bytes := default [] (ikey <$> last (b_items b)).
Definition block_good (b : tblock) : Prop := layout (b_items b) (b_ridx b) /\ b_items b <> [].

(** A block with its trailer. *)
Definition seal (c : bytes) : bytes := PutFixed32 c (Value c).

Definition data_of (bs : list tblock) : bytes := concat (map (fun b => seal (b_bytes b)) bs).
Definition table_entries (bs : list tblock) : list entry := concat (map b_entries bs).

Fixpoint index_from (off : Z) (bs : list tblock) : list IndexEntry :=
  match bs with
  | [] => []
  | b :: bs => mkIndexEntry (b_last b) off (size (b_bytes b)) :: index_from (off + size (b_bytes b) + 4) bs
  end.

Definition encode_index (l : list IndexEntry) : bytes :=
  concat (map (fun ie => index_entry (ie_last_key ie) (ie_offset ie) (ie_size ie)) l).

Definition table_bytes (bs : list tblock) (bloom : bytes) : bytes :=
  let d := data_of bs in
  let idx := encode_index (index_from 0 bs) in
  d ++ seal bloom ++ seal idx ++ make_footer (size d + (size bloom + 4)) (size idx) (size d) (size bloom).

(** An upper bound of what an entry adds to a file. *)
Definition weight (e : entry) : Z := size e.1 + size e.2 + 64.
Definition total_weight (es : list entry) : Z := foldr (fun e t => weight e + t) 0 es.

(** What the builder is asked to write: every entry fits a block, all of them
    fit a file, and so does the filter. *)
Record writable (o : Options) (es : list entry) : Prop := {
  wr_block : Forall (fun e => block_size_bytes o + weight e < 2 ^ 32) es;
  wr_block_pos : 0 <= block_size_bytes o;
  wr_total : total_weight es < 2 ^ 61;
  wr_bits : 0 <= bloom_bits_per_key o < 2 ^ 31;
  wr_bloom : size es * bloom_bits_per_key o < 2 ^ 61
}.

(** Part way: the blocks [bs] are in the file, [items] are in the open block. *)
Record building (o : Options) (path : string) (b : TableBuilder) (w : World) (bs : list tblock)
    (items : list item) (ridx : list nat) : Prop := {
  bd_options : options_ b = o;
  bd_path : path_ b = path;
  bd_open : fd_ b = true;
  bd_file : contents w path = data_of bs;
  bd_size : file_size_ b = size (data_of bs);
  bd_index : index_block_ b = encode_index (index_from 0 bs);
  bd_block : builder_at (block_ b) items ridx;
  bd_layout : layout items ridx;
  bd_blocks : Forall block_good bs;
  bd_last : items <> [] -> last_key_in_block_ b = default [] (ikey <$> last items);
  bd_filter : filter_keys_ b = map user_key (table_entries bs ++ map item_entry items);
  bd_num : num_entries_ b = size (table_entries bs ++ map item_entry items);
  bd_smallest : smallest_key_ b = default [] (fst <$> head (table_entries bs ++ map item_entry items));
  bd_largest : largest_key_ b = default [] (fst <$> last (table_entries bs ++ map item_entry items));
  bd_weight : size (data_of bs) + CurrentSizeEstimate (block_ b) + 40 * size items <=
              total_weight (table_entries bs ++ map item_entry items) + 8
}.

(** ** Lemmas on the layout *)

Lemma size_seal c : size (seal c) = size c + 4.
Proof. unfold seal, PutFixed32. by autorewrite with lsm. Qed.

Lemma data_of_snoc bs b : data_of (bs ++ [b]) = data_of bs ++ seal (b_bytes b).
Proof. unfold data_of. rewrite map_app, concat_app. simpl. by rewrite app_nil_r. Qed.

Lemma table_entries_snoc bs b : table_entries (bs ++ [b]) = table_entries bs ++ b_entries b.
Proof. unfold table_entries. rewrite map_app, concat_app. simpl. by rewrite app_nil_r. Qed.

Lemma size_data_cons b bs : size (data_of (b :: bs)) = size (b_bytes b) + 4 + size (data_of bs).
Proof. unfold data_of. simpl. by rewrite size_app, size_seal. Qed.

Lemma index_from_snoc bs : forall off b,
  index_from off (bs ++ [b]) = index_from off bs ++ [mkIndexEntry (b_last b) (off + size (data_of bs)) (size (b_bytes b))].
Proof.
  induction bs as [|x bs IH]; intros off b; simpl.
  - by rewrite Z.add_0_r.
  - rewrite IH, size_data_cons. simpl. do 4 f_equal. lia.
Qed.

Lemma encode_index_app a b : encode_index (a ++ b) = encode_index a ++ encode_index b.
Proof. unfold encode_index. by rewrite map_app, concat_app. Qed.

Lemma PutLengthPrefixed_app dst v : PutLengthPrefixed dst v = dst ++ PutLengthPrefixed [] v.
Proof. by rewrite !PutLengthPrefixed_eq. Qed.

(** What [FlushDataBlock] appends to the index. *)
Lemma index_entry_app buf k off sz :
  PutFixed64 (PutFixed64 (PutLengthPrefixed buf k) off) sz = buf ++ index_entry k off sz.
Proof.
  unfold index_entry, PutFixed64. rewrite PutLengthPrefixed_app. by rewrite <- !app_assoc.
Qed.

Lemma total_weight_app a b : total_weight (a ++ b) = total_weight a + total_weight b.
Proof. induction a as [|e a IH]; simpl; [done|]. rewrite IH. lia. Qed.

Lemma weight_pos e : 64 <= weight e.
Proof. unfold weight. pose proof (size_nonneg e.1). pose proof (size_nonneg e.2). lia. Qed.

Lemma total_weight_size es : 64 * size es <= total_weight es.
Proof.
  induction es as [|e es IH]; [done|]. rewrite size_cons. simpl. pose proof (weight_pos e). lia.
Qed.

Lemma total_weight_elem e es : e ∈ es -> weight e <= total_weight es.
Proof.
  induction es as [|x es IH]; intros He; [by apply elem_of_nil in He|]. simpl.
  pose proof (weight_pos x). pose proof (total_weight_size es). pose proof (size_nonneg es).
  apply elem_of_cons in He as [->|He]; [lia|]. apply IH in He. lia.
Qed.

Lemma total_weight_perm a b : a ≡ₚ b -> total_weight a = total_weight b.
Proof. induction 1; simpl; lia. Qed.

(** What can be written can be written in part. *)
Lemma writable_sub o a b : a ⊆+ b -> writable o b -> writable o a.
Proof.
  intros Hs [H1 H2 H3 H4 H5]. apply submseteq_Permutation in Hs as [k Hk].
  pose proof (total_weight_perm _ _ Hk) as Hw. rewrite total_weight_app in Hw.
  pose proof (total_weight_size k). pose proof (size_nonneg k).
  assert (size b = size a + size k) as Hsz by (unfold size; rewrite Hk, length_app; lia).
  split; [|done|lia|done|nia]. rewrite Hk in H1. by apply Forall_app in H1 as [? _].
Qed.

Lemma b_last_entry b : b_items b <> [] -> exists e, last (b_entries b) = Some e /\ e.1 = b_last b /\ e ∈ b_entries b.
Proof.
  intros Hne. unfold b_entries, b_last. destruct (last (b_items b)) as [it|] eqn:E.
  - exists (item_entry it). rewrite fmap_last, E. split_and!; [done|done|].
    apply list_elem_of_fmap_2. by apply last_Some_elem_of.
  - by apply last_None in E.
Qed.

Lemma size_index_entry k off sz : size (index_entry k off sz) = size k + 20.
Proof. unfold index_entry, PutFixed64. rewrite PutLengthPrefixed_eq. autorewrite with lsm. lia. Qed.

Lemma size_encode_index bs : forall off, Forall block_good bs ->
  size (encode_index (index_from off bs)) <= total_weight (table_entries bs).
Proof.
  induction bs as [|b bs IH]; intros off Hg; [done|]. apply Forall_cons in Hg as [[_ Hb] Hg].
  unfold encode_index, table_entries. simpl. rewrite size_app, total_weight_app, size_index_entry.
  specialize (IH (off + size (b_bytes b) + 4) Hg). unfold encode_index, table_entries in IH.
  destruct (b_last_entry b Hb) as (e & _ & <- & He). apply total_weight_elem in He.
  unfold weight in He. pose proof (size_nonneg e.2). lia.
Qed.

Lemma size_block_of items ridx :
  size (block_of items ridx) = size (region items) + (size ridx + 1) * 4.
Proof.
  rewrite block_of_eq. autorewrite with lsm. rewrite size_trailer_of. unfold size. rewrite length_map. lia.
Qed.

(** A block has more bytes than entries, and so has a file. *)
Lemma region_entries items : Forall item_fits items -> size items <= size (region items).
Proof.
  induction 1 as [|it items Hit _ IH]; [done|]. pose proof (size_chunk_pos it Hit). change (region (it :: items)) with (chunk it ++ region items).
  rewrite size_cons, size_app. lia.
Qed.

Lemma data_entries bs : Forall block_good bs -> size (table_entries bs) <= size (data_of bs).
Proof.
  induction 1 as [|b bs [HL _] _ IH]; [done|]. rewrite size_data_cons. unfold b_bytes. rewrite size_block_of.
  change (table_entries (b :: bs)) with (b_entries b ++ table_entries bs). rewrite size_app.
  pose proof (region_entries _ (lay_fits _ _ HL)). pose proof (size_nonneg (b_ridx b)).
  assert (size (b_entries b) = size (b_items b)) by (unfold size, b_entries; by rewrite length_map). lia.
Qed.

Lemma estimate_at b items ridx : builder_at b items ridx -> CurrentSizeEstimate b = size (block_of items ridx).
Proof.
  intros (B1 & B2 & _). unfold CurrentSizeEstimate. rewrite size_block_of, B1, B2.
  unfold size. by rewrite length_map.
Qed.

Lemma CurrentSizeEstimate_Add_le key value b :
  CurrentSizeEstimate (Block.Add key value b) <= CurrentSizeEstimate b + size key + size value + 19.
Proof.
  unfold Block.Add. set (x := if since_restart_ b <? _ then _ else _).
  assert (size x.1.2 <= size (restarts_ b) + 1) as Hr.
  { unfold x. case_match; simpl; [lia|]. rewrite size_app, size_cons, size_nil. lia. }
  destruct x as [[sh restarts] since]. simpl in Hr. unfold CurrentSizeEstimate. cbn [buffer_ restarts_].
  rewrite !(PutVarint32_app (PutVarint32 _ _)), (PutVarint32_app (buffer_ b)), !size_app.
  pose proof (size_PutVarint32 _ (u32_range (Z.of_nat sh))).
  pose proof (size_PutVarint32 _ (u32_range (size key - Z.of_nat sh))).
  pose proof (size_PutVarint32 _ (u32_range (size value))).
  assert (size (drop sh key) <= size key) by (unfold size; rewrite length_drop; lia). lia.
Qed.

(** ** The builder writes the layout *)

Lemma WriteBlock_spec c b w s h b' w' :
  WriteBlock c b w = (s, h, b', w') ->
  touches (path_ b) w w' /\ (w_oracle w = [] -> s = Status.OK) /\
  (Status.ok s = true ->
    h = (file_size_ b, size c) /\ b' = grow b (size c + kBlockTrailerSize) /\
    contents w' (path_ b) = contents w (path_ b) ++ seal c).
Proof.
  unfold WriteBlock. destruct (WriteFully (path_ b) c w) as [s1 w1] eqn:E1.
  destruct (WriteAll_spec _ _ _ _ _ _ E1) as (T1 & O1 & F1).
  destruct (Status.ok s1) eqn:Hs1; cbn [negb].
  2:{ intros [= <- <- <- <-]. split_and!; [done|done|congruence]. }
  destruct (WriteFully _ (PutFixed32 [] _) w1) as [s2 w2] eqn:E2.
  destruct (WriteAll_spec _ _ _ _ _ _ E2) as (T2 & O2 & F2).
  assert (touches (path_ b) w w2) by (by etrans).
  destruct (Status.ok s2) eqn:Hs2; cbn [negb]; intros [= <- <- <- <-].
  - split_and!; [done|done|]. intros _. split_and!; [done|done|].
    rewrite (contents_Some _ _ _ (F2 eq_refl)), (contents_Some _ _ _ (F1 eq_refl)).
    unfold seal, PutFixed32. by rewrite <- app_assoc.
  - split_and!; [done| |congruence]. intros Ho. apply O2. by apply T1.
Qed.

Section Building.
Context (o : Options) (path : string).

Lemma FlushDataBlock_spec b w bs items ridx s b' w' :
  building o path b w bs items ridx -> total_weight (table_entries bs ++ map item_entry items) < 2 ^ 61 ->
  FlushDataBlock b w = (s, b', w') ->
  touches path w w' /\ (w_oracle w = [] -> s = Status.OK) /\
  (Status.ok s = true ->
    exists bs', table_entries bs' = table_entries bs ++ map item_entry items /\
      building o path b' w' bs' [] [0%nat]).
Proof.
  intros B Hw. unfold FlushDataBlock, builder_empty.
  pose proof (bd_block _ _ _ _ _ _ _ B) as Hat. pose proof (bd_layout _ _ _ _ _ _ _ B) as HL.
  replace (entries_ (block_ b)) with (size items) by (by destruct Hat as (_ & _ & _ & -> & _)).
  destruct (Z.eqb_spec (size items) 0) as [Hz|Hz].
  { intros [= <- <- <-]. split_and!; [done|done|]. intros _.
    assert (items = []) as -> by (destruct items; [done|rewrite size_cons in Hz; pose proof (size_nonneg items); lia]).
    rewrite (lay_empty _ _ HL eq_refl) in B. exists bs. by rewrite app_nil_r. }
  assert (items <> []) as Hne by (by intros ->).
  destruct (Finish (block_ b)) as [c blk] eqn:EF.
  assert (c = block_of items ridx) as -> by (by rewrite <- (Finish_block _ _ _ Hat HL), EF).
  assert (builder_at blk [] [0%nat]) as Hblk.
  { apply (f_equal snd) in EF. simpl in EF. subst blk. by eapply Reset_at. }
  destruct (WriteBlock _ _ _) as [[[s1 h] b1] w1] eqn:E1.
  destruct (WriteBlock_spec _ _ _ _ _ _ _ E1) as (T1 & O1 & F1). cbn [with_block path_] in T1.
  rewrite (bd_path _ _ _ _ _ _ _ B) in T1. destruct h as [off sz].
  destruct (Status.ok s1) eqn:Hs1; cbn [negb]; intros [= <- <- <-].
  2:{ split_and!; [done|done|congruence]. }
  split_and!; [done|done|]. intros _. destruct (F1 eq_refl) as ([= -> ->] & -> & F).
  exists (bs ++ [mkTblock items ridx]). rewrite table_entries_snoc. split; [done|].
  pose proof (estimate_at _ _ _ Hat) as Hest. pose proof (bd_weight _ _ _ _ _ _ _ B) as Hwt.
  pose proof (size_nonneg (data_of bs)). pose proof (size_nonneg (block_of items ridx)).
  assert (1 <= size items) by (pose proof (size_nonneg items); lia).
  cbn [with_block path_] in F.
  split; simpl; rewrite ?table_entries_snoc, ?app_nil_r; simpl; try apply B; try done.
  - rewrite <- (bd_path _ _ _ _ _ _ _ B) at 1. rewrite F, (bd_path _ _ _ _ _ _ _ B), (bd_file _ _ _ _ _ _ _ B).
    by rewrite data_of_snoc.
  - rewrite (bd_size _ _ _ _ _ _ _ B), data_of_snoc, size_app, size_seal. unfold kBlockTrailerSize.
    unfold b_bytes; cbn [b_items b_ridx]. apply u64_id. lia.
  - rewrite (bd_last _ _ _ _ _ _ _ B Hne), (bd_size _ _ _ _ _ _ _ B), (bd_index _ _ _ _ _ _ _ B).
    rewrite index_entry_app, index_from_snoc, encode_index_app. f_equal.
    unfold encode_index. simpl. by rewrite app_nil_r.
  - by destruct (new_builder_at 1).
  - apply Forall_app. split; [apply B|]. apply Forall_singleton. by split.
  - rewrite data_of_snoc, size_app, size_seal. rewrite (estimate_at _ _ _ Hblk).
    change (size (block_of [] [0%nat])) with 8. unfold b_bytes, b_entries. cbn [b_items b_ridx].
    change (size (@nil item)) with 0. lia.
Qed.

(** Any number of entries in, with the last block not yet due. *)
Definition in_progress (b : TableBuilder) (w : World) (es : list entry) : Prop :=
  exists bs items ridx, building o path b w bs items ridx /\
    table_entries bs ++ map item_entry items = es /\
    (items <> [] -> CurrentSizeEstimate (block_ b) < block_size_bytes o).

Lemma Add_spec b w es e s b' w' :
  in_progress b w es -> 0 <= block_size_bytes o -> block_size_bytes o + weight e < 2 ^ 32 ->
  total_weight (es ++ [e]) < 2 ^ 61 -> Add e.1 e.2 b w = (s, b', w') ->
  touches path w w' /\ (w_oracle w = [] -> s = Status.OK) /\
  (Status.ok s = true -> in_progress b' w' (es ++ [e])).
Proof.
  intros (bs & items & ridx & B & Hes & Hcut) Hbs He Hw. unfold Add. rewrite (bd_open _ _ _ _ _ _ _ B). cbn [negb].
  pose proof (bd_block _ _ _ _ _ _ _ B) as Hat. pose proof (bd_layout _ _ _ _ _ _ _ B) as HL.
  pose proof (CurrentSizeEstimate_Add_le e.1 e.2 (block_ b)) as Hup. unfold weight in He.
  pose proof (size_nonneg e.1). pose proof (size_nonneg e.2).
  assert (CurrentSizeEstimate (block_ b) <= Z.max 8 (block_size_bytes o)) as Hest.
  { destruct (decide (items = [])) as [->|Hne]; [|specialize (Hcut Hne); lia].
    rewrite (estimate_at _ _ _ Hat), (lay_empty _ _ HL eq_refl). change (size (block_of [] [0%nat])) with 8. lia. }
  destruct (builder_Add_at (block_ b) items ridx e.1 e.2 Hat HL) as (it & ridx' & Hit & Hat' & HL'); [lia..|].
  set (b1 := mkTableBuilder _ _ _ _ (Block.Add e.1 e.2 (block_ b)) _ _ _ _ _ _ _).
  assert (table_entries bs ++ map item_entry (items ++ [it]) = es ++ [e]) as Hes1.
  { rewrite map_app, app_assoc, Hes. simpl. rewrite Hit. by destruct e. }
  assert (building o path b1 w bs (items ++ [it]) ridx') as B1.
  { split; simpl; rewrite ?Hes1; try apply B; try done.
    - intros _. rewrite last_snoc. simpl. by injection Hit as -> _.
    - rewrite (bd_filter _ _ _ _ _ _ _ B), Hes, map_app. done.
    - rewrite (bd_num _ _ _ _ _ _ _ B), Hes, size_app. done.
    - rewrite (bd_num _ _ _ _ _ _ _ B), (bd_smallest _ _ _ _ _ _ _ B), Hes.
      destruct es as [|x es]; [done|]. rewrite size_cons. pose proof (size_nonneg es).
      by destruct (Z.eqb_spec (1 + size es) 0); [lia|].
    - by rewrite last_snoc.
    - pose proof (bd_weight _ _ _ _ _ _ _ B) as Hwt. rewrite Hes in Hwt. rewrite total_weight_app, size_app.
      simpl. change (size [it]) with 1. unfold weight. lia. }
  change (options_ b1) with (options_ b). rewrite (bd_options _ _ _ _ _ _ _ B).
  destruct (Z.leb_spec (block_size_bytes o) (CurrentSizeEstimate (block_ b1))) as [Hle|Hlt].
  - intros E. destruct (FlushDataBlock_spec _ _ _ _ _ _ _ _ B1 ltac:(by rewrite Hes1) E) as (T & O & F).
    split_and!; [done|done|]. intros Hs. destruct (F Hs) as (bs' & Hbs' & B'). rewrite Hes1 in Hbs'.
    exists bs', [], [0%nat]. by rewrite app_nil_r.
  - intros [= <- <- <-]. split_and!; [done|done|]. intros _. by exists bs, (items ++ [it]), ridx'.
Qed.

End Building.

(** The loop of a flush over what it keeps. *)
Fixpoint add_entries (es : list entry) (b : TableBuilder) (w : World) : Status * TableBuilder * World :=
  match es with
  | [] => (Status.OK, b, w)
  | e :: es =>
      let '(s, b, w) := Add e.1 e.2 b w in
      if Status.ok s then add_entries es b w else (s, b, w)
  end.

Lemma add_entries_spec o path todo : forall b w es s b' w',
  in_progress o path b w es -> writable o (es ++ todo) -> add_entries todo b w = (s, b', w') ->
  touches path w w' /\ (w_oracle w = [] -> s = Status.OK) /\
  (Status.ok s = true -> in_progress o path b' w' (es ++ todo)).
Proof.
  induction todo as [|e todo IH]; intros b w es s b' w' Hin Hwr; simpl.
  { intros [= <- <- <-]. by rewrite app_nil_r. }
  destruct (Add e.1 e.2 b w) as [[s1 b1] w1] eqn:E.
  assert (es ++ e :: todo = (es ++ [e]) ++ todo) as Heq by (by rewrite <- app_assoc).
  rewrite Heq in *. pose proof (wr_total _ _ Hwr) as Htot. rewrite total_weight_app in Htot.
  pose proof (total_weight_size todo). pose proof (size_nonneg todo).
  assert (block_size_bytes o + weight e < 2 ^ 32) as He.
  { pose proof (wr_block _ _ Hwr) as Hb. rewrite !Forall_app, Forall_singleton in Hb. tauto. }
  destruct (Add_spec o path b w es e _ _ _ Hin (wr_block_pos _ _ Hwr) He ltac:(lia) E) as (T & O & F).
  destruct (Status.ok s1) eqn:Hs; [|intros [= <- <- <-]; split_and!; [done|done|congruence]].
  intros E'. destruct (IH _ _ _ _ _ _ (F eq_refl) Hwr E') as (T' & O' & F').
  split_and!; [by etrans| |done]. intros Ho. apply O'. by apply T.
Qed.

Lemma TableBuilder_Open_spec o path w s b' w' :
  TableBuilder_Open path (new_TableBuilder o) w = (s, b', w') ->
  touches path w w' /\ (w_oracle w = [] -> s = Status.OK) /\
  (Status.ok s = true -> in_progress o path b' w' []).
Proof.
  unfold TableBuilder_Open. destruct (sys_simple _ w) as [s0 w0] eqn:E.
  destruct (sys_simple_spec _ path _ _ _ E) as (T & F & O).
  destruct (Status.ok s0) eqn:Hs; intros [= <- <- <-]; [|split_and!; [done|done|congruence]].
  split_and!; [|done|].
  - etrans; [exact T|]. split; [|done]. intros p Hp. simpl. by apply lookup_insert_ne.
  - intros _. exists [], [], [0%nat]. split_and!; [|done|done].
    destruct (new_builder_at (block_restart_interval o)) as [Hb HL].
    split; simpl; try done. unfold contents. simpl. by rewrite lookup_insert_eq.
Qed.

Lemma size_Build keys bits :
  0 <= bits < 2 ^ 31 -> size keys * bits < 2 ^ 61 -> size (Build keys bits) < 2 ^ 60.
Proof.
  intros Hb Hk. unfold Build. fold (size keys). rewrite (u64_id bits), (u64_id (_ * _)), u64_id;
    [|pose proof (size_nonneg keys); nia..].
  rewrite size_app. change (size [byte.of_Z _]) with 1. unfold size at 1.
  rewrite length_add_keys, length_replicate.
  assert ((Z.max (size keys * bits) 64 + 7) / 8 < 2 ^ 60 - 1) by (apply Z.div_lt_upper_bound; lia).
  assert (0 <= (Z.max (size keys * bits) 64 + 7) / 8) by (apply Z.div_pos; lia). lia.
Qed.

(** What a finished builder reports of a file. *)
Record finished (o : Options) (path : string) (b : TableBuilder) (w : World) (es : list entry)
    (bs : list tblock) : Prop := {
  fin_blocks : Forall block_good bs;
  fin_entries : table_entries bs = es;
  fin_file : w_files w !! path = Some (table_bytes bs (Build (map user_key es) (bloom_bits_per_key o)));
  fin_size : file_size_ b = size (table_bytes bs (Build (map user_key es) (bloom_bits_per_key o)));
  fin_smallest : smallest_key_ b = default [] (fst <$> head es);
  fin_largest : largest_key_ b = default [] (fst <$> last es);
  fin_closed : fd_ b = false /\ finished_ b = true;
  fin_data : size (data_of bs) < 2 ^ 61 + 8
}.

Lemma size_make_footer a b c d : size (make_footer a b c d) = 40.
Proof. unfold make_footer, PutFixed64. by autorewrite with lsm. Qed.

Lemma size_table_bytes bs bloom :
  size (table_bytes bs bloom) =
    size (data_of bs) + (size bloom + 4) + (size (encode_index (index_from 0 bs)) + 4) + 40.
Proof. unfold table_bytes. rewrite !size_app, !size_seal, size_make_footer. lia. Qed.

(** The sizes of the three parts of a file. *)
Lemma table_sizes o path b w bs es :
  building o path b w bs [] [0%nat] -> table_entries bs = es -> writable o es ->
  size (data_of bs) < 2 ^ 61 + 8 /\ size (encode_index (index_from 0 bs)) < 2 ^ 61 /\
  size (Build (map user_key es) (bloom_bits_per_key o)) < 2 ^ 60.
Proof.
  intros B Hes Hwr. pose proof (wr_total _ _ Hwr). pose proof (bd_weight _ _ _ _ _ _ _ B) as Hwt.
  rewrite Hes, app_nil_r in Hwt. rewrite (estimate_at _ _ _ (bd_block _ _ _ _ _ _ _ B)) in Hwt.
  pose proof (size_nonneg (block_of [] [0%nat])). pose proof (size_nonneg (@nil item)). split_and!; [lia| |].
  - pose proof (size_encode_index bs 0 (bd_blocks _ _ _ _ _ _ _ B)). rewrite Hes in *. lia.
  - apply size_Build; [apply Hwr|]. unfold size. rewrite length_map. apply Hwr.
Qed.

(** The part of [Finish] after the last data block. *)
Lemma Finish_tail_spec o path b w bs es bloom s1 h1 b1 w1 s2 h2 b2 w2 s3 w3 :
  building o path b w bs [] [0%nat] -> table_entries bs = es -> writable o es ->
  bloom = Build (map user_key es) (bloom_bits_per_key o) ->
  WriteBlock bloom b w = (s1, h1, b1, w1) -> Status.ok s1 = true ->
  WriteBlock (index_block_ b1) b1 w1 = (s2, h2, b2, w2) -> Status.ok s2 = true ->
  let footer := make_footer h2.1 h2.2 h1.1 h1.2 in
  WriteFully (path_ b2) footer w2 = (s3, w3) -> Status.ok s3 = true ->
  b2 = grow b1 (size (index_block_ b) + 4) /\ b1 = grow b (size bloom + 4) /\
  w_files w3 !! path = Some (table_bytes bs bloom) /\
  file_size_ (grow b2 (size footer)) = size (table_bytes bs bloom).
Proof.
  intros B Hes Hwr Hbloom E1 H1 E2 H2 footer E3 H3.
  destruct (table_sizes o path b w bs es B Hes Hwr) as (Hd & Hi & Hb). rewrite <- Hbloom in Hb.
  pose proof (size_nonneg (data_of bs)). pose proof (size_nonneg bloom).
  pose proof (size_nonneg (encode_index (index_from 0 bs))).
  destruct (WriteBlock_spec _ _ _ _ _ _ _ E1) as (_ & _ & F1). destruct (F1 H1) as (-> & -> & C1).
  destruct (WriteBlock_spec _ _ _ _ _ _ _ E2) as (_ & _ & F2). destruct (F2 H2) as (-> & -> & C2).
  destruct (WriteAll_spec _ _ _ _ _ _ E3) as (_ & _ & F3). specialize (F3 H3).
  unfold footer in *. clear footer E1 E2 E3 F1 F2. cbn [fst snd grow index_block_ file_size_ path_] in *.
  rewrite (bd_path _ _ _ _ _ _ _ B) in *.
  rewrite C2, C1, (bd_file _ _ _ _ _ _ _ B), (bd_index _ _ _ _ _ _ _ B), (bd_size _ _ _ _ _ _ _ B) in F3.
  rewrite (bd_size _ _ _ _ _ _ _ B). unfold kBlockTrailerSize in *. rewrite (bd_index _ _ _ _ _ _ _ B).
  rewrite (u64_id (size (data_of bs) + (size bloom + 4))) in * by lia.
  rewrite size_make_footer, size_table_bytes. split_and!; [done|done| |].
  - rewrite F3. f_equal. unfold table_bytes. by rewrite <- !app_assoc.
  - by rewrite (u64_id (_ + (_ + 4))), u64_id by lia.
Qed.

Lemma TableBuilder_Finish_spec o path b w es s b' w' :
  in_progress o path b w es -> writable o es -> TableBuilder_Finish b w = (s, b', w') ->
  touches path w w' /\ (w_oracle w = [] -> s = Status.OK) /\
  (Status.ok s = true -> exists bs, finished o path b' w' es bs).
Proof.
  intros (bs0 & items & ridx & B0 & Hes0 & _) Hwr. unfold TableBuilder_Finish.
  rewrite (bd_open _ _ _ _ _ _ _ B0). cbn [negb].
  destruct (FlushDataBlock b w) as [[s0 b0] w0] eqn:E0.
  destruct (FlushDataBlock_spec _ _ _ _ _ _ _ _ _ _ B0 ltac:(rewrite Hes0; apply Hwr) E0) as (T0 & O0 & F0).
  destruct (Status.ok s0) eqn:Hs0; cbn [negb]; [|intros [= <- <- <-]; split_and!; [done|done|congruence]].
  destruct (F0 eq_refl) as (bs & Hes & B). rewrite Hes0 in Hes.
  destruct (WriteBlock (Build _ _) b0 w0) as [[[s1 h1] b1] w1] eqn:E1.
  destruct (WriteBlock_spec _ _ _ _ _ _ _ E1) as (T1 & O1 & F1). rewrite (bd_path _ _ _ _ _ _ _ B) in T1.
  assert (touches path w w1) as T1' by (by etrans). destruct h1 as [bo bsz].
  destruct (Status.ok s1) eqn:Hs1; cbn [negb].
  2:{ intros [= <- <- <-]. split_and!; [done| |congruence]. intros Ho. by apply O1, T0. }
  destruct (WriteBlock _ b1 w1) as [[[s2 h2] b2] w2] eqn:E2.
  destruct (WriteBlock_spec _ _ _ _ _ _ _ E2) as (T2 & O2 & F2).
  assert (path_ b1 = path) as Hp1 by (destruct (F1 eq_refl) as (_ & -> & _); apply B). rewrite Hp1 in T2.
  assert (touches path w w2) as T2' by (by etrans). destruct h2 as [io isz].
  destruct (Status.ok s2) eqn:Hs2; cbn [negb].
  2:{ intros [= <- <- <-]. split_and!; [done| |congruence]. intros Ho. by apply O2, T1'. }
  destruct (WriteFully _ _ w2) as [s3 w3] eqn:E3.
  destruct (WriteAll_spec _ _ _ _ _ _ E3) as (T3 & O3 & _).
  assert (path_ b2 = path) as Hp2 by (destruct (F2 eq_refl) as (_ & -> & _); done). rewrite Hp2 in T3.
  assert (touches path w w3) as T3' by (by etrans).
  destruct (Status.ok s3) eqn:Hs3; cbn [negb].
  2:{ intros [= <- <- <-]. split_and!; [done| |congruence]. intros Ho. by apply O3, T2'. }
  destruct (sys_simple "fsync" w3) as [s4 w4] eqn:E4.
  destruct (sys_simple_spec _ path _ _ _ E4) as (T4 & F4 & O4). assert (touches path w w4) as T4' by (by etrans).
  destruct (Status.ok s4) eqn:Hs4; cbn [negb].
  2:{ intros [= <- <- <-]. split_and!; [done| |congruence]. intros Ho. by apply O4, T3'. }
  destruct (sys_simple "close" w4) as [s5 w5] eqn:E5.
  destruct (sys_simple_spec _ path _ _ _ E5) as (T5 & F5 & O5). intros [= <- <- <-].
  split_and!; [by etrans|intros Ho; by apply O5, T4'|]. intros _. exists bs.
  rewrite (bd_filter _ _ _ _ _ _ _ B), (bd_options _ _ _ _ _ _ _ B), app_nil_r, Hes in E1.
  destruct (Finish_tail_spec o path b0 w0 bs es _ _ _ _ _ _ _ _ _ _ _ B Hes Hwr eq_refl E1 Hs1 E2 Hs2 E3 Hs3)
    as (Hb2 & Hb1 & Hf & Hsz).
  destruct (table_sizes o path b0 w0 bs es B Hes Hwr) as (Hd & _).
  split; simpl in *; try done; [apply B|by rewrite F5, F4| |]; rewrite Hb2, Hb1; simpl; rewrite <- Hes.
  - rewrite (bd_smallest _ _ _ _ _ _ _ B). by rewrite app_nil_r.
  - rewrite (bd_largest _ _ _ _ _ _ _ B). by rewrite app_nil_r.
Qed.

(** ** Whole files *)

(** What a flush does with the entries it keeps. *)
Definition write_table (path : string) (o : Options) (es : list entry) (w : World) : Status * TableBuilder * World :=
  let '(s, b, w) := TableBuilder_Open path (new_TableBuilder o) w in
  let '(s, b, w) := if Status.ok s then add_entries es b w else (s, b, w) in
  if Status.ok s then TableBuilder_Finish b w else (s, b, w).

Lemma write_table_spec path o es w s b' w' :
  writable o es -> write_table path o es w = (s, b', w') ->
  touches path w w' /\ (w_oracle w = [] -> s = Status.OK) /\
  (Status.ok s = true -> exists bs, finished o path b' w' es bs).
Proof.
  intros Hwr. unfold write_table. destruct (TableBuilder_Open _ _ w) as [[s0 b0] w0] eqn:E0.
  destruct (TableBuilder_Open_spec _ _ _ _ _ _ E0) as (T0 & O0 & F0).
  destruct (Status.ok s0) eqn:Hs0.
  2:{ rewrite Hs0. intros [= <- <- <-]. split_and!; [done|done|congruence]. }
  destruct (add_entries es b0 w0) as [[s1 b1] w1] eqn:E1.
  destruct (add_entries_spec o path es _ _ [] _ _ _ (F0 eq_refl) Hwr E1) as (T1 & O1 & F1).
  assert (touches path w w1) as T1' by (by etrans).
  destruct (Status.ok s1) eqn:Hs1.
  2:{ intros [= <- <- <-]. split_and!; [done| |congruence]. intros Ho. by apply O1, T0. }
  intros E2. destruct (TableBuilder_Finish_spec _ _ _ _ _ _ _ _ (F1 eq_refl) Hwr E2) as (T2 & O2 & F2).
  split_and!; [by etrans| |done]. intros Ho. by apply O2, T1'.
Qed.

(** ** Giving up *)

Lemma WriteBlock_path c b w : path_ (WriteBlock c b w).1.2 = path_ b.
Proof. unfold WriteBlock. repeat case_match; done. Qed.

Lemma FlushDataBlock_path b w : path_ (FlushDataBlock b w).1.2 = path_ b.
Proof.
  unfold FlushDataBlock. destruct (builder_empty _); [done|]. destruct (Finish _) as [c blk].
  pose proof (WriteBlock_path c (with_block b blk (index_block_ b)) w) as H.
  destruct (WriteBlock _ _ w) as [[[s [off sz]] b'] w']. by destruct (negb _).
Qed.

Lemma Add_path k v b w : path_ (Add k v b w).1.2 = path_ b.
Proof. unfold Add. destruct (negb _); [done|]. destruct (_ <=? _); [by rewrite FlushDataBlock_path|done]. Qed.

Lemma add_entries_path es : forall b w, path_ (add_entries es b w).1.2 = path_ b.
Proof.
  induction es as [|e es IH]; intros b w; simpl; [done|]. pose proof (Add_path e.1 e.2 b w) as H.
  destruct (Add _ _ b w) as [[s b'] w']. destruct (Status.ok s); [by rewrite IH|done].
Qed.

Lemma Finish_path b w : path_ (TableBuilder_Finish b w).1.2 = path_ b.
Proof.
  unfold TableBuilder_Finish. destruct (negb _); [done|]. pose proof (FlushDataBlock_path b w) as H0.
  destruct (FlushDataBlock b w) as [[s b0] w0]. destruct (negb _); [done|].
  pose proof (WriteBlock_path (Build (filter_keys_ b0) (bloom_bits_per_key (options_ b0))) b0 w0) as H1.
  destruct (WriteBlock _ b0 w0) as [[[s1 [bo bz]] b1] w1]. simpl in *. destruct (negb _); [simpl in *; congruence|].
  pose proof (WriteBlock_path (index_block_ b1) b1 w1) as H2.
  destruct (WriteBlock _ b1 w1) as [[[s2 [io iz]] b2] w2]. simpl in *. destruct (negb _); [simpl in *; congruence|].
  destruct (WriteFully _ _ _) as [s3 w3]. destruct (negb _); [simpl in *; congruence|].
  destruct (sys_simple _ _) as [s4 w4]. destruct (negb _); [simpl in *; congruence|].
  destruct (sys_simple _ _) as [s5 w5]. simpl in *. congruence.
Qed.

Lemma Open_path path o w : let b := (TableBuilder_Open path (new_TableBuilder o) w).1.2 in path_ b = path \/ path_ b = ""%string.
Proof. unfold TableBuilder_Open. destruct (sys_simple _ w) as [s w']. destruct (Status.ok s); simpl; auto. Qed.

Lemma write_table_path path o es w : let b := (write_table path o es w).1.2 in path_ b = path \/ path_ b = ""%string.
Proof.
  unfold write_table. pose proof (Open_path path o w) as H0. destruct (TableBuilder_Open _ _ w) as [[s b] w0].
  simpl in H0. destruct (Status.ok s) eqn:Hs; [|by rewrite Hs]. pose proof (add_entries_path es b w0) as H1.
  destruct (add_entries es b w0) as [[s1 b1] w1]. simpl in H1. rewrite <- H1 in H0.
  destruct (Status.ok s1); [|done]. simpl. by rewrite Finish_path.
Qed.

Lemma Abandon_path b w : path_ (Abandon b w).1 = path_ b.
Proof. unfold Abandon. by destruct (fd_ b). Qed.

(** Abandoning touches the builder's file only, and closes it. *)
Lemma Abandon_spec path b w :
  path_ b = path \/ path_ b = ""%string ->
  touches path w (Abandon b w).2 /\ fd_ (Abandon b w).1 = false.
Proof.
  intros Hp. unfold Abandon. set (x := if fd_ b then _ else _).
  assert (fd_ x.1 = false /\ path_ x.1 = path_ b /\ touches path w x.2) as (H1 & H2 & H3).
  { unfold x. destruct (fd_ b) eqn:Hf; [|done]. split_and!; [done|done|]. simpl. unfold next_ret, touches.
    by destruct w as [f [|r o]]. }
  destruct x as [b' w']. simpl in *. split; [|done]. destruct (_ && _) eqn:Ec; [|done].
  etrans; [exact H3|]. rewrite H2. destruct Hp as [->|Hp]; [apply sys_unlink_spec|]. rewrite H2, Hp in Ec.
  by rewrite bool_decide_true in Ec.
Qed.

Lemma destroy_closed b w : fd_ b = false -> destroy_TableBuilder b w = (b, w).
Proof. intros H. unfold destroy_TableBuilder. by rewrite H. Qed.
