(* ===== verification/Records.v ===== *)
(** * Log records as versions

    A record of the log numbers the operations of its batch from a base sequence
    on; each is one version of a key. Handing a list of numbered operations to a
    memtable, as a write and a replay both do, adds exactly their versions. *)

From stdpp Require Import gmap strings.
From S2P Require Import Prelude Coding InternalKey Crc32c Posix WriteBatch Wal Versions Arena Skiplist Iterator MemTable Options Sstable.

(** The operations of a record with their sequences. *)
Fixpoint numbered (base : Z) (ops : list op) : list (Z * op) :=
  match ops with
  | [] => []
  | o :: ops => (base, o) :: numbered (base + 1) ops
  end.

Definition version_of (x : Z * op) : entry :=
  let '(seq, (t, k, v)) := x in (EncodeInternalKey k seq t, v).

(** The versions of a record, of a log. *)
Definition versions (r : record) : list entry := map version_of (numbered r.1 r.2).
Definition logged (rs : list record) : list entry := concat (map versions rs).

(** What a memtable can take. *)
Definition fits (x : Z * op) : Prop :=
  let '(seq, (_, k, v)) := x in 0 <= seq <= kMaxSequenceNumber /\ size k + 8 < 2 ^ 32 /\ size v < 2 ^ 32.

Lemma numbered_app base a b : numbered base (a ++ b) = numbered base a ++ numbered (base + size a) b.
Proof.
  revert base. induction a as [|o a IH]; intros base; simpl; [by rewrite size_nil, Z.add_0_r|].
  rewrite IH, size_cons. do 3 f_equal. lia.
Qed.

Lemma size_numbered base ops : size (numbered base ops) = size ops.
Proof. revert base. induction ops as [|o ops IH]; intros base; simpl; [done|]. by rewrite !size_cons, IH. Qed.

Lemma numbered_range base ops x : x ∈ numbered base ops -> base <= x.1 < base + size ops /\ x.2 ∈ ops.
Proof.
  revert base. induction ops as [|o ops IH]; intros base; simpl; [by intros ?%elem_of_nil|].
  rewrite elem_of_cons, size_cons. pose proof (size_nonneg ops). intros [->|Hx%IH]; simpl; [split; [lia|apply elem_of_cons; by left]|].
  destruct Hx as [? ?]. split; [lia|]. apply elem_of_cons. by right.
Qed.

Lemma version_of_sequence x : fits x -> sequence (version_of x) = x.1 /\ ikey_typed (version_of x).1.
Proof.
  destruct x as [seq [[t k] v]]. intros (Hs & _ & _). unfold sequence. simpl. split; [|by apply Encode_typed].
  by rewrite ExtractSequence_Encode.
Qed.

(** Two versions of one record differ. *)
Lemma numbered_distinct base ops :
  Forall fits (numbered base ops) -> NoDup (map fst (map version_of (numbered base ops))).
Proof.
  revert base. induction ops as [|o ops IH]; intros base Hf; cbn [numbered map]; [constructor|].
  apply Forall_cons in Hf as [Ho Hf]. apply NoDup_cons. split; [|by apply IH]. intros (y & Heq & Hy)%list_elem_of_fmap.
  apply list_elem_of_fmap in Hy as (x & -> & Hx). pose proof (numbered_range _ _ _ Hx) as [Hr _].
  rewrite Forall_forall in Hf. destruct (version_of_sequence x (Hf x Hx)) as [Hs _].
  destruct (version_of_sequence (base, o) Ho) as [Hs' _]. unfold sequence in *. rewrite Heq, Hs in Hs'. simpl in Hs'. lia.
Qed.

(** ** Handing them to a handler *)

Section Handler.
Context {St : Type} (h : Z -> ValueType -> bytes -> bytes -> St -> St).

Definition give (st : St) (x : Z * op) : St := let '(seq, (t, k, v)) := x in h seq t k v st.

Lemma run_numbered ops : forall base st,
  0 <= base -> base + size ops <= 2 ^ 64 ->
  (run_ops (count_up h) ops (base, st)).2 = fold_left give (numbered base ops) st.
Proof using.
  induction ops as [|[[t k] v] ops IH]; intros base st Hb Hs; [done|]. rewrite size_cons in Hs.
  pose proof (size_nonneg ops). simpl. unfold count_up at 2. simpl. destruct ops as [|o ops]; [done|].
  rewrite size_cons in *. pose proof (size_nonneg ops). rewrite u64_id by lia. apply IH; lia.
Qed.

(** A record whose sequences do not wrap. *)
Definition in_range (r : record) : Prop := 0 <= r.1 /\ r.1 + size r.2 <= 2 ^ 64.

Lemma run_log_numbered rs : forall st,
  Forall in_range rs -> run_log h rs st = fold_left give (concat (map (fun r => numbered r.1 r.2) rs)) st.
Proof using.
  induction rs as [|r rs IH]; intros st Hr; [done|]. apply Forall_cons in Hr as [[H1 H2] Hr]. simpl. rewrite fold_left_app.
  unfold run_log in *. simpl. rewrite IH by done. f_equal. by apply run_numbered.
Qed.

End Handler.

Lemma logged_numbered rs : logged rs = map version_of (concat (map (fun r => numbered r.1 r.2) rs)).
Proof. unfold logged. rewrite concat_map, map_map. done. Qed.

Lemma logged_app a b : logged (a ++ b) = logged a ++ logged b.
Proof. unfold logged. by rewrite map_app, concat_app. Qed.

Lemma logged_concat rss : logged (concat rss) = concat (map logged rss).
Proof. induction rss as [|rs rss IH]; simpl; [done|]. by rewrite logged_app, IH. Qed.

(** ** Filling a memtable *)

Section Fill.
Context {R : Type} (rnd : R -> Z * R).

Definition add_version (m : @MemTable R) (x : Z * op) : @MemTable R :=
  let '(seq, (t, k, v)) := x in MemTable.Add rnd seq t k v m.

Lemma fill_ok xs : forall m es,
  mem_ok m es -> Forall fits xs -> NoDup (map fst (map version_of xs ++ es)) ->
  exists es', mem_ok (fold_left add_version xs m) es' /\ es' ≡ₚ map version_of xs ++ es.
Proof.
  induction xs as [|[seq [[t k] v]] xs IH]; intros m es Hm Hf Hnd; simpl; [by exists es|].
  apply Forall_cons in Hf as [(Hs & Hk & Hv) Hf]. simpl in Hnd. apply NoDup_cons in Hnd as [Hni Hnd].
  set (x := (EncodeInternalKey k seq t, v)) in *.
  assert (mem_ok (MemTable.Add rnd seq t k v m) (insert_entry x es)) as Hm'.
  { apply Add_ok; [done..|]. apply Forall_forall. intros y Hy Heq. apply Hni. apply list_elem_of_fmap. exists y.
    split; [by rewrite Heq|]. apply elem_of_app. by right. }
  destruct (IH _ _ Hm' Hf) as (es' & Hm2 & Hp).
  { rewrite (insert_entry_perm x es), <- Permutation_middle. simpl. by apply NoDup_cons. }
  exists es'. split; [done|]. rewrite Hp, (insert_entry_perm x es). by rewrite Permutation_middle.
Qed.

End Fill.
