(* ===== verification/Table.v ===== *)
(** * Reading SSTables (include/lsm/sstable.h, src/sstable.cpp: [Table] and
    [TableIterator])

    An open table holds the bytes behind its descriptor: table files are written
    once, and a descriptor outlives the file's name. Reads go through the
    environment: the file system, the shared block cache, and the counters of
    each table. A result of [None] is an access outside a buffer or an
    allocation no string can hold, where the code has no defined behaviour to
    continue with. *)

From stdpp Require Import gmap.
From S2P Require Import Prelude Coding InternalKey Crc32c Posix Versions Iterator Bloom Cache Block Options Sstable.

(** ** Environment of readers *)

Record Stats := mkStats { blocks_read : Z; bloom_rejections : Z; cache_hits : Z }.

Record Env := mkEnv {
  e_world : World;
  e_cache : option BlockCache;   (** shared by every open table *)
  e_stats : gmap Z Stats         (** counters, by file number *)
}.

Definition stats_of (e : Env) (n : Z) : Stats := default (mkStats 0 0 0) (e_stats e !! n).
Definition with_stats (e : Env) (n : Z) (s : Stats) : Env := mkEnv (e_world e) (e_cache e) (<[n := s]> (e_stats e)).
Definition count_block (n : Z) (e : Env) : Env :=
  let s := stats_of e n in with_stats e n (mkStats (blocks_read s + 1) (bloom_rejections s) (cache_hits s)).
Definition count_rejection (n : Z) (e : Env) : Env :=
  let s := stats_of e n in with_stats e n (mkStats (blocks_read s) (bloom_rejections s + 1) (cache_hits s)).
Definition count_hit (n : Z) (e : Env) : Env :=
  let s := stats_of e n in with_stats e n (mkStats (blocks_read s) (bloom_rejections s) (cache_hits s + 1)).

(** [n] bytes are still wanted and [rest] is the file from the current offset
    on. Every turn consumes an outcome or finishes the transfer or the file. *)
Fixpoint pread_loop (fuel : nat) (oracle : list sysret) (rest : bytes) (n : nat) (buf : bytes)
  : Status * bytes * list sysret :=
  match fuel with
  | O => (Status.OK, buf, oracle)
  | S fuel =>
      match n with
      | O => (Status.OK, buf, oracle)
      | _ =>
          let got (k : nat) (o : list sysret) :=
            match take k rest with
            | [] => (Status.Corruption "unexpected end of SSTable", buf, o)
            | chunk => pread_loop fuel o (drop k rest) (n - length chunk) (buf ++ chunk)
            end in
          match oracle with
          | [] => got n []
          | SysOk :: o => got n o
          | SysShort k :: o => got (Nat.min (Nat.max 1 k) n) o
          | SysIntr :: o => pread_loop fuel o rest n buf
          | SysErr e :: o => (PosixError "pread" e, buf, o)
          end
      end
  end.

(** [resize] cannot give a string of [2 ^ 63] bytes; an offset outside [off_t]
    is refused by the system. *)
Definition ReadFullyAt (file : bytes) (offset n : Z) (w : World) : option (Status * bytes * World) :=
  if 2 ^ 63 <=? n then None
  else if n =? 0 then Some (Status.OK, [], w)
  else if 2 ^ 63 <=? offset then Some (PosixError "pread" "Invalid argument", [], w)
  else
    let '(s, buf, o) :=
      pread_loop (S (S (length file + length (w_oracle w)))) (w_oracle w)
        (drop (Z.to_nat offset) file) (Z.to_nat n) [] in
    Some (s, buf, with_oracle o w).

(** ** Table *)

Record Table := mkTable {
  t_path : string;
  t_fd : bytes;              (** the file behind the descriptor *)
  t_file_size : Z;
  verify_checksums_ : bool;
  file_number_ : Z;
  index_ : list IndexEntry;
  bloom_ : bytes             (** the filter's [data_] *)
}.

(** [ReadBlock] after the cache has been asked. *)
Definition fetch_block (t : Table) (entry : IndexEntry) (cacheable : bool) (e : Env) : option (Status * bytes * Env) :=
  '(s, buf, w) ← ReadFullyAt (t_fd t) (ie_offset entry) (u64 (ie_size entry + kBlockTrailerSize)) (e_world e);
  let e := mkEnv w (e_cache e) (e_stats e) in
  if negb (Status.ok s) then Some (s, [], e)
  else if size buf <? ie_size entry + kBlockTrailerSize then None
  else
    let stored := DecodeFixed32 (drop (Z.to_nat (ie_size entry)) buf) in
    let contents := take (Z.to_nat (ie_size entry)) buf in
    if verify_checksums_ t && negb (Value contents =? stored) then
      Some (Status.Corruption (t_path t ++ ": block checksum mismatch"), [], e)
    else
      let e := count_block (file_number_ t) e in
      match (if cacheable then e_cache e else None) with
      | Some c =>
          let '(r, c) := Insert (file_number_ t) (ie_offset entry) contents c in
          Some (Status.OK, default contents r, mkEnv (e_world e) (Some c) (e_stats e))
      | None => Some (Status.OK, contents, e)
      end.

Definition ReadBlock (t : Table) (entry : IndexEntry) (cacheable : bool) (e : Env) : option (Status * bytes * Env) :=
  match (if cacheable then e_cache e else None) with
  | Some c =>
      let '(r, c) := Lookup (file_number_ t) (ie_offset entry) c in
      let e := mkEnv (e_world e) (Some c) (e_stats e) in
      match r with
      | Some cached => Some (Status.OK, cached, count_hit (file_number_ t) e)
      | None => fetch_block t entry cacheable e
      end
  | None => fetch_block t entry cacheable e
  end.

(** The loop over the index block. *)
Fixpoint parse_index (fuel : nat) (rest : bytes) (acc : list IndexEntry) : option (list IndexEntry) :=
  match rest, fuel with
  | [], _ => Some acc
  | _, O => Some acc
  | _, S fuel =>
      match GetLengthPrefixed rest with
      | None => None
      | Some (k, rest) =>
          if size rest <? 16 then None
          else
            parse_index fuel (drop 16 rest)
              (acc ++ [mkIndexEntry k (DecodeFixed64 rest) (DecodeFixed64 (drop 8 rest))])
      end
  end.

Definition bad (s : Status) (e : Env) : option (Status * option Table * Env) := Some (s, None, e).

(** The counters are a fresh object per open table. *)
Definition Table_Open (path : string) (options : Options) (file_number : Z) (e : Env)
  : option (Status * option Table * Env) :=
  let '(s, w) := sys_simple ("open " ++ path) (e_world e) in
  let e := mkEnv w (e_cache e) (e_stats e) in
  if negb (Status.ok s) then bad s e
  else
    match w_files w !! path with
    | None => bad (PosixError ("open " ++ path) "No such file or directory") e
    | Some file =>
        let '(s, w) := sys_simple ("fstat " ++ path) (e_world e) in
        let e := mkEnv w (e_cache e) (e_stats e) in
        if negb (Status.ok s) then bad s e
        else
          let file_size := size file in
          if file_size <? kFooterSize then bad (Status.Corruption (path ++ ": file shorter than footer")) e
          else
            let t := mkTable path file file_size (o_verify_checksums options) file_number [] [] in
            let e := with_stats e file_number (mkStats 0 0 0) in
            '(s, footer, w) ← ReadFullyAt file (file_size - kFooterSize) kFooterSize (e_world e);
            let e := mkEnv w (e_cache e) (e_stats e) in
            if negb (Status.ok s) then bad s e
            else
              let index_offset := DecodeFixed64 footer in
              let index_size := DecodeFixed64 (drop 8 footer) in
              let bloom_offset := DecodeFixed64 (drop 16 footer) in
              let bloom_size := DecodeFixed64 (drop 24 footer) in
              if negb (DecodeFixed64 (drop 32 footer) =? kTableMagic) then
                bad (Status.Corruption (path ++ ": bad table magic")) e
              else if (file_size <? u64 (u64 (index_offset + index_size) + kBlockTrailerSize)) ||
                      (file_size <? u64 (u64 (bloom_offset + bloom_size) + kBlockTrailerSize)) then
                bad (Status.Corruption (path ++ ": footer points past end of file")) e
              else
                '(s, bloom, e) ← ReadBlock t (mkIndexEntry [] bloom_offset bloom_size) false e;
                if negb (Status.ok s) then bad s e
                else
                  '(s, idx, e) ← ReadBlock t (mkIndexEntry [] index_offset index_size) false e;
                  if negb (Status.ok s) then bad s e
                  else
                    match parse_index (length idx) idx [] with
                    | None => bad (Status.Corruption (path ++ ": malformed index block")) e
                    | Some index =>
                        let st := stats_of e file_number in
                        Some (Status.OK,
                          Some (mkTable path file file_size (o_verify_checksums options) file_number index bloom),
                          with_stats e file_number (mkStats 0 (bloom_rejections st) (cache_hits st)))
                    end
    end.

(** The binary search of [Get] and [Seek]: the first block whose last key is not
    below [target]. *)
Definition first_block (index : list IndexEntry) (target : bytes) : nat :=
  lower_bound (fun ie => CompareInternalKey (ie_last_key ie) target <? 0) index.

(** The inner [None] is a [false] result; otherwise the status and the value,
    when one is written. *)
Definition Get (key : bytes) (seq : Z) (t : Table) (e : Env) : option (option (Status * option bytes) * Env) :=
  if negb (MayContain (bloom_ t) key) then Some (None, count_rejection (file_number_ t) e)
  else
    let target := lookup_buffer_key (make_LookupKeyBuffer key seq kValue) in
    match index_ t !! first_block (index_ t) target with
    | None => Some (None, e)
    | Some ie =>
        '(s, contents, e) ← ReadBlock t ie true e;
        if negb (Status.ok s) then Some (Some (s, None), e)
        else
          let block := make_BlockReader contents in
          if negb (Status.ok (status_ block)) then Some (Some (status_ block, None), e)
          else
            block ← Block.Seek target block;
            if negb (Status.ok (status_ block)) then Some (Some (status_ block, None), e)
            else if negb (valid_ block) then Some (None, e)
            else
              let ikey := key_ block in
              if negb (sv_eqb (ExtractUserKey ikey) key) then Some (None, e)
              else if ExtractValueType ikey =? type_code kDeletion then
                Some (Some (Status.NotFound "", None), e)
              else Some (Some (Status.OK, Some (value_ block)), e)
    end.

(** ** Table iterator *)

Record TableIterator := mkTableIterator {
  table_ : Table;
  block_index_ : nat;
  reader_ : BlockReader;
  it_valid : bool;
  it_status : Status;
  it_undefined : bool   (** an access left its buffer; nothing is promised afterwards *)
}.

Definition new_TableIterator (t : Table) : TableIterator :=
  mkTableIterator t 0 null_BlockReader false Status.OK false.

Definition undefined (it : TableIterator) : TableIterator :=
  mkTableIterator (table_ it) (block_index_ it) (reader_ it) false (it_status it) true.

Definition stop (it : TableIterator) (i : nat) (r : BlockReader) (s : Status) : TableIterator :=
  mkTableIterator (table_ it) i r false s (it_undefined it).

(** [LoadBlock]: one turn per block that is left. *)
Fixpoint LoadBlock (fuel : nat) (target : option bytes) (i : nat) (it : TableIterator) (e : Env) : TableIterator * Env :=
  match fuel with
  | O => (stop it i (reader_ it) (it_status it), e)
  | S fuel =>
      match index_ (table_ it) !! i with
      | None => (stop it i (reader_ it) (it_status it), e)
      | Some ie =>
          match ReadBlock (table_ it) ie true e with
          | None => (undefined it, e)
          | Some (s, contents, e) =>
              if negb (Status.ok s) then (stop it i (reader_ it) s, e)
              else
                let r := make_BlockReader contents in
                if negb (Status.ok (status_ r)) then (stop it i r (status_ r), e)
                else
                  match (match target with Some t => Block.Seek t r | None => Block.SeekToFirst r end) with
                  | None => (undefined it, e)
                  | Some r =>
                      if negb (Status.ok (status_ r)) then (stop it i r (status_ r), e)
                      else if valid_ r then (mkTableIterator (table_ it) i r true s (it_undefined it), e)
                      else LoadBlock fuel None (S i) (stop it i r s) e
                  end
          end
      end
  end.

Definition load (target : option bytes) (i : nat) (it : TableIterator) (e : Env) : TableIterator * Env :=
  LoadBlock (S (length (index_ (table_ it)))) target i it e.

Definition t_SeekToFirst (it : TableIterator) (e : Env) : TableIterator * Env := load None 0 it e.

Definition t_Seek (target : bytes) (it : TableIterator) (e : Env) : TableIterator * Env :=
  load (Some target) (first_block (index_ (table_ it)) target) it e.

Definition t_Next (it : TableIterator) (e : Env) : TableIterator * Env :=
  if negb (it_valid it) then (it, e)
  else
    match Block.Next (reader_ it) with
    | None => (undefined it, e)
    | Some r =>
        if valid_ r then
          (mkTableIterator (table_ it) (block_index_ it) r true (it_status it) (it_undefined it), e)
        else if negb (Status.ok (status_ r)) then (stop it (block_index_ it) r (status_ r), e)
        else load None (S (block_index_ it)) (stop it (block_index_ it) r (it_status it)) e
    end.

#[export] Instance TableIter : Iterator Env TableIterator := {|
  Iterator.Valid := it_valid;
  Iterator.SeekToFirst := t_SeekToFirst;
  Iterator.Seek := t_Seek;
  Iterator.Next := t_Next;
  Iterator.key := fun it => key_ (reader_ it);
  Iterator.value := fun it => value_ (reader_ it);
  Iterator.status := it_status
|}.

(** ** Reading bytes *)

(** No transfer fails; it may be short or interrupted. On a calm system nothing
    happens at all. *)
Definition benign (calm : bool) (o : list sysret) : Prop :=
  if calm then o = [] else Forall (fun r => match r with SysErr _ => False | _ => True end) o.

Lemma benign_cons calm r o : benign calm (r :: o) -> benign calm o.
Proof. destruct calm; [done|]. by intros [_ ?]%Forall_cons. Qed.

Lemma pread_loop_spec calm fuel : forall oracle rest n buf,
  benign calm oracle -> (n <= length rest)%nat -> (n + length oracle < fuel)%nat ->
  exists o, pread_loop fuel oracle rest n buf = (Status.OK, buf ++ take n rest, o) /\ benign calm o.
Proof.
  induction fuel as [|fuel IH]; intros oracle rest n buf Hb Hn Hf; [lia|]. cbn [pread_loop].
  destruct n as [|n]; [exists oracle; by rewrite app_nil_r|].
  assert (forall k o, benign calm o -> (1 <= k <= S n)%nat -> (length o <= length oracle)%nat ->
    exists o', match take k rest with
      | [] => (Status.Corruption "unexpected end of SSTable", buf, o)
      | c :: chunk => pread_loop fuel o (drop k rest) (S n - length (c :: chunk)) (buf ++ c :: chunk)
      end = (Status.OK, buf ++ take (S n) rest, o') /\ benign calm o') as Hgot.
  { intros k o Ho Hk Hlo. destruct (take k rest) as [|c chunk] eqn:Ec.
    { apply (f_equal length) in Ec. rewrite length_take in Ec. simpl in Ec. lia. }
    assert (length (c :: chunk) = k) as Hlen by (rewrite <- Ec, length_take; lia). rewrite Hlen.
    destruct (IH o (drop k rest) (S n - k)%nat (buf ++ c :: chunk) Ho) as (o' & -> & Ho');
      [rewrite length_drop; lia|lia|]. exists o'. split; [|done].
    rewrite <- app_assoc, <- Ec. do 3 f_equal.
    rewrite take_take_drop. f_equal. lia. }
  destruct oracle as [|r oracle]; [apply Hgot; [done|lia|simpl; lia]|].
  pose proof (benign_cons _ _ _ Hb) as Hb'. destruct r as [|k| |e].
  - apply Hgot; [done|lia|simpl; lia].
  - apply Hgot; [done|lia|simpl; lia].
  - apply IH; [done|done|simpl in *; lia].
  - destruct calm; [done|]. by apply Forall_cons in Hb as [].
Qed.

Lemma ReadFullyAt_spec calm file off n w :
  benign calm (w_oracle w) -> 0 <= off -> 0 <= n -> off + n <= size file -> size file < 2 ^ 63 ->
  exists o, ReadFullyAt file off n w =
    Some (Status.OK, take (Z.to_nat n) (drop (Z.to_nat off) file), with_oracle o w) /\ benign calm o.
Proof.
  intros Hb Ho Hn Hsz Hmax. unfold ReadFullyAt. zcase. destruct (Z.eqb_spec n 0) as [->|Hnz].
  { exists (w_oracle w). by destruct w. }
  zcase. unfold size in *.
  destruct (pread_loop_spec calm (S (S (length file + length (w_oracle w)))) (w_oracle w) (drop (Z.to_nat off) file)
    (Z.to_nat n) [] Hb) as (o & -> & Ho'); [rewrite length_drop; lia|lia|]. by exists o.
Qed.

(** A transfer that reports success is complete, whatever happened on the way. *)
Lemma pread_loop_complete fuel : forall oracle rest n buf s buf' o,
  pread_loop fuel oracle rest n buf = (s, buf', o) -> (length rest + length oracle < fuel)%nat ->
  Status.ok s = true -> buf' = buf ++ take n rest /\ (n <= length rest)%nat.
Proof.
  induction fuel as [|fuel IH]; intros oracle rest n buf s buf' o; [lia|]. cbn [pread_loop].
  destruct n as [|n]; [intros [= <- <- <-]; rewrite app_nil_r; split; [done|lia]|]. intros E Hf Hs.
  assert (forall k o0, (1 <= k <= S n)%nat -> (length o0 <= length oracle)%nat ->
    match take k rest with
    | [] => (Status.Corruption "unexpected end of SSTable", buf, o0)
    | c :: chunk => pread_loop fuel o0 (drop k rest) (S n - length (c :: chunk)) (buf ++ c :: chunk)
    end = (s, buf', o) -> buf' = buf ++ take (S n) rest /\ (S n <= length rest)%nat) as Hgot.
  { intros k o0 Hk Hlo Hgot. destruct (take k rest) as [|c chunk] eqn:Ec; [injection Hgot as <- _ _; done|].
    pose proof (f_equal length Ec) as Hlen. rewrite length_take in Hlen. simpl in Hlen. rewrite <- Ec in *.
    rewrite length_take in Hgot. apply IH in Hgot as [-> Hn]; [|rewrite length_drop; lia|done].
    rewrite length_drop in Hn. split; [|lia].
    rewrite <- app_assoc, take_take_drop. do 2 f_equal. lia. }
  destruct oracle as [|[|k| |e] oracle]; try (eapply Hgot; [..|exact E]; simpl; lia).
  - apply IH in E; [done|simpl in *; lia|done].
  - by injection E as <- _ _.
Qed.

Lemma ReadFullyAt_complete file off n w s buf w' :
  0 <= n -> ReadFullyAt file off n w = Some (s, buf, w') -> Status.ok s = true ->
  buf = take (Z.to_nat n) (drop (Z.to_nat off) file) /\ size buf = n.
Proof.
  intros Hn. unfold ReadFullyAt. zcase; [done|]. destruct (Z.eqb_spec n 0) as [->|]; [by intros [= <- <- <-]|].
  zcase; [by intros [= <- <- <-]|]. destruct (pread_loop _ _ _ _ _) as [[s0 buf0] o] eqn:E. intros [= <- <- <-] Hs.
  apply pread_loop_complete in E as [-> Hlen]; [|rewrite length_drop; lia|done]. split; [done|].
  unfold size. simpl. rewrite length_take. lia.
Qed.

Lemma ReadFullyAt_defined file off n w : n < 2 ^ 63 -> ReadFullyAt file off n w <> None.
Proof. intros Hn. unfold ReadFullyAt. zcase. repeat case_match; done. Qed.

(** The file system and the cache are as before. *)
Record only_reads (e e' : Env) : Prop := {
  or_files : w_files (e_world e') = w_files (e_world e);
  or_cache : e_cache e' = e_cache e;
  or_oracle : w_oracle (e_world e) = [] -> w_oracle (e_world e') = []
}.

#[export] Instance only_reads_preorder : PreOrder only_reads.
Proof. split; [by split|]. intros a b c [H1 H2 H3] [H4 H5 H6]. split; [congruence|congruence|auto]. Qed.

Lemma only_reads_stats e n st : only_reads e (with_stats e n st).
Proof. by split. Qed.

Lemma pread_loop_calm fuel : forall rest n buf s buf' o, pread_loop fuel [] rest n buf = (s, buf', o) -> o = [].
Proof.
  induction fuel as [|fuel IH]; intros rest n buf s buf' o; cbn [pread_loop]; [by intros [= _ _ <-]|].
  destruct n as [|n]; [by intros [= _ _ <-]|]. destruct (take (S n) rest); [by intros [= _ _ <-]|]. apply IH.
Qed.

Lemma ReadFullyAt_any file off n e :
  0 <= n < 2 ^ 63 -> 0 <= off ->
  exists s buf w, ReadFullyAt file off n (e_world e) = Some (s, buf, w) /\
    only_reads e (mkEnv w (e_cache e) (e_stats e)) /\
    (Status.ok s = true -> buf = take (Z.to_nat n) (drop (Z.to_nat off) file) /\ size buf = n) /\
    (w_oracle (e_world e) = [] -> off + n <= size file -> size file < 2 ^ 63 -> s = Status.OK).
Proof.
  intros Hn Hoff. destruct (ReadFullyAt file off n (e_world e)) as [[[s buf] w]|] eqn:E; [|exfalso; revert E; apply ReadFullyAt_defined; lia].
  exists s, buf, w. split_and!; [done| | |].
  - revert E. unfold ReadFullyAt. destruct (Z.leb_spec (2 ^ 63) n); [done|].
    destruct (Z.eqb_spec n 0); [intros [= <- <- <-]; by split|].
    destruct (Z.leb_spec (2 ^ 63) off); [intros [= <- <- <-]; by split|].
    destruct (pread_loop _ _ _ _ _) as [[s0 buf0] o] eqn:E. intros [= <- <- <-]. split; [done|done|]. simpl.
    intros Ho. rewrite Ho in E. by apply pread_loop_calm in E.
  - intros Hs. eapply ReadFullyAt_complete; [|exact E|done]. lia.
  - intros Ho Hsz Hmax. assert (benign true (w_oracle (e_world e))) as Hb by (by rewrite Ho).
    destruct (ReadFullyAt_spec true file off n (e_world e) Hb) as (o & E' & _); [lia..|]. congruence.
Qed.

(** ** The environment of readers *)

Section Env.
Context (calm : bool) (truth : Key -> option bytes) (files : gmap string bytes).

(** [truth] says which block belongs to a file and an offset. *)
Record env_inv (e : Env) : Prop := {
  env_files : w_files (e_world e) = files;
  env_benign : benign calm (w_oracle (e_world e));
  env_cache : match e_cache e with Some c => cache_inv c /\ coherent truth c | None => True end
}.

Lemma env_inv_stats e w c st st' : env_inv (mkEnv w c st) -> e = mkEnv w c st' -> env_inv e.
Proof. intros [H1 H2 H3] ->. by split. Qed.

Lemma env_inv_count n e s : env_inv e -> env_inv (with_stats e n s).
Proof. intros [H1 H2 H3]. by split. Qed.

Lemma env_inv_oracle e o :
  env_inv e -> benign calm o -> env_inv (mkEnv (with_oracle o (e_world e)) (e_cache e) (e_stats e)).
Proof. intros [H1 H2 H3] Ho. by split. Qed.

Lemma env_inv_op e c op :
  env_inv e -> e_cache e = Some c -> faithful truth op ->
  env_inv (mkEnv (e_world e) (Some (cache_step op c).2) (e_stats e)).
Proof.
  intros [H1 H2 H3] Hc Hop. rewrite Hc in H3. destruct H3 as [H3 H4]. split; [done|done|].
  exact (cache_step_coherent truth op c H3 H4 Hop).
Qed.

(** A sealed block at [off] in the table's file. *)
Definition block_in (t : Table) (ie : IndexEntry) (c : bytes) : Prop :=
  ie_size ie = size c /\ size c < 2 ^ 62 /\ size (t_fd t) < 2 ^ 63 /\
  exists pre post, t_fd t = pre ++ seal c ++ post /\ ie_offset ie = size pre.

Lemma block_in_read t ie c e :
  block_in t ie c -> env_inv e ->
  exists o, ReadFullyAt (t_fd t) (ie_offset ie) (u64 (ie_size ie + kBlockTrailerSize)) (e_world e) =
    Some (Status.OK, seal c, with_oracle o (e_world e)) /\ benign calm o.
Proof.
  intros (Hsz & _ & Hmax & pre & post & Hfd & Hoff) [_ Hb _]. rewrite Hsz, Hoff.
  pose proof (size_nonneg c). pose proof (size_nonneg pre). pose proof (size_nonneg post).
  assert (size (t_fd t) = size pre + (size c + 4) + size post) as Hs
    by (rewrite Hfd, !size_app, size_seal; lia).
  unfold kBlockTrailerSize. rewrite u64_id by lia.
  destruct (ReadFullyAt_spec calm (t_fd t) (size pre) (size c + 4) (e_world e) Hb) as (o & -> & Ho); [lia..|].
  exists o. split; [|done]. do 3 f_equal. rewrite Hfd, drop_size by done. apply take_size. by rewrite size_seal.
Qed.

Lemma fetch_block_spec t ie c cacheable e :
  env_inv e -> block_in t ie c -> (cacheable = true -> truth (file_number_ t, ie_offset ie) = Some c) ->
  exists e', fetch_block t ie cacheable e = Some (Status.OK, c, e') /\ env_inv e'.
Proof.
  intros He Hin Htruth. unfold fetch_block. destruct (block_in_read t ie c e Hin He) as (o & -> & Ho).
  destruct Hin as (-> & Hc & _). cbn [mbind option_bind].
  rewrite ok_OK. cbv iota zeta. rewrite size_seal. unfold kBlockTrailerSize. zcase.
  assert (drop (Z.to_nat (size c)) (seal c) = le_split 4 (Value c) ++ []) as ->
    by (unfold seal, PutFixed32; by rewrite drop_size, app_nil_r by done).
  assert (take (Z.to_nat (size c)) (seal c) = c) as -> by (unfold seal, PutFixed32; by apply take_size).
  rewrite DecodeFixed32_split, u32_id, Z.eqb_refl, andb_false_r by apply Value_range.
  set (e1 := count_block _ _). assert (env_inv e1) as He1 by (by apply env_inv_count, env_inv_oracle).
  destruct cacheable; [|by exists e1]. destruct (e_cache e1) as [bc|] eqn:Ebc; [|by exists e1].
  pose proof (env_inv_op e1 bc (OpInsert (file_number_ t) (ie_offset ie) c) He1 Ebc) as Hins.
  destruct He1 as [_ _ Hbc]. rewrite Ebc in Hbc. destruct Hbc as [Hbi Hbco].
  destruct (Insert_spec (file_number_ t) (ie_offset ie) c bc Hbi Hc) as (Hr & _). simpl in Hins.
  destruct (Insert _ _ c bc) as [r bc']. simpl in Hr, Hins. subst r.
  eexists. split; [|apply Hins; by rewrite Htruth]. do 3 f_equal. simpl.
  destruct (cached bc _) as [v|] eqn:Ec; [|done]. simpl. apply Hbco in Ec. rewrite Htruth in Ec by done. congruence.
Qed.

Lemma ReadBlock_spec t ie c cacheable e :
  env_inv e -> block_in t ie c -> (cacheable = true -> truth (file_number_ t, ie_offset ie) = Some c) ->
  exists e', ReadBlock t ie cacheable e = Some (Status.OK, c, e') /\ env_inv e'.
Proof.
  intros He Hin Htruth. unfold ReadBlock.
  destruct cacheable; [|by apply fetch_block_spec]. destruct (e_cache e) as [bc|] eqn:Ebc; [|by apply fetch_block_spec].
  pose proof (env_inv_op e bc (OpLookup (file_number_ t) (ie_offset ie)) He Ebc I) as Hl.
  pose proof He as [_ _ Hbc]. rewrite Ebc in Hbc. destruct Hbc as [Hbi Hbco].
  destruct (Lookup_spec (file_number_ t) (ie_offset ie) bc Hbi) as (Hr & _). simpl in Hl.
  destruct (Lookup _ _ bc) as [r bc']. simpl in Hr, Hl. subst r.
  destruct (cached bc _) as [v|] eqn:Ec; [|by apply fetch_block_spec].
  eexists. split; [|by apply env_inv_count]. apply Hbco in Ec. rewrite Htruth in Ec by done. by injection Ec as ->.
Qed.

(** ** Open tables *)

Record table_ok (t : Table) (bs : list tblock) : Prop := {
  tb_blocks : Forall block_good bs;
  tb_sorted : sorted (table_entries bs);
  tb_index : index_ t = index_from 0 bs;
  tb_truth : forall i b, bs !! i = Some b ->
    truth (file_number_ t, size (data_of (take i bs))) = Some (b_bytes b);
  tb_file : exists post, t_fd t = data_of bs ++ post;
  tb_size : size (t_fd t) < 2 ^ 63;
  tb_bloom : forall k, k ∈ map user_key (table_entries bs) -> MayContain (bloom_ t) k = true
}.

Lemma data_of_app a b : data_of (a ++ b) = data_of a ++ data_of b.
Proof. unfold data_of. by rewrite map_app, concat_app. Qed.

Lemma table_entries_app a b : table_entries (a ++ b) = table_entries a ++ table_entries b.
Proof. unfold table_entries. by rewrite map_app, concat_app. Qed.

Lemma index_from_lookup bs : forall off i,
  index_from off bs !! i =
    (fun b => mkIndexEntry (b_last b) (off + size (data_of (take i bs))) (size (b_bytes b))) <$> bs !! i.
Proof.
  induction bs as [|b bs IH]; intros off i; [done|]. destruct i as [|i]; simpl.
  - unfold data_of. simpl. by rewrite size_nil, Z.add_0_r.
  - rewrite IH. destruct (bs !! i); [|done]. simpl. rewrite size_data_cons. do 2 f_equal. lia.
Qed.

Section OneTable.
Context (t : Table) (bs : list tblock).
Hypothesis Hok : table_ok t bs.

Lemma split_at_block i b :
  bs !! i = Some b -> table_entries bs = table_entries (take i bs) ++ b_entries b ++ table_entries (drop (S i) bs).
Proof.
  intros Hi. rewrite <- (take_drop_middle bs i b Hi) at 1. rewrite table_entries_app.
  unfold table_entries at 2. simpl. done.
Qed.

Lemma block_sorted i b : bs !! i = Some b -> sorted (b_entries b).
Proof.
  intros Hi. pose proof (tb_sorted _ _ Hok) as Hs. rewrite (split_at_block i b Hi) in Hs.
  apply sorted_app in Hs as (_ & Hs & _). by apply sorted_app in Hs as (? & _).
Qed.

Lemma block_good_at i b : bs !! i = Some b -> block_good b.
Proof. intros Hi. exact (Forall_lookup_1 _ _ _ _ (tb_blocks _ _ Hok) Hi). Qed.

Lemma index_at i b :
  bs !! i = Some b ->
  index_ t !! i = Some (mkIndexEntry (b_last b) (size (data_of (take i bs))) (size (b_bytes b))).
Proof. intros Hi. by rewrite (tb_index _ _ Hok), index_from_lookup, Hi. Qed.

Lemma block_in_table i b ie :
  bs !! i = Some b -> index_ t !! i = Some ie -> block_in t ie (b_bytes b).
Proof.
  intros Hi. rewrite (index_at i b Hi). intros [= <-]. destruct (block_good_at i b Hi) as [HL _].
  split_and!; [done| |apply Hok|].
  - simpl. unfold b_bytes. rewrite size_block_of. pose proof (lay_size _ _ HL). lia.
  - destruct (tb_file _ _ Hok) as [post Hp]. exists (data_of (take i bs)), (data_of (drop (S i) bs) ++ post).
    split; [|done]. rewrite Hp. rewrite <- (take_drop_middle bs i b Hi) at 1.
    rewrite data_of_app. unfold data_of at 2. simpl. by rewrite <- !app_assoc.
Qed.

(** A data block through the cache. *)
Lemma ReadBlock_at i b ie e :
  env_inv e -> bs !! i = Some b -> index_ t !! i = Some ie ->
  exists e', ReadBlock t ie true e = Some (Status.OK, b_bytes b, e') /\ env_inv e'.
Proof.
  intros He Hi Hie. apply ReadBlock_spec; [done|by eapply block_in_table|]. intros _.
  rewrite (index_at i b Hi) in Hie. injection Hie as <-. simpl. by apply tb_truth.
Qed.

(** ** Finding the block *)

Lemma last_below i b target :
  bs !! i = Some b -> b_last b ≺ target -> Forall (fun e => e.1 ≺ target) (b_entries b).
Proof.
  intros Hi Hl. destruct (block_good_at i b Hi) as [_ Hne]. destruct (b_last_entry b Hne) as (e & He & Hek & _).
  pose proof (block_sorted i b Hi) as Hs. apply last_Some in He as [l Heq]. rewrite Heq in *.
  apply sorted_app in Hs as (_ & _ & Hlt). rewrite <- Hek in Hl. apply Forall_app. split; [|by apply Forall_singleton].
  apply Forall_forall. intros x Hx. eapply ik_lt_trans; [apply (Hlt x e Hx); set_solver|done].
Qed.

Lemma index_partitioned target :
  partitioned (fun ie => CompareInternalKey (ie_last_key ie) target <? 0) (index_ t).
Proof.
  intros i j x y Hij Hx Hy Hp. rewrite (tb_index _ _ Hok) in *. rewrite index_from_lookup in Hx, Hy.
  destruct (bs !! i) as [bi|] eqn:Hi; [|done]. destruct (bs !! j) as [bj|] eqn:Hj; [|done].
  injection Hx as <-. injection Hy as <-. cbn [ie_last_key] in *. apply Z.ltb_lt. apply Z.ltb_lt in Hp.
  eapply ik_lt_trans; [|exact Hp]. destruct (block_good_at i bi Hi) as [_ Hni], (block_good_at j bj Hj) as [_ Hnj].
  destruct (b_last_entry bi Hni) as (x & _ & <- & Hx), (b_last_entry bj Hnj) as (y & _ & <- & Hy).
  pose proof (tb_sorted _ _ Hok) as Hs. rewrite (split_at_block i bi Hi), app_assoc in Hs.
  apply sorted_app in Hs as (_ & _ & Hlt). apply (Hlt x y); [set_solver|].
  unfold table_entries. apply list_elem_of_In, in_concat. exists (b_entries bj). split; [|by apply list_elem_of_In].
  apply list_elem_of_In, list_elem_of_fmap_2, (list_elem_of_lookup_2 _ (j - S i)). rewrite lookup_drop. rewrite <- Hj. f_equal. lia.
Qed.

(** Where the entries not below [target] start. *)
Lemma first_block_spec target :
  match bs !! first_block (index_ t) target with
  | Some b =>
      seek (b_entries b) target <> [] /\
      seek (table_entries bs) target =
        seek (b_entries b) target ++ table_entries (drop (S (first_block (index_ t) target)) bs)
  | None => seek (table_entries bs) target = []
  end.
Proof.
  destruct (lower_bound_spec _ _ (index_partitioned target)) as (Hk & Hbelow & Hnot).
  fold (first_block (index_ t) target) in *. set (k := first_block (index_ t) target) in *.
  assert (Forall (fun e => e.1 ≺ target) (table_entries (take k bs))) as Hpre.
  { unfold table_entries. apply Forall_concat, Forall_forall. intros l Hl.
    apply list_elem_of_fmap in Hl as (b & -> & Hb). apply list_elem_of_lookup in Hb as [i Hi].
    apply lookup_take_Some in Hi as [Hi Hik]. apply (last_below i b target Hi).
    specialize (Hbelow i _ Hik (index_at i b Hi)). simpl in Hbelow. lia. }
  destruct (bs !! k) as [b|] eqn:Hb.
  - specialize (Hnot _ (index_at k b Hb)). simpl in Hnot. destruct (block_good_at k b Hb) as [_ Hne].
    destruct (b_last_entry b Hne) as (e & He & Hek & _).
    assert (seek (b_entries b) target <> []) as Hhit by (apply (seek_hit _ e); [done|rewrite Hek; lia]).
    split; [done|]. rewrite (split_at_block k b Hb), seek_app_below by done. by rewrite seek_app_hit.
  - apply lookup_ge_None in Hb. rewrite take_ge in Hpre by done.
    rewrite <- (app_nil_r (table_entries bs)), seek_app_below; done.
Qed.

(** ** Point lookups *)

(** A reader positioned on the block's entry at [j]. *)
Lemma reader_entry r b j :
  reader_at r (b_items b) (b_ridx b) j ->
  status_ r = Status.OK /\ valid_ r = bool_decide (j < length (b_items b))%nat /\
  (forall e l, drop j (b_entries b) = e :: l -> (key_ r, value_ r) = e).
Proof.
  intros [Hon Hat]. split; [apply Hon|]. unfold b_entries. destruct (b_items b !! j) as [it|] eqn:E.
  - destruct Hat as (-> & -> & -> & _). pose proof E as Hlt%lookup_lt_Some. rewrite bool_decide_true by done.
    split; [done|]. intros e l Hd. rewrite (drop_S _ (item_entry it) j) in Hd by (by rewrite list_lookup_fmap, E).
    by injection Hd as <- _.
  - rewrite Hat. apply lookup_ge_None in E. rewrite bool_decide_false by lia. split; [done|].
    intros e l Hd. rewrite drop_ge in Hd; [done|]. by rewrite length_map.
Qed.

Lemma block_Seek_at i b target :
  bs !! i = Some b -> seek (b_entries b) target <> [] ->
  let r := make_BlockReader (b_bytes b) in
  status_ r = Status.OK /\
  exists r', Block.Seek target r = Some r' /\ status_ r' = Status.OK /\ valid_ r' = true /\
    reader_at r' (b_items b) (b_ridx b) (seek_pos (b_items b) target) /\
    (seek_pos (b_items b) target < length (b_items b))%nat.
Proof.
  intros Hi Hhit. destruct (block_good_at i b Hi) as [HL _]. pose proof (block_sorted i b Hi) as Hs.
  destruct (make_BlockReader_on _ _ HL) as [Hon _]. split; [apply Hon|].
  destruct (Seek_at _ _ HL Hs target _ Hon) as (r' & Hr' & Hat). exists r'.
  destruct (reader_entry _ _ _ Hat) as (Hst & Hv & _).
  assert (seek_pos (b_items b) target < length (b_items b))%nat as Hlt.
  { unfold b_entries in Hhit. rewrite <- drop_seek_pos in Hhit. apply Nat.nle_gt. intros Hle.
    apply Hhit, drop_ge. by rewrite length_map. }
  split_and!; [done|done|by rewrite Hv, bool_decide_true|done|done].
Qed.

Lemma table_Get_sorted key seq e :
  env_inv e -> entries_typed (table_entries bs) -> 0 <= seq <= kMaxSequenceNumber ->
  exists e', Get key seq t e = Some (reply (read (table_entries bs) key seq), e') /\ env_inv e'.
Proof.
  intros He Ht Hseq. unfold Get. destruct (MayContain (bloom_ t) key) eqn:Ebl; cbn [negb].
  2:{ eexists. split; [|by apply env_inv_count]. do 2 f_equal.
      replace (read (table_entries bs) key seq) with (@None (option bytes)); [done|]. unfold read.
      replace (newest (table_entries bs) key seq) with (@None entry); [done|]. symmetry. apply newest_None.
      apply Forall_forall. intros x Hx. apply not_true_iff_false. rewrite visible_true. intros [Hk _].
      rewrite (tb_bloom _ _ Hok) in Ebl; [done|]. rewrite <- Hk. by apply list_elem_of_fmap_2. }
  rewrite <- get_sorted_newest by (done || apply Hok). rewrite lookup_buffer_key_eq.
  change (EncodeInternalKey key seq kValue) with (LookupKey key seq).
  unfold get_sorted. pose proof (first_block_spec (LookupKey key seq)) as Hfb.
  set (k := first_block (index_ t) (LookupKey key seq)) in *. destruct (bs !! k) as [b|] eqn:Hb.
  2:{ rewrite Hfb, (tb_index _ _ Hok), index_from_lookup, Hb. by exists e. }
  destruct Hfb as [Hhit ->]. rewrite (index_at k b Hb).
  destruct (ReadBlock_at k b _ e He Hb (index_at k b Hb)) as (e' & -> & He'). cbn [mbind option_bind].
  rewrite ok_OK. cbv iota zeta.
  destruct (block_Seek_at k b _ Hb Hhit) as (-> & r & -> & Hst & Hv & Hat & _).
  rewrite ok_OK. cbv iota. cbn [mbind option_bind]. rewrite Hst, Hv.
  rewrite ok_OK. cbn [negb]. cbv iota.
  destruct (reader_entry _ _ _ Hat) as (_ & _ & Hent). unfold b_entries in *. rewrite drop_seek_pos in Hent.
  destruct (seek (map item_entry (b_items b)) (LookupKey key seq)) as [|x l]; [done|].
  specialize (Hent x l eq_refl). subst x. exists e'. split; [|done]. unfold user_key, answer, is_deletion. simpl.
  destruct (sv_eqb (ExtractUserKey (key_ r)) key); simpl; [|done]. by destruct (ExtractValueType (key_ r) =? 0).
Qed.

(** ** Iteration *)

(** On the entry [j] of block [i]. *)
Definition standing (it : TableIterator) (i j : nat) (b : tblock) : Prop :=
  bs !! i = Some b /\ block_index_ it = i /\ it_valid it = true /\
  reader_at (reader_ it) (b_items b) (b_ridx b) j /\ (j < length (b_items b))%nat.

Definition live (it : TableIterator) : Prop :=
  table_ it = t /\ it_status it = Status.OK /\ it_undefined it = false.

Lemma load_None it i e :
  live it -> env_inv e ->
  let r := load None i it e in
  live r.1 /\ env_inv r.2 /\
  match bs !! i with
  | Some b => standing r.1 i 0 b
  | None => it_valid r.1 = false
  end.
Proof.
  intros (Ht & Hs & Hu) He. unfold load. cbn [LoadBlock]. rewrite Ht.
  destruct (bs !! i) as [b|] eqn:Hb.
  2:{ rewrite (tb_index _ _ Hok), index_from_lookup, Hb. by split_and!. }
  rewrite (index_at i b Hb). destruct (ReadBlock_at i b _ e He Hb (index_at i b Hb)) as (e' & -> & He').
  destruct (block_good_at i b Hb) as [HL Hne]. destruct (make_BlockReader_on _ _ HL) as [Hon _].
  change (make_BlockReader (block_of (b_items b) (b_ridx b))) with (make_BlockReader (b_bytes b)) in Hon.
  replace (status_ (make_BlockReader (b_bytes b))) with Status.OK by (symmetry; apply Hon).
  destruct (SeekToFirst_at _ _ HL _ Hon) as (r & -> & Hat). destruct (reader_entry _ _ _ Hat) as (-> & Hv & _).
  assert (0 < length (b_items b))%nat as Hlen by (destruct (b_items b); [done|simpl; lia]).
  rewrite Hv, bool_decide_true by done. by split_and!.
Qed.

Lemma load_Some it i b target e :
  live it -> env_inv e -> bs !! i = Some b -> seek (b_entries b) target <> [] ->
  let r := load (Some target) i it e in
  live r.1 /\ env_inv r.2 /\ standing r.1 i (seek_pos (b_items b) target) b.
Proof.
  intros (Ht & Hs & Hu) He Hb Hhit. unfold load. cbn [LoadBlock]. rewrite Ht.
  rewrite (index_at i b Hb). destruct (ReadBlock_at i b _ e He Hb (index_at i b Hb)) as (e' & -> & He').
  destruct (block_Seek_at i b target Hb Hhit) as (-> & r & -> & -> & -> & Hat & Hlt). by split_and!.
Qed.

End OneTable.

(** A cursor over a table. *)
Definition table_at (it : TableIterator) (es suf : list entry) : Prop :=
  exists bs, table_ok (table_ it) bs /\ es = table_entries bs /\ live (table_ it) it /\
    (it_valid it = false /\ suf = [] \/
     exists i j b, standing bs it i j b /\ suf = drop j (b_entries b) ++ table_entries (drop (S i) bs)).

Lemma drop_entries_nonempty b j : (j < length (b_items b))%nat -> drop j (b_entries b) <> [].
Proof.
  intros Hj Hd. apply (f_equal length) in Hd. unfold b_entries in Hd. rewrite length_drop, length_map in Hd.
  simpl in Hd. lia.
Qed.

Lemma new_table_at t bs : table_ok t bs -> table_at (new_TableIterator t) (table_entries bs) [].
Proof. intros Hok. exists bs. split_and!; [done|done|by split_and!|by left]. Qed.

(** The state after loading block [i] from its start. *)
Lemma load_None_at t bs it i e :
  table_ok t bs -> live t it -> env_inv e ->
  table_at (load None i it e).1 (table_entries bs) (table_entries (drop i bs)) /\ env_inv (load None i it e).2.
Proof.
  intros Hok Hlive He. destruct (load_None t bs Hok it i e Hlive He) as (Hl & He' & Hst). split; [|done].
  pose proof Hl as (Ht & _). exists bs. rewrite Ht. split_and!; [done|done|done|].
  destruct (bs !! i) as [b|] eqn:Hb.
  - right. exists i, 0%nat, b. split; [done|]. rewrite drop_0. by rewrite (drop_S _ b i Hb).
  - left. split; [done|]. apply lookup_ge_None in Hb. by rewrite drop_ge.
Qed.

(** A step within a block, or into the next one. *)
Lemma t_Next_cases it es x suf e :
  table_at it es (x :: suf) ->
  table_at (t_Next it e).1 es suf /\ (t_Next it e).2 = e \/
  exists bs i it', table_ok (table_ it') bs /\ live (table_ it') it' /\ es = table_entries bs /\
    suf = table_entries (drop i bs) /\ t_Next it e = load None i it' e.
Proof.
  intros (bs & Hok & -> & Hlive & [[_ ?]|(i & j & b & Hst & Hsuf)]); [done|].
  pose proof Hst as (Hb & Hbi & Hv & Hat & Hj). pose proof Hlive as (_ & Hs & Hu). unfold t_Next. rewrite Hv. cbn [negb].
  destruct (block_good_at _ bs Hok i b Hb) as [HL _].
  destruct (Next_at _ _ HL _ j Hat Hj) as (r & -> & Hat'). destruct (reader_entry r b (S j) Hat') as (Hst' & Hv' & _).
  assert (drop (S j) (b_entries b) ++ table_entries (drop (S i) bs) = suf) as Hsuf'.
  { destruct (drop j (b_entries b)) as [|y l] eqn:Ed; [by apply drop_entries_nonempty in Ed|].
    injection Hsuf as _ ->. f_equal. replace (S j) with (j + 1)%nat by lia. by rewrite <- drop_drop, Ed. }
  rewrite Hv'. case_bool_decide as Hj'.
  - left. split; [|done]. exists bs. split_and!; [done|done|by split_and!|right].
    exists i, (S j), b. by rewrite Hbi.
  - right. rewrite Hst', ok_OK, Hbi. rewrite drop_ge in Hsuf' by (unfold b_entries; rewrite length_map; lia). subst suf.
    exists bs, (S i). eexists. split_and!; [|..|done]; [done|by split_and!|done|done].
Qed.

Lemma t_Next_at it es x suf e :
  table_at it es (x :: suf) -> env_inv e -> table_at (t_Next it e).1 es suf /\ env_inv (t_Next it e).2.
Proof.
  intros Hat He. destruct (t_Next_cases it es x suf e Hat) as [[? ->]|(bs & i & it' & Hok & Hl & -> & -> & ->)]; [done|].
  by apply (load_None_at (table_ it')).
Qed.

Lemma t_Seek_at it es suf target e :
  table_at it es suf -> env_inv e ->
  table_at (t_Seek target it e).1 es (seek es target) /\ env_inv (t_Seek target it e).2.
Proof.
  intros (bs & Hok & -> & Hlive & _) He. unfold t_Seek. pose proof (first_block_spec _ bs Hok target) as Hfb.
  set (k := first_block (index_ (table_ it)) target) in *. destruct (bs !! k) as [b|] eqn:Hb.
  - destruct Hfb as [Hhit ->]. destruct (load_Some _ bs Hok it k b target e Hlive He Hb Hhit) as (Hl & He' & Hst).
    split; [|done]. pose proof Hl as (Ht & _). exists bs. rewrite Ht. split_and!; [done|done|done|right].
    exists k, (seek_pos (b_items b) target), b. split; [done|]. unfold b_entries at 2. by rewrite drop_seek_pos.
  - rewrite Hfb. unfold load. cbn [LoadBlock].
    rewrite (tb_index _ _ Hok), index_from_lookup, Hb. split; [|done].
    exists bs. split_and!; [done|done| |by left]. destruct Hlive as (? & ? & ?). by split_and!.
Qed.

#[export] Instance TableIter_spec : IteratorSpec TableIter env_inv table_at.
Proof.
  split.
  - intros it es suf (bs & _ & _ & _ & [[Hv ->]|(i & j & b & (_ & _ & Hv & _ & Hj) & ->)]); simpl; rewrite Hv; [done|].
    rewrite bool_decide_false; [done|]. intros [Hd _]%app_eq_nil. by apply drop_entries_nonempty in Hd.
  - by intros it es suf (bs & _ & _ & (_ & ? & _) & _).
  - intros it es e suf (bs & _ & _ & _ & [[_ ?]|(i & j & b & (_ & _ & _ & Hat & Hj) & Hs)]); [done|].
    destruct (reader_entry _ _ _ Hat) as (_ & _ & Hent). simpl.
    destruct (drop j (b_entries b)) as [|y l] eqn:Ed; [by apply drop_entries_nonempty in Ed|].
    injection Hs as -> _. by eapply Hent.
  - apply t_Next_at.
  - intros it es suf target w Hat Hw _. by eapply t_Seek_at.
  - intros it es suf w (bs & Hok & -> & Hlive & _) Hw. by apply (load_None_at (table_ it) bs it 0).
Qed.

(** ** Opening a finished file *)

Definition ie_fits (ie : IndexEntry) : Prop :=
  size (ie_last_key ie) < 2 ^ 32 /\ 0 <= ie_offset ie < 2 ^ 64 /\ 0 <= ie_size ie < 2 ^ 64.

Lemma parse_index_spec l : forall fuel acc,
  Forall ie_fits l -> (length l <= fuel)%nat -> parse_index fuel (encode_index l) acc = Some (acc ++ l).
Proof.
  induction l as [|[k off sz] l IH]; intros fuel acc Hf Hfuel.
  { unfold encode_index. simpl. rewrite app_nil_r. by destruct fuel. }
  apply Forall_cons in Hf as [(Hk & Ho & Hs) Hf]. simpl in Hk, Ho, Hs, Hfuel. destruct fuel as [|fuel]; [lia|].
  assert (encode_index (mkIndexEntry k off sz :: l) =
    PutLengthPrefixed [] k ++ le_split 8 off ++ le_split 8 sz ++ encode_index l) as Heq.
  { unfold encode_index, index_entry, PutFixed64. simpl. by rewrite <- !app_assoc. }
  assert (encode_index (mkIndexEntry k off sz :: l) <> []) as Hne.
  { rewrite Heq, PutLengthPrefixed_eq. intros H. apply (f_equal size) in H. autorewrite with lsm in H.
    pose proof (size_nonneg k). pose proof (size_nonneg (encode_index l)). lia. }
  destruct (encode_index (mkIndexEntry k off sz :: l)) as [|c cs] eqn:E; [done|]. cbn [parse_index].
  rewrite Heq, GetLengthPrefixed_Put by done. rewrite !size_app, !size_le_split8.
  pose proof (size_nonneg (encode_index l)). zcase. rewrite DecodeFixed64_split.
  rewrite (drop_app_length' _ _ 8) by (by rewrite length_le_split). rewrite DecodeFixed64_split.
  rewrite app_assoc, (drop_app_length' _ _ 16) by (by rewrite length_app, !length_le_split).
  rewrite !u64_id by lia. rewrite IH by (done || lia). by rewrite <- app_assoc.
Qed.

Lemma footer_fields a b c d :
  0 <= a < 2 ^ 64 -> 0 <= b < 2 ^ 64 -> 0 <= c < 2 ^ 64 -> 0 <= d < 2 ^ 64 ->
  let f := make_footer a b c d in
  DecodeFixed64 f = a /\ DecodeFixed64 (drop 8 f) = b /\ DecodeFixed64 (drop 16 f) = c /\
  DecodeFixed64 (drop 24 f) = d /\ DecodeFixed64 (drop 32 f) = kTableMagic.
Proof.
  intros Ha Hb Hc Hd f.
  assert (f = le_split 8 a ++ le_split 8 b ++ le_split 8 c ++ le_split 8 d ++ le_split 8 kTableMagic ++ []) as ->.
  { unfold f, make_footer, PutFixed64. by rewrite app_nil_r, <- !app_assoc. }
  assert (forall (n : nat) v r, drop (8 + n) (le_split 8 v ++ r) = drop n r) as Hdrop.
  { intros n v r. rewrite <- drop_drop, (drop_app_length' _ _ 8); [done|]. by rewrite length_le_split. }
  rewrite DecodeFixed64_split, (Hdrop 0%nat), (Hdrop 8%nat), (Hdrop 16%nat), (Hdrop 24%nat).
  rewrite (Hdrop 0%nat), (Hdrop 8%nat), (Hdrop 16%nat), (Hdrop 0%nat), (Hdrop 8%nat), (Hdrop 0%nat).
  rewrite !drop_0, !DecodeFixed64_split, !u64_id by (done || lia). done.
Qed.

(** A finished file: its blocks, and a filter that covers its keys. *)
Record table_file (bs : list tblock) (bloom : bytes) : Prop := {
  tf_blocks : Forall block_good bs;
  tf_sorted : sorted (table_entries bs);
  tf_size : size (table_bytes bs bloom) < 2 ^ 63;
  tf_bloom_size : size bloom < 2 ^ 62;
  tf_index_size : size (encode_index (index_from 0 bs)) < 2 ^ 62;
  tf_bloom : forall k, k ∈ map user_key (table_entries bs) -> MayContain bloom k = true
}.

Lemma index_fits bs bloom : table_file bs bloom -> Forall ie_fits (index_from 0 bs).
Proof.
  intros H. apply Forall_lookup_2. intros i ie. rewrite index_from_lookup. destruct (bs !! i) as [b|] eqn:Hb; [|done].
  intros [= <-]. destruct (Forall_lookup_1 _ _ _ _ (tf_blocks _ _ H) Hb) as [HL Hne].
  pose proof (tf_size _ _ H) as Hsz. rewrite size_table_bytes in Hsz.
  pose proof (size_nonneg bloom). pose proof (size_nonneg (encode_index (index_from 0 bs))).
  assert (size (data_of bs) = size (data_of (take i bs)) + (size (b_bytes b) + 4 + size (data_of (drop (S i) bs)))) as Hd
    by (rewrite <- (take_drop_middle bs i b Hb) at 1; by rewrite data_of_app, size_app, size_data_cons).
  pose proof (size_nonneg (data_of (take i bs))). pose proof (size_nonneg (b_bytes b)).
  pose proof (size_nonneg (data_of (drop (S i) bs))). split_and!; cbn [ie_last_key ie_offset ie_size]; try lia.
  unfold b_last. destruct (last (b_items b)) as [it|] eqn:El; [|done]. simpl.
  pose proof (lay_fits _ _ HL) as Hf. rewrite Forall_forall in Hf. apply last_Some_elem_of in El.
  apply Hf in El as (_ & ? & _). done.
Qed.

(** [truth] agrees with the file that number [n] names. *)
Definition truth_of (n : Z) (bs : list tblock) : Prop :=
  forall i b, bs !! i = Some b -> truth (n, size (data_of (take i bs))) = Some (b_bytes b).

(** The table that opening a file gives. *)
Definition opened (path : string) (o : Options) (n : Z) (bs : list tblock) (bloom : bytes) : Table :=
  mkTable path (table_bytes bs bloom) (size (table_bytes bs bloom)) (o_verify_checksums o) n (index_from 0 bs) bloom.

Lemma opened_ok path o n bs bloom : table_file bs bloom -> truth_of n bs -> table_ok (opened path o n bs bloom) bs.
Proof.
  intros H Htr. split; simpl; try apply H; try done.
  unfold table_bytes. eexists. reflexivity.
Qed.

Lemma index_from_fuel bs : forall off,
  (length (index_from off bs) <= length (encode_index (index_from off bs)))%nat.
Proof.
  induction bs as [|b bs IH]; intros off; [done|]. unfold encode_index in *. simpl.
  rewrite length_app. specialize (IH (off + size (b_bytes b) + 4)).
  pose proof (size_index_entry (b_last b) off (size (b_bytes b))) as Hie. unfold size at 1 3 in Hie.
  pose proof (size_nonneg (b_last b)). unfold size in *. lia.
Qed.

(** The three parts a reader starts from. *)
Lemma table_bytes_parts bs bloom t :
  table_file bs bloom -> t_fd t = table_bytes bs bloom ->
  let idx := encode_index (index_from 0 bs) in
  let d := size (data_of bs) in
  block_in t (mkIndexEntry [] d (size bloom)) bloom /\
  block_in t (mkIndexEntry [] (d + (size bloom + 4)) (size idx)) idx /\
  take 40 (drop (Z.to_nat (size (t_fd t) - 40)) (t_fd t)) =
    make_footer (d + (size bloom + 4)) (size idx) d (size bloom).
Proof.
  intros H Hfd idx d. set (footer := make_footer _ _ _ _).
  assert (size footer = 40) as Hf by apply size_make_footer. rewrite Hfd.
  assert (table_bytes bs bloom = (data_of bs ++ seal bloom ++ seal idx) ++ footer) as Hff
    by (unfold table_bytes; by rewrite <- !app_assoc).
  pose proof (tf_size _ _ H). split_and!.
  - split_and!; [done|apply H|by rewrite Hfd|]. exists (data_of bs), (seal idx ++ footer).
    split; [|done]. rewrite Hfd, Hff. by rewrite <- !app_assoc.
  - split_and!; [done|apply H|by rewrite Hfd|]. exists (data_of bs ++ seal bloom), footer.
    rewrite Hfd, Hff, size_app, size_seal. split; [by rewrite <- !app_assoc|done].
  - rewrite Hff, drop_size by (rewrite (size_app _ footer), Hf; lia).
    rewrite <- (app_nil_r footer) at 1. change 40%nat with (Z.to_nat 40). by apply take_size.
Qed.

(** A block that is not cached, whatever the system calls do. *)
Lemma fetch_block_any t ie c e :
  block_in t ie c ->
  exists s buf e', fetch_block t ie false e = Some (s, buf, e') /\ only_reads e e' /\
    (Status.ok s = true -> buf = c) /\ (w_oracle (e_world e) = [] -> s = Status.OK).
Proof.
  intros (Hsz & Hc & Hmax & pre & post & Hfd & Hoff). unfold fetch_block. rewrite Hsz, Hoff. unfold kBlockTrailerSize.
  pose proof (size_nonneg c). pose proof (size_nonneg pre). pose proof (size_nonneg post).
  rewrite u64_id by lia.
  destruct (ReadFullyAt_any (t_fd t) (size pre) (size c + 4) e) as (s & buf & w & -> & Hr & Hok & Hcalm); [lia..|].
  cbn [mbind option_bind]. cbv zeta.
  assert (size (t_fd t) = size pre + (size c + 4) + size post) as Hs by (rewrite Hfd, !size_app, size_seal; lia).
  destruct (Status.ok s) eqn:Hst; cbn [negb].
  2:{ do 3 eexists. split_and!; [done|done|congruence|]. intros Ho. rewrite Hcalm in Hst by (done || lia). done. }
  destruct (Hok eq_refl) as [Hbuf Hbs].
  assert (buf = seal c) as ->.
  { rewrite Hbuf, Hfd, drop_size by done. apply take_size. rewrite size_seal. lia. }
  rewrite Hbs. zcase.
  assert (drop (Z.to_nat (size c)) (seal c) = le_split 4 (Value c) ++ []) as ->
    by (unfold seal, PutFixed32; by rewrite drop_size, app_nil_r by done).
  assert (take (Z.to_nat (size c)) (seal c) = c) as -> by (unfold seal, PutFixed32; by apply take_size).
  rewrite DecodeFixed32_split, u32_id, Z.eqb_refl, andb_false_r by apply Value_range.
  do 3 eexists. split_and!; [done| |done|done]. etrans; [exact Hr|apply only_reads_stats].
Qed.

Lemma sys_simple_env what e s w :
  sys_simple what (e_world e) = (s, w) -> only_reads e (mkEnv w (e_cache e) (e_stats e)) /\ (w_oracle (e_world e) = [] -> s = Status.OK).
Proof. intros E. destruct (sys_simple_spec what "" _ _ _ E) as ([_ T] & F & O). split; [by split|done]. Qed.

(** Opening a file that is on disk gives its table, or fails; it does not fail
    when no call does. *)
Lemma Table_Open_any path o n bs bloom e :
  w_files (e_world e) !! path = Some (table_bytes bs bloom) -> table_file bs bloom ->
  exists s t e', Table_Open path o n e = Some (s, t, e') /\ only_reads e e' /\
    (w_oracle (e_world e) = [] -> s = Status.OK) /\
    (if Status.ok s then s = Status.OK /\ t = Some (opened path o n bs bloom) else t = None).
Proof.
  intros Hfile H. unfold Table_Open. destruct (sys_simple ("open " ++ path) _) as [s0 w0] eqn:E0.
  destruct (sys_simple_env _ _ _ _ E0) as [R0 O0].
  destruct (Status.ok s0) eqn:Hs0; cbn [negb]; [|do 3 eexists; split_and!; [done|done|done|by rewrite Hs0]].
  set (e0 := mkEnv w0 _ _) in *. assert (w_files w0 = w_files (e_world e)) as -> by apply R0. rewrite Hfile.
  destruct (sys_simple ("fstat " ++ path) _) as [s1 w1] eqn:E1. destruct (sys_simple_env _ _ _ _ E1) as [R1 O1].
  pose proof (transitivity R0 R1) as R01. specialize (or_oracle _ _ R0) as Or0.
  destruct (Status.ok s1) eqn:Hs1; cbn [negb].
  2:{ do 3 eexists. split_and!; [done|exact R01|auto|by rewrite Hs1]. }
  cbv zeta. set (file := table_bytes bs bloom). set (t0 := mkTable path file (size file) (o_verify_checksums o) n [] []).
  destruct (table_bytes_parts bs bloom t0 H eq_refl) as (Hb1 & Hb2 & Hft). change (t_fd t0) with file in Hft.
  pose proof (tf_size _ _ H) as Hmax. pose proof (size_table_bytes bs bloom) as Hsz.
  pose proof (tf_bloom_size _ _ H). pose proof (tf_index_size _ _ H). pose proof (size_nonneg bloom).
  pose proof (size_nonneg (data_of bs)). pose proof (size_nonneg (encode_index (index_from 0 bs))).
  fold file in Hmax, Hsz. destruct (Z.ltb_spec (size file) kFooterSize); [unfold kFooterSize in *; lia|].
  set (e1 := with_stats _ n _). assert (only_reads e e1) as R1' by (etrans; [exact R01|apply only_reads_stats]).
  specialize (or_oracle _ _ R1') as Or1. unfold kFooterSize in *.
  destruct (ReadFullyAt_any file (size file - 40) 40 e1) as (s2 & footer & w2 & -> & R2 & Hok2 & Hcalm2); [lia..|].
  cbn [mbind option_bind]. set (e2 := mkEnv w2 _ _) in *. pose proof (transitivity R1' R2) as R2'.
  specialize (or_oracle _ _ R2') as Or2.
  destruct (Status.ok s2) eqn:Hs2; cbn [negb].
  2:{ do 3 eexists. split_and!; [done|exact R2'| |by rewrite Hs2]. intros Ho. apply Hcalm2; [auto|lia|lia]. }
  destruct (Hok2 eq_refl) as [-> _]. change (Z.to_nat 40) with 40%nat. rewrite Hft.
  destruct (footer_fields (size (data_of bs) + (size bloom + 4)) (size (encode_index (index_from 0 bs)))
    (size (data_of bs)) (size bloom)) as (-> & -> & -> & -> & ->); [lia..|].
  rewrite Z.eqb_refl. cbn [negb]. unfold kBlockTrailerSize.
  rewrite (u64_id (size (data_of bs) + (size bloom + 4) + _)), (u64_id (size (data_of bs) + size bloom)), !u64_id by lia.
  do 2 zcase. cbn [orb]. unfold ReadBlock. cbv iota.
  destruct (fetch_block_any t0 _ _ e2 Hb1) as (s3 & buf3 & e3 & -> & R3 & Hok3 & Hcalm3). cbn [mbind option_bind].
  pose proof (transitivity R2' R3) as R3'. specialize (or_oracle _ _ R3') as Or3.
  destruct (Status.ok s3) eqn:Hs3; cbn [negb]; [|do 3 eexists; split_and!; [done|exact R3'|auto|by rewrite Hs3]].
  rewrite (Hok3 eq_refl).
  destruct (fetch_block_any t0 _ _ e3 Hb2) as (s4 & buf4 & e4 & -> & R4 & Hok4 & Hcalm4). cbn [mbind option_bind].
  pose proof (transitivity R3' R4) as R4'.
  destruct (Status.ok s4) eqn:Hs4; cbn [negb]; [|do 3 eexists; split_and!; [done|exact R4'|auto|by rewrite Hs4]].
  rewrite (Hok4 eq_refl), parse_index_spec; [|by eapply index_fits|apply index_from_fuel]. cbn [app].
  do 3 eexists. split_and!; [done| |done|done]. etrans; [exact R4'|apply only_reads_stats].
Qed.

Lemma env_inv_only_reads e e' : calm = true -> only_reads e e' -> env_inv e -> env_inv e'.
Proof.
  intros Hc [H1 H2 H3] [H4 H5 H6]. split; [congruence| |by rewrite H2]. rewrite Hc in *. simpl in *. auto.
Qed.

Lemma Table_Open_spec path o n bs bloom e :
  calm = true -> env_inv e -> files !! path = Some (table_bytes bs bloom) ->
  table_file bs bloom ->
  exists e', Table_Open path o n e = Some (Status.OK, Some (opened path o n bs bloom), e') /\ env_inv e'.
Proof.
  intros Hcalm He Hfile H. pose proof (env_benign _ He) as Ho. rewrite Hcalm in Ho. simpl in Ho.
  rewrite <- (env_files _ He) in Hfile.
  destruct (Table_Open_any path o n bs bloom e Hfile H) as (s & t & e' & -> & Hr & Hok & Ht).
  rewrite (Hok Ho) in *. destruct Ht as [_ ->]. exists e'. split; [done|by eapply env_inv_only_reads].
Qed.

End Env.

(** ** Reads that may fail *)

Section Faults.
Context (calm : bool) (truth : Key -> option bytes) (files : gmap string bytes).

(** The system calls may do anything, unless the system is calm. *)
Record env_any (e : Env) : Prop := {
  any_files : w_files (e_world e) = files;
  any_calm : calm = true -> w_oracle (e_world e) = [];
  any_cache : match e_cache e with Some c => cache_inv c /\ coherent truth c | None => True end
}.

Lemma env_any_reads e e' : only_reads e e' -> env_any e -> env_any e'.
Proof. intros [H1 H2 H3] [H4 H5 H6]. split; [congruence|auto|by rewrite H2]. Qed.

Lemma env_any_op e c op :
  env_any e -> e_cache e = Some c -> faithful truth op ->
  env_any (mkEnv (e_world e) (Some (cache_step op c).2) (e_stats e)).
Proof.
  intros [H1 H2 H3] Hc Hop. rewrite Hc in H3. destruct H3 as [H3 H4]. split; [done|done|].
  exact (cache_step_coherent truth op c H3 H4 Hop).
Qed.

(** A block is what was written, or an error. *)
Lemma fetch_block_faults t ie c e :
  env_any e -> block_in t ie c -> truth (file_number_ t, ie_offset ie) = Some c ->
  exists s buf e', fetch_block t ie true e = Some (s, buf, e') /\ env_any e' /\
    (Status.ok s = true -> s = Status.OK /\ buf = c) /\ (calm = true -> Status.ok s = true).
Proof.
  intros He Hin Htruth. destruct (fetch_block_any t ie c e Hin) as (s & buf & e1 & E & Hr & Hok & Hcalm).
  revert E. unfold fetch_block. destruct (ReadFullyAt _ _ _ _) as [[[s0 b0] w0]|]; [|done]. cbn [mbind option_bind]. cbv zeta.
  destruct (Status.ok s0) eqn:Hs0; cbn [negb].
  2:{ intros [= <- <- <-]. do 3 eexists. split_and!; [done|by eapply env_any_reads|congruence|].
      intros Hc. by rewrite (Hcalm (any_calm _ He Hc)) in Hs0. }
  destruct (_ <? _); [done|]. destruct (_ && _) eqn:Ev.
  { intros [= <- <- <-]. do 3 eexists. split_and!; [done|by eapply env_any_reads|done|].
    intros Hc. by specialize (Hcalm (any_calm _ He Hc)). }
  intros [= <- <- <-]. pose proof (env_any_reads _ _ Hr He) as He1. rewrite (Hok eq_refl). set (e1 := count_block _ _) in *.
  destruct (e_cache e1) as [bc|] eqn:Ebc; [|do 3 eexists; by split_and!].
  pose proof (env_any_op e1 bc (OpInsert (file_number_ t) (ie_offset ie) c) He1 Ebc) as Hins.
  destruct He1 as [_ _ Hbc]. rewrite Ebc in Hbc. destruct Hbc as [Hbi Hbco].
  assert (size c < 2 ^ 62) as Hc by apply Hin.
  destruct (Insert_spec (file_number_ t) (ie_offset ie) c bc Hbi Hc) as (Hri & _). simpl in Hins.
  destruct (Insert _ _ c bc) as [r bc']. simpl in Hri, Hins. subst r.
  do 3 eexists. split_and!; [done|apply Hins; by rewrite Htruth| |done]. intros _. split; [done|].
  destruct (cached bc _) as [v|] eqn:Ec; [|done]. simpl. apply Hbco in Ec. rewrite Htruth in Ec. congruence.
Qed.

Lemma ReadBlock_faults t ie c e :
  env_any e -> block_in t ie c -> truth (file_number_ t, ie_offset ie) = Some c ->
  exists s buf e', ReadBlock t ie true e = Some (s, buf, e') /\ env_any e' /\
    (Status.ok s = true -> s = Status.OK /\ buf = c) /\ (calm = true -> Status.ok s = true).
Proof.
  intros He Hin Htruth. unfold ReadBlock. destruct (e_cache e) as [bc|] eqn:Ebc; [|by apply fetch_block_faults].
  pose proof (env_any_op e bc (OpLookup (file_number_ t) (ie_offset ie)) He Ebc Logic.I) as Hl.
  pose proof He as [_ _ Hbc]. rewrite Ebc in Hbc. destruct Hbc as [Hbi Hbco].
  destruct (Lookup_spec (file_number_ t) (ie_offset ie) bc Hbi) as (Hr & _). simpl in Hl.
  destruct (Lookup _ _ bc) as [r bc']. simpl in Hr, Hl. subst r.
  destruct (cached bc _) as [v|] eqn:Ec; [|by apply fetch_block_faults].
  do 3 eexists. split_and!; [done|by eapply env_any_reads; [apply only_reads_stats|]| |done]. intros _. split; [done|].
  apply Hbco in Ec. rewrite Htruth in Ec. by injection Ec as ->.
Qed.

(** The cursor has stopped with an error. *)
Definition t_broken (it : TableIterator) : Prop :=
  it_valid it = false /\ Status.ok (it_status it) = false /\ it_undefined it = false.

Lemma load_faults t bs it i e :
  table_ok truth t bs -> live t it -> env_any e ->
  let r := load None i it e in
  (table_at truth r.1 (table_entries bs) (table_entries (drop i bs)) \/ calm <> true /\ t_broken r.1) /\ env_any r.2.
Proof.
  intros Hok (Ht & Hs & Hu) He. unfold load. cbn [LoadBlock]. rewrite Ht. destruct (bs !! i) as [b|] eqn:Hb.
  2:{ rewrite (tb_index _ _ _ Hok), index_from_lookup, Hb. split; [|done]. left. exists bs. simpl. rewrite Ht.
      split_and!; [done|done|by split_and!|left]. split; [done|]. apply lookup_ge_None in Hb. by rewrite drop_ge. }
  rewrite (index_at truth t bs Hok i b Hb).
  pose proof (block_in_table truth t bs Hok i b _ Hb (index_at truth t bs Hok i b Hb)) as Hin.
  destruct (ReadBlock_faults t _ _ e He Hin (tb_truth _ _ _ Hok i b Hb)) as (s & buf & e' & -> & He' & Hr & Hc).
  destruct (Status.ok s) eqn:Est; cbn [negb].
  2:{ split; [|done]. right. split; [intros Hcalm; by specialize (Hc Hcalm)|]. by split_and!. }
  destruct (Hr eq_refl) as [-> ->]. destruct (block_good_at truth t bs Hok i b Hb) as [HL Hne].
  destruct (make_BlockReader_on _ _ HL) as [Hon _].
  change (make_BlockReader (block_of (b_items b) (b_ridx b))) with (make_BlockReader (b_bytes b)) in Hon.
  replace (status_ (make_BlockReader (b_bytes b))) with Status.OK by (symmetry; apply Hon).
  destruct (SeekToFirst_at _ _ HL _ Hon) as (r & -> & Hat). destruct (reader_entry _ _ _ Hat) as (-> & Hv & _).
  assert (0 < length (b_items b))%nat as Hlen by (destruct (b_items b); [done|simpl; lia]).
  rewrite Hv, bool_decide_true by done. split; [|done]. left. exists bs. cbn [negb fst table_].
  split_and!; [done|done|by split_and!|right]. exists i, 0%nat, b. split; [by split_and!|].
  rewrite drop_0. by rewrite (drop_S _ b i Hb).
Qed.

Lemma t_Next_faults it es x suf e :
  table_at truth it es (x :: suf) -> env_any e ->
  (table_at truth (t_Next it e).1 es suf \/ calm <> true /\ t_broken (t_Next it e).1) /\ env_any (t_Next it e).2.
Proof.
  intros Hat He. destruct (t_Next_cases truth it es x suf e Hat) as [[? ->]|(bs & i & it' & Hok & Hl & -> & -> & ->)];
    [by split; [left|]|]. by apply (load_faults (table_ it')).
Qed.

#[export] Instance TableIter_faults : IteratorFaults TableIter (calm = true) env_any (table_at truth) t_broken.
Proof.
  split.
  - eapply spec_cursor, (TableIter_spec false truth files).
  - intros it es suf w (bs & Hok & -> & Hlive & _) Hw. by apply (load_faults (table_ it) bs it 0).
  - apply t_Next_faults.
  - intros it es suf (bs & _ & _ & (_ & Hs & _) & _). simpl. by rewrite Hs.
  - by intros it (? & _).
  - by intros it (_ & ? & _).
Qed.

End Faults.

(** ** From the entries to an open table *)

Lemma finished_table_file o path b w es bs :
  finished o path b w es bs -> writable o es -> sorted es ->
  table_file bs (Build (map user_key es) (bloom_bits_per_key o)).
Proof.
  intros F Hwr Hs. pose proof (fin_entries _ _ _ _ _ _ F) as He. pose proof (fin_data _ _ _ _ _ _ F) as Hd.
  pose proof (wr_total _ _ Hwr). pose proof (wr_bits _ _ Hwr). pose proof (wr_bloom _ _ Hwr).
  pose proof (size_encode_index bs 0 (fin_blocks _ _ _ _ _ _ F)) as Hi. rewrite He in Hi.
  assert (size (Build (map user_key es) (bloom_bits_per_key o)) < 2 ^ 60) as Hb.
  { apply size_Build; [done|]. unfold size. by rewrite length_map. }
  split; rewrite ?He; try done; [apply F|rewrite size_table_bytes; lia|lia|lia|].
  intros k Hk. apply MayContain_Build; [done| |done]. rewrite length_map. unfold size in *. lia.
Qed.

(** The block at an offset of a file. *)
Fixpoint block_at (bs : list tblock) (off : Z) (at_off : Z) : option bytes :=
  match bs with
  | [] => None
  | b :: bs => if at_off =? off then Some (b_bytes b) else block_at bs (off + size (b_bytes b) + 4) at_off
  end.

Lemma block_at_spec bs : forall off i b,
  bs !! i = Some b -> block_at bs off (off + size (data_of (take i bs))) = Some (b_bytes b).
Proof.
  induction bs as [|x bs IH]; intros off i b Hi; [done|]. destruct i as [|i]; simpl in *.
  - injection Hi as ->. replace (off + size (data_of [])) with off by (change (size (data_of [])) with 0; lia). by rewrite Z.eqb_refl.
  - rewrite size_data_cons. pose proof (size_nonneg (b_bytes x)). pose proof (size_nonneg (data_of (take i bs))).
    zcase. rewrite <- (IH (off + size (b_bytes x) + 4) i b Hi). f_equal. lia.
Qed.

(** ** A new file *)

(** What was known stays known. *)
Definition truth_le (truth truth' : Key -> option bytes) : Prop := forall k v, truth k = Some v -> truth' k = Some v.

#[export] Instance truth_le_preorder : PreOrder truth_le.
Proof. split; [by intros ???|]. intros a b c H1 H2 k v Hk. by apply H2, H1. Qed.

(** Nothing is known of file [n] yet. *)
Definition truth_fresh (truth : Key -> option bytes) (n : Z) : Prop := forall off, truth (n, off) = None.

Definition add_file (truth : Key -> option bytes) (n : Z) (bs : list tblock) (k : Key) : option bytes :=
  if k.1 =? n then block_at bs 0 k.2 else truth k.

Lemma add_file_le truth n bs : truth_fresh truth n -> truth_le truth (add_file truth n bs).
Proof.
  intros Hf [f off] v Hv. unfold add_file. simpl. destruct (Z.eqb_spec f n) as [->|]; [by rewrite Hf in Hv|done].
Qed.

Lemma add_file_truth_of truth n bs : truth_of (add_file truth n bs) n bs.
Proof. intros i b Hi. unfold add_file. simpl. rewrite Z.eqb_refl. by apply (block_at_spec bs 0 i b). Qed.

Lemma add_file_fresh truth n bs m : truth_fresh truth m -> m <> n -> truth_fresh (add_file truth n bs) m.
Proof. intros Hf Hne off. unfold add_file. simpl. by destruct (Z.eqb_spec m n). Qed.

Lemma env_inv_truth calm truth truth' fs e : truth_le truth truth' -> env_inv calm truth fs e -> env_inv calm truth' fs e.
Proof.
  intros Hle [H1 H2 H3]. split; [done|done|]. destruct (e_cache e) as [c|]; [|done]. destruct H3 as [H3 H4].
  split; [done|]. intros k v Hk. by apply Hle, H4.
Qed.

Lemma table_ok_truth truth truth' t bs : truth_le truth truth' -> table_ok truth t bs -> table_ok truth' t bs.
Proof. intros Hle H. split; try apply H. intros i b Hi. by apply Hle, H. Qed.

Lemma table_at_truth truth truth' it es suf : truth_le truth truth' -> table_at truth it es suf -> table_at truth' it es suf.
Proof. intros Hle (bs & Hok & Hrest). exists bs. split; [by eapply table_ok_truth|done]. Qed.

(** A cache that has no block of file [n]. *)
Definition cache_without (n : Z) (c : option BlockCache) : Prop :=
  match c with Some c => cache_inv c /\ forall off, cached c (n, off) = None | None => True end.

Lemma cache_without_env c n w st :
  cache_without n c -> benign true (w_oracle w) ->
  exists truth, truth_fresh truth n /\ env_inv true truth (w_files w) (mkEnv w c st).
Proof.
  intros Hc Hb. exists (fun k => c ← c; cached c k). split.
  - intros off. destruct c as [c|]; [|done]. simpl. apply Hc.
  - split; [done|done|]. simpl. destruct c as [c|]; [|done]. split; [apply Hc|]. by intros k v Hk.
Qed.

(** C13: A table written by the builder and opened again is read as written. For
    any sorted entries that fit, any options and whatever is in the block
    cache of other files: building succeeds, the file opens, a point lookup at
    any sequence number answers with the newest version visible there (through
    the filter, the index, the cache and the block search), and the iterator
    enumerates the entries from the start and from any target. *)
Theorem sstable_roundtrip path o n es w c st :
  writable o es -> sorted es -> entries_typed es -> w_oracle w = [] -> cache_without n c ->
  exists b w' t e,
    write_table path o es w = (Status.OK, b, w') /\
    Table_Open path o n (mkEnv w' c st) = Some (Status.OK, Some t, e) /\
    (forall key seq, 0 <= seq <= kMaxSequenceNumber ->
      exists e', Get key seq t e = Some (reply (read es key seq), e')) /\
    (let r := t_SeekToFirst (new_TableIterator t) e in (drain (S (length es)) r.1 r.2).1.1 = es) /\
    (forall target, size target < 2 ^ 32 ->
      let r := t_Seek target (new_TableIterator t) e in (drain (S (length es)) r.1 r.2).1.1 = seek es target).
Proof.
  intros Hwr Hs Ht Ho Hc. destruct (write_table path o es w) as [[s b] w'] eqn:E.
  destruct (write_table_spec _ _ _ _ _ _ _ Hwr E) as (T & O & F). rewrite (O Ho) in *.
  destruct (F eq_refl) as (bs & Hfin). pose proof (finished_table_file _ _ _ _ _ _ Hfin Hwr Hs) as Hf.
  destruct (cache_without_env c n w' st Hc (proj2 T Ho)) as (truth & Hfresh & Henv0).
  pose proof (env_inv_truth _ _ _ _ _ (add_file_le truth n bs Hfresh) Henv0) as Henv.
  destruct (Table_Open_spec true _ _ path o n bs _ (mkEnv w' c st) eq_refl Henv (fin_file _ _ _ _ _ _ Hfin) Hf)
    as (e & HO & He). set (t := opened _ _ _ _ _) in HO.
  assert (table_ok (add_file truth n bs) t bs) as Hok by (apply opened_ok; [done|apply add_file_truth_of]).
  pose proof (new_table_at _ t bs Hok) as Hnew. pose proof (fin_entries _ _ _ _ _ _ Hfin) as Hes. rewrite Hes in Hnew.
  exists b, w', t, e. split_and!; [done|done| | |].
  - intros key seq Hseq. destruct (table_Get_sorted true _ _ t bs Hok key seq e He) as (e' & HG & _); [by rewrite Hes|done|].
    exists e'. by rewrite <- Hes.
  - destruct (at_first (IteratorSpec := TableIter_spec true _ _) _ _ _ e Hnew He) as [Hat He'].
    eapply (drain_spec (env_inv true _ _) (table_at _)); [exact Hat|exact He'|lia].
  - intros target Htg. destruct (at_seek (IteratorSpec := TableIter_spec true _ _) _ _ _ target e Hnew He Htg) as [Hat He'].
    eapply (drain_spec (env_inv true _ _) (table_at _)); [exact Hat|exact He'|].
    destruct (seek_split es target) as (pre & Heq & _). apply (f_equal length) in Heq. rewrite length_app in Heq. lia.
Qed.

(** ** Damaged files *)

(** Reading a block is defined unless its size is within a trailer of the end of
    the 64-bit range or beyond what a string can hold. *)
Lemma fetch_block_defined t ie cacheable e :
  0 <= ie_size ie -> ie_size ie + kBlockTrailerSize < 2 ^ 63 -> fetch_block t ie cacheable e <> None.
Proof.
  intros H0 Hsz. unfold fetch_block. unfold kBlockTrailerSize in *. rewrite u64_id by lia.
  destruct (ReadFullyAt _ _ _ _) as [[[s buf] w]|] eqn:E; [|by apply ReadFullyAt_defined in E].
  cbn [mbind option_bind]. destruct (Status.ok s) eqn:Hs; cbn [negb]; [|done].
  destruct (ReadFullyAt_complete _ _ (ie_size ie + 4) _ _ _ _ ltac:(lia) E Hs) as [_ ->]. rewrite Z.ltb_irrefl.
  repeat case_match; done.
Qed.

Definition footer_of (file : bytes) : bytes := drop (Z.to_nat (size file - kFooterSize)) file.

(** C37: Opening a table leaves defined behaviour only through the wrap-around
    of the footer check: whatever the bytes of the file and the outcomes of the
    system calls, if [Table::Open] reads outside a buffer, one of the two
    handles in the footer ends within four bytes of [2 ^ 64] or beyond. *)
Theorem table_Open_oob_only_by_wrap path o n e file :
  w_files (e_world e) !! path = Some file -> size file < 2 ^ 62 -> Table_Open path o n e = None ->
  let f := footer_of file in
  2 ^ 64 <= DecodeFixed64 f + DecodeFixed64 (drop 8 f) + kBlockTrailerSize \/
  2 ^ 64 <= DecodeFixed64 (drop 16 f) + DecodeFixed64 (drop 24 f) + kBlockTrailerSize.
Proof.
  intros Hfile Hmax. unfold Table_Open. destruct (sys_simple ("open " ++ path) _) as [s0 w0] eqn:E0.
  destruct (sys_simple_spec _ path _ _ _ E0) as (_ & F0 & _). destruct (Status.ok s0); cbn [negb]; [|done].
  rewrite F0, Hfile. destruct (sys_simple ("fstat " ++ path) _) as [s1 w1].
  destruct (Status.ok s1); cbn [negb]; [|done]. cbv zeta.
  destruct (Z.ltb_spec (size file) kFooterSize) as [|Hsz]; [done|]. unfold kFooterSize in Hsz.
  destruct (ReadFullyAt file _ _ _) as [[[s2 footer] w2]|] eqn:E2; [|by apply ReadFullyAt_defined in E2].
  cbn [mbind option_bind]. destruct (Status.ok s2) eqn:Hs2; cbn [negb]; [|done].
  apply ReadFullyAt_complete in E2 as [Hf _]; [|done|done].
  replace (footer_of file) with footer.
  2:{ rewrite Hf. unfold footer_of. apply take_ge. rewrite length_drop. unfold size, kFooterSize in *. lia. }
  pose proof (DecodeFixed64_range footer). pose proof (DecodeFixed64_range (drop 8 footer)).
  pose proof (DecodeFixed64_range (drop 16 footer)). pose proof (DecodeFixed64_range (drop 24 footer)).
  set (a := DecodeFixed64 footer) in *. set (b := DecodeFixed64 (drop 8 footer)) in *.
  set (c := DecodeFixed64 (drop 16 footer)) in *. set (d := DecodeFixed64 (drop 24 footer)) in *.
  unfold kBlockTrailerSize. intros Hnone.
  destruct (Z.le_gt_cases (2 ^ 64) (a + b + 4)) as [|Ha]; [by left|].
  destruct (Z.le_gt_cases (2 ^ 64) (c + d + 4)) as [|Hc]; [by right|]. exfalso. revert Hnone.
  destruct (_ =? kTableMagic); cbn [negb]; [|done].
  rewrite (u64_id (a + b)), (u64_id (c + d)), !u64_id by lia.
  destruct (Z.ltb_spec (size file) (a + b + 4)); [done|]. destruct (Z.ltb_spec (size file) (c + d + 4)); [done|]. cbn [orb].
  unfold ReadBlock. cbv iota.
  destruct (fetch_block _ (mkIndexEntry [] c d) _ _) as [[[s3 bloom] e3]|] eqn:E3.
  2:{ apply fetch_block_defined in E3; [done|simpl; lia|simpl; unfold kBlockTrailerSize; lia]. }
  cbn [mbind option_bind]. destruct (Status.ok s3); cbn [negb]; [|done].
  destruct (fetch_block _ (mkIndexEntry [] a b) _ _) as [[[s4 idx] e4]|] eqn:E4.
  2:{ apply fetch_block_defined in E4; [done|simpl; lia|simpl; unfold kBlockTrailerSize; lia]. }
  cbn [mbind option_bind]. destruct (Status.ok s4); cbn [negb]; [|done]. by destruct (parse_index _ _ _).
Qed.

(** A 40-byte file that is all footer. *)
Definition forged_table : bytes := make_footer 0 (2 ^ 64 - 4) 0 0.
Definition forged_env : Env := mkEnv (mkWorld {[ "000007.sst"%string := forged_table ]} []) None ∅.


Lemma table_Open_oob_only_by_wrap_witness :
  2 ^ 64 <= DecodeFixed64 (footer_of forged_table) + DecodeFixed64 (drop 8 (footer_of forged_table)) + kBlockTrailerSize \/
  2 ^ 64 <= DecodeFixed64 (drop 16 (footer_of forged_table)) + DecodeFixed64 (drop 24 (footer_of forged_table)) + kBlockTrailerSize.
Proof.
  apply (table_Open_oob_only_by_wrap "000007.sst" default_Options 7 forged_env forged_table);
    [vm_compute; reflexivity|vm_compute; reflexivity|vm_compute; reflexivity].
Defined.

(** ** A table, end to end *)

Definition demo_entries : list entry :=
  [(EncodeInternalKey [Byte.x61] 3 kValue, [Byte.x33]); (EncodeInternalKey [Byte.x61] 1 kValue, [Byte.x31]);
   (EncodeInternalKey [Byte.x62] 4 kDeletion, []); (EncodeInternalKey [Byte.x62] 2 kValue, [Byte.x32])].

Lemma demo_entries_ok : writable default_Options demo_entries /\ sorted demo_entries /\ entries_typed demo_entries.
Proof.
  split_and!.
  - split; [repeat (constructor; [vm_compute; reflexivity|]); constructor|vm_compute; discriminate|
      vm_compute; reflexivity|split; [vm_compute; discriminate|vm_compute; reflexivity]|vm_compute; reflexivity].
  - repeat (constructor; [|repeat (constructor; [vm_compute; reflexivity|]); constructor]). constructor.
  - repeat (constructor; [apply Encode_typed; vm_compute; intuition discriminate|]). constructor.
Qed.

Lemma sstable_roundtrip_witness :
  exists t e, exists e', Get [Byte.x61] 2 t e = Some (Some (Status.OK, Some [Byte.x31]), e').
Proof.
  destruct demo_entries_ok as (H1 & H2 & H3).
  destruct (sstable_roundtrip "000007.sst" default_Options 7 demo_entries (mkWorld ∅ []) None ∅ H1 H2 H3)
    as (b & w & t & e & _ & _ & HG & _); [done|done|]. exists t, e. apply (HG [Byte.x61] 2). vm_compute. intuition discriminate.
Defined.

(** The same by running the code. *)
Example sstable_runs :
  let '(s, _, w) := write_table "000007.sst" default_Options demo_entries (mkWorld ∅ []) in
  match Table_Open "000007.sst" default_Options 7 (mkEnv w (Some (new_BlockCache 1048576 16)) ∅) with
  | Some (_, Some t, e) =>
      match Get [Byte.x62] 4 t e with
      | Some (r1, e) =>
          match Get [Byte.x62] 3 t e with
          | Some (r2, e) =>
              (s, r1, r2, stats_of e 7) =
                (Status.OK, Some (Status.NotFound "", None), Some (Status.OK, Some [Byte.x32]), mkStats 1 0 1)
          | None => False
          end
      | None => False
      end
  | _ => False
  end.
Proof. vm_compute. reflexivity. Qed.
