(* ===== verification/Levels.v ===== *)
(** * Files, levels and their iterator (include/lsm/db.h, src/db.cpp)

    A [Version] lists the files of each level. Level 0 is newest first and its
    files may overlap; the files of a deeper level are sorted and share no user
    key. [Version_Get] is the part of [DB::Get] below the memtables, and
    [LevelIterator] concatenates the files of a deeper level. *)

From stdpp Require Import gmap.
From S2P Require Import Prelude Coding InternalKey Posix Versions Iterator Cache Block Options Sstable Table.

Definition kNumLevels : nat := 7.

Record FileMetaData := mkFileMetaData {
  number : Z;
  file_size : Z;
  smallest : bytes;
  largest : bytes;
  table : Table
}.

Record Version := mkVersion { levels : list (list FileMetaData) }.

Definition new_Version : Version := mkVersion (replicate kNumLevels []).

Definition level_files (v : Version) (level : nat) : list FileMetaData := default [] (levels v !! level).

Definition LevelBytes (v : Version) (level : nat) : Z :=
  fold_left (fun total f => u64 (total + file_size f)) (level_files v level) 0.

Definition NumFiles (v : Version) : Z := fold_left (fun n l => n + size l) (levels v) 0.

Definition RangesOverlap (f : FileMetaData) (smallest_user largest_user : bytes) : bool :=
  if sv_compare (ExtractUserKey (largest f)) smallest_user <? 0 then false
  else if 0 <? sv_compare (ExtractUserKey (smallest f)) largest_user then false
  else true.

Fixpoint times_ten (n : nat) (x : Z) : Z :=
  match n with O => x | S n => times_ten n (u64 (x * 10)) end.

Definition MaxBytesForLevel (options : Options) (level : Z) : Z :=
  if level <=? 1 then max_bytes_for_level_base options
  else times_ten (Z.to_nat (level - 1)) (max_bytes_for_level_base options).

(** ** Point lookups *)

(** The lambda [probe]: the answer, if any, and the number of tables asked. *)
Definition probe (key : bytes) (seq : Z) (f : FileMetaData) (probed : Z) (e : Env)
  : option (option (Status * option bytes) * Z * Env) :=
  if (sv_compare key (ExtractUserKey (smallest f)) <? 0) || (0 <? sv_compare key (ExtractUserKey (largest f))) then
    Some (None, probed, e)
  else
    '(r, e) ← Table.Get key seq (table f) e;
    Some (r, probed + 1, e).

Fixpoint probe_l0 (key : bytes) (seq : Z) (files : list FileMetaData) (probed : Z) (e : Env)
  : option (option (Status * option bytes) * Z * Env) :=
  match files with
  | [] => Some (None, probed, e)
  | f :: files =>
      '(r, probed, e) ← probe key seq f probed e;
      match r with
      | Some _ => Some (r, probed, e)
      | None => probe_l0 key seq files probed e
      end
  end.

(** [std::lower_bound] by the user key of [largest]. *)
Definition file_for (key : bytes) (files : list FileMetaData) : nat :=
  lower_bound (fun f => sv_compare (ExtractUserKey (largest f)) key <? 0) files.

Fixpoint probe_levels (key : bytes) (seq : Z) (ls : list (list FileMetaData)) (probed : Z) (e : Env)
  : option (option (Status * option bytes) * Z * Env) :=
  match ls with
  | [] => Some (None, probed, e)
  | files :: ls =>
      match files !! file_for key files with
      | None => probe_levels key seq ls probed e
      | Some f =>
          '(r, probed, e) ← probe key seq f probed e;
          match r with
          | Some _ => Some (r, probed, e)
          | None => probe_levels key seq ls probed e
          end
      end
  end.

Definition Version_Get (key : bytes) (seq : Z) (v : Version) (e : Env)
  : option (option (Status * option bytes) * Z * Env) :=
  '(r, probed, e) ← probe_l0 key seq (level_files v 0) 0 e;
  match r with
  | Some _ => Some (r, probed, e)
  | None => probe_levels key seq (tail (levels v)) probed e
  end.

(** ** The concatenating iterator of a level *)

Record LevelIterator := mkLevelIterator {
  files_ : list FileMetaData;
  li_index : nat;
  li_iter : option TableIterator;
  li_status : Status
}.

Definition new_LevelIterator (v : Version) (level : nat) : LevelIterator :=
  mkLevelIterator (level_files v level) 0 None Status.OK.

Definition OpenCurrentFile (it : LevelIterator) (i : nat) : LevelIterator :=
  mkLevelIterator (files_ it) i ((fun f => new_TableIterator (table f)) <$> files_ it !! i) (li_status it).

Definition with_iter (it : LevelIterator) (ti : TableIterator) : LevelIterator :=
  mkLevelIterator (files_ it) (li_index it) (Some ti) (li_status it).

(** One turn per file that is left. *)
Fixpoint SkipEmptyFilesForward (fuel : nat) (it : LevelIterator) (e : Env) : LevelIterator * Env :=
  match fuel with
  | O => (it, e)
  | S fuel =>
      match li_iter it with
      | None => (it, e)
      | Some ti =>
          if it_valid ti then (it, e)
          else if negb (Status.ok (it_status ti)) then
            (mkLevelIterator (files_ it) (li_index it) (Some ti) (it_status ti), e)
          else
            let it := OpenCurrentFile it (S (li_index it)) in
            match li_iter it with
            | None => SkipEmptyFilesForward fuel it e
            | Some ti => let '(ti, e) := t_SeekToFirst ti e in SkipEmptyFilesForward fuel (with_iter it ti) e
            end
      end
  end.

Definition skip_empty (it : LevelIterator) (e : Env) : LevelIterator * Env :=
  SkipEmptyFilesForward (S (length (files_ it))) it e.

Definition l_Valid (it : LevelIterator) : bool :=
  match li_iter it with Some ti => it_valid ti | None => false end.

Definition l_SeekToFirst (it : LevelIterator) (e : Env) : LevelIterator * Env :=
  let it := OpenCurrentFile it 0 in
  match li_iter it with
  | None => skip_empty it e
  | Some ti => let '(ti, e) := t_SeekToFirst ti e in skip_empty (with_iter it ti) e
  end.

Definition l_Seek (target : bytes) (it : LevelIterator) (e : Env) : LevelIterator * Env :=
  let lo := lower_bound (fun f => CompareInternalKey (largest f) target <? 0) (files_ it) in
  let it := OpenCurrentFile it lo in
  match li_iter it with
  | None => skip_empty it e
  | Some ti => let '(ti, e) := t_Seek target ti e in skip_empty (with_iter it ti) e
  end.

(** Called on a valid iterator only. *)
Definition l_Next (it : LevelIterator) (e : Env) : LevelIterator * Env :=
  match li_iter it with
  | None => (it, e)
  | Some ti => let '(ti, e) := t_Next ti e in skip_empty (with_iter it ti) e
  end.

Definition l_status (it : LevelIterator) : Status :=
  if negb (Status.ok (li_status it)) then li_status it
  else match li_iter it with Some ti => it_status ti | None => Status.OK end.

#[export] Instance LevelIter : Iterator Env LevelIterator := {|
  Iterator.Valid := l_Valid;
  Iterator.SeekToFirst := l_SeekToFirst;
  Iterator.Seek := l_Seek;
  Iterator.Next := l_Next;
  Iterator.key := fun it => match li_iter it with Some ti => key_ (reader_ ti) | None => [] end;
  Iterator.value := fun it => match li_iter it with Some ti => value_ (reader_ ti) | None => [] end;
  Iterator.status := l_status
|}.

(** ** What a file, a level and a version hold *)

Section Levels.
Context (calm : bool) (truth : Key -> option bytes) (fs : gmap string bytes).
Abbreviation env_inv := (env_inv calm truth fs).

Record file_ok (f : FileMetaData) (es : list entry) : Prop := {
  fo_table : exists bs, table_ok truth (table f) bs /\ table_entries bs = es;
  fo_typed : entries_typed es;
  fo_smallest : Some (smallest f) = fst <$> head es;
  fo_largest : Some (largest f) = fst <$> last es
}.

(** Files of a deeper level: sorted, and no user key in two of them. *)
Definition separated (ess : list (list entry)) : Prop :=
  forall i j a b x y, (i < j)%nat -> ess !! i = Some a -> ess !! j = Some b -> x ∈ a -> y ∈ b ->
    sv_compare (user_key x) (user_key y) < 0.

Definition level_ok (files : list FileMetaData) (ess : list (list entry)) : Prop :=
  Forall2 file_ok files ess /\ separated ess.

Record version_ok (v : Version) (l0 : list (list entry)) (deep : list (list (list entry))) : Prop := {
  vo_length : length (levels v) = kNumLevels;
  vo_l0 : Forall2 file_ok (level_files v 0) l0;
  vo_deep : Forall2 level_ok (tail (levels v)) deep
}.

(** The sources in the order lookups ask them. *)
Definition sources (l0 : list (list entry)) (deep : list (list (list entry))) : list (list entry) :=
  l0 ++ map (@concat entry) deep.

Lemma file_sorted f es : file_ok f es -> sorted es.
Proof. intros [(bs & Hok & <-) _ _ _]. apply Hok. Qed.

Lemma file_smallest f es x :
  file_ok f es -> x ∈ es -> sv_compare (ExtractUserKey (smallest f)) (user_key x) <= 0.
Proof.
  intros Hf Hx. pose proof (fo_smallest _ _ Hf) as Hs. destruct (head es) as [e|] eqn:Eh; [|done].
  injection Hs as ->. apply (sorted_head_user e es x); [by eapply file_sorted|done|done].
Qed.

Lemma file_largest f es x :
  file_ok f es -> x ∈ es -> sv_compare (user_key x) (ExtractUserKey (largest f)) <= 0.
Proof.
  intros Hf Hx. pose proof (fo_largest _ _ Hf) as Hs. destruct (last es) as [e|] eqn:Eh; [|done].
  injection Hs as ->. apply (sorted_last_user e es x); [by eapply file_sorted|done|done].
Qed.

Lemma file_largest_in f es : file_ok f es -> exists x, x ∈ es /\ last es = Some x /\ x.1 = largest f.
Proof.
  intros Hf. pose proof (fo_largest _ _ Hf) as Hs. destruct (last es) as [e|] eqn:Eh; [|done].
  injection Hs as ->. exists e. split_and!; [by apply last_Some_elem_of|done|done].
Qed.

Lemma separated_cons es ess :
  separated (es :: ess) ->
  separated ess /\ (forall x y, x ∈ es -> y ∈ concat ess -> sv_compare (user_key x) (user_key y) < 0).
Proof.
  intros H. split.
  - intros i j a b x y Hij Ha Hb. apply (H (S i) (S j)); [lia|done|done].
  - intros x y Hx Hy. apply list_elem_of_In, in_concat in Hy as (l & Hl & Hy).
    apply list_elem_of_In, list_elem_of_lookup in Hl as [j Hj]. apply list_elem_of_In in Hy.
    by apply (H 0%nat (S j) es l x y); [lia|..].
Qed.

Lemma level_sorted files ess : level_ok files ess -> sorted (concat ess).
Proof.
  intros [Hf Hsep]. revert Hsep. induction Hf as [|f es files ess Hfo Hf IH]; intros Hsep; [constructor|].
  apply separated_cons in Hsep as [Hsep Hlt]. simpl. apply sorted_app. split_and!; [by eapply file_sorted|by apply IH|].
  intros x y Hx Hy. by apply user_lt_entry_lt, Hlt.
Qed.

(** ** Lookups *)

Lemma probe_spec key seq f es probed e :
  file_ok f es -> env_inv e -> 0 <= seq <= kMaxSequenceNumber ->
  exists probed' e', probe key seq f probed e = Some (reply (read es key seq), probed', e') /\ env_inv e'.
Proof.
  intros Hf He Hseq. unfold probe. pose proof Hf as [(bs & Hok & Hes) Ht _ _]. 
  destruct (Z.ltb_spec (sv_compare key (ExtractUserKey (smallest f))) 0) as [Hlo|Hlo]; cbn [orb].
  { exists probed, e. rewrite read_absent; [done|]. apply Forall_forall. intros x Hx <-.
    pose proof (file_smallest f es x Hf Hx). rewrite sv_compare_antisym in Hlo. lia. }
  destruct (Z.ltb_spec 0 (sv_compare key (ExtractUserKey (largest f)))) as [Hhi|Hhi].
  { exists probed, e. rewrite read_absent; [done|]. apply Forall_forall. intros x Hx <-.
    pose proof (file_largest f es x Hf Hx). lia. }
  destruct (table_Get_sorted calm truth fs (table f) bs Hok key seq e He) as (e' & -> & He'); [by rewrite Hes|done|].
  rewrite Hes. cbn [mbind option_bind]. by exists (probed + 1), e'.
Qed.

Lemma reply_None r : reply r = None <-> r = None.
Proof. by destruct r as [[v|]|]. Qed.

Lemma probe_l0_spec key seq files ess : Forall2 file_ok files ess -> 0 <= seq <= kMaxSequenceNumber ->
  forall probed e, env_inv e ->
  exists probed' e', probe_l0 key seq files probed e = Some (reply (first_read ess key seq), probed', e') /\ env_inv e'.
Proof.
  intros Hf Hseq. induction Hf as [|f es files ess Hfo Hf IH]; intros probed e He; [by exists probed, e|]. simpl.
  destruct (probe_spec key seq f es probed e Hfo He Hseq) as (p' & e' & -> & He'). cbn [mbind option_bind].
  destruct (read es key seq) as [r|] eqn:Er; [|by apply IH]. exists p', e'. split; [|done].
  by destruct r.
Qed.

Lemma level_partitioned_user key files ess :
  level_ok files ess -> partitioned (fun f => sv_compare (ExtractUserKey (largest f)) key <? 0) files.
Proof.
  intros [Hf Hsep] i j f g Hij Hi Hj Hg. apply Z.ltb_lt. apply Z.ltb_lt in Hg.
  destruct (Forall2_lookup_l _ _ _ _ _ Hf Hi) as (a & Ha & Hfa). destruct (Forall2_lookup_l _ _ _ _ _ Hf Hj) as (b & Hb & Hgb).
  destruct (file_largest_in f a Hfa) as (x & Hx & _ & <-). destruct (file_largest_in g b Hgb) as (y & Hy & _ & Hyk).
  rewrite <- Hyk in Hg. eapply sv_compare_lt_trans; [|exact Hg]. exact (Hsep i j a b x y Hij Ha Hb Hx Hy).
Qed.

(** The one file of a level that may hold the key. *)
Lemma file_for_spec key files ess :
  level_ok files ess ->
  forall i a, ess !! i = Some a -> i <> file_for key files -> Forall (fun e => user_key e <> key) a.
Proof.
  intros HL i a Ha Hne. pose proof HL as [Hf Hsep].
  destruct (lower_bound_spec _ _ (level_partitioned_user key files ess HL)) as (_ & Hbelow & Hnot).
  fold (file_for key files) in *. destruct (Forall2_lookup_r _ _ _ _ _ Hf Ha) as (f & Hi & Hfa).
  apply Forall_forall. intros x Hx <-. destruct (decide (i < file_for (user_key x) files)%nat) as [Hlt|Hge].
  - apply (Hbelow i f Hlt) in Hi. apply Z.ltb_lt in Hi. pose proof (file_largest f a x Hfa Hx) as Hle.
    rewrite sv_compare_antisym in Hle. lia.
  - pose proof Hi as Hil%lookup_lt_Some.
    destruct (lookup_lt_is_Some_2 files (file_for (user_key x) files)) as [g Hg]; [lia|].
    specialize (Hnot g Hg). apply Z.ltb_ge in Hnot. destruct (Forall2_lookup_l _ _ _ _ _ Hf Hg) as (b & Hb & Hgb).
    destruct (file_largest_in g b Hgb) as (y & Hy & _ & Hyk). rewrite <- Hyk in Hnot.
    assert (sv_compare (user_key y) (user_key x) < 0) as Hc; [|unfold user_key in *; lia].
    apply (Hsep (file_for (user_key x) files) i b a y x); try done. lia.
Qed.

Lemma read_one_file ess k key seq :
  (forall i a, ess !! i = Some a -> i <> k -> Forall (fun e => user_key e <> key) a) ->
  read (concat ess) key seq = match ess !! k with Some a => read a key seq | None => None end.
Proof.
  revert k. induction ess as [|a ess IH]; intros k H; [done|]. simpl. destruct k as [|k].
  - apply read_app_l, read_absent. apply Forall_concat, Forall_forall. intros l Hl.
    apply list_elem_of_lookup in Hl as [i Hi]. by apply (H (S i)).
  - rewrite read_app by (apply read_absent, (H 0%nat); done). apply IH. intros i b Hb Hne. apply (H (S i)); [done|lia].
Qed.

Lemma probe_levels_spec key seq ls deep : Forall2 level_ok ls deep -> 0 <= seq <= kMaxSequenceNumber ->
  forall probed e, env_inv e ->
  exists probed' e', probe_levels key seq ls probed e =
    Some (reply (first_read (map (@concat entry) deep) key seq), probed', e') /\ env_inv e'.
Proof.
  intros HL Hseq. induction HL as [|files ess ls deep Hl HL IH]; intros probed e He; [by exists probed, e|]. simpl.
  rewrite (read_one_file ess (file_for key files) key seq) by (by apply file_for_spec).
  destruct (files !! file_for key files) as [f|] eqn:Hf.
  - destruct (Forall2_lookup_l _ _ _ _ _ (proj1 Hl) Hf) as (a & -> & Hfa).
    destruct (probe_spec key seq f a probed e Hfa He Hseq) as (p' & e' & -> & He'). cbn [mbind option_bind].
    destruct (read a key seq) as [r|] eqn:Er; [|by apply IH]. exists p', e'. split; [|done]. by destruct r.
  - assert (ess !! file_for key files = None) as ->; [|by apply IH].
    apply lookup_ge_None. apply lookup_ge_None in Hf. by rewrite <- (Forall2_length _ _ _ (proj1 Hl)).
Qed.

Lemma Version_Get_spec key seq v l0 deep e :
  version_ok v l0 deep -> env_inv e -> 0 <= seq <= kMaxSequenceNumber ->
  exists probed e', Version_Get key seq v e = Some (reply (first_read (sources l0 deep) key seq), probed, e') /\ env_inv e'.
Proof.
  intros [_ H0 Hd] He Hseq. unfold Version_Get.
  destruct (probe_l0_spec key seq _ _ H0 Hseq 0 e He) as (p & e1 & -> & He1). cbn [mbind option_bind].
  unfold sources. rewrite first_read_app. destruct (first_read l0 key seq) as [r|]; [|by apply probe_levels_spec].
  exists p, e1. split; [|done]. by destruct r.
Qed.

(** ** The level iterator *)

Definition level_at (it : LevelIterator) (es suf : list entry) : Prop :=
  exists ess, level_ok (files_ it) ess /\ es = concat ess /\ li_status it = Status.OK /\
    (li_iter it = None /\ suf = [] \/
     exists ti a s, li_iter it = Some ti /\ ess !! li_index it = Some a /\ table_at truth ti a s /\ s <> [] /\
       suf = s ++ concat (drop (S (li_index it)) ess)).

Lemma file_nonempty f es : file_ok f es -> es <> [].
Proof. intros Hf ->. by pose proof (fo_smallest _ _ Hf). Qed.

Lemma open_file_at f es : file_ok f es -> table_at truth (new_TableIterator (table f)) es [].
Proof. intros [(bs & Hok & <-) _ _ _]. by apply new_table_at. Qed.

(** With enough turns left, skipping ends on the next entry of the level. *)
Lemma Skip_spec fuel : forall it ess ti a s e,
  level_ok (files_ it) ess -> li_status it = Status.OK -> li_iter it = Some ti ->
  ess !! li_index it = Some a -> table_at truth ti a s -> env_inv e -> (length ess - li_index it < fuel)%nat ->
  let r := SkipEmptyFilesForward fuel it e in
  level_at r.1 (concat ess) (s ++ concat (drop (S (li_index it)) ess)) /\ env_inv r.2.
Proof.
  induction fuel as [|fuel IH]; intros it ess ti a s e HL Hst Hti Ha Hat He Hf; [lia|].
  cbn [SkipEmptyFilesForward]. rewrite Hti.
  pose proof (at_valid (IteratorSpec := TableIter_spec calm truth fs) _ _ _ Hat) as Hv. simpl in Hv. rewrite Hv.
  destruct s as [|x s]; simpl.
  2:{ split; [|done]. exists ess. split_and!; [done|done|done|right]. by exists ti, a, (x :: s). }
  pose proof (at_status (IteratorSpec := TableIter_spec calm truth fs) _ _ _ Hat) as Hs. simpl in Hs. rewrite Hs.
  rewrite ok_OK. cbv iota. destruct (files_ it !! S (li_index it)) as [f|] eqn:Ef; simpl.
  - destruct (Forall2_lookup_l _ _ _ _ _ (proj1 HL) Ef) as (b & Hb & Hfb).
    destruct (at_first (IteratorSpec := TableIter_spec calm truth fs) _ _ _ e (open_file_at f b Hfb) He) as [Hat' He'].
    simpl in Hat', He'. destruct (t_SeekToFirst (new_TableIterator (table f)) e) as [ti' e'] eqn:Ets. simpl in Hat', He'.
    pose proof Hb as Hlt%lookup_lt_Some.
    assert (concat (drop (S (li_index it)) ess) = b ++ concat (drop (S (S (li_index it))) ess)) as ->
      by (by rewrite (drop_S _ _ _ Hb)).
    eapply (IH (with_iter (OpenCurrentFile it (S (li_index it))) ti') ess ti' b b e'); try done. simpl. lia.
  - assert (length ess <= S (li_index it))%nat as Hlen.
    { apply lookup_ge_None in Ef. by rewrite <- (Forall2_length _ _ _ (proj1 HL)). }
    rewrite drop_ge by done. simpl.
    assert (forall it', files_ it' = files_ it -> li_status it' = Status.OK -> li_iter it' = None ->
      level_at (SkipEmptyFilesForward fuel it' e).1 (concat ess) [] /\ env_inv (SkipEmptyFilesForward fuel it' e).2) as Hend.
    { intros it' Hf' Hs' Hn. destruct fuel; cbn [SkipEmptyFilesForward]; [|rewrite Hn]; (split; [|done]);
        exists ess; (split_and!; [cbn [fst]; by rewrite Hf'|done|done|by left]). }
    apply Hend; [done|done|]. simpl. by rewrite Ef.
Qed.

Lemma skip_empty_at it ess ti a s e :
  level_ok (files_ it) ess -> li_status it = Status.OK -> li_iter it = Some ti ->
  ess !! li_index it = Some a -> table_at truth ti a s -> env_inv e ->
  let r := skip_empty it e in
  level_at r.1 (concat ess) (s ++ concat (drop (S (li_index it)) ess)) /\ env_inv r.2.
Proof.
  intros HL Hst Hti Ha Hat He. eapply Skip_spec; try done.
  rewrite (Forall2_length _ _ _ (proj1 HL)). lia.
Qed.

Lemma skip_empty_none it ess e :
  level_ok (files_ it) ess -> li_status it = Status.OK -> li_iter it = None -> env_inv e ->
  let r := skip_empty it e in level_at r.1 (concat ess) [] /\ env_inv r.2.
Proof.
  intros HL Hst Hti He. unfold skip_empty. cbn [SkipEmptyFilesForward]. rewrite Hti. split; [|done].
  exists ess. split_and!; [done|done|done|by left].
Qed.

(** The file where a target falls. *)
Lemma level_seek target files ess :
  level_ok files ess ->
  let k := lower_bound (fun f => CompareInternalKey (largest f) target <? 0) files in
  match ess !! k with
  | Some a => seek (concat ess) target = seek a target ++ concat (drop (S k) ess)
  | None => seek (concat ess) target = []
  end.
Proof.
  intros HL k. pose proof HL as [Hf Hsep].
  assert (partitioned (fun f => CompareInternalKey (largest f) target <? 0) files) as Hp.
  { intros i j f g Hij Hi Hj Hg. apply Z.ltb_lt. apply Z.ltb_lt in Hg.
    destruct (Forall2_lookup_l _ _ _ _ _ Hf Hi) as (a & Ha & Hfa). destruct (Forall2_lookup_l _ _ _ _ _ Hf Hj) as (b & Hb & Hgb).
    destruct (file_largest_in f a Hfa) as (x & Hx & _ & <-). destruct (file_largest_in g b Hgb) as (y & Hy & _ & Hyk).
    rewrite <- Hyk in Hg. eapply ik_lt_trans; [|exact Hg].
    apply (user_lt_entry_lt x y), (Hsep i j a b x y Hij Ha Hb Hx Hy). }
  destruct (lower_bound_spec _ _ Hp) as (_ & Hbelow & Hnot). fold k in Hbelow, Hnot.
  assert (Forall (fun e => e.1 ≺ target) (concat (take k ess))) as Hpre.
  { apply Forall_concat, Forall_forall. intros a Ha. apply list_elem_of_lookup in Ha as [i Hi].
    apply lookup_take_Some in Hi as [Hi Hik]. destruct (Forall2_lookup_r _ _ _ _ _ Hf Hi) as (f & Hfi & Hfa).
    specialize (Hbelow i f Hik Hfi). apply Z.ltb_lt in Hbelow.
    destruct (file_largest_in f a Hfa) as (y & _ & Hl & Hyk). rewrite <- Hyk in Hbelow.
    apply last_Some in Hl as [l ->]. pose proof (file_sorted _ _ Hfa) as Hs. apply sorted_app in Hs as (_ & _ & Hlt).
    apply Forall_app. split; [|by apply Forall_singleton]. apply Forall_forall. intros x Hx.
    eapply ik_lt_trans; [apply (Hlt x y Hx); set_solver|done]. }
  destruct (ess !! k) as [a|] eqn:Ha.
  - destruct (Forall2_lookup_r _ _ _ _ _ Hf Ha) as (f & Hfk & Hfa). specialize (Hnot f Hfk). apply Z.ltb_ge in Hnot.
    destruct (file_largest_in f a Hfa) as (y & _ & Hl & Hyk). rewrite <- Hyk in Hnot.
    rewrite <- (take_drop_middle ess k a Ha) at 1. rewrite concat_app, seek_app_below by done. simpl.
    apply seek_app_hit. apply (seek_hit a y); [done|lia].
  - apply lookup_ge_None in Ha. rewrite take_ge in Hpre by done.
    rewrite <- (app_nil_r (concat ess)), seek_app_below; done.
Qed.

(** From a freshly opened file, moved by [op]. *)
Lemma reopen_at (op : TableIterator -> Env -> TableIterator * Env) (g : list entry -> list entry) it ess k e :
  (forall ti a s e, table_at truth ti a s -> env_inv e -> table_at truth (op ti e).1 a (g a) /\ env_inv (op ti e).2) ->
  level_ok (files_ it) ess -> li_status it = Status.OK -> env_inv e ->
  let it' := OpenCurrentFile it k in
  let r := match li_iter it' with
           | None => skip_empty it' e
           | Some ti => let '(ti, e) := op ti e in skip_empty (with_iter it' ti) e
           end in
  level_at r.1 (concat ess) (match ess !! k with Some a => g a ++ concat (drop (S k) ess) | None => [] end) /\ env_inv r.2.
Proof.
  intros Hop HL Hst He it'. unfold it'. simpl. destruct (files_ it !! k) as [f|] eqn:Ef; simpl.
  - destruct (Forall2_lookup_l _ _ _ _ _ (proj1 HL) Ef) as (a & Ha & Hfa). rewrite Ha.
    destruct (Hop _ _ _ e (open_file_at f a Hfa) He) as [Hat He'].
    destruct (op (new_TableIterator (table f)) e) as [ti e']. simpl in Hat, He'.
    by eapply (skip_empty_at (with_iter (OpenCurrentFile it k) ti) ess ti a (g a) e').
  - assert (ess !! k = None) as ->.
    { apply lookup_ge_None. apply lookup_ge_None in Ef. by rewrite <- (Forall2_length _ _ _ (proj1 HL)). }
    apply skip_empty_none; try done. simpl. by rewrite Ef.
Qed.

#[export] Instance LevelIter_spec : IteratorSpec LevelIter env_inv level_at.
Proof.
  split.
  - intros it es suf (ess & _ & _ & _ & [[Hn ->]|(ti & a & s & Hti & _ & Hat & Hs & ->)]); simpl; unfold l_Valid;
      [by rewrite Hn|]. rewrite Hti.
    pose proof (at_valid (IteratorSpec := TableIter_spec calm truth fs) _ _ _ Hat) as Hv. simpl in Hv. rewrite Hv.
    by destruct s.
  - intros it es suf (ess & _ & _ & Hst & [[Hn ->]|(ti & a & s & Hti & _ & Hat & Hs & ->)]); simpl; unfold l_status;
      rewrite Hst, ok_OK; [by rewrite Hn|]. rewrite Hti. by apply (at_status (IteratorSpec := TableIter_spec calm truth fs) _ _ _ Hat).
  - intros it es e suf (ess & _ & _ & _ & [[_ ?]|(ti & a & s & Hti & _ & Hat & Hs & Heq)]); [done|]. simpl. rewrite Hti.
    destruct s as [|x s]; [done|]. injection Heq as -> _.
    by apply (at_entry (IteratorSpec := TableIter_spec calm truth fs) _ _ _ _ Hat).
  - intros it es x suf e (ess & HL & -> & Hst & [[_ ?]|(ti & a & s & Hti & Ha & Hat & Hs & Heq)]) He; [done|].
    simpl. unfold l_Next. rewrite Hti. destruct s as [|y s]; [done|]. injection Heq as -> ->.
    destruct (at_next (IteratorSpec := TableIter_spec calm truth fs) _ _ _ _ e Hat He) as [Hat' He'].
    simpl in Hat', He'. destruct (t_Next ti e) as [ti' e']. simpl in Hat', He'.
    by eapply (skip_empty_at (with_iter it ti') ess ti' a s e').
  - intros it es suf target e (ess & HL & -> & Hst & _) He Ht. simpl. unfold l_Seek.
    pose proof (level_seek target (files_ it) ess HL) as Hsk. set (k := lower_bound _ (files_ it)) in *.
    replace (seek (concat ess) target)
      with (match ess !! k with Some a => seek a target ++ concat (drop (S k) ess) | None => [] end)
      by (revert Hsk; cbv zeta; by destruct (ess !! k); intros ->).
    apply (reopen_at (t_Seek target) (fun a => seek a target)); try done.
    intros ti a s e0 Hat He0. by apply (t_Seek_at calm truth fs ti a s target e0).
  - intros it es suf e (ess & HL & -> & Hst & _) He. simpl. unfold l_SeekToFirst.
    replace (concat ess) with (match ess !! 0%nat with Some a => a ++ concat (drop 1 ess) | None => [] end) at 2
      by (by destruct ess).
    apply (reopen_at t_SeekToFirst (fun a => a)); try done.
    intros ti a s e0 Hat He0. by apply (at_first (IteratorSpec := TableIter_spec calm truth fs) ti a s e0).
Qed.

Lemma new_level_at v level ess :
  level_ok (level_files v level) ess -> level_at (new_LevelIterator v level) (concat ess) [].
Proof. intros HL. exists ess. split_and!; [done|done|done|by left]. Qed.

End Levels.

(** What is known of the blocks only grows. *)
Lemma file_ok_truth truth truth' f es : truth_le truth truth' -> file_ok truth f es -> file_ok truth' f es.
Proof. intros Hle [(bs & H1 & H2) H3 H4 H5]. split; try done. exists bs. split; [by eapply table_ok_truth|done]. Qed.

Lemma files_ok_truth truth truth' files ess :
  truth_le truth truth' -> Forall2 (file_ok truth) files ess -> Forall2 (file_ok truth') files ess.
Proof. intros Hle H. eapply Forall2_impl; [exact H|]. intros f es. by apply file_ok_truth. Qed.

Lemma level_ok_truth truth truth' files ess : truth_le truth truth' -> level_ok truth files ess -> level_ok truth' files ess.
Proof. intros Hle [H1 H2]. split; [by eapply files_ok_truth|done]. Qed.

Lemma levels_ok_truth truth truth' ls deep :
  truth_le truth truth' -> Forall2 (level_ok truth) ls deep -> Forall2 (level_ok truth') ls deep.
Proof. intros Hle H. eapply Forall2_impl; [exact H|]. intros l ess. by apply level_ok_truth. Qed.

Lemma version_ok_truth truth truth' v l0 deep : truth_le truth truth' -> version_ok truth v l0 deep -> version_ok truth' v l0 deep.
Proof. intros Hle [H1 H2 H3]. split; [done|by eapply files_ok_truth|by eapply levels_ok_truth]. Qed.
