(* ===== verification/ReadPath.v ===== *)
(** * The read path (src/db.cpp: [DB::Get], [DB::NewIterator])

    A read captures, under the mutex, the two memtables, the current version and
    a sequence number; everything after that works on this view without the
    lock. A lookup asks the sources newest first; a scan merges one cursor per
    source. Both are shown to answer from the union of all sources. *)

From stdpp Require Import gmap.
From S2P Require Import Prelude Coding InternalKey Posix Versions Iterator Skiplist MemTable Cache Block Merge DbIter Options Sstable Table Levels.

Section ReadPath.
Context {R : Type}.

Record ReadView := mkReadView {
  rv_mem : @MemTable R;
  rv_imm : option (@MemTable R);
  rv_version : Version;
  rv_seq : Z
}.

(** What [DB::Get] adds to the counters. *)
Record GetStats := mkGetStats { mem_hit : bool; tables_probed : Z }.

Definition view_Get (key : bytes) (vw : ReadView) (e : Env)
  : option (Status * option bytes * GetStats * Env) :=
  match MemTable.Get key (rv_seq vw) (rv_mem vw) with
  | Some (s, v) => Some (s, v, mkGetStats true 0, e)
  | None =>
      match (imm ← rv_imm vw; MemTable.Get key (rv_seq vw) imm) with
      | Some (s, v) => Some (s, v, mkGetStats false 0, e)
      | None =>
          '(r, probed, e) ← Version_Get key (rv_seq vw) (rv_version vw) e;
          match r with
          | None => Some (Status.NotFound "", None, mkGetStats false probed, e)
          | Some (s, v) => Some (s, v, mkGetStats false probed, e)
          end
      end
  end.

(** ** Scans *)

(** A pointer to [Iterator] in [NewIterator]: one of three classes. *)
Inductive AnyIter :=
  | AMem (it : @MemIterator R)
  | ATable (it : TableIterator)
  | ALevel (it : LevelIterator).

Definition on_any (f : forall I (ops : Iterator Env I), I -> Env -> I * Env) (it : AnyIter) (e : Env) : AnyIter * Env :=
  match it with
  | AMem it => let '(it, e) := f _ MemTableIteratorAdapter it e in (AMem it, e)
  | ATable it => let '(it, e) := f _ TableIter it e in (ATable it, e)
  | ALevel it => let '(it, e) := f _ LevelIter it e in (ALevel it, e)
  end.

Definition of_any {A} (f : forall I (ops : Iterator Env I), I -> A) (it : AnyIter) : A :=
  match it with
  | AMem it => f _ MemTableIteratorAdapter it
  | ATable it => f _ TableIter it
  | ALevel it => f _ LevelIter it
  end.

(** Virtual dispatch. *)
#[export] Instance AnyIterator : Iterator Env AnyIter := {|
  Iterator.Valid := of_any (fun _ _ => Iterator.Valid);
  Iterator.SeekToFirst := on_any (fun _ _ => Iterator.SeekToFirst);
  Iterator.Seek := fun target => on_any (fun _ _ => Iterator.Seek target);
  Iterator.Next := on_any (fun _ _ => Iterator.Next);
  Iterator.key := of_any (fun _ _ => Iterator.key);
  Iterator.value := of_any (fun _ _ => Iterator.value);
  Iterator.status := of_any (fun _ _ => Iterator.status)
|}.

(** One cursor per level that has a file. *)
Definition level_children (v : Version) : list AnyIter :=
  omap (fun level => if bool_decide (level_files v level = []) then None else Some (ALevel (new_LevelIterator v level)))
    (seq 1 (kNumLevels - 1)).

Definition view_children (vw : ReadView) : list AnyIter :=
  AMem (new_MemIterator (rv_mem vw)) ::
  match rv_imm vw with Some imm => [AMem (new_MemIterator imm)] | None => [] end ++
  map (fun f => ATable (new_TableIterator (table f))) (level_files (rv_version vw) 0) ++
  level_children (rv_version vw).

Definition NewIterator (vw : ReadView) : DBIter :=
  new_DBIter (NewMergingIterator (view_children vw)) (rv_seq vw).

(** ** What a view holds *)

Section Correct.
Context (calm : bool) (truth : Key -> option bytes) (fs : gmap string bytes).
Abbreviation env_inv := (env_inv calm truth fs).

Definition any_at (it : AnyIter) (es suf : list entry) : Prop :=
  match it with
  | AMem it => mem_at it es suf
  | ATable it => table_at truth it es suf
  | ALevel it => level_at truth it es suf
  end.

#[export] Instance AnyIterator_spec : IteratorSpec AnyIterator env_inv any_at.
Proof.
  assert (Sm : IteratorSpec (MemTableIteratorAdapter (R := R) (W := Env)) (fun _ => True) mem_at) by apply _.
  assert (St : IteratorSpec TableIter env_inv (table_at truth)) by apply _.
  assert (Sl : IteratorSpec LevelIter env_inv (level_at truth)) by apply _.
  split.
  - intros [it|it|it] es suf; [apply (at_valid (IteratorSpec := Sm))|apply (at_valid (IteratorSpec := St))|
      apply (at_valid (IteratorSpec := Sl))].
  - intros [it|it|it] es suf; [apply (at_status (IteratorSpec := Sm))|apply (at_status (IteratorSpec := St))|
      apply (at_status (IteratorSpec := Sl))].
  - intros [it|it|it] es e suf; [apply (at_entry (IteratorSpec := Sm))|apply (at_entry (IteratorSpec := St))|
      apply (at_entry (IteratorSpec := Sl))].
  - intros [it|it|it] es e suf w Hat Hw; simpl.
    + destruct (at_next (IteratorSpec := Sm) it es e suf w Hat I) as [H _]. by split.
    + pose proof (at_next (IteratorSpec := St) it es e suf w Hat Hw) as H. simpl in H. by destruct (t_Next it w).
    + pose proof (at_next (IteratorSpec := Sl) it es e suf w Hat Hw) as H. simpl in H. by destruct (l_Next it w).
  - intros [it|it|it] es suf target w Hat Hw Ht; simpl.
    + destruct (at_seek (IteratorSpec := Sm) it es suf target w Hat I Ht) as [H _]. by split.
    + pose proof (at_seek (IteratorSpec := St) it es suf target w Hat Hw Ht) as H. simpl in H. by destruct (t_Seek target it w).
    + pose proof (at_seek (IteratorSpec := Sl) it es suf target w Hat Hw Ht) as H. simpl in H. by destruct (l_Seek target it w).
  - intros [it|it|it] es suf w Hat Hw; simpl.
    + destruct (at_first (IteratorSpec := Sm) it es suf w Hat I) as [H _]. by split.
    + pose proof (at_first (IteratorSpec := St) it es suf w Hat Hw) as H. simpl in H. by destruct (t_SeekToFirst it w).
    + pose proof (at_first (IteratorSpec := Sl) it es suf w Hat Hw) as H. simpl in H. by destruct (l_SeekToFirst it w).
Qed.

(** The contents of the sources. *)
Record contents := mkContents {
  c_mem : list entry;
  c_imm : option (list entry);
  c_l0 : list (list entry);
  c_deep : list (list (list entry))
}.

Definition all_sources (c : contents) : list (list entry) :=
  c_mem c :: option_list (c_imm c) ++ sources (c_l0 c) (c_deep c).

Record view_ok (vw : ReadView) (c : contents) : Prop := {
  vw_mem : mem_ok (rv_mem vw) (c_mem c);
  vw_imm : option_Forall2 mem_ok (rv_imm vw) (c_imm c);
  vw_version : version_ok truth (rv_version vw) (c_l0 c) (c_deep c);
  vw_layered : layered (all_sources c);
  vw_seq : 0 <= rv_seq vw <= kMaxSequenceNumber
}.

(** What a user is told. *)
Definition verdict (r : option (option bytes)) : Status * option bytes :=
  match r with Some (Some v) => (Status.OK, Some v) | _ => (Status.NotFound "", None) end.

Lemma mem_Get_read (m : @MemTable R) es key s :
  mem_ok m es -> size key + 8 < 2 ^ 32 -> 0 <= s <= kMaxSequenceNumber -> MemTable.Get key s m = reply (read es key s).
Proof. intros Hok Hk Hs. rewrite <- get_sorted_newest by (done || apply Hok). by apply Get_sorted. Qed.

Lemma view_Get_spec key vw c e :
  view_ok vw c -> env_inv e -> size key + 8 < 2 ^ 32 ->
  exists st e', view_Get key vw e =
    Some (verdict (read (concat (all_sources c)) key (rv_seq vw)), st, e') /\ env_inv e'.
Proof.
  intros [Hm Hi Hv Hl Hs] He Hk. rewrite <- first_read_newest by done. unfold view_Get.
  rewrite (mem_Get_read _ _ key _ Hm Hk Hs). unfold all_sources. cbn [first_read].
  destruct (read (c_mem c) key (rv_seq vw)) as [r|]; [destruct r; eauto|]. cbn [reply].
  assert ((imm ← rv_imm vw; MemTable.Get key (rv_seq vw) imm) =
    match c_imm c with Some es => reply (read es key (rv_seq vw)) | None => None end) as ->.
  { inversion Hi as [m es Hmi E1 E2|E1 E2]; [|done]. cbn [mbind option_bind]. by rewrite (mem_Get_read m es). }
  destruct (Version_Get_spec calm truth fs key (rv_seq vw) _ _ _ e Hv He Hs) as (p & e' & HG & He').
  destruct (c_imm c) as [es|]; simpl.
  - destruct (read es key (rv_seq vw)) as [r|]; [destruct r; eauto|]. simpl. rewrite HG. cbn [mbind option_bind].
    destruct (first_read _ key (rv_seq vw)) as [[v|]|]; simpl; eauto.
  - rewrite HG. cbn [mbind option_bind]. destruct (first_read _ key (rv_seq vw)) as [[v|]|]; simpl; eauto.
Qed.

(** ** Scans *)

Definition deep_runs (deep : list (list (list entry))) : list (list entry) :=
  omap (fun ess => if bool_decide (ess = []) then None else Some (concat ess)) deep.

Definition child_runs (c : contents) : list (list entry) :=
  c_mem c :: option_list (c_imm c) ++ c_l0 c ++ deep_runs (c_deep c).

Lemma concat_child_runs c : concat (child_runs c) = concat (all_sources c).
Proof.
  unfold child_runs, all_sources, sources. simpl. rewrite !concat_app. do 3 f_equal.
  induction (c_deep c) as [|ess deep IH]; [done|]. simpl. rewrite <- IH.
  case_bool_decide as Hb; [by rewrite Hb|done].
Qed.

Lemma level_children_at v ls deep : Forall2 (level_ok truth) ls deep ->
  forall k, (forall i files, ls !! i = Some files -> level_files v (k + i) = files) ->
  Forall2 (fun it es => any_at it es [])
    (omap (fun level => if bool_decide (level_files v level = []) then None else Some (ALevel (new_LevelIterator v level)))
      (seq k (length ls))) (deep_runs deep).
Proof.
  induction 1 as [|files ess ls deep HL _ IH]; intros k Hk; [constructor|]. simpl.
  assert (level_files v k = files) as Hfk by (rewrite <- (Nat.add_0_r k); by apply (Hk 0%nat)).
  assert (Forall2 (fun it es => any_at it es [])
    (omap (fun level => if bool_decide (level_files v level = []) then None else Some (ALevel (new_LevelIterator v level)))
      (seq (S k) (length ls))) (deep_runs deep)) as Htl.
  { apply IH. intros i fl Hi. replace (S k + i)%nat with (k + S i)%nat by lia. by apply Hk. }
  rewrite Hfk. assert (files = [] <-> ess = []) as Hiff.
  { destruct HL as [Hf _]. by split; intros ->; inversion Hf. }
  repeat case_bool_decide; try tauto. constructor; [|done]. apply (new_level_at truth). by rewrite Hfk.
Qed.

Lemma view_children_at vw c :
  view_ok vw c -> Forall2 (fun it es => any_at it es []) (view_children vw) (child_runs c).
Proof.
  intros [Hm Hi [Hlen H0 Hd] _ _]. unfold view_children, child_runs.
  assert (forall (m : @MemTable R) es, mem_ok m es -> any_at (AMem (new_MemIterator m)) es []) as Hmem.
  { intros m es Hok. split_and!; [done|constructor|by left]. }
  constructor; [by apply Hmem|]. apply Forall2_app; [|apply Forall2_app].
  - inversion Hi as [m es Hmi E1 E2|E1 E2]; simpl; [|constructor]. constructor; [by apply Hmem|constructor].
  - apply Forall2_fmap_l. eapply Forall2_impl; [exact H0|]. intros f es Hf. simpl. by apply (open_file_at truth).
  - unfold level_children. rewrite <- Hlen. replace (length (levels (rv_version vw)) - 1)%nat
      with (length (tail (levels (rv_version vw)))) by (destruct (levels (rv_version vw)); simpl; lia).
    apply level_children_at; [done|]. intros i fl Hfl. unfold level_files.
    destruct (levels (rv_version vw)) as [|l0 ls]; [done|]. simpl in *. by rewrite Hfl.
Qed.

Lemma child_runs_sorted vw c : view_ok vw c -> Forall sorted (child_runs c) /\ entries_typed (concat (child_runs c)).
Proof.
  intros [Hm Hi [_ H0 Hd] _ _]. unfold child_runs, entries_typed.
  assert (forall l : list (list entry), Forall (fun es => sorted es /\ entries_typed es) l ->
    Forall sorted l /\ Forall (fun e => ikey_typed e.1) (concat l)) as Hl.
  { intros l H. split; [eapply Forall_impl; [exact H|by intros ? []]|].
    apply Forall_concat. eapply Forall_impl; [exact H|by intros ? []]. }
  apply Hl. constructor; [split; apply Hm|]. rewrite !Forall_app. split_and!.
  - inversion Hi as [m es Hmi E1 E2|E1 E2]; simpl; [|constructor]. constructor; [split; apply Hmi|constructor].
  - apply Forall_forall. intros es Hes. apply list_elem_of_lookup in Hes as [j Hj].
    destruct (Forall2_lookup_r _ _ _ _ _ H0 Hj) as (f & _ & Hf). split; [by eapply file_sorted|apply Hf].
  - apply Forall_forall. intros es Hes. unfold deep_runs in Hes. apply list_elem_of_omap in Hes as (ess & Hin & Hes).
    case_bool_decide; [done|]. injection Hes as <-. apply list_elem_of_lookup in Hin as [j Hj].
    destruct (Forall2_lookup_r _ _ _ _ _ Hd Hj) as (files & _ & HL). split; [by eapply level_sorted|].
    apply Forall_concat, Forall_forall. intros a Ha. apply list_elem_of_lookup in Ha as [k Hk].
    destruct (Forall2_lookup_r _ _ _ _ _ (proj1 HL) Hk) as (f & _ & Hf). apply Hf.
Qed.

Lemma merges_read runs out key s :
  merges runs out -> Forall sorted runs -> read out key s = read (concat runs) key s.
Proof. intros Hm Hs. unfold read. by rewrite (merges_newest runs). Qed.

(** The merge of all sources. *)
Lemma view_stream vw c :
  view_ok vw c -> exists es, merge_at any_at (NewMergingIterator (view_children vw)) es [] /\ StronglySorted entry_le es /\ entries_typed es /\
    length es = length (concat (all_sources c)) /\ forall k, read (concat (all_sources c)) k (rv_seq vw) = read es k (rv_seq vw).
Proof.
  intros Hvw. destruct (child_runs_sorted vw c Hvw) as [Hs Hty].
  destruct (new_merge_at any_at _ _ (view_children_at vw c Hvw) Hs) as (es & Hat & Hm).
  pose proof (merges_perm _ _ Hm) as Hp. rewrite concat_child_runs in Hp, Hty.
  exists es. split_and!; [exact Hat|exact (merges_sorted _ _ Hm Hs)|unfold entries_typed in *; by rewrite Hp|by rewrite Hp|].
  intros k. rewrite (merges_read (child_runs c) es) by done. by rewrite concat_child_runs.
Qed.

Lemma view_scan_spec target vw c e n :
  view_ok vw c -> env_inv e -> size target + 8 < 2 ^ 32 -> (length (concat (all_sources c)) <= n)%nat ->
  let scan_from (start : DBIter * Env) := scan (S n) (S n) start.1 start.2 in
  let all := scan_from (d_SeekToFirst (S n) (NewIterator vw) e) in
  let from := scan_from (d_Seek (S n) target (NewIterator vw) e) in
  let db := concat (all_sources c) in
  (forall k v, (k, v) ∈ all.1 <-> read db k (rv_seq vw) = Some (Some v)) /\
  (forall k v, (k, v) ∈ from.1 <-> read db k (rv_seq vw) = Some (Some v) /\ 0 <= sv_compare k target) /\
  StronglySorted (fun a b => sv_compare a.1 b.1 < 0) all.1 /\
  StronglySorted (fun a b => sv_compare a.1 b.1 < 0) from.1 /\
  d_status all.2 = Status.OK /\ d_status from.2 = Status.OK.
Proof.
  intros Hvw He Ht Hn scan_from all from db. destruct (view_stream vw c Hvw) as (es & Hat & Hso & Hty & Hlen & Hrd).
  destruct (scan_equals_reads env_inv (merge_at any_at) (NewMergingIterator (view_children vw)) es [] (rv_seq vw)
    target e n Hat He Hso Hty (vw_seq _ _ Hvw) Ht ltac:(lia)) as (H1 & H2 & H3 & H4 & H5 & H6).
  split_and!; [|..|exact H3|exact H4|exact H5|exact H6]; intros k v; unfold db; rewrite Hrd; [apply H1|apply H2].
Qed.

(** Where a seek of a database iterator stands. *)
Lemma view_seek_spec target vw c e n :
  view_ok vw c -> env_inv e -> size target + 8 < 2 ^ 32 -> (length (concat (all_sources c)) <= n)%nat ->
  let r := d_Seek (S n) target (NewIterator vw) e in
  exists es rs, db_at (merge_at any_at) n r.1 es rs /\ env_inv r.2 /\ StronglySorted (fun a b => sv_compare a.1 b.1 < 0) rs /\
    forall k v, (k, v) ∈ rs <-> read (concat (all_sources c)) k (rv_seq vw) = Some (Some v) /\ 0 <= sv_compare k target.
Proof.
  intros Hvw He Ht Hn r. destruct (view_stream vw c Hvw) as (es & Hat & Hso & Hty & Hlen & Hrd).
  destruct (seek_rows env_inv (merge_at any_at) (NewMergingIterator (view_children vw)) es [] (rv_seq vw)
    target e n Hat He Hso Hty (vw_seq _ _ Hvw) Ht ltac:(lia)) as (rs & F1 & F2 & _ & F4 & F5).
  exists es, rs. split_and!; [exact F1|exact F2|exact F4|]. intros k v. rewrite Hrd. apply F5.
Qed.

End Correct.
End ReadPath.
