(* ===== verification/Gc.v ===== *)
(** * Which versions survive (src/db.cpp: the loops of [FlushImmutableMemTable]
    and [DoCompaction])

    Both loops walk versions in key order, remember the key and the sequence of
    the version before, and drop a version once a newer one is visible to every
    live snapshot; a compaction with nothing below it also drops tombstones that
    every snapshot sees. What survives is shown to answer every read at or above
    the smallest snapshot as before. *)

From S2P Require Import Prelude InternalKey Versions Merge DbIter.

Record GcState := mkGcState {
  last_user_key : option bytes;   (** [have_last_user_key] and the key *)
  last_sequence_for_key : Z
}.

Definition new_GcState : GcState := mkGcState None kMaxSequenceNumber.

Definition is_new_key (g : GcState) (e : entry) : bool :=
  match last_user_key g with None => true | Some k => negb (sv_eqb (user_key e) k) end.

(** [hidden_from_everyone], and the state after the version. *)
Definition gc_visit (smallest_snapshot : Z) (g : GcState) (e : entry) : bool * GcState :=
  let last_sequence := if is_new_key g e then kMaxSequenceNumber else last_sequence_for_key g in
  (last_sequence <=? smallest_snapshot, mkGcState (Some (user_key e)) (sequence e)).

Definition droppable_tombstone (smallest_snapshot : Z) (bottom_most : bool) (e : entry) : bool :=
  is_deletion e && bottom_most && (sequence e <=? smallest_snapshot).

(** The versions that reach the output. A flush never counts as the bottom. *)
Fixpoint gc_filter (smallest_snapshot : Z) (bottom_most : bool) (g : GcState) (es : list entry) : list entry :=
  match es with
  | [] => []
  | e :: es =>
      let '(hidden, g) := gc_visit smallest_snapshot g e in
      if hidden then gc_filter smallest_snapshot bottom_most g es
      else if droppable_tombstone smallest_snapshot bottom_most e then gc_filter smallest_snapshot bottom_most g es
      else e :: gc_filter smallest_snapshot bottom_most g es
  end.

Definition survivors (smallest_snapshot : Z) (bottom_most : bool) (es : list entry) : list entry :=
  gc_filter smallest_snapshot bottom_most new_GcState es.

(** The state after a prefix. *)
Definition gc_state (smallest_snapshot : Z) (g : GcState) (es : list entry) : GcState :=
  fold_left (fun g e => (gc_visit smallest_snapshot g e).2) es g.

Lemma gc_filter_app s b l : forall g l',
  gc_filter s b g (l ++ l') = gc_filter s b g l ++ gc_filter s b (gc_state s g l) l'.
Proof.
  induction l as [|e l IH]; intros g l'; [done|]. cbn [app gc_filter].
  change (gc_state s g (e :: l)) with (gc_state s (gc_visit s g e).2 l). destruct (gc_visit s g e) as [h g']. cbn [snd].
  destruct h; [apply IH|]. destruct (droppable_tombstone s b e); [apply IH|]. cbn [app]. by rewrite IH.
Qed.

Lemma gc_state_snoc s g l e : gc_state s g (l ++ [e]) = mkGcState (Some (user_key e)) (sequence e).
Proof. unfold gc_state. by rewrite fold_left_app. Qed.

(** ** Nothing is invented or reordered *)

Lemma gc_filter_sublist s b es : forall g, sublist (gc_filter s b g es) es.
Proof.
  induction es as [|e es IH]; intros g; [done|]. cbn [gc_filter].
  destruct (gc_visit s g e) as [[|] g']; [by apply sublist_cons|].
  destruct (droppable_tombstone s b e); [by apply sublist_cons|by apply sublist_skip].
Qed.

Lemma sublist_Forall {A} (P : A -> Prop) l l' : sublist l l' -> Forall P l' -> Forall P l.
Proof. induction 1; intros Hf; [done|apply Forall_cons in Hf as []; constructor; tauto|apply Forall_cons in Hf as []; tauto]. Qed.

Lemma sublist_mem {A} (x : A) l l' : sublist l l' -> x ∈ l -> x ∈ l'.
Proof.
  intros Hs Hx. assert (Forall (fun y => y ∈ l') l) as H; [|rewrite Forall_forall in H; by apply H].
  eapply sublist_Forall; [exact Hs|]. by apply Forall_forall.
Qed.

Lemma sublist_StronglySorted {A} (Rel : A -> A -> Prop) l l' : sublist l l' -> StronglySorted Rel l' -> StronglySorted Rel l.
Proof.
  induction 1 as [|x l l' Hsub IH|x l l' Hsub IH]; intros Hs; [done|..]; apply StronglySorted_inv in Hs as [Hs Hx].
  - constructor; [tauto|by eapply sublist_Forall].
  - tauto.
Qed.

(** ** Reads are preserved *)

Section Reads.
Context (smallest seq : Z) (bottom : bool) (key : bytes).
Hypothesis Hsmall : smallest < kMaxSequenceNumber.
Hypothesis Hseq : smallest <= seq.

(** The state fits what is still to come. *)
Definition gc_inv (g : GcState) (es : list entry) : Prop :=
  match last_user_key g with
  | None => True
  | Some k => Forall (fun x => sv_compare k (user_key x) <= 0 /\
                               (user_key x = k -> sequence x <= last_sequence_for_key g)) es
  end.

(** The versions of the key that follow are hidden. *)
Definition shadowed (g : GcState) : Prop :=
  last_user_key g = Some key /\ last_sequence_for_key g <= smallest.

Lemma entry_le_sequence a b : entry_le a b -> user_key a = user_key b -> sequence b <= sequence a.
Proof.
  intros Hle Hk. pose proof (entry_le_tag _ _ Hle Hk) as Ht. unfold sequence, ExtractSequence, tag in *.
  rewrite !Z.shiftr_div_pow2 by lia. apply Z.div_le_mono; lia.
Qed.

Lemma gc_visit_inv g e es : StronglySorted entry_le (e :: es) -> gc_inv (gc_visit smallest g e).2 es.
Proof.
  intros Hs. apply StronglySorted_inv in Hs as [_ He]. unfold gc_inv. simpl.
  eapply Forall_impl; [exact He|]. intros x Hx. simpl. split; [by apply entry_le_user|].
  intros Hk. by apply entry_le_sequence.
Qed.

Lemma gc_inv_head g e es : gc_inv g (e :: es) ->
  match last_user_key g with
  | Some k => sv_compare k (user_key e) <= 0 /\ (user_key e = k -> sequence e <= last_sequence_for_key g)
  | None => True
  end.
Proof. unfold gc_inv. destruct (last_user_key g); [|done]. by intros [? _]%Forall_cons. Qed.

Lemma shadowed_nothing es : forall g,
  StronglySorted entry_le es -> gc_inv g es -> shadowed g -> newest (gc_filter smallest bottom g es) key seq = None.
Proof.
  induction es as [|e es IH]; intros g Hs Hi [Hk Hl]; [done|]. pose proof (gc_visit_inv g e es Hs) as Hi'.
  pose proof (gc_inv_head g e es Hi) as Hh. rewrite Hk in Hh. destruct Hh as [Hle Hsq].
  destruct (decide (user_key e = key)) as [He|He].
  - cbn [gc_filter]. unfold gc_visit, is_new_key in *. rewrite Hk in *.
    destruct (sv_eqb (user_key e) key) eqn:Eq; [|by apply sv_eqb_false in Eq]. cbn [negb] in *.
    destruct (Z.leb_spec (last_sequence_for_key g) smallest); [|lia].
    apply IH; [by apply StronglySorted_inv in Hs as [? _]|done|]. split; simpl; [by rewrite He|].
    specialize (Hsq He). lia.
  - apply newest_absent. eapply sublist_Forall; [apply gc_filter_sublist|].
    assert (sv_compare key (user_key e) < 0) as Hlt.
    { assert (sv_compare key (user_key e) <> 0); [|lia]. rewrite sv_compare_eq. congruence. }
    apply Forall_cons. split; [done|]. apply StronglySorted_inv in Hs as [_ Hle'].
    eapply Forall_impl; [exact Hle'|]. intros x Hx%entry_le_user Hxk. rewrite Hxk in Hx.
    rewrite sv_compare_antisym in Hx. lia.
Qed.

(** A surviving version answers as before, or a tombstone that everybody sees
    went away together with what it hid. *)
Definition answers_alike (before after : option entry) : Prop :=
  after = before \/ bottom = true /\ after = None /\ exists e, before = Some e /\ is_deletion e = true.

Lemma gc_filter_newest es : forall g,
  StronglySorted entry_le es -> gc_inv g es -> ~ shadowed g ->
  answers_alike (newest es key seq) (newest (gc_filter smallest bottom g es) key seq).
Proof.
  induction es as [|e es IH]; intros g Hs Hi Hns; [by left|].
  pose proof (gc_visit_inv g e es Hs) as Hi'. pose proof Hs as [Hs' _]%StronglySorted_inv. cbn [gc_filter].
  destruct (decide (user_key e = key)) as [He|He].
  - assert ((gc_visit smallest g e).1 = false) as Hnh.
    { unfold gc_visit, is_new_key. simpl. apply Z.leb_gt. destruct (last_user_key g) as [k|] eqn:Ek; [|done].
      destruct (sv_eqb (user_key e) k) eqn:Eq; cbn [negb]; [|done]. apply sv_eqb_true in Eq.
      destruct (Z.le_gt_cases (last_sequence_for_key g) smallest); [|lia]. exfalso. apply Hns. split; [congruence|done]. }
    destruct (gc_visit smallest g e) as [h g'] eqn:Ev. simpl in Hnh, Hi'. subst h.
    assert (last_user_key g' = Some key /\ last_sequence_for_key g' = sequence e) as [Hgk Hgs].
    { unfold gc_visit in Ev. injection Ev as _ <-. simpl. by rewrite He. }
    unfold droppable_tombstone. destruct (Z.le_gt_cases (sequence e) seq) as [Hv|Hv].
    + pose proof (newest_head seq e es Hs Hv) as Hn. rewrite He in Hn. rewrite Hn.
      destruct (is_deletion e && bottom && (sequence e <=? smallest)) eqn:Ed.
      * apply andb_true_iff in Ed as [[Hd Hb]%andb_true_iff Hsm%Z.leb_le]. right. split_and!; [done| |by exists e].
        apply shadowed_nothing; [done|done|]. split; [done|lia].
      * left. rewrite <- He. apply newest_head; [|done]. constructor;
          [by eapply sublist_StronglySorted; [apply gc_filter_sublist|]|].
        apply StronglySorted_inv in Hs as [_ Hle]. by eapply sublist_Forall; [apply gc_filter_sublist|].
    + destruct (Z.leb_spec (sequence e) smallest); [lia|]. rewrite andb_false_r. cbn [newest].
      assert (visible key seq e = false) as ->; [|].
      { apply not_true_iff_false. rewrite visible_true. lia. }
      apply IH; [done|done|]. intros [_ ?]. lia.
  - assert (visible key seq e = false) as Hve.
    { apply not_true_iff_false. rewrite visible_true. by intros [? _]. }
    assert (answers_alike (newest es key seq) (newest (gc_filter smallest bottom (gc_visit smallest g e).2 es) key seq)) as IH'.
    { apply IH; [done|done|]. intros [[= Hk] _]. done. }
    destruct (gc_visit smallest g e) as [h g']. cbn [newest snd] in *. rewrite Hve.
    destruct h; [done|]. destruct (droppable_tombstone smallest bottom e); [done|]. cbn [newest]. by rewrite Hve.
Qed.

Lemma survivors_newest es :
  StronglySorted entry_le es -> answers_alike (newest es key seq) (newest (survivors smallest bottom es) key seq).
Proof. intros Hs. apply gc_filter_newest; [done|done|]. by intros [? _]. Qed.

End Reads.

(** What a user gets from a read. *)
Definition value_of (r : option (option bytes)) : option bytes := match r with Some (Some v) => Some v | _ => None end.

Lemma survivors_read smallest bottom es key seq :
  smallest < kMaxSequenceNumber -> smallest <= seq -> StronglySorted entry_le es ->
  (bottom = false -> read (survivors smallest bottom es) key seq = read es key seq) /\
  value_of (read (survivors smallest bottom es) key seq) = value_of (read es key seq).
Proof.
  intros Hk Hs Hsort. unfold read.
  destruct (survivors_newest smallest seq bottom key Hk Hs es Hsort) as [->|(-> & -> & e & -> & Hd)]; [done|].
  split; [done|]. simpl. unfold answer. by rewrite Hd.
Qed.

(** A flush keeps at least one version. *)
Lemma survivors_nonempty smallest es : smallest < kMaxSequenceNumber -> es <> [] -> survivors smallest false es <> [].
Proof.
  intros Hk Hne. destruct es as [|e es]; [done|]. unfold survivors. cbn [gc_filter]. unfold gc_visit, is_new_key, new_GcState. cbn [last_user_key].
  destruct (Z.leb_spec kMaxSequenceNumber smallest); [lia|]. unfold droppable_tombstone. by rewrite andb_false_r.
Qed.

(** ** Part of the contents replaced by what survives of it *)

(** [rest] is what the flush or the compaction does not look at. A tombstone is
    only dropped where nothing in [rest] is older than the inputs. *)
Lemma replace_reads smallest bottom ins rest key seq :
  smallest < kMaxSequenceNumber -> smallest <= seq -> StronglySorted entry_le ins ->
  (bottom = true -> forall x y, x ∈ ins -> y ∈ rest -> user_key x = user_key y -> tag x <= tag y) ->
  value_of (read (rest ++ survivors smallest bottom ins) key seq) = value_of (read (rest ++ ins) key seq) /\
  (bottom = false -> read (rest ++ survivors smallest bottom ins) key seq = read (rest ++ ins) key seq).
Proof.
  intros Hk Hs Hsort Hbot. unfold read. rewrite !newest_app.
  destruct (survivors_newest smallest seq bottom key Hk Hs ins Hsort) as [->|(Hb & -> & e & He & Hd)]; [done|].
  split; [|by rewrite Hb]. rewrite He, newer_None_r. apply newest_Some in He as (Hin & Hv & _).
  destruct (newest rest key seq) as [y|] eqn:Ey; simpl; [|by unfold answer; rewrite Hd].
  apply newest_Some in Ey as (Hy & Hvy & _). apply visible_true in Hv as [Hke _], Hvy as [Hky _].
  specialize (Hbot Hb e y Hin Hy ltac:(congruence)). by zcase.
Qed.

(** Repeated versions collapse, so what survives is strictly sorted. *)
Lemma gc_filter_strict smallest bottom es : forall g,
  smallest < kMaxSequenceNumber -> StronglySorted entry_le es -> entries_typed es ->
  NoDup (map fst (filter (fun e => smallest < sequence e) es)) -> sorted (gc_filter smallest bottom g es).
Proof.
  induction es as [|e es IH]; intros g Hk Hs Ht Hnd; [constructor|]. pose proof (gc_visit_inv smallest g e es Hs) as Hi'.
  pose proof Hs as [Hs' Hle]%StronglySorted_inv. apply Forall_cons in Ht as [Hte Ht].
  assert (NoDup (map fst (filter (fun e => smallest < sequence e) es))) as Hnd'.
  { rewrite filter_cons in Hnd. case_decide; [|done]. by apply NoDup_cons in Hnd as [_ ?]. }
  cbn [gc_filter]. destruct (gc_visit smallest g e) as [h g'] eqn:Ev. destruct h; [by apply IH|].
  destruct (droppable_tombstone smallest bottom e); [by apply IH|]. constructor; [by apply IH|].
  apply Forall_forall. intros x Hx. assert (x ∈ es) as Hxe by (by eapply sublist_mem; [apply gc_filter_sublist|]).
  rewrite Forall_forall in Hle. specialize (Hle x Hxe). unfold entry_le, entry_lt in *.
  assert (CompareInternalKey e.1 x.1 <> 0); [|pose proof (CompareInternalKey_antisym e.1 x.1); lia].
  unfold entries_typed in Ht. rewrite Forall_forall in Ht. rewrite CompareInternalKey_eq; [|apply Hte|by apply Ht]. intros Hex.
  destruct (decide (smallest < sequence e)) as [Hd|Hd].
  - rewrite filter_cons_True in Hnd by done. simpl in Hnd. apply NoDup_cons in Hnd as [Hn _]. apply Hn.
    rewrite Hex. apply list_elem_of_fmap. exists x. split; [done|]. apply list_elem_of_filter. split; [|done].
    unfold sequence in *. by rewrite <- Hex.
  - assert (user_key x = user_key e /\ sequence x = sequence e) as [Hux Hsx] by (unfold user_key, sequence; by rewrite Hex).
    assert (newest (gc_filter smallest bottom g' es) (user_key e) smallest = None) as Hn.
    { apply shadowed_nothing; [done|done|]. unfold gc_visit in Ev. injection Ev as _ <-. split; simpl; [done|lia]. }
    apply newest_None in Hn. rewrite Forall_forall in Hn. specialize (Hn x Hx).
    apply not_true_iff_false in Hn. apply Hn. apply visible_true. split; [done|lia].
Qed.

(** ** What is reclaimed *)

Lemma gc_filter_unique smallest bottom es : forall g,
  StronglySorted entry_le es -> gc_inv g es -> Forall (fun e => sequence e <= smallest) es ->
  (last_user_key g <> None -> last_sequence_for_key g <= smallest) ->
  NoDup (map user_key (gc_filter smallest bottom g es)) /\
  (forall k, last_user_key g = Some k -> Forall (fun x => user_key x <> k) (gc_filter smallest bottom g es)).
Proof.
  induction es as [|e es IH]; intros g Hs Hi Hf Hg; [split; [constructor|intros; constructor]|].
  pose proof (gc_visit_inv smallest g e es Hs) as Hi'. pose proof Hs as [Hs' Hle]%StronglySorted_inv.
  apply Forall_cons in Hf as [He Hf].
  destruct (IH (gc_visit smallest g e).2 Hs' Hi' Hf ltac:(done)) as [Hnd Hne].
  specialize (Hne (user_key e) eq_refl).
  assert (forall k, last_user_key g = Some k -> user_key e <> k ->
    Forall (fun x => user_key x <> k) (e :: gc_filter smallest bottom (gc_visit smallest g e).2 es)) as Hother.
  { intros k Hk Hek. pose proof (gc_inv_head g e es Hi) as Hh. rewrite Hk in Hh. destruct Hh as [Hc _].
    assert (sv_compare k (user_key e) < 0) as Hlt.
    { assert (sv_compare k (user_key e) <> 0); [|lia]. rewrite sv_compare_eq. congruence. }
    constructor; [done|]. eapply sublist_Forall; [apply gc_filter_sublist|].
    eapply Forall_impl; [exact Hle|]. intros x Hx%entry_le_user Hxk. rewrite Hxk in Hx. rewrite sv_compare_antisym in Hx. lia. }
  cbn [gc_filter]. destruct (gc_visit smallest g e) as [h g'] eqn:Ev. cbn [snd] in *. destruct h.
  - split; [done|]. intros k Hk. destruct (decide (user_key e = k)) as [<-|Hek]; [done|].
    by specialize (Hother k Hk Hek) as [_ ?]%Forall_cons.
  - assert (forall k, last_user_key g = Some k -> user_key e <> k) as Hek.
    { intros k Hk <-. unfold gc_visit, is_new_key in Ev. rewrite Hk in Ev.
      destruct (sv_eqb (user_key e) (user_key e)) eqn:Eq; [|by apply sv_eqb_false in Eq]. cbn [negb] in Ev.
      injection Ev as Hh _. apply Z.leb_gt in Hh. rewrite Hk in Hg. specialize (Hg ltac:(done)). lia. }
    destruct (droppable_tombstone smallest bottom e).
    + split; [done|]. intros k Hk. by specialize (Hother k Hk (Hek k Hk)) as [_ ?]%Forall_cons.
    + split; [|intros k Hk; by apply Hother, Hek]. cbn [map]. apply NoDup_cons. split; [|done].
      intros Hin. apply list_elem_of_fmap in Hin as (x & Hx & Hin). rewrite Forall_forall in Hne. by apply (Hne x Hin).
Qed.

Lemma gc_filter_no_tombstones smallest es : forall g,
  Forall (fun e => sequence e <= smallest) es ->
  Forall (fun e => is_deletion e = false) (gc_filter smallest true g es).
Proof.
  induction es as [|e es IH]; intros g Hf; [constructor|]. apply Forall_cons in Hf as [He Hf]. cbn [gc_filter].
  destruct (gc_visit smallest g e) as [[|] g']; [by apply IH|]. unfold droppable_tombstone.
  destruct (is_deletion e) eqn:Ed; cbn [andb]; [|constructor; [done|by apply IH]].
  destruct (Z.leb_spec (sequence e) smallest); [by apply IH|lia].
Qed.

(** C17: Flush and compaction keep every read. For versions in key order and any
    sequence number at or above the smallest live snapshot, the versions that
    survive give the same value as all of them; a flush, or a compaction with
    something below it, even keeps the tombstones those reads need. *)
Theorem gc_preserves_reads smallest bottom es key seq :
  smallest < kMaxSequenceNumber -> smallest <= seq -> StronglySorted entry_le es ->
  value_of (read (survivors smallest bottom es) key seq) = value_of (read es key seq) /\
  (bottom = false -> read (survivors smallest bottom es) key seq = read es key seq).
Proof. intros H1 H2 H3. destruct (survivors_read smallest bottom es key seq H1 H2 H3). by split. Qed.

(** With no snapshot pinned below the versions at hand, the collapse is
    total: one version per user key survives, and at the bottom no tombstone
    does. *)
Theorem gc_reclaims smallest bottom es :
  StronglySorted entry_le es -> Forall (fun e => sequence e <= smallest) es ->
  NoDup (map user_key (survivors smallest bottom es)) /\
  (bottom = true -> Forall (fun e => is_deletion e = false) (survivors smallest bottom es)).
Proof.
  intros Hs Hf. split; [by apply gc_filter_unique|]. intros ->. by apply gc_filter_no_tombstones.
Qed.

(** Two keys with overwritten and deleted versions. *)
Definition gc_demo : list entry :=
  [(EncodeInternalKey [Byte.x61] 9 kValue, [Byte.x39]); (EncodeInternalKey [Byte.x61] 4 kValue, [Byte.x34]);
   (EncodeInternalKey [Byte.x61] 2 kValue, [Byte.x32]); (EncodeInternalKey [Byte.x62] 5 kDeletion, []);
   (EncodeInternalKey [Byte.x62] 3 kValue, [Byte.x33])].

Lemma gc_demo_sorted : StronglySorted entry_le gc_demo.
Proof.
  repeat (constructor; [|repeat (constructor; [unfold entry_le; vm_compute; discriminate|]); constructor]). constructor.
Qed.

(** With a snapshot at 5 the version 4 is needed, 2 and the deleted pair are not. *)
Lemma gc_preserves_reads_witness :
  survivors 5 true gc_demo =
    [(EncodeInternalKey [Byte.x61] 9 kValue, [Byte.x39]); (EncodeInternalKey [Byte.x61] 4 kValue, [Byte.x34])] /\
  value_of (read (survivors 5 true gc_demo) [Byte.x61] 6) = Some [Byte.x34].
Proof.
  split; [vm_compute; reflexivity|].
  destruct (gc_preserves_reads 5 true gc_demo [Byte.x61] 6) as [-> _];
    [vm_compute; reflexivity|lia|exact gc_demo_sorted|vm_compute; reflexivity].
Defined.

Lemma gc_reclaims_witness :
  NoDup (map user_key (survivors 9 true gc_demo)) /\ survivors 9 true gc_demo = take 1 gc_demo.
Proof.
  destruct (gc_reclaims 9 true gc_demo gc_demo_sorted) as [H _];
    [repeat (constructor; [vm_compute; discriminate|]); constructor|].
  split; [exact H|vm_compute; reflexivity].
Defined.
