(* ===== verification/FileNames.v ===== *)
(** * Names of the database's files (src/db.cpp: [NumberedFile],
    [ParseFileName], and the listing of the directory)

    Table and log files carry a number of at least six digits. The parser is
    shown to invert the printer for every 64-bit number, so that no two files
    share a name. *)

From Stdlib Require Import Ascii String.
From stdpp Require Import gmap strings.
From S2P Require Import Prelude Posix.
Open Scope list_scope.

Definition chars : Type := list ascii.

Definition digit_char (d : Z) : ascii := ascii_of_N (Z.to_N (48 + d)).
Definition digit_value (c : ascii) : Z := Z.of_N (N_of_ascii c) - 48.
Definition is_digit (c : ascii) : bool := (0 <=? digit_value c) && (digit_value c <=? 9).

(** The digits of [%llu]; twenty are enough for 64 bits. *)
Fixpoint digits (fuel : nat) (n : Z) (acc : chars) : chars :=
  match fuel with
  | O => acc
  | S fuel =>
      let acc := digit_char (n mod 10) :: acc in
      if n / 10 =? 0 then acc else digits fuel (n / 10) acc
  end.

(** [%0<width>llu]. *)
Definition zero_padded (width : nat) (n : Z) : chars :=
  let ds := digits 20 n [] in replicate (width - length ds) (digit_char 0) ++ ds.

Definition padded : Z -> chars := zero_padded 6.

(** [snprintf] keeps 31 characters of the 32-byte buffer. *)
Definition base_name (number : Z) (suffix : string) : string :=
  string_of_list_ascii (take 30 (padded number ++ list_ascii_of_string suffix)).

Definition NumberedFile (dir : string) (number : Z) (suffix : string) : string :=
  (dir ++ "/" ++ base_name number suffix)%string.

(** The parts around the last dot. *)
Definition split_last_dot (l : chars) : option (chars * chars) :=
  let r := rev l in
  match drop_while (fun c => negb (Ascii.eqb c ".")) r with
  | [] => None
  | _ :: stem => Some (rev stem, rev (take_while (fun c => negb (Ascii.eqb c ".")) r))
  end.

Definition dec_value (l : chars) : Z := fold_left (fun acc c => acc * 10 + digit_value c) l 0.

(** [strtoull] saturates. *)
Definition strtoull (l : chars) : Z := Z.min (dec_value l) (2 ^ 64 - 1).

Definition ParseFileName (name : string) : option (Z * string) :=
  match split_last_dot (list_ascii_of_string name) with
  | None => None
  | Some (stem, kind) =>
      if bool_decide (stem = []) then None
      else if forallb is_digit stem then Some (strtoull stem, string_of_list_ascii kind)
      else None
  end.

(** ** The directory *)

Fixpoint strip_prefix (p s : string) : option string :=
  match p, s with
  | EmptyString, _ => Some s
  | String a p, String b s => if Ascii.eqb a b then strip_prefix p s else None
  | _, _ => None
  end.

(** What [readdir] reports; the two dot entries parse as nothing. *)
Definition dir_entries (files : gmap string bytes) (dir : string) : list string :=
  omap (strip_prefix (dir ++ "/")) (map fst (map_to_list files)).

(** ** Printing and parsing *)

Lemma digit_char_value d : 0 <= d <= 9 -> digit_value (digit_char d) = d /\ is_digit (digit_char d) = true.
Proof.
  intros Hd. assert (digit_value (digit_char d) = d) as H.
  { unfold digit_value, digit_char. rewrite N_ascii_embedding; lia. }
  split; [done|]. unfold is_digit. rewrite H. lia.
Qed.

Lemma dec_value_app a b : dec_value (a ++ b) = fold_left (fun acc c => acc * 10 + digit_value c) b (dec_value a).
Proof. unfold dec_value. apply fold_left_app. Qed.

Lemma fold_value l x :
  fold_left (fun acc c => acc * 10 + digit_value c) l x = x * 10 ^ Z.of_nat (length l) + dec_value l.
Proof.
  unfold dec_value. revert x. induction l as [|c l IH]; intros x; cbn [fold_left length]; [simpl; lia|].
  rewrite (IH (x * 10 + _)), (IH (0 * 10 + _)). rewrite Nat2Z.inj_succ, Z.pow_succ_r by lia. ring.
Qed.

Lemma digits_spec fuel : forall n acc,
  0 <= n < 10 ^ Z.of_nat fuel -> (1 <= fuel)%nat -> Forall (fun c => is_digit c = true) acc ->
  exists ds, digits fuel n acc = ds ++ acc /\ dec_value ds = n /\ Forall (fun c => is_digit c = true) ds /\
    ds <> [] /\ (length ds <= fuel)%nat.
Proof.
  induction fuel as [|fuel IH]; intros n acc Hn Hf Hacc; [lia|]. cbn [digits].
  pose proof (Z.mod_pos_bound n 10 ltac:(lia)). pose proof (Z.div_mod n 10 ltac:(lia)).
  destruct (digit_char_value (n mod 10) ltac:(lia)) as [Hv Hd].
  destruct (Z.eqb_spec (n / 10) 0) as [Hz|Hz].
  - exists [digit_char (n mod 10)]. split_and!; [done| |by constructor|done|simpl; lia].
    unfold dec_value. simpl. lia.
  - assert (0 <= n / 10) by (apply Z.div_pos; lia).
    assert (n / 10 < 10 ^ Z.of_nat fuel).
    { apply Z.div_lt_upper_bound; [lia|]. rewrite Nat2Z.inj_succ, Z.pow_succ_r in Hn by lia. lia. }
    assert (1 <= fuel)%nat by (destruct fuel; [simpl in *; lia|lia]).
    destruct (IH (n / 10) (digit_char (n mod 10) :: acc)) as (ds & Heq & Hval & Hds & Hne & Hlen);
      [lia|done|by constructor|].
    exists (ds ++ [digit_char (n mod 10)]). split_and!.
    + rewrite Heq. by rewrite <- app_assoc.
    + rewrite dec_value_app, Hval. simpl. lia.
    + apply Forall_app. split; [done|by constructor].
    + by destruct ds.
    + rewrite length_app. simpl. lia.
Qed.

Lemma zero_padded_spec width n : (1 <= width <= 20)%nat -> 0 <= n < 2 ^ 64 ->
  dec_value (zero_padded width n) = n /\ Forall (fun c => is_digit c = true) (zero_padded width n) /\ zero_padded width n <> [] /\
  (width <= length (zero_padded width n) <= 20)%nat.
Proof.
  intros Hw Hn. unfold zero_padded. destruct (digits_spec 20 n []) as (ds & Heq & Hval & Hds & Hne & Hlen);
    [simpl; lia|lia|constructor|]. rewrite Heq, app_nil_r. split_and!.
  - rewrite dec_value_app, fold_value, Hval. replace (dec_value (replicate _ _)) with 0; [lia|].
    induction (width - length ds)%nat as [|k IH]; [done|]. rewrite replicate_S_end, dec_value_app, <- IH. done.
  - apply Forall_app. split; [|done]. by apply Forall_replicate.
  - by destruct ds; [|destruct (width - _)%nat].
  - rewrite length_app, length_replicate. lia.
  - rewrite length_app, length_replicate. lia.
Qed.

Lemma padded_spec n : 0 <= n < 2 ^ 64 ->
  dec_value (padded n) = n /\ Forall (fun c => is_digit c = true) (padded n) /\ padded n <> [] /\ (length (padded n) <= 20)%nat.
Proof. intros Hn. destruct (zero_padded_spec 6 n ltac:(lia) Hn) as (? & ? & ? & _ & ?). by split_and!. Qed.

(** A file kind: no dot, and short enough for the buffer. *)
Definition good_kind (kind : string) : Prop :=
  Forall (fun c => c <> "."%char) (list_ascii_of_string kind) /\ (String.length kind <= 9)%nat.

Lemma good_sst : good_kind "sst".
Proof. split; [repeat constructor; discriminate|simpl; lia]. Qed.

Lemma good_log : good_kind "log".
Proof. split; [repeat constructor; discriminate|simpl; lia]. Qed.

Lemma split_last_dot_spec stem kind :
  Forall (fun c => c <> "."%char) kind -> split_last_dot (stem ++ "."%char :: kind) = Some (stem, kind).
Proof.
  intros Hk. unfold split_last_dot. rewrite rev_app_distr. simpl. rewrite <- app_assoc. simpl.
  assert (Forall (fun c => negb (Ascii.eqb c ".") = true) (rev kind)) as Hr.
  { apply Forall_rev. eapply Forall_impl; [exact Hk|]. intros c Hc. simpl. by destruct (Ascii.eqb_spec c "."). }
  destruct (while_split (fun c => negb (Ascii.eqb c ".")) (rev kind ++ "."%char :: rev stem) (length (rev kind)))
    as [-> ->].
  - rewrite length_app. lia.
  - by rewrite take_app_length.
  - intros x. rewrite lookup_app_r, Nat.sub_diag by done. by intros [= <-].
  - rewrite take_app_length, drop_app_length. by rewrite !rev_involutive.
Qed.

Lemma list_ascii_length s : length (list_ascii_of_string s) = String.length s.
Proof. induction s as [|c s IH]; simpl; [done|]. by rewrite IH. Qed.

Lemma parse_base_name n kind :
  0 <= n < 2 ^ 64 -> good_kind kind -> ParseFileName (base_name n ("." ++ kind)) = Some (n, kind).
Proof.
  intros Hn [Hd Hl]. destruct (padded_spec n Hn) as (Hv & Hds & Hne & Hlen). unfold ParseFileName, base_name.
  change (list_ascii_of_string ("." ++ kind)) with ("."%char :: list_ascii_of_string kind).
  rewrite list_ascii_of_string_of_list_ascii, take_ge.
  2:{ rewrite length_app. cbn [length]. rewrite list_ascii_length. lia. }
  rewrite split_last_dot_spec by done. rewrite bool_decide_false by done.
  replace (forallb is_digit (padded n)) with true.
  - unfold strtoull. rewrite Hv, string_of_list_ascii_of_string. do 2 f_equal. lia.
  - symmetry. apply forallb_forall. intros c Hc%list_elem_of_In. rewrite Forall_forall in Hds. by apply Hds.
Qed.

(** ** Listing *)

Lemma strip_prefix_spec p s r : strip_prefix p s = Some r <-> s = (p ++ r)%string.
Proof.
  revert s. induction p as [|a p IH]; intros s; simpl; [split; [by intros [= ->]|by intros ->]|].
  destruct s as [|b s]; [split; done|]. destruct (Ascii.eqb_spec a b) as [->|Hne].
  - rewrite IH. split; [by intros ->|by intros [= ->]].
  - split; [done|]. by intros [= -> _].
Qed.

Lemma append_assoc a b c : ((a ++ b) ++ c)%string = (a ++ b ++ c)%string.
Proof. induction a as [|x a IH]; [done|]. change (String x ((a ++ b) ++ c) = String x (a ++ b ++ c))%string. by rewrite IH. Qed.

Lemma elem_of_dir_entries files dir name :
  name ∈ dir_entries files dir <-> is_Some (files !! (dir ++ "/" ++ name)%string).
Proof.
  unfold dir_entries. rewrite list_elem_of_omap. split.
  - intros (p & Hp & Hs). apply list_elem_of_fmap in Hp as ([q v] & -> & Hq). simpl in Hs.
    apply strip_prefix_spec in Hs as ->. rewrite append_assoc in Hq. exists v. by apply elem_of_map_to_list.
  - intros [v Hv]. exists (dir ++ "/" ++ name)%string. split.
    + apply list_elem_of_fmap. exists ((dir ++ "/" ++ name)%string, v). split; [done|]. by apply elem_of_map_to_list.
    + apply strip_prefix_spec. by rewrite append_assoc.
Qed.

(** ** Names are unique *)

Lemma NumberedFile_name dir n suffix name :
  NumberedFile dir n suffix = (dir ++ "/" ++ name)%string -> name = base_name n suffix.
Proof. unfold NumberedFile. intros H%(inj _). by apply (inj (String.append "/")) in H. Qed.

Lemma NumberedFile_other dir n kind name :
  0 <= n < 2 ^ 64 -> good_kind kind -> ParseFileName name = None ->
  NumberedFile dir n ("." ++ kind) <> (dir ++ "/" ++ name)%string.
Proof. intros Hn Hk Hp ->%NumberedFile_name. by rewrite parse_base_name in Hp. Qed.

Lemma NumberedFile_inj dir n kind m kind' :
  0 <= n < 2 ^ 64 -> 0 <= m < 2 ^ 64 -> good_kind kind -> good_kind kind' ->
  NumberedFile dir n ("." ++ kind) = NumberedFile dir m ("." ++ kind') -> n = m /\ kind = kind'.
Proof.
  intros Hn Hm Hk Hk' H%NumberedFile_name. pose proof (parse_base_name n kind Hn Hk) as H1. rewrite <- H in H1.
  rewrite parse_base_name in H1 by done. by injection H1 as -> ->.
Qed.

(** File names are decodable: the name printed for any 64-bit number and
    either kind of file parses back to that number and kind, so two files have
    the same path only if they are the same file; and the manifest is never
    taken for one of them. *)
Theorem file_names_roundtrip dir n kind m kind' :
  0 <= n < 2 ^ 64 -> 0 <= m < 2 ^ 64 -> good_kind kind -> good_kind kind' ->
  ParseFileName (base_name n ("." ++ kind)) = Some (n, kind) /\
  (NumberedFile dir n ("." ++ kind) = NumberedFile dir m ("." ++ kind') -> n = m /\ kind = kind') /\
  NumberedFile dir n ("." ++ kind) <> (dir ++ "/MANIFEST")%string.
Proof.
  intros Hn Hm Hk Hk'. split_and!; [by apply parse_base_name|by apply NumberedFile_inj|].
  by apply (NumberedFile_other dir n kind "MANIFEST").
Qed.

Lemma file_names_roundtrip_witness :
  NumberedFile "db" 12 ".sst" = "db/000012.sst"%string /\ ParseFileName "000012.sst" = Some (12, "sst"%string).
Proof.
  split; [vm_compute; reflexivity|].
  apply (file_names_roundtrip "db" 12 "sst" 13 "log"); [lia|lia|exact good_sst|exact good_log].
Defined.

Example parse_rejects :
  map ParseFileName ["MANIFEST"; "MANIFEST.tmp"; ".log"; "12a.log"; "7.log"; "99999999999999999999.sst"; "."]%string =
  [None; None; None; None; Some (7, "log"%string); Some (2 ^ 64 - 1, "sst"%string); None].
Proof. vm_compute. reflexivity. Qed.
