(* ===== verification/Manifest.v ===== *)
(** * The manifest (src/db.cpp: [WriteManifest], [LoadManifest])

    The manifest lists the live files of every level with the counters of the
    database, under a checksum. It is replaced by writing a temporary file and
    renaming it. Loading opens every table it names. A manifest that was written
    is shown to load as the version it describes, and a replacement to leave the
    old manifest or the new one whatever the system calls do. *)

From stdpp Require Import gmap strings.
From S2P Require Import Prelude Coding InternalKey Crc32c Posix Versions Bloom Cache Block Options Sstable Table Levels FileNames.

Definition kManifestMagic : Z := 0x54534546494e414d.

Definition TablePath (dir : string) (number : Z) : string := NumberedFile dir number ".sst".
Definition LogPath (dir : string) (number : Z) : string := NumberedFile dir number ".log".
Definition ManifestPath (dir : string) : string := (dir ++ "/MANIFEST")%string.
Definition TmpPath (dir : string) : string := (ManifestPath dir ++ ".tmp")%string.

(** The branch without [F_FULLFSYNC]. *)
Definition SyncFd (what : string) (w : World) : Status * World := sys_simple ("fsync " ++ what) w.

Definition SyncDirectory (path : string) (w : World) : Status * World :=
  let '(s, w) := sys_simple ("open dir " ++ path) w in
  if negb (Status.ok s) then (s, w) else SyncFd ("dir " ++ path) w.

(** ** Writing *)

Definition put_file (level : nat) (body : bytes) (f : FileMetaData) : bytes :=
  let body := PutFixed32 body (u32 (Z.of_nat level)) in
  let body := PutFixed64 body (number f) in
  let body := PutFixed64 body (file_size f) in
  PutLengthPrefixed (PutLengthPrefixed body (smallest f)) (largest f).

(** The loop over the levels, from [level] on. *)
Fixpoint put_levels (level : nat) (ls : list (list FileMetaData)) (body : bytes) : bytes :=
  match ls with
  | [] => body
  | files :: ls => put_levels (S level) ls (fold_left (put_file level) files body)
  end.

Definition num_files (v : Version) : Z := fold_left (fun n l => u32 (n + size l)) (levels v) 0.

Definition manifest_body (v : Version) (log_number next_file_number last_sequence : Z) : bytes :=
  let body := PutFixed64 (PutFixed64 (PutFixed64 (PutFixed64 [] kManifestMagic) next_file_number) last_sequence) log_number in
  put_levels 0 (levels v) (PutFixed32 body (num_files v)).

Definition manifest_bytes (v : Version) (log_number next_file_number last_sequence : Z) : bytes :=
  let body := manifest_body v log_number next_file_number last_sequence in PutFixed32 body (Value body).

Definition WriteManifest (dir : string) (v : Version) (log_number next_file_number last_sequence : Z) (w : World)
  : Status * World :=
  let body := manifest_bytes v log_number next_file_number last_sequence in
  let tmp := TmpPath dir in
  let '(s, w) := sys_simple ("open " ++ tmp) w in
  if negb (Status.ok s) then (s, w)
  else
    let w := with_files (<[tmp := []]> (w_files w)) w in
    let '(s, w) := WriteAll "write manifest" tmp body w in
    if negb (Status.ok s) then (s, w)
    else
      let '(s, w) := SyncFd "manifest" w in
      if negb (Status.ok s) then (s, w)
      else
        let '(s, w) := sys_rename "rename manifest" tmp (ManifestPath dir) w in
        if negb (Status.ok s) then (s, w) else SyncDirectory dir w.

(** ** Loading *)

(** What the manifest decides: the members it sets and [*log_number]. *)
Record Manifest := mkManifest {
  m_version : Version;
  m_next_file_number : Z;
  m_last_sequence : Z;
  m_log_number : Z
}.

(** Of a database that has no manifest yet. *)
Definition new_Manifest : Manifest := mkManifest new_Version 1 0 0.

Definition push_file (v : Version) (level : nat) (f : FileMetaData) : Version :=
  mkVersion (alter (fun files => files ++ [f]) level (levels v)).

Section Load.
Context (dir : string) (options : Options).

Fixpoint load_files (count : nat) (rest : bytes) (v : Version) (e : Env) : option (Status * Version * Env) :=
  match count with
  | O => Some (Status.OK, v, e)
  | S count =>
      if size rest <? 20 then Some (Status.Corruption "truncated manifest entry", v, e)
      else
        let level := DecodeFixed32 rest in
        let number := DecodeFixed64 (drop 4 rest) in
        let file_size := DecodeFixed64 (drop 12 rest) in
        match GetLengthPrefixed (drop 20 rest) with
        | None => Some (Status.Corruption "truncated manifest key", v, e)
        | Some (smallest, rest) =>
            match GetLengthPrefixed rest with
            | None => Some (Status.Corruption "truncated manifest key", v, e)
            | Some (largest, rest) =>
                if Z.of_nat kNumLevels <=? level then Some (Status.Corruption "manifest level out of range", v, e)
                else
                  '(s, t, e) ← Table_Open (TablePath dir number) options number e;
                  match t with
                  | None => Some (s, v, e)
                  | Some t =>
                      load_files count rest
                        (push_file v (Z.to_nat level) (mkFileMetaData number file_size smallest largest t)) e
                  end
            end
        end
  end.

(** Level 0 newest first, the others by their smallest key. *)
Definition sort_levels (v : Version) : Version :=
  match levels v with
  | [] => v
  | l0 :: ls =>
      mkVersion (sort_by (fun a b => number b <? number a) l0 ::
        map (sort_by (fun a b => CompareInternalKey (smallest a) (smallest b) <? 0)) ls)
  end.

(** After the file has been read. A file of 36 to 39 bytes passes the first
    check; removing the 36 bytes of header from what precedes its checksum is
    then undefined. *)
Definition parse_manifest (body : bytes) (e : Env) : option (Status * option Manifest * Env) :=
  if size body <? 36 then Some (Status.Corruption "manifest too short", None, e)
  else
    let body_len := Z.to_nat (size body - 4) in
    let rest := take body_len body in
    if negb (Value rest =? DecodeFixed32 (drop body_len body)) then
      Some (Status.Corruption "manifest checksum mismatch", None, e)
    else if negb (DecodeFixed64 body =? kManifestMagic) then Some (Status.Corruption "bad manifest magic", None, e)
    else if size rest <? 36 then None
    else
      '(s, v, e) ← load_files (Z.to_nat (DecodeFixed32 (drop 32 body))) (drop 36 rest) new_Version e;
      if negb (Status.ok s) then Some (s, None, e)
      else
        Some (Status.OK,
          Some (mkManifest (sort_levels v) (DecodeFixed64 (drop 8 body)) (DecodeFixed64 (drop 16 body))
            (DecodeFixed64 (drop 24 body))), e).

Definition LoadManifest (e : Env) : option (Status * option Manifest * Env) :=
  let '(s, w) := sys_simple "open manifest" (e_world e) in
  let e := mkEnv w (e_cache e) (e_stats e) in
  if negb (Status.ok s) then Some (s, None, e)
  else
    match w_files w !! ManifestPath dir with
    | None => Some (Status.OK, Some new_Manifest, e)
    | Some _ =>
        let '(s, body, w) := ReadAll (ManifestPath dir) "read manifest" w in
        let e := mkEnv w (e_cache e) (e_stats e) in
        if negb (Status.ok s) then Some (s, None, e) else parse_manifest body e
    end.

End Load.

(** ** What is written *)

(** The files of a version with their levels, in the order they are written. *)
Fixpoint tagged (level : nat) (ls : list (list FileMetaData)) : list (nat * FileMetaData) :=
  match ls with
  | [] => []
  | files :: ls => map (pair level) files ++ tagged (S level) ls
  end.

Definition file_bytes (x : nat * FileMetaData) : bytes := put_file x.1 [] x.2.

Lemma put_file_app level body f : put_file level body f = body ++ file_bytes (level, f).
Proof.
  unfold file_bytes, put_file, PutFixed32, PutFixed64. cbn [fst snd]. rewrite !PutLengthPrefixed_eq. by rewrite <- !app_assoc.
Qed.

Lemma put_levels_eq ls : forall level body,
  put_levels level ls body = body ++ concat (map file_bytes (tagged level ls)).
Proof.
  induction ls as [|files ls IH]; intros level body; simpl; [by rewrite app_nil_r|].
  rewrite IH, map_app, concat_app, app_assoc. f_equal. rewrite map_map. clear IH. revert body.
  induction files as [|f files IH]; intros body; simpl; [by rewrite app_nil_r|].
  by rewrite put_file_app, IH, <- app_assoc.
Qed.

Lemma size_tagged ls : forall level, size (tagged level ls) = size (concat ls).
Proof.
  induction ls as [|files ls IH]; intros level; simpl; [done|]. rewrite !size_app, IH. unfold size at 1. by rewrite length_map.
Qed.

Lemma tagged_Forall (P : FileMetaData -> Prop) ls : Forall P (concat ls) -> forall level,
  Forall (fun x => (level <= x.1 < level + length ls)%nat /\ P x.2) (tagged level ls).
Proof.
  induction ls as [|files ls IH]; intros Hp level; simpl; [constructor|].
  simpl in Hp. apply Forall_app in Hp as [Hf Hls]. apply Forall_app. split.
  - apply Forall_map. eapply Forall_impl; [exact Hf|]. intros f Hfp. simpl. split; [lia|done].
  - eapply Forall_impl; [by apply IH|]. intros x [? ?]. split; [lia|done].
Qed.

Lemma num_files_eq v : size (concat (levels v)) < 2 ^ 32 -> num_files v = size (concat (levels v)).
Proof.
  unfold num_files. enough (forall ls n, 0 <= n -> n + size (concat ls) < 2 ^ 32 ->
    fold_left (fun n l => u32 (n + size l)) ls n = n + size (@concat FileMetaData ls)) as H by (intros; by rewrite H).
  induction ls as [|l ls IH]; intros n Hn Hs; simpl in *; [change (size (@nil FileMetaData)) with 0; lia|].
  rewrite size_app in *. pose proof (size_nonneg l). pose proof (size_nonneg (concat ls)).
  rewrite u32_id by lia. rewrite IH; lia.
Qed.

(** ** Loading what was written *)

Section Roundtrip.
Context (dir : string) (options : Options) (fs : gmap string bytes).

(** The file is on disk, and its open table is what opening it gives. *)
Record stored (f : FileMetaData) : Prop := {
  sd_number : 0 <= number f < 2 ^ 64;
  sd_size : 0 <= file_size f < 2 ^ 64;
  sd_smallest : size (smallest f) < 2 ^ 32;
  sd_largest : size (largest f) < 2 ^ 32;
  sd_table : exists bs bloom, table_file bs bloom /\
    fs !! TablePath dir (number f) = Some (table_bytes bs bloom) /\
    table f = opened (TablePath dir (number f)) options (number f) bs bloom
}.

(** The order loading restores. *)
Definition in_order (v : Version) : Prop :=
  StronglySorted (fun a b => number b < number a) (level_files v 0) /\
  Forall (StronglySorted (fun a b => smallest a ≺ smallest b)) (tail (levels v)).

Record describable (v : Version) : Prop := {
  de_levels : length (levels v) = kNumLevels;
  de_stored : Forall stored (concat (levels v));
  de_count : size (concat (levels v)) < 2 ^ 32;
  de_order : in_order v
}.

Lemma size_file_bytes x : 36 <= size (file_bytes x) + 8.
Proof.
  unfold file_bytes, put_file, PutFixed32, PutFixed64. rewrite !PutLengthPrefixed_eq. autorewrite with lsm.
  pose proof (size_nonneg (smallest x.2)). pose proof (size_nonneg (largest x.2)). lia.
Qed.

Lemma load_one level f count rest v e :
  (level < kNumLevels)%nat -> stored f -> w_files (e_world e) = fs ->
  exists s e', only_reads e e' /\ (w_oracle (e_world e) = [] -> s = Status.OK) /\ (Status.ok s = true -> s = Status.OK) /\
    load_files dir options (S count) (file_bytes (level, f) ++ rest) v e =
    if Status.ok s then load_files dir options count rest (push_file v level f) e' else Some (s, v, e').
Proof.
  intros Hl [Hn Hs Hsm Hla (bs & bloom & Htf & Hfile & Ht)] He. cbn [load_files].
  pose proof (size_file_bytes (level, f)) as Hsz. pose proof (size_nonneg rest).
  rewrite size_app. zcase. unfold file_bytes, put_file, PutFixed32, PutFixed64. cbn [fst snd app].
  rewrite (PutLengthPrefixed_app _ (largest f)), (PutLengthPrefixed_app _ (smallest f)), <- !app_assoc.
  rewrite (u32_id (Z.of_nat level)) by (unfold kNumLevels in Hl; lia).
  assert (forall n (a b : bytes), length a = n -> drop n (a ++ b) = b) as Hdrop
    by (intros n a b <-; apply drop_app_length).
  change 20%nat with (4 + (8 + 8))%nat. change 12%nat with (4 + 8)%nat.
  rewrite <- !drop_drop. rewrite !(Hdrop 4%nat), !(Hdrop 8%nat) by (by rewrite length_le_split).
  rewrite DecodeFixed32_split, !DecodeFixed64_split.
  rewrite (u32_id (Z.of_nat level)), !u64_id by (unfold kNumLevels in Hl; lia).
  rewrite !GetLengthPrefixed_Put by done.
  destruct (Z.leb_spec (Z.of_nat kNumLevels) (Z.of_nat level)); [lia|]. rewrite <- He in Hfile.
  destruct (Table_Open_any (TablePath dir (number f)) options (number f) bs bloom e Hfile Htf)
    as (s & t & e' & -> & He' & Ho & Ht'). cbn [mbind option_bind].
  exists s, e'. split_and!; [done|done|by destruct (Status.ok s); [intros _; apply Ht'|]|].
  destruct (Status.ok s) eqn:Es; [destruct Ht' as [-> ->]|by subst].
  cbn. f_equal. rewrite Nat2Z.id. f_equal. rewrite <- Ht. by destruct f.
Qed.

Lemma load_all xs : forall v e,
  Forall (fun x => (x.1 < kNumLevels)%nat /\ stored x.2) xs -> w_files (e_world e) = fs ->
  exists s v' e', only_reads e e' /\ (w_oracle (e_world e) = [] -> s = Status.OK) /\
    load_files dir options (length xs) (concat (map file_bytes xs)) v e = Some (s, v', e') /\
    (Status.ok s = true -> s = Status.OK /\ v' = fold_left (fun v x => push_file v x.1 x.2) xs v).
Proof.
  induction xs as [|[level f] xs IH]; intros v e Hx He; [by exists Status.OK, v, e|]. apply Forall_cons in Hx as [[Hl Hf] Hx].
  simpl map. simpl concat. simpl length.
  destruct (load_one level f (length xs) (concat (map file_bytes xs)) v e Hl Hf He) as (s1 & e1 & R1 & O1 & K1 & ->).
  destruct (Status.ok s1) eqn:Hs1; [|exists s1, v, e1; split_and!; [done|done|done|by rewrite Hs1]].
  destruct (IH (push_file v level f) e1 Hx) as (s2 & v2 & e2 & R2 & O2 & -> & K2); [by rewrite (or_files _ _ R1)|].
  exists s2, v2, e2. split_and!; [by etrans|intros Ho; by apply O2, R1|done|done].
Qed.

Lemma push_tagged ls : forall pre,
  fold_left (fun v x => push_file v x.1 x.2) (tagged (length pre) ls) (mkVersion (pre ++ replicate (length ls) [])) =
  mkVersion (pre ++ ls).
Proof.
  induction ls as [|files ls IH]; intros pre; simpl; [done|]. rewrite fold_left_app.
  enough (forall acc, fold_left (fun v x => push_file v x.1 x.2) (map (pair (length pre)) files)
    (mkVersion (pre ++ acc :: replicate (length ls) [])) = mkVersion (pre ++ (acc ++ files) :: replicate (length ls) [])) as H.
  { rewrite H. simpl. specialize (IH (pre ++ [files])). rewrite length_app in IH. simpl in IH.
    replace (length pre + 1)%nat with (S (length pre)) in IH by lia. by rewrite <- !app_assoc in IH. }
  induction files as [|f files IHf]; intros acc; simpl; [by rewrite app_nil_r|].
  unfold push_file at 2. simpl. rewrite alter_app_r_alt, Nat.sub_diag by done. simpl.
  by rewrite IHf, <- app_assoc.
Qed.

Lemma sort_levels_id v : in_order v -> sort_levels v = v.
Proof.
  intros [H0 Hd]. unfold sort_levels, level_files in *. destruct v as [[|l0 ls]]; simpl in *; [done|]. do 2 f_equal.
  - apply sort_by_id. clear Hd. induction H0 as [|a l _ IH Ha]; constructor; [done|].
    eapply Forall_impl; [exact Ha|]. intros b Hb. simpl in *. lia.
  - rewrite <- (map_id ls) at 2. apply map_ext_Forall. eapply Forall_impl; [exact Hd|]. clear. intros l Hl.
    apply sort_by_id. induction Hl as [|a l _ IH Ha]; constructor; [done|].
    eapply Forall_impl; [exact Ha|]. intros b Hb. simpl in *. rewrite CompareInternalKey_antisym. lia.
Qed.

Lemma parse_manifest_spec v log next seq e :
  describable v -> w_files (e_world e) = fs -> 0 <= log < 2 ^ 64 -> 0 <= next < 2 ^ 64 -> 0 <= seq < 2 ^ 64 ->
  exists s m e', only_reads e e' /\ (w_oracle (e_world e) = [] -> s = Status.OK) /\
    parse_manifest dir options (manifest_bytes v log next seq) e = Some (s, m, e') /\
    (Status.ok s = true -> s = Status.OK /\ m = Some (mkManifest v next seq log)).
Proof.
  intros [Hlen Hst Hc Hord] He Hlog Hnext Hseq. unfold parse_manifest, manifest_bytes.
  set (body := manifest_body v log next seq).
  assert (exists hdr, body = hdr ++ concat (map file_bytes (tagged 0 (levels v))) /\
    hdr = le_split 8 kManifestMagic ++ le_split 8 next ++ le_split 8 seq ++ le_split 8 log ++ le_split 4 (num_files v))
    as (hdr & Hbody & Hhdr).
  { eexists. split; [|done]. unfold body, manifest_body. rewrite put_levels_eq. f_equal. }
  assert (size hdr = 36) as Hsh by (rewrite Hhdr; by autorewrite with lsm).
  assert (size body = 36 + size (concat (map file_bytes (tagged 0 (levels v))))) as Hsb by (rewrite Hbody, size_app; lia).
  pose proof (size_nonneg (concat (map file_bytes (tagged 0 (levels v))))).
  unfold PutFixed32. rewrite (size_app body), size_le_split4. zcase.
  replace (size body + 4 - 4) with (size body) by lia.
  rewrite take_size, drop_size by done. rewrite <- (app_nil_r (le_split 4 _)), DecodeFixed32_split, u32_id, Z.eqb_refl by apply Value_range.
  rewrite app_nil_r. cbn [negb].
  assert (forall n (a b : bytes), length a = n -> drop n (a ++ b) = b) as Hdrop
    by (intros n a b <-; apply drop_app_length).
  assert (drop 36 body = concat (map file_bytes (tagged 0 (levels v)))) as ->.
  { rewrite Hbody. apply Hdrop. unfold size in Hsh. lia. }
  destruct (Z.ltb_spec (size body) 36); [lia|]. set (crc := le_split 4 (Value body)). rewrite Hbody, Hhdr, <- !app_assoc.
  change 32%nat with (8 + (8 + (8 + 8)))%nat. change 24%nat with (8 + (8 + 8))%nat. change 16%nat with (8 + 8)%nat.
  rewrite <- !drop_drop, !(Hdrop 8%nat) by (by rewrite length_le_split).
  rewrite !DecodeFixed64_split, DecodeFixed32_split, !u64_id by (done || unfold kManifestMagic; lia).
  rewrite Z.eqb_refl. cbn [negb]. rewrite num_files_eq, u32_id by (done || (pose proof (size_nonneg (concat (levels v))); lia)).
  assert (Z.to_nat (size (concat (levels v))) = length (tagged 0 (levels v))) as ->.
  { rewrite <- (size_tagged _ 0). unfold size. lia. }
  destruct (load_all (tagged 0 (levels v)) new_Version e) as (s & v' & e' & R & O & -> & K); [|done|].
  { eapply Forall_impl; [by apply tagged_Forall|]. intros x [? ?]. split; [lia|done]. }
  cbn [mbind option_bind]. destruct (Status.ok s) eqn:Hs; cbn [negb]; [|exists s, None, e'; by rewrite Hs].
  destruct (K eq_refl) as [-> ->]. do 3 eexists. split_and!; [exact R|done|done|]. intros _. split; [done|]. do 2 f_equal.
  pose proof (push_tagged (levels v) []) as Hp. rewrite Hlen in Hp.
  change (mkVersion ([] ++ replicate kNumLevels [])) with new_Version in Hp. cbn [length app] in Hp. rewrite Hp.
  destruct v. f_equal. by apply sort_levels_id.
Qed.

End Roundtrip.

(** ** Replacing the manifest *)

Lemma TmpPath_ne dir : TmpPath dir <> ManifestPath dir.
Proof.
  unfold TmpPath, ManifestPath. intros H. apply (f_equal String.length) in H. revert H.
  assert (forall a b, String.length (a ++ b) = (String.length a + String.length b)%nat) as L.
  { intros a b. induction a as [|c a IH]; [done|]. change (String.length (String c a ++ b)) with (S (String.length (a ++ b))).
    rewrite IH. done. }
  rewrite !L. simpl. lia.
Qed.

(** Only the manifest and its temporary file are touched; whatever fails, the
    manifest is the old one or the new one. *)
Record replaced (dir : string) (body : bytes) (w w' : World) : Prop := {
  rp_frame : forall p, p <> TmpPath dir -> p <> ManifestPath dir -> w_files w' !! p = w_files w !! p;
  rp_atomic : w_files w' !! ManifestPath dir = w_files w !! ManifestPath dir \/
              w_files w' !! ManifestPath dir = Some body;
  rp_oracle : w_oracle w = [] -> w_oracle w' = []
}.

Lemma touches_replaced dir body w w' : touches (TmpPath dir) w w' -> replaced dir body w w'.
Proof.
  intros [Hf Ho]. split; [by intros p Hp _; apply Hf| |done]. left. apply Hf. intros H. by apply (TmpPath_ne dir).
Qed.

Lemma SyncDirectory_spec path w s w' :
  SyncDirectory path w = (s, w') ->
  w_files w' = w_files w /\ (w_oracle w = [] -> s = Status.OK) /\ (w_oracle w = [] -> w_oracle w' = []).
Proof.
  unfold SyncDirectory, SyncFd. destruct (sys_simple _ w) as [s1 w1] eqn:E1.
  destruct (sys_simple_spec _ path _ _ _ E1) as ([_ T1] & F1 & O1).
  destruct (Status.ok s1) eqn:Hs1; cbn [negb]; [|by intros [= <- <-]]. intros E2.
  destruct (sys_simple_spec _ path _ _ _ E2) as ([_ T2] & F2 & O2). split_and!; [congruence|auto|auto].
Qed.

Lemma WriteManifest_spec dir v log next seq w s w' :
  WriteManifest dir v log next seq w = (s, w') ->
  let body := manifest_bytes v log next seq in
  replaced dir body w w' /\ (w_oracle w = [] -> s = Status.OK) /\
  (Status.ok s = true -> w_files w' !! ManifestPath dir = Some body).
Proof.
  intros E body. revert E. unfold WriteManifest. fold body. set (tmp := TmpPath dir).
  destruct (sys_simple _ w) as [s1 w1] eqn:E1. destruct (sys_simple_spec _ tmp _ _ _ E1) as (T1 & F1 & O1).
  destruct (Status.ok s1) eqn:Hs1; cbn [negb];
    [|intros [= <- <-]; split_and!; [by apply touches_replaced|done|congruence]].
  set (w1' := with_files _ w1). assert (touches tmp w w1') as T1'.
  { etrans; [exact T1|]. split; [|done]. intros p Hp. simpl. by apply lookup_insert_ne. }
  destruct (WriteAll _ tmp body w1') as [s2 w2] eqn:E2. destruct (WriteAll_spec _ _ _ _ _ _ E2) as (T2 & O2 & F2).
  assert (touches tmp w w2) as T2' by (by etrans). pose proof T1' as [_ Ho1]. pose proof T2' as [_ Ho2].
  destruct (Status.ok s2) eqn:Hs2; cbn [negb];
    [|intros [= <- <-]; split_and!; [by apply touches_replaced|auto|congruence]].
  unfold SyncFd. destruct (sys_simple _ w2) as [s3 w3] eqn:E3. destruct (sys_simple_spec _ tmp _ _ _ E3) as (T3 & F3 & O3).
  assert (touches tmp w w3) as T3' by (by etrans). pose proof T3' as [_ Ho3].
  destruct (Status.ok s3) eqn:Hs3; cbn [negb];
    [|intros [= <- <-]; split_and!; [by apply touches_replaced|auto|congruence]].
  unfold sys_rename. destruct (sys_simple "rename manifest" w3) as [s4 w4] eqn:E4.
  destruct (sys_simple_spec _ tmp _ _ _ E4) as (T4 & F4 & O4).
  assert (touches tmp w w4) as T4' by (by etrans). pose proof T4' as [_ Ho4].
  destruct (Status.ok s4) eqn:Hs4; cbn [negb];
    [|intros [= <- <-]; split_and!; [by apply touches_replaced|auto|congruence]].
  intros E5. destruct (SyncDirectory_spec _ _ _ _ E5) as (F5 & O5 & Ho5).
  assert (w_files w' !! ManifestPath dir = Some body) as Hnew.
  { rewrite F5. simpl. rewrite lookup_insert_eq. f_equal. apply contents_Some. rewrite F4, F3, F2 by done.
    f_equal. unfold contents, w1'. simpl. rewrite lookup_insert_eq. done. }
  split_and!; [split| |done]; [|by right|auto..].
  intros p Hp1 Hp2. rewrite F5. simpl. rewrite lookup_insert_ne, lookup_delete_ne by done. by apply T4'.
Qed.

(** ** A new file *)

Definition meta_of (n : Z) (b : TableBuilder) (t : Table) : FileMetaData :=
  mkFileMetaData n (file_size_ b) (smallest_key_ b) (largest_key_ b) t.

(** What the builder of a flush or a compaction leaves behind. *)
Lemma built_file dir o truth n b w es bs :
  finished o (TablePath dir n) b w es bs -> writable o es -> sorted es -> entries_typed es -> es <> [] ->
  0 <= n < 2 ^ 64 -> truth_of truth n bs ->
  let bloom := Build (map user_key es) (bloom_bits_per_key o) in
  let f := meta_of n b (opened (TablePath dir n) o n bs bloom) in
  table_file bs bloom /\ stored dir o (w_files w) f /\ file_ok truth f es.
Proof.
  intros F Hwr Hs Ht Hne Hn Htr bloom f. pose proof (finished_table_file _ _ _ _ _ _ F Hwr Hs) as Htf.
  pose proof (tf_size _ _ Htf) as Hsz. fold bloom in Htf, Hsz.
  assert (forall e, e ∈ es -> size e.1 < 2 ^ 32) as Hkey.
  { intros e He. pose proof (wr_block _ _ Hwr) as Hb. rewrite Forall_forall in Hb. specialize (Hb e He).
    pose proof (wr_block_pos _ _ Hwr). pose proof (size_nonneg e.2). unfold weight in Hb. lia. }
  assert (exists a, head es = Some a /\ a ∈ es) as (a & Ha & Hina) by (destruct es as [|a es]; [done|exists a; set_solver]).
  assert (exists z, last es = Some z /\ z ∈ es) as (z & Hz & Hinz).
  { destruct (last es) as [z|] eqn:Ez; [|by apply last_None in Ez]. exists z. split; [done|by apply last_Some_elem_of]. }
  pose proof (fin_smallest _ _ _ _ _ _ F) as Hsm. pose proof (fin_largest _ _ _ _ _ _ F) as Hla.
  pose proof (fin_size _ _ _ _ _ _ F) as Hfs. fold bloom in Hfs. rewrite Ha in Hsm. rewrite Hz in Hla. simpl in Hsm, Hla.
  split_and!; [done|split|split]; unfold f; simpl; try done.
  - rewrite Hfs. pose proof (size_nonneg (table_bytes bs bloom)). lia.
  - rewrite Hsm. by apply Hkey.
  - rewrite Hla. by apply Hkey.
  - exists bs, bloom. split_and!; [done|apply F|done].
  - exists bs. split; [by apply opened_ok|apply F].
  - by rewrite Ha, Hsm.
  - by rewrite Hz, Hla.
Qed.

(** ** Files and their paths *)

Lemma TablePath_ne dir n : 0 <= n < 2 ^ 64 -> TablePath dir n <> ManifestPath dir /\ TablePath dir n <> TmpPath dir.
Proof.
  intros Hn. split; [by apply (NumberedFile_other dir n "sst" "MANIFEST"); [|apply good_sst|]|].
  unfold TmpPath, ManifestPath. rewrite append_assoc. by apply (NumberedFile_other dir n "sst" "MANIFEST.tmp"); [|apply good_sst|].
Qed.

Lemma TablePath_inj dir n m : 0 <= n < 2 ^ 64 -> 0 <= m < 2 ^ 64 -> TablePath dir n = TablePath dir m -> n = m.
Proof. intros Hn Hm H. by apply (NumberedFile_inj dir n "sst" m "sst") in H as [? _]; [..|apply good_sst|apply good_sst]. Qed.

(** A file stays stored as long as its path is left alone. *)
Lemma stored_frame dir o fs fs' f :
  stored dir o fs f -> fs' !! TablePath dir (number f) = fs !! TablePath dir (number f) -> stored dir o fs' f.
Proof. intros [H1 H2 H3 H4 (bs & bloom & H5 & H6 & H7)] Heq. split; try done. exists bs, bloom. by rewrite Heq. Qed.

Lemma describable_frame dir o fs fs' v :
  describable dir o fs v ->
  (forall f, f ∈ concat (levels v) -> fs' !! TablePath dir (number f) = fs !! TablePath dir (number f)) ->
  describable dir o fs' v.
Proof.
  intros [H1 H2 H3 H4] Heq. split; try done. apply Forall_forall. intros f Hf.
  eapply stored_frame; [|by apply Heq]. rewrite Forall_forall in H2. by apply H2.
Qed.

Lemma describable_replaced dir o body w w' v :
  replaced dir body w w' -> describable dir o (w_files w) v -> describable dir o (w_files w') v.
Proof.
  intros Hr Hd. eapply describable_frame; [exact Hd|]. intros f Hf.
  assert (0 <= number f < 2 ^ 64) as Hn by (pose proof (de_stored _ _ _ _ Hd) as H; rewrite Forall_forall in H; by apply H).
  apply (rp_frame _ _ _ _ Hr); by apply TablePath_ne.
Qed.

(** Whatever the system calls do, loading only reads, and the manifest it
    reports is the one on disk. *)
Lemma LoadManifest_any dir o e v log next seq :
  w_files (e_world e) !! ManifestPath dir = Some (manifest_bytes v log next seq) ->
  describable dir o (w_files (e_world e)) v -> 0 <= log < 2 ^ 64 -> 0 <= next < 2 ^ 64 -> 0 <= seq < 2 ^ 64 ->
  exists s m e', LoadManifest dir o e = Some (s, m, e') /\ only_reads e e' /\ (w_oracle (e_world e) = [] -> s = Status.OK) /\
    (Status.ok s = true -> s = Status.OK /\ m = Some (mkManifest v next seq log)).
Proof.
  intros Hf Hd Hlog Hnext Hseq. unfold LoadManifest.
  destruct (sys_simple "open manifest" (e_world e)) as [s0 w0] eqn:E0. destruct (sys_simple_env _ _ _ _ E0) as [R0 O0].
  destruct (Status.ok s0) eqn:Hs0; cbn [negb]; [|do 3 eexists; split_and!; [done|done|done|by rewrite Hs0]].
  pose proof (or_files _ _ R0) as F0. cbn [e_world] in F0. rewrite F0, Hf.
  destruct (ReadAll _ _ w0) as [[s1 buf] w1] eqn:E1. destruct (ReadAll_ok _ _ _ _ _ _ E1) as (F1 & O1 & K1).
  assert (only_reads e (mkEnv w1 (e_cache e) (e_stats e))) as R1.
  { split; simpl; [congruence|done|]. intros Ho. apply O1, R0, Ho. }
  assert (w_oracle (e_world e) = [] -> s1 = Status.OK) as O01 by (intros Ho; apply O1, R0, Ho).
  destruct (Status.ok s1) eqn:Hs1; cbn [negb]; [|do 3 eexists; split_and!; [done|done|done|by rewrite Hs1]].
  destruct (K1 eq_refl) as [_ ->]. rewrite <- F0 in Hf. rewrite (contents_Some _ _ _ Hf). cbn [e_cache e_stats].
  destruct (parse_manifest_spec dir o (w_files (e_world e)) v log next seq (mkEnv w1 (e_cache e) (e_stats e)) Hd)
    as (s & m & e' & R & O & -> & K); [by rewrite (or_files _ _ R1)|done..|].
  do 3 eexists. split_and!; [done|by etrans|intros Ho; by apply O, R1|done].
Qed.

(** A manifest that cannot be loaded gives nothing. *)
Lemma LoadManifest_failed dir o e s m e' : LoadManifest dir o e = Some (s, m, e') -> Status.ok s = false -> m = None.
Proof.
  unfold LoadManifest, parse_manifest. intros H Hs. repeat (case_match; simplify_option_eq; try done).
Qed.

(** C15: Committing a version is atomic. Whatever the system calls do, replacing
    the manifest touches no file but the manifest and its temporary copy, the
    manifest afterwards is the old one or the new one, and it is the new one if
    the replacement succeeds; it succeeds when no call fails. *)
Theorem manifest_commit_atomic dir v log next seq w :
  let '(s, w') := WriteManifest dir v log next seq w in
  (forall p, p <> TmpPath dir -> p <> ManifestPath dir -> w_files w' !! p = w_files w !! p) /\
  (w_files w' !! ManifestPath dir = w_files w !! ManifestPath dir \/
   w_files w' !! ManifestPath dir = Some (manifest_bytes v log next seq)) /\
  (Status.ok s = true -> w_files w' !! ManifestPath dir = Some (manifest_bytes v log next seq)) /\
  (w_oracle w = [] -> s = Status.OK).
Proof.
  destruct (WriteManifest dir v log next seq w) as [s w'] eqn:E.
  destruct (WriteManifest_spec _ _ _ _ _ _ _ _ E) as ([] & ? & ?). done.
Qed.

(** C16: A database finds its files again. For every version whose files are on
    disk, in any calm environment: writing the manifest and loading it gives
    back the version (every level in the order lookups rely on, every table
    reopened with its index and filter), the counters and the log number. *)
Theorem manifest_roundtrip dir o v log next seq w c st :
  w_oracle w = [] -> match c with Some c => cache_inv c | None => True end ->
  describable dir o (w_files w) v -> 0 <= log < 2 ^ 64 -> 0 <= next < 2 ^ 64 -> 0 <= seq < 2 ^ 64 ->
  let '(s, w') := WriteManifest dir v log next seq w in
  s = Status.OK /\
  exists e, LoadManifest dir o (mkEnv w' c st) = Some (Status.OK, Some (mkManifest v next seq log), e).
Proof.
  intros Ho Hc Hd Hlog Hnext Hseq. destruct (WriteManifest dir v log next seq w) as [s w'] eqn:E.
  destruct (WriteManifest_spec _ _ _ _ _ _ _ _ E) as (Hr & Hok & Hnew). rewrite (Hok Ho) in *. split; [done|].
  destruct (LoadManifest_any dir o (mkEnv w' c st) v log next seq) as (s' & m & e' & HL & _ & Hs & Hm);
    [by apply Hnew|by eapply describable_replaced|done..|].
  rewrite (Hs ltac:(by apply Hr)) in *. destruct (Hm eq_refl) as [_ ->]. by exists e'.
Qed.

(** A version with one file on disk. *)
Lemma one_file_version dir o n es w :
  writable o es -> sorted es -> entries_typed es -> es <> [] -> 0 <= n < 2 ^ 64 -> w_oracle w = [] ->
  exists v w', w_oracle w' = [] /\ NumFiles v = 1 /\ describable dir o (w_files w') v.
Proof.
  intros Hwr Hs Ht Hne Hn Ho. destruct (write_table (TablePath dir n) o es w) as [[s b] w'] eqn:E.
  destruct (write_table_spec _ _ _ _ _ _ _ Hwr E) as (T & O & F). destruct (F ltac:(by rewrite O)) as (bs & Hfin).
  destruct (built_file dir o (add_file (fun _ => None) n bs) n b w' es bs) as (_ & Hst & _);
    [done..|apply add_file_truth_of|]. set (f := meta_of _ _ _) in Hst. clearbody f.
  exists (mkVersion ([f] :: replicate 6 [])), w'. split_and!; [by apply T|done|].
  split; [done|constructor; [exact Hst|constructor]|done|]. split; [repeat constructor|]. simpl. repeat constructor.
Qed.

Lemma manifest_roundtrip_witness :
  exists v w, NumFiles v = 1 /\
    (let '(s, w') := WriteManifest "db" v 3 6 17 w in
     s = Status.OK /\
     exists e, LoadManifest "db" default_Options (mkEnv w' None ∅) = Some (Status.OK, Some (mkManifest v 6 17 3), e)).
Proof.
  destruct (one_file_version "db" default_Options 5 demo_entries (mkWorld ∅ [])) as (v & w & Ho & Hn & Hd);
    [apply demo_entries_ok|apply demo_entries_ok|apply demo_entries_ok|discriminate|lia|reflexivity|].
  exists v, w. split; [exact Hn|].
  apply (manifest_roundtrip "db" default_Options v 3 6 17 w None ∅); [exact Ho|exact I|exact Hd|lia|lia|lia].
Defined.

(** A 36-byte file with a correct checksum. *)
Definition short_manifest : bytes :=
  let body := le_split 8 kManifestMagic ++ replicate 24 Byte.x00 in PutFixed32 body (Value body).

