(* ===== verification/Db.v ===== *)
(** * The database object (include/lsm/db.h, src/db.cpp)

    The members of [DB] and the operations that look at them or install a new
    version: snapshots, views for readers, committing a version, removing
    obsolete files. The shared block cache and the file system are in the [Env];
    the members that only coordinate threads are left out. [db_ok] relates the
    object to the contents of its sources. *)

From stdpp Require Import gmap strings.
From S2P Require Import Prelude Coding InternalKey Posix Versions Iterator Skiplist MemTable Wal Cache Block Merge DbIter Options Sstable Table Levels ReadPath Gc FileNames Manifest.

Record DbStats := mkDbStats {
  writes : Z;
  wal_syncs : Z;
  write_groups : Z;
  writes_grouped : Z;
  memtable_flushes : Z;
  compactions : Z;
  compaction_input_bytes : Z;
  compaction_output_bytes : Z;
  flush_output_bytes : Z;
  flush_versions_dropped : Z;
  bytes_written_to_wal : Z;
  user_bytes_written : Z;
  gets : Z;
  get_hits_memtable : Z;
  sstable_blocks_read : Z;
  s_bloom_rejections : Z;
  s_tables_probed : Z;
  block_cache_hits : Z;
  block_cache_misses : Z;
  block_cache_evictions : Z;
  block_cache_bytes_used : Z;
  scan_entries_returned : Z;
  scan_entries_skipped : Z
}.

Definition new_DbStats : DbStats :=
  mkDbStats 0 0 0 0 0 0 0 0 0 0 0 0 0 0 0 0 0 0 0 0 0 0 0.

(** A write group. *)
Definition count_group (syncs wal_bytes user_bytes count : Z) (st : DbStats) : DbStats :=
  mkDbStats (u64 (writes st + count)) (u64 (wal_syncs st + syncs)) (u64 (write_groups st + 1))
    (u64 (writes_grouped st + count)) (memtable_flushes st) (compactions st) (compaction_input_bytes st)
    (compaction_output_bytes st) (flush_output_bytes st) (flush_versions_dropped st)
    (u64 (bytes_written_to_wal st + wal_bytes)) (u64 (user_bytes_written st + user_bytes)) (gets st)
    (get_hits_memtable st) (sstable_blocks_read st) (s_bloom_rejections st) (s_tables_probed st)
    (block_cache_hits st) (block_cache_misses st) (block_cache_evictions st) (block_cache_bytes_used st)
    (scan_entries_returned st) (scan_entries_skipped st).

Definition count_flush (bytes dropped : Z) (st : DbStats) : DbStats :=
  mkDbStats (writes st) (wal_syncs st) (write_groups st) (writes_grouped st) (u64 (memtable_flushes st + 1))
    (compactions st) (compaction_input_bytes st) (compaction_output_bytes st)
    (u64 (flush_output_bytes st + bytes)) (u64 (flush_versions_dropped st + dropped)) (bytes_written_to_wal st)
    (user_bytes_written st) (gets st) (get_hits_memtable st) (sstable_blocks_read st) (s_bloom_rejections st)
    (s_tables_probed st) (block_cache_hits st) (block_cache_misses st) (block_cache_evictions st)
    (block_cache_bytes_used st) (scan_entries_returned st) (scan_entries_skipped st).

Definition count_compaction (input output : Z) (st : DbStats) : DbStats :=
  mkDbStats (writes st) (wal_syncs st) (write_groups st) (writes_grouped st) (memtable_flushes st)
    (u64 (compactions st + 1)) (u64 (compaction_input_bytes st + input))
    (u64 (compaction_output_bytes st + output)) (flush_output_bytes st) (flush_versions_dropped st)
    (bytes_written_to_wal st) (user_bytes_written st) (gets st) (get_hits_memtable st) (sstable_blocks_read st)
    (s_bloom_rejections st) (s_tables_probed st) (block_cache_hits st) (block_cache_misses st)
    (block_cache_evictions st) (block_cache_bytes_used st) (scan_entries_returned st) (scan_entries_skipped st).

Definition count_get (hit probed : Z) (st : DbStats) : DbStats :=
  mkDbStats (writes st) (wal_syncs st) (write_groups st) (writes_grouped st) (memtable_flushes st)
    (compactions st) (compaction_input_bytes st) (compaction_output_bytes st) (flush_output_bytes st)
    (flush_versions_dropped st) (bytes_written_to_wal st) (user_bytes_written st) (u64 (gets st + 1))
    (u64 (get_hits_memtable st + hit)) (sstable_blocks_read st) (s_bloom_rejections st)
    (u64 (s_tables_probed st + probed)) (block_cache_hits st) (block_cache_misses st) (block_cache_evictions st)
    (block_cache_bytes_used st) (scan_entries_returned st) (scan_entries_skipped st).

Definition count_scan (returned skipped : Z) (st : DbStats) : DbStats :=
  mkDbStats (writes st) (wal_syncs st) (write_groups st) (writes_grouped st) (memtable_flushes st)
    (compactions st) (compaction_input_bytes st) (compaction_output_bytes st) (flush_output_bytes st)
    (flush_versions_dropped st) (bytes_written_to_wal st) (user_bytes_written st) (gets st)
    (get_hits_memtable st) (sstable_blocks_read st) (s_bloom_rejections st) (s_tables_probed st)
    (block_cache_hits st) (block_cache_misses st) (block_cache_evictions st) (block_cache_bytes_used st)
    (u64 (scan_entries_returned st + returned)) (u64 (scan_entries_skipped st + skipped)).

(** A forced log. *)
Definition count_sync (st : DbStats) : DbStats :=
  mkDbStats (writes st) (u64 (wal_syncs st + 1)) (write_groups st) (writes_grouped st) (memtable_flushes st)
    (compactions st) (compaction_input_bytes st) (compaction_output_bytes st) (flush_output_bytes st)
    (flush_versions_dropped st) (bytes_written_to_wal st) (user_bytes_written st) (gets st)
    (get_hits_memtable st) (sstable_blocks_read st) (s_bloom_rejections st) (s_tables_probed st)
    (block_cache_hits st) (block_cache_misses st) (block_cache_evictions st) (block_cache_bytes_used st)
    (scan_entries_returned st) (scan_entries_skipped st).

Section Db.
Context {R : Type} (rnd : R -> Z * R) (seed : R).

Record DB := mkDB {
  db_options : Options;
  db_path : string;
  db_mem : @MemTable R;
  db_imm : option (@MemTable R);   (** being flushed *)
  db_current : Version;
  db_snapshots : gmap Z Z;   (** sequences of the live snapshots, by address *)
  db_compact_pointer : list bytes;   (** per level *)
  db_log : option WalWriter;   (** null until the log is opened *)
  db_log_number : Z;
  db_imm_log_number : Z;
  db_next_file_number : Z;
  db_last_sequence : Z;
  db_last_sync_time : Z;
  db_wal_dirty : bool;
  db_bg_error : Status;
  db_stats : DbStats
}.

Definition with_mem (x : @MemTable R) (d : DB) : DB :=
  mkDB (db_options d) (db_path d) x (db_imm d) (db_current d) (db_snapshots d) (db_compact_pointer d) (db_log d)
    (db_log_number d) (db_imm_log_number d) (db_next_file_number d) (db_last_sequence d) (db_last_sync_time d)
    (db_wal_dirty d) (db_bg_error d) (db_stats d).
Definition with_imm (x : option (@MemTable R)) (d : DB) : DB :=
  mkDB (db_options d) (db_path d) (db_mem d) x (db_current d) (db_snapshots d) (db_compact_pointer d) (db_log d)
    (db_log_number d) (db_imm_log_number d) (db_next_file_number d) (db_last_sequence d) (db_last_sync_time d)
    (db_wal_dirty d) (db_bg_error d) (db_stats d).
Definition with_current (x : Version) (d : DB) : DB :=
  mkDB (db_options d) (db_path d) (db_mem d) (db_imm d) x (db_snapshots d) (db_compact_pointer d) (db_log d)
    (db_log_number d) (db_imm_log_number d) (db_next_file_number d) (db_last_sequence d) (db_last_sync_time d)
    (db_wal_dirty d) (db_bg_error d) (db_stats d).
Definition with_snapshots (x : gmap Z Z) (d : DB) : DB :=
  mkDB (db_options d) (db_path d) (db_mem d) (db_imm d) (db_current d) x (db_compact_pointer d) (db_log d)
    (db_log_number d) (db_imm_log_number d) (db_next_file_number d) (db_last_sequence d) (db_last_sync_time d)
    (db_wal_dirty d) (db_bg_error d) (db_stats d).
Definition with_compact_pointer (x : list bytes) (d : DB) : DB :=
  mkDB (db_options d) (db_path d) (db_mem d) (db_imm d) (db_current d) (db_snapshots d) x (db_log d)
    (db_log_number d) (db_imm_log_number d) (db_next_file_number d) (db_last_sequence d) (db_last_sync_time d)
    (db_wal_dirty d) (db_bg_error d) (db_stats d).
Definition with_log (x : option WalWriter) (d : DB) : DB :=
  mkDB (db_options d) (db_path d) (db_mem d) (db_imm d) (db_current d) (db_snapshots d) (db_compact_pointer d) x
    (db_log_number d) (db_imm_log_number d) (db_next_file_number d) (db_last_sequence d) (db_last_sync_time d)
    (db_wal_dirty d) (db_bg_error d) (db_stats d).
Definition with_log_number (x : Z) (d : DB) : DB :=
  mkDB (db_options d) (db_path d) (db_mem d) (db_imm d) (db_current d) (db_snapshots d) (db_compact_pointer d)
    (db_log d) x (db_imm_log_number d) (db_next_file_number d) (db_last_sequence d) (db_last_sync_time d)
    (db_wal_dirty d) (db_bg_error d) (db_stats d).
Definition with_imm_log_number (x : Z) (d : DB) : DB :=
  mkDB (db_options d) (db_path d) (db_mem d) (db_imm d) (db_current d) (db_snapshots d) (db_compact_pointer d)
    (db_log d) (db_log_number d) x (db_next_file_number d) (db_last_sequence d) (db_last_sync_time d)
    (db_wal_dirty d) (db_bg_error d) (db_stats d).
Definition with_next_file_number (x : Z) (d : DB) : DB :=
  mkDB (db_options d) (db_path d) (db_mem d) (db_imm d) (db_current d) (db_snapshots d) (db_compact_pointer d)
    (db_log d) (db_log_number d) (db_imm_log_number d) x (db_last_sequence d) (db_last_sync_time d)
    (db_wal_dirty d) (db_bg_error d) (db_stats d).
Definition with_last_sequence (x : Z) (d : DB) : DB :=
  mkDB (db_options d) (db_path d) (db_mem d) (db_imm d) (db_current d) (db_snapshots d) (db_compact_pointer d)
    (db_log d) (db_log_number d) (db_imm_log_number d) (db_next_file_number d) x (db_last_sync_time d)
    (db_wal_dirty d) (db_bg_error d) (db_stats d).
Definition with_last_sync_time (x : Z) (d : DB) : DB :=
  mkDB (db_options d) (db_path d) (db_mem d) (db_imm d) (db_current d) (db_snapshots d) (db_compact_pointer d)
    (db_log d) (db_log_number d) (db_imm_log_number d) (db_next_file_number d) (db_last_sequence d) x
    (db_wal_dirty d) (db_bg_error d) (db_stats d).
Definition with_wal_dirty (x : bool) (d : DB) : DB :=
  mkDB (db_options d) (db_path d) (db_mem d) (db_imm d) (db_current d) (db_snapshots d) (db_compact_pointer d)
    (db_log d) (db_log_number d) (db_imm_log_number d) (db_next_file_number d) (db_last_sequence d)
    (db_last_sync_time d) x (db_bg_error d) (db_stats d).
Definition with_bg_error (x : Status) (d : DB) : DB :=
  mkDB (db_options d) (db_path d) (db_mem d) (db_imm d) (db_current d) (db_snapshots d) (db_compact_pointer d)
    (db_log d) (db_log_number d) (db_imm_log_number d) (db_next_file_number d) (db_last_sequence d)
    (db_last_sync_time d) (db_wal_dirty d) x (db_stats d).
Definition with_db_stats (x : DbStats) (d : DB) : DB :=
  mkDB (db_options d) (db_path d) (db_mem d) (db_imm d) (db_current d) (db_snapshots d) (db_compact_pointer d)
    (db_log d) (db_log_number d) (db_imm_log_number d) (db_next_file_number d) (db_last_sequence d)
    (db_last_sync_time d) (db_wal_dirty d) (db_bg_error d) x.

(** The constructor. *)
Definition new_DB (options : Options) (path : string) (now : Z) : DB :=
  mkDB options path (new_MemTable seed) None new_Version ∅ (replicate kNumLevels []) None 0 0 1 0 now false
    Status.OK new_DbStats.

Definition new_block_cache (options : Options) : option BlockCache :=
  if 0 <? block_cache_bytes options then Some (new_BlockCache (block_cache_bytes options) 16) else None.

(** The log recovery still needs. *)
Definition OldestLiveLog (d : DB) : Z :=
  match db_imm d with Some _ => db_imm_log_number d | None => db_log_number d end.

(** ** Snapshots *)

(** [raw] is the address of the new object. *)
Definition GetSnapshot (raw : Z) (d : DB) : DB := with_snapshots (<[raw := db_last_sequence d]> (db_snapshots d)) d.

Definition ReleaseSnapshot (snapshot : option Z) (d : DB) : DB :=
  match snapshot with
  | None => d
  | Some raw => with_snapshots (delete raw (db_snapshots d)) d
  end.

Definition SmallestSnapshot (d : DB) : Z :=
  fold_left (fun smallest p => Z.min smallest p.2) (map_to_list (db_snapshots d)) (db_last_sequence d).

(** ** Readers *)

(** What a reader captures under the mutex. *)
Definition read_view (opts : ReadOptions) (d : DB) : ReadView :=
  mkReadView (db_mem d) (db_imm d) (db_current d)
    (match snapshot opts with Some seq => seq | None => db_last_sequence d end).

Definition DB_Get (opts : ReadOptions) (key : bytes) (d : DB) (e : Env)
  : option (Status * option bytes * DB * Env) :=
  '(s, v, g, e) ← view_Get key (read_view opts d) e;
  Some (s, v, with_db_stats (count_get (if mem_hit g then 1 else 0) (tables_probed g) (db_stats d)) d, e).

Definition DB_NewIterator (opts : ReadOptions) (d : DB) : DBIter := NewIterator (read_view opts d).

(** [~DBIter]: the counts of the iterator are added to those of the database. *)
Definition destroy_DBIter {I} (it : @DBIter I) (d : DB) : DB :=
  with_db_stats (count_scan (returned_count_ it) (skipped_count_ it) (db_stats d)) d.

(** ** Counters *)

Definition sum_files (g : Stats -> Z) (d : DB) (e : Env) (start : Z) : Z :=
  fold_left (fun n f => u64 (n + g (stats_of e (number f)))) (concat (levels (db_current d))) start.

Definition GetStats (d : DB) (e : Env) : DbStats :=
  let st := db_stats d in
  let cache_stat (g : BlockCache -> Z) (old : Z) := match e_cache e with Some c => g c | None => old end in
  mkDbStats (writes st) (wal_syncs st) (write_groups st) (writes_grouped st) (memtable_flushes st)
    (compactions st) (compaction_input_bytes st) (compaction_output_bytes st) (flush_output_bytes st)
    (flush_versions_dropped st) (bytes_written_to_wal st) (user_bytes_written st) (gets st)
    (get_hits_memtable st) (sum_files blocks_read d e (sstable_blocks_read st))
    (sum_files bloom_rejections d e (s_bloom_rejections st)) (s_tables_probed st)
    (cache_stat hits_ (block_cache_hits st)) (cache_stat misses_ (block_cache_misses st))
    (cache_stat evictions_ (block_cache_evictions st)) (cache_stat charge_bytes (block_cache_bytes_used st))
    (scan_entries_returned st) (scan_entries_skipped st).

(** ** Committing a version *)

Definition live_tables (v : Version) : list Z := map number (concat (levels v)).

Definition obsolete (v : Version) (log_number : Z) (name : string) : bool :=
  match ParseFileName name with
  | None => false
  | Some (n, kind) =>
      if bool_decide (kind = "sst"%string) then negb (bool_decide (n ∈ live_tables v))
      else bool_decide (kind = "log"%string) && (n <? log_number)
  end.

Definition RemoveObsoleteFiles (path : string) (live : Version) (log_number : Z) (w : World) : World :=
  let '(s, w) := sys_simple "opendir" w in
  if negb (Status.ok s) then w
  else
    fold_left (fun w name => sys_unlink (path ++ "/" ++ name) w)
      (List.filter (obsolete live log_number) (dir_entries (w_files w) path)) w.

Definition in_world (f : World -> Status * World) (e : Env) : Status * Env :=
  let '(s, w) := f (e_world e) in (s, mkEnv w (e_cache e) (e_stats e)).

Definition CommitVersion (version : Version) (d : DB) (e : Env) : Status * DB * Env :=
  let d := with_current version d in
  let log_number := OldestLiveLog d in
  let '(s, w) := WriteManifest (db_path d) version log_number (db_next_file_number d) (db_last_sequence d) (e_world e) in
  let w := if Status.ok s then RemoveObsoleteFiles (db_path d) version log_number w else w in
  (s, d, mkEnv w (e_cache e) (e_stats e)).

(** ** Removing files *)

Lemma unlink_all_spec dir names : forall w,
  let w' := fold_left (fun w name => sys_unlink (dir ++ "/" ++ name) w) names w in
  (forall p, p ∉ map (fun name => (dir ++ "/" ++ name)%string) names -> w_files w' !! p = w_files w !! p) /\
  (forall p, w_files w' !! p = w_files w !! p \/ w_files w' !! p = None) /\
  (w_oracle w = [] -> w_oracle w' = []).
Proof.
  induction names as [|name names IH]; intros w; simpl; [split_and!; auto|].
  destruct (IH (sys_unlink (dir ++ "/" ++ name) w)) as (H1 & H2 & H3).
  destruct (sys_unlink_spec (dir ++ "/" ++ name) w) as [T1 T2]. split_and!; [| |auto].
  - intros p Hp. apply not_elem_of_cons in Hp as [Hne Hp]. rewrite H1 by done. by apply T1.
  - intros p. destruct (H2 p) as [->|]; [|by right]. unfold sys_unlink, next_ret.
    destruct (w_oracle w) as [|[| | |e] o]; simpl; auto;
      (destruct (decide (p = (dir ++ "/" ++ name)%string)) as [->|]; [right; apply lookup_delete_eq|left; by apply lookup_delete_ne]).
Qed.

(** Only obsolete files go. *)
Lemma RemoveObsoleteFiles_spec dir v log w :
  let w' := RemoveObsoleteFiles dir v log w in
  (forall p, (forall name, p = (dir ++ "/" ++ name)%string -> obsolete v log name = false) ->
    w_files w' !! p = w_files w !! p) /\
  (forall p, w_files w' !! p = w_files w !! p \/ w_files w' !! p = None) /\
  (w_oracle w = [] -> w_oracle w' = []).
Proof.
  unfold RemoveObsoleteFiles. destruct (sys_simple "opendir" w) as [s w1] eqn:E.
  destruct (sys_simple_spec _ dir _ _ _ E) as ([_ T] & F & _). destruct (Status.ok s); cbn [negb];
    [|rewrite F; split_and!; auto].
  destruct (unlink_all_spec dir (List.filter (obsolete v log) (dir_entries (w_files w1) dir)) w1) as (H1 & H2 & H3).
  rewrite F in H1, H2. cbv zeta. rewrite F in H3 |- *. split_and!; [|exact H2|auto].
  intros p Hp. apply H1. intros Hin. apply list_elem_of_fmap in Hin as (name & Heq & Hin).
  apply list_elem_of_In, filter_In in Hin as [_ Ho]. by rewrite (Hp name Heq) in Ho.
Qed.

Lemma live_not_obsolete dir v log n name :
  0 <= n < 2 ^ 64 -> n ∈ live_tables v -> TablePath dir n = (dir ++ "/" ++ name)%string -> obsolete v log name = false.
Proof.
  intros Hn Hin Hp. apply (NumberedFile_name dir n ".sst" name) in Hp as ->. unfold obsolete.
  change ".sst"%string with ("." ++ "sst")%string. rewrite parse_base_name by (done || apply good_sst).
  by rewrite !bool_decide_true by done.
Qed.

Lemma plain_not_obsolete dir v log name name' :
  ParseFileName name = None -> (dir ++ "/" ++ name)%string = (dir ++ "/" ++ name')%string -> obsolete v log name' = false.
Proof. intros Hn Hp. apply (inj _), (inj (String.append "/")) in Hp as <-. unfold obsolete. by rewrite Hn. Qed.

(** What a commit does to the directory, whatever the system calls do. *)
Record committed (dir : string) (v : Version) (log next seq : Z) (s : Status) (w w' : World) : Prop := {
  cm_manifest : w_files w' !! ManifestPath dir = w_files w !! ManifestPath dir \/
                w_files w' !! ManifestPath dir = Some (manifest_bytes v log next seq);
  cm_ok : Status.ok s = true -> w_files w' !! ManifestPath dir = Some (manifest_bytes v log next seq);
  cm_kept : forall p, p <> ManifestPath dir -> p <> TmpPath dir ->
    (forall name, p = (dir ++ "/" ++ name)%string -> obsolete v log name = false) -> w_files w' !! p = w_files w !! p;
  cm_removed : forall p, p <> ManifestPath dir -> p <> TmpPath dir ->
    w_files w' !! p = w_files w !! p \/ Status.ok s = true /\ w_files w' !! p = None;
  cm_calm : w_oracle w = [] -> s = Status.OK /\ w_oracle w' = []
}.

Lemma manifest_not_obsolete dir v log name :
  ManifestPath dir = (dir ++ "/" ++ name)%string -> obsolete v log name = false.
Proof. by apply (plain_not_obsolete dir v log "MANIFEST" name). Qed.

Lemma CommitVersion_spec v d e s d' e' :
  CommitVersion v d e = (s, d', e') ->
  d' = with_current v d /\ e_cache e' = e_cache e /\
  committed (db_path d) v (OldestLiveLog d) (db_next_file_number d) (db_last_sequence d) s (e_world e) (e_world e').
Proof.
  unfold CommitVersion. cbv zeta. cbn [db_path db_next_file_number db_last_sequence with_current].
  change (OldestLiveLog (with_current v d)) with (OldestLiveLog d).
  destruct (WriteManifest _ _ _ _ _ _) as [s0 w] eqn:E. intros [= <- <- <-]. split_and!; [done|done|]. simpl.
  destruct (WriteManifest_spec _ _ _ _ _ _ _ _ E) as ([Hf Ha Ho] & Hok & Hnew). destruct (Status.ok s0) eqn:Hs.
  - destruct (RemoveObsoleteFiles_spec (db_path d) v (OldestLiveLog d) w) as (R1 & R2 & R3).
    assert (forall b, w_files w !! ManifestPath (db_path d) = b ->
      w_files (RemoveObsoleteFiles (db_path d) v (OldestLiveLog d) w) !! ManifestPath (db_path d) = b) as Hm.
    { intros b <-. apply R1. intros name. apply manifest_not_obsolete. }
    split; [right; by apply Hm, Hnew|intros _; by apply Hm, Hnew| | |auto].
    + intros p H1 H2 H3. rewrite R1 by done. by apply Hf.
    + intros p H1 H2. destruct (R2 p) as [->|]; [left; by apply Hf|by right].
  - split; [done|congruence|intros p H1 H2 _; by apply Hf|intros p H1 H2; left; by apply Hf|].
    intros Hw. rewrite (Hok Hw) in Hs. done.
Qed.

(** A commit whose manifest did not get into place. *)
Lemma committed_failed dir v log next seq s w w' :
  committed dir v log next seq s w w' -> w_files w' !! ManifestPath dir <> Some (manifest_bytes v log next seq) ->
  Status.ok s = false /\ forall p, p <> TmpPath dir -> w_files w' !! p = w_files w !! p.
Proof.
  intros Hc Hm. destruct (Status.ok s) eqn:Hs; [by destruct Hm; apply (cm_ok _ _ _ _ _ _ _ _ Hc)|]. split; [done|].
  intros p Hp. destruct (decide (p = ManifestPath dir)) as [->|Hpm]; [by destruct (cm_manifest _ _ _ _ _ _ _ _ Hc)|].
  destruct (cm_removed _ _ _ _ _ _ _ _ Hc p Hpm Hp) as [|[Hx _]]; [done|congruence].
Qed.

(** The tables of the committed version are still there. *)
Lemma committed_table dir v log next seq s w w' f :
  committed dir v log next seq s w w' -> f ∈ concat (levels v) -> 0 <= number f < 2 ^ 64 ->
  w_files w' !! TablePath dir (number f) = w_files w !! TablePath dir (number f).
Proof.
  intros Hc Hf Hn. destruct (TablePath_ne dir (number f) Hn) as [H1 H2]. apply (cm_kept _ _ _ _ _ _ _ _ Hc); [done|done|].
  intros name. apply live_not_obsolete; [done|]. unfold live_tables. apply list_elem_of_fmap. by exists f.
Qed.

Lemma committed_describable dir o v log next seq s w w' :
  committed dir v log next seq s w w' -> describable dir o (w_files w) v -> describable dir o (w_files w') v.
Proof.
  intros Hc Hd. eapply describable_frame; [exact Hd|]. intros f Hf. eapply committed_table; [exact Hc|done|].
  pose proof (de_stored _ _ _ _ Hd) as H. rewrite Forall_forall in H. by apply H.
Qed.

(** Only tables with numbers taken on the way have been touched. *)
Definition only_new (d d' : DB) (w w' : World) : Prop :=
  forall p, (forall n, db_next_file_number d <= n < db_next_file_number d' -> p <> TablePath (db_path d) n) ->
    w_files w' !! p = w_files w !! p.

(** What background work does to the directory: nothing but new tables, or a
    commit of the version that is now current, which an outstanding flush
    survives only if it is left alone. *)
Inductive disk_outcome (c : contents) (d : DB) (w : World) (s : Status) (c' : contents) (d' : DB) (w' : World) : Prop :=
| disk_quiet :
    only_new d d' w w' -> c' = c -> db_current d' = db_current d -> db_imm d' = db_imm d ->
    db_imm_log_number d' = db_imm_log_number d -> disk_outcome c d w s c' d' w'
| disk_commit w1 s1 :
    only_new d d' w w1 -> Status.ok s1 = Status.ok s ->
    committed (db_path d) (db_current d') (OldestLiveLog d') (db_next_file_number d') (db_last_sequence d') s1 w1 w' ->
    (db_imm d' = None \/
     db_imm d' = db_imm d /\ db_imm_log_number d' = db_imm_log_number d /\ c_imm c' = c_imm c) ->
    disk_outcome c d w s c' d' w'.

(** ** Snapshots *)

Lemma SmallestSnapshot_spec d :
  SmallestSnapshot d <= db_last_sequence d /\
  (forall raw s, db_snapshots d !! raw = Some s -> SmallestSnapshot d <= s) /\
  (forall floor, floor <= db_last_sequence d -> map_Forall (fun _ s => floor <= s) (db_snapshots d) ->
    floor <= SmallestSnapshot d).
Proof.
  unfold SmallestSnapshot.
  assert (forall (l : list (Z * Z)) m, let r := fold_left (fun smallest p => Z.min smallest p.2) l m in
    r <= m /\ Forall (fun p => r <= p.2) l /\ (forall floor, floor <= m -> Forall (fun p => floor <= p.2) l -> floor <= r)) as H.
  { induction l as [|p l IH]; intros m; simpl; [split_and!; [lia|constructor|done]|].
    destruct (IH (Z.min m p.2)) as (H1 & H2 & H3). split_and!; [lia| |].
    - constructor; [lia|done].
    - intros floor Hf [Hp Hl]%Forall_cons. apply H3; [lia|done]. }
  destruct (H (map_to_list (db_snapshots d)) (db_last_sequence d)) as (H1 & H2 & H3).
  split_and!; [done| |].
  - intros raw s Hs. rewrite Forall_forall in H2. by apply (H2 (raw, s)), elem_of_map_to_list.
  - intros floor Hf Hm. apply H3; [done|]. apply Forall_forall. intros [raw s] Hin%elem_of_map_to_list. by apply (Hm raw s).
Qed.

(** ** The invariant *)

(** Every stored version. *)
Definition everything (c : contents) : list entry := concat (all_sources c).

Definition cache_good (truth : Key -> option bytes) (e : Env) : Prop :=
  match e_cache e with Some c => cache_inv c /\ coherent truth c | None => True end.

(** The sources of [d] hold [c]. Versions above [floor] are stored once; a
    restart may leave older ones in two places, with the same value. *)
Record db_core (truth : Key -> option bytes) (floor : Z) (c : contents) (d : DB) (e : Env) : Prop := {
  ok_mem : mem_ok (db_mem d) (c_mem c);
  ok_imm : option_Forall2 mem_ok (db_imm d) (c_imm c);
  ok_imm_some : c_imm c <> Some [];
  ok_version : version_ok truth (db_current d) (c_l0 c) (c_deep c);
  ok_agree : agree (everything c);
  ok_seqs : Forall (fun x => sequence x <= db_last_sequence d) (everything c);
  ok_last : 0 <= db_last_sequence d < kMaxSequenceNumber;
  ok_floor : 0 <= floor <= db_last_sequence d;
  ok_snapshots : map_Forall (fun _ s => floor <= s <= db_last_sequence d) (db_snapshots d);
  ok_dups : NoDup (map fst (filter (fun x => floor < sequence x) (everything c)));
  ok_room : writable (db_options d) (everything c);
  ok_files : describable (db_path d) (db_options d) (w_files (e_world e)) (db_current d);
  ok_numbers : Forall (fun n => n < db_next_file_number d) (live_tables (db_current d));
  ok_unique : NoDup (live_tables (db_current d));
  ok_next : 0 < db_next_file_number d < 2 ^ 64;
  ok_truth : forall n, db_next_file_number d <= n -> truth_fresh truth n;
  ok_cache : cache_good truth e
}.

(** The first source that knows a key has its newest version. *)
Record db_ok (truth : Key -> option bytes) (floor : Z) (c : contents) (d : DB) (e : Env) : Prop := {
  ok_core :> db_core truth floor c d e;
  ok_layered : layered (all_sources c)
}.

Lemma ok_smallest truth floor c d e :
  db_core truth floor c d e -> floor <= SmallestSnapshot d <= db_last_sequence d /\ SmallestSnapshot d < kMaxSequenceNumber.
Proof.
  intros H. destruct (SmallestSnapshot_spec d) as (H1 & H2 & H3). pose proof (ok_last _ _ _ _ _ H).
  split; [split; [|done]|lia]. apply H3; [apply H|]. intros raw s Hs. by apply (ok_snapshots _ _ _ _ _ H raw s).
Qed.

Lemma version_typed truth v l0 deep :
  version_ok truth v l0 deep -> entries_typed (concat (sources l0 deep)).
Proof.
  intros [_ H0 Hd]. unfold entries_typed, sources. rewrite concat_app. apply Forall_app. split; apply Forall_concat.
  - apply Forall_forall. intros es Hes. apply list_elem_of_lookup in Hes as [j Hj].
    destruct (Forall2_lookup_r _ _ _ _ _ H0 Hj) as (f & _ & Hf). apply Hf.
  - apply Forall_map, Forall_forall. intros ess Hin. simpl. apply list_elem_of_lookup in Hin as [j Hj].
    destruct (Forall2_lookup_r _ _ _ _ _ Hd Hj) as (files & _ & [HL _]).
    apply Forall_concat, Forall_forall. intros a Ha. apply list_elem_of_lookup in Ha as [k Hk].
    destruct (Forall2_lookup_r _ _ _ _ _ HL Hk) as (f & _ & Hf). apply Hf.
Qed.

Lemma ok_typed truth floor c d e : db_core truth floor c d e -> entries_typed (everything c).
Proof.
  intros H. unfold everything, all_sources, entries_typed. simpl. rewrite concat_app, !Forall_app. split_and!.
  - apply (ok_mem _ _ _ _ _ H).
  - destruct (ok_imm _ _ _ _ _ H) as [m es Hm|]; simpl; [rewrite app_nil_r; apply Hm|constructor].
  - eapply version_typed, H.
Qed.

(** There are no more live files than numbers given out. *)
Lemma numbers_bound (l : list Z) n : NoDup l -> Forall (fun x => 0 <= x < n) l -> size l <= Z.max 0 n.
Proof.
  intros Hnd Hf. assert (l ⊆+ seqZ 0 n) as Hs.
  { apply NoDup_submseteq; [done|]. intros x Hx. rewrite Forall_forall in Hf. apply elem_of_seqZ. specialize (Hf x Hx). lia. }
  apply submseteq_length in Hs. rewrite length_seqZ in Hs. unfold size. lia.
Qed.

(** A smaller set of versions keeps what the invariant says of all of them. *)
Lemma everything_shrink c c' (o : Options) last floor :
  everything c' ⊆+ everything c ->
  agree (everything c) -> Forall (fun x => sequence x <= last) (everything c) ->
  NoDup (map fst (filter (fun x => floor < sequence x) (everything c))) -> writable o (everything c) ->
  agree (everything c') /\ Forall (fun x => sequence x <= last) (everything c') /\
  NoDup (map fst (filter (fun x => floor < sequence x) (everything c'))) /\ writable o (everything c').
Proof.
  intros Hs H1 H2 H3 H4. assert (forall x, x ∈ everything c' -> x ∈ everything c) as Hx by (intros x Hx; by eapply elem_of_submseteq).
  split_and!; [|..|by eapply writable_sub].
  - by eapply agree_subset.
  - rewrite Forall_forall in *. auto.
  - apply submseteq_Permutation in Hs as [k Hk]. rewrite Hk, filter_app in H3. by eapply NoDup_map_prefix.
Qed.

(** ** Readers *)

(** The sequence a read looks at. *)
Definition read_seq (opts : ReadOptions) (d : DB) : Z :=
  match snapshot opts with Some seq => seq | None => db_last_sequence d end.

Lemma ok_view truth floor c d e opts :
  db_ok truth floor c d e -> 0 <= read_seq opts d <= kMaxSequenceNumber -> view_ok truth (read_view opts d) c.
Proof. intros H Hseq. split; [apply H|apply H|apply H|apply H|done]. Qed.

Lemma ok_env calm truth floor c d e :
  db_ok truth floor c d e -> benign calm (w_oracle (e_world e)) -> env_inv calm truth (w_files (e_world e)) e.
Proof. intros H Ho. split; [done|done|apply H]. Qed.

(** Reading changes the cache and the counters only. *)
Lemma ok_read calm truth floor c d e d' e' st :
  db_ok truth floor c d e -> env_inv calm truth (w_files (e_world e)) e' -> d' = with_db_stats st d -> db_ok truth floor c d' e'.
Proof.
  intros [H Hl] [E1 E2 E3] ->. split; [|done]. split; simpl; try apply H; [|exact E3]. rewrite E1. apply H.
Qed.

Lemma DB_Get_spec calm truth floor c d e opts key :
  db_ok truth floor c d e -> benign calm (w_oracle (e_world e)) -> 0 <= read_seq opts d <= kMaxSequenceNumber ->
  size key + 8 < 2 ^ 32 ->
  exists st e', DB_Get opts key d e = Some (verdict (read (everything c) key (read_seq opts d)), with_db_stats st d, e') /\
    db_ok truth floor c (with_db_stats st d) e' /\ w_files (e_world e') = w_files (e_world e) /\ benign calm (w_oracle (e_world e')).
Proof.
  intros H Ho Hseq Hk.
  destruct (view_Get_spec calm truth (w_files (e_world e)) key (read_view opts d) c e) as (g & e' & Hg & He');
    [by eapply ok_view|by eapply ok_env|done|].
  unfold DB_Get. rewrite Hg. cbn [mbind option_bind]. destruct (verdict _) as [s v] eqn:Ev. do 2 eexists.
  split; [by rewrite <- Ev|]. split_and!; [by eapply ok_read|apply He'..].
Qed.

(** C11: A point read answers with the newest stored version at or below the
    sequence it looks at: its value, or not-found when there is none or it is a
    deletion. The database stays consistent. Interrupted and short reads of the
    files do not matter. *)
Theorem db_get_newest truth floor c d e opts key :
  db_ok truth floor c d e -> benign false (w_oracle (e_world e)) -> 0 <= read_seq opts d <= kMaxSequenceNumber ->
  size key + 8 < 2 ^ 32 ->
  exists d' e', DB_Get opts key d e = Some (verdict (read (everything c) key (read_seq opts d)), d', e') /\
    db_ok truth floor c d' e'.
Proof.
  intros H Ho Hseq Hk. destruct (DB_Get_spec false truth floor c d e opts key H Ho Hseq Hk) as (st & e' & Hg & Hok & _).
  by exists (with_db_stats st d), e'.
Qed.

(** C12: A scan returns exactly what point reads at its sequence would find, once
    per key and in key order, from the start or from a target on, and ends
    without an error. *)
Theorem db_scan_reads truth floor c d e opts target n :
  db_ok truth floor c d e -> benign false (w_oracle (e_world e)) -> 0 <= read_seq opts d <= kMaxSequenceNumber ->
  size target + 8 < 2 ^ 32 -> (length (everything c) <= n)%nat ->
  let run (start : DBIter * Env) := scan (S n) (S n) start.1 start.2 in
  let all := run (d_SeekToFirst (S n) (DB_NewIterator opts d) e) in
  let from := run (d_Seek (S n) target (DB_NewIterator opts d) e) in
  let answer key := read (everything c) key (read_seq opts d) in
  (forall k v, (k, v) ∈ all.1 <-> answer k = Some (Some v)) /\
  (forall k v, (k, v) ∈ from.1 <-> answer k = Some (Some v) /\ 0 <= sv_compare k target) /\
  StronglySorted (fun a b => sv_compare a.1 b.1 < 0) all.1 /\
  StronglySorted (fun a b => sv_compare a.1 b.1 < 0) from.1 /\
  d_status all.2 = Status.OK /\ d_status from.2 = Status.OK.
Proof.
  intros H Ho Hseq Ht Hn. apply (view_scan_spec false truth (w_files (e_world e)) target (read_view opts d) c e n);
    [by eapply ok_view|by eapply ok_env|done|done].
Qed.

End Db.

(** Members the invariant says nothing of may change. *)
Ltac same_db H := destruct H as [[] ?]; split; [split|]; done.

(** ** A database without files *)

Lemma new_Version_ok truth : version_ok truth new_Version [] (replicate 6 []).
Proof.
  split; [done|constructor|]. simpl. repeat (constructor; [split; [constructor|intros ? ? ? ? ? ? _ H; by rewrite lookup_nil in H]|]).
  constructor.
Qed.

Lemma new_Version_describable dir o fs : describable dir o fs new_Version.
Proof. split; [done|constructor|done|]. split; [constructor|]. simpl. repeat constructor. Qed.

(** ** A small database *)

(** One memtable is full, another has been started. *)
Definition small_mem : MemTable := MemTable.Add list_rnd 3 kValue [Byte.x61] [Byte.x31] (new_MemTable [8; 3]).
Definition small_mem_entries : list entry := [(EncodeInternalKey [Byte.x61] 3 kValue, [Byte.x31])].

Definition small_contents : contents := mkContents small_mem_entries (Some MemTable.demo_entries) [] (replicate 6 []).

Definition small_db (o : Options) : DB :=
  with_last_sequence 3 (with_next_file_number 4 (with_imm (Some demo_mem) (with_mem small_mem (new_DB [8; 3] o "db" 0)))).

Definition small_env : Env := mkEnv (mkWorld ∅ []) None ∅.

Lemma small_mem_ok : mem_ok small_mem small_mem_entries.
Proof.
  change small_mem_entries with (insert_entry (EncodeInternalKey [Byte.x61] 3 kValue, [Byte.x31]) []).
  unfold kMaxSequenceNumber. apply Add_ok; try (vm_compute; intuition congruence); [apply (new_MemTable_ok list_rnd)|constructor].
Qed.

Lemma small_db_ok o : writable o (everything small_contents) -> db_ok (fun _ => None) 0 small_contents (small_db o) small_env.
Proof.
  intros Hwr. pose proof (new_Version_ok (fun _ => None)) as Hv.
  split; [split; try done|].
  - apply small_mem_ok.
  - constructor. apply demo_mem_ok.
  - unfold everything. simpl. intros x y Hx Hy. 
    repeat (apply elem_of_cons in Hx as [->|Hx]); [..|by apply elem_of_nil in Hx];
      (repeat (apply elem_of_cons in Hy as [->|Hy]); [..|by apply elem_of_nil in Hy]); intros Hk; try done; vm_compute in Hk; discriminate.
  - repeat (constructor; [vm_compute; discriminate|]). constructor.
  - apply (bool_decide_unpack _). vm_compute. done.
  - apply new_Version_describable.
  - constructor.
  - repeat (split; [intros x y Hx Hy Hk; vm_compute in Hx, Hy;
      repeat (apply elem_of_cons in Hx as [->|Hx]); try (by apply elem_of_nil in Hx);
      repeat (apply elem_of_cons in Hy as [->|Hy]); try (by apply elem_of_nil in Hy); vm_compute in Hk; discriminate|]). done.
Qed.

Lemma small_writable o : block_size_bytes o = 4096 -> bloom_bits_per_key o = 10 -> writable o (everything small_contents).
Proof.
  intros Hb Hk. split; rewrite ?Hb, ?Hk; [|lia|vm_compute; done|lia|vm_compute; done].
  repeat (constructor; [vm_compute; done|]). constructor.
Qed.

Lemma db_get_newest_witness :
  exists d' e', DB_Get default_ReadOptions [Byte.x61] (small_db default_Options) small_env = Some (Status.OK, Some [Byte.x31], d', e').
Proof.
  destruct (db_get_newest (fun _ => None) 0 small_contents (small_db default_Options) small_env default_ReadOptions [Byte.x61])
    as (d' & e' & H & _);
    [apply small_db_ok, small_writable; reflexivity|constructor|vm_compute; intuition congruence|reflexivity|].
  exists d', e'. rewrite H. reflexivity.
Defined.

Lemma db_scan_reads_witness :
  ([Byte.x61], [Byte.x31]) ∈
    (scan 4 4 (d_SeekToFirst 4 (DB_NewIterator default_ReadOptions (small_db default_Options)) small_env).1
       (d_SeekToFirst 4 (DB_NewIterator default_ReadOptions (small_db default_Options)) small_env).2).1.
Proof.
  destruct (db_scan_reads (fun _ => None) 0 small_contents (small_db default_Options) small_env default_ReadOptions [Byte.x61] 3)
    as [H _];
    [apply small_db_ok, small_writable; reflexivity|constructor|vm_compute; intuition congruence|reflexivity|vm_compute; lia|].
  apply H. vm_compute. reflexivity.
Defined.
