(* ===== verification/Flush.v ===== *)
(** * Flushing the immutable memtable (src/db.cpp: [FlushImmutableMemTable])

    A flush writes the versions of the immutable memtable that are still needed
    to a new table, installs it in front of level 0 and commits the version.
    Whatever the system calls do, the database stays consistent, and no read at
    or above the smallest snapshot changes. *)

From stdpp Require Import gmap strings.
From S2P Require Import Prelude Coding InternalKey Posix Versions Bloom Iterator Skiplist MemTable Cache Block Merge DbIter Options Sstable Table Levels ReadPath Gc FileNames Manifest Db.

Section Flush.
Context {R : Type}.
Abbreviation DB := (@DB R).
Abbreviation db_ok := (@db_ok R).
Abbreviation db_core := (@db_core R).

(** The loop over the memtable: the status, the builder, [versions_dropped]. *)
Fixpoint flush_loop (fuel : nat) (smallest_snapshot : Z) (it : @MemIterator R) (g : GcState) (b : TableBuilder)
    (dropped : Z) (w : World) : Status * TableBuilder * Z * World :=
  match fuel with
  | O => (Status.OK, b, dropped, w)
  | S fuel =>
      if negb (mi_Valid it) then (Status.OK, b, dropped, w)
      else
        let ikey := mi_internal_key it in
        let '(hidden_from_everyone, g) := gc_visit smallest_snapshot g (ikey, mi_value it) in
        if hidden_from_everyone then flush_loop fuel smallest_snapshot (mi_Next it) g b (u64 (dropped + 1)) w
        else
          let '(s, b, w) := Add ikey (mi_value it) b w in
          if negb (Status.ok s) then (s, b, dropped, w)
          else flush_loop fuel smallest_snapshot (mi_Next it) g b dropped w
  end.

(** The part that runs without the lock: the file with its open table and the
    number of versions dropped, when all went well. *)
Definition build_flush (number smallest_snapshot : Z) (imm : @MemTable R) (d : DB) (e : Env)
  : option (Status * option (FileMetaData * Z) * Env) :=
  let table_path := TablePath (db_path d) number in
  let '(s, b, w) := TableBuilder_Open table_path (new_TableBuilder (db_options d)) (e_world e) in
  let '(s, b, dropped, w) :=
    if Status.ok s then
      flush_loop (S (Z.to_nat (NumEntries imm))) smallest_snapshot (mi_SeekToFirst (new_MemIterator imm)) new_GcState b 0 w
    else (s, b, 0, w) in
  let '(s, b, w) := if Status.ok s then TableBuilder_Finish b w else (s, b, w) in
  let '(b', w) := if Status.ok s then (b, w) else Abandon b w in
  let '(_, w) := destroy_TableBuilder b' w in
  let e := mkEnv w (e_cache e) (e_stats e) in
  if Status.ok s then
    '(s, t, e) ← Table_Open table_path (db_options d) number e;
    Some (s, option_map (fun t => (meta_of number b t, dropped)) t, e)
  else Some (s, None, e).

Definition add_l0 (f : FileMetaData) (v : Version) : Version := mkVersion (alter (cons f) 0%nat (levels v)).

Definition FlushImmutableMemTable (d : DB) (e : Env) : option (Status * DB * Env) :=
  match db_imm d with
  | None => Some (Status.OK, d, e)
  | Some imm =>
      let number := db_next_file_number d in
      let d := with_next_file_number (u64 (number + 1)) d in
      '(s, built, e) ← build_flush number (SmallestSnapshot d) imm d e;
      match built with
      | None => Some (s, with_bg_error s d, e)
      | Some (meta, dropped) =>
          let version := add_l0 meta (db_current d) in
          let '(s, d, e) := CommitVersion version (with_imm_log_number 0 (with_imm None d)) e in
          if negb (Status.ok s) then Some (s, with_bg_error s d, e)
          else Some (Status.OK, with_db_stats (count_flush (file_size meta) dropped (db_stats d)) d, e)
      end
  end.

(** ** The loop writes the survivors *)

Lemma flush_loop_eq fuel smallest : forall it es suf g b dropped w,
  mem_at it es suf -> (length suf < fuel)%nat ->
  exists dropped', flush_loop fuel smallest it g b dropped w =
    (let '(s, b, w) := add_entries (gc_filter smallest false g suf) b w in (s, b, dropped', w)).
Proof.
  assert (Sm : IteratorSpec (MemTableIteratorAdapter (R := R) (W := World)) (fun _ => True) mem_at) by apply _.
  induction fuel as [|fuel IH]; intros it es suf g b dropped w Hat Hf; [lia|]. cbn [flush_loop].
  pose proof (at_valid (IteratorSpec := Sm) _ _ _ Hat) as Hv. simpl in Hv. rewrite Hv.
  destruct suf as [|e suf]; simpl; [by exists dropped|].
  pose proof (at_entry (IteratorSpec := Sm) _ _ _ _ Hat) as He. simpl in He.
  assert (mi_internal_key it = e.1 /\ mi_value it = e.2) as [-> ->] by (by rewrite <- He).
  destruct (at_next (IteratorSpec := Sm) _ _ _ _ w Hat I) as [Hat' _]. simpl in Hat'.
  replace (e.1, e.2) with e by (by destruct e). simpl in Hf. destruct (_ <=? smallest); [by eapply IH; [|lia]|].
  assert (droppable_tombstone smallest false e = false) as -> by (unfold droppable_tombstone; by rewrite andb_false_r).
  cbn [add_entries]. destruct (Add e.1 e.2 b w) as [[s b'] w']. destruct (Status.ok s); cbn [negb];
    [by eapply IH; [|lia]|by exists dropped].
Qed.

(** The versions a flush keeps. *)
Definition kept (d : DB) (es : list entry) : list entry := survivors (SmallestSnapshot d) false es.

Lemma mem_first imm es : mem_ok imm es -> mem_at (mi_SeekToFirst (new_MemIterator (R := R) imm)) es es.
Proof.
  intros Hok. assert (mem_at (new_MemIterator imm) es []) as Hnew by (split_and!; [done|constructor|by left]).
  by apply (at_first (IteratorSpec := MemTableIterator_spec (W := unit)) _ _ _ tt Hnew I).
Qed.

(** Up to the closing of the builder a flush is [write_table]. *)
Lemma build_flush_eq number smallest imm es d e :
  mem_ok imm es ->
  exists dropped, build_flush number smallest imm d e =
    (let table_path := TablePath (db_path d) number in
     let '(s, b, w) := write_table table_path (db_options d) (survivors smallest false es) (e_world e) in
     let '(b', w) := if Status.ok s then (b, w) else Abandon b w in
     let '(_, w) := destroy_TableBuilder b' w in
     let e := mkEnv w (e_cache e) (e_stats e) in
     if Status.ok s then
       '(s, t, e) ← Table_Open table_path (db_options d) number e;
       Some (s, option_map (fun t => (meta_of number b t, dropped)) t, e)
     else Some (s, None, e)).
Proof.
  intros Hok. unfold build_flush, write_table. destruct (TableBuilder_Open _ _ _) as [[s b] w].
  destruct (Status.ok s) eqn:Hs; [|exists 0; by rewrite Hs].
  destruct (flush_loop_eq (S (Z.to_nat (NumEntries imm))) smallest (mi_SeekToFirst (new_MemIterator imm)) es es new_GcState b 0 w
    (mem_first imm es Hok)) as [dropped ->]; [rewrite (mem_size _ _ Hok); lia|].
  exists dropped. fold (survivors smallest false es). by destruct (add_entries _ b w) as [[s1 b1] w1].
Qed.

(** What building leaves behind, whatever the system calls do. *)
Lemma build_flush_spec number smallest imm es d e :
  let path := TablePath (db_path d) number in
  mem_ok imm es -> es <> [] -> smallest < kMaxSequenceNumber -> 0 <= number < 2 ^ 64 -> writable (db_options d) es ->
  exists s built e', build_flush number smallest imm d e = Some (s, built, e') /\
    touches path (e_world e) (e_world e') /\ e_cache e' = e_cache e /\
    (w_oracle (e_world e) = [] -> s = Status.OK) /\
    match built with
    | None => Status.ok s = false
    | Some (f, _) =>
        exists bs, number = Levels.number f /\ stored (db_path d) (db_options d) (w_files (e_world e')) f /\
          forall truth, truth_of truth number bs -> file_ok truth f (survivors smallest false es)
    end.
Proof.
  intros path Hok Hne Hsm Hn Hwr. destruct (build_flush_eq number smallest imm es d e Hok) as [dropped ->].
  fold path. cbv zeta. set (keep := survivors smallest false es).
  assert (sublist keep es) as Hsub by apply gc_filter_sublist.
  assert (writable (db_options d) keep) as Hwk by (by eapply writable_sub; [apply sublist_submseteq|]).
  assert (sorted keep) as Hsk by (eapply sublist_StronglySorted; [exact Hsub|apply Hok]).
  assert (entries_typed keep) as Htk by (eapply sublist_Forall; [exact Hsub|apply Hok]).
  assert (keep <> []) as Hkne by (by apply survivors_nonempty).
  pose proof (write_table_path path (db_options d) keep (e_world e)) as Hp.
  destruct (write_table path (db_options d) keep (e_world e)) as [[s b] w] eqn:E. simpl in Hp.
  destruct (write_table_spec _ _ _ _ _ _ _ Hwk E) as (T & O & F). destruct (Status.ok s) eqn:Hs.
  - destruct (F eq_refl) as (bs & Hfin). rewrite destroy_closed by apply Hfin.
    pose proof (finished_table_file _ _ _ _ _ _ Hfin Hwk Hsk) as Htf.
    destruct (Table_Open_any path (db_options d) number bs _ (mkEnv w (e_cache e) (e_stats e)) (fin_file _ _ _ _ _ _ Hfin) Htf)
      as (s' & t & e' & -> & Hr & Hc & Ht). cbn [mbind option_bind].
    do 3 eexists. split; [done|]. destruct Hr as [R1 R2 R3]. simpl in R1, R2, R3. split_and!; [|done| |].
    + destruct T as [T1 T2]. split; [|auto]. intros p Hpp. rewrite R1. by apply T1.
    + intros Ho. by apply Hc, T.
    + destruct (Status.ok s') eqn:Hs'; [|by rewrite Ht]. destruct Ht as [_ ->]. simpl. exists bs. split_and!; [done| |].
      * rewrite R1. by apply (built_file (db_path d) (db_options d) (add_file (fun _ => None) number bs) number b w keep bs);
          try done; apply add_file_truth_of.
      * intros truth Htr. by apply (built_file (db_path d) (db_options d) truth number b w keep bs).
  - destruct (Abandon_spec path b w Hp) as [Ta Hcl]. destruct (Abandon b w) as [b' w'] eqn:Ea. simpl in Ta, Hcl.
    rewrite destroy_closed by done. do 3 eexists. split_and!; [done|by etrans|done| |done].
    intros Ho. rewrite (O Ho) in Hs. done.
Qed.

(** ** Installing the new file *)

(** The sources once the immutable memtable is a file. *)
Definition flushed (d : DB) (c : contents) : contents :=
  match c_imm c with
  | Some es => mkContents (c_mem c) None (kept d es :: c_l0 c) (c_deep c)
  | None => c
  end.

Lemma flushed_shrinks d c : everything (flushed d c) ⊆+ everything c.
Proof.
  unfold flushed. destruct (c_imm c) as [es|] eqn:E; [|done]. unfold everything, all_sources. simpl. rewrite E. simpl.
  apply submseteq_app; [done|]. apply submseteq_app; [|done]. apply sublist_submseteq, gc_filter_sublist.
Qed.

Lemma flushed_layered d c : layered (all_sources c) -> layered (all_sources (flushed d c)).
Proof.
  unfold flushed. destruct (c_imm c) as [es|] eqn:E; [|done]. apply layered_shrink. unfold all_sources. simpl. rewrite E.
  constructor; [done|]. constructor; [intros x; apply sublist_mem, gc_filter_sublist|]. by apply Forall_Forall2_diag, Forall_true.
Qed.

Lemma levels_l0 v : length (levels v) = kNumLevels -> exists ls, levels v = level_files v 0 :: ls /\ tail (levels v) = ls.
Proof. unfold level_files. destruct (levels v) as [|l0 ls]; [done|]. simpl. eauto. Qed.

(** A version with a new file in front of level 0. *)
Lemma add_l0_ok truth f keep v l0 deep :
  version_ok truth v l0 deep -> file_ok truth f keep -> version_ok truth (add_l0 f v) (keep :: l0) deep.
Proof.
  intros [Hlen H0 Hd] Hf. destruct (levels_l0 v Hlen) as (ls & Hl & Ht). rewrite Ht in Hd.
  unfold add_l0. rewrite Hl. split; simpl; [by rewrite Hl in Hlen|constructor; done|done].
Qed.

Lemma add_l0_concat f v : length (levels v) = kNumLevels -> concat (levels (add_l0 f v)) = f :: concat (levels v).
Proof. intros Hlen. destruct (levels_l0 v Hlen) as (ls & Hl & _). unfold add_l0. by rewrite Hl. Qed.

Lemma add_l0_describable dir o fs fs' f v next :
  describable dir o fs v -> Forall (fun n => n < next) (live_tables v) -> NoDup (live_tables v) ->
  number f = next -> 0 <= next < 2 ^ 32 - 1 -> stored dir o fs' f ->
  (forall p, p <> TablePath dir next -> fs' !! p = fs !! p) -> describable dir o fs' (add_l0 f v).
Proof.
  intros [Hlen Hst Hc [H0 Hd]] Hn Hnd Hf Hnext Hsf Hfr. pose proof (add_l0_concat f v Hlen) as Hcc.
  destruct (levels_l0 v Hlen) as (ls & Hl & Ht).
  assert (Forall (fun g => 0 <= number g < next) (concat (levels v))) as Hnum.
  { unfold live_tables in Hn. rewrite Forall_map in Hn. rewrite Forall_forall in *. intros g Hg. split; [|by apply Hn].
    by apply Hst. }
  assert (size (concat (levels v)) <= Z.max 0 next) as Hsz.
  { unfold size. rewrite <- (length_map number). apply (numbers_bound (live_tables v)); [done|]. by apply Forall_map. }
  split; [unfold add_l0; simpl; by rewrite length_alter|rewrite Hcc|rewrite Hcc, size_cons; lia|].
  - constructor; [done|]. rewrite Forall_forall in *. intros g Hg. eapply stored_frame; [by apply Hst|]. apply Hfr.
    specialize (Hnum g Hg). intros Heq. apply TablePath_inj in Heq; lia.
  - split; unfold add_l0; rewrite Hl; simpl; [|by rewrite Ht in Hd]. constructor; [done|].
    rewrite Forall_forall in *. intros g Hg. rewrite Hf. apply Hnum. rewrite Hl. set_solver.
Qed.

Lemma flushed_core truth floor c d e es f bs e1 s d' e' :
  db_core truth floor c d e -> c_imm c = Some es -> number f = db_next_file_number d -> db_next_file_number d < 2 ^ 32 - 1 ->
  touches (TablePath (db_path d) (number f)) (e_world e) (e_world e1) -> e_cache e1 = e_cache e ->
  stored (db_path d) (db_options d) (w_files (e_world e1)) f ->
  (forall truth, truth_of truth (number f) bs -> file_ok truth f (kept d es)) ->
  CommitVersion (add_l0 f (db_current d))
    (with_imm_log_number 0 (with_imm None (with_next_file_number (u64 (db_next_file_number d + 1)) d))) e1 = (s, d', e') ->
  db_core (add_file truth (number f) bs) floor (flushed d c) d' e'.
Proof.
  intros H Hc Hf Hnext [T1 T2] Hca Hst Hfo Hcv. destruct (CommitVersion_spec _ _ _ _ _ _ Hcv) as (-> & Hca' & Hcm).
  cbn [db_path with_imm_log_number with_imm with_next_file_number] in Hcm.
  pose proof (ok_next _ _ _ _ _ H) as Hn0. pose proof (ok_truth _ _ _ _ _ H) as Htr.
  assert (truth_le truth (add_file truth (number f) bs)) as Hle by (apply add_file_le, Htr; lia).
  destruct (everything_shrink c (flushed d c) (db_options d) (db_last_sequence d) floor (flushed_shrinks d c))
    as (Hag & Hsq & Hdu & Hro); [apply H..|].
  assert (describable (db_path d) (db_options d) (w_files (e_world e1)) (add_l0 f (db_current d))) as Hde.
  { eapply add_l0_describable; [apply H|apply H|apply H|done|lia|done|]. rewrite <- Hf. exact T1. }
  assert (live_tables (add_l0 f (db_current d)) = number f :: live_tables (db_current d)) as Hlv.
  { unfold live_tables. by rewrite add_l0_concat by apply (ok_files _ _ _ _ _ H). }
  split; cbn [db_mem db_imm db_current db_options db_path db_last_sequence db_snapshots db_next_file_number
    with_current with_imm_log_number with_imm with_next_file_number]; try done; try apply H.
  - unfold flushed. rewrite Hc. apply H.
  - unfold flushed. rewrite Hc. constructor.
  - unfold flushed. by rewrite Hc.
  - unfold flushed. rewrite Hc. apply add_l0_ok; [|apply Hfo, add_file_truth_of]. eapply version_ok_truth; [exact Hle|apply H].
  - by eapply committed_describable.
  - rewrite Hlv, u64_id by lia. constructor; [lia|]. eapply Forall_impl; [apply H|]. intros n Hn. simpl in Hn. lia.
  - rewrite Hlv. apply NoDup_cons. split; [|apply H]. intros Hin. pose proof (ok_numbers _ _ _ _ _ H) as Hn.
    rewrite Forall_forall in Hn. specialize (Hn _ Hin). lia.
  - rewrite u64_id by lia. lia.
  - rewrite u64_id by lia. intros n Hn. apply add_file_fresh; [apply Htr; lia|lia].
  - unfold cache_good. rewrite Hca', Hca. pose proof (ok_cache _ _ _ _ _ H) as Hcg. unfold cache_good in Hcg.
    destruct (e_cache e) as [bc|]; [|done]. destruct Hcg as [Hci Hco]. split; [done|]. intros k v Hk. by apply Hle, Hco.
Qed.

(** A number taken and a file written under it that no version names. *)
Lemma number_taken truth floor c d e e1 :
  db_core truth floor c d e -> db_next_file_number d < 2 ^ 32 - 1 ->
  touches (TablePath (db_path d) (db_next_file_number d)) (e_world e) (e_world e1) -> e_cache e1 = e_cache e ->
  db_core truth floor c (with_next_file_number (u64 (db_next_file_number d + 1)) d) e1.
Proof.
  intros H Hnext [T _] Hca. pose proof (ok_next _ _ _ _ _ H) as Hn0.
  split; cbn [db_mem db_imm db_current db_options db_path db_last_sequence db_snapshots db_next_file_number
    with_next_file_number]; try apply H; rewrite ?u64_id by lia.
  - eapply describable_frame; [apply H|]. intros f Hf. apply T. intros Heq.
    pose proof (ok_numbers _ _ _ _ _ H) as Hn. unfold live_tables in Hn. rewrite Forall_map, Forall_forall in Hn.
    pose proof (de_stored _ _ _ _ (ok_files _ _ _ _ _ H)) as Hs. rewrite Forall_forall in Hs.
    specialize (Hn f Hf). simpl in Hn. apply TablePath_inj in Heq; [lia|by apply Hs|lia].
  - eapply Forall_impl; [apply H|]. intros n Hn. simpl in *. lia.
  - lia.
  - intros n Hn. apply (ok_truth _ _ _ _ _ H). lia.
  - unfold cache_good. rewrite Hca. apply H.
Qed.

(** What a flush leaves alone. *)
Record same_session (d d' : DB) : Prop := {
  ss_options : db_options d' = db_options d;
  ss_path : db_path d' = db_path d;
  ss_mem : db_mem d' = db_mem d;
  ss_snapshots : db_snapshots d' = db_snapshots d;
  ss_last : db_last_sequence d' = db_last_sequence d;
  ss_log : db_log d' = db_log d;
  ss_log_number : db_log_number d' = db_log_number d
}.

Lemma Flush_core truth floor c d e :
  db_core truth floor c d e -> db_next_file_number d < 2 ^ 32 - 1 ->
  exists s d' e' truth' c', FlushImmutableMemTable d e = Some (s, d', e') /\
    db_core truth' floor c' d' e' /\ same_session d d' /\
    (c' = c /\ only_new d d' (e_world e) (e_world e') /\ db_current d' = db_current d \/ c' = flushed d c /\ db_imm d' = None) /\
    (Status.ok s = true -> c' = flushed d c /\ db_imm d' = None /\ db_bg_error d' = db_bg_error d) /\
    (Status.ok s = false -> db_bg_error d' = s) /\
    (w_oracle (e_world e) = [] -> s = Status.OK /\ w_oracle (e_world e') = []) /\
    db_next_file_number d <= db_next_file_number d' <= db_next_file_number d + 1 /\
    disk_outcome c d (e_world e) s c' d' (e_world e').
Proof.
  intros H Hnext. unfold FlushImmutableMemTable. pose proof (ok_imm _ _ _ _ _ H) as Hi.
  inversion Hi as [imm es Him E1 E2|E1 E2].
  2:{ do 3 eexists. exists truth, c. split; [done|]. split_and!; [done|by split|left; by split_and!| |done|done|lia|lia|by constructor].
      intros _. unfold flushed. by rewrite <- E2. }
  pose proof (ok_next _ _ _ _ _ H) as Hn0.
  assert (db_next_file_number d <= u64 (db_next_file_number d + 1) <= db_next_file_number d + 1) as [Hu1 Hu2] by (rewrite u64_id by lia; lia). destruct (ok_smallest _ _ _ _ _ H) as [_ Hsm].
  assert (writable (db_options d) es) as Hwr.
  { eapply writable_sub; [|apply H]. unfold everything, all_sources. rewrite <- E2. simpl.
    apply submseteq_inserts_l, submseteq_inserts_r. done. }
  set (d1 := with_next_file_number _ d).
  destruct (build_flush_spec (db_next_file_number d) (SmallestSnapshot d1) imm es d1 e Him) as (s & built & e1 & -> & T & Hca & O & B);
    [intros ->; by apply (ok_imm_some _ _ _ _ _ H)|done|lia|done|]. cbn [mbind option_bind].
  pose proof (number_taken truth floor c d e e1 H Hnext T Hca) as Hfail. fold d1 in Hfail.
  assert (only_new d d1 (e_world e) (e_world e1)) as Hnew.
  { intros p Hp. apply T, Hp. unfold d1. cbn [db_next_file_number with_next_file_number]. rewrite u64_id by lia. lia. }
  destruct built as [[f dropped]|].
  2:{ do 3 eexists. exists truth, c. split; [done|]. split_and!; [by destruct Hfail|by split|left; by split_and!|congruence|done| |done|done|].
      { intros Ho. rewrite (O Ho) in B. done. } by constructor. }
  destruct B as (bs & Hnf & Hst & Hfo). change (SmallestSnapshot d1) with (SmallestSnapshot d) in Hfo.
  destruct (CommitVersion _ _ e1) as [[s2 d2] e2] eqn:Hcv.
  assert (db_core (add_file truth (number f) bs) floor (flushed d c) d2 e2) as Hok.
  { eapply (flushed_core truth floor c d e es f bs e1 s2 d2 e2 H); try done; by rewrite <- ?Hnf. }
  destruct (CommitVersion_spec _ _ _ _ _ _ Hcv) as (-> & _ & Hcm). destruct (Status.ok s2) eqn:Hs2; cbn [negb].
  - do 3 eexists. exists (add_file truth (number f) bs), (flushed d c). split; [done|].
    split_and!; [by destruct Hok|by split|by right|done|done| |done|done|apply (disk_commit _ _ _ _ _ _ _ (e_world e1) s2); [exact Hnew|by rewrite Hs2|exact Hcm|by left]]. intros Ho. split; [done|]. by apply (cm_calm _ _ _ _ _ _ _ _ Hcm), T.
  - do 3 eexists. exists (add_file truth (number f) bs), (flushed d c). split; [done|].
    split_and!; [by destruct Hok|by split|by right|congruence|done| |done|done|apply (disk_commit _ _ _ _ _ _ _ (e_world e1) s2); [exact Hnew|by rewrite Hs2|exact Hcm|by left]]. intros Ho. by apply (cm_calm _ _ _ _ _ _ _ _ Hcm), T.
Qed.

Lemma Flush_spec truth floor c d e :
  db_ok truth floor c d e -> db_next_file_number d < 2 ^ 32 - 1 ->
  exists s d' e' truth' c', FlushImmutableMemTable d e = Some (s, d', e') /\
    db_ok truth' floor c' d' e' /\ same_session d d' /\ (c' = c \/ c' = flushed d c) /\
    (Status.ok s = true -> c' = flushed d c /\ db_imm d' = None /\ db_bg_error d' = db_bg_error d) /\
    (Status.ok s = false -> db_bg_error d' = s) /\
    (w_oracle (e_world e) = [] -> s = Status.OK /\ w_oracle (e_world e') = []) /\
    db_next_file_number d <= db_next_file_number d' <= db_next_file_number d + 1 /\
    disk_outcome c d (e_world e) s c' d' (e_world e').
Proof.
  intros [H Hl] Hnext. destruct (Flush_core truth floor c d e H Hnext) as (s & d' & e' & truth' & c' & E & Hok & Hss & Hc & Hr).
  exists s, d', e', truth', c'. assert (c' = c \/ c' = flushed d c) as Hc' by (destruct Hc as [[? _]|[? _]]; auto).
  split; [done|]. split; [split; [done|]|split; [exact Hss|by split]].
  destruct Hc' as [->| ->]; [done|by apply flushed_layered].
Qed.

(** No read at or above the smallest snapshot changes. *)
Lemma flushed_reads truth floor c d e key seq :
  db_core truth floor c d e -> SmallestSnapshot d <= seq ->
  read (everything (flushed d c)) key seq = read (everything c) key seq.
Proof.
  intros H Hseq. unfold flushed. destruct (c_imm c) as [es|] eqn:E; [|done].
  pose proof (ok_agree _ _ _ _ _ H) as Hag. pose proof (ok_typed _ _ _ _ _ H) as Hty.
  destruct (ok_smallest _ _ _ _ _ H) as [_ Hsm].
  assert (StronglySorted entry_le es) as Hs.
  { pose proof (ok_imm _ _ _ _ _ H) as Hi. rewrite E in Hi. inversion Hi as [m x Hm|]; subst.
    apply sorted_le, Hm. }
  unfold everything, all_sources in *. rewrite E in *. simpl in *.
  set (rest := concat (sources (c_l0 c) (c_deep c))) in *.
  pose proof (gc_filter_sublist (SmallestSnapshot d) false es new_GcState) as Hsub.
  destruct (replace_reads (SmallestSnapshot d) false es (c_mem c ++ rest) key seq Hsm Hseq Hs ltac:(done)) as [_ Hr].
  specialize (Hr eq_refl). unfold kept. change (concat (c_l0 c ++ map (@concat entry) (c_deep c))) with rest.
  rewrite (read_members (c_mem c ++ es ++ rest) ((c_mem c ++ rest) ++ es)); [|done|done|set_solver].
  rewrite <- Hr. apply read_members; [| |set_solver].
  - eapply agree_subset; [|exact Hag]. intros x. rewrite !elem_of_app. pose proof (sublist_mem x _ _ Hsub). tauto.
  - eapply typed_subset; [|exact Hty]. intros x. rewrite !elem_of_app. pose proof (sublist_mem x _ _ Hsub). tauto.
Qed.

(** C7: A flush is invisible. Whatever the system calls do, flushing the
    immutable memtable leaves a consistent database in which every read at or
    above the smallest snapshot answers as before; a failure is recorded, and
    nothing fails when no call does: then the memtable is gone. *)
Theorem flush_transparent truth floor c d e :
  db_ok truth floor c d e -> db_next_file_number d < 2 ^ 32 - 1 ->
  exists s d' e' truth' c', FlushImmutableMemTable d e = Some (s, d', e') /\
    db_ok truth' floor c' d' e' /\
    (forall key seq, SmallestSnapshot d <= seq -> read (everything c') key seq = read (everything c) key seq) /\
    (Status.ok s = true -> db_imm d' = None) /\ (Status.ok s = false -> db_bg_error d' = s) /\
    (w_oracle (e_world e) = [] -> s = Status.OK).
Proof.
  intros H Hnext. destruct (Flush_spec truth floor c d e H Hnext) as (s & d' & e' & truth' & c' & E & Hok & _ & Hc & H1 & H2 & H3 & _ & _).
  exists s, d', e', truth', c'. split_and!; [done|done| |by intros ?; apply H1|done|by intros ?; apply H3].
  intros key seq Hseq. destruct Hc as [->| ->]; [done|]. eapply (flushed_reads truth floor c d e); [apply H|done].
Qed.

End Flush.

Lemma flush_transparent_witness :
  exists d' e', FlushImmutableMemTable (small_db default_Options) small_env = Some (Status.OK, d', e') /\ db_imm d' = None.
Proof.
  destruct (flush_transparent (fun _ => None) 0 small_contents (small_db default_Options) small_env)
    as (s & d' & e' & truth' & c' & E & _ & _ & H1 & _ & H2); [apply small_db_ok, small_writable; reflexivity|reflexivity|].
  exists d', e'. rewrite E, (H2 eq_refl). split; [reflexivity|]. apply H1. rewrite (H2 eq_refl). reflexivity.
Defined.
