(* ===== verification/Compaction.v ===== *)
(** * Compaction (src/db.cpp: [PickCompactionLevel], [DoCompaction])

    A compaction merges files of one level with the files of the next level that
    overlap them, drops the versions nobody can see, writes the rest to new files
    of the next level, and commits. Whatever the system calls do, the database
    stays consistent, the files of a level stay disjoint, and no read at or above
    the smallest snapshot changes. *)

From Stdlib Require Import SpecFloat.
From stdpp Require Import gmap strings sorting.
From S2P Require Import Prelude Coding InternalKey Posix Versions Bloom Iterator Skiplist MemTable Cache Block Merge DbIter Options Sstable Table Levels ReadPath Gc FileNames Manifest Db Flush.

(** ** Which level *)

(** [static_cast<double>] of an unsigned integer. *)
Definition to_double (x : Z) : spec_float := binary_normalize 53 1024 x 0 false.

(** The loop over the levels, from [level] on: the best level and its score. *)
Fixpoint best_level (options : Options) (v : Version) (levels_left : nat) (level best : Z) (best_score : spec_float) : Z :=
  match levels_left with
  | O => best
  | S n =>
      let score := SFdiv 53 1024 (to_double (LevelBytes v (Z.to_nat level))) (to_double (MaxBytesForLevel options level)) in
      if SFltb best_score score then best_level options v n (level + 1) level score
      else best_level options v n (level + 1) best best_score
  end.

(** -1 when no level needs it. *)
Definition PickCompactionLevel (options : Options) (v : Version) : Z :=
  if u64 (l0_compaction_trigger options) <=? size (level_files v 0) then 0
  else best_level options v (kNumLevels - 2) 1 (-1) (to_double 1).

Section Compaction.
Context {R : Type}.
Abbreviation DB := (@DB R).
Abbreviation db_ok := (@db_ok R).

(** ** Inputs *)

(** Round robin: the first file after the pointer, else the first file. *)
Definition choose (pointer : bytes) (files : list FileMetaData) : option FileMetaData :=
  match List.find (fun f => bool_decide (pointer = []) || (0 <? CompareInternalKey (largest f) pointer)) files with
  | Some f => Some f
  | None => head files
  end.

(** [inputs0] and the database with the pointer moved. *)
Definition pick_inputs (level : nat) (d : DB) : list FileMetaData * DB :=
  match level with
  | O => (level_files (db_current d) 0, d)
  | _ =>
      match choose (default [] (db_compact_pointer d !! level)) (level_files (db_current d) level) with
      | None => ([], d)
      | Some f => ([f], with_compact_pointer (<[level := largest f]> (db_compact_pointer d)) d)
      end
  end.

Definition widen (range : bytes * bytes) (f : FileMetaData) : bytes * bytes :=
  let s := ExtractUserKey (smallest f) in
  let l := ExtractUserKey (largest f) in
  (if sv_compare s range.1 <? 0 then s else range.1, if 0 <? sv_compare l range.2 then l else range.2).

(** The user keys between the smallest and the largest of the inputs. *)
Definition user_range (inputs0 : list FileMetaData) : bytes * bytes :=
  match inputs0 with
  | [] => ([], [])
  | f :: _ => fold_left widen inputs0 (ExtractUserKey (smallest f), ExtractUserKey (largest f))
  end.

Definition overlapping (range : bytes * bytes) (files : list FileMetaData) : list FileMetaData :=
  List.filter (fun f => RangesOverlap f range.1 range.2) files.

Definition bottom_most (level : nat) (v : Version) : bool :=
  forallb (fun files => bool_decide (files = [])) (drop (level + 2) (levels v)).

Definition sum_sizes (files : list FileMetaData) (start : Z) : Z :=
  fold_left (fun n f => u64 (n + file_size f)) files start.

(** ** Outputs *)

Record Output := mkOutput {
  out_builder : option (TableBuilder * Z);   (** the open file and its number *)
  out_files : list FileMetaData;
  out_bytes : Z
}.

Definition new_Output : Output := mkOutput None [] 0.
Definition with_builder (b : TableBuilder) (n : Z) (o : Output) : Output := mkOutput (Some (b, n)) (out_files o) (out_bytes o).
Definition with_world (w : World) (e : Env) : Env := mkEnv w (e_cache e) (e_stats e).

Section Loop.
Context (path : string) (options : Options) (smallest_snapshot : Z) (bottom : bool).

Definition finish_output (o : Output) (e : Env) : option (Status * Output * Env) :=
  match out_builder o with
  | None => Some (Status.OK, o, e)
  | Some (b, n) =>
      let '(s, b, w) := TableBuilder_Finish b (e_world e) in
      if negb (Status.ok s) then
        let '(b, w) := Abandon b w in Some (s, with_builder b n o, with_world w e)
      else
        '(s, t, e) ← Table_Open (TablePath path n) options n (with_world w e);
        match t with
        | None => Some (s, with_builder b n o, e)
        | Some t =>
            let f := meta_of n b t in
            Some (Status.OK, mkOutput None (out_files o ++ [f]) (u64 (out_bytes o + file_size f)), e)
        end
  end.

(** Cut at a user key boundary once the file is large enough. *)
Definition maybe_cut (is_new_key : bool) (o : Output) (e : Env) : option (Status * Output * Env) :=
  match out_builder o with
  | Some (b, _) =>
      if is_new_key && (target_file_size options <=? file_size_ b) then finish_output o e else Some (Status.OK, o, e)
  | None => Some (Status.OK, o, e)
  end.

(** The open builder, after starting a new file if there is none; with the next
    file number. *)
Definition ensure_builder (o : Output) (next : Z) (w : World) : Status * TableBuilder * Z * Z * World :=
  match out_builder o with
  | Some (b, n) => (Status.OK, b, n, next, w)
  | None =>
      let '(s, b, w) := TableBuilder_Open (TablePath path next) (new_TableBuilder options) w in
      (s, b, next, u64 (next + 1), w)
  end.

(** A version that is kept. *)
Definition emit (is_new_key : bool) (ikey value : bytes) (o : Output) (next : Z) (e : Env)
  : option (Status * Output * Z * Env) :=
  '(s, o, e) ← maybe_cut is_new_key o e;
  if negb (Status.ok s) then Some (s, o, next, e)
  else
    let '(s, b, n, next, w) := ensure_builder o next (e_world e) in
    if negb (Status.ok s) then Some (s, with_builder b n o, next, with_world w e)
    else
      let '(s, b, w) := Add ikey value b w in
      Some (s, with_builder b n o, next, with_world w e).

(** The merge loop: the status at a break, the merge, the outputs and the next
    file number. *)
Fixpoint compact_loop (fuel : nat) (it : @MergingIterator TableIterator) (g : GcState) (o : Output) (next : Z) (e : Env)
  : option (Status * @MergingIterator TableIterator * Output * Z * Env) :=
  match fuel with
  | O => Some (Status.OK, it, o, next, e)
  | S fuel =>
      if negb (Iterator.Valid it) then Some (Status.OK, it, o, next, e)
      else
        let v := (Iterator.key it, Iterator.value it) in
        let new_key := is_new_key g v in
        let '(hidden_from_everyone, g) := gc_visit smallest_snapshot g v in
        if hidden_from_everyone || droppable_tombstone smallest_snapshot bottom v then
          let '(it, e) := Iterator.Next it e in compact_loop fuel it g o next e
        else
          '(s, o, next, e) ← emit new_key v.1 v.2 o next e;
          if negb (Status.ok s) then Some (s, it, o, next, e)
          else
            let '(it, e) := Iterator.Next it e in compact_loop fuel it g o next e
  end.

(** A turn per entry; there are fewer entries than bytes. *)
Definition merge_fuel (inputs : list FileMetaData) : nat :=
  S (sum_list (map (fun f => length (t_fd (table f))) inputs)).

(** From the first entry to the last file. An iterator that left its buffers has
    no defined continuation. *)
Definition run_compaction (inputs : list FileMetaData) (next : Z) (e : Env)
  : option (Status * Output * Z * Env) :=
  let '(it, e) := Iterator.SeekToFirst (NewMergingIterator (map (fun f => new_TableIterator (table f)) inputs)) e in
  '(s, it, o, next, e) ← compact_loop (merge_fuel inputs) it new_GcState new_Output next e;
  if existsb it_undefined (children_ it) then None
  else
    let s := if Status.ok s then Iterator.status it else s in
    if Status.ok s then
      '(s, o, e) ← finish_output o e;
      Some (s, o, next, e)
    else Some (s, o, next, e).

End Loop.

(** ** Installing *)

Definition install (level : nat) (removed : list FileMetaData) (outputs : list FileMetaData) (v : Version) : Version :=
  let erase := List.filter (fun f => negb (bool_decide (number f ∈ map number removed))) in
  let ls := alter erase (S level) (alter erase level (levels v)) in
  mkVersion (alter (fun files =>
    sort_by (fun a b => CompareInternalKey (smallest a) (smallest b) <? 0) (files ++ outputs)) (S level) ls).

(** [builder->Abandon()] and its destruction. *)
Definition abandon_output (o : Output) (w : World) : World :=
  match out_builder o with
  | None => w
  | Some (b, _) => let '(b, w) := Abandon b w in (destroy_TableBuilder b w).2
  end.

Definition DoCompaction (level : nat) (d : DB) (e : Env) : option (Status * DB * Env) :=
  let base := db_current d in
  let '(inputs0, d) := pick_inputs level d in
  match inputs0 with
  | [] => Some (Status.OK, d, e)
  | _ =>
      let inputs1 := overlapping (user_range inputs0) (level_files base (S level)) in
      let inputs := inputs0 ++ inputs1 in
      let input_bytes := sum_sizes inputs1 (sum_sizes inputs0 0) in
      '(s, o, next, e) ← run_compaction (db_path d) (db_options d) (SmallestSnapshot d) (bottom_most level base)
        inputs (db_next_file_number d) e;
      let d := with_next_file_number next d in
      if negb (Status.ok s) then Some (s, with_bg_error s d, with_world (abandon_output o (e_world e)) e)
      else
        let version := install level inputs (out_files o) (db_current d) in
        let '(s, d, e) := CommitVersion version d e in
        if negb (Status.ok s) then Some (s, with_bg_error s d, e)
        else Some (Status.OK, with_db_stats (count_compaction input_bytes (out_bytes o) (db_stats d)) d, e)
  end.

(** ** The loop writes the survivors *)

Section LoopProof.
Context (path : string) (options : Options) (smallest_snapshot : Z) (bottom : bool).
Context (calm : bool) (truth0 : Key -> option bytes) (fs0 : gmap string bytes) (start limit : Z).
Hypothesis Hstart : 0 <= start.
Hypothesis Hlimit : limit < 2 ^ 32 - 1.

(** Only files with new numbers, up to [limit], have been touched. *)
Record work (truth : Key -> option bytes) (o : Output) (next : Z) (e : Env) : Prop := {
  wk_next : start <= next <= limit;
  wk_files : forall p, (forall n, start <= n < next -> p <> TablePath path n) -> w_files (e_world e) !! p = fs0 !! p;
  wk_builder : match out_builder o with
               | Some (b, n) => start <= n < next /\ (path_ b = TablePath path n \/ path_ b = ""%string)
               | None => True
               end;
  wk_le : truth_le truth0 truth;
  wk_fresh : forall n, next <= n -> truth_fresh truth n;
  wk_cache : cache_good truth e;
  wk_calm : calm = true -> w_oracle (e_world e) = []
}.

(** [outs] are finished, [cur] is in the open file. *)
Record loop_inv (truth : Key -> option bytes) (o : Output) (outs : list (list entry)) (cur : list entry) (next : Z) (e : Env)
  : Prop := {
  li_work : work truth o next e;
  li_files : Forall2 (fun f es => file_ok truth f es /\ stored path options (w_files (e_world e)) f /\
    start <= number f < next) (out_files o) outs;
  li_unique : NoDup (map number (out_files o));
  li_cur : match out_builder o with
           | Some (b, n) => cur <> [] /\ in_progress options (TablePath path n) b (e_world e) cur /\
                            ~ (n ∈ map number (out_files o)) /\ truth_fresh truth n
           | None => cur = []
           end;
  li_count : next - start <= size (concat outs ++ cur);
  li_separated : separated (outs ++ [cur])
}.

Lemma work_touch truth o o' next e w n :
  work truth o next e -> start <= n < next -> touches (TablePath path n) (e_world e) w ->
  match out_builder o' with
  | Some (b, n) => start <= n < next /\ (path_ b = TablePath path n \/ path_ b = ""%string)
  | None => True
  end -> work truth o' next (with_world w e).
Proof.
  intros [H1 H2 H3 H4 H5 H6 H7] Hn [T1 T2] Ho. split; try done; simpl; [|auto].
  intros p Hp. rewrite T1 by (by apply Hp). by apply H2.
Qed.

Lemma work_reads truth o next e e' : work truth o next e -> only_reads e e' -> work truth o next e'.
Proof.
  intros [H1 H2 H3 H4 H5 H6 H7] [R1 R2 R3]. split; try done; [by rewrite R1|unfold cache_good; by rewrite R2|auto].
Qed.

Lemma separated_snoc_nil ess : separated ess -> separated (ess ++ [[]]).
Proof.
  intros H i j a b x y Hij Ha Hb Hx Hy. apply lookup_app_Some in Hb as [Hb|[Hl Hb]].
  - apply (H i j a b x y Hij); [|done..]. rewrite lookup_app_l in Ha; [done|]. apply lookup_lt_Some in Hb. lia.
  - apply list_lookup_singleton_Some in Hb as [_ <-]. by apply elem_of_nil in Hy.
Qed.

Lemma finish_spec truth o outs cur next e :
  loop_inv truth o outs cur next e -> cur <> [] -> sorted cur -> entries_typed cur -> writable options cur ->
  exists s o' e', finish_output path options o e = Some (s, o', e') /\ (calm = true -> Status.ok s = true) /\
    (if Status.ok s then
      exists truth', truth_le truth truth' /\ loop_inv truth' o' (outs ++ [cur]) [] next e' /\ out_builder o' = None
    else work truth o' next e').
Proof.
  intros H Hne Hs Ht Hwr. pose proof (li_cur _ _ _ _ _ _ H) as Hc. pose proof (li_work _ _ _ _ _ _ H) as Hk.
  pose proof (wk_builder _ _ _ _ Hk) as Hb. unfold finish_output. destruct (out_builder o) as [[b n]|] eqn:Eb; [|done].
  destruct Hc as (_ & Hin & Hnew & Hfresh). destruct Hb as [Hn Hpb].
  pose proof (Finish_path b (e_world e)) as Hfp. destruct (TableBuilder_Finish b (e_world e)) as [[s b1] w1] eqn:E. simpl in Hfp.
  destruct (TableBuilder_Finish_spec _ _ _ _ _ _ _ _ Hin Hwr E) as (T & O & F).
  pose proof (wk_next _ _ _ _ Hk) as Hnx. pose proof (wk_calm _ _ _ _ Hk) as Hcalm.
  destruct (Status.ok s) eqn:Hst; cbn [negb].
  2:{ destruct (Abandon_spec (TablePath path n) b1 w1) as [Ta _]; [by rewrite Hfp|].
      pose proof (Abandon_path b1 w1) as Hap. destruct (Abandon b1 w1) as [b2 w2]. simpl in Ta, Hap.
      do 3 eexists. split_and!; [done|intros Hca; by rewrite (O (Hcalm Hca)) in Hst|]. rewrite Hst.
      eapply work_touch; [exact Hk|exact Hn|by etrans|]. simpl. split; [done|]. by rewrite Hap, Hfp. }
  destruct (F eq_refl) as (bs & Hfin). pose proof (finished_table_file _ _ _ _ _ _ Hfin Hwr Hs) as Htf.
  assert (work truth (with_builder b1 n o) next (with_world w1 e)) as Hk1.
  { eapply work_touch; [exact Hk|exact Hn|done|]. simpl. split; [done|]. by rewrite Hfp. }
  destruct (Table_Open_any (TablePath path n) options n bs _ (with_world w1 e) (fin_file _ _ _ _ _ _ Hfin) Htf)
    as (s2 & t & e2 & -> & Hr & Hcl & Hopen). cbn [mbind option_bind].
  pose proof (work_reads _ _ _ _ _ Hk1 Hr) as Hk2. destruct (Status.ok s2) eqn:Hst2.
  2:{ subst t. do 3 eexists. split_and!; [done| |by rewrite Hst2]. intros Hca. rewrite Hcl in Hst2; [done|]. by apply T, Hcalm. }
  destruct Hopen as [_ ->]. do 3 eexists. split_and!; [done|done|]. rewrite (eq_refl : Status.ok Status.OK = true).
  assert (truth_le truth (add_file truth n bs)) as Hle by (by apply add_file_le).
  exists (add_file truth n bs). split; [done|]. split; [|done].
  destruct (built_file path options (add_file truth n bs) n b1 w1 cur bs) as (_ & Hsto & Hfok);
    [done..|lia|apply add_file_truth_of|]. set (f := meta_of n b1 _) in *.
  assert (w_files (e_world e2) = w_files w1) as Hfs by apply Hr.
  split; cbn [out_builder out_files].
  - destruct Hk2 as [K1 K2 K3 K4 K5 K6 K7]. split; try done.
    + by etrans.
    + intros m Hm. apply add_file_fresh; [by apply K5|lia].
    + unfold cache_good in *. destruct (e_cache e2) as [bc|]; [|done]. destruct K6 as [Kc Kco]. split; [done|].
      intros k v Hkv. by apply Hle, Kco.
  - apply Forall2_app; [|constructor; [|constructor]].
    + pose proof (li_files _ _ _ _ _ _ H) as Hall. apply Forall2_same_length_lookup. split; [by eapply Forall2_length|].
      intros i g gs Hg Hgs. destruct (Forall2_lookup_lr _ _ _ _ _ _ Hall Hg Hgs) as (G1 & G2 & G3).
      split_and!; [by eapply file_ok_truth| |lia..]. eapply stored_frame; [exact G2|].
      assert (number g <> n) by (intros <-; apply Hnew, list_elem_of_fmap; exists g; split; [done|by eapply list_elem_of_lookup_2]).
      rewrite Hfs. apply T. intros Heq. apply TablePath_inj in Heq; [done|apply G2|lia].
    + split_and!; [done|by rewrite Hfs|simpl; lia..].
  - rewrite map_app. apply NoDup_app. split_and!; [apply H| |apply NoDup_singleton].
    intros x Hx Hx'. apply list_elem_of_singleton in Hx'. simpl in Hx'. by subst x.
  - done.
  - rewrite concat_app. simpl. rewrite !app_nil_r. apply H.
  - apply separated_snoc_nil, H.
Qed.

(** The open file grows by a version. *)
Lemma add_spec truth o outs cur b n next e v :
  work truth (with_builder b n o) next e ->
  Forall2 (fun f es => file_ok truth f es /\ stored path options (w_files (e_world e)) f /\ start <= number f < next)
    (out_files o) outs ->
  NoDup (map number (out_files o)) -> ~ (n ∈ map number (out_files o)) -> truth_fresh truth n ->
  in_progress options (TablePath path n) b (e_world e) cur -> writable options (cur ++ [v]) ->
  next - start <= size (concat outs ++ cur) + 1 -> separated (outs ++ [cur ++ [v]]) ->
  let '(s, b', w') := Add v.1 v.2 b (e_world e) in
  (calm = true -> Status.ok s = true) /\ work truth (with_builder b' n o) next (with_world w' e) /\
  (Status.ok s = true -> loop_inv truth (with_builder b' n o) outs (cur ++ [v]) next (with_world w' e)).
Proof.
  intros Hk Hf Hu Hnew Hfresh Hin Hwr Hc Hsep. pose proof (Add_path v.1 v.2 b (e_world e)) as Hap.
  destruct (Add v.1 v.2 b (e_world e)) as [[s b'] w'] eqn:E. simpl in Hap.
  pose proof (wk_builder _ _ _ _ Hk) as [Hn Hpb]. pose proof (wk_next _ _ _ _ Hk).
  assert (block_size_bytes options + weight v < 2 ^ 32) as Hv.
  { pose proof (wr_block _ _ Hwr) as Hb. rewrite Forall_forall in Hb. apply Hb. set_solver. }
  destruct (Add_spec options (TablePath path n) b (e_world e) cur v s b' w' Hin (wr_block_pos _ _ Hwr) Hv (wr_total _ _ Hwr) E)
    as (T & O & F).
  assert (work truth (with_builder b' n o) next (with_world w' e)) as Hk'.
  { eapply work_touch; [exact Hk|exact Hn|done|]. simpl. split; [done|]. by rewrite Hap. }
  split_and!; [intros Hca; by rewrite (O (wk_calm _ _ _ _ Hk Hca))|done|]. intros Hs. split; cbn [out_builder out_files with_builder]; try done.
  - apply Forall2_same_length_lookup. split; [by eapply Forall2_length|].
    intros i g gs Hg Hgs. destruct (Forall2_lookup_lr _ _ _ _ _ _ Hf Hg Hgs) as (G1 & G2 & G3).
    split_and!; [done| |lia..]. eapply stored_frame; [exact G2|].
    assert (number g <> n) by (intros <-; apply Hnew, list_elem_of_fmap; exists g; split; [done|by eapply list_elem_of_lookup_2]).
    apply T. intros Heq. apply TablePath_inj in Heq; [done|apply G2|lia].
  - split_and!; [by destruct cur|by apply F|done|done].
  - rewrite app_assoc, size_app. change (size [v]) with 1. lia.
Qed.

(** Starting a file. *)
Lemma start_file_spec truth o outs next e :
  loop_inv truth o outs [] next e -> out_builder o = None -> next < limit ->
  let '(s, b, w) := TableBuilder_Open (TablePath path next) (new_TableBuilder options) (e_world e) in
  (calm = true -> Status.ok s = true) /\ work truth (with_builder b next o) (next + 1) (with_world w e) /\
  (Status.ok s = true ->
    Forall2 (fun f es => file_ok truth f es /\ stored path options (w_files w) f /\ start <= number f < next + 1)
      (out_files o) outs /\
    ~ (next ∈ map number (out_files o)) /\ in_progress options (TablePath path next) b w []).
Proof.
  intros H Hb Hn. pose proof (li_work _ _ _ _ _ _ H) as [K1 K2 K3 K4 K5 K6 K7]. pose proof (li_files _ _ _ _ _ _ H) as Hf.
  pose proof (Open_path (TablePath path next) options (e_world e)) as Hop.
  destruct (TableBuilder_Open _ _ _) as [[s b] w] eqn:E. simpl in Hop.
  destruct (TableBuilder_Open_spec _ _ _ _ _ _ E) as (T & O & F).
  split_and!; [intros Hca; by rewrite (O (K7 Hca))| |].
  - split; cbn [out_builder with_builder e_world with_world]; try done; [lia| |split; [lia|done]| |].
    + intros p Hp. rewrite (proj1 T) by (apply Hp; lia). apply K2. intros m Hm. apply Hp. lia.
    + intros m Hm. apply K5. lia.
    + intros Hca. by apply T, K7.
  - intros Hs. split_and!; [| |by apply F].
    + eapply Forall2_impl; [exact Hf|]. intros g gs (G1 & G2 & G3). split_and!; [done| |lia..].
      eapply stored_frame; [exact G2|]. apply T. intros Heq. apply TablePath_inj in Heq; [lia|apply G2|lia].
    + intros Hin. apply list_elem_of_fmap in Hin as (g & Hg & Hin). apply list_elem_of_lookup in Hin as [i Hi].
      destruct (Forall2_lookup_l _ _ _ _ _ Hf Hi) as (gs & _ & _ & _ & G3). lia.
Qed.

Lemma separated_snoc outs cur v :
  separated (outs ++ [cur]) -> (forall x, x ∈ concat outs -> sv_compare (user_key x) (user_key v) < 0) ->
  separated (outs ++ [cur ++ [v]]).
Proof.
  intros H Hv i j a b x y Hij Ha Hb Hx Hy. apply lookup_app_Some in Hb as [Hb|[Hl Hb]].
  - assert (i < length outs)%nat by (apply lookup_lt_Some in Hb; lia). rewrite lookup_app_l in Ha by done.
    apply (H i j a b x y Hij); [by rewrite lookup_app_l|rewrite lookup_app_l; [done|by apply lookup_lt_Some in Hb]|done|done].
  - apply list_lookup_singleton_Some in Hb as [Hj <-]. assert (i < length outs)%nat by lia. rewrite lookup_app_l in Ha by done.
    apply elem_of_app in Hy as [Hy|Hy].
    + apply (H i j a cur x y Hij); [by rewrite lookup_app_l|rewrite lookup_app_r, Hj by done; done|done|done].
    + apply list_elem_of_singleton in Hy as ->. apply Hv, list_elem_of_In, in_concat. exists a.
      split; apply list_elem_of_In; [by eapply list_elem_of_lookup_2|done].
Qed.

Lemma maybe_cut_spec truth o outs cur next e new v :
  loop_inv truth o outs cur next e ->
  (new = true -> forall x, x ∈ cur -> sv_compare (user_key x) (user_key v) < 0) ->
  (forall x, x ∈ concat outs -> sv_compare (user_key x) (user_key v) < 0) ->
  sorted cur -> entries_typed cur -> writable options cur ->
  exists s o1 e1 truth', maybe_cut path options new o e = Some (s, o1, e1) /\ (calm = true -> Status.ok s = true) /\
    truth_le truth truth' /\ work truth' o1 next e1 /\
    (Status.ok s = true -> exists outs' cur', loop_inv truth' o1 outs' cur' next e1 /\
      concat outs' ++ cur' = concat outs ++ cur /\ (cur' = cur \/ cur' = []) /\
      (forall x, x ∈ concat outs' -> sv_compare (user_key x) (user_key v) < 0)).
Proof.
  intros H Hnew Hv Hs Ht Hwr. unfold maybe_cut.
  destruct (match out_builder o with Some (b, _) => new && (target_file_size options <=? file_size_ b) | None => false end) eqn:Ecut.
  - destruct (out_builder o) as [[b n]|] eqn:Eb; [|done]. rewrite Ecut. apply andb_true_iff in Ecut as [-> _].
    pose proof (li_cur _ _ _ _ _ _ H) as Hc. rewrite Eb in Hc. destruct Hc as (Hne & _).
    destruct (finish_spec truth o outs cur next e H Hne Hs Ht Hwr) as (s & o' & e' & -> & Hcl & Hres).
    destruct (Status.ok s) eqn:Hst; cycle 1.
    { do 3 eexists. exists truth. split_and!; [done|by rewrite Hst|done|done|congruence]. }
    destruct Hres as (truth' & Hle & Hinv & _). do 3 eexists. exists truth'. split_and!; [done|by rewrite Hst|done|by apply Hinv|].
    intros _. exists (outs ++ [cur]), []. split_and!; [done|rewrite concat_app; simpl; by rewrite !app_nil_r|by right|].
    intros x. rewrite concat_app. simpl. rewrite app_nil_r, elem_of_app. intros [?|?]; [by apply Hv|by apply Hnew].
  - exists Status.OK, o, e, truth. split_and!; [|done|done|apply H|].
    + destruct (out_builder o) as [[b n]|]; [by rewrite Ecut|done].
    + intros _. exists outs, cur. split_and!; [done|done|by left|done].
Qed.

Lemma emit_spec truth o outs cur next e new v :
  loop_inv truth o outs cur next e -> next < limit ->
  (new = true -> forall x, x ∈ cur -> sv_compare (user_key x) (user_key v) < 0) ->
  (forall x, x ∈ concat outs -> sv_compare (user_key x) (user_key v) < 0) ->
  sorted cur -> entries_typed cur -> writable options (cur ++ [v]) ->
  exists s o' next' e' truth', emit path options new v.1 v.2 o next e = Some (s, o', next', e') /\
    (calm = true -> Status.ok s = true) /\ truth_le truth truth' /\ next' <= next + 1 /\ work truth' o' next' e' /\
    (Status.ok s = true -> exists outs' cur', loop_inv truth' o' outs' cur' next' e' /\ cur' <> [] /\
      concat outs' ++ cur' = concat outs ++ cur ++ [v]).
Proof.
  intros H Hn Hnew Hv Hs Ht Hwr. unfold emit.
  destruct (maybe_cut_spec truth o outs cur next e new v H Hnew Hv Hs Ht) as (s & o1 & e1 & truth' & -> & Hca & Hle & Hk1 & Hok).
  { eapply writable_sub; [|exact Hwr]. by apply submseteq_inserts_r. }
  cbn [mbind option_bind]. destruct (Status.ok s) eqn:Hst; cbn [negb].
  2:{ do 4 eexists. exists truth'. split_and!; [done|by rewrite Hst|done|lia|done|congruence]. }
  destruct (Hok eq_refl) as (outs' & cur' & Hinv & Hcc & Hcur & Hv').
  assert (writable options (cur' ++ [v])) as Hwr'.
  { destruct Hcur as [->| ->]; [done|]. eapply writable_sub; [|exact Hwr]. by apply submseteq_inserts_l. }
  pose proof (separated_snoc _ _ v (li_separated _ _ _ _ _ _ Hinv) Hv') as Hsep.
  pose proof (li_cur _ _ _ _ _ _ Hinv) as Hc1. unfold ensure_builder. destruct (out_builder o1) as [[b n]|] eqn:Eb.
  - destruct Hc1 as (Hne & Hin & Hni & Hfr). rewrite (eq_refl : Status.ok Status.OK = true). cbn [negb].
    assert (o1 = with_builder b n o1) as Ho1 by (destruct o1; simpl in *; by subst).
    pose proof (add_spec truth' o1 outs' cur' b n next e1 v) as HA. rewrite <- Ho1 in HA.
    specialize (HA Hk1 (li_files _ _ _ _ _ _ Hinv) (li_unique _ _ _ _ _ _ Hinv) Hni Hfr Hin Hwr' ltac:(pose proof (li_count _ _ _ _ _ _ Hinv); lia) Hsep).
    destruct (Add v.1 v.2 b (e_world e1)) as [[s2 b2] w2]. destruct HA as (HA1 & HA2 & HA3).
    do 4 eexists. exists truth'. split_and!; [done|done|done|lia|done|]. intros Hs2. exists outs', (cur' ++ [v]).
    split_and!; [by apply HA3|by destruct cur'|]. by rewrite !app_assoc, Hcc.
  - subst cur'. pose proof (start_file_spec truth' o1 outs' next e1 Hinv Eb Hn) as HS.
    destruct (TableBuilder_Open _ _ _) as [[s2 b2] w2]. destruct HS as (HS1 & HS2 & HS3).
    pose proof (wk_next _ _ _ _ Hk1) as Hnx. rewrite u64_id by lia.
    destruct (Status.ok s2) eqn:Hs2; cbn [negb].
    2:{ do 4 eexists. exists truth'. split_and!; [done|by rewrite Hs2|done|lia|done|congruence]. }
    destruct (HS3 eq_refl) as (HF & Hni & Hin).
    pose proof (add_spec truth' o1 outs' [] b2 next (next + 1) (with_world w2 e1) v HS2 HF (li_unique _ _ _ _ _ _ Hinv) Hni
      (wk_fresh _ _ _ _ Hk1 next ltac:(lia)) Hin Hwr' ltac:(pose proof (li_count _ _ _ _ _ _ Hinv); lia) Hsep) as HA.
    cbn [e_world with_world] in HA. destruct (Add v.1 v.2 b2 w2) as [[s3 b3] w3]. destruct HA as (HA1 & HA2 & HA3).
    do 4 eexists. exists truth'. split_and!; [done|done|done|lia|done|]. intros Hs3. exists outs', [v].
    split_and!; [by apply HA3|done|]. rewrite app_nil_r in Hcc. by rewrite Hcc, <- app_assoc.
Qed.

(** ** The whole merge *)

(** Versions in key order that may be written. *)
Record mergeable (l : list entry) : Prop := {
  mg_sorted : StronglySorted entry_le l;
  mg_typed : entries_typed l;
  mg_once : NoDup (map fst (filter (fun e => smallest_snapshot < sequence e) l));
  mg_room : writable options l
}.

Lemma mergeable_sub l l' : sublist l l' -> mergeable l' -> mergeable l.
Proof.
  intros Hs [H1 H2 H3 H4]. split.
  - by eapply sublist_StronglySorted.
  - by eapply sublist_Forall.
  - apply sublist_submseteq, submseteq_Permutation in Hs as [k Hk]. rewrite Hk, filter_app in H3. by eapply NoDup_map_prefix.
  - by eapply writable_sub; [apply sublist_submseteq|].
Qed.

Hypothesis Hsmallest : smallest_snapshot < kMaxSequenceNumber.

Abbreviation keep := (gc_filter smallest_snapshot bottom new_GcState).
Abbreviation state := (gc_state smallest_snapshot new_GcState).
Abbreviation at_weak truth := (weakly (table_at truth) t_broken).

Lemma env_of_work truth o next e : work truth o next e -> env_any calm truth (w_files (e_world e)) e.
Proof. intros H. split; [done|apply H|apply H]. Qed.

Lemma work_env truth o next e e' : work truth o next e -> env_any calm truth (w_files (e_world e)) e' -> work truth o next e'.
Proof. intros [H1 H2 H3 H4 H5 H6 H7] [E1 E2 E3]. split; try done. by rewrite E1. Qed.

Lemma in_progress_files o p b w w' es : w_files w' = w_files w -> in_progress o p b w es -> in_progress o p b w' es.
Proof.
  intros Hw (bs & items & ridx & B & Hrest). exists bs, items, ridx. split; [|done]. destruct B. split; try done.
  unfold Posix.contents in *. by rewrite Hw.
Qed.

Lemma loop_env truth o outs cur next e e' :
  loop_inv truth o outs cur next e -> env_any calm truth (w_files (e_world e)) e' -> loop_inv truth o outs cur next e'.
Proof.
  intros [H1 H2 H3 H4 H5 H6] He. pose proof (any_files _ _ _ _ He) as Hf. split; try done; [by eapply work_env|by rewrite Hf|].
  destruct (out_builder o) as [[b n]|]; [|done]. destruct H4 as (? & ? & ? & ?). split_and!; try done.
  by eapply in_progress_files.
Qed.

(** What the loop knows of a version it keeps. *)
Lemma kept_facts outs cur seen v :
  mergeable (seen ++ [v]) -> concat outs ++ cur = keep seen -> (cur = [] -> outs = []) -> separated (outs ++ [cur]) ->
  keep (seen ++ [v]) = keep seen ++ [v] ->
  (is_new_key (state seen) v = true -> forall x, x ∈ cur -> sv_compare (user_key x) (user_key v) < 0) /\
  (forall x, x ∈ concat outs -> sv_compare (user_key x) (user_key v) < 0) /\
  sorted cur /\ entries_typed cur /\ writable options (cur ++ [v]).
Proof.
  intros Hg Hcc Hne Hsep Hkeep. pose proof (gc_filter_sublist smallest_snapshot bottom (seen ++ [v]) new_GcState) as Hsub.
  rewrite Hkeep, <- Hcc, <- app_assoc in Hsub. pose proof (mergeable_sub _ _ Hsub Hg) as Hm.
  assert (forall x, x ∈ seen -> entry_le x v) as Hle.
  { intros x Hx. pose proof (mg_sorted _ Hg) as Hs. apply StronglySorted_app in Hs as (Hs & _ & _). apply Hs; [done|set_solver]. }
  assert (forall x, x ∈ concat outs ++ cur -> x ∈ seen) as Hin.
  { intros x. rewrite Hcc. apply sublist_mem, gc_filter_sublist. }
  pose proof (gc_filter_strict smallest_snapshot bottom (seen ++ [v]) new_GcState Hsmallest (mg_sorted _ Hg) (mg_typed _ Hg) (mg_once _ Hg)) as Hst.
  rewrite Hkeep, <- Hcc, <- app_assoc in Hst. apply sorted_app in Hst as (_ & Hst & _). apply sorted_app in Hst as (Hsc & _ & _).
  split_and!; [| |done| |].
  - intros Hnew x Hx. destruct seen as [|z seen' _] using rev_ind; [by assert (x ∈ []) as ?%elem_of_nil by (apply Hin; set_solver)|].
    rewrite gc_state_snoc in Hnew. unfold is_new_key in Hnew. simpl in Hnew. apply negb_true_iff, sv_eqb_false in Hnew.
    assert (sv_compare (user_key x) (user_key z) <= 0) as Hxz.
    { assert (x ∈ seen' ++ [z]) as Hxs by (apply Hin; set_solver). apply elem_of_app in Hxs as [Hxs|Hxs].
      - pose proof (mg_sorted _ Hg) as Hs. rewrite <- app_assoc in Hs. apply StronglySorted_app in Hs as (Hs & _ & _).
        apply entry_le_user, Hs; [done|set_solver].
      - apply list_elem_of_singleton in Hxs as ->. rewrite sv_compare_refl. lia. }
    assert (sv_compare (user_key z) (user_key v) <= 0) as Hzv by (apply entry_le_user, Hle; set_solver).
    assert (sv_compare (user_key z) (user_key v) <> 0) as Hz by (rewrite sv_compare_eq; congruence).
    eapply sv_compare_le_lt_trans; [exact Hxz|lia].
  - intros x Hx. destruct cur as [|c0 cur']; [rewrite Hne in Hx by done; by apply elem_of_nil in Hx|].
    apply list_elem_of_In, in_concat in Hx as (a & Ha & Hx). apply list_elem_of_In, list_elem_of_lookup in Ha as [i Hi].
    apply list_elem_of_In in Hx. pose proof Hi as Hlt%lookup_lt_Some.
    assert (sv_compare (user_key x) (user_key c0) < 0) as Hxc.
    { apply (Hsep i (length outs) a (c0 :: cur') x c0); [done|by rewrite lookup_app_l|by rewrite list_lookup_middle|done|set_solver]. }
    assert (sv_compare (user_key c0) (user_key v) <= 0) as Hcv by (apply entry_le_user, Hle, Hin; set_solver).
    by eapply sv_compare_lt_le_trans.
  - eapply typed_subset; [|apply Hm]. set_solver.
  - eapply writable_sub; [|apply Hm]. by apply submseteq_inserts_l.
Qed.

(** How a run over [suf], after [seen], ends. *)
Definition loop_result truth (it : @MergingIterator TableIterator) (es suf seen : list entry)
    (r : option (Status * @MergingIterator TableIterator * Output * Z * Env)) : Prop :=
  exists s it' o next e truth' suf', r = Some (s, it', o, next, e) /\ merge_at (at_weak truth') it' es suf' /\
    truth_le truth truth' /\ work truth' o next e /\ (calm = true -> Status.ok s = true) /\
    (calm = true -> m_broken t_broken it' -> m_broken t_broken it) /\ (m_broken t_broken it -> m_broken t_broken it') /\
    (Status.ok s = true -> exists outs cur fin, loop_inv truth' o outs cur next e /\ concat outs ++ cur = keep (seen ++ fin) /\
      sublist fin suf /\ (fin = suf \/ m_broken t_broken it') /\ (cur = [] -> outs = [])).

Abbreviation loop := (compact_loop path options smallest_snapshot bottom).

(** What the loop needs before a turn. *)
Definition loop_ready truth (fuel : nat) it es suf seen g o next e : Prop :=
  merge_at (at_weak truth) it es suf /\ (length suf < fuel)%nat /\ g = state seen /\ mergeable (seen ++ suf) /\
  next + size suf <= limit /\
  exists outs cur, loop_inv truth o outs cur next e /\ concat outs ++ cur = keep seen /\ (cur = [] -> outs = []).

Lemma merge_at_truth truth truth' it es suf :
  truth_le truth truth' -> merge_at (at_weak truth) it es suf -> merge_at (at_weak truth') it es suf.
Proof.
  intros Hle. apply merge_at_mono. intros i ies isuf [Hat|Hb]; [left; by eapply table_at_truth|by right].
Qed.

(** One step of the merge, between two turns. *)
Lemma loop_continue fuel truth truth1 it es v suf seen g o next e :
  (forall truth it suf seen g o next e, loop_ready truth fuel it es suf seen g o next e ->
    loop_result truth it es suf seen (loop fuel it g o next e)) ->
  merge_at (at_weak truth) it es (v :: suf) -> truth_le truth truth1 ->
  (length suf < fuel)%nat -> g = state (seen ++ [v]) -> mergeable (seen ++ v :: suf) -> next + size suf <= limit ->
  (exists outs cur, loop_inv truth1 o outs cur next e /\ concat outs ++ cur = keep (seen ++ [v]) /\ (cur = [] -> outs = [])) ->
  loop_result truth it es (v :: suf) seen (let '(it1, e1) := Iterator.Next it e in loop fuel it1 g o next e1).
Proof.
  intros IH Hat Hle Hf Hg Hm Hn (outs & cur & Hinv & Hcc & Hne).
  pose proof (merge_at_truth _ _ _ _ _ Hle Hat) as Hat1.
  pose proof (env_of_work _ _ _ _ (li_work _ _ _ _ _ _ Hinv)) as He.
  destruct (weakly_next (calm = true) _ _ _ it es v suf e Hat1 He) as (suf1 & Hat2 & Hsub & Hb1 & Hb2 & He2).
  change (Iterator.Next it e) with (m_Next it e). destruct (m_Next it e) as [it1 e1]. simpl in *.
  assert (length suf1 <= length suf)%nat as Hlen by (by apply sublist_length).
  destruct (IH truth1 it1 suf1 (seen ++ [v]) g o next e1) as (s & it' & o' & next' & e' & truth' & suf' & -> & R1 & R2 & R3 & R4 & R5 & R6 & R7).
  { split_and!; [done|lia|done| |unfold size in *; lia|].
    - rewrite <- app_assoc. eapply mergeable_sub; [|exact Hm]. apply sublist_app; [done|]. by apply sublist_skip.
    - exists outs, cur. split_and!; [by eapply loop_env|done|done]. }
  do 7 eexists. split_and!; [done|exact R1|by etrans|done|done| |by auto|].
  { intros Hc Hb. destruct Hb1 as [[_ Hb1]|[? _]]; [|done]. by apply Hb1, R5. }
  intros Hs. destruct (R7 Hs) as (outs' & cur' & fin & F1 & F2 & F3 & F4 & F5). exists outs', cur', (v :: fin).
  split_and!; [done|by rewrite F2, <- app_assoc|apply sublist_skip; by etrans| |done].
  destruct Hb1 as [[-> _]|[_ Hb1]]; [|right; by apply R6]. destruct F4 as [->|F4]; [by left|by right].
Qed.

#[local] Instance at_weak_cursor truth : Cursor TableIter (at_weak truth).
Proof. exact (weakly_cursor (calm = true) (env_any calm truth fs0) (table_at truth) t_broken). Qed.

Lemma compact_loop_spec fuel : forall truth it es suf seen g o next e, loop_ready truth fuel it es suf seen g o next e ->
  loop_result truth it es suf seen (loop fuel it g o next e).
Proof.
  induction fuel as [|fuel IH]; intros truth it es suf seen g o next e (Hat & Hf & Hg & Hm & Hn & outs & cur & Hinv & Hcc & Hne); [lia|].
  cbn [compact_loop]. rewrite (cur_valid it es suf Hat). destruct suf as [|v suf].
  { simpl. do 7 eexists. split_and!; try done; [apply Hinv|]. intros _.
    exists outs, cur, []. rewrite app_nil_r. split_and!; try done. by left. }
  rewrite (cur_entry it es v suf Hat). cbn [negb bool_decide]. pose proof (gc_state_snoc smallest_snapshot new_GcState seen v) as Hg'.
  assert (size (v :: suf) = 1 + size suf) as Hsz by (unfold size; simpl; lia). simpl in Hf.
  pose proof (gc_filter_app smallest_snapshot bottom seen new_GcState [v]) as Hkv. rewrite <- Hg in Hkv. cbn [gc_filter] in Hkv.
  unfold gc_visit in *. set (hid := (if is_new_key g v then _ else _) <=? _) in *. simpl.
  destruct (hid || droppable_tombstone smallest_snapshot bottom v) eqn:Ehid.
  { eapply loop_continue; [by intros; apply IH|exact Hat|done|lia|done|done|lia|]. exists outs, cur. split_and!; [done| |done].
    rewrite Hkv, Hcc. apply orb_true_iff in Ehid as [->|Ed]; [by rewrite app_nil_r|]. rewrite Ed.
    destruct hid; by rewrite app_nil_r. }
  apply orb_false_iff in Ehid as [Eh Ed]. rewrite Eh, Ed in Hkv.
  assert (mergeable (seen ++ [v])) as Hmv.
  { eapply mergeable_sub; [|exact Hm]. apply sublist_app; [done|]. apply sublist_skip, sublist_nil_l. }
  destruct (kept_facts outs cur seen v Hmv Hcc Hne (li_separated _ _ _ _ _ _ Hinv) Hkv) as (K1 & K2 & K3 & K4 & K5).
  destruct (emit_spec truth o outs cur next e (is_new_key g v) v Hinv ltac:(pose proof (size_nonneg suf); lia) ltac:(by rewrite Hg) K2 K3 K4 K5)
    as (s & o' & next' & e' & truth' & -> & M1 & M2 & M3 & M4 & M5). cbn [mbind option_bind].
  destruct (Status.ok s) eqn:Hs; cbn [negb].
  2:{ do 7 eexists. split_and!; [done|by eapply merge_at_truth|done|done|by rewrite Hs|done|done|congruence]. }
  destruct (M5 eq_refl) as (outs' & cur' & Hinv' & Hc' & Hcc').
  eapply loop_continue; [by intros; apply IH|exact Hat|done|lia|done|done|lia|]. exists outs', cur'.
  split_and!; [done|by rewrite Hkv, Hcc', <- Hcc, app_assoc|done].
Qed.

Lemma at_weak_defined truth it es suf : merge_at (at_weak truth) it es suf -> existsb it_undefined (children_ it) = false.
Proof.
  intros (ess & sufs & H3 & _). induction H3 as [|c ces cs l ? ? Hc H3 IH]; [done|]. simpl. rewrite IH, orb_false_r.
  destruct Hc as [(bs & _ & _ & (_ & _ & Hu) & _)|[(_ & _ & Hu) _]]; done.
Qed.

Lemma merge_fuel_enough inputs ess :
  Forall2 (file_ok truth0) inputs ess -> (length (concat ess) < merge_fuel inputs)%nat.
Proof.
  unfold merge_fuel. induction 1 as [|f es inputs ess [(bs & Hok & <-) _ _ _] Hf IH]; [simpl; lia|]. simpl. rewrite length_app.
  destruct (tb_file _ _ _ Hok) as [post ->]. rewrite length_app. pose proof (data_entries bs (tb_blocks _ _ _ Hok)).
  unfold size in *. lia.
Qed.

(** The last file. *)
Lemma finish_all truth o outs cur next e merged :
  loop_inv truth o outs cur next e -> concat outs ++ cur = keep merged -> mergeable merged ->
  exists s o' e' truth', finish_output path options o e = Some (s, o', e') /\ truth_le truth truth' /\ work truth' o' next e' /\
    (calm = true -> Status.ok s = true) /\
    (Status.ok s = true -> exists outs', out_builder o' = None /\ concat outs' = keep merged /\ loop_inv truth' o' outs' [] next e').
Proof.
  intros Hinv Hcc Hmg. pose proof (li_cur _ _ _ _ _ _ Hinv) as Hc. destruct (out_builder o) as [[b n]|] eqn:Eb.
  - destruct Hc as (Hne & _). pose proof (gc_filter_sublist smallest_snapshot bottom merged new_GcState) as Hsub.
    pose proof (gc_filter_strict smallest_snapshot bottom merged new_GcState Hsmallest (mg_sorted _ Hmg) (mg_typed _ Hmg) (mg_once _ Hmg)) as Hs.
    rewrite <- Hcc in Hsub, Hs. apply sorted_app in Hs as (_ & Hs & _).
    assert (sublist cur merged) as Hsc by (etrans; [|exact Hsub]; by apply sublist_inserts_l).
    destruct (finish_spec truth o outs cur next e Hinv Hne Hs) as (s & o' & e' & -> & Hca & Hres);
      [by eapply mergeable_sub|by eapply mergeable_sub|].
    destruct (Status.ok s) eqn:Hst.
    + destruct Hres as (truth' & Hle & Hinv' & Hb). do 3 eexists. exists truth'. split_and!; [done|done|apply Hinv'|done|].
      intros _. exists (outs ++ [cur]). split_and!; [done| |done]. rewrite concat_app. simpl. by rewrite app_nil_r.
    + do 3 eexists. exists truth. split_and!; [done|done|done|by rewrite Hst|congruence].
  - subst cur. unfold finish_output. rewrite Eb. do 3 eexists. exists truth. split_and!; [done|done|apply Hinv|done|].
    intros _. exists outs. by rewrite app_nil_r in Hcc.
Qed.

(** A compaction of [inputs], which hold [ess]. *)
Lemma run_compaction_spec inputs ess e :
  Forall2 (file_ok truth0) inputs ess -> entries_typed (concat ess) ->
  NoDup (map fst (filter (fun x => smallest_snapshot < sequence x) (concat ess))) -> writable options (concat ess) ->
  start + size (concat ess) <= limit -> (forall n, start <= n -> truth_fresh truth0 n) ->
  cache_good truth0 e -> (calm = true -> w_oracle (e_world e) = []) -> w_files (e_world e) = fs0 ->
  exists merged s o next e' truth', merges ess merged /\
    run_compaction path options smallest_snapshot bottom inputs start e = Some (s, o, next, e') /\
    truth_le truth0 truth' /\ work truth' o next e' /\ (calm = true -> Status.ok s = true) /\
    (Status.ok s = true -> exists outs, out_builder o = None /\ concat outs = keep merged /\ loop_inv truth' o outs [] next e').
Proof.
  intros Hf Hty Hnd Hwr Hsz Hfresh Hcg Hca Hfs. pose proof (size_nonneg (concat ess)) as Hsz0.
  destruct (new_merge_at (table_at truth0) (map (fun f => new_TableIterator (table f)) inputs) ess) as (merged & Hat & Hm).
  { clear -Hf. induction Hf; constructor; [by apply open_file_at|done]. }
  { clear -Hf. induction Hf; constructor; [by eapply file_sorted|done]. }
  assert (env_any calm truth0 fs0 e) as He by (by split).
  unfold run_compaction. cbn [Iterator.SeekToFirst Merging].
  destruct (weakly_first (calm = true) _ _ _ _ merged [] e Hat He) as (suf & Hat1 & Hsub & Hb & He1).
  destruct (m_SeekToFirst _ e) as [it e1]. cbn [fst snd] in Hat1, Hb, He1. pose proof (merges_perm _ _ Hm) as Hp.
  assert (mergeable merged) as Hmg.
  { split; [eapply merges_sorted; [exact Hm|]; clear -Hf; induction Hf; constructor; [by eapply file_sorted|done]| | |].
    - unfold entries_typed. by rewrite Hp.
    - by rewrite Hp.
    - eapply writable_sub; [|exact Hwr]. by rewrite Hp. }
  assert (loop_inv truth0 new_Output [] [] start e1) as Hinv.
  { split; try done; [|by apply NoDup_nil|change (start - start <= 0); lia|].
    2:{ intros i j a b x y Hij Ha Hj. destruct i, j as [|[|]]; simpl in Hj; simplify_eq; lia. }
    destruct He1 as [E1 E2 E3]. split; try done; [lia|]. intros p _. by rewrite E1. }
  assert (length suf <= length merged)%nat as Hlen by (by apply sublist_length).
  assert (length merged = length (concat ess)) as Hlm by (by rewrite Hp). pose proof (merge_fuel_enough inputs ess Hf) as Hfuel.
  destruct (compact_loop_spec (merge_fuel inputs) truth0 it merged suf [] new_GcState new_Output start e1)
    as (s & it' & o & next & e2 & truth2 & suf' & -> & Hat2 & Hle & Hk & Hc1 & Hc2 & Hb2 & Hok).
  { split_and!; [done|lia|done|by eapply mergeable_sub|unfold size in *; lia|]. by exists [], []. }
  cbn [mbind option_bind]. rewrite (at_weak_defined _ _ _ _ Hat2). exists merged.
  change (Iterator.status it') with (m_status it'). pose proof (weakly_status (calm = true) (env_any calm truth2 fs0) _ _ _ _ _ Hat2) as Hst.
  destruct (Status.ok s) eqn:Hs.
  2:{ rewrite Hs. do 4 eexists. exists truth2. split_and!; [done|done|done|done|by rewrite Hs|congruence]. }
  destruct (Status.ok (m_status it')) eqn:Hms.
  2:{ do 4 eexists. exists truth2. split_and!; [done|done|done|done| |congruence]. intros Hca'. rewrite Hms. apply Hst. intros Hbr.
      specialize (Hc2 Hca' Hbr). destruct Hb as [[_ Hb]|[? _]]; done. }
  assert (~ m_broken t_broken it') as Hnb by (by apply Hst).
  destruct (Hok eq_refl) as (outs & cur & fin & Hinv2 & Hcc & _ & [->|?] & Hne); [|done].
  destruct Hb as [[-> _]|[_ Hb]]; [|by apply Hb2 in Hb]. simpl in Hcc.
  destruct (finish_all _ _ _ _ _ _ _ Hinv2 Hcc Hmg) as (s3 & o3 & e3 & truth3 & -> & Hle3 & Hk3 & Hc3 & Hok3). cbn [mbind option_bind].
  do 4 eexists. exists truth3. split_and!; [done|done|by etrans|done|done|done].
Qed.

End LoopProof.

End Compaction.
