(* ===== verification/Stats.v ===== *)
(** * Derived figures (src/db.cpp: [DbStats], [DebugLevelSummary])

    Ratios in double precision over the counters, and the summary of the levels
    for people. *)

From Stdlib Require Import SpecFloat Ascii String.
From stdpp Require Import gmap strings.
From S2P Require Import Prelude Coding InternalKey Posix Versions Iterator Skiplist MemTable Cache Options Sstable Table Levels ReadPath FileNames Manifest Db Compaction.

Definition ratio (a b : Z) : spec_float := SFdiv 53 1024 (to_double a) (to_double b).

Definition BlockCacheHitRate (st : DbStats) : spec_float :=
  let total := u64 (block_cache_hits st + block_cache_misses st) in
  if total =? 0 then S754_zero false else ratio (block_cache_hits st) total.

Definition WriteAmplification (st : DbStats) : spec_float :=
  if user_bytes_written st =? 0 then S754_zero false
  else
    ratio (u64 (u64 (bytes_written_to_wal st + flush_output_bytes st) + compaction_output_bytes st)) (user_bytes_written st).

(** [out << n]. *)
Definition decimal (n : Z) : string := string_of_list_ascii (digits 20 n []).

Definition new_line : string := String "010"%char EmptyString.

Definition level_line (v : Version) (level : nat) : string :=
  match level_files v level with
  | [] => ""
  | files =>
      "L" ++ decimal (Z.of_nat level) ++ ": " ++ decimal (size files) ++ " files, " ++
      decimal (LevelBytes v level / 1024) ++ " KiB" ++ new_line
  end%string.

Definition DebugLevelSummary {R} (d : DB (R := R)) : string :=
  String.concat "" (map (level_line (db_current d)) (List.seq 0 kNumLevels)).

(** The summary is empty only without tables. *)
Lemma DebugLevelSummary_empty {R} (d : DB (R := R)) :
  length (levels (db_current d)) = kNumLevels -> DebugLevelSummary d = ""%string <-> live_tables (db_current d) = [].
Proof.
  unfold DebugLevelSummary, live_tables. intros Hl. destruct (db_current d) as [ls]. simpl in Hl |- *. unfold level_line, level_files. simpl.
  do 7 (destruct ls as [|? ls]; [done|]). destruct ls; [|done]. simpl. rewrite app_nil_r.
  repeat match goal with l : list FileMetaData |- _ => destruct l; simpl; [|done] end. done.
Qed.

(** 30 bytes in the log, 20 in tables and 50 rewritten for 40 bytes of data. *)
Example write_amplification_example :
  WriteAmplification (mkDbStats 0 0 0 0 0 0 0 50 20 0 30 40 0 0 0 0 0 0 0 0 0 0 0) = ratio 5 2.
Proof. vm_compute. done. Qed.
