(* ===== verification/Install.v ===== *)
(** * Installing a compaction (src/db.cpp: the end of [DoCompaction])

    The files of a version are paired with what they hold. Replacing the inputs
    of a compaction by its outputs keeps the files of a level disjoint, keeps
    newer versions above older ones, and keeps the answers of all reads a user
    can still make. *)

From stdpp Require Import gmap strings sorting.
From S2P Require Import Prelude Coding InternalKey Posix Versions Bloom Iterator Skiplist MemTable Cache Block Merge DbIter Options Sstable Table Levels ReadPath Gc FileNames Manifest Db Flush Compaction.

(** ** Files with their contents *)

(** A file and its entries. *)
Abbreviation fpair := (FileMetaData * list entry)%type.

Abbreviation holds ps := (concat (map (@snd FileMetaData (list entry)) ps)).

Record paired (truth : Key -> option bytes) (v : Version) (l0 : list (list entry)) (deep : list (list (list entry)))
    (P : list (list fpair)) : Prop := {
  pr_length : length P = kNumLevels;
  pr_levels : levels v = map (map fst) P;
  pr_contents : l0 :: deep = map (map snd) P;
  pr_files : Forall (Forall (fun p => file_ok truth p.1 p.2)) P;
  pr_separated : Forall (fun ps => separated (map snd ps)) (tail P)
}.

Lemma files_pairs truth files ess :
  Forall2 (file_ok truth) files ess ->
  exists ps : list fpair, files = map fst ps /\ ess = map snd ps /\ Forall (fun p => file_ok truth p.1 p.2) ps.
Proof.
  induction 1 as [|f es files ess Hf _ (ps & -> & -> & Hps)]; [by exists []|]. exists ((f, es) :: ps).
  split_and!; [done|done|by constructor].
Qed.

Lemma version_pairs truth v l0 deep : version_ok truth v l0 deep -> exists P, paired truth v l0 deep P.
Proof.
  intros [Hlen H0 Hd]. destruct (levels_l0 v Hlen) as (ls & Hl & Ht). rewrite Ht in Hd.
  destruct (files_pairs _ _ _ H0) as (P0 & Hf0 & Hc0 & Hok0).
  assert (exists Pt : list (list fpair), ls = map (map fst) Pt /\ deep = map (map snd) Pt /\
    Forall (Forall (fun p => file_ok truth p.1 p.2)) Pt /\ Forall (fun ps => separated (map snd ps)) Pt) as (Pt & Hft & Hct & Hokt & Hst).
  { clear -Hd. induction Hd as [|files ess ls deep [HL Hs] _ (Pt & -> & -> & H1 & H2)]; [by exists []|].
    destruct (files_pairs _ _ _ HL) as (ps & -> & -> & Hps). exists (ps :: Pt). split_and!; [done|done|by constructor|by constructor]. }
  exists (P0 :: Pt). split; simpl; [|by rewrite Hl, Hf0, Hft|by rewrite Hc0, Hct|by constructor|done].
  rewrite Hl, Hft in Hlen. simpl in Hlen. by rewrite length_map in Hlen.
Qed.

Lemma pairs_files truth (ps : list fpair) :
  Forall (fun p => file_ok truth p.1 p.2) ps -> Forall2 (file_ok truth) (map fst ps) (map snd ps).
Proof. induction 1; simpl; by constructor. Qed.

Lemma pairs_version truth v l0 deep P : paired truth v l0 deep P -> version_ok truth v l0 deep.
Proof.
  intros [H1 H2 H3 H4 H5]. destruct P as [|P0 Pt]; [done|]. simpl in *. injection H3 as -> ->.
  apply Forall_cons in H4 as [H40 H4t]. split.
  - rewrite H2. simpl. by rewrite length_map.
  - unfold level_files. rewrite H2. simpl. by apply pairs_files.
  - rewrite H2. simpl. clear -H4t H5. induction Pt as [|ps Pt IH]; simpl; [constructor|].
    apply Forall_cons in H4t as [? ?], H5 as [? ?]. constructor; [split; [by apply pairs_files|done]|auto].
Qed.

(** ** Disjoint files *)

(** All keys of [a] come before those of [b]. *)
Definition below (a b : list entry) : Prop := forall x y, x ∈ a -> y ∈ b -> sv_compare (user_key x) (user_key y) < 0.

Definition apart (a b : list entry) : Prop := below a b \/ below b a.

Lemma separated_sorted ess : separated ess <-> StronglySorted below ess.
Proof.
  induction ess as [|es ess IH].
  - split; [constructor|]. intros _ i j a b x y _ Ha. by rewrite lookup_nil in Ha.
  - split.
    + intros Hs. pose proof (separated_cons es ess Hs) as [Hs' Hb]. constructor; [by apply IH|]. apply Forall_forall.
      intros b Hin x y Hx Hy. apply Hb; [done|]. apply list_elem_of_In, in_concat. exists b.
      split; by apply list_elem_of_In.
    + intros [Hs Hb]%StronglySorted_inv. apply IH in Hs. intros i j a b x y Hij Ha Hj Hx Hy.
      destruct j as [|j]; [lia|]. simpl in Hj. destruct i as [|i]; simpl in Ha; [|by apply (Hs i j a b x y); [lia|..]].
      injection Ha as <-. rewrite Forall_forall in Hb. apply (Hb b); [by eapply list_elem_of_lookup_2|done|done].
Qed.

Lemma apart_keys a b x y : apart a b -> x ∈ a -> y ∈ b -> user_key x <> user_key y.
Proof.
  intros [H|H] Hx Hy Heq; [specialize (H x y Hx Hy)|specialize (H y x Hy Hx)]; rewrite Heq, sv_compare_refl in H; lia.
Qed.

Lemma separated_apart (ps : list fpair) :
  separated (map snd ps) -> ForallOrdPairs (fun p q => apart p.2 q.2) ps.
Proof.
  rewrite separated_sorted. induction ps as [|p ps IH]; simpl; [constructor|]. intros [Hs Hb]%StronglySorted_inv.
  constructor; [|by apply IH]. rewrite Forall_map in Hb. eapply Forall_impl; [exact Hb|]. intros q Hq. by left.
Qed.

Lemma FOP_sublist {A} (Rel : A -> A -> Prop) a b : sublist a b -> ForallOrdPairs Rel b -> ForallOrdPairs Rel a.
Proof.
  induction 1 as [|x a b Hs IH|x a b Hs IH]; intros H; [done|..]; inversion H; subst.
  - constructor; [by eapply sublist_Forall|auto].
  - auto.
Qed.

(** Sorted by their first keys, disjoint files are in order. *)
Definition first_key_lt (p q : fpair) : bool := CompareInternalKey (smallest p.1) (smallest q.1) <? 0.

Lemma below_smallest truth (p q : fpair) :
  file_ok truth p.1 p.2 -> file_ok truth q.1 q.2 -> below p.2 q.2 -> smallest p.1 ≺ smallest q.1.
Proof.
  intros Hp Hq Hb. pose proof (fo_smallest _ _ _ Hp) as Sp. pose proof (fo_smallest _ _ _ Hq) as Sq.
  destruct (p.2) as [|x ps]; [done|]. destruct (q.2) as [|y qs]; [done|]. simpl in *. injection Sp as ->. injection Sq as ->.
  apply user_lt_entry_lt, Hb; set_solver.
Qed.

Lemma sort_apart truth (ps : list fpair) :
  Forall (fun p => file_ok truth p.1 p.2) ps -> ForallOrdPairs (fun p q => apart p.2 q.2) ps ->
  StronglySorted (fun p q => smallest p.1 ≺ smallest q.1 /\ below p.2 q.2) (sort_by first_key_lt ps).
Proof.
  intros Hok Hap.
  assert (StronglySorted (fun p q => (file_ok truth p.1 p.2 /\ file_ok truth q.1 q.2) /\ below p.2 q.2) (sort_by first_key_lt ps)) as H.
  { apply sort_by_sorted.
    - intros a b c [[Ha Hb] Hab] [[_ Hc] Hbc]. split; [done|]. intros x z Hx Hz. destruct (b.2) as [|y l] eqn:Eb.
      + by apply file_nonempty in Hb.
      + eapply sv_compare_lt_trans; [apply (Hab x y)|apply (Hbc y z)]; set_solver.
    - intros a b [[Ha Hb] Hab]. pose proof (below_smallest truth a b Ha Hb Hab) as Hlt. unfold first_key_lt.
      rewrite (CompareInternalKey_antisym (smallest a.1) (smallest b.1)), Z.ltb_lt, Z.ltb_ge. lia.
    - clear -Hok Hap. induction Hap as [|p ps Hp Hap IH]; [constructor|]. apply Forall_cons in Hok as [Hok Hoks].
      constructor; [|by apply IH]. rewrite Forall_forall in *. intros q Hq. specialize (Hp q Hq). specialize (Hoks q Hq).
      destruct Hp; [left|right]; done. }
  eapply StronglySorted_impl; [|exact H].
  intros p q [[Hp Hq] Hb]. split; [by eapply below_smallest|done].
Qed.

(** ** The key range of the inputs *)

Lemma widen_fold fs : forall r0, let r := fold_left widen fs r0 in
  sv_compare r.1 r0.1 <= 0 /\ sv_compare r0.2 r.2 <= 0 /\
  (forall f, f ∈ fs -> sv_compare r.1 (ExtractUserKey (Levels.smallest f)) <= 0 /\ sv_compare (ExtractUserKey (largest f)) r.2 <= 0).
Proof.
  induction fs as [|f fs IH]; intros r0; simpl; [rewrite !sv_compare_refl; split_and!; [lia|lia|by intros f ?%elem_of_nil]|].
  destruct (IH (widen r0 f)) as (H1 & H2 & H3). set (r := fold_left widen fs (widen r0 f)) in *.
  unfold widen in H1, H2. simpl in H1, H2.
  set (s := ExtractUserKey (Levels.smallest f)) in *. set (l := ExtractUserKey (largest f)) in *.
  assert (sv_compare r.1 s <= 0 /\ sv_compare r.1 r0.1 <= 0) as [A1 A2].
  { destruct (Z.ltb_spec (sv_compare s r0.1) 0) as [Hc|Hc].
    - split; [done|]. eapply sv_compare_le_trans; [exact H1|lia].
    - split; [|done]. eapply sv_compare_le_trans; [exact H1|]. rewrite sv_compare_antisym. lia. }
  assert (sv_compare l r.2 <= 0 /\ sv_compare r0.2 r.2 <= 0) as [B1 B2].
  { destruct (Z.ltb_spec 0 (sv_compare l r0.2)) as [Hc|Hc].
    - split; [done|]. eapply sv_compare_le_trans; [|exact H2]. rewrite sv_compare_antisym. lia.
    - split; [|done]. eapply sv_compare_le_trans; [|exact H2]. lia. }
  split_and!; [done|done|]. intros g [->|Hg]%elem_of_cons; [done|by apply H3].
Qed.

Lemma user_range_covers truth (I0 : list fpair) x :
  Forall (fun p => file_ok truth p.1 p.2) I0 -> x ∈ holds I0 ->
  sv_compare (user_range (map fst I0)).1 (user_key x) <= 0 /\ sv_compare (user_key x) (user_range (map fst I0)).2 <= 0.
Proof.
  intros Hok Hx. apply list_elem_of_In, in_concat in Hx as (es & Hes & Hx). apply list_elem_of_In in Hes, Hx.
  apply list_elem_of_fmap in Hes as (p & -> & Hp). pose proof (proj1 (Forall_forall _ _) Hok p Hp) as Hf. simpl in Hf.
  assert (p.1 ∈ map fst I0) as Hin by (apply list_elem_of_fmap; by exists p).
  unfold user_range. destruct (map fst I0) as [|f fs] eqn:E; [by apply elem_of_nil in Hin|].
  destruct (widen_fold (f :: fs) (ExtractUserKey (Levels.smallest f), ExtractUserKey (largest f))) as (_ & _ & H).
  destruct (H _ Hin) as [H1 H2]. split; eapply sv_compare_le_trans.
  - exact H1.
  - by apply (file_smallest truth p.1 p.2).
  - by apply (file_largest truth p.1 p.2).
  - exact H2.
Qed.

Lemma holds_in (ps : list fpair) x : x ∈ holds ps <-> exists p, p ∈ ps /\ x ∈ p.2.
Proof.
  rewrite list_elem_of_In, in_concat. split.
  - intros (es & Hes & Hx). apply list_elem_of_In in Hes, Hx. apply list_elem_of_fmap in Hes as (p & -> & Hp). eauto.
  - intros (p & Hp & Hx). exists p.2. rewrite <- !list_elem_of_In. split; [|done]. apply list_elem_of_fmap. eauto.
Qed.

Lemma separated_members (ps : list fpair) p q : separated (map snd ps) -> p ∈ ps -> q ∈ ps -> p <> q -> apart p.2 q.2.
Proof.
  intros Hs Hp Hq Hne. apply list_elem_of_lookup in Hp as [i Hi], Hq as [j Hj].
  assert (map snd ps !! i = Some p.2 /\ map snd ps !! j = Some q.2) as [Hi2 Hj2] by (by rewrite !list_lookup_fmap, Hi, Hj).
  destruct (Nat.lt_trichotomy i j) as [Hij|[->|Hij]]; [left|congruence|right]; intros x y Hx Hy; by eapply Hs.
Qed.

Lemma holds_perm (a b : list fpair) : a ≡ₚ b -> holds a ≡ₚ holds b.
Proof. intros H. rewrite <- !flat_map_concat_map. by apply Permutation_flat_map. Qed.

Lemma holds_app (a b : list fpair) : holds (a ++ b) = holds a ++ holds b.
Proof. by rewrite map_app, concat_app. Qed.

(** The sources of a version, newest first. *)
Definition stack (P : list (list fpair)) : list (list entry) :=
  sources (map snd (default [] (head P))) (map (map snd) (tail P)).

Lemma stack_holds P : concat (stack P) = holds (concat P).
Proof.
  unfold stack, sources. destruct P as [|P0 Pt]; [done|]. simpl. rewrite concat_app, holds_app. f_equal.
  induction Pt as [|ps Pt IH]; [done|]. simpl. by rewrite holds_app, <- IH.
Qed.

Lemma stack_app pre A rest :
  stack (pre ++ A :: rest) =
  stack pre ++ (if decide (pre = []) then map snd A else [holds A]) ++ map (fun ps => holds ps) rest.
Proof.
  assert (forall l : list (list fpair), map (@concat entry) (map (map snd) l) = map (fun ps => holds ps) l) as Hm
    by (intros l; by rewrite map_map).
  unfold stack, sources. destruct pre as [|p0 pre]; simpl; [by rewrite Hm|].
  rewrite !Hm, map_app. simpl. by rewrite <- app_assoc.
Qed.

(** A file of the lower level that does not overlap the range has all keys on
    one side of everything that is merged. *)
Lemma outside_apart truth (I0 B : list fpair) (p : fpair) :
  let r := user_range (map fst I0) in
  Forall (fun p => file_ok truth p.1 p.2) I0 -> Forall (fun p => file_ok truth p.1 p.2) B -> separated (map snd B) ->
  p ∈ B -> RangesOverlap p.1 r.1 r.2 = false ->
  apart p.2 (holds (I0 ++ List.filter (fun q => RangesOverlap q.1 r.1 r.2) B)).
Proof.
  intros r H0 HB Hs Hp Ho. pose proof (proj1 (Forall_forall _ _) HB) as HBf. pose proof (HBf p Hp) as Hpf. simpl in Hpf.
  assert (forall q, q ∈ B -> RangesOverlap q.1 r.1 r.2 = true ->
    sv_compare (ExtractUserKey (largest q.1)) r.1 >= 0 /\ sv_compare (ExtractUserKey (Levels.smallest q.1)) r.2 <= 0) as Hov.
  { intros q _. unfold RangesOverlap. destruct (Z.ltb_spec (sv_compare (ExtractUserKey (largest q.1)) r.1) 0); [done|].
    destruct (Z.ltb_spec 0 (sv_compare (ExtractUserKey (Levels.smallest q.1)) r.2)); [done|]. lia. }
  assert (forall q, q ∈ B -> RangesOverlap q.1 r.1 r.2 = true -> apart p.2 q.2) as Hpq.
  { intros q Hq Hoq. apply (separated_members B); [done..|congruence]. }
  unfold RangesOverlap in Ho. destruct (Z.ltb_spec (sv_compare (ExtractUserKey (largest p.1)) r.1) 0) as [Hlo|_].
  - left. intros x y Hx Hy. rewrite map_app, concat_app, elem_of_app in Hy. pose proof (file_largest truth _ _ x Hpf Hx) as Hxl.
    destruct Hy as [Hy|Hy].
    + destruct (user_range_covers truth I0 y H0 Hy) as [Hr _]. eapply sv_compare_le_lt_trans; [exact Hxl|].
      by eapply sv_compare_lt_le_trans.
    + apply holds_in in Hy as (q & Hq & Hy). apply list_elem_of_In, filter_In in Hq as [Hq Hoq]. apply list_elem_of_In in Hq.
      destruct (Hpq q Hq Hoq) as [Hb|Hb]; [by apply Hb|]. exfalso. destruct (Hov q Hq Hoq) as [Hge _].
      destruct (file_largest_in truth _ _ (HBf q Hq)) as (z & Hz & _ & Hzl). specialize (Hb z x Hz Hx). unfold user_key at 1 in Hb.
      rewrite Hzl in Hb. assert (sv_compare (ExtractUserKey (largest q.1)) r.1 < 0); [|lia].
      eapply sv_compare_lt_trans; [eapply sv_compare_lt_le_trans; [exact Hb|exact Hxl]|exact Hlo].
  - destruct (Z.ltb_spec 0 (sv_compare (ExtractUserKey (Levels.smallest p.1)) r.2)) as [Hhi|]; [|done].
    assert (sv_compare r.2 (ExtractUserKey (Levels.smallest p.1)) < 0) as Hhi' by (rewrite sv_compare_antisym; lia).
    right. intros y x Hy Hx. rewrite map_app, concat_app, elem_of_app in Hy. pose proof (file_smallest truth _ _ x Hpf Hx) as Hxs.
    destruct Hy as [Hy|Hy].
    + destruct (user_range_covers truth I0 y H0 Hy) as [_ Hr]. eapply sv_compare_le_lt_trans; [exact Hr|].
      by eapply sv_compare_lt_le_trans.
    + apply holds_in in Hy as (q & Hq & Hy). apply list_elem_of_In, filter_In in Hq as [Hq Hoq]. apply list_elem_of_In in Hq.
      destruct (Hpq q Hq Hoq) as [Hb|Hb]; [|by apply Hb]. exfalso. destruct (Hov q Hq Hoq) as [_ Hle].
      pose proof (fo_smallest _ _ _ (HBf q Hq)) as Hs1. destruct (q.2) as [|z l] eqn:Eq; [done|]. injection Hs1 as Hs1.
      specialize (Hb x z Hx ltac:(set_solver)). unfold user_key at 2 in Hb. rewrite <- Hs1 in Hb.
      assert (sv_compare r.2 r.2 < 0) as Hrr; [|rewrite sv_compare_refl in Hrr; lia].
      eapply sv_compare_lt_le_trans; [|exact Hle]. eapply sv_compare_lt_trans; [|exact Hb]. by eapply sv_compare_lt_le_trans.
Qed.

(** ** A level, its inputs removed *)

Definition erase (removed : list FileMetaData) (ps : list fpair) : list fpair :=
  List.filter (fun p => negb (bool_decide (number p.1 ∈ map number removed))) ps.

Definition place (ps new : list fpair) : list fpair := sort_by first_key_lt (ps ++ new).

Lemma erase_files removed (ps : list fpair) :
  map fst (erase removed ps) = List.filter (fun f => negb (bool_decide (number f ∈ map number removed))) (map fst ps).
Proof. exact (map_filter fst (fun f : FileMetaData => negb (bool_decide (number f ∈ map number removed))) ps). Qed.

Lemma install_pairs removed outputs (new : list fpair) v pre A B post :
  levels v = map (map fst) (pre ++ A :: B :: post) -> outputs = map fst new ->
  levels (install (length pre) removed outputs v) =
    map (map fst) (pre ++ erase removed A :: place (erase removed B) new :: post).
Proof.
  intros Hl ->. unfold install. cbn [levels]. rewrite Hl, !map_app. cbn [map].
  set (lp := length pre).
  assert (forall (f : list FileMetaData -> list FileMetaData) (a : list (list FileMetaData)) x y z, length a = lp ->
    alter f lp (a ++ x :: y :: z) = a ++ f x :: y :: z /\ alter f (S lp) (a ++ x :: y :: z) = a ++ x :: f y :: z) as Halter.
  { intros f a x y z <-. split; [by rewrite alter_app_r_alt, Nat.sub_diag by done|].
    rewrite alter_app_r_alt by lia. by replace (S (length a) - length a)%nat with 1%nat by lia. }
  assert (length (map (map (@fst FileMetaData (list entry))) pre) = lp) as Hlp by (by rewrite length_map).
  rewrite (proj1 (Halter _ _ _ _ _ Hlp)), (proj2 (Halter _ _ _ _ _ Hlp)), (proj2 (Halter _ _ _ _ _ Hlp)).
  unfold place, first_key_lt. rewrite (sort_by_map fst (fun a b => CompareInternalKey (Levels.smallest a) (Levels.smallest b) <? 0)).
  rewrite map_app, !erase_files. done.
Qed.

(** Numbers are unique, so exactly the inputs go. *)
Lemma erase_split (ps part : list fpair) (other : list FileMetaData) removed :
  sublist part ps -> NoDup (map (fun p => number p.1) ps) ->
  (forall n, n ∈ map number removed <-> n ∈ map (fun p => number p.1) part ++ map number other) ->
  (forall p, p ∈ ps -> ~ (number p.1 ∈ map number other)) ->
  ps ≡ₚ part ++ erase removed ps.
Proof.
  intros Hs Hnd Hr Ho. rewrite (filter_split (fun p => bool_decide (number p.1 ∈ map number removed)) ps) at 1.
  apply Permutation_app; [|done]. apply Permutation_refl_eq.
  etrans; [|apply (filter_keys_sublist (fun p : fpair => number p.1) part ps (map number other) Hs Hnd)].
  - apply filter_ext. intros p. apply bool_decide_ext, Hr.
  - intros p Hp Hin. by apply Ho in Hin.
Qed.

(** ** Replacing the inputs by the outputs *)

Section Replace.
Context (truth : Key -> option bytes) (pre : list (list fpair)) (A B : list fpair) (post : list (list fpair)) (I0 : list fpair).

Let P : list (list fpair) := pre ++ A :: B :: post.
Let range : bytes * bytes := user_range (map fst I0).
Let I1 : list fpair := List.filter (fun p => RangesOverlap p.1 range.1 range.2) B.
Let removed : list FileMetaData := map fst (I0 ++ I1).
Let eA : list fpair := erase removed A.
Let eB : list fpair := erase removed B.

Hypothesis Hfiles : Forall (Forall (fun p => file_ok truth p.1 p.2)) P.
Hypothesis Hsep : Forall (fun ps => separated (map snd ps)) (tail P).
Hypothesis Hunique : NoDup (map (fun p => number p.1) (concat P)).
Hypothesis HI0 : sublist I0 A.
Hypothesis Hall : pre = [] -> I0 = A.

Lemma AB_files : Forall (fun p => file_ok truth p.1 p.2) A /\ Forall (fun p => file_ok truth p.1 p.2) B.
Proof. unfold P in Hfiles. rewrite Forall_app, !Forall_cons in Hfiles. tauto. Qed.

Lemma B_separated : separated (map snd B).
Proof. unfold P in Hsep. destruct pre; simpl in Hsep; [by apply Forall_cons in Hsep as [? _]|]. rewrite Forall_app, !Forall_cons in Hsep. tauto. Qed.

Lemma A_separated : pre <> [] -> separated (map snd A).
Proof. unfold P in Hsep. destruct pre; simpl in Hsep; [done|]. rewrite Forall_app, !Forall_cons in Hsep. tauto. Qed.

Lemma AB_unique : NoDup (map (fun p : fpair => number p.1) (A ++ B)).
Proof.
  assert (sublist (A ++ B) (concat P)) as Hs.
  { unfold P. rewrite concat_app. apply sublist_inserts_l. simpl. rewrite app_assoc. by apply sublist_inserts_r. }
  apply sublist_submseteq, submseteq_Permutation in Hs as [k Hk]. rewrite Hk in Hunique. by eapply NoDup_map_prefix.
Qed.

Lemma AB_apart p q : p ∈ A -> q ∈ B -> number p.1 <> number q.1.
Proof.
  intros Hp Hq Heq. pose proof AB_unique as Hu. rewrite map_app in Hu. apply NoDup_app in Hu as (_ & Hu & _).
  apply (Hu (number p.1)); [apply list_elem_of_fmap; by exists p|]. rewrite Heq. apply list_elem_of_fmap. by exists q.
Qed.

Lemma I1_sublist : sublist I1 B.
Proof. apply filter_sublist. Qed.

Lemma in_I0 p : p ∈ I0 -> p ∈ A.
Proof. intros. by eapply sublist_mem. Qed.

Lemma in_I1 p : p ∈ I1 -> p ∈ B.
Proof. intros. eapply sublist_mem; [apply I1_sublist|done]. Qed.

Lemma A_split : A ≡ₚ I0 ++ eA.
Proof.
  apply (erase_split A I0 (map fst I1)); [done| | |].
  - pose proof AB_unique as Hu. rewrite map_app in Hu. by apply NoDup_app in Hu as (? & _ & _).
  - intros n. unfold removed. by rewrite !map_app, !map_map.
  - intros p Hp Hin. rewrite map_map in Hin. apply list_elem_of_fmap in Hin as (q & Heq & Hq). by apply (AB_apart p q); [|apply in_I1|].
Qed.

Lemma B_split : B ≡ₚ I1 ++ eB.
Proof.
  apply (erase_split B I1 (map fst I0)); [apply I1_sublist| | |].
  - pose proof AB_unique as Hu. rewrite map_app in Hu. by apply NoDup_app in Hu as (_ & _ & ?).
  - intros n. unfold removed. rewrite !map_app, !map_map, !elem_of_app. apply or_comm.
  - intros p Hp Hin. rewrite map_map in Hin. apply list_elem_of_fmap in Hin as (q & Heq & Hq). by apply (AB_apart q p); [apply in_I0|..].
Qed.

Lemma eA_all : pre = [] -> eA = [].
Proof.
  intros Hp. pose proof A_split as H. rewrite (Hall Hp) in H. apply Permutation_length in H. rewrite length_app in H.
  destruct eA; [done|simpl in H; lia].
Qed.

Lemma in_eA p : p ∈ eA -> p ∈ A /\ ~ (p ∈ I0).
Proof.
  unfold eA, erase. intros Hp. apply list_elem_of_In, filter_In in Hp as [Hp Hn]. apply list_elem_of_In in Hp. split; [done|].
  intros Hin. apply negb_true_iff, bool_decide_eq_false in Hn. apply Hn. unfold removed. rewrite map_map.
  apply list_elem_of_fmap. exists p. split; [done|]. apply elem_of_app. by left.
Qed.

Lemma in_eB p : p ∈ eB -> p ∈ B /\ ~ (p ∈ I1).
Proof.
  unfold eB, erase. intros Hp. apply list_elem_of_In, filter_In in Hp as [Hp Hn]. apply list_elem_of_In in Hp. split; [done|].
  intros Hin. apply negb_true_iff, bool_decide_eq_false in Hn. apply Hn. unfold removed. rewrite map_map.
  apply list_elem_of_fmap. exists p. split; [done|]. apply elem_of_app. by right.
Qed.

(** Files that stay share no key with files that go. *)
Lemma eA_apart p q : p ∈ eA -> q ∈ I0 -> apart p.2 q.2.
Proof.
  intros Hp Hq. destruct (decide (pre = [])) as [He|Hne]; [rewrite (eA_all He) in Hp; by apply elem_of_nil in Hp|].
  destruct (in_eA p Hp) as [HpA Hn]. apply (separated_members A); [by apply A_separated|done|by apply in_I0|].
  intros ->. done.
Qed.

Lemma eB_apart p : p ∈ eB -> apart p.2 (holds (I0 ++ I1)).
Proof.
  intros Hp. destruct (in_eB p Hp) as [HpB Hn]. destruct AB_files as [HA HB].
  apply (outside_apart truth); [by eapply sublist_Forall|done|apply B_separated|done|].
  destruct (RangesOverlap _ _ _) eqn:E; [|done]. exfalso. apply Hn. unfold I1. apply list_elem_of_In, filter_In.
  split; [by apply list_elem_of_In|done].
Qed.

(** *** The new level *)

Context (truth' : Key -> option bytes) (new : list fpair).
Hypothesis Hle : truth_le truth truth'.
Hypothesis Hnew : Forall (fun p => file_ok truth' p.1 p.2) new.
Hypothesis Hnew_sep : separated (map snd new).
Hypothesis Hnew_sub : holds new ⊆+ holds (I0 ++ I1).

Let P' : list (list fpair) := pre ++ eA :: place eB new :: post.

Lemma Hnew_in x : x ∈ holds new -> x ∈ holds (I0 ++ I1).
Proof. intros. by eapply elem_of_submseteq. Qed.

Lemma eB_files : Forall (fun p => file_ok truth' p.1 p.2) (eB ++ new).
Proof.
  apply Forall_app. split; [|done]. apply Forall_forall. intros p Hp. destruct (in_eB p Hp) as [HpB _]. simpl.
  eapply file_ok_truth; [exact Hle|]. destruct AB_files as [_ HB]. rewrite Forall_forall in HB. by apply HB.
Qed.

Lemma new_level_sorted :
  StronglySorted (fun p q => Levels.smallest p.1 ≺ Levels.smallest q.1 /\ below p.2 q.2) (place eB new).
Proof.
  apply (sort_apart truth'); [apply eB_files|]. apply ForallOrdPairs_app.
  - eapply FOP_sublist; [apply filter_sublist|]. apply separated_apart, B_separated.
  - by apply separated_apart.
  - intros p q Hp Hq. assert (forall x, x ∈ q.2 -> x ∈ holds (I0 ++ I1)) as Hin.
    { intros x Hx. apply Hnew_in, holds_in. eauto. }
    destruct (eB_apart p Hp) as [Hb|Hb]; [left|right]; intros x y Hx Hy; apply Hb; auto.
Qed.

Lemma files_upgrade ps : Forall (Forall (fun p : fpair => file_ok truth p.1 p.2)) ps ->
  Forall (Forall (fun p : fpair => file_ok truth' p.1 p.2)) ps.
Proof. intros H. eapply Forall_impl; [exact H|]. intros l Hl. eapply Forall_impl; [exact Hl|]. intros p. by apply file_ok_truth. Qed.

Lemma new_separated : separated (map snd (place eB new)).
Proof.
  apply separated_sorted, StronglySorted_map. eapply StronglySorted_impl; [|apply new_level_sorted]. by intros p q [_ ?].
Qed.

Lemma erase_separated : pre <> [] -> separated (map snd eA).
Proof.
  intros Hne. apply separated_sorted. pose proof (proj1 (separated_sorted _) (A_separated Hne)) as Hs.
  eapply sublist_StronglySorted; [|exact Hs]. apply sublist_map, filter_sublist.
Qed.

Lemma new_paired v : levels v = map (map fst) P -> length P = kNumLevels ->
  paired truth' (install (length pre) removed (map fst new) v) (map snd (default [] (head P'))) (map (map snd) (tail P')) P'.
Proof.
  intros Hl Hlen. split.
  - unfold P'. rewrite <- Hlen. unfold P. rewrite !length_app. done.
  - by apply install_pairs.
  - unfold P'. by destruct pre.
  - pose proof (files_upgrade _ Hfiles) as Hup. unfold P in Hup. unfold P'. rewrite !Forall_app, !Forall_cons in *.
    destruct Hup as (H1 & H2 & H3 & H4). split_and!; [done| | |done].
    + eapply sublist_Forall; [apply filter_sublist|done].
    + unfold place. rewrite sort_by_perm. apply eB_files.
  - pose proof new_separated as HN. pose proof erase_separated as HE. pose proof Hsep as Hs. clearbody eA eB.
    unfold P', P in *. destruct (decide (pre = [])) as [->|Hne]; simpl.
    + simpl in Hs. apply Forall_cons in Hs as [_ Hs]. by constructor.
    + specialize (HE Hne). rewrite tail_app in * by done. rewrite !Forall_app, !Forall_cons in *. tauto.
Qed.

Lemma holds_A x : x ∈ holds A <-> x ∈ holds I0 \/ x ∈ holds eA.
Proof. rewrite (holds_perm _ _ A_split), holds_app. apply elem_of_app. Qed.

Lemma holds_B x : x ∈ holds B <-> x ∈ holds I1 \/ x ∈ holds eB.
Proof. rewrite (holds_perm _ _ B_split), holds_app. apply elem_of_app. Qed.

Lemma holds_new_level x : x ∈ holds (place eB new) <-> x ∈ holds eB \/ x ∈ holds new.
Proof. unfold place. rewrite (holds_perm _ _ (sort_by_perm _ _)), holds_app. apply elem_of_app. Qed.

Lemma upper_holds (pre' : list (list fpair)) ps : concat (if decide (pre' = []) then map snd ps else [holds ps]) = holds ps.
Proof. case_decide; simpl; [done|by rewrite app_nil_r]. Qed.

(** A version that stays in the upper level is newer than one that is merged. *)
Lemma stays_newer top x y : layered (top ++ stack P) -> x ∈ holds eA -> y ∈ holds (I0 ++ I1) -> user_key x = user_key y -> tag y <= tag x.
Proof.
  intros HL Hx Hy Hk. rewrite holds_app, elem_of_app in Hy. destruct Hy as [Hy|Hy].
  - apply holds_in in Hx as (p & Hp & Hx), Hy as (q & Hq & Hy). exfalso. by eapply apart_keys; [apply (eA_apart p q)|..].
  - unfold P in HL. rewrite stack_app in HL. rewrite !layered_app, upper_holds in HL. simpl in HL.
    destruct HL as (_ & (_ & (_ & _ & H) & _) & _). apply H; [apply holds_A; auto| |done]. apply elem_of_app. left. apply holds_B. auto.
Qed.

Lemma new_layered top : layered (top ++ stack P) -> layered (top ++ stack P').
Proof.
  intros HL. pose proof (stays_newer top) as Hst. unfold P, P' in *. rewrite stack_app in *. simpl in *. rewrite app_assoc in *.
  eapply layered_replace; [exact HL| | | |]; rewrite ?upper_holds.
  - destruct (decide (pre = [])) as [He|]; [by rewrite (eA_all He)|]. simpl. split; [by intros ? ? _ ?%elem_of_nil|done].
  - intros x Hx. apply holds_A. auto.
  - intros y Hy. rewrite holds_A, holds_B. apply holds_new_level in Hy as [Hy|Hy]; [auto|].
    apply Hnew_in in Hy. rewrite holds_app, elem_of_app in Hy. tauto.
  - intros x y Hx Hy Hk. apply holds_new_level in Hy as [Hy|Hy]; [|apply Hst; [done|done|by apply Hnew_in|done]].
    rewrite !layered_app, upper_holds in HL. simpl in HL. destruct HL as (_ & (_ & _ & H) & _).
    apply H; [apply holds_A; auto| |done]. apply elem_of_app. left. apply holds_B. auto.
Qed.

(** Everything that stays. *)
Let rest : list entry := holds (concat pre ++ eA ++ eB ++ concat post).

Lemma before_holds : holds (concat P) ≡ₚ rest ++ holds (I0 ++ I1).
Proof.
  unfold P, rest. rewrite concat_app. simpl. rewrite !holds_app, (holds_perm _ _ A_split), (holds_perm _ _ B_split), !holds_app.
  solve_Permutation.
Qed.

Lemma after_holds : holds (concat P') ≡ₚ rest ++ holds new.
Proof.
  unfold P', rest. rewrite concat_app. simpl. rewrite !holds_app.
  unfold place. rewrite (holds_perm _ _ (sort_by_perm _ _)), !holds_app. solve_Permutation.
Qed.

Lemma holds_shrinks : holds (concat P') ⊆+ holds (concat P).
Proof. rewrite before_holds, after_holds. by apply submseteq_app. Qed.

(** *** Reads *)

Lemma replaced_reads top merged smallest_snapshot bottom key seq :
  layered (top ++ stack P) -> agree (concat top ++ holds (concat P)) -> entries_typed (concat top ++ holds (concat P)) ->
  merged ≡ₚ holds (I0 ++ I1) -> StronglySorted entry_le merged -> holds new = survivors smallest_snapshot bottom merged ->
  smallest_snapshot < kMaxSequenceNumber -> smallest_snapshot <= seq -> (bottom = true -> concat post = []) ->
  value_of (read (concat top ++ holds (concat P')) key seq) = value_of (read (concat top ++ holds (concat P)) key seq) /\
  (bottom = false -> read (concat top ++ holds (concat P')) key seq = read (concat top ++ holds (concat P)) key seq).
Proof.
  intros HL Hag Hty Hm Hs Hn Hk Hseq Hbot. pose proof (stays_newer top) as Hst.
  destruct (replace_reads smallest_snapshot bottom merged (concat top ++ rest) key seq Hk Hseq Hs) as [H1 H2].
  { intros Hb x y Hx Hy Hxy. rewrite Hm in Hx. symmetry in Hxy. apply elem_of_app in Hy as [Hy|Hy].
    - apply layered_app in HL as (_ & _ & HL). rewrite stack_holds in HL. apply HL; [done| |done]. rewrite before_holds. apply elem_of_app. auto.
    - unfold rest in Hy. rewrite (Hbot Hb), app_nil_r, !holds_app, !elem_of_app in Hy. destruct Hy as [Hy|[Hy|Hy]].
      + apply layered_app in HL as (_ & HL & _). unfold P in HL. rewrite stack_app in HL. apply layered_app in HL as (_ & _ & HL).
        rewrite stack_holds in HL. apply HL; [done| |done]. rewrite concat_app, upper_holds. simpl.
        rewrite holds_app in Hx. rewrite !elem_of_app in *. rewrite holds_A, holds_B. tauto.
      + by apply Hst.
      + apply holds_in in Hy as (p & Hp & Hy). exfalso. by eapply apart_keys; [apply (eB_apart p Hp)|..]. }
  assert (forall a b, a ≡ₚ b -> (forall x, x ∈ a -> x ∈ concat top ++ holds (concat P)) -> read a key seq = read b key seq) as Hread.
  { intros a b Hab Hin. apply read_members; [by eapply agree_subset|by eapply typed_subset|]. intros x. by rewrite Hab. }
  assert (concat top ++ holds (concat P) ≡ₚ (concat top ++ rest) ++ merged) as Hp1.
  { rewrite before_holds, Hm. by rewrite app_assoc. }
  assert (concat top ++ holds (concat P') ≡ₚ (concat top ++ rest) ++ survivors smallest_snapshot bottom merged) as Hp2.
  { rewrite after_holds, Hn. by rewrite app_assoc. }
  rewrite (Hread _ _ Hp1) by done. rewrite (Hread _ _ Hp2); [done|].
  intros x Hx. rewrite elem_of_app in *. destruct Hx as [?|Hx]; [by left|right]. eapply elem_of_submseteq; [exact Hx|apply holds_shrinks].
Qed.

(** *** The manifest can describe the new version *)

Lemma new_in_order v :
  levels v = map (map fst) P -> in_order v -> in_order (install (length pre) removed (map fst new) v).
Proof.
  intros Hl [H0 Hd]. pose proof (install_pairs removed (map fst new) new v pre A B post Hl eq_refl) as Hi.
  fold eA eB P' in Hi. unfold in_order, level_files in *. rewrite Hl in H0, Hd. rewrite Hi. clear Hi Hl.
  assert (StronglySorted (fun a b => Levels.smallest a ≺ Levels.smallest b) (map fst (place eB new))) as Hpl.
  { apply StronglySorted_map. eapply StronglySorted_impl; [|apply new_level_sorted]. by intros p q [? _]. }
  pose proof eA_all as HeA. assert (sublist (map fst eA) (map fst A)) as HsA by apply sublist_map, filter_sublist.
  clearbody eA eB. unfold P, P' in *. destruct (decide (pre = [])) as [->|Hne]; simpl in *.
  - rewrite HeA by done. split; [constructor|]. apply Forall_cons in Hd as [_ Hd]. by constructor.
  - destruct pre as [|p0 pre']; [done|]. simpl in *. split; [done|]. rewrite map_app, Forall_app in *. simpl in *.
    rewrite !Forall_cons in *. destruct Hd as (D1 & D2 & D3 & D4). split_and!; try done. by eapply sublist_StronglySorted.
Qed.

End Replace.

(** ** The database after a compaction *)

Section Compacted.
Context {R : Type}.
Abbreviation DB := (@DB R).
Abbreviation db_ok := (@db_ok R).

(** The memtables, newest first. *)
Definition in_memory (c : contents) : list (list entry) := c_mem c :: option_list (c_imm c).

(** The memtables of [c] over the files [P]. *)
Definition over (c : contents) (P : list (list fpair)) : contents :=
  mkContents (c_mem c) (c_imm c) (map snd (default [] (head P))) (map (map snd) (tail P)).

Lemma over_sources c P : all_sources (over c P) = in_memory c ++ stack P.
Proof. done. Qed.

Lemma over_contents c P : P <> [] -> c_l0 (over c P) :: c_deep (over c P) = map (map snd) P.
Proof. by destruct P. Qed.

Lemma over_everything c P : everything (over c P) = concat (in_memory c) ++ holds (concat P).
Proof. unfold everything. rewrite over_sources, concat_app, stack_holds. done. Qed.

Lemma paired_over truth v c P : paired truth v (c_l0 c) (c_deep c) P -> c = over c P.
Proof.
  intros H. pose proof (pr_contents _ _ _ _ _ H) as Hc. destruct P as [|P0 Pt]; [done|]. simpl in Hc. injection Hc as H0 Hd.
  unfold over. simpl. destruct c; simpl in *. by subst.
Qed.

Lemma live_pairs truth v l0 deep P : paired truth v l0 deep P -> live_tables v = map (fun p => number p.1) (concat P).
Proof.
  intros H. unfold live_tables. rewrite (pr_levels _ _ _ _ _ H), <- concat_map. by rewrite map_map.
Qed.

(** Two levels in the middle. *)
Lemma split_levels {A} (P : list A) level : (S level < length P)%nat ->
  exists pre a b post, P = pre ++ a :: b :: post /\ length pre = level.
Proof.
  intros Hl. destruct (lookup_lt_is_Some_2 P level) as [a Ha]; [lia|]. destruct (lookup_lt_is_Some_2 P (S level)) as [b Hb]; [done|].
  exists (take level P), a, b, (drop (S (S level)) P). rewrite length_take. split; [|lia].
  by rewrite <- (drop_S _ _ _ Hb), <- (drop_S _ _ _ Ha), take_drop.
Qed.

(** *** What is picked *)

Lemma find_member {A} (f : A -> bool) l x : List.find f l = Some x -> x ∈ l.
Proof. intros H. apply find_some in H as [H _]. by apply list_elem_of_In. Qed.

Lemma choose_member pointer files f : choose pointer files = Some f -> f ∈ files.
Proof.
  unfold choose. destruct (List.find _ _) eqn:E; [intros [= <-]; by eapply find_member|].
  destruct files; simpl; [done|]. intros [= <-]. left.
Qed.

Lemma choose_some pointer files : files <> [] -> exists f, choose pointer files = Some f.
Proof. unfold choose. destruct (List.find _ _); [eauto|]. destruct files; simpl; [done|eauto]. Qed.

Lemma pick_inputs_spec level (d : DB) (A : list fpair) :
  level_files (db_current d) level = map fst A ->
  exists I0 pointer, pick_inputs level d = (map fst I0, with_compact_pointer pointer d) /\ sublist I0 A /\
    (level = 0%nat -> I0 = A) /\ (A <> [] -> I0 <> []).
Proof.
  intros Hl. assert (d = with_compact_pointer (db_compact_pointer d) d) as Hd by (by destruct d).
  unfold pick_inputs. destruct level as [|level].
  { exists A, (db_compact_pointer d). rewrite Hl, <- Hd. done. }
  rewrite Hl. destruct (choose _ (map fst A)) as [f|] eqn:Ec.
  - apply choose_member, list_elem_of_fmap in Ec as (p & -> & Hp). exists [p], (<[S level := largest p.1]> (db_compact_pointer d)).
    split_and!; [done|by apply singleton_sublist_l|done|done].
  - exists [], (db_compact_pointer d). rewrite <- Hd. split_and!; [done|apply sublist_nil_l|done|].
    intros Hne. destruct (choose_some (default [] (db_compact_pointer d !! S level)) (map fst A)) as [f Hf]; [by destruct A|congruence].
Qed.

Lemma bottom_most_spec level v (P pre : list (list fpair)) A B post :
  levels v = map (map fst) (pre ++ A :: B :: post) -> length pre = level -> bottom_most level v = true -> concat post = [].
Proof.
  unfold bottom_most. intros Hl Hlen. rewrite Hl, map_app. simpl.
  rewrite drop_app_ge by (rewrite length_map; lia). rewrite length_map.
  replace (level + 2 - length pre)%nat with 2%nat by lia. simpl. intros H. clear -H.
  induction post as [|ps post IH]; simpl in *; [done|]. apply andb_true_iff in H as [H1 H2].
  apply bool_decide_eq_true in H1. apply fmap_nil_inv in H1 as ->. by apply IH.
Qed.

Lemma overlapping_pairs r (B : list fpair) :
  overlapping r (map fst B) = map fst (List.filter (fun p => RangesOverlap p.1 r.1 r.2) B).
Proof. unfold overlapping. by rewrite (map_filter fst (fun f : FileMetaData => RangesOverlap f r.1 r.2) B). Qed.

Lemma dups_above {A} (f : A -> bytes) (g : A -> Z) floor s (l : list A) :
  floor <= s -> NoDup (map f (filter (fun x => floor < g x) l)) -> NoDup (map f (filter (fun x => s < g x) l)).
Proof.
  intros Hs Hnd. assert (sublist (filter (fun x => s < g x) l) (filter (fun x => floor < g x) l)) as Hsub.
  { clear Hnd. induction l as [|x l IH]; [done|]. rewrite !filter_cons. repeat case_decide; try lia.
    - by apply sublist_skip.
    - by apply sublist_cons.
    - done. }
  apply sublist_submseteq, submseteq_Permutation in Hsub as [k Hk]. rewrite Hk in Hnd. by eapply NoDup_map_prefix.
Qed.

(** *** New files that no version names *)

(** The last number a compaction may come to. *)
Abbreviation most c d := (db_next_file_number d + size (everything c)).

Lemma work_ok calm truth truth' floor c d e o next e1 e2 pointer :
  db_ok truth floor c d e -> most c d < 2 ^ 32 - 1 -> work (db_path d) calm truth (w_files (e_world e)) (db_next_file_number d) (most c d) truth' o next e1 ->
  (forall p, (forall n, db_next_file_number d <= n < next -> p <> TablePath (db_path d) n) ->
    w_files (e_world e2) !! p = w_files (e_world e1) !! p) -> e_cache e2 = e_cache e1 ->
  db_ok truth' floor c (with_next_file_number next (with_compact_pointer pointer d)) e2.
Proof.
  intros H Hmost [W1 W2 W3 W4 W5 W6 W7] Hf Hc. pose proof (ok_next _ _ _ _ _ H) as Hn0. split; [|apply H].
  split; cbn [db_mem db_imm db_current db_options db_path db_last_sequence db_snapshots db_next_file_number
    with_next_file_number with_compact_pointer]; try apply H.
  - eapply version_ok_truth; [exact W4|apply H].
  - eapply describable_frame; [apply H|]. intros f Hin.
    pose proof (ok_numbers _ _ _ _ _ H) as Hn. unfold live_tables in Hn. rewrite Forall_map, Forall_forall in Hn.
    pose proof (de_stored _ _ _ _ (ok_files _ _ _ _ _ H)) as Hs. rewrite Forall_forall in Hs.
    assert (forall n, db_next_file_number d <= n < next -> TablePath (db_path d) (number f) <> TablePath (db_path d) n) as Hne.
    { intros n Hr Heq. specialize (Hn f Hin). simpl in Hn. apply TablePath_inj in Heq; [lia|by apply Hs|lia]. }
    by rewrite Hf, W2.
  - eapply Forall_impl; [apply H|]. intros n Hn. simpl in *. lia.
  - lia.
  - done.
  - unfold cache_good. rewrite Hc. apply W6.
Qed.

Lemma abandon_output_spec path calm truth0 fs0 start limit truth o next e :
  0 <= start -> work path calm truth0 fs0 start limit truth o next e ->
  forall p, (forall n, start <= n < next -> p <> TablePath path n) ->
    w_files (abandon_output o (e_world e)) !! p = w_files (e_world e) !! p.
Proof.
  intros _ [W1 W2 W3 W4 W5 W6 W7] p Hp. unfold abandon_output. destruct (out_builder o) as [[b n]|]; [|done].
  destruct W3 as [Hn Hb]. destruct (Abandon_spec (TablePath path n) b (e_world e) Hb) as [[T _] Hcl].
  destruct (Abandon b (e_world e)) as [b' w']. simpl in *. rewrite destroy_closed by done. simpl. by apply T, Hp.
Qed.

(** *** The new version *)

Lemma zip_pairs {A B} (Rel : A -> B -> Prop) l k :
  Forall2 Rel l k -> exists ps : list (A * B), l = map fst ps /\ k = map snd ps /\ Forall (fun p => Rel p.1 p.2) ps.
Proof.
  induction 1 as [|x y l k Hxy _ (ps & -> & -> & Hps)]; [by exists []|]. exists ((x, y) :: ps). split_and!; [done|done|by constructor].
Qed.

Section Installed.
Context (calm : bool) (truth truth' : Key -> option bytes) (floor : Z) (c : contents) (d : DB) (e e1 : Env).
Context (pre : list (list fpair)) (A B : list fpair) (post : list (list fpair)) (I0 new : list fpair) (next : Z) (o : Output).

Let P : list (list fpair) := pre ++ A :: B :: post.
Let range : bytes * bytes := user_range (map fst I0).
Let I1 : list fpair := List.filter (fun p => RangesOverlap p.1 range.1 range.2) B.
Let removed : list FileMetaData := map fst (I0 ++ I1).
Let P' : list (list fpair) := pre ++ erase removed A :: place (erase removed B) new :: post.
Let version : Version := install (length pre) removed (map fst new) (db_current d).

Hypothesis Hok : db_ok truth floor c d e.
Hypothesis HP : paired truth (db_current d) (c_l0 c) (c_deep c) P.
Hypothesis HI0 : sublist I0 A.
Hypothesis Hall : pre = [] -> I0 = A.
Hypothesis Hmost : most c d < 2 ^ 32 - 1.
Hypothesis Hwork : work (db_path d) calm truth (w_files (e_world e)) (db_next_file_number d) (most c d) truth' o next e1.
Hypothesis Hnew : Forall (fun p => file_ok truth' p.1 p.2 /\ stored (db_path d) (db_options d) (w_files (e_world e1)) p.1 /\
  db_next_file_number d <= number p.1 < next) new.
Hypothesis Hnew_unique : NoDup (map (fun p => number p.1) new).
Hypothesis Hnew_sep : separated (map snd new).
Hypothesis Hnew_sub : holds new ⊆+ holds (I0 ++ I1).

Lemma in_new_files : Forall (fun p => file_ok truth' p.1 p.2) new.
Proof. eapply Forall_impl; [exact Hnew|]. by intros p (? & _). Qed.

Lemma unique_pairs : NoDup (map (fun p => number p.1) (concat P)).
Proof. rewrite <- (live_pairs _ _ _ _ _ HP). apply Hok. Qed.

Lemma installed_paired : paired truth' version (c_l0 (over c P')) (c_deep (over c P')) P'.
Proof.
  apply (new_paired truth pre A B post I0 (pr_files _ _ _ _ _ HP) (pr_separated _ _ _ _ _ HP) unique_pairs HI0 Hall truth' new
    (wk_le _ _ _ _ _ _ _ _ _ _ Hwork) in_new_files Hnew_sep Hnew_sub); [apply HP|apply HP].
Qed.

(** The files of the new version: old ones, and new ones. *)
Lemma installed_files p : p ∈ concat P' -> p ∈ concat P \/ p ∈ new.
Proof.
  unfold P', P. rewrite !concat_app. simpl. rewrite !elem_of_app. unfold place. rewrite sort_by_perm, elem_of_app.
  pose proof (sublist_mem p _ _ (filter_sublist (fun q : fpair => negb (bool_decide (number q.1 ∈ map number removed))) A)).
  pose proof (sublist_mem p _ _ (filter_sublist (fun q : fpair => negb (bool_decide (number q.1 ∈ map number removed))) B)).
  unfold erase. tauto.
Qed.

Lemma installed_perm : exists gone, map (fun p : fpair => number p.1) (concat P) ++ map (fun p => number p.1) new ≡ₚ
  map (fun p => number p.1) (concat P') ++ gone.
Proof.
  exists (map (fun p => number p.1) (I0 ++ I1)). rewrite <- !map_app. apply Permutation_map.
  pose proof (A_split pre A B post I0 unique_pairs HI0) as HA. pose proof (B_split pre A B post I0 unique_pairs HI0) as HB.
  fold range I1 removed in HA, HB. unfold P', P. rewrite !concat_app. simpl. unfold place. rewrite sort_by_perm.
  rewrite HA at 1. rewrite HB at 1. solve_Permutation.
Qed.

Lemma old_number p : p ∈ concat P -> 0 <= number p.1 < db_next_file_number d.
Proof.
  intros Hp. assert (p.1 ∈ concat (levels (db_current d))) as Hin.
  { rewrite (pr_levels _ _ _ _ _ HP), <- concat_map. apply list_elem_of_fmap. by exists p. }
  pose proof (ok_numbers _ _ _ _ _ Hok) as Hn. unfold live_tables in Hn. rewrite Forall_map, Forall_forall in Hn.
  pose proof (de_stored _ _ _ _ (ok_files _ _ _ _ _ Hok)) as Hs. rewrite Forall_forall in Hs.
  specialize (Hn _ Hin). specialize (Hs _ Hin). simpl in Hn. destruct Hs. lia.
Qed.

Lemma installed_unique : NoDup (live_tables version) /\ Forall (fun n => 0 <= n < next) (live_tables version).
Proof.
  rewrite (live_pairs _ _ _ _ _ installed_paired). pose proof (wk_next _ _ _ _ _ _ _ _ _ _ Hwork) as Hn. split.
  - destruct installed_perm as [gone Hg]. assert (NoDup (map (fun p : fpair => number p.1) (concat P') ++ gone)) as Hnd.
    { rewrite <- Hg. apply NoDup_app. split_and!; [apply unique_pairs| |done]. intros n Hp Hq.
      apply list_elem_of_fmap in Hp as (p & -> & Hp), Hq as (q & Heq & Hq). pose proof (old_number p Hp).
      rewrite Forall_forall in Hnew. specialize (Hnew q Hq). lia. }
    by apply NoDup_app in Hnd as (? & _ & _).
  - apply Forall_map, Forall_forall. intros p Hp. apply installed_files in Hp as [Hp|Hp]; simpl.
    + pose proof (old_number p Hp). lia.
    + rewrite Forall_forall in Hnew. pose proof (ok_next _ _ _ _ _ Hok). specialize (Hnew p Hp). lia.
Qed.

Lemma installed_describable : describable (db_path d) (db_options d) (w_files (e_world e1)) version.
Proof.
  pose proof (wk_next _ _ _ _ _ _ _ _ _ _ Hwork) as Hn. destruct installed_unique as [Hu Hf]. split.
  - rewrite (pr_levels _ _ _ _ _ installed_paired), length_map. apply installed_paired.
  - rewrite (pr_levels _ _ _ _ _ installed_paired), <- concat_map, Forall_map. apply Forall_forall. intros p Hp. simpl.
    apply installed_files in Hp as [Hp|Hp]; [|rewrite Forall_forall in Hnew; by apply Hnew].
    pose proof (old_number p Hp) as Hold. pose proof (de_stored _ _ _ _ (ok_files _ _ _ _ _ Hok)) as Hs.
    rewrite (pr_levels _ _ _ _ _ HP), <- concat_map, Forall_map, Forall_forall in Hs.
    eapply stored_frame; [by apply Hs|]. apply (wk_files _ _ _ _ _ _ _ _ _ _ Hwork). intros n Hr Heq.
    apply TablePath_inj in Heq; pose proof (ok_next _ _ _ _ _ Hok); lia.
  - pose proof (numbers_bound _ _ Hu Hf) as Hb. unfold live_tables in Hb. unfold size in *. rewrite length_map in Hb. lia.
  - apply (new_in_order truth pre A B post I0 (pr_files _ _ _ _ _ HP) (pr_separated _ _ _ _ _ HP) unique_pairs HI0 Hall truth' new
      (wk_le _ _ _ _ _ _ _ _ _ _ Hwork) in_new_files Hnew_sep Hnew_sub); [apply HP|apply Hok].
Qed.

Lemma before_over : c = over c P.
Proof. eapply paired_over, HP. Qed.

Lemma installed_shrinks : everything (over c P') ⊆+ everything c.
Proof.
  rewrite before_over at 2. rewrite !over_everything. apply submseteq_app; [done|].
  apply (holds_shrinks pre A B post I0 unique_pairs HI0 new Hnew_sub).
Qed.

Lemma installed_layered : layered (all_sources (over c P')).
Proof.
  rewrite over_sources. pose proof (ok_layered _ _ _ _ _ Hok) as HL. rewrite before_over, over_sources in HL.
  by apply (new_layered truth pre A B post I0 (pr_files _ _ _ _ _ HP) (pr_separated _ _ _ _ _ HP) unique_pairs HI0 Hall new Hnew_sub).
Qed.

Lemma installed_ok pointer s d2 e2 :
  CommitVersion version (with_next_file_number next (with_compact_pointer pointer d)) e1 = (s, d2, e2) ->
  db_ok truth' floor (over c P') d2 e2.
Proof.
  intros Hcv. destruct (CommitVersion_spec _ _ _ _ _ _ Hcv) as (-> & Hca & Hcm).
  destruct (everything_shrink c (over c P') (db_options d) (db_last_sequence d) floor installed_shrinks)
    as (Hag & Hsq & Hdu & Hro); [apply Hok..|]. destruct installed_unique as [Hu Hn].
  pose proof Hwork as [W1 W2 W3 W4 W5 W6 W7]. pose proof (ok_next _ _ _ _ _ Hok) as Hn0. split; [|apply installed_layered].
  split; cbn [db_mem db_imm db_current db_options db_path db_last_sequence db_snapshots db_next_file_number
    with_current with_next_file_number with_compact_pointer]; try done; try apply Hok.
  - eapply pairs_version, installed_paired.
  - eapply committed_describable; [exact Hcm|]. apply installed_describable.
  - eapply Forall_impl; [exact Hn|]. intros n Hr. simpl in Hr. lia.
  - lia.
  - unfold cache_good. rewrite Hca. apply W6.
Qed.

(** No read at or above the smallest snapshot changes. *)
Lemma installed_reads merged bottom key seq :
  merged ≡ₚ holds (I0 ++ I1) -> StronglySorted entry_le merged -> holds new = survivors (SmallestSnapshot d) bottom merged ->
  SmallestSnapshot d <= seq -> (bottom = true -> concat post = []) ->
  value_of (read (everything (over c P')) key seq) = value_of (read (everything c) key seq).
Proof.
  intros Hm Hs Hn Hseq Hbot. destruct (ok_smallest _ _ _ _ _ Hok) as [_ Hsm].
  pose proof (ok_layered _ _ _ _ _ Hok) as HL. pose proof (ok_agree _ _ _ _ _ Hok) as Hag. pose proof (ok_typed _ _ _ _ _ Hok) as Hty.
  assert (everything c = concat (in_memory c) ++ holds (concat P)) as He by (rewrite before_over at 1; apply over_everything).
  rewrite before_over, over_sources in HL. rewrite He in Hag, Hty |- *. rewrite over_everything.
  by eapply (replaced_reads truth pre A B post I0 (pr_files _ _ _ _ _ HP) (pr_separated _ _ _ _ _ HP) unique_pairs HI0 Hall new Hnew_sub
    (in_memory c) merged).
Qed.

End Installed.

(** ** [DoCompaction] *)

(** What the inputs of a compaction hold is part of the database. *)
Lemma inputs_part (pre : list (list fpair)) A B post I0 I1 :
  sublist I0 A -> sublist I1 B -> holds (I0 ++ I1) ⊆+ holds (concat (pre ++ A :: B :: post)).
Proof.
  intros H0 H1. rewrite concat_app. simpl. rewrite !holds_app. apply submseteq_inserts_l. rewrite app_assoc.
  apply submseteq_inserts_r. apply submseteq_app; apply sublist_submseteq; rewrite <- !flat_map_concat_map; clear -H0 H1.
  - induction H0; simpl; [done|by apply sublist_app|by apply sublist_inserts_l].
  - induction H1; simpl; [done|by apply sublist_app|by apply sublist_inserts_l].
Qed.

(** The entries, each counted as often as it can still move down. *)
Fixpoint falls (levels_left : Z) (ls : list (list (list entry))) : Z :=
  match ls with
  | [] => 0
  | ess :: ls => levels_left * size (concat ess) + falls (levels_left - 1) ls
  end.

Definition to_fall (c : contents) : Z := 8 * size (default [] (c_imm c)) + falls 7 (c_l0 c :: c_deep c).

Lemma falls_app n a b : falls n (a ++ b) = falls n a + falls (n - size a) b.
Proof.
  revert n. induction a as [|ps a IH]; intros n; simpl; [by rewrite Z.sub_0_r|]. rewrite IH, size_cons.
  replace (n - 1 - size a) with (n - (1 + size a)) by lia. lia.
Qed.

Lemma size_perm {A} (a b : list A) : a ≡ₚ b -> size a = size b.
Proof. intros H. unfold size. by rewrite H. Qed.

Lemma size_submseteq {A} (a b : list A) : a ⊆+ b -> size a <= size b.
Proof. intros H%submseteq_length. unfold size. lia. Qed.

(** What is merged ends up one level further down. *)
Lemma falls_install n pre (A B : list fpair) post I0 I1 eA eB new :
  A ≡ₚ I0 ++ eA -> B ≡ₚ I1 ++ eB -> holds new ⊆+ holds (I0 ++ I1) -> size pre < n ->
  falls n (map (map snd) (pre ++ eA :: place eB new :: post)) + size (holds I0) <= falls n (map (map snd) (pre ++ A :: B :: post)).
Proof.
  intros HA HB Hn Hp. rewrite !map_app, !falls_app. simpl. replace (size (map (map snd) pre)) with (size pre) by (unfold size; by rewrite length_map).
  pose proof (size_perm _ _ (holds_perm _ _ HA)) as SA. pose proof (size_perm _ _ (holds_perm _ _ HB)) as SB.
  pose proof (size_submseteq _ _ Hn) as Sn. rewrite holds_app, size_app in SA, SB, Sn.
  assert (size (holds (place eB new)) = size (holds eB) + size (holds new)) as SP.
  { unfold place. rewrite (size_perm _ _ (holds_perm _ _ (sort_by_perm _ _))), holds_app, size_app. done. }
  rewrite SP, SA, SB. set (k := n - size pre) in *. assert (0 <= k - 1) by lia. nia.
Qed.

Record compaction_result (truth : Key -> option bytes) (floor : Z) (c : contents) (d : DB) (e : Env)
    (s : Status) (d' : DB) (e' : Env) (c' : contents) : Prop := {
  cr_session : same_session d d';
  cr_imm : db_imm d' = db_imm d /\ db_imm_log_number d' = db_imm_log_number d /\ c_mem c' = c_mem c /\ c_imm c' = c_imm c;
  cr_shrinks : everything c' ⊆+ everything c;
  cr_reads : forall key seq, SmallestSnapshot d <= seq ->
    value_of (read (everything c') key seq) = value_of (read (everything c) key seq);
  cr_failed : Status.ok s = false -> db_bg_error d' = s;
  cr_fine : Status.ok s = true -> db_bg_error d' = db_bg_error d;
  cr_next : db_next_file_number d <= db_next_file_number d' <= db_next_file_number d + size (everything c);
  cr_calm : w_oracle (e_world e) = [] -> s = Status.OK /\ w_oracle (e_world e') = [];
  cr_disk : disk_outcome c d (e_world e) s c' d' (e_world e')
}.

Section DoCompaction.
Context (truth : Key -> option bytes) (floor : Z) (c : contents) (d : DB) (e : Env).
Context (pre : list (list fpair)) (A B : list fpair) (post : list (list fpair)) (I0 : list fpair).

Let calm : bool := bool_decide (w_oracle (e_world e) = []).
Let range : bytes * bytes := user_range (map fst I0).
Let I1 : list fpair := List.filter (fun p => RangesOverlap p.1 range.1 range.2) B.
Let removed : list FileMetaData := map fst (I0 ++ I1).

Hypothesis Hok : db_ok truth floor c d e.
Hypothesis HP : paired truth (db_current d) (c_l0 c) (c_deep c) (pre ++ A :: B :: post).
Hypothesis HI0 : sublist I0 A.
Hypothesis Hall : pre = [] -> I0 = A.
Hypothesis Hroom : db_next_file_number d + size (everything c) < 2 ^ 32 - 1.

Lemma inputs_in : holds (I0 ++ I1) ⊆+ everything c.
Proof.
  rewrite (paired_over _ _ _ _ HP), over_everything. apply submseteq_inserts_l, inputs_part; [done|apply filter_sublist].
Qed.

Lemma inputs_ok : Forall2 (file_ok truth) removed (map snd (I0 ++ I1)).
Proof.
  apply pairs_files. destruct (AB_files truth pre A B post (pr_files _ _ _ _ _ HP)) as [HA HB].
  apply Forall_app. split; [by eapply sublist_Forall|]. eapply sublist_Forall; [apply filter_sublist|done].
Qed.

Lemma run_inputs bottom :
  exists merged s o next e1 truth', merges (map snd (I0 ++ I1)) merged /\
    run_compaction (db_path d) (db_options d) (SmallestSnapshot d) bottom removed (db_next_file_number d) e = Some (s, o, next, e1) /\
    work (db_path d) calm truth (w_files (e_world e)) (db_next_file_number d) (most c d) truth' o next e1 /\
    (calm = true -> Status.ok s = true) /\
    (Status.ok s = true -> exists outs, out_builder o = None /\ concat outs = survivors (SmallestSnapshot d) bottom merged /\
      loop_inv (db_path d) (db_options d) calm truth (w_files (e_world e)) (db_next_file_number d) (most c d) truth' o outs [] next e1).
Proof.
  pose proof inputs_in as Hin. destruct (ok_smallest _ _ _ _ _ Hok) as [[Hfl _] Hsm]. pose proof (ok_next _ _ _ _ _ Hok) as Hn.
  pose proof (size_submseteq _ _ Hin) as Hsz.
  destruct (run_compaction_spec (db_path d) (db_options d) (SmallestSnapshot d) bottom calm truth (w_files (e_world e))
    (db_next_file_number d) (most c d) ltac:(lia) Hroom Hsm removed (map snd (I0 ++ I1)) e) as (merged & s & o & next & e1 & truth' & Hrun); try done.
  - apply inputs_ok.
  - eapply typed_subset; [|eapply ok_typed; exact Hok]. intros x Hx. by eapply elem_of_submseteq.
  - apply (dups_above fst sequence floor); [done|]. pose proof (ok_dups _ _ _ _ _ Hok) as Hd.
    apply submseteq_Permutation in Hin as [k Hk]. rewrite Hk, filter_app in Hd. by eapply NoDup_map_prefix.
  - eapply writable_sub; [exact Hin|apply Hok].
  - lia.
  - apply Hok.
  - apply Hok.
  - intros Hc. by apply bool_decide_eq_true in Hc.
  - exists merged, s, o, next, e1, truth'. tauto.
Qed.

(** The end of a compaction that wrote its files. *)
Lemma commit_outputs pointer bottom merged o outs next e1 truth' s d2 e2 :
  merges (map snd (I0 ++ I1)) merged -> concat outs = survivors (SmallestSnapshot d) bottom merged ->
  (bottom = true -> concat post = []) ->
  loop_inv (db_path d) (db_options d) calm truth (w_files (e_world e)) (db_next_file_number d) (most c d) truth' o outs [] next e1 ->
  CommitVersion (install (length pre) removed (out_files o) (db_current d))
    (with_next_file_number next (with_compact_pointer pointer d)) e1 = (s, d2, e2) ->
  exists P', db_ok truth' floor (over c P') d2 e2 /\ everything (over c P') ⊆+ everything c /\
    (forall key seq, SmallestSnapshot d <= seq ->
      value_of (read (everything (over c P')) key seq) = value_of (read (everything c) key seq)) /\
    to_fall (over c P') + size (holds I0) <= to_fall c.
Proof.
  intros Hm Hco Hbot [W1 W2 W3 _ W5 W6] Hcv.
  destruct (zip_pairs _ _ _ W2) as (new & Hof & Hou & Hnew). pose proof (merges_perm _ _ Hm) as Hmp.
  assert (holds new = survivors (SmallestSnapshot d) bottom merged) as Hhn by (by rewrite <- Hco, Hou).
  assert (holds new ⊆+ holds (I0 ++ I1)) as Hsub.
  { rewrite Hhn, <- Hmp. apply sublist_submseteq, gc_filter_sublist. }
  assert (separated (map snd new)) as Hsep.
  { rewrite <- Hou. intros i j a b x y Hij Ha Hb. apply (W6 i j a b x y Hij); by apply lookup_app_l_Some. }
  assert (NoDup (map (fun p => number p.1) new)) as Hun by (by rewrite Hof, map_map in W3).
  rewrite Hof in Hcv. exists (pre ++ erase removed A :: place (erase removed B) new :: post). split_and!.
  - eapply (installed_ok calm truth truth' floor c d e e1 pre A B post I0 new next o); try done.
  - eapply (installed_shrinks truth floor c d e pre A B post I0 new); try done.
  - intros key seq Hseq. eapply (installed_reads truth floor c d e pre A B post I0 new); try done.
    eapply merges_sorted; [exact Hm|]. pose proof inputs_ok as Hio. clear -Hio. induction Hio; constructor; [by eapply file_sorted|done].
  - unfold to_fall. rewrite (pr_contents _ _ _ _ _ HP), over_contents by (by destruct pre). simpl c_imm.
    rewrite <- Z.add_assoc. apply Z.add_le_mono_l.
    pose proof (unique_pairs _ _ _ _ _ _ _ _ _ Hok HP) as Hu. eapply falls_install; [by apply (A_split pre A B post)|by apply (B_split pre A B post)|done|].
    pose proof (pr_length _ _ _ _ _ HP) as Hl. rewrite length_app in Hl. simpl in Hl. unfold size, kNumLevels in *. lia.
Qed.

End DoCompaction.

Lemma same_result truth floor c d e pointer s :
  db_ok truth floor c d e -> s = Status.OK -> db_next_file_number d + size (everything c) < 2 ^ 32 - 1 ->
  compaction_result truth floor c d e s (with_compact_pointer pointer d) e c.
Proof.
  intros H -> Hroom. pose proof (size_nonneg (everything c)). split; try done; simpl; [lia|by constructor].
Qed.

Lemma inputs_hold truth (I0 : list fpair) :
  Forall (fun p => file_ok truth p.1 p.2) I0 -> I0 <> [] -> 0 < size (holds I0).
Proof.
  destruct 1 as [|p ps Hp _]; [done|]. intros _. simpl. rewrite size_app. pose proof (size_nonneg (holds ps)).
  apply file_nonempty in Hp. destruct (p.2) as [|x l]; [done|]. rewrite size_cons. pose proof (size_nonneg l). lia.
Qed.

(** A compaction that fails before it commits. *)
Lemma abandoned_result truth floor c d e pointer s o next e1 truth' :
  let calm := bool_decide (w_oracle (e_world e) = []) in
  let d' := with_bg_error s (with_next_file_number next (with_compact_pointer pointer d)) in
  let e' := with_world (abandon_output o (e_world e1)) e1 in
  db_ok truth floor c d e -> most c d < 2 ^ 32 - 1 ->
  work (db_path d) calm truth (w_files (e_world e)) (db_next_file_number d) (most c d) truth' o next e1 -> Status.ok s = false ->
  (w_oracle (e_world e) = [] -> false = true) ->
  db_ok truth' floor c d' e' /\ compaction_result truth floor c d e s d' e' c.
Proof.
  intros calm d' e' Hok Hroom Hwork Hs Hcalm. pose proof (wk_next _ _ _ _ _ _ _ _ _ _ Hwork). pose proof (ok_next _ _ _ _ _ Hok). split.
  - assert (db_ok truth' floor c (with_next_file_number next (with_compact_pointer pointer d)) e') as Hd; [|by same_db Hd].
    eapply work_ok; [exact Hok|exact Hroom|exact Hwork| |done]. by eapply abandon_output_spec; [lia|].
  - split; try done; [congruence|intros Ho; by specialize (Hcalm Ho)|]. constructor; [|done..].
    intros p Hp. unfold e'. cbn [e_world with_world]. rewrite (abandon_output_spec (db_path d) calm truth (w_files (e_world e))
      (db_next_file_number d) (most c d) truth' o next e1 ltac:(lia) Hwork p Hp). by apply (wk_files _ _ _ _ _ _ _ _ _ _ Hwork).
Qed.

(** One that reaches its commit. *)
Lemma committed_result truth floor c d e pointer o next e1 truth' P' version s d2 e2 :
  let calm := bool_decide (w_oracle (e_world e) = []) in
  work (db_path d) calm truth (w_files (e_world e)) (db_next_file_number d) (most c d) truth' o next e1 ->
  CommitVersion version (with_next_file_number next (with_compact_pointer pointer d)) e1 = (s, d2, e2) ->
  db_ok truth' floor (over c P') d2 e2 -> everything (over c P') ⊆+ everything c ->
  (forall key seq, SmallestSnapshot d <= seq ->
    value_of (read (everything (over c P')) key seq) = value_of (read (everything c) key seq)) ->
  forall stats, exists s' d', (if negb (Status.ok s) then Some (s, with_bg_error s d2, e2)
    else Some (Status.OK, with_db_stats (stats d2) d2, e2)) = Some (s', d', e2) /\
    db_ok truth' floor (over c P') d' e2 /\ compaction_result truth floor c d e s' d' e2 (over c P').
Proof.
  intros calm Hwork Hcv Hok Hsub Hreads stats. pose proof (wk_next _ _ _ _ _ _ _ _ _ _ Hwork) as Hn.
  destruct (CommitVersion_spec _ _ _ _ _ _ Hcv) as (-> & _ & Hcm).
  assert (w_oracle (e_world e) = [] -> s = Status.OK /\ w_oracle (e_world e2) = []) as Hcal.
  { intros Ho. apply (cm_calm _ _ _ _ _ _ _ _ Hcm), (wk_calm _ _ _ _ _ _ _ _ _ _ Hwork). by apply bool_decide_eq_true. }
  assert (forall d', db_next_file_number d' = next -> only_new d d' (e_world e) (e_world e1)) as Hnew.
  { intros d' Hd p Hp. apply (wk_files _ _ _ _ _ _ _ _ _ _ Hwork). by rewrite <- Hd. }
  destruct (Status.ok s) eqn:Hs; cbn [negb]; do 2 eexists; (split; [done|]); (split; [by same_db Hok|]).
  - split; try done; simpl; [intros Ho; split; [done|by apply Hcal]|]. apply (disk_commit _ _ _ _ _ _ _ (e_world e1) s); [by apply Hnew|by rewrite Hs|exact Hcm|by right].
  - split; try done; [congruence|]. apply (disk_commit _ _ _ _ _ _ _ (e_world e1) s); [by apply Hnew|by rewrite Hs|exact Hcm|by right].
Qed.

Lemma Compaction_spec truth floor c d e level :
  db_ok truth floor c d e -> (S level < kNumLevels)%nat -> db_next_file_number d + size (everything c) < 2 ^ 32 - 1 ->
  exists s d' e' truth' c', DoCompaction level d e = Some (s, d', e') /\ db_ok truth' floor c' d' e' /\
    compaction_result truth floor c d e s d' e' c' /\
    (Status.ok s = true -> level_files (db_current d) level <> [] -> to_fall c' < to_fall c).
Proof.
  intros Hok Hlevel Hroom. destruct (version_pairs _ _ _ _ (ok_version _ _ _ _ _ Hok)) as [P HP]. pose proof (pr_length _ _ _ _ _ HP) as Hlen.
  destruct (split_levels P level) as (pre & A & B & post & -> & Hpre); [lia|].
  pose proof (pr_levels _ _ _ _ _ HP) as Hlv. pose proof Hlv as Hlv0. rewrite map_app in Hlv. simpl in Hlv.
  assert (level_files (db_current d) level = map fst A /\ level_files (db_current d) (S level) = map fst B) as [HlA HlB].
  { unfold level_files. rewrite Hlv, !lookup_app_r by (rewrite length_map; lia). rewrite length_map, Hpre, Nat.sub_diag.
    by replace (S level - level)%nat with 1%nat by lia. }
  unfold DoCompaction. destruct (pick_inputs_spec level d A HlA) as (I0 & pointer & -> & HI0 & Hall & Hne).
  assert (pre = [] -> I0 = A) as Hall' by (intros ->; by apply Hall).
  destruct (map fst I0) as [|f0 fs] eqn:Ef.
  { apply fmap_nil_inv in Ef as ->. do 3 eexists. exists truth, c. split_and!; [done| | |].
    - by same_db Hok.
    - by apply same_result.
    - intros _ HA. exfalso. apply Hne; [|done]. intros ->. by rewrite HlA in HA. }
  rewrite <- Ef in *. rewrite HlB, overlapping_pairs, <- map_app. cbn [db_path db_options db_current db_next_file_number with_compact_pointer].
  change (SmallestSnapshot (with_compact_pointer pointer d)) with (SmallestSnapshot d).
  destruct (run_inputs truth floor c d e pre A B post I0 Hok HP HI0 Hroom (bottom_most level (db_current d)))
    as (merged & s & o & next & e1 & truth' & Hm & -> & Hwork & Hcalm & Hs). cbn [mbind option_bind].
  destruct (Status.ok s) eqn:Hst; cbn [negb].
  2:{ destruct (abandoned_result truth floor c d e pointer s o next e1 truth' Hok Hroom Hwork Hst) as [H1 H2];
        [intros Ho; by apply Hcalm, bool_decide_eq_true|].
      do 3 eexists. exists truth', c. split_and!; [done|done|done|congruence]. }
  destruct (Hs eq_refl) as (outs & Hnone & Hco & Hinv).
  set (ib := sum_sizes _ (sum_sizes _ 0)). destruct (CommitVersion _ _ e1) as [[s2 d2] e2] eqn:Hcv.
  destruct (commit_outputs truth floor c d e pre A B post I0 Hok HP HI0 Hall' Hroom pointer (bottom_most level (db_current d))
    merged o outs next e1 truth' s2 d2 e2) as (P' & Hok' & Hsub & Hreads & Hfalls); try done.
  { by eapply bottom_most_spec. }
  { by rewrite Hpre. }
  destruct (committed_result truth floor c d e pointer o next e1 truth' P' _ s2 d2 e2 Hwork Hcv Hok' Hsub Hreads
    (fun d2 => count_compaction ib (out_bytes o) (db_stats d2))) as (s3 & d3 & Heq & H1 & H2). do 3 eexists. exists truth', (over c P'). split_and!; [exact Heq|done|done|].
  intros _ HA. pose proof (inputs_hold truth I0) as Hpos.
  assert (0 < size (holds I0)); [|lia]. apply Hpos; [|by apply Hne; intros ->; rewrite HlA in HA].
  destruct (AB_files truth pre A B post (pr_files _ _ _ _ _ HP)) as [HfA _]. by eapply sublist_Forall.
Qed.

(** C6: A compaction is invisible. Whatever the system calls do, compacting a
    level leaves a consistent database, with disjoint files in every level below
    the first, in which every read at or above the smallest snapshot finds the
    same value, and nothing is stored that was not stored before; a failure is
    recorded, and nothing fails when no call does. *)
Theorem compaction_transparent truth floor c d e level :
  db_ok truth floor c d e -> (S level < kNumLevels)%nat ->
  db_next_file_number d + size (everything c) < 2 ^ 32 - 1 ->
  exists s d' e' truth' c', DoCompaction level d e = Some (s, d', e') /\ db_ok truth' floor c' d' e' /\
    (forall key seq, SmallestSnapshot d <= seq ->
      value_of (read (everything c') key seq) = value_of (read (everything c) key seq)) /\
    everything c' ⊆+ everything c /\
    (Status.ok s = false -> db_bg_error d' = s) /\ (w_oracle (e_world e) = [] -> s = Status.OK).
Proof.
  intros Hok Hl Hroom.
  destruct (Compaction_spec truth floor c d e level Hok Hl Hroom) as (s & d' & e' & truth' & c' & E & Hok' & Hr & _).
  exists s, d', e', truth', c'. split_and!; [done|done|apply Hr|apply Hr|apply Hr|]. intros Ho. by apply Hr.
Qed.

End Compacted.

(** A compaction of level 0, after a flush. *)
Lemma compaction_transparent_witness :
  exists d e c, level_files (db_current d) 0 <> [] /\ read (everything c) [Byte.x61] 3 = Some (Some [Byte.x31]) /\
    exists s d' e' c', DoCompaction (R := list Z) 0 d e = Some (s, d', e') /\
      value_of (read (everything c') [Byte.x61] 3) = Some [Byte.x31].
Proof.
  destruct (Flush_spec (fun _ => None) 0 small_contents (small_db default_Options) small_env)
    as (s & d & e & truth & c & E & Hok & Hss & _ & H1 & _ & H2 & Hn & _); [apply small_db_ok, small_writable; reflexivity|reflexivity|].
  destruct (H2 eq_refl) as [-> Ho]. destruct (H1 eq_refl) as (Hc & _ & _). exists d, e, c.
  assert (level_files (db_current d) 0 <> []) as Hne.
  { intros He. pose proof (vo_l0 _ _ _ _ (ok_version _ _ _ _ _ Hok)) as H0. rewrite He, Hc in H0. inversion H0. }
  split; [exact Hne|]. split; [rewrite Hc; vm_compute; reflexivity|].
  destruct (compaction_transparent truth 0 c d e 0 Hok) as (s & d' & e' & truth' & c' & Hd & _ & Hr & _).
  - unfold kNumLevels. lia.
  - rewrite Hc. change (size (everything (flushed (small_db default_Options) small_contents))) with 2.
    change (db_next_file_number (small_db default_Options)) with 4 in Hn. lia.
  - exists s, d', e', c'. split; [exact Hd|]. rewrite Hr.
    + rewrite Hc. vm_compute. reflexivity.
    + destruct (ok_smallest _ _ _ _ _ Hok) as [Hs _]. rewrite (ss_last _ _ Hss) in Hs. apply Hs.
Defined.
