(* ===== verification/Background.v ===== *)
(** * Background work (src/db.cpp: [PickCompactionLevel] to [DrainBackgroundWork])

    A database with work to do flushes its immutable memtable first, then
    compacts the level most over its budget, and stops when every level is within
    it. Draining ends, whatever the system calls do, because every turn moves
    versions down or drops them. *)

From Stdlib Require Import SpecFloat.
From stdpp Require Import gmap strings sorting.
From S2P Require Import Prelude Coding InternalKey Posix Versions Bloom Iterator Skiplist MemTable Cache Block Merge DbIter Options Sstable Table Levels ReadPath Gc FileNames Manifest Db Flush Compaction Install.

Section Background.
Context {R : Type}.
Abbreviation DB := (@DB R).
Abbreviation db_ok := (@db_ok R).

Definition HasPendingWork (d : DB) : bool :=
  match db_imm d with
  | Some _ => true
  | None => 0 <=? PickCompactionLevel (db_options d) (db_current d)
  end.

Definition BackgroundWorkOnce (d : DB) (e : Env) : option (Status * DB * Env) :=
  match db_imm d with
  | Some _ => FlushImmutableMemTable d e
  | None =>
      let level := PickCompactionLevel (db_options d) (db_current d) in
      if level <? 0 then Some (Status.OK, d, e) else DoCompaction (Z.to_nat level) d e
  end.

(** [None] also when the fuel runs out: it never does, see [Drain_spec]. *)
Fixpoint DrainBackgroundWork (fuel : nat) (d : DB) (e : Env) : option (Status * DB * Env) :=
  match fuel with
  | O => None
  | S fuel =>
      if Status.ok (db_bg_error d) && HasPendingWork d then
        '(s, d, e) ← BackgroundWorkOnce d e;
        if negb (Status.ok s) then Some (s, d, e) else DrainBackgroundWork fuel d e
      else Some (db_bg_error d, d, e)
  end.

(** ** The level that is picked *)

(** Above zero. *)
Definition positive (x : spec_float) : bool :=
  match x with S754_finite false _ _ | S754_infinity false => true | _ => false end.

Lemma positive_lt b x : positive b = true -> SFltb b x = true -> positive x = true.
Proof. destruct b as [|[]| |[] mb eb], x as [|[]| |[] mx ex]; done. Qed.

Lemma not_above b y : positive b = true -> SFltb b (SFdiv 53 1024 (to_double 0) y) = false.
Proof. change (to_double 0) with (S754_zero false). destruct y as [|[]| |[] m x], b as [|[]| |[] mb eb]; done. Qed.

Lemma empty_level_bytes v level : level_files v level = [] -> LevelBytes v level = 0.
Proof. intros H. unfold LevelBytes. by rewrite H. Qed.

Lemma best_level_spec options v n : forall level best score,
  positive score = true -> (best = -1 \/ 1 <= best < level /\ level_files v (Z.to_nat best) <> []) -> 1 <= level ->
  let r := best_level options v n level best score in
  r = -1 \/ 1 <= r < level + Z.of_nat n /\ level_files v (Z.to_nat r) <> [].
Proof.
  induction n as [|n IH]; intros level best score Hp Hb Hl; simpl; [destruct Hb as [->|[? ?]]; [by left|right; split; [lia|done]]|].
  set (sc := SFdiv _ _ _ _). destruct (SFltb score sc) eqn:E.
  - assert (level_files v (Z.to_nat level) <> []) as Hne.
    { intros He. unfold sc in E. rewrite (empty_level_bytes _ _ He), not_above in E; done. }
    destruct (IH (level + 1) level sc) as [->|[? ?]]; [by eapply positive_lt|right; split; [lia|done]|lia|by left|right; split; [lia|done]].
  - destruct (IH (level + 1) best score) as [->|[? ?]]; [done| |lia|by left|right; split; [lia|done]].
    destruct Hb as [->|[? ?]]; [by left|right; split; [lia|done]].
Qed.

(** The level picked exists, has a level below it, and is not empty. *)
Lemma PickCompactionLevel_spec options v :
  0 < u64 (l0_compaction_trigger options) ->
  let level := PickCompactionLevel options v in
  level = -1 \/ 0 <= level < Z.of_nat kNumLevels - 1 /\ level_files v (Z.to_nat level) <> [].
Proof.
  intros Ht. unfold PickCompactionLevel. destruct (Z.leb_spec (u64 (l0_compaction_trigger options)) (size (level_files v 0))) as [H|H].
  - right. split; [done|]. intros He. change (Z.to_nat 0) with 0%nat in He. rewrite He in H. change (size []) with 0 in H. lia.
  - destruct (best_level_spec options v (kNumLevels - 2) 1 (-1) (to_double 1)) as [->|[H1 H2]];
      [vm_compute; done|by left|lia|by left|]. right. split; [|done]. unfold kNumLevels in *. lia.
Qed.

(** ** Turns *)

(** What a turn, or several, may do. [used] bounds the file numbers it takes. *)
Record turned (used : Z) (c : contents) (d : DB) (e : Env) (s : Status) (c' : contents) (d' : DB) (e' : Env) : Prop := {
  tu_session : same_session d d';
  tu_mem : c_mem c' = c_mem c;
  tu_shrinks : everything c' ⊆+ everything c;
  tu_reads : forall key seq, SmallestSnapshot d <= seq ->
    value_of (read (everything c') key seq) = value_of (read (everything c) key seq);
  tu_failed : Status.ok s = false -> db_bg_error d' = s;
  tu_fine : Status.ok s = true -> db_bg_error d' = db_bg_error d;
  tu_next : db_next_file_number d <= db_next_file_number d';
  tu_used : db_next_file_number d' <= db_next_file_number d + used;
  tu_calm : w_oracle (e_world e) = [] -> db_bg_error d = Status.OK -> s = Status.OK /\ w_oracle (e_world e') = []
}.

Lemma same_smallest (d d' : DB) : same_session d d' -> SmallestSnapshot d' = SmallestSnapshot d.
Proof. intros [H1 H2 H3 H4 H5 H6 H7]. unfold SmallestSnapshot. by rewrite H4, H5. Qed.

Lemma same_session_trans (d d' d'' : DB) : same_session d d' -> same_session d' d'' -> same_session d d''.
Proof. intros [H1 H2 H3 H4 H5 H6 H7] [G1 G2 G3 G4 G5 G6 G7]. split; congruence. Qed.

Lemma turned_trans used used' c d e s c' d' e' s' c'' d'' e'' :
  turned used c d e s c' d' e' -> Status.ok s = true -> turned used' c' d' e' s' c'' d'' e'' ->
  turned (used + used') c d e s' c'' d'' e''.
Proof.
  intros H Hs H'. pose proof (same_smallest _ _ (tu_session _ _ _ _ _ _ _ _ H)) as Hsm. split.
  - eapply same_session_trans; [apply H|apply H'].
  - etrans; [apply H'|apply H].
  - etrans; [apply H'|apply H].
  - intros key seq Hq. rewrite (tu_reads _ _ _ _ _ _ _ _ H') by (by rewrite Hsm). by apply (tu_reads _ _ _ _ _ _ _ _ H).
  - apply H'.
  - intros Hs'. rewrite (tu_fine _ _ _ _ _ _ _ _ H' Hs'). by apply (tu_fine _ _ _ _ _ _ _ _ H).
  - pose proof (tu_next _ _ _ _ _ _ _ _ H). pose proof (tu_next _ _ _ _ _ _ _ _ H'). lia.
  - pose proof (tu_used _ _ _ _ _ _ _ _ H). pose proof (tu_used _ _ _ _ _ _ _ _ H'). lia.
  - intros Ho Hb. apply (tu_calm _ _ _ _ _ _ _ _ H'); [by apply (tu_calm _ _ _ _ _ _ _ _ H)|]. by rewrite (tu_fine _ _ _ _ _ _ _ _ H).
Qed.

Lemma turned_more used used' c d e s c' d' e' :
  used <= used' -> turned used c d e s c' d' e' -> turned used' c d e s c' d' e'.
Proof. intros Hu [H1 H2 H3 H4 H5 H6 H7 H8 H9]. split; try done. lia. Qed.

Lemma turned_refl used c d e s :
  0 <= used -> s = db_bg_error d -> turned used c d e s c d e.
Proof. intros Hu ->. split; try done; lia. Qed.

Lemma flush_falls (d : DB) c es : c_imm c = Some es -> es <> [] -> to_fall (flushed d c) < to_fall c.
Proof.
  intros Hi Hne. unfold to_fall, flushed. rewrite Hi. simpl. rewrite size_app.
  pose proof (sublist_length _ _ (gc_filter_sublist (SmallestSnapshot d) false es new_GcState)) as Hl.
  fold (survivors (SmallestSnapshot d) false es) in Hl. fold (kept d es) in Hl.
  assert (0 < size es) by (destruct es; [done|]; rewrite size_cons; pose proof (size_nonneg es); lia).
  unfold size in *. simpl. lia.
Qed.

Lemma turn_spec truth floor c d e :
  0 < u64 (l0_compaction_trigger (db_options d)) -> db_ok truth floor c d e -> HasPendingWork d = true ->
  db_next_file_number d + size (everything c) + 1 < 2 ^ 32 - 1 ->
  exists s d' e' truth' c', BackgroundWorkOnce d e = Some (s, d', e') /\ db_ok truth' floor c' d' e' /\
    turned (size (everything c) + 1) c d e s c' d' e' /\ (Status.ok s = true -> to_fall c' < to_fall c /\ db_imm d' = None) /\
    disk_outcome c d (e_world e) s c' d' (e_world e').
Proof.
  intros Ht Hok Hp Hroom. pose proof (size_nonneg (everything c)) as Hsz. unfold BackgroundWorkOnce, HasPendingWork in *.
  pose proof (ok_imm _ _ _ _ _ Hok) as Hi. destruct (db_imm d) as [imm|] eqn:Ei.
  - destruct (Flush_spec truth floor c d e Hok ltac:(lia)) as (s & d' & e' & truth' & c' & E & Hok' & Hss & Hc & H1 & H2 & H3 & H4 & Hdo).
    exists s, d', e', truth', c'. split_and!; [done|done| | |done].
    + split; try done; [| |intros key seq Hseq| |lia|lia|auto].
      * destruct Hc as [->| ->]; [done|]. unfold flushed. by destruct (c_imm c).
      * destruct Hc as [->| ->]; [done|apply flushed_shrinks].
      * destruct Hc as [->| ->]; [done|]. rewrite (flushed_reads truth floor c d e); [done|apply Hok|done].
      * intros Hs. by apply H1.
    + intros Hs. destruct (H1 Hs) as (-> & Hnone & _). split; [|done]. inversion Hi as [m es Hm E1 E2|]; subst. eapply flush_falls; [done|].
      intros ->. by apply (ok_imm_some _ _ _ _ _ Hok).
  - apply Z.leb_le in Hp. destruct (PickCompactionLevel_spec (db_options d) (db_current d) Ht) as [Hl|[Hl Hne]]; [lia|].
    destruct (Z.ltb_spec (PickCompactionLevel (db_options d) (db_current d)) 0); [lia|].
    destruct (Compaction_spec truth floor c d e (Z.to_nat (PickCompactionLevel (db_options d) (db_current d))) Hok)
      as (s & d' & e' & truth' & c' & E & Hok' & Hr & Hf); [unfold kNumLevels in *; lia|lia|].
    exists s, d', e', truth', c'. split_and!; [done|done| |intros Hs; split; [by apply Hf|]|apply Hr].
    2:{ by rewrite (proj1 (cr_imm _ _ _ _ _ _ _ _ _ Hr)). }
    destruct Hr as [R1 R2 R3 R4 R5 R6 R7 R8 R9]. split; try done; [apply R2|lia|lia|auto].
Qed.

Lemma to_fall_nonneg truth floor c d e : db_ok truth floor c d e -> 0 <= to_fall c.
Proof.
  intros Hok. pose proof (ok_version _ _ _ _ _ Hok) as [Hl _ Hd]. apply Forall2_length in Hd. destruct (levels (db_current d)) as [|f0 fs]; [done|]. simpl in Hl, Hd.
  assert (forall ls n, size ls <= n -> 0 <= falls n ls) as Hf.
  { induction ls as [|ess ls IH]; intros n Hn; simpl; [done|]. rewrite size_cons in Hn. pose proof (size_nonneg ls).
    pose proof (size_nonneg (concat ess)). specialize (IH (n - 1) ltac:(lia)). nia. }
  unfold to_fall. pose proof (size_nonneg (default [] (c_imm c))).
  specialize (Hf (c_l0 c :: c_deep c) 7). rewrite size_cons in Hf. unfold size, kNumLevels in *. simpl in *. lia.
Qed.

(** What a turn keeps. *)
Definition kept_by_turns (P : contents -> DB -> Env -> Prop) : Prop :=
  forall truth truth' floor used c c' d d' e e' s,
    db_ok truth floor c d e -> db_ok truth' floor c' d' e' -> turned used c d e s c' d' e' ->
    disk_outcome c d (e_world e) s c' d' (e_world e') -> Status.ok (db_bg_error d) = true -> P c d e -> P c' d' e'.

Lemma Drain_spec P fuel : kept_by_turns P -> forall truth floor c d e,
  0 < u64 (l0_compaction_trigger (db_options d)) -> db_ok truth floor c d e -> P c d e -> to_fall c < Z.of_nat fuel ->
  let used := (to_fall c + 1) * (size (everything c) + 1) in
  db_next_file_number d + used < 2 ^ 32 - 1 ->
  exists s d' e' truth' c', DrainBackgroundWork fuel d e = Some (s, d', e') /\ db_ok truth' floor c' d' e' /\
    turned used c d e s c' d' e' /\ (Status.ok s = true -> HasPendingWork d' = false) /\ P c' d' e'.
Proof.
  intros HP. induction fuel as [|fuel IH]; intros truth floor c d e Ht Hok Hinv Hfuel used Hroom; pose proof (to_fall_nonneg _ _ _ _ _ Hok) as Hnn; [lia|].
  cbn [DrainBackgroundWork]. pose proof (size_nonneg (everything c)) as Hsz.
  assert (0 <= used) as Hu by (unfold used; nia).
  destruct (Status.ok (db_bg_error d) && HasPendingWork d) eqn:Ec.
  2:{ do 3 eexists. exists truth, c. split_and!; [done|done|by apply turned_refl| |done]. intros Hs. by rewrite Hs in Ec. }
  apply andb_true_iff in Ec as [Hb Hp].
  destruct (turn_spec truth floor c d e Ht Hok Hp) as (s & d1 & e1 & truth1 & c1 & -> & Hok1 & Htu & Hfall & Hdo); [unfold used in *; nia|].
  pose proof (HP _ _ _ _ _ _ _ _ _ _ _ Hok Hok1 Htu Hdo Hb Hinv) as Hinv1.
  cbn [mbind option_bind]. destruct (Status.ok s) eqn:Hs; cbn [negb].
  2:{ do 3 eexists. exists truth1, c1. split_and!; [done|done| |congruence|done].
      eapply turned_more; [|exact Htu]. unfold used. nia. }
  pose proof (size_submseteq _ _ (tu_shrinks _ _ _ _ _ _ _ _ Htu)) as Hs1. destruct (Hfall eq_refl) as [Hfall1 _].
  pose proof (tu_used _ _ _ _ _ _ _ _ Htu) as Hn1. pose proof (size_nonneg (everything c1)).
  pose proof (to_fall_nonneg _ _ _ _ _ Hok1) as Hnn1.
  assert (size (everything c) + 1 + (to_fall c1 + 1) * (size (everything c1) + 1) <= used) as Hused by (unfold used; nia).
  destruct (IH truth1 floor c1 d1 e1) as (s2 & d2 & e2 & truth2 & c2 & -> & Hok2 & Htu2 & Hdone & Hinv2); [|done|done|lia|lia|].
  { by rewrite (ss_options _ _ (tu_session _ _ _ _ _ _ _ _ Htu)). }
  do 3 eexists. exists truth2, c2. split_and!; [done|done| |done|done]. eapply turned_more; [exact Hused|]. by eapply turned_trans.
Qed.

(** C8: Draining the background work ends, whatever the system calls do: each
    turn moves versions down or drops them, so [to_fall] turns are enough. It
    leaves a consistent database in which every read at or above the smallest
    snapshot finds the same value. It ends with an error, which is recorded, or
    with nothing left to do: no immutable memtable, every level within its
    budget. With no failing call and no old error it succeeds. *)
Theorem drain_terminates truth floor c d e fuel :
  0 < u64 (l0_compaction_trigger (db_options d)) -> db_ok truth floor c d e -> to_fall c < Z.of_nat fuel ->
  db_next_file_number d + (to_fall c + 1) * (size (everything c) + 1) < 2 ^ 32 - 1 ->
  exists s d' e' truth' c', DrainBackgroundWork fuel d e = Some (s, d', e') /\ db_ok truth' floor c' d' e' /\
    (forall key seq, SmallestSnapshot d <= seq ->
      value_of (read (everything c') key seq) = value_of (read (everything c) key seq)) /\
    (Status.ok s = true -> db_imm d' = None /\ PickCompactionLevel (db_options d') (db_current d') < 0) /\
    (Status.ok s = false -> db_bg_error d' = s) /\
    (w_oracle (e_world e) = [] -> db_bg_error d = Status.OK -> s = Status.OK).
Proof.
  intros Ht Hok Hf Hroom. destruct (Drain_spec (fun _ _ _ => True) fuel ltac:(done) truth floor c d e Ht Hok I Hf Hroom)
    as (s & d' & e' & truth' & c' & E & Hok' & Htu & Hd & _).
  exists s, d', e', truth', c'. split_and!; [done|done|apply Htu| |apply Htu|].
  - intros Hs. specialize (Hd Hs). unfold HasPendingWork in Hd. destruct (db_imm d'); [done|]. split; [done|]. by apply Z.leb_gt in Hd.
  - intros Ho Hb. by apply Htu.
Qed.

(** C35: With a trigger of zero files level 0 is always picked, also when it is
    empty, and draining never ends, although nothing fails. *)
Theorem zero_trigger_spins d e fuel :
  l0_compaction_trigger (db_options d) = 0 -> db_bg_error d = Status.OK -> db_imm d = None ->
  level_files (db_current d) 0 = [] -> DrainBackgroundWork fuel d e = None.
Proof.
  intros Ht Hb Hi Hl. induction fuel as [|fuel IH]; [done|]. cbn [DrainBackgroundWork].
  assert (PickCompactionLevel (db_options d) (db_current d) = 0) as Hp by (unfold PickCompactionLevel; by rewrite Ht, Hl).
  unfold HasPendingWork, BackgroundWorkOnce. rewrite Hb, Hi, Hp. simpl. unfold DoCompaction, pick_inputs. rewrite Hl. simpl. apply IH.
Qed.

End Background.

(** ** At work *)

Definition eager_Options (trigger : Z) : Options :=
  mkOptions true false (Z.shiftl 4 20) 4096 16 10 0 trigger (Z.shiftl 10 20) (Z.shiftl 2 20) kEveryWrite 1000 false true.

Lemma drain_terminates_witness :
  exists d' e', DrainBackgroundWork 17 (small_db (eager_Options 1)) small_env = Some (Status.OK, d', e') /\ db_imm d' = None.
Proof.
  destruct (drain_terminates (fun _ => None) 0 small_contents (small_db (eager_Options 1)) small_env 17)
    as (s & d' & e' & truth' & c' & E & _ & _ & H1 & _ & H2);
    [reflexivity|apply small_db_ok, small_writable; reflexivity|reflexivity|reflexivity|].
  exists d', e'. rewrite E, (H2 eq_refl eq_refl). split; [reflexivity|]. apply H1. rewrite (H2 eq_refl eq_refl). reflexivity.
Defined.

Lemma zero_trigger_spins_witness :
  DrainBackgroundWork 1000 (new_DB (R := list Z) [8; 3] (eager_Options 0) "db" 0) small_env = None.
Proof. apply zero_trigger_spins; reflexivity. Defined.

(** The flush writes a table with the deletion; the compaction finds nothing
    below it and drops it. *)
Example drain_runs :
  match DrainBackgroundWork 17 (small_db (eager_Options 1)) small_env with
  | Some (s, d, e) => (s, map length (levels (db_current d)), memtable_flushes (db_stats d), compactions (db_stats d),
                       map fst (map_to_list (w_files (e_world e))))
  | None => (Status.OK, [], 0, 0, [])
  end = (Status.OK, replicate 7 0%nat, 1, 1, ["db/MANIFEST"%string]).
Proof. vm_compute. reflexivity. Qed.
