(* ===== verification/Write.v ===== *)
(** * The write path (src/db.cpp: [ShouldSyncNow] to [MakeRoomForWrite], and
    [WaitForBackgroundWork] to [CompactAll])

    Writers queue up. The one in front makes room, merges the batches behind it
    into one log record, appends it, forces it to disk if the policy or a member
    of the group asks for it, and adds the operations to the memtable. A full
    memtable is set aside with its log and flushed by the background work.

    The clock is read where the code reads it: the times are arguments. What the
    condition variables wait for is done by the background thread; a wait is a
    turn of its loop. *)

From stdpp Require Import gmap strings.
From S2P Require Import Prelude Coding InternalKey Posix WriteBatch Wal Versions Iterator Skiplist MemTable Cache Block Merge DbIter Options Sstable Records Table Levels ReadPath Gc FileNames Manifest Db Flush Compaction Install Background.

Record Writer := mkWriter { wr_batch : WriteBatch; wr_sync : bool; wr_done : bool; wr_status : Status }.

Definition new_Writer (opts : WriteOptions) (batch : WriteBatch) : Writer :=
  mkWriter batch (negb (use_default_policy opts) && w_sync opts) false Status.OK.

(** [static_cast<uint64_t>] of the milliseconds between two times. *)
Definition elapsed_ms (since now : Z) : Z := u64 (Z.quot (now - since) 1000000).

(** ** Groups *)

(** The loop over the writers behind the leader: how many join, and the batch. *)
Fixpoint fold_group (first_sync : bool) (budget : Z) (ws : list Writer) (covered : nat) (merged : WriteBatch)
  : nat * WriteBatch :=
  match ws with
  | [] => (covered, merged)
  | w :: ws =>
      if wr_sync w && negb first_sync then (covered, merged)
      else if budget <? ApproximateSize merged + ApproximateSize (wr_batch w) then (covered, merged)
      else fold_group first_sync budget ws (S covered) (Append merged (wr_batch w))
  end.

Definition group_budget (merged : WriteBatch) : Z :=
  if ApproximateSize merged <=? Z.shiftl 128 10 then ApproximateSize merged + Z.shiftl 128 10 else Z.shiftl 1 20.

(** The number of writers up to [*last_writer], and [*merged]. *)
Definition BuildBatchGroup (first : Writer) (ws : list Writer) : nat * WriteBatch :=
  let merged := Append empty_batch (wr_batch first) in
  fold_group (wr_sync first) (group_budget merged) ws 1 merged.

(** The writers retired by the leader, and those still queued. The leader's own
    object is not touched: it returns its status. *)
Definition retire (covered : nat) (s : Status) (ws : list Writer) : list Writer * list Writer :=
  match take covered ws with
  | [] => ([], drop covered ws)
  | self :: followers =>
      (self :: map (fun w => mkWriter (wr_batch w) (wr_sync w) true s) followers, drop covered ws)
  end.

Lemma retire_eq k s first ws :
  retire (S k) s (first :: ws) = (first :: map (fun w => mkWriter (wr_batch w) (wr_sync w) true s) (take k ws), drop k ws).
Proof. done. Qed.

(** The group is a prefix of the queue: its batches in order, no more bytes than
    the budget unless the leader alone exceeds it, and no writer that asked for a
    sync behind a leader that did not. *)
Lemma fold_group_spec first_sync budget ws opss : forall covered merged ops,
  batch_repr merged ops -> Forall2 (fun w o => batch_repr (wr_batch w) o) ws opss ->
  exists j, (fold_group first_sync budget ws covered merged).1 = (covered + j)%nat /\ (j <= length ws)%nat /\
    batch_repr (fold_group first_sync budget ws covered merged).2 (ops ++ concat (take j opss)) /\
    ApproximateSize (fold_group first_sync budget ws covered merged).2 <= Z.max (ApproximateSize merged) budget /\
    Forall (fun w => wr_sync w = true -> first_sync = true) (take j ws).
Proof.
  intros covered merged ops Hm HF. revert covered merged ops Hm. induction HF as [|w o ws opss Hw HF IH]; intros covered merged ops Hm; simpl.
  { exists 0%nat. simpl. rewrite app_nil_r. split_and!; [lia|lia|done|lia|constructor]. }
  assert (exists j, (covered, merged).1 = (covered + j)%nat /\ (j <= S (length ws))%nat /\
    batch_repr (covered, merged).2 (ops ++ concat (take j (o :: opss))) /\
    ApproximateSize (covered, merged).2 <= Z.max (ApproximateSize merged) budget /\
    Forall (fun w => wr_sync w = true -> first_sync = true) (take j (w :: ws))) as Hstop.
  { exists 0%nat. simpl. rewrite app_nil_r. split_and!; [lia|lia|done|lia|constructor]. }
  destruct (wr_sync w && negb first_sync) eqn:Es; [exact Hstop|].
  destruct (Z.ltb_spec budget (ApproximateSize merged + ApproximateSize (wr_batch w))) as [Hlt|Hle]; [exact Hstop|].
  destruct (IH (S covered) (Append merged (wr_batch w)) (ops ++ o)) as (j & H1 & H2 & H3 & H4 & H5); [by apply Append_repr|].
  exists (S j). split_and!; [lia|lia| | |].
  - simpl. by rewrite <- app_assoc in H3.
  - unfold ApproximateSize in *. simpl in H4. rewrite size_app in H4. lia.
  - simpl. constructor; [|done]. intros Hs. rewrite Hs in Es. by destruct first_sync.
Qed.

Lemma BuildBatchGroup_spec first ws ops opss :
  batch_repr (wr_batch first) ops -> Forall2 (fun w o => batch_repr (wr_batch w) o) ws opss ->
  exists k, (BuildBatchGroup first ws).1 = S k /\ (k <= length ws)%nat /\
    batch_repr (BuildBatchGroup first ws).2 (concat (take (S k) (ops :: opss))) /\
    ApproximateSize (BuildBatchGroup first ws).2 <= Z.max (ApproximateSize (wr_batch first)) (Z.shiftl 1 20) /\
    Forall (fun w => wr_sync w = true -> wr_sync first = true) (take (S k) (first :: ws)).
Proof.
  intros Hf HF. unfold BuildBatchGroup. set (merged := Append empty_batch (wr_batch first)).
  assert (batch_repr merged ops) as Hm by (apply (Append_repr empty_batch (wr_batch first) [] ops); [apply empty_batch_repr|done]).
  destruct (fold_group_spec (wr_sync first) (group_budget merged) ws opss 1 merged ops Hm HF) as (j & H1 & H2 & H3 & H4 & H5).
  exists j. split_and!; [done|done|done| |by constructor].
  assert (group_budget merged <= Z.shiftl 1 20) as Hbud.
  { unfold group_budget. destruct (Z.leb_spec (ApproximateSize merged) (Z.shiftl 128 10)) as [H|H]; [|done].
    change (Z.shiftl 128 10) with 131072 in *. change (Z.shiftl 1 20) with 1048576. lia. }
  change (ApproximateSize merged) with (ApproximateSize (wr_batch first)) in H4. lia.
Qed.

(** Whoever comes after the group had to stay behind. *)
Lemma fold_group_stops first_sync budget ws : forall covered merged,
  let r := fold_group first_sync budget ws covered merged in
  match drop (r.1 - covered) ws with
  | [] => True
  | w :: _ => (wr_sync w = true /\ first_sync = false) \/ budget < ApproximateSize r.2 + ApproximateSize (wr_batch w)
  end /\ (covered <= r.1)%nat.
Proof.
  induction ws as [|w ws IH]; intros covered merged; cbn [fold_group]; [simpl; split; [by rewrite drop_nil|lia]|].
  destruct (wr_sync w && negb first_sync) eqn:Es.
  { simpl. rewrite Nat.sub_diag. split; [|lia]. left. apply andb_true_iff in Es as [? ?%negb_true_iff]. done. }
  destruct (Z.ltb_spec budget (ApproximateSize merged + ApproximateSize (wr_batch w))) as [Hlt|Hle].
  { simpl. rewrite Nat.sub_diag. split; [by right|lia]. }
  destruct (IH (S covered) (Append merged (wr_batch w))) as [H1 H2]. set (r := fold_group _ _ _ _ _) in *. split; [|lia].
  replace (r.1 - covered)%nat with (S (r.1 - S covered)) by lia. exact H1.
Qed.

(** C31: The size of a group is bounded. A group is a non-empty prefix of the queue
    with the operations of its batches in order. It takes at most a megabyte, or
    the leader's batch alone; behind a leader of at most 128 KiB at most 128 KiB
    more. It contains no writer that asked for a sync unless the leader did, and
    the writer after it would have broken one of these rules. *)
Theorem batch_group_bounds first ws ops opss :
  batch_repr (wr_batch first) ops -> Forall2 (fun w o => batch_repr (wr_batch w) o) ws opss ->
  let leader := ApproximateSize (wr_batch first) in
  let '(covered, merged) := BuildBatchGroup first ws in
  (1 <= covered <= S (length ws))%nat /\ batch_repr merged (concat (take covered (ops :: opss))) /\
  ApproximateSize merged <= Z.max leader (2 ^ 20) /\ (leader <= 2 ^ 17 -> ApproximateSize merged <= leader + 2 ^ 17) /\
  Forall (fun w => wr_sync w = true -> wr_sync first = true) (take covered (first :: ws)) /\
  match drop covered (first :: ws) with
  | [] => True
  | w :: _ => (wr_sync w = true /\ wr_sync first = false) \/
      (if leader <=? 2 ^ 17 then leader + 2 ^ 17 else 2 ^ 20) < ApproximateSize merged + ApproximateSize (wr_batch w)
  end.
Proof.
  intros Hf HF leader. destruct (BuildBatchGroup_spec first ws ops opss Hf HF) as (k & H1 & H2 & H3 & H4 & H5).
  unfold BuildBatchGroup in *. set (m := Append empty_batch (wr_batch first)) in *.
  destruct (fold_group_stops (wr_sync first) (group_budget m) ws 1 m) as [Hs _].
  destruct (fold_group_spec (wr_sync first) (group_budget m) ws opss 1 m ops) as (_ & _ & _ & _ & Hsz & _);
    [apply (Append_repr empty_batch (wr_batch first) [] ops); [apply empty_batch_repr|done]|done|].
  destruct (fold_group _ _ _ _ _) as [covered merged]. simpl in *. subst covered.
  assert (group_budget m = if leader <=? 2 ^ 17 then leader + 2 ^ 17 else 2 ^ 20) as Hb by done.
  change (ApproximateSize m) with leader in Hsz. rewrite Hb in *. split_and!; [lia|lia|done|done| |done|].
  - intros Hl. destruct (Z.leb_spec leader (2 ^ 17)); lia.
  - by replace (S k - 1)%nat with k in Hs by lia.
Qed.

Lemma batch_group_bounds_witness :
  let w sync := mkWriter (WriteBatch.Put empty_batch [Byte.x61] [Byte.x31]) sync false Status.OK in
  (BuildBatchGroup (w false) [w false; w true]).1 = 2%nat /\
  ApproximateSize (BuildBatchGroup (w false) [w false; w true]).2 <= ApproximateSize (wr_batch (w false)) + 2 ^ 17.
Proof.
  intros w. assert (batch_repr (wr_batch (w false)) [(kValue, [Byte.x61], [Byte.x31])]) as Hr
    by (by apply (Put_repr empty_batch [] [Byte.x61] [Byte.x31]); [apply empty_batch_repr|..]).
  pose proof (batch_group_bounds (w false) [w false; w true] _ [_; _] Hr
    ltac:(constructor; [exact Hr|constructor; [exact Hr|constructor]])) as H. cbv zeta in H.
  assert ((BuildBatchGroup (w false) [w false; w true]).1 = 2%nat) as H2 by (vm_compute; done).
  destruct (BuildBatchGroup (w false) [w false; w true]) as [covered merged]. simpl in H2 |- *.
  split; [done|]. apply H. vm_compute. done.
Defined.

Section Write.
Context {R : Type} (rnd : R -> Z * R) (seed : R).
Abbreviation DB := (@DB R).

Definition ShouldSyncNow (now : Z) (writer_wants_sync : bool) (d : DB) : bool :=
  if writer_wants_sync then true
  else
    match sync_policy (db_options d) with
    | kEveryWrite => true
    | kInterval => fsync_interval_ms (db_options d) <=? elapsed_ms (db_last_sync_time d) now
    | kNever => false
    end.

(** The full memtable is set aside, with its log, and new ones are started. A
    null log is dereferenced only by a bug: [None]. *)
Definition rotate (d : DB) (e : Env) : option (Status * DB * Env) :=
  let new_log := db_next_file_number d in
  let d := with_next_file_number (u64 (new_log + 1)) d in
  let '(s, new_writer, w) := WalWriter_Open (LogPath (db_path d) new_log) new_WalWriter (e_world e) in
  if negb (Status.ok s) then
    let '(_, _, w) := WalWriter_Close new_writer w in
    Some (s, d, mkEnv w (e_cache e) (e_stats e))
  else
    log ← db_log d;
    let '(_, _, w) := WalWriter_Close log w in
    let d := with_log_number new_log (with_imm_log_number (db_log_number d) (with_log (Some new_writer) d)) in
    Some (Status.OK, with_mem (new_MemTable seed) (with_imm (Some (db_mem d)) d), mkEnv w (e_cache e) (e_stats e)).

(** One turn of [BackgroundLoop] with the lock held. *)
Definition BackgroundLoop_turn (d : DB) (e : Env) : option (DB * Env) :=
  if negb (Status.ok (db_bg_error d)) || negb (HasPendingWork d) then Some (d, e)
  else '(_, d, e) ← BackgroundWorkOnce d e; Some (d, e).

(** [None] also when the fuel runs out: see [MakeRoom_spec]. [drain] is the fuel
    of [DrainBackgroundWork]. *)
Fixpoint MakeRoomForWrite (fuel drain : nat) (d : DB) (e : Env) : option (Status * DB * Env) :=
  match fuel with
  | O => None
  | S fuel =>
      if negb (Status.ok (db_bg_error d)) then Some (db_bg_error d, d, e)
      else if ApproximateMemoryUsage (db_mem d) <=? memtable_size_bytes (db_options d) then Some (Status.OK, d, e)
      else
        match db_imm d with
        | Some _ =>
            if background_compaction (db_options d) then
              '(d, e) ← BackgroundLoop_turn d e;
              MakeRoomForWrite fuel drain d e
            else
              '(s, d, e) ← DrainBackgroundWork drain d e;
              if negb (Status.ok s) then Some (s, d, e) else MakeRoomForWrite fuel drain d e
        | None =>
            '(s, d, e) ← rotate d e;
            if negb (Status.ok s) then Some (s, d, e) else MakeRoomForWrite fuel drain d e
        end
  end.

(** The lambda of the insertion loop: [seq++], the memtable, [user_bytes]. *)
Definition add_one (type : ValueType) (key value : bytes) (st : Z * (@MemTable R * Z)) : Z * (@MemTable R * Z) :=
  let '(seq, (mem, user_bytes)) := st in
  (u64 (seq + 1), (MemTable.Add rnd seq type key value mem, u64 (user_bytes + u64 (size key + size value)))).

(** The group takes its sequence numbers, the last act before the leader releases
    the lock. *)
Definition reserve (merged : WriteBatch) (d : DB) : DB :=
  with_last_sequence (u64 (db_last_sequence d + Count merged)) d.

(** The rest: [now] when the leader decides whether to sync, [after] when it has. *)
Definition write_group (now after : Z) (leader_sync : bool) (base : Z) (merged : WriteBatch) (d : DB) (e : Env)
  : option (Status * DB * Env) :=
  log ← db_log d;
  let sync := ShouldSyncNow now leader_sync d in
  let '(s, log, w) := AddRecord base merged log (e_world e) in
  let '(s, w) := if Status.ok s && sync then Sync log w else (s, w) in
  let '(s, (_, (mem, user_bytes))) :=
    if Status.ok s then ForEach add_one merged (base, (db_mem d, 0)) else (s, (base, (db_mem d, 0))) in
  let d := with_mem mem (with_log (Some log) d) in
  let e := mkEnv w (e_cache e) (e_stats e) in
  if Status.ok s then
    let d := if sync then with_last_sync_time after (with_wal_dirty false d) else with_wal_dirty true d in
    Some (s, with_db_stats (count_group (if sync then 1 else 0) (u64 (user_bytes + 20 + u32 (Count merged * 5))) user_bytes
      (Count merged) (db_stats d)) d, e)
  else Some (s, with_bg_error s d, e).

(** The leader's work once there is room. *)
Definition commit_group (now after : Z) (leader_sync : bool) (merged : WriteBatch) (d : DB) (e : Env)
  : option (Status * DB * Env) :=
  write_group now after leader_sync (u64 (db_last_sequence d + 1)) merged (reserve merged d) e.

(** What the leader does once it has made room, or failed to with [s]. The
    retired writers, the new queue, and the status. *)
Definition serve (now after : Z) (first : Writer) (ws : list Writer) (s : Status) (d : DB) (e : Env)
  : option (Status * list Writer * list Writer * DB * Env) :=
  if Status.ok s then
    let '(covered, merged) := BuildBatchGroup first ws in
    '(s, d, e) ← commit_group now after (wr_sync first) merged d e;
    let '(retired, queue) := retire covered s (first :: ws) in
    Some (s, retired, queue, d, e)
  else
    let '(retired, queue) := retire 1 s (first :: ws) in
    Some (s, retired, queue, d, e).

(** [Write] of the writer in front; [ws] are those queued behind it when the
    group is built. *)
Definition lead (fuel drain : nat) (now after : Z) (first : Writer) (ws : list Writer) (d : DB) (e : Env)
  : option (Status * list Writer * list Writer * DB * Env) :=
  '(s, d, e) ←
    (if Status.ok (db_bg_error d) then MakeRoomForWrite fuel drain d e else Some (db_bg_error d, d, e));
  serve now after first ws s d e.

(** A caller with no one else in the queue. *)
Definition DB_Write (fuel drain : nat) (now after : Z) (opts : WriteOptions) (batch : WriteBatch) (d : DB) (e : Env)
  : option (Status * DB * Env) :=
  if WriteBatch.empty batch then Some (Status.OK, d, e)
  else
    '(s, _, _, d, e) ← lead fuel drain now after (new_Writer opts batch) [] d e;
    Some (s, d, e).

Definition DB_Put (fuel drain : nat) (now after : Z) (opts : WriteOptions) (key value : bytes) (d : DB) (e : Env) :=
  DB_Write fuel drain now after opts (WriteBatch.Put empty_batch key value) d e.

Definition DB_Delete (fuel drain : nat) (now after : Z) (opts : WriteOptions) (key : bytes) (d : DB) (e : Env) :=
  DB_Write fuel drain now after opts (WriteBatch.Delete empty_batch key) d e.

(** Not called anywhere. *)
Definition MaybeSyncWal (now : Z) (opts : WriteOptions) (d : DB) (e : Env) : option (Status * DB * Env) :=
  let force := negb (use_default_policy opts) && w_sync opts in
  let do_sync (finish : DB -> DB) :=
    log ← db_log d;
    let '(s, w) := Sync log (e_world e) in
    let e := mkEnv w (e_cache e) (e_stats e) in
    if negb (Status.ok s) then Some (s, d, e)
    else Some (Status.OK, finish (with_wal_dirty false (with_db_stats (count_sync (db_stats d)) d)), e) in
  match (if force then kEveryWrite else sync_policy (db_options d)) with
  | kEveryWrite => do_sync (fun d => d)
  | kInterval =>
      if fsync_interval_ms (db_options d) <=? elapsed_ms (db_last_sync_time d) now then do_sync (with_last_sync_time now)
      else Some (Status.OK, d, e)
  | kNever => Some (Status.OK, d, e)
  end.

(** ** Maintenance *)

(** With a background thread, its turns until it has nothing to do. *)
Fixpoint background_turns (fuel : nat) (stop : DB -> bool) (d : DB) (e : Env) : option (DB * Env) :=
  match fuel with
  | O => None
  | S fuel =>
      if negb (Status.ok (db_bg_error d)) || stop d then Some (d, e)
      else '(d, e) ← BackgroundLoop_turn d e; background_turns fuel stop d e
  end.

Definition WaitForBackgroundWork (drain : nat) (d : DB) (e : Env) : option (DB * Env) :=
  if negb (background_compaction (db_options d)) then '(_, d, e) ← DrainBackgroundWork drain d e; Some (d, e)
  else background_turns drain (fun d => negb (HasPendingWork d)) d e.

Definition no_imm (d : DB) : bool := match db_imm d with Some _ => false | None => true end.

Definition FlushMemTable (drain : nat) (d : DB) (e : Env) : option (Status * DB * Env) :=
  '(s, d, e) ←
    (if Status.ok (db_bg_error d) && negb (no_imm d) then
       if negb (background_compaction (db_options d)) then DrainBackgroundWork drain d e
       else '(d, e) ← background_turns drain no_imm d e; Some (Status.OK, d, e)
     else Some (Status.OK, d, e));
  if negb (Status.ok s) then Some (s, d, e)
  else if negb (Status.ok (db_bg_error d)) then Some (db_bg_error d, d, e)
  else if MemTable.empty (db_mem d) then Some (Status.OK, d, e)
  else
    '(s, d, e) ← rotate d e;
    if negb (Status.ok s) then Some (s, d, e)
    else if negb (background_compaction (db_options d)) then DrainBackgroundWork drain d e
    else '(d, e) ← WaitForBackgroundWork drain d e; Some (db_bg_error d, d, e).

Definition CompactAll (drain : nat) (d : DB) (e : Env) : option (Status * DB * Env) :=
  '(s, d, e) ← FlushMemTable drain d e;
  if negb (Status.ok s) then Some (s, d, e)
  else '(d, e) ← WaitForBackgroundWork drain d e; Some (db_bg_error d, d, e).

Definition SetWalWriteHook (hook : bytes -> bytes) (d : DB) : DB :=
  match db_log d with Some l => with_log (Some (SetWriteHook hook l)) d | None => d end.

End Write.
