(* ===== verification/Disk.v ===== *)
(** * The database on disk

    What the files of a running database hold, and what a recovery of them would
    find. [on_disk] is the invariant of a database without an error: the manifest
    describes the current version, the log of each memtable replays to its
    contents, and other logs that recovery looks at hold nothing. [recoverable]
    is what recovery needs. It is kept by background work under every outcome of
    the system calls. *)

From stdpp Require Import gmap strings.
From S2P Require Import Prelude Coding InternalKey Posix WriteBatch Wal Versions Iterator Skiplist MemTable Cache Block Merge DbIter Options Sstable Records Table Levels ReadPath Gc FileNames Manifest Db Flush Compaction Install Background.

(** ** Log files in the directory *)

Lemma LogPath_ne dir n : 0 <= n < 2 ^ 64 ->
  LogPath dir n <> ManifestPath dir /\ LogPath dir n <> TmpPath dir /\ (forall m, 0 <= m < 2 ^ 64 -> LogPath dir n <> TablePath dir m).
Proof.
  intros Hn. split_and!.
  - by apply (NumberedFile_other dir n "log" "MANIFEST"); [|apply good_log|].
  - unfold TmpPath, ManifestPath. rewrite append_assoc. by apply (NumberedFile_other dir n "log" "MANIFEST.tmp"); [|apply good_log|].
  - intros m Hm H. by apply (NumberedFile_inj dir n "log" m "sst") in H as [_ ?]; [..|apply good_log|apply good_sst].
Qed.

Lemma LogPath_inj dir n m : 0 <= n < 2 ^ 64 -> 0 <= m < 2 ^ 64 -> LogPath dir n = LogPath dir m -> n = m.
Proof. intros Hn Hm H. by apply (NumberedFile_inj dir n "log" m "log") in H as [? _]; [..|apply good_log|apply good_log]. Qed.

Lemma parse_sst n : 0 <= n < 2 ^ 64 -> ParseFileName (base_name n ".sst") = Some (n, "sst"%string).
Proof. intros Hn. apply (parse_base_name n "sst"); [done|apply good_sst]. Qed.

Lemma parse_log n : 0 <= n < 2 ^ 64 -> ParseFileName (base_name n ".log") = Some (n, "log"%string).
Proof. intros Hn. apply (parse_base_name n "log"); [done|apply good_log]. Qed.

(** The log files, numbered from [log] on, among the names of a directory. *)
Definition log_number_of (log : Z) (name : string) : option Z :=
  match ParseFileName name with
  | Some (n, kind) => if bool_decide (kind = "log"%string) && (log <=? n) then Some n else None
  | None => None
  end.

Definition live_logs (dir : string) (fs : gmap string bytes) (log : Z) : list Z :=
  sort_by Z.ltb (omap (log_number_of log) (dir_entries fs dir)).

(** Every numbered file has a number below [next], and logs have the names the
    engine gives them. *)
Definition tidy (dir : string) (fs : gmap string bytes) (next : Z) : Prop :=
  forall name n kind, is_Some (fs !! (dir ++ "/" ++ name)%string) -> ParseFileName name = Some (n, kind) ->
    0 <= n < next /\ (kind = "log"%string -> name = base_name n ".log").

Lemma tidy_step dir fs fs' next next' :
  tidy dir fs next -> next <= next' <= 2 ^ 64 ->
  (forall p, is_Some (fs' !! p) -> is_Some (fs !! p) \/ p = ManifestPath dir \/ p = TmpPath dir \/
     exists n, 0 <= n < next' /\ (p = TablePath dir n \/ p = LogPath dir n)) ->
  tidy dir fs' next'.
Proof.
  intros Ht Hn Hp name n kind Hs Hparse. destruct (Hp _ Hs) as [H|[H|[H|(m & Hm & [H|H])]]].
  - destruct (Ht name n kind H Hparse). split; [lia|done].
  - change (ManifestPath dir) with (dir ++ "/" ++ "MANIFEST")%string in H. by apply (inj _), (inj (String.append "/")) in H as ->.
  - unfold TmpPath, ManifestPath in H. rewrite append_assoc in H.
    change ("/MANIFEST" ++ ".tmp")%string with ("/" ++ "MANIFEST.tmp")%string in H. by apply (inj _), (inj (String.append "/")) in H as ->.
  - symmetry in H. apply (NumberedFile_name dir m ".sst" name) in H as ->.
    rewrite parse_sst in Hparse by lia. injection Hparse as -> <-. done.
  - symmetry in H. apply (NumberedFile_name dir m ".log" name) in H as ->.
    rewrite parse_log in Hparse by lia. injection Hparse as -> <-. done.
Qed.

Lemma log_number_of_Some log name n :
  log_number_of log name = Some n <-> ParseFileName name = Some (n, "log"%string) /\ log <= n.
Proof.
  unfold log_number_of. destruct (ParseFileName name) as [[m kind]|]; [|naive_solver].
  destruct (bool_decide_reflect (kind = "log"%string)) as [->|Hk]; simpl; [|naive_solver].
  destruct (Z.leb_spec log m); naive_solver lia.
Qed.

Lemma NoDup_omap_inj {A B} (f : A -> option B) (l : list A) :
  (forall x y b, x ∈ l -> y ∈ l -> f x = Some b -> f y = Some b -> x = y) -> NoDup l -> NoDup (omap f l).
Proof.
  induction l as [|x l IH]; intros Hf Hnd; simpl; [constructor|]. apply NoDup_cons in Hnd as [Hx Hnd].
  assert (NoDup (omap f l)) as IH' by (apply IH; [|done]; intros y z b Hy Hz; apply Hf; set_solver).
  destruct (f x) as [b|] eqn:E; [|done]. apply NoDup_cons. split; [|done]. intros (y & Hy & Hb)%list_elem_of_omap.
  assert (x = y) as -> by (apply (Hf x y b); set_solver). done.
Qed.

Lemma NoDup_dir_entries fs dir : NoDup (dir_entries fs dir).
Proof.
  unfold dir_entries. apply NoDup_omap_inj; [|apply NoDup_fst_map_to_list].
  intros x y b _ _ ->%strip_prefix_spec ->%strip_prefix_spec. done.
Qed.

Lemma elem_of_live_logs dir fs log next n :
  tidy dir fs next -> next <= 2 ^ 64 ->
  n ∈ live_logs dir fs log <-> 0 <= n < next /\ log <= n /\ is_Some (fs !! LogPath dir n).
Proof.
  intros Ht Hn. unfold live_logs. rewrite sort_by_perm, list_elem_of_omap. split.
  - intros (name & Hin%elem_of_dir_entries & [Hp Hl]%log_number_of_Some). destruct (Ht _ _ _ Hin Hp) as [H1 H2].
    rewrite (H2 eq_refl) in Hin. done.
  - intros (H1 & H2 & H3). exists (base_name n ".log"). split; [by apply elem_of_dir_entries|].
    apply log_number_of_Some. split; [|done]. apply parse_log. lia.
Qed.

Lemma NoDup_live_logs dir fs log next : tidy dir fs next -> NoDup (live_logs dir fs log).
Proof.
  intros Ht. unfold live_logs. rewrite sort_by_perm. apply NoDup_omap_inj; [|apply NoDup_dir_entries].
  intros x y n Hx%elem_of_dir_entries Hy%elem_of_dir_entries [Hpx _]%log_number_of_Some [Hpy _]%log_number_of_Some.
  destruct (Ht _ _ _ Hx Hpx) as [_ H1], (Ht _ _ _ Hy Hpy) as [_ H2]. by rewrite H1, H2.
Qed.

(** ** What recovery needs *)

(** The value a read of the newest state finds. *)
Definition latest (es : list entry) (key : bytes) : option bytes := value_of (read es key kMaxSequenceNumber).

(** A record that replay can hand to a memtable. *)
Definition record_fits (r : record) : Prop := record_wf r /\ in_range r /\ Forall fits (numbered r.1 r.2).

(** The manifest, or a directory without one. *)
Definition manifest_at (dir : string) (fs : gmap string bytes) (v : Version) (log next seq : Z) : Prop :=
  fs !! ManifestPath dir = Some (manifest_bytes v log next seq) \/
  fs !! ManifestPath dir = None /\ v = new_Version /\ log = 0 /\ next = 1 /\ seq = 0.

(** The logs from [log] on hold the versions [E], the tables of the manifest
    [l0] and [deep]; [bound] is above every number in use. Recovery that was cut
    short may have left versions both in a log and in a table. *)
Record recoverable (dir : string) (o : Options) (fs : gmap string bytes) (v : Version) (log bound : Z)
    (E : list entry) (l0 : list (list entry)) (deep : list (list (list entry))) : Prop := {
  rc_manifest : exists next seq, manifest_at dir fs v log next seq /\ 0 < next <= bound /\
    Forall (fun n => n < next) (live_tables v) /\ 0 <= seq < kMaxSequenceNumber /\
    Forall (fun x => sequence x <= seq) (concat (sources l0 deep));
  rc_log : 0 <= log < 2 ^ 64;
  rc_version : exists truth, version_ok truth v l0 deep /\ (forall n, n ∉ live_tables v -> truth_fresh truth n);
  rc_files : describable dir o fs v;
  rc_unique : NoDup (live_tables v);
  rc_tidy : tidy dir fs bound;
  rc_logs : exists rss, E = concat (map logged rss) /\ Forall (Forall record_fits) rss /\
    Forall2 (fun n rs => exists b, fs !! LogPath dir n = Some b /\ replays b rs) (live_logs dir fs log) rss;
  rc_distinct : NoDup (map fst E);
  rc_seqs : Forall (fun x => sequence x < kMaxSequenceNumber) E;
  rc_agree : agree (E ++ concat (sources l0 deep));
  rc_room : writable o (E ++ concat (sources l0 deep));
  rc_layered : layered (sources l0 deep);
  rc_newer : forall x y, x ∈ E -> y ∈ concat (sources l0 deep) -> user_key x = user_key y ->
    exists z, z ∈ E /\ user_key z = user_key y /\ tag y <= tag z
}.

(** Recovering the directory gives the map [M]. *)
Definition recovers (dir : string) (o : Options) (fs : gmap string bytes) (bound : Z) (M : bytes -> option bytes) : Prop :=
  exists v log E l0 deep, recoverable dir o fs v log bound E l0 deep /\
    forall key, latest (E ++ concat (sources l0 deep)) key = M key.

(** Options that do not matter for the files of a database. *)
Definition same_format (o o' : Options) : Prop :=
  o_verify_checksums o = o_verify_checksums o' /\ block_size_bytes o = block_size_bytes o' /\ bloom_bits_per_key o = bloom_bits_per_key o'.

Lemma recovers_options dir o o' fs bound M : same_format o o' -> recovers dir o fs bound M -> recovers dir o' fs bound M.
Proof.
  intros (Hv & Hb & Hf) (v & log & E & l0 & deep & [R1 R2 R3 [D1 D2 D3 D4] R5 R6 R7 R8 R9 R10 [W1 W2 W3 W4 W5] R12 R13] & HM).
  exists v, log, E, l0, deep. split; [|done]. split; try done.
  - split; try done. eapply Forall_impl; [exact D2|]. intros f [S1 S2 S3 S4 (bs & bloom & H1 & H2 & H3)]. split; try done.
    exists bs, bloom. split_and!; [done|done|]. rewrite H3. unfold opened. by rewrite Hv.
  - by split; rewrite <- ?Hb, <- ?Hf.
Qed.

(** What is known of the tables of a version. *)
Definition restrict (truth : Key -> option bytes) (v : Version) (k : Key) : option bytes :=
  if bool_decide (k.1 ∈ live_tables v) then truth k else None.

Lemma restrict_file truth dir o fs v f es :
  describable dir o fs v -> f ∈ concat (levels v) -> file_ok truth f es -> file_ok (restrict truth v) f es.
Proof.
  intros Hd Hf [(bs & Hb & Hes) H2 H3 H4]. split; [|done..]. exists bs. split; [|done]. destruct Hb as [B1 B2 B3 B4 B5 B6 B7].
  split; try done. intros i b Hi. unfold restrict. simpl. rewrite bool_decide_true; [by apply B4|].
  pose proof (de_stored _ _ _ _ Hd) as Hs. rewrite Forall_forall in Hs. destruct (sd_table _ _ _ _ (Hs f Hf)) as (? & ? & _ & _ & ->).
  simpl. apply list_elem_of_fmap. by exists f.
Qed.

Lemma restrict_version truth dir o fs v l0 deep :
  describable dir o fs v -> version_ok truth v l0 deep -> version_ok (restrict truth v) v l0 deep.
Proof.
  intros Hd [H1 H2 H3]. assert (forall files ess, (forall f, f ∈ files -> f ∈ concat (levels v)) ->
    Forall2 (file_ok truth) files ess -> Forall2 (file_ok (restrict truth v)) files ess) as Hf.
  { intros files ess Hin HF. induction HF as [|f es files ess Hfe HF IH]; constructor.
    - eapply restrict_file; [done|apply Hin; set_solver|done].
    - apply IH. intros g Hg. apply Hin. set_solver. }
  split; [done| |].
  - apply Hf; [|done]. intros f Hin. unfold level_files in Hin. destruct (levels v) as [|l ls]; [done|]. simpl in *. set_solver.
  - assert (forall f l, l ∈ tail (levels v) -> f ∈ l -> f ∈ concat (levels v)) as Ht.
    { intros f l Hl Hfl. destruct (levels v) as [|x ls]; [by apply elem_of_nil in Hl|]. simpl in *.
      apply elem_of_app. right. apply list_elem_of_In, in_concat. exists l. by rewrite <- !list_elem_of_In. }
    revert Ht H3. generalize (tail (levels v)). intros ls Ht HF. induction HF as [|l ess ls deep [Ha Hb] HF IH]; constructor.
    + split; [|done]. apply Hf; [|done]. intros f Hin. eapply Ht; [|done]. set_solver.
    + apply IH. intros f l' Hl' Hin. eapply Ht; [|done]. set_solver.
Qed.

Lemma restrict_fresh truth v n : n ∉ live_tables v -> truth_fresh (restrict truth v) n.
Proof. intros Hn off. unfold restrict. by rewrite bool_decide_false. Qed.

(** ** The invariant *)

Lemma concat_map_perm {A B} (g : A -> list B) l l' : l ≡ₚ l' -> concat (map g l) ≡ₚ concat (map g l').
Proof. rewrite <- !flat_map_concat_map. by apply Permutation_flat_map. Qed.

(** Only the elements of [s] contribute. *)
Lemma concat_support {A B} (g : A -> list B) (l s : list A) :
  NoDup l -> NoDup s -> (forall x, x ∈ s -> x ∈ l) -> (forall x, x ∈ l -> x ∉ s -> g x = []) ->
  concat (map g l) ≡ₚ concat (map g s).
Proof.
  intros Hl Hs Hsub Hg. assert (s ⊆+ l) as [k Hk]%submseteq_Permutation by (by apply NoDup_submseteq).
  rewrite (concat_map_perm g _ _ Hk), map_app, concat_app. rewrite Hk in Hl. apply NoDup_app in Hl as (_ & Hd & _).
  assert (concat (map g k) = []) as ->; [|by rewrite app_nil_r].
  assert (forall x, x ∈ k -> g x = []) as Hnil by (intros x Hx; apply Hg; [rewrite Hk; set_solver|intros Hxs; by apply (Hd x)]).
  clear -Hnil. induction k as [|x k IH]; simpl; [done|]. rewrite (Hnil x), IH; [done|..]; set_solver.
Qed.

(** The log [n] replays to the versions [es]; an [exact] log has nothing behind
    its records and can be appended to. *)
Definition log_holds (exact : bool) (dir : string) (fs : gmap string bytes) (n : Z) (es : list entry) : Prop :=
  exists rs b, fs !! LogPath dir n = Some b /\ (if exact then b = log_of rs else replays b rs) /\
    Forall record_fits rs /\ logged rs ≡ₚ es.

Lemma fits_wf rs : Forall record_fits rs -> Forall record_wf rs.
Proof. intros H. eapply Forall_impl; [exact H|]. by intros r [? _]. Qed.

Lemma log_holds_replays exact dir fs n es : log_holds exact dir fs n es -> log_holds false dir fs n es.
Proof.
  destruct exact; [|done]. intros (rs & b & H1 & -> & H3 & H4). exists rs, (log_of rs). split_and!; [done| |done|done].
  by apply replays_log, fits_wf.
Qed.

Lemma log_holds_frame exact dir fs fs' n es :
  log_holds exact dir fs n es -> fs' !! LogPath dir n = fs !! LogPath dir n -> log_holds exact dir fs' n es.
Proof. intros (rs & b & H1 & H2) Heq. exists rs, b. by rewrite Heq. Qed.

Section Disk.
Context {R : Type} {exact : bool}.
Abbreviation DB := (@DB R).
Abbreviation db_ok := (@db_ok R).

(** The versions that are only in memory and in the logs. *)
Definition unflushed (c : contents) : list entry := c_mem c ++ default [] (c_imm c).

Record on_disk (c : contents) (d : DB) (fs : gmap string bytes) : Prop := {
  od_manifest : exists next seq,
    fs !! ManifestPath (db_path d) = Some (manifest_bytes (db_current d) (OldestLiveLog d) next seq) /\
    0 < next <= db_next_file_number d /\ Forall (fun n => n < next) (live_tables (db_current d)) /\
    0 <= seq <= db_last_sequence d /\ Forall (fun x => sequence x <= seq) (concat (sources (c_l0 c) (c_deep c)));
  od_writer : exists l, db_log d = Some l /\ Wal.fd_ l = Some (LogPath (db_path d) (db_log_number d));
  od_number : 0 <= db_log_number d < db_next_file_number d;
  od_mem : log_holds exact (db_path d) fs (db_log_number d) (c_mem c);
  od_imm : forall es, c_imm c = Some es ->
    0 <= db_imm_log_number d < db_log_number d /\ log_holds false (db_path d) fs (db_imm_log_number d) es;
  od_others : forall n b, 0 <= n < 2 ^ 64 -> OldestLiveLog d <= n -> n <> db_log_number d ->
    (c_imm c <> None -> n <> db_imm_log_number d) -> fs !! LogPath (db_path d) n = Some b -> b `prefix_of` wal_header;
  od_distinct : NoDup (map fst (unflushed c));
  od_tidy : tidy (db_path d) fs (db_next_file_number d)
}.

Lemma same_imm truth floor c d e : db_ok truth floor c d e -> db_imm d = None <-> c_imm c = None.
Proof. intros H. pose proof (ok_imm _ _ _ _ _ H) as Hi. inversion Hi; naive_solver. Qed.

Lemma oldest_log truth floor c d e :
  db_ok truth floor c d e -> OldestLiveLog d = match c_imm c with Some _ => db_imm_log_number d | None => db_log_number d end.
Proof. intros H. pose proof (ok_imm _ _ _ _ _ H) as Hi. unfold OldestLiveLog. by inversion Hi. Qed.

(** The records behind the immutable memtable; none without one. *)
Lemma imm_records c d fs :
  on_disk c d fs ->
  exists ri, default [] (c_imm c) ≡ₚ logged ri /\ Forall record_fits ri /\ (c_imm c = None -> ri = []) /\
    (c_imm c <> None -> 0 <= db_imm_log_number d < db_log_number d /\
      exists b, fs !! LogPath (db_path d) (db_imm_log_number d) = Some b /\ replays b ri).
Proof.
  intros H. pose proof (od_imm _ _ _ H) as Himm. destruct (c_imm c) as [es|]; [|by exists []].
  destruct (Himm es eq_refl) as (Hlt & ri & b & H1 & H2 & H3 & H4). exists ri. split_and!; [by rewrite H4|done|done|]. eauto.
Qed.

(** The logs recovery looks at hold what is not in a table yet. *)
Lemma on_disk_logs truth floor c d e fs :
  db_ok truth floor c d e -> on_disk c d fs ->
  exists rss, concat (map logged rss) ≡ₚ unflushed c /\ Forall (Forall record_fits) rss /\
    Forall2 (fun n rs => exists b, fs !! LogPath (db_path d) n = Some b /\ replays b rs)
      (live_logs (db_path d) fs (OldestLiveLog d)) rss.
Proof.
  intros Hok Hod. pose proof Hod as [_ _ Hn Hmem _ Hoth _ Htidy].
  apply log_holds_replays in Hmem as (rs & bm & Hrs & Hrep & Hfits & Hp). pose proof (ok_next _ _ _ _ _ Hok) as Hnx.
  destruct (imm_records c d fs Hod) as (ri & Hpi & Hfi & Hnone & Hri). pose proof (oldest_log _ _ _ _ _ Hok) as Hold.
  set (imms := match c_imm c with Some _ => [db_imm_log_number d] | None => [] end).
  set (logs := live_logs (db_path d) fs (OldestLiveLog d)).
  assert (forall n, n ∈ logs <-> 0 <= n < db_next_file_number d /\ OldestLiveLog d <= n /\ is_Some (fs !! LogPath (db_path d) n)) as Hin.
  { intros n. apply elem_of_live_logs; [done|lia]. }
  set (f := fun n => if decide (n = db_log_number d) then rs else if decide (n ∈ imms) then ri else []).
  assert (forall n, n ∈ imms -> n = db_imm_log_number d /\ c_imm c <> None) as Himms.
  { intros n. unfold imms. destruct (c_imm c); [by intros ->%list_elem_of_singleton|by intros ?%elem_of_nil]. }
  assert (concat (map logged (map f logs)) ≡ₚ concat (map (fun n => logged (f n)) (db_log_number d :: imms))) as Hcat.
  { rewrite map_map. apply concat_support; [by eapply NoDup_live_logs| | |].
    - apply NoDup_cons. split; [intros [H1 H2]%Himms; apply Hri in H2; lia|]. unfold imms. destruct (c_imm c); [apply NoDup_singleton|constructor].
    - intros n [->|Hi]%elem_of_cons; apply Hin; rewrite Hold.
      + split_and!; [lia|lia| |by rewrite Hrs]. destruct (c_imm c); [destruct Hri; [done|lia]|lia].
      + destruct (Himms _ Hi) as [-> Hc]. destruct (Hri Hc) as (H1 & b & H2 & _). rewrite H2. split_and!; [lia|lia| |done]. by destruct (c_imm c).
    - intros n _ Hni. unfold f. rewrite !decide_False; [done| |]; intros Hx; apply Hni; [by right|subst; by left]. }
  exists (map f logs). split_and!.
  - rewrite Hcat. unfold unflushed. rewrite <- Hp, Hpi. cbn [map concat]. unfold f at 1. rewrite decide_True by done. f_equiv.
    unfold imms, f. destruct (c_imm c) as [es|]; simpl; [|by rewrite Hnone]. destruct Hri; [done|].
    rewrite decide_False by lia. rewrite decide_True by apply list_elem_of_singleton, eq_refl. by rewrite app_nil_r.
  - apply Forall_map, Forall_forall. intros n _. unfold f. simpl. repeat case_decide; [done|done|constructor].
  - apply Forall2_fmap_r, Forall_Forall2_diag, Forall_forall. intros n [H1 [H2 [b Hb]]]%Hin. exists b. split; [done|]. unfold f.
    case_decide as Hd1; [subst; rewrite Hrs in Hb; by injection Hb as <-|].
    case_decide as Hd2.
    + destruct (Himms _ Hd2) as [-> Hc]. destruct (Hri Hc) as (_ & b' & Hr & ?). rewrite Hr in Hb. by injection Hb as <-.
    + apply replays_blank. apply (Hoth n b); [lia|done|done| |done]. intros Hc ->. apply Hd2. unfold imms.
      destruct (c_imm c); [by apply list_elem_of_singleton|done].
Qed.

Lemma everything_split c : everything c = unflushed c ++ concat (sources (c_l0 c) (c_deep c)).
Proof.
  unfold everything, all_sources, unflushed. simpl. rewrite concat_app. destruct (c_imm c); simpl; by rewrite ?app_nil_r, <- ?app_assoc.
Qed.

Lemma layered_split c : layered (all_sources c) ->
  layered (sources (c_l0 c) (c_deep c)) /\
  (forall x y, x ∈ unflushed c -> y ∈ concat (sources (c_l0 c) (c_deep c)) -> user_key x = user_key y -> tag y <= tag x).
Proof.
  unfold all_sources, unflushed. change (c_mem c :: ?l) with ([c_mem c] ++ l). rewrite app_assoc, layered_app.
  intros (_ & H2 & H3). split; [done|]. intros x y Hx. apply H3. rewrite concat_app. simpl. rewrite app_nil_r.
  destruct (c_imm c); simpl in *; [by rewrite app_nil_r|done].
Qed.

Lemma mem_fst_NoDup (es : list entry) : sorted es -> entries_typed es -> NoDup (map fst es).
Proof.
  intros Hs. induction Hs as [|x es Hs IH Hx]; intros Ht; simpl; [constructor|]. apply Forall_cons in Ht as [Htx Ht].
  apply NoDup_cons. split; [|by apply IH]. intros (y & Heq & Hy)%list_elem_of_fmap. rewrite Forall_forall in Hx.
  specialize (Hx y Hy). unfold entry_lt in Hx. rewrite <- Heq in Hx. pose proof (CompareInternalKey_antisym x.1 x.1). lia.
Qed.

Lemma on_disk_recoverable truth floor c d e :
  db_ok truth floor c d e -> on_disk c d (w_files (e_world e)) ->
  exists E, E ≡ₚ unflushed c /\
    recoverable (db_path d) (db_options d) (w_files (e_world e)) (db_current d) (OldestLiveLog d) (db_next_file_number d)
      E (c_l0 c) (c_deep c).
Proof.
  intros Hok Hod. destruct (on_disk_logs _ _ _ _ _ _ Hok Hod) as (rss & Hp & Hf & HF). exists (concat (map logged rss)).
  split; [done|]. destruct (layered_split c) as [HL1 HL2]; [apply Hok|].
  pose proof (ok_last _ _ _ _ _ Hok) as Hlast. pose proof (ok_next _ _ _ _ _ Hok) as Hnx.
  assert (concat (map logged rss) ++ concat (sources (c_l0 c) (c_deep c)) ≡ₚ everything c) as Hall.
  { by rewrite everything_split, Hp. }
  split; try apply Hok; try done.
  - destruct (od_manifest _ _ _ Hod) as (next & seq & H1 & H2 & H3 & H4 & H5). exists next, seq. split_and!; try done; [by left|lia..].
  - rewrite (oldest_log _ _ _ _ _ Hok). pose proof (od_number _ _ _ Hod). pose proof (od_imm _ _ _ Hod) as Hi.
    destruct (c_imm c) as [es|]; [destruct (Hi es eq_refl) as [? _]; lia|lia].
  - exists (restrict truth (db_current d)). split; [|apply restrict_fresh]. eapply restrict_version; apply Hok.
  - apply Hod.
  - eauto.
  - rewrite Hp. apply Hod.
  - rewrite Hp. pose proof (ok_seqs _ _ _ _ _ Hok) as Hs. rewrite everything_split in Hs. apply Forall_app in Hs as [Hs _].
    eapply Forall_impl; [exact Hs|]. intros x Hx. simpl in Hx. lia.
  - eapply agree_subset; [|apply Hok]. intros x. by rewrite Hall.
  - eapply writable_sub; [|apply Hok]. by rewrite Hall.
  - intros x y Hx Hy Hk. exists x. split_and!; [done|done|]. apply HL2; [by rewrite <- Hp|done|done].
Qed.

Lemma latest_members a b key :
  agree a -> entries_typed a -> (forall x, x ∈ a <-> x ∈ b) -> latest a key = latest b key.
Proof. intros H1 H2 H3. unfold latest. by rewrite (read_members a b). Qed.

(** A crash loses nothing. *)
Lemma on_disk_recovers truth floor c d e :
  db_ok truth floor c d e -> on_disk c d (w_files (e_world e)) ->
  recovers (db_path d) (db_options d) (w_files (e_world e)) (db_next_file_number d) (latest (everything c)).
Proof.
  intros Hok Hod. destruct (on_disk_recoverable _ _ _ _ _ Hok Hod) as (E & HE & Hr). do 5 eexists. split; [exact Hr|].
  intros key. symmetry. apply latest_members; [apply Hok|by eapply ok_typed, Hok|]. intros x. by rewrite everything_split, !elem_of_app, HE.
Qed.

(** ** Background work *)

Lemma table_or_not dir p a b :
  (exists n, a <= n < b /\ p = TablePath dir n) \/ (forall n, a <= n < b -> p <> TablePath dir n).
Proof.
  destruct (decide (Exists (fun n => p = TablePath dir n) (seqZ a (b - a)))) as [H|H].
  - left. apply Exists_exists in H as (n & Hn & Hp). exists n. split; [|done]. apply elem_of_seqZ in Hn. lia.
  - right. intros n Hn Hp. apply H. apply Exists_exists. exists n. split; [|done]. apply elem_of_seqZ. lia.
Qed.

(** New tables change nothing recovery looks at. *)
Lemma only_new_log (d d' : DB) w w' n :
  only_new d d' w w' -> 0 <= db_next_file_number d -> db_next_file_number d' <= 2 ^ 64 -> 0 <= n < 2 ^ 64 ->
  w_files w' !! LogPath (db_path d) n = w_files w !! LogPath (db_path d) n.
Proof. intros H H0 H1 Hn. apply H. intros m Hm. destruct (LogPath_ne (db_path d) n Hn) as (_ & _ & Hne). apply Hne. lia. Qed.

Lemma only_new_manifest (d d' : DB) w w' :
  only_new d d' w w' -> 0 <= db_next_file_number d -> db_next_file_number d' <= 2 ^ 64 ->
  w_files w' !! ManifestPath (db_path d) = w_files w !! ManifestPath (db_path d).
Proof. intros H H0 H1. apply H. intros m Hm. apply not_eq_sym, TablePath_ne. lia. Qed.

Lemma only_new_tidy (d d' : DB) w w' :
  only_new d d' w w' -> 0 <= db_next_file_number d <= db_next_file_number d' -> db_next_file_number d' <= 2 ^ 64 ->
  tidy (db_path d) (w_files w) (db_next_file_number d) -> tidy (db_path d) (w_files w') (db_next_file_number d').
Proof.
  intros H H0 H1 Ht. eapply tidy_step; [exact Ht|lia|]. intros p Hp.
  destruct (table_or_not (db_path d) p (db_next_file_number d) (db_next_file_number d')) as [(n & Hn & ->)|Hno].
  - right; right; right. exists n. split; [lia|by left].
  - left. by rewrite <- (H p Hno).
Qed.


(** Only new tables: the directory still holds the database, whatever number
    comes next. *)
Lemma on_disk_quiet c d d' w w' :
  on_disk c d (w_files w) -> only_new d d' w w' -> same_session d d' -> db_current d' = db_current d -> db_imm d' = db_imm d ->
  db_imm_log_number d' = db_imm_log_number d -> db_next_file_number d <= db_next_file_number d' <= 2 ^ 64 ->
  on_disk c d' (w_files w').
Proof.
  intros H Hnew [S1 S2 S3 S4 S5 S6 S7] Hc Hi Hil Hnx. pose proof H as [M W N L I O D T].
  assert (OldestLiveLog d' = OldestLiveLog d) as Hold by (unfold OldestLiveLog; by rewrite Hi, Hil, S7).
  assert (0 <= db_next_file_number d) as H0 by lia.
  assert (forall n, 0 <= n < 2 ^ 64 -> w_files w' !! LogPath (db_path d) n = w_files w !! LogPath (db_path d) n) as Hlog.
  { intros n Hn. eapply only_new_log; [exact Hnew|done|lia|done]. }
  split; rewrite ?S2, ?Hc, ?Hold, ?S5, ?S6, ?S7, ?Hil; try done.
  - destruct M as (next & seq & M1 & M2 & M3 & M4). exists next, seq. rewrite (only_new_manifest d d' w w') by (done || lia).
    split_and!; try done; try lia; apply M4.
  - lia.
  - eapply log_holds_frame; [exact L|]. apply Hlog. lia.
  - intros es Hes. destruct (I es Hes) as [I1 I2]. split; [done|]. eapply log_holds_frame; [exact I2|]. apply Hlog. lia.
  - intros n b H1 H2 H3 H4. rewrite Hlog by done. by apply O.
  - eapply only_new_tidy; [exact Hnew|lia|lia|done].
Qed.

Lemma log_not_obsolete dir v log n name :
  0 <= n < 2 ^ 64 -> log <= n -> LogPath dir n = (dir ++ "/" ++ name)%string -> obsolete v log name = false.
Proof.
  intros Hn Hl Hp. apply (NumberedFile_name dir n ".log" name) in Hp as ->. unfold obsolete. rewrite parse_log by done.
  rewrite bool_decide_false by done. rewrite bool_decide_true by done. simpl. by apply Z.ltb_ge.
Qed.

(** Logs that are still needed survive a commit; others may go. *)
Lemma committed_log dir v log next seq s w w' n :
  committed dir v log next seq s w w' -> 0 <= n < 2 ^ 64 ->
  (log <= n -> w_files w' !! LogPath dir n = w_files w !! LogPath dir n) /\
  (w_files w' !! LogPath dir n = w_files w !! LogPath dir n \/ w_files w' !! LogPath dir n = None).
Proof.
  intros H Hn. destruct (LogPath_ne dir n Hn) as (H1 & H2 & _). split.
  - intros Hl. apply (cm_kept _ _ _ _ _ _ _ _ H); [done|done|]. intros name. by apply log_not_obsolete.
  - destruct (cm_removed _ _ _ _ _ _ _ _ H _ H1 H2) as [->|[_ ->]]; auto.
Qed.

Lemma committed_tidy dir v log next seq s w w' bound :
  committed dir v log next seq s w w' -> bound <= 2 ^ 64 -> tidy dir (w_files w) bound -> tidy dir (w_files w') bound.
Proof.
  intros H Hb Ht. eapply tidy_step; [exact Ht|lia|]. intros p [b Hp].
  destruct (decide (p = ManifestPath dir)); [auto|]. destruct (decide (p = TmpPath dir)); [auto|]. left.
  destruct (cm_removed _ _ _ _ _ _ _ _ H p) as [<-|[_ Hx]]; [done|done|by exists b|congruence].
Qed.

(** A commit whose manifest is in place. *)
Lemma on_disk_commit truth truth' floor c c' d d' e w1 e' s :
  let dir := db_path d in
  db_ok truth floor c d e -> db_ok truth' floor c' d' e' ->
  on_disk c d (w_files (e_world e)) -> only_new d d' (e_world e) w1 -> same_session d d' -> c_mem c' = c_mem c ->
  db_next_file_number d <= db_next_file_number d' ->
  committed dir (db_current d') (OldestLiveLog d') (db_next_file_number d') (db_last_sequence d') s w1 (e_world e') ->
  (db_imm d' = None \/ db_imm d' = db_imm d /\ db_imm_log_number d' = db_imm_log_number d /\ c_imm c' = c_imm c) ->
  w_files (e_world e') !! ManifestPath dir =
    Some (manifest_bytes (db_current d') (OldestLiveLog d') (db_next_file_number d') (db_last_sequence d')) ->
  on_disk c' d' (w_files (e_world e')).
Proof.
  intros dir Hok Hok' H Hnew [S1 S2 S3 S4 S5 S6 S7] Hmem Hnx Hcm Himm Hman. pose proof H as [M W N L I O D T].
  pose proof (ok_next _ _ _ _ _ Hok) as Hn0. pose proof (ok_next _ _ _ _ _ Hok') as Hn1.
  pose proof (oldest_log _ _ _ _ _ Hok) as Hold. pose proof (oldest_log _ _ _ _ _ Hok') as Hold'.
  assert (c_imm c' = None \/ db_imm_log_number d' = db_imm_log_number d /\ c_imm c' = c_imm c) as Hi.
  { destruct Himm as [Hi|(_ & ? & ?)]; [left; by eapply same_imm|by right]. }
  assert (forall n, 0 <= n < 2 ^ 64 -> w_files w1 !! LogPath dir n = w_files (e_world e) !! LogPath dir n) as Hlog.
  { intros n Hn. eapply only_new_log; [exact Hnew|lia|lia|done]. }
  assert (forall ex n es, 0 <= n < 2 ^ 64 -> OldestLiveLog d' <= n -> log_holds ex dir (w_files (e_world e)) n es ->
    log_holds ex dir (w_files (e_world e')) n es) as Hh.
  { intros ex n es Hn Hl Hlh. eapply log_holds_frame; [exact Hlh|]. rewrite <- Hlog by done. by apply (committed_log _ _ _ _ _ _ _ _ _ Hcm). }
  assert (OldestLiveLog d <= OldestLiveLog d' <= db_log_number d) as [Ho1 Ho2].
  { rewrite Hold, Hold', S7. destruct Hi as [->|[-> ->]]; (destruct (c_imm c) as [es|]; [destruct (I es eq_refl)|]; lia). }
  split; rewrite ?S2, ?S7, ?S6, ?Hmem; fold dir; try done.
  - do 2 eexists. split; [exact Hman|]. split_and!; [lia|lia|apply Hok'|apply Hok'|apply Z.le_refl|].
    pose proof (ok_seqs _ _ _ _ _ Hok') as Hs. rewrite everything_split in Hs. by apply Forall_app in Hs as [_ ?].
  - lia.
  - apply Hh; [lia|lia|done].
  - intros es Hes. destruct Hi as [Hi|[-> Hi]]; [congruence|]. rewrite Hi in Hes. destruct (I es Hes) as [I1 I2]. split; [done|].
    apply Hh; [lia| |done]. rewrite Hold', Hi, Hes. destruct Himm as [Hx|(_ & -> & _)]; [|lia].
    apply (same_imm _ _ _ _ _ Hok') in Hx. congruence.
  - intros n b H1 H2 H3 H4 Hb. apply (O n b); [done|lia|done| |].
    + intros Hc. destruct Hi as [Hi|[Hi1 Hi2]]; [|rewrite <- Hi1; apply H4; congruence].
      destruct (c_imm c) as [es|] eqn:Ec; [|done]. destruct (I es eq_refl) as [? _]. rewrite Hold', Hi, S7 in H2. lia.
    + rewrite <- Hlog by done. destruct (committed_log _ _ _ _ _ _ _ _ n Hcm H1) as [_ [<-|Hx]]; [done|]. by rewrite Hb in Hx.
  - unfold unflushed in *. rewrite Hmem. destruct Hi as [->|[_ ->]]; [|done]. simpl. rewrite app_nil_r.
    rewrite map_app in D. by apply NoDup_app in D as [? _].
  - eapply committed_tidy; [exact Hcm|lia|]. eapply only_new_tidy; [exact Hnew|lia|lia|done].
Qed.

(** The temporary manifest does not matter. *)
Lemma on_disk_tmp c d fs fs' :
  on_disk c d fs -> 0 < db_next_file_number d < 2 ^ 64 -> (forall p, p <> TmpPath (db_path d) -> fs' !! p = fs !! p) -> on_disk c d fs'.
Proof.
  intros [M W N L I O D T] Hnx Hp.
  assert (forall n, 0 <= n < 2 ^ 64 -> fs' !! LogPath (db_path d) n = fs !! LogPath (db_path d) n) as Hlog.
  { intros n Hn. apply Hp. by apply LogPath_ne. }
  split; try done.
  - rewrite Hp; [done|]. apply not_eq_sym, TmpPath_ne.
  - eapply log_holds_frame; [exact L|]. apply Hlog. lia.
  - intros es Hes. destruct (I es Hes) as [I1 I2]. split; [done|]. eapply log_holds_frame; [exact I2|]. apply Hlog. lia.
  - intros n b Hn. rewrite Hlog by done. by apply O.
  - eapply tidy_step; [exact T|lia|]. intros p Hs. destruct (decide (p = TmpPath (db_path d))); [auto|]. left. by rewrite <- Hp.
Qed.

(** The database as it was, with the directory as it is now. *)
Lemma ok_on truth floor c d e next w :
  db_ok truth floor c d e -> db_next_file_number d <= next < 2 ^ 64 ->
  (forall f, f ∈ concat (levels (db_current d)) ->
    w_files w !! TablePath (db_path d) (number f) = w_files (e_world e) !! TablePath (db_path d) (number f)) ->
  db_ok truth floor c (with_next_file_number next d) (mkEnv w (e_cache e) (e_stats e)).
Proof.
  intros [H Hl] Hn Hf. pose proof (ok_next _ _ _ _ _ H). split; [|done]. split; simpl; try apply H.
  - eapply describable_frame; [apply H|done].
  - eapply Forall_impl; [apply H|]. intros n Hx. simpl in Hx. lia.
  - lia.
  - intros n Hx. apply (ok_truth _ _ _ _ _ H). lia.
Qed.

Lemma live_number truth floor c d e f :
  db_ok truth floor c d e -> f ∈ concat (levels (db_current d)) -> 0 <= number f < db_next_file_number d.
Proof.
  intros H Hf. pose proof (ok_numbers _ _ _ _ _ H) as Hn. unfold live_tables in Hn. rewrite Forall_map, Forall_forall in Hn.
  pose proof (de_stored _ _ _ _ (ok_files _ _ _ _ _ H)) as Hs. rewrite Forall_forall in Hs.
  specialize (Hn f Hf). specialize (Hs f Hf). destruct Hs. simpl in Hn. lia.
Qed.

(** A turn of background work: the directory holds the new state, or after a
    failure still the old one. *)
Lemma turn_on_disk truth truth' floor used c c' d d' e e' s :
  db_ok truth floor c d e -> db_ok truth' floor c' d' e' -> turned used c d e s c' d' e' ->
  disk_outcome c d (e_world e) s c' d' (e_world e') -> on_disk c d (w_files (e_world e)) ->
  on_disk c' d' (w_files (e_world e')) \/
  Status.ok s = false /\
    let d1 := with_next_file_number (db_next_file_number d') d in
    on_disk c d1 (w_files (e_world e')) /\ db_ok truth floor c d1 (mkEnv (e_world e') (e_cache e) (e_stats e)).
Proof.
  intros Hok Hok' Htu Hout Hod. pose proof (tu_next _ _ _ _ _ _ _ _ Htu) as Hnx. pose proof (tu_session _ _ _ _ _ _ _ _ Htu) as Hss.
  pose proof (ok_next _ _ _ _ _ Hok) as Hn0. pose proof (ok_next _ _ _ _ _ Hok') as Hn1.
  destruct Hout as [Hnew -> Hc Hi Hil|w1 s1 Hnew Hs Hcm Himm].
  - left. eapply on_disk_quiet; [exact Hod|exact Hnew|done|done|done|done|lia].
  - destruct (decide (w_files (e_world e') !! ManifestPath (db_path d) =
      Some (manifest_bytes (db_current d') (OldestLiveLog d') (db_next_file_number d') (db_last_sequence d')))) as [Hm|Hm].
    { left. eapply (on_disk_commit truth truth'); try done. apply Htu. }
    right. destruct (committed_failed _ _ _ _ _ _ _ _ Hcm Hm) as [Es Hsame]. rewrite <- Hs. split; [done|]. cbv zeta.
    set (d1 := with_next_file_number (db_next_file_number d') d).
    split.
    + apply (on_disk_tmp c d1 (w_files w1)); [|done|done]. apply (on_disk_quiet c d d1 (e_world e)); try done; simpl; lia.
    + apply ok_on; [done|lia|]. intros f Hf. pose proof (live_number _ _ _ _ _ f Hok Hf) as Hnf.
      rewrite Hsame by (apply TablePath_ne; lia). apply Hnew. intros n Hn Heq. apply TablePath_inj in Heq; lia.
Qed.

End Disk.

Arguments on_disk {R} exact c d fs.
