(* ===== verification/Session.v ===== *)
(** * A database in use

    What callers see of a database is a map from keys to values, and a copy of it
    for every snapshot. [session] relates that map to the sources of the database
    and to the directory: as long as no error is recorded, the directory holds
    the whole map; after a failed write, recovery finds the map with or without
    the batch whose fate is in doubt. Background work changes none of it. *)

From stdpp Require Import gmap strings.
From S2P Require Import Prelude Coding InternalKey Posix WriteBatch Wal Versions Iterator Skiplist MemTable Cache Block Merge DbIter Options Sstable Records Table Levels ReadPath Gc FileNames Manifest Db Flush Compaction Install Background Disk.

(** ** The abstract database *)

Definition Map : Type := bytes -> option bytes.

Definition apply_op1 (M : Map) (o : op) : Map :=
  let '(t, k, v) := o in
  fun key => if sv_eqb k key then match t with kValue => Some v | kDeletion => None end else M key.

Definition apply_ops (ops : list op) (M : Map) : Map := fold_left apply_op1 ops M.

Record Spec := mkSpec {
  now : Map;
  pinned : gmap Z Map;   (** per snapshot *)
  doubt : list op   (** a batch that failed; it may come back after a crash *)
}.

Lemma apply_op1_ext M M' o key : M key = M' key -> apply_op1 M o key = apply_op1 M' o key.
Proof. destruct o as [[t k] v]. simpl. by intros ->. Qed.

Lemma apply_ops_ext ops : forall M M' key, M key = M' key -> apply_ops ops M key = apply_ops ops M' key.
Proof. induction ops as [|o ops IH]; intros M M' key H; simpl; [done|]. by apply IH, apply_op1_ext. Qed.

(** ** Reading what was written *)

(** A version newer than all the others decides. *)
Lemma newest_insert a x b key seq :
  Forall (fun y => user_key y = user_key x -> tag y < tag x) (a ++ b) ->
  newest (a ++ x :: b) key seq = if visible key seq x then Some x else newest (a ++ b) key seq.
Proof.
  intros Hf. rewrite newest_app. simpl. destruct (visible key seq x) eqn:Ex.
  - assert (forall l, Forall (fun y => user_key y = user_key x -> tag y < tag x) l ->
      forall y, newest l key seq = Some y -> tag y < tag x) as Hlt.
    { intros l Hl y Hy. apply newest_Some in Hy as (Hin & Hv & _). rewrite Forall_forall in Hl. apply Hl; [done|].
      apply visible_true in Hv as [Hk _], Ex as [Hk' _]. congruence. }
    apply Forall_app in Hf as [Ha Hb]. destruct (newest b key seq) as [y|] eqn:Ey; simpl.
    + specialize (Hlt b Hb y Ey) as Hy. destruct (Z.ltb_spec (tag x) (tag y)); [lia|].
      destruct (newest a key seq) as [z|] eqn:Ez; simpl; [|done]. specialize (Hlt a Ha z Ez). by destruct (Z.ltb_spec (tag z) (tag x)); [|lia].
    + destruct (newest a key seq) as [z|] eqn:Ez; simpl; [|done]. specialize (Hlt a Ha z Ez). by destruct (Z.ltb_spec (tag z) (tag x)); [|lia].
  - by rewrite newest_app.
Qed.

Lemma read_hidden a b key seq : Forall (fun y => seq < sequence y) a -> read (a ++ b) key seq = read b key seq.
Proof.
  intros Ha. apply read_app. unfold read. replace (newest a key seq) with (@None entry); [done|]. symmetry. apply newest_None.
  eapply Forall_impl; [exact Ha|]. intros y Hy. simpl in Hy. apply not_true_iff_false. rewrite visible_true. lia.
Qed.

(** Above every version the sequence does not matter. *)
Lemma read_above es key seq seq' :
  Forall (fun y => sequence y <= seq) es -> seq <= seq' -> read es key seq' = read es key seq.
Proof.
  intros Hf Hs. unfold read. f_equal. induction Hf as [|y es Hy Hf IH]; simpl; [done|]. rewrite IH.
  assert (visible key seq' y = visible key seq y) as ->; [|done]. apply eq_true_iff_eq. rewrite !visible_true. split; intros [? ?]; split; try done; lia.
Qed.

Lemma sequence_tag x y : sequence x < sequence y -> tag x < tag y.
Proof. unfold sequence, tag, ExtractSequence. rewrite !Z.shiftr_div_pow2 by lia. intros H. pose proof (Z.div_le_mono (ExtractTag y.1) (ExtractTag x.1) (2 ^ 8)). lia. Qed.

Lemma version_of_facts seq t k v :
  fits (seq, (t, k, v)) -> let x := version_of (seq, (t, k, v)) in
  user_key x = k /\ sequence x = seq /\ value_of (Some (answer x)) = match t with kValue => Some v | kDeletion => None end.
Proof.
  intros (Hs & _ & _) x. unfold x, user_key, sequence, answer, is_deletion. simpl.
  rewrite ExtractUserKey_Encode, ExtractSequence_Encode, ExtractValueType_Encode by done. by destruct t.
Qed.

(** A write is read as its operations applied in order. *)
Lemma read_written es last ops key :
  Forall (fun y => sequence y <= last) es -> Forall fits (numbered (last + 1) ops) ->
  value_of (read (map version_of (numbered (last + 1) ops) ++ es) key (last + size ops)) =
  apply_ops ops (fun key => value_of (read es key last)) key.
Proof.
  intros Hes. induction ops as [|[[t k] v] ops IH] using rev_ind; intros Hf; [by rewrite size_nil, Z.add_0_r|].
  rewrite numbered_app in Hf |- *. apply Forall_app in Hf as [Hf Hx]. specialize (IH Hf). rewrite size_app. change (size [(t, k, v)]) with 1.
  simpl in Hx. apply Forall_cons in Hx as [Hx _]. rewrite map_app, <- app_assoc. cbn [numbered map app].
  set (news := map version_of (numbered (last + 1) ops)) in *. pose proof (size_nonneg ops) as Hsz.
  destruct (version_of_facts _ _ _ _ Hx) as (Hk & Hsq & Hv). set (x := version_of _) in *.
  assert (Forall (fun y => sequence y <= last + size ops) (news ++ es)) as Hold.
  { apply Forall_app. split; [|eapply Forall_impl; [exact Hes|]; intros y Hy; simpl in Hy; lia].
    unfold news. apply Forall_map, Forall_forall. intros y Hy. pose proof (numbered_range _ _ _ Hy) as [Hr _].
    rewrite Forall_forall in Hf. destruct (version_of_sequence y (Hf y Hy)) as [Hs _]. simpl. lia. }
  unfold read at 1. rewrite newest_insert.
  2:{ eapply Forall_impl; [exact Hold|]. intros y Hy _. apply sequence_tag. simpl in Hy. lia. }
  unfold apply_ops. rewrite fold_left_app. cbn [fold_left apply_op1]. fold (apply_ops ops (fun key => value_of (read es key last))).
  unfold visible. rewrite Hk, Hsq. destruct (sv_eqb k key) eqn:Ek; simpl.
  - destruct (Z.leb_spec (last + 1 + size ops) (last + (size ops + 1))); [|lia]. exact Hv.
  - rewrite <- IH. fold (read (news ++ es) key (last + (size ops + 1))). by rewrite (read_above _ _ (last + size ops)) by (done || lia).
Qed.

(** ** The database behind it *)

Section Session.
Context {R : Type} (seed : R).
Abbreviation DB := (@DB R).
Abbreviation db_ok := (@db_ok R).

(** The snapshots of the two sides. *)
Definition pins (es : list entry) (snapshots : gmap Z Z) (maps : gmap Z Map) : Prop :=
  forall raw,
    match snapshots !! raw, maps !! raw with
    | Some s, Some M => forall key, M key = value_of (read es key s)
    | None, None => True
    | _, _ => False
    end.

Record seen (A : Spec) (c : contents) (d : DB) (e : Env) : Prop := {
  se_now : forall key, now A key = value_of (read (everything c) key (db_last_sequence d));
  se_pinned : pins (everything c) (db_snapshots d) (pinned A);
  se_fresh : c_mem c = [] -> db_mem d = new_MemTable seed;
  se_disk : Status.ok (db_bg_error d) = true -> on_disk true c d (w_files (e_world e)) /\ doubt A = [];
  se_error : Status.ok (db_bg_error d) = false ->
    exists M, recovers (db_path d) (db_options d) (w_files (e_world e)) (db_next_file_number d) M /\
      ((forall key, M key = now A key) \/ (forall key, M key = apply_ops (doubt A) (now A) key))
}.

(** The database [d] holds the abstract contents [A]; [c] is stored. *)
Definition in_use (A : Spec) (c : contents) (d : DB) (e : Env) : Prop :=
  exists truth floor, db_ok truth floor c d e /\ seen A c d e.

(** No test hook is installed, and records reach the log as they are. *)
Definition unhooked (d : DB) : Prop := match db_log d with Some l => hook_ l = None | None => True end.

Definition session (A : Spec) (c : contents) (d : DB) (e : Env) : Prop := in_use A c d e /\ unhooked d.

Lemma latest_now truth floor c d e key :
  db_ok truth floor c d e -> latest (everything c) key = value_of (read (everything c) key (db_last_sequence d)).
Proof.
  intros H. unfold latest. pose proof (ok_last _ _ _ _ _ H). rewrite (read_above _ _ (db_last_sequence d)); [done|apply H|lia].
Qed.

Lemma recovers_ext dir o fs bound M M' : recovers dir o fs bound M -> (forall key, M key = M' key) -> recovers dir o fs bound M'.
Proof. intros (v & log & E & l0 & deep & Hr & HM) Heq. exists v, log, E, l0, deep. split; [done|]. intros key. by rewrite HM. Qed.

(** The directory of a database holds what reads see. *)
Lemma on_disk_now exact truth floor c d e :
  db_ok truth floor c d e -> on_disk exact c d (w_files (e_world e)) ->
  recovers (db_path d) (db_options d) (w_files (e_world e)) (db_next_file_number d)
    (fun key => value_of (read (everything c) key (db_last_sequence d))).
Proof.
  intros Hok Hod. eapply recovers_ext; [eapply on_disk_recovers; [exact Hok|exact Hod]|]. intros key. by eapply latest_now.
Qed.

(** Reads that background work keeps. *)
Lemma turned_now truth floor used c d e s c' d' e' key :
  db_ok truth floor c d e -> turned used c d e s c' d' e' ->
  value_of (read (everything c') key (db_last_sequence d')) = value_of (read (everything c) key (db_last_sequence d)).
Proof.
  intros Hok Htu. rewrite (ss_last _ _ (tu_session _ _ _ _ _ _ _ _ Htu)). apply (tu_reads _ _ _ _ _ _ _ _ Htu).
  by apply (ok_smallest _ _ _ _ _ Hok).
Qed.

Lemma turned_pins truth floor used c d e s c' d' e' maps :
  db_ok truth floor c d e -> turned used c d e s c' d' e' ->
  pins (everything c) (db_snapshots d) maps -> pins (everything c') (db_snapshots d') maps.
Proof.
  intros Hok Htu Hp raw. specialize (Hp raw). rewrite (ss_snapshots _ _ (tu_session _ _ _ _ _ _ _ _ Htu)).
  destruct (db_snapshots d !! raw) as [sn|] eqn:Es, (maps !! raw) as [M|]; try done. intros key. rewrite Hp. symmetry.
  apply (tu_reads _ _ _ _ _ _ _ _ Htu). destruct (SmallestSnapshot_spec d) as (_ & H & _). by eapply H.
Qed.

(** Background work is not seen. *)
Lemma seen_turn A : kept_by_turns (seen A).
Proof.
  intros truth truth' floor used c c' d d' e e' s Hok Hok' Htu Hout Hb [H1 H2 H3 H4 _].
  destruct (H4 Hb) as [Hod Hdoubt]. pose proof (tu_session _ _ _ _ _ _ _ _ Htu) as Hss.
  assert (forall key, now A key = value_of (read (everything c') key (db_last_sequence d'))) as Hnow.
  { intros key. rewrite H1. symmetry. eapply turned_now; [exact Hok|exact Htu]. }
  pose proof (turn_on_disk _ _ _ _ _ _ _ _ _ _ _ Hok Hok' Htu Hout Hod) as Hdisk.
  split; [done|eapply turned_pins; [exact Hok|exact Htu|done]| | |].
  - rewrite (tu_mem _ _ _ _ _ _ _ _ Htu), (ss_mem _ _ Hss). done.
  - intros Hb'. split; [|done]. destruct Hdisk as [|[Hs _]]; [done|]. rewrite (tu_failed _ _ _ _ _ _ _ _ Htu Hs) in Hb'. congruence.
  - intros Hb'. destruct Hdisk as [Hod'|(Hs & Hod' & Hok1)]; eexists.
    + split; [eapply on_disk_now; [exact Hok'|done]|]. left. intros key. by rewrite Hnow.
    + rewrite (ss_path _ _ Hss), (ss_options _ _ Hss). split; [exact (on_disk_now _ _ _ _ _ _ Hok1 Hod')|]. left. intros key. by rewrite H1.
Qed.

End Session.
