(* ===== verification/Upkeep.v ===== *)
(** * Maintenance: rotation, making room, flushing and compacting on request

    None of it is seen by readers, none of it can leave the directory short of
    something, and all of it ends. The lemmas are stated for a database in use
    ([Session]), under every outcome of the system calls. *)

From stdpp Require Import gmap strings.
From S2P Require Import Prelude Coding InternalKey Posix WriteBatch Wal Versions Iterator Skiplist MemTable Cache Block Merge DbIter Options Sstable Records Table Levels ReadPath Gc FileNames Manifest Db Flush Compaction Install Background Disk Session Write.

Section Upkeep.
Context {R : Type} (rnd : R -> Z * R) (seed : R).
Abbreviation DB := (@DB R).
Abbreviation rotate := (rotate seed).
Abbreviation MakeRoomForWrite := (MakeRoomForWrite seed).
Abbreviation FlushMemTable := (FlushMemTable seed).
Abbreviation CompactAll := (CompactAll seed).

Lemma Drain_ok fuel : forall d e s d' e',
  DrainBackgroundWork (R := R) fuel d e = Some (s, d', e') -> Status.ok s = true -> s = db_bg_error d'.
Proof.
  induction fuel as [|fuel IH]; intros d e s d' e'; [done|]. cbn [DrainBackgroundWork].
  destruct (Status.ok (db_bg_error d) && HasPendingWork d); [|by intros [= <- <- <-]].
  destruct (BackgroundWorkOnce d e) as [[[s1 d1] e1]|]; cbn [mbind option_bind]; [|done].
  destruct (Status.ok s1) eqn:Hs1; cbn [negb]; [apply IH|]. intros [= <- <- <-]. congruence.
Qed.

(** ** Maintenance is not seen *)

Abbreviation db_ok := (@db_ok R).
Abbreviation seen := (seen seed).
Abbreviation in_use := (in_use seed).

(** How far background work can go with [n] versions stored. *)
Definition drain_turns (n : Z) : Z := 8 * n + 2.
Definition drain_files (n : Z) : Z := (8 * n + 1) * (n + 1).

Record upkeep (used : Z) (c : contents) (d : DB) (e : Env) (s : Status) (c' : contents) (d' : DB) (e' : Env) : Prop := {
  up_options : db_options d' = db_options d;
  up_path : db_path d' = db_path d;
  up_last : db_last_sequence d' = db_last_sequence d;
  up_snapshots : db_snapshots d' = db_snapshots d;
  up_log : db_log d' = db_log d \/ unhooked d';
  up_shrinks : everything c' ⊆+ everything c;
  up_fine : Status.ok s = true -> db_bg_error d' = db_bg_error d;
  up_next : db_next_file_number d' <= db_next_file_number d + used;
  up_calm : w_oracle (e_world e) = [] -> db_bg_error d = Status.OK -> s = Status.OK /\ w_oracle (e_world e') = []
}.

Lemma upkeep_turned used c d e s c' d' e' : turned used c d e s c' d' e' -> upkeep used c d e s c' d' e'.
Proof. intros [[S1 S2 S3 S4 S5 S6 S7] T2 T3 T4 T5 T6 T7 T8 T9]. split; try done. by left. Qed.

Lemma upkeep_unhooked used c d e s c' d' e' : upkeep used c d e s c' d' e' -> unhooked d -> unhooked d'.
Proof. intros Hup. unfold unhooked. by destruct (up_log _ _ _ _ _ _ _ _ Hup) as [->|]. Qed.

Lemma upkeep_refl used c d e s : 0 <= used -> (db_bg_error d = Status.OK -> s = Status.OK) -> upkeep used c d e s c d e.
Proof. intros Hu Hs. split; try done; [by left|lia|]. auto. Qed.

Lemma upkeep_trans used used' c d e s c' d' e' s' c'' d'' e'' :
  upkeep used c d e s c' d' e' -> Status.ok s = true -> upkeep used' c' d' e' s' c'' d'' e'' ->
  upkeep (used + used') c d e s' c'' d'' e''.
Proof.
  intros [A1 A2 A3 A4 A0 A5 A6 A7 A8] Hs [B1 B2 B3 B4 B0 B5 B6 B7 B8]. specialize (A6 Hs). split; try congruence.
  - destruct B0 as [B0|]; [|by right]. unfold unhooked. by rewrite B0.
  - by etrans.
  - intros Hs'. by rewrite B6.
  - lia.
  - intros Ho Hb. apply B8; [by apply A8|congruence].
Qed.

Lemma upkeep_more used used' c d e s c' d' e' : used <= used' -> upkeep used c d e s c' d' e' -> upkeep used' c d e s c' d' e'.
Proof. intros Hu [A1 A2 A3 A4 A0 A5 A6 A7 A8]. split; try done. lia. Qed.

Lemma falls_bound ls : forall n, n <= 8 -> falls n ls <= 8 * size (concat (map (@concat entry) ls)).
Proof.
  induction ls as [|ess ls IH]; intros n Hn; simpl; [done|]. rewrite size_app. pose proof (size_nonneg (concat ess)).
  specialize (IH (n - 1) ltac:(lia)). nia.
Qed.

Lemma to_fall_bound c : to_fall c <= 8 * size (everything c).
Proof.
  unfold to_fall. pose proof (falls_bound (c_l0 c :: c_deep c) 7 ltac:(lia)) as H. rewrite everything_split. unfold unflushed.
  rewrite !size_app. pose proof (size_nonneg (c_mem c)). unfold sources. rewrite concat_app, size_app. simpl in H. rewrite size_app in H.
  cbn [falls]. lia.
Qed.

(** Draining, in terms of the number of versions stored. *)
Lemma Drain_seen A fuel truth floor c d e :
  0 < u64 (l0_compaction_trigger (db_options d)) -> db_ok truth floor c d e -> seen A c d e ->
  drain_turns (size (everything c)) <= Z.of_nat fuel ->
  db_next_file_number d + drain_files (size (everything c)) < 2 ^ 32 - 1 ->
  exists s d' e' truth' c', DrainBackgroundWork fuel d e = Some (s, d', e') /\ db_ok truth' floor c' d' e' /\
    seen A c' d' e' /\ upkeep (drain_files (size (everything c))) c d e s c' d' e' /\ c_mem c' = c_mem c /\
    s = db_bg_error d' /\ (Status.ok s = true -> HasPendingWork d' = false).
Proof.
  intros Ht Hok Hse Hf Hr. pose proof (to_fall_bound c) as Hb. pose proof (size_nonneg (everything c)) as Hsz.
  unfold drain_turns, drain_files in *.
  destruct (Drain_spec (seen A) fuel (seen_turn seed A) truth floor c d e Ht Hok Hse) as (s & d' & e' & truth' & c' & E & Hok' & Htu & Hd & Hse');
    [lia|nia|]. exists s, d', e', truth', c'. split_and!; [done|done|done|eapply upkeep_more; [|by apply upkeep_turned]; nia|apply Htu| |done].
  destruct (Status.ok s) eqn:Hs; [by apply Drain_ok in E|by rewrite (tu_failed _ _ _ _ _ _ _ _ Htu Hs)].
Qed.

(** ** Rotation *)

Definition rotated (c : contents) : contents := mkContents [] (Some (c_mem c)) (c_l0 c) (c_deep c).

Lemma everything_rotated c : c_imm c = None -> everything (rotated c) = everything c.
Proof. intros H. rewrite !everything_split. unfold unflushed, rotated. rewrite H. simpl. by rewrite app_nil_r. Qed.

(** A number above all others names no file. *)
Lemma next_log_absent exact c (d : DB) fs :
  on_disk exact c d fs -> 0 < db_next_file_number d < 2 ^ 64 -> fs !! LogPath (db_path d) (db_next_file_number d) = None.
Proof.
  intros H Hn. destruct (fs !! _) as [b|] eqn:E; [|done].
  destruct (od_tidy _ _ _ H (base_name (db_next_file_number d) ".log") (db_next_file_number d) "log") as [? _]; [by exists b|apply parse_log; lia|lia].
Qed.

(** A new log in the directory, and nothing else. *)
Lemma touches_log c (d : DB) w w' :
  let n := db_next_file_number d in
  on_disk true c d (w_files w) -> 0 < n < 2 ^ 32 -> touches (LogPath (db_path d) n) w w' ->
  (forall b, w_files w' !! LogPath (db_path d) n = Some b -> b `prefix_of` wal_header) ->
  on_disk true c (with_next_file_number (n + 1) d) (w_files w').
Proof.
  intros n Hod Hn [T _] Hb. pose proof Hod as [M W N L I O D Ti].
  destruct (LogPath_ne (db_path d) n ltac:(lia)) as (N1 & N2 & N3).
  assert (forall m, 0 <= m < 2 ^ 64 -> m <> n -> w_files w' !! LogPath (db_path d) m = w_files w !! LogPath (db_path d) m) as Hlog.
  { intros m Hm Hne. apply T. intros Heq. apply LogPath_inj in Heq; lia. }
  split; simpl; try done.
  - destruct M as (next & seq & M1 & M2 & M3 & M4). exists next, seq. rewrite T by done. split_and!; try done; try lia; apply M4.
  - lia.
  - eapply log_holds_frame; [exact L|]. apply Hlog; lia.
  - intros es Hes. destruct (I es Hes) as [I1 I2]. split; [done|]. eapply log_holds_frame; [exact I2|]. apply Hlog; lia.
  - intros m b H1 H2 H3 H4 Hm. destruct (decide (m = n)) as [->|Hne]; [by apply Hb|]. apply (O m b); try done. by rewrite <- Hlog.
  - eapply tidy_step; [exact Ti|lia|]. intros p Hp. destruct (decide (p = LogPath (db_path d) n)) as [->|Hne].
    + right; right; right. exists n. split; [lia|by right].
    + left. by rewrite <- T.
Qed.

(** The new log becomes the active one. *)
Lemma on_disk_rotated c (d : DB) fs l n :
  on_disk true c d fs -> db_next_file_number d = n + 1 -> db_imm d = None -> c_imm c = None -> 0 <= n < 2 ^ 32 -> db_log_number d < n ->
  Wal.fd_ l = Some (LogPath (db_path d) n) -> fs !! LogPath (db_path d) n = Some (log_of []) ->
  on_disk true (rotated c) (with_mem (new_MemTable seed) (with_imm (Some (db_mem d))
    (with_log_number n (with_imm_log_number (db_log_number d) (with_log (Some l) d))))) fs.
Proof.
  intros [M W N L I O D Ti] Hnx Hi Hci Hn Hlt Hfd Hf.
  assert (OldestLiveLog d = db_log_number d) as Hold by (unfold OldestLiveLog; by rewrite Hi). rewrite Hold in *.
  split; simpl; try done.
  - eauto.
  - lia.
  - exists [], (log_of []). by split_and!.
  - intros es [= <-]. split; [lia|]. by eapply log_holds_replays.
  - intros m b H1 H2 H3 H4. apply (O m b); try done. by apply H4.
  - unfold unflushed in *. rewrite Hci in D. simpl in *. by rewrite app_nil_r in D.
Qed.

Lemma Close_files l w s l' w' :
  WalWriter_Close l w = (s, l', w') -> w_files w' = w_files w /\ (w_oracle w = [] -> w_oracle w' = []).
Proof.
  unfold WalWriter_Close. destruct (Wal.fd_ l); [|by intros [= <- <- <-]].
  destruct (sys_simple "close" w) as [s1 w1] eqn:E. destruct (sys_simple_spec _ ""%string _ _ _ E) as ([_ T] & F & _).
  by intros [= <- <- <-].
Qed.

Lemma rotated_ok truth floor c d e l n m :
  db_ok truth floor c d e -> c_imm c = None -> c_mem c <> [] ->
  db_ok truth floor (rotated c) (with_mem (new_MemTable seed) (with_imm (Some (db_mem d))
    (with_log_number n (with_imm_log_number m (with_log (Some l) d))))) e.
Proof.
  intros [H Hl] Hi Hne. pose proof (everything_rotated c Hi) as He. split.
  - split; simpl; rewrite ?He; try apply H; [apply (new_MemTable_ok rnd)|constructor; apply H|congruence].
  - unfold all_sources in *. simpl. rewrite Hi in Hl. simpl in Hl. split; [by intros x y ?%elem_of_nil|done].
Qed.

Lemma rotate_spec A truth floor c d e :
  db_ok truth floor c d e -> seen A c d e -> Status.ok (db_bg_error d) = true -> db_imm d = None -> c_mem c <> [] ->
  db_next_file_number d < 2 ^ 32 - 1 ->
  exists s d' e' c', rotate d e = Some (s, d', e') /\ db_ok truth floor c' d' e' /\ seen A c' d' e' /\
    upkeep 1 c d e s c' d' e' /\ db_bg_error d' = db_bg_error d /\ (Status.ok s = true -> db_mem d' = new_MemTable seed).
Proof.
  intros Hok Hse Hb Hi Hne Hnx. pose proof Hse as [S1 S2 S3 S4 S5]. destruct (S4 Hb) as [Hod Hdoubt].
  pose proof (ok_next _ _ _ _ _ Hok) as Hn0. assert (c_imm c = None) as Hci by (by eapply same_imm).
  unfold rotate. set (n := db_next_file_number d) in *. rewrite u64_id by lia. cbn [db_path with_next_file_number].
  destruct (WalWriter_Open _ _ _) as [[s l] w] eqn:Eo.
  destruct (WalWriter_Open_spec _ _ _ _ _ (next_log_absent _ _ _ _ Hod ltac:(lia)) Eo) as (T & O & Hblank & Hopen).
  pose proof (touches_log c d _ _ Hod ltac:(lia) T Hblank) as Hod1. fold n in Hod1. set (d1 := with_next_file_number (n + 1) d) in *.
  assert (forall w', w_files w' = w_files w -> db_ok truth floor c d1 (mkEnv w' (e_cache e) (e_stats e))) as Hok1.
  { intros w' Hw. apply ok_on; [done|lia|]. intros f Hf. rewrite Hw. apply T. pose proof (live_number _ _ _ _ _ f Hok Hf).
    apply not_eq_sym, LogPath_ne; lia. }
  destruct (Status.ok s) eqn:Hs; cbn [negb].
  2:{ destruct (WalWriter_Close l w) as [[s2 l2] w2] eqn:Ec. destruct (Close_files _ _ _ _ _ Ec) as [F2 O2].
      do 3 eexists. exists c. split_and!; [done|by apply Hok1| | |done|congruence].
      - split; simpl; try done; [|congruence]. rewrite F2. done.
      - split; try done; [by left|]. intros Ho Hx. rewrite (O Ho) in Hs. done. }
  destruct (Hopen eq_refl) as (-> & Hfd & Hhook & Hnew). destruct (od_writer _ _ _ Hod) as (log & Hlog & _).
  change (db_log d1) with (db_log d). rewrite Hlog. cbn [mbind option_bind].
  destruct (WalWriter_Close log w) as [[s2 l2] w2] eqn:Ec. destruct (Close_files _ _ _ _ _ Ec) as [F2 O2].
  do 3 eexists. exists (rotated c). split; [done|]. split_and!.
  - by apply (rotated_ok truth floor c d1 _ l n (db_log_number d)); [apply Hok1| |].
  - pose proof (everything_rotated c Hci) as He. split; simpl; rewrite ?He; try done; [|congruence]. intros _. split; [|done]. rewrite F2.
    pose proof (od_number _ _ _ Hod). apply (on_disk_rotated c d1); try done; simpl; lia.
  - split; try done; simpl; [by right|by rewrite everything_rotated|]. intros Ho _. split; [done|]. by apply O2, T.
  - done.
  - done.
Qed.

(** ** Making room *)

Lemma no_pending (d : DB) : HasPendingWork d = false -> db_imm d = None.
Proof. unfold HasPendingWork. by destruct (db_imm d). Qed.

(** A turn of the background thread with work to do. *)
Lemma loop_turn_seen A truth floor c d e :
  0 < u64 (l0_compaction_trigger (db_options d)) -> db_ok truth floor c d e -> seen A c d e ->
  Status.ok (db_bg_error d) = true -> HasPendingWork d = true ->
  db_next_file_number d + size (everything c) + 1 < 2 ^ 32 - 1 ->
  exists s d' e' truth' c', BackgroundLoop_turn d e = Some (d', e') /\ db_ok truth' floor c' d' e' /\ seen A c' d' e' /\
    upkeep (size (everything c) + 1) c d e s c' d' e' /\ c_mem c' = c_mem c /\ (Status.ok s = false -> db_bg_error d' = s) /\
    (Status.ok s = true -> to_fall c' < to_fall c /\ db_imm d' = None).
Proof.
  intros Ht Hok Hse Hb Hp Hr. unfold BackgroundLoop_turn. rewrite Hb, Hp. cbn [negb orb].
  destruct (turn_spec truth floor c d e Ht Hok Hp Hr) as (s & d' & e' & truth' & c' & -> & Hok' & Htu & Hf & Hdo).
  exists s, d', e', truth', c'. cbn [mbind option_bind]. split_and!; [done|done| |by apply upkeep_turned|apply Htu|apply Htu|done].
  exact (seen_turn seed A _ _ _ _ _ _ _ _ _ _ _ Hok Hok' Htu Hdo Hb Hse).
Qed.

(** What the sizes and numbers of the database have to allow. *)
Record affords (drain : nat) (used : Z) (n : Z) (d : DB) : Prop := {
  af_trigger : 0 < u64 (l0_compaction_trigger (db_options d));
  af_memtable : ApproximateMemoryUsage (new_MemTable seed) <= memtable_size_bytes (db_options d);
  af_turns : drain_turns n <= Z.of_nat drain;
  af_files : db_next_file_number d + drain_files n + used < 2 ^ 32 - 1
}.

(** A write waits for one turn of the background thread, or drains. *)
Definition room_files (o : Options) (n : Z) : Z := if background_compaction o then n + 1 else drain_files n.

Record has_room (drain : nat) (n : Z) (d : DB) : Prop := {
  hr_trigger : 0 < u64 (l0_compaction_trigger (db_options d));
  hr_memtable : ApproximateMemoryUsage (new_MemTable seed) <= memtable_size_bytes (db_options d);
  hr_turns : background_compaction (db_options d) = false -> drain_turns n <= Z.of_nat drain;
  hr_files : db_next_file_number d + room_files (db_options d) n + 1 < 2 ^ 32 - 1
}.

Lemma room_there fuel drain d e :
  Status.ok (db_bg_error d) = true -> ApproximateMemoryUsage (db_mem d) <= memtable_size_bytes (db_options d) ->
  MakeRoomForWrite (S fuel) drain d e = Some (Status.OK, d, e).
Proof. intros Hb Hu. cbn [MakeRoomForWrite]. rewrite Hb. cbn [negb]. by destruct (Z.leb_spec (ApproximateMemoryUsage (db_mem d)) (memtable_size_bytes (db_options d))); [|lia]. Qed.

(** With no flush outstanding. *)
Lemma room_rotate A truth floor c d e fuel drain :
  ApproximateMemoryUsage (new_MemTable seed) <= memtable_size_bytes (db_options d) -> db_next_file_number d < 2 ^ 32 - 1 ->
  db_ok truth floor c d e -> seen A c d e -> Status.ok (db_bg_error d) = true -> db_imm d = None ->
  exists s d' e' c', MakeRoomForWrite (S (S fuel)) drain d e = Some (s, d', e') /\ db_ok truth floor c' d' e' /\ seen A c' d' e' /\
    upkeep 1 c d e s c' d' e' /\ db_bg_error d' = db_bg_error d.
Proof.
  intros A2 A4 Hok Hse Hb Hi.
  destruct (Z.le_gt_cases (ApproximateMemoryUsage (db_mem d)) (memtable_size_bytes (db_options d))) as [Hu|Hu].
  { rewrite room_there by done. do 3 eexists. exists c. split_and!; [done|done|done|by apply upkeep_refl|done]. }
  assert (c_mem c <> []) as Hne by (intros Hx; rewrite (se_fresh _ _ _ _ _ Hse Hx) in Hu; lia).
  remember (S fuel) as k eqn:Ek. cbn [MakeRoomForWrite]. rewrite Hb, Hi. cbn [negb].
  destruct (Z.leb_spec (ApproximateMemoryUsage (db_mem d)) (memtable_size_bytes (db_options d))); [lia|].
  destruct (rotate_spec A truth floor c d e Hok Hse Hb Hi Hne ltac:(lia)) as (s & d' & e' & c' & -> & Hok' & Hse' & Hup & Hbg & Hnew).
  cbn [mbind option_bind]. destruct (Status.ok s) eqn:Hs; cbn [negb]; [|do 3 eexists; exists c'; by split_and!].
  rewrite Ek, room_there.
  - do 3 eexists. exists c'. split_and!; [done|done|done| |done]. destruct Hup. by split; try naive_solver.
  - by rewrite Hbg.
  - rewrite (Hnew eq_refl), (up_options _ _ _ _ _ _ _ _ Hup). done.
Qed.

Lemma room_error fuel drain d e :
  Status.ok (db_bg_error d) = false -> MakeRoomForWrite (S fuel) drain d e = Some (db_bg_error d, d, e).
Proof. intros Hb. cbn [MakeRoomForWrite]. by rewrite Hb. Qed.

Lemma drain_files_bounds n : 0 <= n -> n + 1 <= drain_files n /\ 1 <= drain_turns n.
Proof. unfold drain_files, drain_turns. nia. Qed.

Lemma room_files_bounds o n : 0 <= n -> n + 1 <= room_files o n <= drain_files n.
Proof. intros Hn. pose proof (drain_files_bounds n Hn). unfold room_files. destruct (background_compaction o); lia. Qed.

(** The loop ends: at most a flush, then a rotation, then there is room. *)
Lemma MakeRoom_spec A truth floor c d e fuel drain :
  let n := size (everything c) in
  has_room drain n d -> db_ok truth floor c d e -> seen A c d e ->
  exists s d' e' truth' c', MakeRoomForWrite (S (S (S fuel))) drain d e = Some (s, d', e') /\ db_ok truth' floor c' d' e' /\
    seen A c' d' e' /\ upkeep (room_files (db_options d) n + 1) c d e s c' d' e' /\ (Status.ok s = true -> Status.ok (db_bg_error d') = true).
Proof.
  intros n Haf Hok Hse. pose proof (size_nonneg (everything c)) as Hsz. fold n in Hsz. destruct (room_files_bounds (db_options d) n Hsz) as [Hdf _].
  pose proof Haf as [A1 A2 A3 A4].
  destruct (Status.ok (db_bg_error d)) eqn:Hb.
  2:{ rewrite room_error by done. do 3 eexists. exists truth, c. split_and!; [done|done|done| |congruence]. apply upkeep_refl; [lia|done]. }
  destruct (Z.le_gt_cases (ApproximateMemoryUsage (db_mem d)) (memtable_size_bytes (db_options d))) as [Hu|Hu].
  { rewrite room_there by done. do 3 eexists. exists truth, c. split_and!; [done|done|done|apply upkeep_refl; [lia|done]|done]. }
  destruct (db_imm d) as [imm|] eqn:Hi.
  2:{ destruct (room_rotate A truth floor c d e (S fuel) drain) as (s & d' & e' & c' & -> & H1 & H2 & H3 & H4);
        [done|lia|done..|].
      do 3 eexists. exists truth, c'. split_and!; [done|done|done| |by rewrite H4]. eapply upkeep_more; [|done]. lia. }
  remember (S (S fuel)) as k eqn:Ek. cbn [MakeRoomForWrite]. rewrite Hb, Hi. cbn [negb].
  destruct (Z.leb_spec (ApproximateMemoryUsage (db_mem d)) (memtable_size_bytes (db_options d))); [lia|].
  assert (forall s d1 e1 truth1 c1, db_ok truth1 floor c1 d1 e1 -> seen A c1 d1 e1 -> upkeep (room_files (db_options d) n) c d e s c1 d1 e1 ->
    Status.ok s = true -> Status.ok (db_bg_error d1) = true -> db_imm d1 = None ->
    exists s d' e' truth' c', MakeRoomForWrite k drain d1 e1 = Some (s, d', e') /\ db_ok truth' floor c' d' e' /\
      seen A c' d' e' /\ upkeep (room_files (db_options d) n + 1) c d e s c' d' e' /\ (Status.ok s = true -> Status.ok (db_bg_error d') = true)) as Hgo.
  { intros s d1 e1 truth1 c1 Hok1 Hse1 Hup Hs Hb1 Hi1. subst k. pose proof (up_next _ _ _ _ _ _ _ _ Hup).
    destruct (room_rotate A truth1 floor c1 d1 e1 fuel drain) as (s2 & d2 & e2 & c2 & -> & H1 & H2 & H3 & H4); try done.
    - by rewrite (up_options _ _ _ _ _ _ _ _ Hup).
    - lia.
    - do 3 eexists. exists truth1, c2. split_and!; [done|done|done|by eapply upkeep_trans|by rewrite H4]. }
  unfold room_files in *. destruct (background_compaction (db_options d)).
  - destruct (loop_turn_seen A truth floor c d e) as (s & d1 & e1 & truth1 & c1 & -> & Hok1 & Hse1 & Hup & _ & Hf & Hg);
      [done..|by unfold HasPendingWork; rewrite Hi|fold n; lia|]. cbn [mbind option_bind].
    fold n in Hup. destruct (Status.ok s) eqn:Hs.
    + eapply Hgo; [done|done|exact Hup|done|by rewrite (up_fine _ _ _ _ _ _ _ _ Hup Hs)|by apply Hg].
    + rewrite Ek, room_error by (by rewrite (Hf eq_refl)). do 3 eexists. exists truth1, c1. rewrite (Hf eq_refl).
      split_and!; [done|done|done|eapply upkeep_more; [|done]; lia|congruence].
  - destruct (Drain_seen A drain truth floor c d e) as (s & d1 & e1 & truth1 & c1 & -> & Hok1 & Hse1 & Hup & _ & Hsb & Hg); [done..|by apply A3|fold n; lia|].
    fold n in Hup. cbn [mbind option_bind]. destruct (Status.ok s) eqn:Hs; cbn [negb].
    + eapply Hgo; [done|done|exact Hup|done|by rewrite <- Hsb|by apply no_pending, Hg].
    + do 3 eexists. exists truth1, c1. split_and!; [done|done|done|eapply upkeep_more; [|done]; lia|congruence].
Qed.

(** ** Flushing and compacting on request *)

(** Turns of the background thread until [stop] or an error. *)
Lemma turns_seen A stop fuel : (forall d, stop d = false -> HasPendingWork d = true) -> forall truth floor c d e,
  0 < u64 (l0_compaction_trigger (db_options d)) -> db_ok truth floor c d e -> seen A c d e -> to_fall c + 1 < Z.of_nat fuel ->
  let used := (to_fall c + 1) * (size (everything c) + 1) in
  db_next_file_number d + used < 2 ^ 32 - 1 ->
  exists d' e' truth' c', background_turns fuel stop d e = Some (d', e') /\ db_ok truth' floor c' d' e' /\ seen A c' d' e' /\
    upkeep used c d e (db_bg_error d') c' d' e' /\ c_mem c' = c_mem c /\ (Status.ok (db_bg_error d') = true -> stop d' = true).
Proof.
  intros Hstop. induction fuel as [|fuel IH]; intros truth floor c d e Ht Hok Hse Hf used Hr;
    pose proof (to_fall_nonneg _ _ _ _ _ Hok) as Hnn; [lia|]. pose proof (size_nonneg (everything c)) as Hsz.
  assert (0 <= used) as Hu by (unfold used; nia). cbn [background_turns].
  destruct (negb (Status.ok (db_bg_error d)) || stop d) eqn:Ec.
  { do 2 eexists. exists truth, c. split_and!; [done|done|done|by apply upkeep_refl|done|]. intros Hb. by rewrite Hb in Ec. }
  apply orb_false_iff in Ec as [Hb%negb_false_iff Hs].
  destruct (loop_turn_seen A truth floor c d e Ht Hok Hse Hb (Hstop d Hs)) as (s & d1 & e1 & truth1 & c1 & -> & Hok1 & Hse1 & Hup & Hm & Hf1 & Hg);
    [unfold used in Hr; nia|]. cbn [mbind option_bind]. destruct (Status.ok s) eqn:Es.
  - destruct (Hg eq_refl) as [Hfall _]. pose proof (size_submseteq _ _ (up_shrinks _ _ _ _ _ _ _ _ Hup)) as Hs1.
    pose proof (up_next _ _ _ _ _ _ _ _ Hup). pose proof (size_nonneg (everything c1)). pose proof (to_fall_nonneg _ _ _ _ _ Hok1).
    assert (size (everything c) + 1 + (to_fall c1 + 1) * (size (everything c1) + 1) <= used) as Hused by (unfold used; nia).
    destruct (IH truth1 floor c1 d1 e1) as (d2 & e2 & truth2 & c2 & -> & Hok2 & Hse2 & Hup2 & Hm2 & Hd);
      [by rewrite (up_options _ _ _ _ _ _ _ _ Hup)|done|done|lia|lia|].
    do 2 eexists. exists truth2, c2. split_and!; [done|done|done| |by rewrite Hm2|done].
    eapply upkeep_more; [exact Hused|]. by eapply upkeep_trans.
  - destruct fuel as [|fuel]; [lia|]. cbn [background_turns]. rewrite (Hf1 eq_refl), Es. cbn [negb orb].
    do 2 eexists. exists truth1, c1. rewrite (Hf1 eq_refl). split_and!; [done|done|done| |done|congruence].
    eapply upkeep_more; [|done]. unfold used. nia.
Qed.

Lemma Wait_seen A drain truth floor c d e :
  0 < u64 (l0_compaction_trigger (db_options d)) -> db_ok truth floor c d e -> seen A c d e ->
  drain_turns (size (everything c)) <= Z.of_nat drain ->
  db_next_file_number d + drain_files (size (everything c)) < 2 ^ 32 - 1 ->
  exists d' e' truth' c', WaitForBackgroundWork drain d e = Some (d', e') /\ db_ok truth' floor c' d' e' /\ seen A c' d' e' /\
    upkeep (drain_files (size (everything c))) c d e (db_bg_error d') c' d' e' /\ c_mem c' = c_mem c /\
    (Status.ok (db_bg_error d') = true -> HasPendingWork d' = false).
Proof.
  intros Ht Hok Hse Hf Hr. unfold WaitForBackgroundWork. destruct (background_compaction (db_options d)); cbn [negb].
  - pose proof (to_fall_bound c) as Hb. pose proof (size_nonneg (everything c)) as Hsz. unfold drain_turns, drain_files in *.
    destruct (turns_seen A (fun d => negb (HasPendingWork d)) drain ltac:(intros d0; apply negb_false_iff) truth floor c d e)
      as (d' & e' & truth' & c' & -> & Hok' & Hse' & Hup & Hm & Hd); [done..|lia|nia|].
    do 2 eexists. exists truth', c'. split_and!; [done|done|done|eapply upkeep_more; [|done]; nia|done|].
    intros Hs. by apply negb_true_iff, Hd.
  - destruct (Drain_seen A drain truth floor c d e Ht Hok Hse Hf Hr) as (s & d' & e' & truth' & c' & -> & Hok' & Hse' & Hup & Hm & -> & Hd).
    do 2 eexists. exists truth', c'. by split_and!.
Qed.

Lemma finish_seen A drain truth floor c d e :
  0 < u64 (l0_compaction_trigger (db_options d)) -> db_ok truth floor c d e -> seen A c d e ->
  drain_turns (size (everything c)) <= Z.of_nat drain ->
  db_next_file_number d + drain_files (size (everything c)) < 2 ^ 32 - 1 ->
  exists d' e' truth' c',
    (if negb (background_compaction (db_options d)) then DrainBackgroundWork drain d e
     else '(d, e) ← WaitForBackgroundWork drain d e; Some (db_bg_error d, d, e)) = Some (db_bg_error d', d', e') /\
    db_ok truth' floor c' d' e' /\ seen A c' d' e' /\
    upkeep (drain_files (size (everything c))) c d e (db_bg_error d') c' d' e' /\ c_mem c' = c_mem c /\
    (Status.ok (db_bg_error d') = true -> HasPendingWork d' = false).
Proof.
  intros Ht Hok Hse Hf Hr. destruct (background_compaction (db_options d)) eqn:Eb; cbn [negb].
  - destruct (Wait_seen A drain truth floor c d e Ht Hok Hse Hf Hr) as (d' & e' & truth' & c' & -> & H). cbn [mbind option_bind].
    exists d', e', truth', c'. by split.
  - destruct (Drain_seen A drain truth floor c d e Ht Hok Hse Hf Hr) as (s & d' & e' & truth' & c' & -> & Hok' & Hse' & Hup & Hm & -> & Hd).
    do 2 eexists. exists truth', c'. by split_and!.
Qed.

(** [FlushMemTable] up to the rotation: no flush is outstanding any more. *)
Lemma settle_seen A drain truth floor c d e :
  0 < u64 (l0_compaction_trigger (db_options d)) -> db_ok truth floor c d e -> seen A c d e ->
  drain_turns (size (everything c)) <= Z.of_nat drain ->
  db_next_file_number d + drain_files (size (everything c)) < 2 ^ 32 - 1 ->
  exists s d' e' truth' c',
    (if Status.ok (db_bg_error d) && negb (no_imm d) then
       if negb (background_compaction (db_options d)) then DrainBackgroundWork drain d e
       else '(d, e) ← background_turns drain no_imm d e; Some (Status.OK, d, e)
     else Some (Status.OK, d, e)) = Some (s, d', e') /\ db_ok truth' floor c' d' e' /\ seen A c' d' e' /\
    upkeep (drain_files (size (everything c))) c d e (db_bg_error d') c' d' e' /\ c_mem c' = c_mem c /\
    (Status.ok (db_bg_error d') = true -> Status.ok s = true /\ db_imm d' = None) /\
    (Status.ok s = false -> s = db_bg_error d').
Proof.
  intros Ht Hok Hse Hf Hr. pose proof (to_fall_bound c) as Hb. pose proof (size_nonneg (everything c)) as Hsz.
  assert (forall d : DB, no_imm d = true -> db_imm d = None) as Hno by (intros d0; unfold no_imm; by destruct (db_imm d0)).
  destruct (Status.ok (db_bg_error d) && negb (no_imm d)) eqn:Ec.
  2:{ do 3 eexists. exists truth, c. split_and!; [done|done|done| |done| |done].
      - apply upkeep_refl; [|done]. unfold drain_files. nia.
      - intros Hs. split; [done|]. apply Hno. rewrite Hs in Ec. by apply negb_false_iff in Ec. }
  destruct (background_compaction (db_options d)); cbn [negb].
  - assert (forall d : DB, no_imm d = false -> HasPendingWork d = true) as Hstop.
    { intros d0. unfold no_imm, HasPendingWork. by destruct (db_imm d0). }
    unfold drain_turns, drain_files in *.
    destruct (turns_seen A no_imm drain Hstop truth floor c d e) as (d' & e' & truth' & c' & -> & Hok' & Hse' & Hup & Hm & Hd); [done..|lia|nia|].
    do 3 eexists. exists truth', c'. split_and!; [done|done|done|eapply upkeep_more; [|done]; nia|done| |done]. auto.
  - destruct (Drain_seen A drain truth floor c d e Ht Hok Hse Hf Hr) as (s & d' & e' & truth' & c' & E & Hok' & Hse' & Hup & Hm & -> & Hd).
    do 3 eexists. exists truth', c'. split_and!; [done|done|done|done|done| |done]. intros Hs. split; [done|by apply no_pending, Hd].
Qed.

Lemma drain_files_mono n m : 0 <= n <= m -> drain_files n <= drain_files m /\ drain_turns n <= drain_turns m.
Proof. unfold drain_files, drain_turns. nia. Qed.

Lemma mem_empty (m : @MemTable R) es : mem_ok m es -> MemTable.empty m = true <-> es = [].
Proof.
  intros Hm. unfold MemTable.empty. pose proof (mem_size _ _ Hm) as Hs. unfold NumEntries in Hs. rewrite Hs, Z.eqb_eq.
  destruct es; simpl; split; intros; (done || lia).
Qed.

(** Whatever the calls do, flushing the memtable changes nothing that is seen.
    When it succeeds everything is in tables. *)
Lemma FlushMemTable_spec A drain c d e :
  let n := size (everything c) in
  in_use A c d e -> affords drain (drain_files n + 1) n d ->
  exists s d' e' c', FlushMemTable drain d e = Some (s, d', e') /\ in_use A c' d' e' /\
    upkeep (2 * drain_files n + 1) c d e s c' d' e' /\ (Status.ok s = true -> c_mem c' = [] /\ db_imm d' = None).
Proof.
  intros n (truth & floor & Hok & Hse) [A1 _ A3 A4]. pose proof (size_nonneg (everything c)) as Hsz. fold n in Hsz.
  destruct (drain_files_bounds n Hsz) as [Hdf _]. unfold FlushMemTable.
  destruct (settle_seen A drain truth floor c d e A1 Hok Hse A3 ltac:(fold n; lia))
    as (s & d1 & e1 & truth1 & c1 & -> & Hok1 & Hse1 & Hup1 & Hm1 & Hg1 & Hbad). fold n in Hup1. cbn [mbind option_bind].
  destruct (Status.ok (db_bg_error d1)) eqn:Hb1.
  2:{ exists (db_bg_error d1), d1, e1, c1. split_and!; [|by exists truth1, floor|eapply upkeep_more; [|done]; lia|congruence].
      destruct (Status.ok s) eqn:Hs; cbn [negb]; [done|]. by rewrite (Hbad eq_refl). }
  destruct (Hg1 eq_refl) as [-> Hi1]. cbn [negb]. destruct (MemTable.empty (db_mem d1)) eqn:Em.
  { apply (mem_empty _ (c_mem c1)) in Em; [|apply Hok1]. exists Status.OK, d1, e1, c1. split_and!; [done|by exists truth1, floor| |done].
    eapply (upkeep_more (drain_files n)); [lia|]. destruct Hup1 as [U1 U2 U3 U4 U0 U5 U6 U7 U8]. split; try done; [by intros _; apply U6|].
    intros Ho Hb. split; [done|]. by apply U8. }
  assert (c_mem c1 <> []) as Hne.
  { intros Hx. apply (mem_empty (db_mem d1)) in Hx; [congruence|apply Hok1]. }
  pose proof (up_next _ _ _ _ _ _ _ _ Hup1) as Hn1. pose proof (size_submseteq _ _ (up_shrinks _ _ _ _ _ _ _ _ Hup1)) as Hs1. fold n in Hs1.
  destruct (rotate_spec A truth1 floor c1 d1 e1 Hok1 Hse1 Hb1 Hi1 Hne ltac:(lia)) as (s2 & d2 & e2 & c2 & -> & Hok2 & Hse2 & Hup2 & Hb2 & Hm2).
  cbn [mbind option_bind]. pose proof (upkeep_trans _ _ _ _ _ _ _ _ _ _ _ _ _ Hup1 Hb1 Hup2) as Hup12.
  destruct (Status.ok s2) eqn:Hs2; cbn [negb].
  2:{ exists s2, d2, e2, c2. split_and!; [done|by exists truth1, floor|eapply upkeep_more; [|done]; lia|congruence]. }
  pose proof (up_next _ _ _ _ _ _ _ _ Hup12) as Hn2. pose proof (size_submseteq _ _ (up_shrinks _ _ _ _ _ _ _ _ Hup12)) as Hs12. fold n in Hs12.
  destruct (drain_files_mono (size (everything c2)) n) as [Hmo1 Hmo2]; [pose proof (size_nonneg (everything c2)); lia|].
  assert (c_mem c2 = []) as Hc2.
  { destruct (c_mem c2) as [|x l] eqn:Ex; [done|]. pose proof (ok_mem _ _ _ _ _ Hok2) as Hx. rewrite (Hm2 eq_refl) in Hx.
    apply mem_empty in Hx. rewrite Ex in Hx. by destruct (proj1 Hx). }
  destruct (finish_seen A drain truth1 floor c2 d2 e2) as (d3 & e3 & truth3 & c3 & -> & Hok3 & Hse3 & Hup3 & Hm3 & Hp3);
    [by rewrite (up_options _ _ _ _ _ _ _ _ Hup12)|done|done|lia|lia|].
  exists (db_bg_error d3), d3, e3, c3. split_and!; [done|by exists truth3, floor| |].
  - eapply upkeep_more; [|eapply upkeep_trans; [exact Hup12|done|exact Hup3]]. lia.
  - intros Hs3. split; [by rewrite Hm3|by apply no_pending, Hp3].
Qed.

Lemma CompactAll_spec A drain c d e :
  let n := size (everything c) in
  in_use A c d e -> affords drain (2 * drain_files n + 1) n d ->
  exists s d' e' c', CompactAll drain d e = Some (s, d', e') /\ in_use A c' d' e' /\
    upkeep (3 * drain_files n + 1) c d e s c' d' e' /\
    (Status.ok s = true -> c_mem c' = [] /\ db_imm d' = None /\ PickCompactionLevel (db_options d') (db_current d') < 0).
Proof.
  intros n Hse [A1 A2 A3 A4]. pose proof (size_nonneg (everything c)) as Hsz. fold n in Hsz.
  destruct (drain_files_bounds n Hsz) as [Hdf _]. unfold CompactAll.
  destruct (FlushMemTable_spec A drain c d e Hse) as (s & d1 & e1 & c1 & -> & (truth1 & floor & Hok1 & Hse1) & Hup1 & Hg1);
    [split; [done|done|done|fold n; lia]|]. fold n in Hup1. cbn [mbind option_bind].
  destruct (Status.ok s) eqn:Hs; cbn [negb].
  2:{ exists s, d1, e1, c1. split_and!; [done|by exists truth1, floor|eapply upkeep_more; [|done]; lia|congruence]. }
  pose proof (up_next _ _ _ _ _ _ _ _ Hup1) as Hn1. pose proof (size_submseteq _ _ (up_shrinks _ _ _ _ _ _ _ _ Hup1)) as Hs1. fold n in Hs1.
  destruct (drain_files_mono (size (everything c1)) n) as [Hmo1 Hmo2]; [pose proof (size_nonneg (everything c1)); lia|].
  destruct (Wait_seen A drain truth1 floor c1 d1 e1) as (d2 & e2 & truth2 & c2 & -> & Hok2 & Hse2 & Hup2 & Hm2 & Hp2);
    [by rewrite (up_options _ _ _ _ _ _ _ _ Hup1)|done|done|lia|lia|]. cbn [mbind option_bind].
  exists (db_bg_error d2), d2, e2, c2. split_and!; [done|by exists truth2, floor| |].
  - eapply upkeep_more; [|eapply upkeep_trans; [exact Hup1|done|exact Hup2]]. lia.
  - intros Hs2. specialize (Hp2 Hs2). split_and!; [rewrite Hm2; by apply Hg1|by apply no_pending|].
    unfold HasPendingWork in Hp2. destruct (db_imm d2); [done|]. by apply Z.leb_gt in Hp2.
Qed.

End Upkeep.
