(* ===== verification/Commit.v ===== *)
(** * Group commit

    A group is added whole or not at all, in memory and in the log, whatever the
    system calls do. *)

From stdpp Require Import gmap strings.
From S2P Require Import Prelude Coding InternalKey Posix WriteBatch Wal Versions Iterator Skiplist MemTable Cache Block Merge DbIter Options Sstable Records Table Levels ReadPath Gc FileNames Manifest Db Flush Compaction Install Background Disk Session Write Upkeep.

Section Commit.
Context {R : Type} (rnd : R -> Z * R) (seed : R).
Abbreviation DB := (@DB R).
Abbreviation db_ok := (@db_ok R).
Abbreviation seen := (seen seed).
Abbreviation in_use := (in_use seed).
Abbreviation session := (session seed).
Abbreviation has_room := (has_room seed).
Abbreviation add_one := (add_one rnd).
Abbreviation commit_group := (commit_group rnd).
Abbreviation MakeRoomForWrite := (MakeRoomForWrite seed).
Abbreviation serve := (serve rnd).
Abbreviation lead := (lead rnd seed).

(** ** Committing a group *)

Lemma run_add_one ops : forall base m u,
  0 <= base -> base + size ops <= 2 ^ 64 ->
  (run_ops add_one ops (base, (m, u))).2.1 = fold_left (add_version rnd) (numbered base ops) m.
Proof.
  induction ops as [|[[t k] v] ops IH]; intros base m u Hb Hs; [done|]. rewrite size_cons in Hs. pose proof (size_nonneg ops).
  destruct ops as [|o ops]; [done|]. rewrite size_cons in *. pose proof (size_nonneg ops).
  cbn [run_ops fold_left numbered add_one add_version]. rewrite (u64_id (base + 1)) by lia. apply IH; lia.
Qed.

(** The versions of a group with sequences above [last]. *)
Section Group.
Context (last : Z) (ops : list op).
Let news := map version_of (numbered (last + 1) ops).
Hypothesis Hfits : Forall fits (numbered (last + 1) ops).

Lemma news_facts : NoDup (map fst news) /\ Forall (fun x => last < sequence x <= last + size ops) news /\ entries_typed news.
Proof using Hfits.
  split_and!; [by apply numbered_distinct|..]; apply Forall_map, Forall_forall; intros x Hx;
    pose proof (numbered_range _ _ _ Hx) as [Hr _]; rewrite Forall_forall in Hfits;
    destruct (version_of_sequence x (Hfits x Hx)) as [Hs Ht]; simpl; [lia|done].
Qed.

Context (es : list entry).
Hypothesis Hes : Forall (fun x => sequence x <= last) es.

Lemma news_apart x y : x ∈ news -> y ∈ es -> x.1 <> y.1 /\ tag y < tag x.
Proof using Hfits Hes.
  intros Hx Hy. destruct news_facts as (_ & Hn & _). rewrite Forall_forall in Hn, Hes. specialize (Hn x Hx). specialize (Hes y Hy). simpl in Hn, Hes.
  split; [|apply sequence_tag; lia]. intros Heq. unfold sequence in *. rewrite Heq in Hn. lia.
Qed.

Lemma news_distinct : NoDup (map fst es) -> NoDup (map fst (news ++ es)).
Proof using Hfits Hes.
  intros Hnd. rewrite map_app. apply NoDup_app. split_and!; [apply news_facts| |done].
  intros k (x & -> & Hx)%list_elem_of_fmap (y & Heq & Hy)%list_elem_of_fmap. by apply (news_apart x y).
Qed.

Lemma news_agree : agree es -> agree (news ++ es).
Proof using Hfits Hes.
  intros Hag x y. rewrite !elem_of_app. intros [Hx|Hx] [Hy|Hy] Heq; [|by destruct (news_apart x y)|by destruct (news_apart y x)|by apply Hag].
  by apply (NoDup_map_eq fst news); [apply news_facts|..].
Qed.

Lemma news_dups floor : NoDup (map fst (filter (fun x => floor < sequence x) es)) ->
  NoDup (map fst (filter (fun x => floor < sequence x) (news ++ es))).
Proof using Hfits Hes.
  intros Hnd. rewrite filter_app, map_app. apply NoDup_app. split_and!; [| |done].
  - eapply sublist_NoDup; [apply news_facts|]. apply sublist_map, sublist_filter.
  - intros k (x & -> & [_ Hx]%list_elem_of_filter)%list_elem_of_fmap (y & Heq & [_ Hy]%list_elem_of_filter)%list_elem_of_fmap.
    by apply (news_apart x y).
Qed.

End Group.

(** The contents with a group added. *)
Definition written (es : list entry) (c : contents) : contents := mkContents es (c_imm c) (c_l0 c) (c_deep c).

Section Written.
Context (truth : Key -> option bytes) (floor : Z) (c : contents) (d : DB) (e : Env) (ops : list op) (es : list entry) (m : @MemTable R).
Let last := db_last_sequence d.
Let news := map version_of (numbered (last + 1) ops).
Hypothesis Hok : db_ok truth floor c d e.
Hypothesis Hfits : Forall fits (numbered (last + 1) ops).
Hypothesis Hes : es ≡ₚ news ++ c_mem c.

Lemma unflushed_written : unflushed (written es c) ≡ₚ news ++ unflushed c.
Proof using Hes. unfold unflushed, written. simpl. by rewrite Hes, app_assoc. Qed.

Lemma everything_written : everything (written es c) ≡ₚ news ++ everything c.
Proof using Hes. rewrite !everything_split, unflushed_written. simpl. by rewrite app_assoc. Qed.

Lemma layered_written : layered (all_sources (written es c)).
Proof using Hok Hfits Hes.
  pose proof (ok_layered _ _ _ _ _ Hok) as [H1 H2]. split; [|done]. intros x y Hx Hy Hk. simpl in Hx. rewrite Hes in Hx.
  apply elem_of_app in Hx as [Hx|Hx]; [|by apply H1].
  destruct (news_apart last ops Hfits (everything c) (ok_seqs _ _ _ _ _ Hok) x y Hx) as [_ ?]; [|lia].
  unfold everything, all_sources. simpl. apply elem_of_app. by right.
Qed.

Lemma written_ok :
  mem_ok m es -> last + size ops < kMaxSequenceNumber -> writable (db_options d) (news ++ everything c) ->
  db_ok truth floor (written es c) (with_mem m (with_last_sequence (last + size ops) d)) e.
Proof using Hok Hfits Hes.
  intros Hm Hlast Hwr. pose proof everything_written as Hev. pose proof (ok_seqs _ _ _ _ _ Hok) as Hsq. pose proof (size_nonneg ops) as Hsz.
  pose proof (ok_last _ _ _ _ _ Hok) as Hl. fold last in Hsq, Hl.
  destruct (news_facts last ops Hfits) as (N1 & N2 & N3). fold news in N1, N2, N3. split; [|by apply layered_written].
  split; simpl; try apply Hok; try done.
  - eapply agree_subset; [|apply (news_agree last ops Hfits (everything c) Hsq), Hok]. intros x. by rewrite Hev.
  - rewrite Hev. apply Forall_app. split; [eapply Forall_impl; [exact N2|]|eapply Forall_impl; [exact Hsq|]]; intros x Hx; simpl in Hx; lia.
  - lia.
  - pose proof (ok_floor _ _ _ _ _ Hok) as Hfl. fold last in Hfl. lia.
  - intros raw s Hs. pose proof (ok_snapshots _ _ _ _ _ Hok raw s Hs) as Hsn. fold last in Hsn. simpl in Hsn. lia.
  - rewrite Hev. apply (news_dups last ops Hfits (everything c) Hsq), Hok.
  - eapply writable_sub; [|exact Hwr]. by rewrite Hev.
Qed.

(** What reads find afterwards. *)
Lemma written_now key :
  value_of (read (everything (written es c)) key (last + size ops)) =
  apply_ops ops (fun key => value_of (read (everything c) key last)) key.
Proof using Hok Hfits Hes.
  pose proof (ok_seqs _ _ _ _ _ Hok) as Hsq. rewrite <- (read_written (everything c) last ops key Hsq Hfits). f_equal. symmetry.
  apply read_members; [|..|by intros x; rewrite everything_written].
  - apply (news_agree last ops Hfits (everything c) Hsq), Hok.
  - apply Forall_app. split; [by apply news_facts|by eapply ok_typed, Hok].
Qed.

Lemma written_old key s : s <= last -> read (everything (written es c)) key s = read (everything c) key s.
Proof using Hok Hfits Hes.
  intros Hs. pose proof (ok_seqs _ _ _ _ _ Hok) as Hsq. destruct (news_facts last ops Hfits) as (N1 & N2 & N3).
  rewrite <- (read_hidden news (everything c)); [|eapply Forall_impl; [exact N2|]; intros x Hx; simpl in Hx; lia]. symmetry.
  apply read_members; [|..|by intros x; rewrite everything_written].
  - apply (news_agree last ops Hfits (everything c) Hsq), Hok.
  - apply Forall_app. split; [done|by eapply ok_typed, Hok].
Qed.

Lemma written_pins maps :
  pins (everything c) (db_snapshots d) maps -> pins (everything (written es c)) (db_snapshots d) maps.
Proof using Hok Hfits Hes.
  intros Hp raw. specialize (Hp raw). destruct (db_snapshots d !! raw) as [s|] eqn:Es, (maps !! raw); try done.
  intros key. rewrite Hp, written_old; [done|]. by apply (ok_snapshots _ _ _ _ _ Hok raw s).
Qed.

End Written.

(** The active log has changed, and nothing else. *)
Lemma on_disk_logged exact es l m last c (d : DB) fs fs' :
  on_disk true c d fs -> 0 < db_next_file_number d < 2 ^ 64 ->
  (forall p, p <> LogPath (db_path d) (db_log_number d) -> fs' !! p = fs !! p) ->
  log_holds exact (db_path d) fs' (db_log_number d) es -> NoDup (map fst (unflushed (written es c))) ->
  Wal.fd_ l = Some (LogPath (db_path d) (db_log_number d)) -> db_last_sequence d <= last ->
  on_disk exact (written es c) (with_mem m (with_log (Some l) (with_last_sequence last d))) fs'.
Proof.
  intros Hod Hnx Hp Hh Hnd Hfd Hlast. pose proof Hod as [M W N L I O D Ti].
  destruct (LogPath_ne (db_path d) (db_log_number d) ltac:(lia)) as (N1 & N2 & N3).
  assert (forall n, 0 <= n < 2 ^ 64 -> n <> db_log_number d -> fs' !! LogPath (db_path d) n = fs !! LogPath (db_path d) n) as Hlog.
  { intros n Hn Hne. apply Hp. intros Heq. apply LogPath_inj in Heq; lia. }
  split; simpl; try done.
  - destruct M as (next & seq & M1 & M2 & M3 & M4 & M5). exists next, seq. rewrite Hp by done. split_and!; try done; lia.
  - eauto.
  - intros es' Hes. destruct (I es' Hes) as [I1 I2]. split; [done|]. eapply log_holds_frame; [exact I2|]. apply Hlog; lia.
  - intros n b H1 H2 H3 H4. rewrite Hlog by done. by apply O.
  - eapply tidy_step; [exact Ti|lia|]. intros p Hs. destruct (decide (p = LogPath (db_path d) (db_log_number d))) as [->|Hne].
    + right; right; right. exists (db_log_number d). split; [lia|by right].
    + left. by rewrite <- Hp.
Qed.

Definition wrote (ops : list op) (A : Spec) : Spec := mkSpec (apply_ops ops (now A)) (pinned A) [].
Definition failed (ops : list op) (A : Spec) : Spec := mkSpec (now A) (pinned A) ops.

(** What a group must satisfy to be added. *)
Record addable (c : contents) (d : DB) (ops : list op) : Prop := {
  ad_some : ops <> [];
  ad_fits : Forall fits (numbered (db_last_sequence d + 1) ops);
  ad_record : record_wf (db_last_sequence d + 1, ops);
  ad_last : db_last_sequence d + size ops < kMaxSequenceNumber;
  ad_room : writable (db_options d) (map version_of (numbered (db_last_sequence d + 1) ops) ++ everything c)
}.

Lemma Sync_files l w s w' :
  Sync l w = (s, w') -> w_files w' = w_files w /\ (Wal.fd_ l <> None -> w_oracle w = [] -> s = Status.OK /\ w_oracle w' = []).
Proof.
  unfold Sync. destruct (Wal.fd_ l); [|by intros [= <- <-]]. intros E. destruct (sys_simple_spec _ ""%string _ _ _ E) as ([_ T] & F & O).
  split; [done|]. auto.
Qed.

(** The append and the optional sync, under any outcome of the calls. *)
Lemma append_spec c d e ops merged sync s1 s2 l l' w1 w2 :
  on_disk true c d (w_files (e_world e)) -> addable c d ops -> batch_repr merged ops -> db_log d = Some l -> hook_ l = None ->
  AddRecord (db_last_sequence d + 1) merged l (e_world e) = (s1, l', w1) ->
  (if Status.ok s1 && sync then Sync l' w1 else (s1, w1)) = (s2, w2) ->
  Wal.fd_ l' = Some (LogPath (db_path d) (db_log_number d)) /\ hook_ l' = None /\
  touches (LogPath (db_path d) (db_log_number d)) (e_world e) w2 /\ (w_oracle (e_world e) = [] -> s2 = Status.OK) /\
  (forall es, es ≡ₚ map version_of (numbered (db_last_sequence d + 1) ops) ++ c_mem c ->
    log_holds true (db_path d) (w_files w2) (db_log_number d) es \/
    Status.ok s2 = false /\ log_holds false (db_path d) (w_files w2) (db_log_number d) (c_mem c)).
Proof.
  intros Hod [A1 A2 A3 A4 A5] Hb Hl Hhook E1 E2. destruct (od_writer _ _ _ Hod) as (l0 & Hl0 & Hfd). rewrite Hl in Hl0. injection Hl0 as <-.
  destruct (od_mem _ _ _ Hod) as (rs & b & Hf & -> & Hrf & Hrs).
  destruct (AddRecord_spec _ _ _ _ _ _ _ _ _ _ (fits_wf _ Hrf) A3 Hb A1 Hfd Hhook Hf E1) as (T & F1 & F2 & O & _ & f & Hff & Hor).
  assert (touches (LogPath (db_path d) (db_log_number d)) w1 w2 /\ w_files w2 = w_files w1 /\
    (w_oracle w1 = [] -> s1 = Status.OK -> s2 = Status.OK) /\ (Status.ok s1 = false -> s2 = s1)) as (T2 & W2 & O2 & F3).
  { destruct (Status.ok s1 && sync) eqn:Es; [|injection E2 as <- <-; by split_and!].
    destruct (Sync_files _ _ _ _ E2) as [Hw Ho]. split_and!; [split; [by rewrite Hw|]|done| |].
    - intros Ho1. apply Ho; [by rewrite F1, Hfd|done].
    - intros Ho1 _. apply Ho; [by rewrite F1, Hfd|done].
    - intros Hs1. by rewrite Hs1 in Es. }
  split_and!; [by rewrite F1|by rewrite F2|by etrans|by intros Ho; apply O2; [apply T|apply O]|]. intros es Hes. rewrite W2.
  destruct Hor as [->|[Hs Hrep]].
  - left. exists (rs ++ [(db_last_sequence d + 1, ops)]), (log_of (rs ++ [(db_last_sequence d + 1, ops)])). split_and!; [done|done| |].
    + apply Forall_app. split; [done|]. constructor; [|done]. split_and!; [done| |done]. destruct A3 as [A3 _ _]. simpl in A3.
      unfold in_range. simpl. assert (kMaxSequenceNumber < 2 ^ 64) by done. lia.
    + rewrite logged_app, Hes, Hrs. unfold logged. simpl. rewrite app_nil_r. unfold versions. simpl. apply Permutation_app_comm.
  - right. rewrite (F3 Hs). split; [done|]. by exists rs, f.
Qed.

Lemma ok_world truth floor c d e w :
  db_ok truth floor c d e ->
  (forall f, f ∈ concat (levels (db_current d)) ->
    w_files w !! TablePath (db_path d) (number f) = w_files (e_world e) !! TablePath (db_path d) (number f)) ->
  db_ok truth floor c d (mkEnv w (e_cache e) (e_stats e)).
Proof.
  intros H Hf. pose proof (ok_next _ _ _ _ _ H). pose proof (ok_on truth floor c d e (db_next_file_number d) w H ltac:(lia) Hf) as H'.
  by same_db H'.
Qed.

Lemma ok_later truth floor c d e last :
  db_ok truth floor c d e -> db_last_sequence d <= last < kMaxSequenceNumber -> db_ok truth floor c (with_last_sequence last d) e.
Proof.
  intros [H Hl] Hlast. split; [|done]. pose proof (ok_last _ _ _ _ _ H). split; simpl; try apply H; [|lia| |].
  - eapply Forall_impl; [apply H|]. intros x Hx. simpl in Hx. lia.
  - pose proof (ok_floor _ _ _ _ _ H). lia.
  - intros raw s Hs. pose proof (ok_snapshots _ _ _ _ _ H raw s Hs) as Hsn. simpl in Hsn. lia.
Qed.

Lemma written_same c : written (c_mem c) c = c.
Proof. by destruct c. Qed.

(** The memtable a group leaves behind. *)
Lemma group_mem exact truth floor c d e ops :
  db_ok truth floor c d e -> on_disk exact c d (w_files (e_world e)) -> Forall fits (numbered (db_last_sequence d + 1) ops) ->
  exists es, mem_ok (fold_left (add_version rnd) (numbered (db_last_sequence d + 1) ops) (db_mem d)) es /\
    es ≡ₚ map version_of (numbered (db_last_sequence d + 1) ops) ++ c_mem c /\ NoDup (map fst (unflushed (written es c))).
Proof.
  intros Hok Hod Hf. pose proof (ok_seqs _ _ _ _ _ Hok) as Hsq. rewrite everything_split in Hsq. apply Forall_app in Hsq as [Hsq _].
  pose proof (news_distinct _ ops Hf (unflushed c) Hsq (od_distinct _ _ _ Hod)) as Hnd.
  destruct (fill_ok rnd (numbered (db_last_sequence d + 1) ops) (db_mem d) (c_mem c)) as (es & Hm & Hp); [apply Hok|done| |].
  { unfold unflushed in Hnd. rewrite app_assoc, map_app in Hnd. by apply NoDup_app in Hnd as [? _]. }
  exists es. split_and!; [done|done|]. by rewrite (unflushed_written c d ops es Hp).
Qed.

(** A group that made it. *)
Lemma commit_good A truth floor c d e ops es (m : @MemTable R) l w :
  let last := db_last_sequence d + size ops in
  let d' := with_mem m (with_log (Some l) (with_last_sequence last d)) in
  let e' := mkEnv w (e_cache e) (e_stats e) in
  db_ok truth floor c d e -> seen A c d e -> Status.ok (db_bg_error d) = true -> addable c d ops ->
  touches (LogPath (db_path d) (db_log_number d)) (e_world e) w ->
  Wal.fd_ l = Some (LogPath (db_path d) (db_log_number d)) -> mem_ok m es ->
  es ≡ₚ map version_of (numbered (db_last_sequence d + 1) ops) ++ c_mem c -> NoDup (map fst (unflushed (written es c))) ->
  log_holds true (db_path d) (w_files w) (db_log_number d) es ->
  db_ok truth floor (written es c) d' e' /\ seen (wrote ops A) (written es c) d' e'.
Proof.
  intros last d' e' Hok Hse Hb [A1 A2 A3 A4 A5] [T _] Hfd Hm Hes Hnd Hlh. pose proof Hse as [S1 S2 S3 S4 S5].
  destruct (S4 Hb) as [Hod Hdo]. pose proof (ok_next _ _ _ _ _ Hok). pose proof (size_nonneg ops). pose proof (od_number _ _ _ Hod).
  assert (db_ok truth floor c d e') as Hok1.
  { apply ok_world; [done|]. intros f Hf. apply T. pose proof (live_number _ _ _ _ _ f Hok Hf). apply not_eq_sym, LogPath_ne; lia. }
  split; [pose proof (written_ok truth floor c d e' ops es m Hok1 A2 Hes Hm A4 A5) as Hw; by same_db Hw|].
  split; simpl; fold last.
  - intros key. unfold last. rewrite (written_now truth floor c d e ops es Hok A2 Hes). by apply apply_ops_ext.
  - by eapply written_pins.
  - intros ->. apply Permutation_nil_l in Hes. by destruct ops as [|[[t k] v] ops].
  - intros _. split; [|done]. eapply on_disk_logged; [exact Hod|lia|done|done|done|done|lia].
  - congruence.
Qed.

(** A group of which the log keeps at most a part. *)
Lemma group_lost A truth floor c d e (ops : list op) l w :
  let last := db_last_sequence d + size ops in
  let d' := with_mem (db_mem d) (with_log (Some l) (with_last_sequence last d)) in
  let e' := mkEnv w (e_cache e) (e_stats e) in
  db_ok truth floor c d e -> seen A c d e -> Status.ok (db_bg_error d) = true -> last < kMaxSequenceNumber ->
  touches (LogPath (db_path d) (db_log_number d)) (e_world e) w ->
  Wal.fd_ l = Some (LogPath (db_path d) (db_log_number d)) ->
  db_ok truth floor c d' e' /\ (forall key, value_of (read (everything c) key last) = now A key) /\
  (log_holds false (db_path d) (w_files w) (db_log_number d) (c_mem c) ->
    recovers (db_path d) (db_options d) (w_files w) (db_next_file_number d) (now A)).
Proof.
  intros last d' e' Hok Hse Hb Hlast T Hfd. pose proof Hse as [S1 S2 S3 S4 S5]. destruct (S4 Hb) as [Hod Hdo].
  pose proof (ok_next _ _ _ _ _ Hok). pose proof (size_nonneg ops). pose proof (od_number _ _ _ Hod). pose proof (ok_last _ _ _ _ _ Hok).
  assert (db_ok truth floor c d' e') as Hok1.
  { assert (db_ok truth floor c (with_last_sequence last d) e') as Hx; [|by same_db Hx]. apply ok_later; [|unfold last; lia].
    apply ok_world; [done|]. intros f Hf. apply T. pose proof (live_number _ _ _ _ _ f Hok Hf). apply not_eq_sym, LogPath_ne; lia. }
  assert (forall key, value_of (read (everything c) key last) = now A key) as Hnow.
  { intros key. rewrite S1. f_equal. apply read_above; [apply Hok|unfold last; lia]. }
  split_and!; [done|done|]. intros Hlh.
  assert (on_disk false (written (c_mem c) c) d' (w_files w)) as Hod2.
  { eapply on_disk_logged; [exact Hod|lia|apply T|done| |done|unfold last; lia]. rewrite written_same. apply Hod. }
  rewrite written_same in Hod2. eapply recovers_ext; [exact (on_disk_now _ _ _ _ _ _ Hok1 Hod2)|exact Hnow].
Qed.

(** A group that failed. *)
Lemma commit_bad A truth floor c d e ops es (m : @MemTable R) l w s :
  let last := db_last_sequence d + size ops in
  let d' := with_bg_error s (with_log (Some l) (with_last_sequence last d)) in
  let e' := mkEnv w (e_cache e) (e_stats e) in
  db_ok truth floor c d e -> seen A c d e -> Status.ok (db_bg_error d) = true -> addable c d ops ->
  touches (LogPath (db_path d) (db_log_number d)) (e_world e) w ->
  Wal.fd_ l = Some (LogPath (db_path d) (db_log_number d)) -> mem_ok m es ->
  es ≡ₚ map version_of (numbered (db_last_sequence d + 1) ops) ++ c_mem c -> NoDup (map fst (unflushed (written es c))) ->
  log_holds true (db_path d) (w_files w) (db_log_number d) es \/ log_holds false (db_path d) (w_files w) (db_log_number d) (c_mem c) ->
  Status.ok s = false -> db_ok truth floor c d' e' /\ seen (failed ops A) c d' e'.
Proof.
  intros last d' e' Hok Hse Hb Had T Hfd Hm Hes Hnd Hor Hs. pose proof Had as [A1 A2 A3 A4 A5]. pose proof Hse as [S1 S2 S3 S4 S5].
  destruct (group_lost A truth floor c d e ops l w Hok Hse Hb A4 T Hfd) as (Hok1 & Hnow & Hlost).
  split; [by same_db Hok1|]. split; simpl; fold last; try done; [congruence|]. intros _.
  destruct Hor as [Hlh|Hlh]; [|eexists; split; [exact (Hlost Hlh)|by left]].
  destruct (commit_good A truth floor c d e ops es m l w Hok Hse Hb Had T Hfd Hm Hes Hnd Hlh) as [Hok2 [C1 _ _ C4 _]].
  destruct (C4 Hb) as [Hod2 _]. eexists. split; [exact (on_disk_now _ _ _ _ _ _ Hok2 Hod2)|]. right. intros key. by rewrite <- C1.
Qed.

(** What a group changes. *)
Record grouped (A : Spec) (ops : list op) (c : contents) (d : DB) (e : Env) (s : Status) (c' : contents) (d' : DB) (e' : Env) : Prop := {
  gr_options : db_options d' = db_options d;
  gr_path : db_path d' = db_path d;
  gr_hook : unhooked d';
  gr_next : db_next_file_number d' = db_next_file_number d;
  gr_last : db_last_sequence d' = db_last_sequence d + size ops;
  gr_outcome : if Status.ok s then s = Status.OK /\ db_bg_error d' = db_bg_error d /\ seen (wrote ops A) c' d' e' /\
      everything c' ≡ₚ map version_of (numbered (db_last_sequence d + 1) ops) ++ everything c
    else db_bg_error d' = s /\ seen (failed ops A) c' d' e' /\ c' = c;
  gr_calm : w_oracle (e_world e) = [] -> s = Status.OK /\ w_oracle (e_world e') = []
}.

(** Members that no reader and no recovery looks at. *)
Ltac same_seen H :=
  let S4 := fresh in destruct H as [? ? ? S4 ?]; split; try done;
  let Hb := fresh in intros Hb; destruct (S4 Hb) as [[] ?]; split; [split|]; done.

(** Under any outcome of the calls: the whole group is added and on disk, or it
    failed, nothing of it is seen, and the error is recorded. *)
Lemma commit_group_spec A truth floor c d e t1 t2 leader_sync merged ops :
  db_ok truth floor c d e -> seen A c d e -> Status.ok (db_bg_error d) = true -> unhooked d -> addable c d ops -> batch_repr merged ops ->
  exists s d' e' c', commit_group t1 t2 leader_sync merged d e = Some (s, d', e') /\ db_ok truth floor c' d' e' /\
    grouped A ops c d e s c' d' e'.
Proof.
  intros Hok Hse Hb Hu Had Hrep. destruct (se_disk _ _ _ _ _ Hse Hb) as [Hod _]. pose proof Had as [A1 A2 A3 A4 A5].
  pose proof (ok_last _ _ _ _ _ Hok) as Hl. assert (kMaxSequenceNumber < 2 ^ 64) as HK by done. pose proof (size_nonneg ops) as Hsz.
  pose proof (record_wf_count _ A3) as Hcount. simpl in Hcount.
  destruct (od_writer _ _ _ Hod) as (l & Hlog & _). unfold unhooked in Hu. rewrite Hlog in Hu. unfold commit_group, write_group, reserve.
  cbn [db_log with_last_sequence]. rewrite Hlog. cbn [mbind option_bind]. cbv zeta.
  unfold Count. rewrite (br_count _ _ Hrep), (u32_id (size ops)), !u64_id by lia.
  set (sync := ShouldSyncNow _ _ _). clearbody sync. set (d1 := with_last_sequence _ d).
  destruct (AddRecord _ _ _ _) as [[s1 l'] w1] eqn:E1.
  destruct (if Status.ok s1 && sync then Sync l' w1 else (s1, w1)) as [s2 w2] eqn:E2.
  destruct (append_spec c d e ops merged sync s1 s2 l l' w1 w2 Hod Had Hrep Hlog Hu E1 E2) as (Hfd & Hhook & T & O & Hlh).
  destruct (group_mem true truth floor c d e ops Hok Hod A2) as (es & Hm & Hes & Hnd). set (m := fold_left _ _ _) in Hm.
  destruct (Status.ok s2) eqn:Hs2.
  - rewrite (ForEach_repr add_one merged ops) by done.
    pose proof (run_add_one ops (db_last_sequence d + 1) (db_mem d) 0 ltac:(lia) ltac:(lia)) as Hrun. fold m in Hrun.
    change (db_mem d1) with (db_mem d). destruct (run_ops add_one ops _) as [q [m' ub]]. simpl in Hrun. subst m'.
    destruct (commit_good A truth floor c d e ops es m l' w2 Hok Hse Hb Had T Hfd Hm Hes Hnd) as [H1 H2].
    { destruct (Hlh es Hes) as [|[? _]]; [done|congruence]. }
    do 3 eexists. exists (written es c). cbn [Status.ok]. split; [done|]. split; [by destruct sync; same_db H1|].
    split; try (by destruct sync); [|intros Ho; split; [done|by apply T]].
    simpl. split_and!; [done|by destruct sync|by destruct sync; same_seen H2|by rewrite (everything_written c d ops es Hes)].
  - rewrite Hs2. destruct (commit_bad A truth floor c d e ops es m l' w2 s2 Hok Hse Hb Had T Hfd Hm Hes Hnd) as [H1 H2]; [|done|].
    { destruct (Hlh es Hes) as [|[_ ?]]; auto. }
    do 3 eexists. exists c. split; [done|]. split; [by same_db H1|]. split; try done; simpl.
    + rewrite Hs2. split_and!; [done|by same_seen H2|done].
    + intros Ho. rewrite (O Ho) in Hs2. done.
Qed.

(** ** Writes *)

(** The batches of a queue can be stored: sizes and sequences stay in range. *)
Record storable (c : contents) (d : DB) (first : Writer) (opss : list (list op)) : Prop := {
  sb_last : db_last_sequence d + size (concat opss) < kMaxSequenceNumber;
  sb_room : writable (db_options d) (map version_of (numbered (db_last_sequence d + 1) (concat opss)) ++ everything c);
  sb_leader : ApproximateSize (wr_batch first) < 2 ^ 32 - 12
}.

Lemma storable_fits c d first opss : 0 <= db_last_sequence d -> storable c d first opss ->
  Forall fits (numbered (db_last_sequence d + 1) (concat opss)).
Proof.
  intros Hl [H1 H2 _]. apply Forall_forall. intros x Hx. pose proof (numbered_range _ _ _ Hx) as [Hr _].
  pose proof (wr_block _ _ H2) as Hw. rewrite Forall_app, Forall_map, Forall_forall in Hw. destruct Hw as [Hw _]. specialize (Hw x Hx).
  pose proof (wr_block_pos _ _ H2). destruct x as [seq [[t k] v]]. simpl in Hw, Hr. unfold weight in Hw. simpl in Hw.
  unfold EncodeInternalKey, PutFixed64 in Hw. autorewrite with lsm in Hw. pose proof (size_nonneg k). pose proof (size_nonneg v).
  unfold fits. lia.
Qed.

(** Every prefix of the queue is a group that can be added. *)
Lemma storable_addable c d c' d' first opss k merged :
  0 <= db_last_sequence d -> storable c d first opss -> concat (take k opss) <> [] -> batch_repr merged (concat (take k opss)) ->
  ApproximateSize merged <= Z.max (ApproximateSize (wr_batch first)) (Z.shiftl 1 20) ->
  everything c' ⊆+ everything c -> db_last_sequence d' = db_last_sequence d -> db_options d' = db_options d ->
  addable c' d' (concat (take k opss)).
Proof.
  intros Hl Hsb Hne Hrep Hsz Hsub El Eo. pose proof (storable_fits c d first opss Hl Hsb) as Hf. pose proof Hsb as [H1 H2 H3].
  assert (concat opss = concat (take k opss) ++ concat (drop k opss)) as Heq by (by rewrite <- concat_app, take_drop).
  pose proof (size_nonneg (concat (drop k opss))). pose proof (size_nonneg (concat (take k opss))).
  assert (db_last_sequence d + size (concat (take k opss)) < kMaxSequenceNumber) as Hlast by (rewrite Heq, size_app in H1; lia).
  rewrite Heq, numbered_app in Hf. apply Forall_app in Hf as [Hf _]. split; rewrite ?El, ?Eo; try done.
  - split; simpl; [unfold kMaxSequenceNumber in Hlast; assert (kMaxSequenceNumber < 2 ^ 64) by done; unfold kMaxSequenceNumber in *; lia|apply Hrep|].
    rewrite size_payload_of. simpl. unfold ApproximateSize in Hsz at 1. rewrite (br_rep _ _ Hrep) in Hsz.
    change (Z.shiftl 1 20) with 1048576 in Hsz. lia.
  - eapply writable_sub; [|exact H2]. rewrite Heq, numbered_app, map_app, <- app_assoc. apply submseteq_app; [done|].
    by apply submseteq_inserts_l.
Qed.

(** The leader's turn. [k] writers are retired with the status; on success
    exactly their batches have been added, in order, and all are on disk; on
    failure nothing is seen of them. *)
Record led (A : Spec) (c : contents) (d : DB) (e : Env) (ws : list Writer) (opss : list (list op)) (s : Status) (k : nat)
    (c' : contents) (d' : DB) (e' : Env) : Prop := {
  le_covered : (1 <= k <= length ws)%nat;
  le_sync : forall first, head ws = Some first -> Forall (fun w => wr_sync w = true -> wr_sync first = true) (take k ws);
  le_options : db_options d' = db_options d;
  le_path : db_path d' = db_path d;
  le_last : db_last_sequence d <= db_last_sequence d' <= db_last_sequence d + size (concat opss);
  le_next : db_next_file_number d' <= db_next_file_number d + room_files (db_options d) (size (everything c)) + 1;
  le_shrinks : everything c' ⊆+ map version_of (numbered (db_last_sequence d + 1) (concat (take k opss))) ++ everything c;
  le_fine : Status.ok s = true -> db_bg_error d' = db_bg_error d;
  le_good : Status.ok s = true -> s = Status.OK /\ session (wrote (concat (take k opss)) A) c' d' e';
  le_bad : Status.ok s = false -> session A c' d' e' \/
    Status.ok (db_bg_error d) = true /\ session (failed (concat (take k opss)) A) c' d' e' /\ db_bg_error d' = s;
  le_calm : w_oracle (e_world e) = [] -> db_bg_error d = Status.OK -> s = Status.OK /\ w_oracle (e_world e') = []
}.

(** The first thing a leader does. *)
Lemma room_spec A truth floor c d e fuel drain :
  db_ok truth floor c d e -> seen A c d e -> has_room drain (size (everything c)) d ->
  exists s d' e' truth' c',
    (if Status.ok (db_bg_error d) then MakeRoomForWrite (S (S (S fuel))) drain d e else Some (db_bg_error d, d, e)) = Some (s, d', e') /\
    db_ok truth' floor c' d' e' /\ seen A c' d' e' /\ upkeep (room_files (db_options d) (size (everything c)) + 1) c d e s c' d' e' /\
    (Status.ok s = true -> Status.ok (db_bg_error d') = true).
Proof.
  intros Hok Hse Haf. destruct (Status.ok (db_bg_error d)) eqn:Hb; [by apply (MakeRoom_spec rnd seed A truth)|]. do 3 eexists. exists truth, c.
  split_and!; [done|done|done| |congruence]. apply upkeep_refl; [|done]. pose proof (room_files_bounds (db_options d) _ (size_nonneg (everything c))).
  pose proof (size_nonneg (everything c)). lia.
Qed.

(** The leader after it has made room. *)
Lemma serve_spec A truth floor c d e c1 d1 e1 s t1 t2 first ws opss :
  db_ok truth floor c1 d1 e1 -> seen A c1 d1 e1 -> upkeep (room_files (db_options d) (size (everything c)) + 1) c d e s c1 d1 e1 ->
  (Status.ok s = true -> Status.ok (db_bg_error d1) = true) -> unhooked d1 -> 0 <= db_last_sequence d ->
  Forall2 (fun w o => batch_repr (wr_batch w) o /\ o <> []) (first :: ws) opss -> storable c d first opss ->
  exists s' k d' e' c',
    serve t1 t2 first ws s d1 e1 =
      Some (s', first :: map (fun w => mkWriter (wr_batch w) (wr_sync w) true s') (take (k - 1) ws), drop (k - 1) ws, d', e') /\
    led A c d e (first :: ws) opss s' k c' d' e'.
Proof.
  intros Hok1 Hse1 Hup Hb1 Hu1 Hl HF Hsb. pose proof (size_nonneg (concat opss)) as Hsz. unfold serve.
  destruct Hup as [U1 U2 U3 U4 U0 U5 U6 U7 U8]. destruct (Status.ok s) eqn:Hs.
  2:{ exists s, 1%nat, d1, e1, c1. split; [done|]. split; try done; try (by intros; congruence); simpl; [lia| |lia|lia|by apply submseteq_inserts_l|].
      - intros w [= <-]. by constructor.
      - intros _. left. split; [by exists truth, floor|done]. }
  inversion HF as [|? ops ? opss' [Hr Hne] HF' E1 E2]. subst opss.
  destruct (BuildBatchGroup_spec first ws ops opss' Hr) as (k & Hk1 & Hk2 & Hk3 & Hk4 & Hk5);
    [eapply Forall2_impl; [exact HF'|]; by intros ? ? [? _]|].
  destruct (BuildBatchGroup first ws) as [covered merged]. simpl in Hk1, Hk3, Hk4. subst covered.
  assert (addable c1 d1 (concat (take (S k) (ops :: opss')))) as Had.
  { eapply (storable_addable c d c1 d1 first _ (S k) merged); try done; try congruence. simpl. by destruct ops. }
  destruct (commit_group_spec A truth floor c1 d1 e1 t1 t2 (wr_sync first) merged (concat (take (S k) (ops :: opss'))) Hok1 Hse1 (Hb1 eq_refl) Hu1 Had Hk3)
    as (s2 & d2 & e2 & c2 & -> & Hok2 & [G1 G2 G0 G3 G4 G5 G6]). cbn [mbind option_bind]. rewrite retire_eq.
  exists s2, (S k), d2, e2, c2. simpl Nat.sub. rewrite Nat.sub_0_r. split; [done|].
  assert (size (concat (take (S k) (ops :: opss'))) <= size (concat (ops :: opss'))) as Hle.
  { rewrite <- (take_drop (S k) (ops :: opss')) at 2. rewrite concat_app, size_app. pose proof (size_nonneg (concat (drop (S k) (ops :: opss')))). lia. }
  split; try congruence.
  - simpl. lia.
  - intros w [= <-]. exact Hk5.
  - rewrite G4, U3. pose proof (size_nonneg (concat (take (S k) (ops :: opss')))). lia.
  - rewrite G3, <- Z.add_assoc. exact U7.
  - rewrite U3 in G5. destruct (Status.ok s2); [destruct G5 as (_ & _ & _ & ->); by apply submseteq_app|].
    destruct G5 as (_ & _ & ->). by apply submseteq_inserts_l.
  - intros Hs2. rewrite Hs2 in G5. destruct G5 as (_ & -> & _). by apply U6.
  - intros Hs2. rewrite Hs2 in G5. destruct G5 as (-> & _ & Hx & _). split; [done|]. split; [by exists truth, floor|done].
  - intros Hs2. rewrite Hs2 in G5. destruct G5 as (Hx & Hy & _). right. rewrite <- (U6 eq_refl). split_and!; [by apply Hb1|split; [by exists truth, floor|done]|done].
  - intros Ho Hbo. apply G6. by apply U8.
Qed.

Lemma lead_spec A c d e fuel drain t1 t2 first ws opss :
  session A c d e -> has_room drain (size (everything c)) d ->
  Forall2 (fun w o => batch_repr (wr_batch w) o /\ o <> []) (first :: ws) opss -> storable c d first opss ->
  exists s k d' e' c',
    lead (S (S (S fuel))) drain t1 t2 first ws d e =
      Some (s, first :: map (fun w => mkWriter (wr_batch w) (wr_sync w) true s) (take (k - 1) ws), drop (k - 1) ws, d', e') /\
    led A c d e (first :: ws) opss s k c' d' e'.
Proof.
  intros [(truth & floor & Hok & Hse) Hu] Haf HF Hsb. pose proof (ok_last _ _ _ _ _ Hok) as Hl. unfold lead.
  destruct (room_spec A truth floor c d e fuel drain Hok Hse Haf) as (s & d1 & e1 & truth1 & c1 & -> & Hok1 & Hse1 & Hup & Hb1).
  eapply (serve_spec A truth1 floor); try done; [exact (upkeep_unhooked _ _ _ _ _ _ _ _ Hup Hu)|lia].
Qed.

End Commit.
