(* ===== verification/Recovery.v ===== *)
(** * Opening a database (src/db.cpp: [Recover], [DB::Open], [DB::~DB])

    Recovery loads the manifest, replays the logs that the manifest does not
    cover into a memtable, flushes it, starts a new log and commits. From every
    directory that a crash of this engine can leave it gives back the contents
    the directory stands for; it may itself be cut short and repeated. *)

From stdpp Require Import gmap strings.
From S2P Require Import Prelude Coding InternalKey Posix WriteBatch Wal Versions Iterator Skiplist MemTable Cache Block Merge DbIter Options Sstable Records Table Levels ReadPath Gc FileNames Manifest Db Flush Compaction Install Background Disk Session Write Upkeep.

Section Recovery.
Context {R : Type} (rnd : R -> Z * R) (seed : R).
Abbreviation DB := (@DB R).
Abbreviation db_ok := (@db_ok R).
Abbreviation db_core := (@db_core R).

(** ** The code *)

(** A directory entry: the logs found so far and [next_file_number_]. *)
Definition scan_name (manifest_log_number : Z) (acc : list Z * Z) (name : string) : list Z * Z :=
  match ParseFileName name with
  | None => acc
  | Some (number, kind) =>
      (if bool_decide (kind = "log"%string) && (manifest_log_number <=? number) then acc.1 ++ [number] else acc.1,
       if acc.2 <=? number then u64 (number + 1) else acc.2)
  end.

(** A directory that cannot be opened is taken for an empty one. *)
Definition find_logs (path : string) (manifest_log_number next : Z) (w : World) : list Z * Z * World :=
  let '(s, w) := sys_simple "opendir" w in
  let '(logs, next) :=
    if Status.ok s then fold_left (scan_name manifest_log_number) (dir_entries (w_files w) path) ([], next)
    else ([], next) in
  (sort_by Z.ltb logs, next, w).

(** The handler of the replay: the memtable and [max_seq]. *)
Definition replay_entry (seq : Z) (type : ValueType) (key value : bytes) (st : @MemTable R * Z) : @MemTable R * Z :=
  (MemTable.Add rnd seq type key value st.1, if st.2 <? seq then seq else st.2).

Fixpoint replay_logs (path : string) (logs : list Z) (st : @MemTable R * Z) (w : World) : Status * (@MemTable R * Z) * World :=
  match logs with
  | [] => (Status.OK, st, w)
  | number :: logs =>
      let '(s, _, st, w) := Replay replay_entry (LogPath path number) w st in
      if negb (Status.ok s) then (s, st, w) else replay_logs path logs st w
  end.

(** Up to the end of the replay. *)
Definition load_state (d : DB) (e : Env) : option (Status * DB * Env) :=
  '(s, m, e) ← LoadManifest (db_path d) (db_options d) e;
  match m with
  | None => Some (s, d, e)
  | Some m =>
      let d := with_current (m_version m) (with_last_sequence (m_last_sequence m) d) in
      let '(logs, next, w) := find_logs (db_path d) (m_log_number m) (m_next_file_number m) (e_world e) in
      let d := with_next_file_number next d in
      let '(s, (mem, max_seq), w) := replay_logs (db_path d) logs (new_MemTable seed, db_last_sequence d) w in
      let d := with_mem mem d in
      let e := mkEnv w (e_cache e) (e_stats e) in
      if negb (Status.ok s) then Some (s, d, e)
      else Some (Status.OK, with_last_sequence max_seq d, e)
  end.

(** [OldestLiveLog] is 0 during this flush: no log is open yet. *)
Definition flush_replayed (d : DB) (e : Env) : option (Status * DB * Env) :=
  if MemTable.empty (db_mem d) then Some (Status.OK, d, e)
  else FlushImmutableMemTable (with_mem (new_MemTable seed) (with_imm (Some (db_mem d)) d)) e.

Definition start_log (d : DB) (e : Env) : Status * DB * Env :=
  let new_log := db_next_file_number d in
  let d := with_next_file_number (u64 (new_log + 1)) d in
  let '(s, log, w) := WalWriter_Open (LogPath (db_path d) new_log) new_WalWriter (e_world e) in
  let d := with_log (Some log) d in
  if negb (Status.ok s) then (s, d, mkEnv w (e_cache e) (e_stats e))
  else
    let d := with_log_number new_log d in
    let '(s, w) :=
      WriteManifest (db_path d) (db_current d) (OldestLiveLog d) (db_next_file_number d) (db_last_sequence d) w in
    let w := if Status.ok s then RemoveObsoleteFiles (db_path d) (db_current d) (OldestLiveLog d) w else w in
    (s, d, mkEnv w (e_cache e) (e_stats e)).

Definition Recover (d : DB) (e : Env) : option (Status * DB * Env) :=
  '(s, d, e) ← load_state d e;
  if negb (Status.ok s) then Some (s, d, e)
  else
    '(s, d, e) ← flush_replayed d e;
    if negb (Status.ok s) then Some (s, d, e) else Some (start_log d e).

(** Writers have left and the background thread has been joined. *)
Definition destroy_DB (d : DB) (e : Env) : Env :=
  match db_log d with
  | Some log => let '(_, _, w) := WalWriter_Close log (e_world e) in mkEnv w (e_cache e) (e_stats e)
  | None => e
  end.

Lemma destroy_files d e : w_files (e_world (destroy_DB d e)) = w_files (e_world e).
Proof.
  unfold destroy_DB. destruct (db_log d) as [l|]; [|done]. destruct (WalWriter_Close l (e_world e)) as [[s l'] w] eqn:E.
  by destruct (Close_files _ _ _ _ _ E).
Qed.

(** [mkdir]; a directory that appeared in the meantime will do. *)
Definition make_directory (path : string) (w : World) : Status * World :=
  match next_ret w with
  | (SysErr errno, w) =>
      (if bool_decide (errno = "File exists"%string) then Status.OK else PosixError ("mkdir " ++ path) errno, w)
  | (SysIntr, w) => (PosixError ("mkdir " ++ path) "Interrupted system call", w)
  | (_, w) => (Status.OK, w)
  end.

(** [exists_] is what [stat] found, [now] the time. *)
Definition DB_Open (options : Options) (path : string) (exists_ : bool) (now : Z) (w : World)
  : option (Status * option DB * Env) :=
  let env w := mkEnv w (new_block_cache options) ∅ in
  if exists_ && error_if_exists options then Some (Status.InvalidArgument (path ++ " already exists"), None, env w)
  else if negb exists_ && negb (create_if_missing options) then
    Some (Status.NotFound (path ++ " does not exist"), None, env w)
  else
    let '(s, w) := if exists_ then (Status.OK, w) else make_directory path w in
    if negb (Status.ok s) then Some (s, None, env w)
    else
      '(s, d, e) ← Recover (new_DB seed options path now) (env w);
      if negb (Status.ok s) then Some (s, None, destroy_DB d e) else Some (Status.OK, Some d, e).

(** ** Finding the logs *)

Lemma scan_names log bound names : forall logs next,
  Forall (fun name => forall n kind, ParseFileName name = Some (n, kind) -> 0 <= n < bound) names -> next <= bound < 2 ^ 64 ->
  exists next', fold_left (scan_name log) names (logs, next) = (logs ++ omap (log_number_of log) names, next') /\
    next <= next' <= bound /\ Forall (fun name => forall n kind, ParseFileName name = Some (n, kind) -> n < next') names.
Proof.
  induction names as [|name names IH]; intros logs next Hf Hb; cbn [fold_left].
  { exists next. simpl. rewrite app_nil_r. split_and!; [done|lia|lia|constructor]. }
  apply Forall_cons in Hf as [Hn Hf]. unfold scan_name at 2, log_number_of. simpl.
  destruct (ParseFileName name) as [[n kind]|] eqn:Ep.
  - specialize (Hn n kind eq_refl). rewrite u64_id by lia.
    destruct (IH (if bool_decide (kind = "log"%string) && (log <=? n) then logs ++ [n] else logs)
      (if next <=? n then n + 1 else next) Hf) as (next' & -> & Hr & Hall); [destruct (Z.leb_spec next n); lia|].
    exists next'. split_and!; [|destruct (Z.leb_spec next n); lia..|].
    + destruct (_ && _); [by rewrite <- app_assoc|done].
    + constructor; [|done]. intros n' kind'. rewrite Ep. intros [= <- <-]. destruct (Z.leb_spec next n); lia.
  - destruct (IH logs next Hf Hb) as (next' & -> & Hr & Hall). exists next'. split_and!; [done|lia|lia|]. constructor; [|done]. congruence.
Qed.

Lemma find_logs_spec dir log next bound w :
  tidy dir (w_files w) bound -> next <= bound < 2 ^ 64 ->
  exists logs next' w', find_logs dir log next w = (logs, next', w') /\ w_files w' = w_files w /\
    (w_oracle w = [] -> w_oracle w' = []) /\ (logs = [] \/ logs = live_logs dir (w_files w) log) /\
    ((w_oracle w = [] \/ dir_entries (w_files w) dir = [] \/ Status.ok (sys_simple "opendir" w).1 = true) ->
      logs = live_logs dir (w_files w) log /\ next <= next' <= bound /\ tidy dir (w_files w) next').
Proof.
  intros Ht Hb. unfold find_logs. destruct (sys_simple "opendir" w) as [s w'] eqn:E.
  destruct (sys_simple_spec _ dir _ _ _ E) as (T & F & O). destruct (Status.ok s) eqn:Hs; cycle 1.
  { do 3 eexists. split_and!; [done|done|apply T|by left|]. simpl. rewrite Hs. intros [Ho|[He|?]]; [by rewrite (O Ho) in Hs| |done].
    unfold live_logs. rewrite He. split_and!; [done|done|lia|]. intros name n kind Hi%elem_of_dir_entries. rewrite He in Hi. by apply elem_of_nil in Hi. }
  rewrite F. destruct (scan_names log bound (dir_entries (w_files w) dir) [] next) as (next' & -> & Hr & Hall); [|done|].
  { apply Forall_forall. intros name Hin%elem_of_dir_entries n kind Hp. by eapply Ht. }
  do 3 eexists. split_and!; [done|done|apply T|by right|]. intros _. split_and!; [done|lia|lia|].
  intros name n kind Hi Hp. destruct (Ht name n kind Hi Hp) as [H1 H2]. split; [|done].
  rewrite Forall_forall in Hall. apply elem_of_dir_entries in Hi. specialize (Hall name Hi n kind Hp). lia.
Qed.

(** ** Replaying them *)

Lemma replay_logs_spec dir logs rss : forall st w,
  Forall2 (fun n rs => exists b, w_files w !! LogPath dir n = Some b /\ replays b rs) logs rss ->
  exists s st' w', replay_logs dir logs st w = (s, st', w') /\ w_files w' = w_files w /\
    (w_oracle w = [] -> s = Status.OK /\ w_oracle w' = []) /\
    (Status.ok s = true -> s = Status.OK /\ st' = run_log replay_entry (concat rss) st).
Proof.
  revert rss. induction logs as [|n logs IH]; intros rss st w HF; inversion HF as [|? rs ? rss' (b & Hb & Hr) HF']; subst.
  { do 3 eexists. split_and!; [done|done|done|]. by intros _. }
  cbn [replay_logs]. destruct (Replay_any replay_entry _ w st b rs Hb Hr) as (s & t & st1 & w1 & -> & F1 & O1 & K1).
  destruct (Status.ok s) eqn:Hs; cbn [negb].
  2:{ do 3 eexists. split_and!; [done|done| |congruence]. intros Ho. destruct (O1 Ho) as [-> _]. done. }
  destruct (K1 eq_refl) as [-> ->]. destruct (IH rss' (run_log replay_entry rs st) w1) as (s2 & st2 & w2 & -> & F2 & O2 & K2); [by rewrite F1|].
  do 3 eexists. split_and!; [done|congruence|intros Ho; by apply O2, O1|]. intros Hs2. destruct (K2 Hs2) as [-> ->].
  simpl concat. by rewrite run_log_app.
Qed.

Lemma give_replay xs : forall m q,
  fold_left (give replay_entry) xs (m, q) =
  (fold_left (add_version rnd) xs m, fold_left (fun q x => if q <? x.1 then x.1 else q) xs q).
Proof. induction xs as [|[seq [[t k] v]] xs IH]; intros m q; simpl; [done|]. by rewrite <- IH. Qed.

Lemma max_seq_spec (xs : list (Z * op)) : forall q, let r := fold_left (fun q x => if q <? x.1 then x.1 else q) xs q in
  q <= r /\ Forall (fun x => x.1 <= r) xs /\ (r = q \/ Exists (fun x => r = x.1) xs).
Proof.
  induction xs as [|x xs IH]; intros q; simpl; [split_and!; [lia|constructor|by left]|].
  destruct (IH (if q <? x.1 then x.1 else q)) as (H1 & H2 & H3). destruct (Z.ltb_spec q x.1); split_and!; try lia.
  - constructor; [lia|done].
  - right. destruct H3 as [->|H3]; [by left|by right].
  - constructor; [lia|done].
  - destruct H3 as [->|H3]; [by left|right; by right].
Qed.

(** The memtable holds what the logs hold, and the highest sequence is known. *)
Lemma replayed_spec rss seq :
  let E := concat (map logged rss) in
  Forall (Forall record_fits) rss -> NoDup (map fst E) -> Forall (fun x => sequence x < kMaxSequenceNumber) E ->
  0 <= seq < kMaxSequenceNumber ->
  exists mem last es, run_log replay_entry (concat rss) (new_MemTable seed, seq) = (mem, last) /\ mem_ok mem es /\ es ≡ₚ E /\
    seq <= last < kMaxSequenceNumber /\ Forall (fun x => sequence x <= last) E /\ (E = [] -> mem = new_MemTable seed /\ last = seq).
Proof.
  intros E Hfit Hnd Hseq Hs. apply Forall_concat in Hfit.
  set (xs := concat (map (fun r : record => numbered r.1 r.2) (concat rss))).
  assert (E = map version_of xs) as HE.
  { unfold E, xs. by rewrite <- logged_numbered, logged_concat. }
  assert (Forall fits xs) as Hf.
  { apply Forall_concat, Forall_map. eapply Forall_impl; [exact Hfit|]. by intros r (_ & _ & ?). }
  assert (Forall in_range (concat rss)) as Hir by (eapply Forall_impl; [exact Hfit|]; by intros r (_ & ? & _)).
  rewrite run_log_numbered by done. change (concat (map (fun r : Z * list op => numbered r.1 r.2) (concat rss))) with xs. rewrite give_replay.
  destruct (fill_ok rnd xs (new_MemTable seed) [] (new_MemTable_ok rnd seed) Hf) as (es & Hm & Hp); [by rewrite app_nil_r, <- HE|].
  rewrite app_nil_r, <- HE in Hp. destruct (max_seq_spec xs seq) as (H1 & H2 & H3).
  assert (Forall (fun x => sequence (version_of x) = x.1) xs) as Hsx by (eapply Forall_impl; [exact Hf|]; apply version_of_sequence).
  do 3 eexists. split; [done|]. split_and!; [exact Hm|done|done| | |].
  - destruct H3 as [->|H3]; [lia|]. apply Exists_exists in H3 as (x & Hx & ->). rewrite HE in Hseq.
    rewrite Forall_map, Forall_forall in Hseq. rewrite Forall_forall in Hsx. rewrite <- (Hsx x Hx). by apply Hseq.
  - rewrite HE. apply Forall_map, Forall_forall. intros x Hx. rewrite Forall_forall in Hsx, H2. rewrite (Hsx x Hx). by apply H2.
  - rewrite HE. by destruct xs.
Qed.

(** ** Loading *)

Lemma load_any dir o e v log next seq :
  manifest_at dir (w_files (e_world e)) v log next seq -> describable dir o (w_files (e_world e)) v ->
  0 <= log < 2 ^ 64 -> 0 <= next < 2 ^ 64 -> 0 <= seq < 2 ^ 64 ->
  exists s m e', LoadManifest dir o e = Some (s, m, e') /\ only_reads e e' /\ (w_oracle (e_world e) = [] -> s = Status.OK) /\
    (Status.ok s = true -> s = Status.OK /\ m = Some (mkManifest v next seq log)) /\ (Status.ok s = false -> m = None).
Proof.
  intros [Hm|(Hm & -> & -> & -> & ->)] Hd Hlog Hnext Hseq.
  { destruct (LoadManifest_any dir o e v log next seq) as (s & m & e' & HL & H1 & H2 & H3); [done..|].
    do 3 eexists. split_and!; [done..|]. by eapply LoadManifest_failed. }
  unfold LoadManifest. destruct (sys_simple "open manifest" (e_world e)) as [s0 w0] eqn:E0.
  destruct (sys_simple_env _ _ _ _ E0) as [R0 O0].
  destruct (Status.ok s0) eqn:Hs0; cbn [negb]; [|do 3 eexists; split_and!; [done|done|done|by rewrite Hs0|done]].
  pose proof (or_files _ _ R0) as F0. cbn [e_world] in F0. rewrite F0, Hm.
  do 3 eexists. split_and!; [done|done|done|done|done].
Qed.

(** There is nothing in the directory, or it can be listed once the manifest is
    loaded. *)
Definition lists (dir : string) (o : Options) (e : Env) : Prop :=
  dir_entries (w_files (e_world e)) dir = [] \/
  forall m e', LoadManifest dir o e = Some (Status.OK, m, e') -> Status.ok (sys_simple "opendir" (e_world e')).1 = true.

(** The database after the replay, with the members that recovery sets. *)
Definition loaded_db (o : Options) (dir : string) (now : Z) (v : Version) (mem : @MemTable R) (imm : option (@MemTable R))
    (next last : Z) : DB :=
  mkDB o dir mem imm v ∅ (replicate kNumLevels []) None 0 0 next last now false Status.OK new_DbStats.

Section Recoverable.
Context (dir : string) (o : Options) (now : Z) (v : Version) (log bound : Z).
Context (E : list entry) (l0 : list (list entry)) (deep : list (list (list entry))).

Lemma load_state_spec e :
  recoverable dir o (w_files (e_world e)) v log bound E l0 deep -> bound < 2 ^ 64 ->
  exists s d e', load_state (new_DB seed o dir now) e = Some (s, d, e') /\ only_reads e e' /\
    (w_oracle (e_world e) = [] -> s = Status.OK) /\
    (Status.ok s = true -> w_oracle (e_world e) = [] \/ lists dir o e ->
      s = Status.OK /\ exists mem es next last, d = loaded_db o dir now v mem None next last /\
        mem_ok mem es /\ es ≡ₚ E /\ (E = [] -> mem = new_MemTable seed) /\
        0 < next <= bound /\ Forall (fun n => n < next) (live_tables v) /\ tidy dir (w_files (e_world e)) next /\
        0 <= last < kMaxSequenceNumber /\ Forall (fun x => sequence x <= last) (E ++ concat (sources l0 deep)) /\
        (E = [] -> w_files (e_world e) !! ManifestPath dir = None -> last = 0)).
Proof.
  intros Hrc Hb. destruct (rc_manifest _ _ _ _ _ _ _ _ _ Hrc) as (next & seq & Hm & Hn & Hlive & Hseq & Hold).
  assert (kMaxSequenceNumber < 2 ^ 64) as Hk by done.
  destruct (load_any dir o e v log next seq Hm) as (s1 & m & e1 & HL & R1 & O1 & K1 & N1); [apply Hrc|apply Hrc|lia|lia|].
  unfold load_state. cbn [db_path db_options new_DB]. rewrite HL. cbn [mbind option_bind].
  destruct (Status.ok s1) eqn:Hs1.
  2:{ rewrite (N1 eq_refl). do 3 eexists. split_and!; [done|done|done|congruence]. }
  destruct (K1 eq_refl) as [-> ->]. clear K1 N1. cbn [m_version m_last_sequence m_log_number m_next_file_number].
  pose proof (or_files _ _ R1) as F1. pose proof (or_oracle _ _ R1) as Or1.
  destruct (find_logs_spec dir log next bound (e_world e1)) as (logs & next' & w2 & Hfl & F2 & O2 & Hlogs & K2);
    [rewrite F1; apply Hrc|lia|]. cbv zeta.
  cbn [db_path db_last_sequence with_current with_last_sequence with_next_file_number with_mem].
  change (db_path (new_DB seed o dir now)) with dir. rewrite Hfl.
  rewrite F1 in F2, Hlogs, K2. destruct (rc_logs _ _ _ _ _ _ _ _ _ Hrc) as (rss & HE & Hfit & HF).
  assert (exists rss', Forall2 (fun n rs => exists b, w_files w2 !! LogPath dir n = Some b /\ replays b rs) logs rss' /\
    (logs = live_logs dir (w_files (e_world e)) log -> rss' = rss)) as (rss' & HF' & Hrss).
  { rewrite F2. destruct Hlogs as [->| ->]; [|by exists rss]. destruct (live_logs _ _ _); [inversion HF; subst; by exists []|].
    exists []. split; [constructor|done]. }
  destruct (replay_logs_spec dir logs rss' (new_MemTable seed, seq) w2 HF') as (s3 & [mem last] & w3 & -> & F3 & O3 & K3).
  assert (only_reads e (mkEnv w3 (e_cache e1) (e_stats e1))) as R3.
  { split; simpl; [congruence|apply R1|]. intros Ho. by apply O3, O2, R1. }
  assert (w_oracle (e_world e) = [] -> s3 = Status.OK) as Hcalm by (intros Ho; by apply O3, O2, R1).
  destruct (Status.ok s3) eqn:Hs3; cbn [negb]; [|do 3 eexists; split_and!; [done|exact R3|done|congruence]].
  do 3 eexists. split_and!; [done|exact R3|done|]. intros _ Hl. split; [done|].
  assert (logs = live_logs dir (w_files (e_world e)) log /\ next <= next' <= bound /\ tidy dir (w_files (e_world e)) next')
    as (Hlive' & Hnx & Htidy).
  { apply K2. destruct Hl as [Ho|Hl]; [left; by apply R1|right]. destruct Hl as [Hl|Hl]; [by left|right; by eapply Hl]. }
  rewrite (Hrss Hlive') in K3. destruct (K3 eq_refl) as [_ Hst].
  destruct (replayed_spec rss seq Hfit) as (mem' & last' & es & Hrun & Hmem & Hp & Hlast & Hle & Hnone);
    [rewrite <- HE; apply Hrc|rewrite <- HE; apply Hrc|done|].
  rewrite Hrun in Hst. injection Hst as -> ->. rewrite <- HE in *. exists mem', es, next', last'.
  split_and!; [done|done|done|by apply Hnone|lia|lia| |done|lia|lia| |].
  - eapply Forall_impl; [exact Hlive|]. intros n Hx. simpl in Hx. lia.
  - apply Forall_app. split; [done|]. eapply Forall_impl; [exact Hold|]. intros x Hx. simpl in Hx. lia.
  - intros HE0 Hno. destruct (Hnone HE0) as [_ ->]. destruct Hm as [Hm|(_ & _ & _ & _ & ->)]; [congruence|done].
Qed.

(** ** Flushing what was replayed *)

(** The sources before the flush; there may be nothing to flush. *)
Lemma loaded_core e imm es next last :
  recoverable dir o (w_files (e_world e)) v log bound E l0 deep -> bound < 2 ^ 64 ->
  option_Forall2 mem_ok imm es -> es <> Some [] -> default [] es ≡ₚ E ->
  0 < next <= bound -> Forall (fun n => n < next) (live_tables v) -> 0 <= last < kMaxSequenceNumber ->
  Forall (fun x => sequence x <= last) (E ++ concat (sources l0 deep)) -> (forall truth, cache_good truth e) ->
  exists truth, db_core truth last (mkContents [] es l0 deep) (loaded_db o dir now v (new_MemTable seed) imm next last) e.
Proof.
  intros H Hb Him Hne Hp Hn Hlive Hlast Hsq Hc. destruct (rc_version _ _ _ _ _ _ _ _ _ H) as (truth & Hv & Hfresh). exists truth.
  set (c := mkContents [] es l0 deep). assert (everything c ≡ₚ E ++ concat (sources l0 deep)) as He.
  { rewrite everything_split. unfold unflushed. simpl. by rewrite Hp. }
  split; cbn [loaded_db db_mem db_imm db_current db_options db_path db_last_sequence db_snapshots db_next_file_number c_mem c_imm c_l0 c_deep];
    try done; try apply H; try lia.
  - apply (new_MemTable_ok rnd).
  - eapply agree_subset; [|apply H]. intros x. by rewrite He.
  - by rewrite He.
  - rewrite <- He in Hsq. clear -Hsq. induction (everything c) as [|x es' IH]; [constructor|]. apply Forall_cons in Hsq as [Hx Hsq].
    rewrite filter_cons_False by (simpl; lia). by apply IH.
  - eapply writable_sub; [|apply H]. by rewrite He.
  - intros n Hx. apply Hfresh. intros Hin. rewrite Forall_forall in Hlive. specialize (Hlive n Hin). lia.
Qed.

(** What survives of a key is its newest version. *)
Lemma survivors_top smallest es x z :
  smallest < kMaxSequenceNumber -> StronglySorted entry_le es -> Forall (fun y => sequence y <= smallest) es ->
  x ∈ survivors smallest false es -> z ∈ es -> user_key z = user_key x -> tag z <= tag x.
Proof.
  intros Hk Hs Hf Hx Hz Hkey. destruct (gc_filter_unique smallest false es new_GcState Hs) as [Hnd _]; [done..|].
  assert (sublist (survivors smallest false es) es) as Hsub by apply gc_filter_sublist.
  assert (forall y, y ∈ es -> user_key y = user_key x -> visible (user_key x) smallest y = true) as Hvis.
  { intros y Hy Hyk. apply visible_true. split; [done|]. rewrite Forall_forall in Hf. by apply Hf. }
  assert (x ∈ es) as Hxe by (by eapply sublist_mem).
  destruct (survivors_newest smallest smallest false (user_key x) Hk (Z.le_refl _) es Hs) as [Hsame|[? _]]; [|done].
  destruct (newest (survivors smallest false es) (user_key x) smallest) as [y|] eqn:Ey.
  - symmetry in Hsame. apply newest_Some in Ey as (Hy & Hvy & _). apply newest_Some in Hsame as (_ & _ & Hmax).
    assert (y = x) as ->; [|rewrite Forall_forall in Hmax; apply Hmax; [done|by apply Hvis]].
    apply visible_true in Hvy as [Hyk _]. by eapply (NoDup_map_eq user_key).
  - apply newest_None in Ey. rewrite Forall_forall in Ey. specialize (Ey x Hx). rewrite Hvis in Ey; done.
Qed.

(** Everything replayed is in tables, no log is open yet. *)
Record settled (last : Z) (c : contents) (d : DB) : Prop := {
  st_mem : c_mem c = [];
  st_imm : c_imm c = None;
  st_table : db_mem d = new_MemTable seed;
  st_no_imm : db_imm d = None;
  st_options : db_options d = o;
  st_path : db_path d = dir;
  st_last : db_last_sequence d = last;
  st_snapshots : db_snapshots d = ∅;
  st_error : db_bg_error d = Status.OK;
  st_reads : forall key, value_of (read (everything c) key last) = latest (E ++ concat (sources l0 deep)) key;
  st_shrinks : everything c ⊆+ E ++ concat (sources l0 deep)
}.

Lemma flushed_tables_layered fs es last (d : DB) :
  recoverable dir o fs v log bound E l0 deep -> sorted es -> es ≡ₚ E -> SmallestSnapshot d = last -> last < kMaxSequenceNumber ->
  Forall (fun x => sequence x <= last) E -> layered (kept d es :: sources l0 deep).
Proof.
  intros H Hs Hp Hsm Hlast Hsq. split; [|apply H]. intros x y Hx Hy Hk. unfold kept in Hx. rewrite Hsm in Hx.
  assert (x ∈ es) as Hxe by (eapply sublist_mem; [apply gc_filter_sublist|exact Hx]).
  destruct (rc_newer _ _ _ _ _ _ _ _ _ H x y) as (z & Hz & Hzk & Hle); [by rewrite <- Hp|done|done|].
  etrans; [exact Hle|]. apply (survivors_top last es x z); [done|by apply sorted_le|by rewrite Hp|done|by rewrite Hp|congruence].
Qed.

Lemma flush_replayed_spec e mem es next last :
  recoverable dir o (w_files (e_world e)) v log bound E l0 deep -> bound < 2 ^ 32 - 1 ->
  mem_ok mem es -> es ≡ₚ E -> (E = [] -> mem = new_MemTable seed) ->
  0 < next <= bound -> Forall (fun n => n < next) (live_tables v) -> 0 <= last < kMaxSequenceNumber ->
  Forall (fun x => sequence x <= last) (E ++ concat (sources l0 deep)) -> (forall truth, cache_good truth e) ->
  exists s d' e' truth c' c1 d1, flush_replayed (loaded_db o dir now v mem None next last) e = Some (s, d', e') /\
    (w_oracle (e_world e) = [] -> s = Status.OK /\ w_oracle (e_world e') = []) /\ db_core truth last c' d' e' /\
    (E = [] /\ c' = mkContents [] None l0 deep /\ d' = loaded_db o dir now v mem None next last /\ e' = e \/
     E <> [] /\ c1 = mkContents [] (Some es) l0 deep /\ d1 = loaded_db o dir now v (new_MemTable seed) (Some mem) next last /\
     (c' = c1 /\ only_new d1 d' (e_world e) (e_world e') /\ db_current d' = v \/ c' = flushed d1 c1 /\ db_imm d' = None) /\ same_session d1 d' /\ next <= db_next_file_number d' <= next + 1 /\
     disk_outcome c1 d1 (e_world e) s c' d' (e_world e')) /\
    (Status.ok s = true -> db_ok truth last c' d' e' /\ settled last c' d').
Proof.
  intros Hrc Hb Hmem Hp Hnew Hn Hlive Hlast Hsq Hc. unfold flush_replayed. cbn [db_mem loaded_db].
  pose proof (mem_empty mem es Hmem) as Hempty. destruct (decide (E = [])) as [HE|HE].
  - assert (es = []) as -> by (apply Permutation_nil; by rewrite Hp, HE). rewrite (proj2 Hempty eq_refl).
    destruct (loaded_core e None None next last) as [truth Hok]; [done|lia|constructor|done|by rewrite HE|done..|].
    rewrite (Hnew HE). do 3 eexists. exists truth, (mkContents [] None l0 deep), (mkContents [] None l0 deep), (loaded_db o dir now v mem None next last).
    split_and!; [done|done|exact Hok|left; by split_and!|]. intros _. split; [split; [done|]; split; [by intros x y ?%elem_of_nil|apply Hrc]|].
    split; try done; [|by rewrite everything_split, HE]. intros key. rewrite HE. unfold latest. rewrite everything_split. cbn [unflushed c_mem c_imm default app c_l0 c_deep].
    rewrite HE in Hsq. by rewrite (read_above _ key last kMaxSequenceNumber) by (done || lia).
  - assert (es <> []) as Hes by (intros ->; by apply HE, Permutation_nil).
    destruct (MemTable.empty mem) eqn:Hem; [by destruct Hes; apply Hempty|].
    set (c1 := mkContents [] (Some es) l0 deep). set (d1 := loaded_db o dir now v (new_MemTable seed) (Some mem) next last).
    change (with_mem _ _) with d1.
    destruct (loaded_core e (Some mem) (Some es) next last) as [truth Hok]; [done|lia|by constructor|by intros [= ?]|done..|].
    fold c1 d1 in Hok. destruct (Flush_core truth last c1 d1 e Hok) as (s & d' & e' & truth' & c' & Hf & Hok' & Hss & Hc' & Hgood & _ & Ho & Hnx & Hdo);
      [simpl; lia|]. exists s, d', e', truth', c', c1, d1. split_and!; [exact Hf|exact Ho|exact Hok'|right; split_and!; try done; apply Hnx|].
    intros Hs. destruct (Hgood Hs) as (-> & Hno & Herr). destruct Hss as [S1 S2 S3 S4 S5 S6 S7].
    assert (layered (all_sources (flushed d1 c1))) as HL.
    { split; [by intros x y ?%elem_of_nil|]. apply (flushed_tables_layered (w_files (e_world e)) es last d1); [exact Hrc|apply Hmem|done|done|apply Hlast|by apply Forall_app in Hsq as [? _]]. }
    assert (everything c1 ≡ₚ E ++ concat (sources l0 deep)) as Hall.
    { rewrite everything_split. unfold unflushed, c1. cbn [c_mem c_imm c_l0 c_deep]. simpl. by rewrite Hp. }
    split; [by split|]. split; try done; [|rewrite <- Hall; apply flushed_shrinks]. intros key. rewrite (flushed_reads truth last c1 d1 e key last Hok) by done.
    unfold latest. rewrite <- (read_above _ key last kMaxSequenceNumber) by (apply Hok || lia). f_equal.
    apply read_members; [apply Hok|by eapply ok_typed|]. intros x. by rewrite Hall.
Qed.

(** ** Starting a log *)

Lemma start_log_commits (d : DB) e :
  let '(s, w) := WriteManifest (db_path d) (db_current d) (OldestLiveLog d) (db_next_file_number d) (db_last_sequence d) (e_world e) in
  let w := if Status.ok s then RemoveObsoleteFiles (db_path d) (db_current d) (OldestLiveLog d) w else w in
  CommitVersion (db_current d) d e = (s, d, mkEnv w (e_cache e) (e_stats e)).
Proof. unfold CommitVersion. replace (with_current (db_current d) d) with d by (by destruct d). by destruct (WriteManifest _ _ _ _ _ _). Qed.

Lemma free_log fs n : tidy dir fs n -> 0 <= n < 2 ^ 64 -> forall m, n <= m < 2 ^ 64 -> fs !! LogPath dir m = None.
Proof.
  intros Ht Hn m Hm. destruct (fs !! LogPath dir m) as [b|] eqn:Eb; [|done].
  destruct (Ht (base_name m ".log") m "log"%string) as [? _]; [by exists b|apply parse_log; lia|lia].
Qed.

Lemma started_on_disk truth last c (d : DB) e l n w1 s :
  db_ok truth last c d e -> settled last c d -> db_next_file_number d = n + 1 -> db_log_number d = n -> 0 < n ->
  db_log d = Some l -> Wal.fd_ l = Some (LogPath dir n) ->
  w_files w1 !! LogPath dir n = Some (log_of []) -> tidy dir (w_files w1) (n + 1) ->
  committed dir (db_current d) n (n + 1) last s w1 (e_world e) ->
  w_files (e_world e) !! ManifestPath dir = Some (manifest_bytes (db_current d) n (n + 1) last) ->
  on_disk true c d (w_files (e_world e)).
Proof.
  intros Hok [S1 S2 S3 S4 S5 S6 S7 S8 S9 S10 S11] Hnx Hln Hn Hl Hfd Hf Ht Hcm Hm.
  pose proof (ok_next _ _ _ _ _ Hok) as Hn0. rewrite Hnx in Hn0.
  assert (OldestLiveLog d = n) as Hold by (unfold OldestLiveLog; by rewrite S4).
  destruct (committed_log _ _ _ _ _ _ _ _ n Hcm) as [Hkept _]; [lia|].
  assert (tidy dir (w_files (e_world e)) (n + 1)) as Ht' by (eapply committed_tidy; [exact Hcm|lia|done]).
  split; rewrite ?S6, ?Hln, ?Hnx, ?Hold; try done.
  - exists (n + 1), last. split_and!; [done|lia|lia| |rewrite <- S7; apply Hok|lia|].
    + rewrite <- Hnx. apply Hok.
    + rewrite <- S7. pose proof (ok_seqs _ _ _ _ _ Hok) as Hs. rewrite everything_split in Hs. by apply Forall_app in Hs as [_ ?].
  - by exists l.
  - lia.
  - exists [], (log_of []). rewrite S1, Hkept by lia. split_and!; [done|done|constructor|done].
  - congruence.
  - intros m b H1 H2 H3 _. rewrite (free_log _ (n + 1)) by (done || lia). done.
  - unfold unflushed. rewrite S1, S2. constructor.
Qed.

Lemma start_log_spec truth last c (d : DB) e :
  let n := db_next_file_number d in
  db_ok truth last c d e -> settled last c d -> tidy dir (w_files (e_world e)) n -> n < 2 ^ 32 - 1 ->
  exists s d' e' w1, start_log d e = (s, d', e') /\ (w_oracle (e_world e) = [] -> s = Status.OK /\ w_oracle (e_world e') = []) /\
    touches (LogPath dir n) (e_world e) w1 /\ (forall b, w_files w1 !! LogPath dir n = Some b -> b `prefix_of` wal_header) /\
    (Status.ok s = false /\ w_files (e_world e') = w_files w1 \/
     committed dir (db_current d) n (n + 1) last s w1 (e_world e') /\
     db_ok truth last c d' e' /\ settled last c d' /\ db_next_file_number d' = n + 1 /\ unhooked d' /\
     (w_files (e_world e') !! ManifestPath dir = Some (manifest_bytes (db_current d) n (n + 1) last) ->
      on_disk true c d' (w_files (e_world e')))).
Proof.
  intros n Hok Hst Ht Hnx. pose proof Hst as [S1 S2 S3 S4 S5 S6 S7 S8 S9 S10 S11]. pose proof (ok_next _ _ _ _ _ Hok) as Hn0. fold n in Hn0.
  unfold start_log. fold n. rewrite u64_id by lia. cbn [db_path with_next_file_number]. rewrite S6.
  destruct (WalWriter_Open _ _ _) as [[s l] w1] eqn:Eo.
  destruct (WalWriter_Open_spec _ _ _ _ _ (free_log _ n Ht ltac:(lia) n ltac:(lia)) Eo) as (T & O & Hblank & Hopen).
  destruct (Status.ok s) eqn:Hs; cbn [negb].
  2:{ do 4 eexists. split_and!; [done| |exact T|exact Hblank|by left]. intros Ho. rewrite (O Ho) in Hs. done. }
  destruct (Hopen eq_refl) as (-> & Hfd & Hhook & Hnew). set (d2 := with_log_number n _).
  set (e2 := mkEnv w1 (e_cache e) (e_stats e)).
  assert (OldestLiveLog d2 = n) as Hold by (unfold OldestLiveLog; simpl; by rewrite S4).
  pose proof (start_log_commits d2 e2) as Hcv. cbn [e2 e_world e_cache e_stats] in Hcv.
  destruct (WriteManifest _ _ _ _ _ w1) as [s2 w2] eqn:Ew. cbv zeta in Hcv |- *.
  set (w3 := if Status.ok s2 then _ else _) in *. destruct (CommitVersion_spec _ _ _ _ _ _ Hcv) as (_ & _ & Hcm).
  rewrite Hold in Hcm. change (db_path d2) with (db_path d) in Hcm. change (db_current d2) with (db_current d) in Hcm.
  change (db_next_file_number d2) with (n + 1) in Hcm. change (db_last_sequence d2) with (db_last_sequence d) in Hcm.
  cbn [e_world] in Hcm. rewrite S6, S7 in Hcm.
  assert (db_ok truth last c d2 (mkEnv w3 (e_cache e) (e_stats e))) as Hok2.
  { destruct (ok_on truth last c d e (n + 1) w3 Hok) as [H HL]; [lia| |split; [by destruct H|done]].
    intros f Hf. pose proof (live_number _ _ _ _ _ f Hok Hf) as Hfn. rewrite S6.
    rewrite (committed_table _ _ _ _ _ _ _ _ f Hcm Hf) by lia. apply T. apply not_eq_sym, LogPath_ne; lia. }
  assert (settled last c d2) as Hst2 by (by split).
  do 4 eexists. split_and!; [done| |exact T|exact Hblank|right; split_and!; try done].
  - intros Ho. apply (cm_calm _ _ _ _ _ _ _ _ Hcm). by apply T.
  - intros Hm. eapply (started_on_disk truth last c d2 _ l n w1 s2); try done; [lia|].
    eapply tidy_step; [exact Ht|lia|]. intros p Hp. destruct (decide (p = LogPath dir n)) as [->|Hne].
    + right; right; right. exists n. split; [lia|by right].
    + left. destruct T as [T _]. by rewrite <- T.
Qed.

(** ** The whole of it *)

Lemma settled_session truth last c d e M :
  db_ok truth last c d e -> settled last c d -> on_disk true c d (w_files (e_world e)) -> unhooked d ->
  (forall key, latest (E ++ concat (sources l0 deep)) key = M key) -> session seed (mkSpec M ∅ []) c d e.
Proof.
  intros Hok [S1 S2 S3 S4 S5 S6 S7 S8 S9 S10 S11] Hod Hu HM. split; [|done]. exists truth, last. split; [done|].
  split; simpl; try done; [intros key; by rewrite S7, S10| |by rewrite S9]. rewrite S8. intros raw. by rewrite !lookup_empty.
Qed.


Lemma outcome_tidy c d w s c' d' w' :
  disk_outcome c d w s c' d' w' -> same_session d d' ->
  0 <= db_next_file_number d <= db_next_file_number d' -> db_next_file_number d' <= 2 ^ 64 ->
  tidy (db_path d) (w_files w) (db_next_file_number d) -> tidy (db_path d) (w_files w') (db_next_file_number (R := R) d').
Proof.
  intros Hout Hss Hn Hn' Ht. destruct Hout as [Hnew _ _ _ _|w1 s1 Hnew _ Hcm _].
  - eapply only_new_tidy; [exact Hnew|lia|lia|done].
  - eapply committed_tidy; [exact Hcm|lia|]. eapply only_new_tidy; [exact Hnew|lia|lia|done].
Qed.

Lemma Recover_calm e :
  recoverable dir o (w_files (e_world e)) v log bound E l0 deep -> bound < 2 ^ 32 - 2 ->
  w_oracle (e_world e) = [] -> (forall truth, cache_good truth e) ->
  exists d e' truth last c, Recover (new_DB seed o dir now) e = Some (Status.OK, d, e') /\ w_oracle (e_world e') = [] /\
    db_ok truth last c d e' /\ settled last c d /\ on_disk true c d (w_files (e_world e')) /\ db_next_file_number d <= bound + 2 /\ unhooked d.
Proof.
  intros Hrc Hb Ho Hc. unfold Recover.
  destruct (load_state_spec e Hrc ltac:(lia)) as (s1 & d1 & e1 & -> & R1 & O1 & K1). cbn [mbind option_bind].
  rewrite (O1 Ho) in *. cbn [Status.ok negb].
  destruct (K1 eq_refl (or_introl Ho)) as (_ & mem & es & next & last & -> & Hmem & Hp & Hnew & Hn & Hlive & Ht & Hlast & Hsq & _).
  rewrite <- (or_files _ _ R1) in Hrc, Ht. assert (forall truth, cache_good truth e1) as Hc1 by (intros truth; unfold cache_good; rewrite (or_cache _ _ R1); apply Hc).
  destruct (flush_replayed_spec e1 mem es next last Hrc ltac:(lia) Hmem Hp Hnew Hn Hlive Hlast Hsq Hc1)
    as (s2 & d2 & e2 & truth & c2 & c1 & d1 & -> & O2 & _ & Hout & K2). cbn [mbind option_bind].
  destruct (O2 (or_oracle _ _ R1 Ho)) as [-> Ho2]. cbn [Status.ok negb]. destruct (K2 eq_refl) as [Hok Hst].
  assert (next <= db_next_file_number d2 <= next + 1 /\ tidy dir (w_files (e_world e2)) (db_next_file_number d2)) as [Hn2 Ht2].
  { destruct Hout as [(_ & _ & -> & ->)|(_ & -> & -> & _ & Hss & Hnx & Hdo)]; [simpl; split; [lia|done]|]. split; [done|].
    apply (outcome_tidy _ _ _ _ _ _ _ Hdo Hss); simpl; [lia|lia|done]. }
  destruct (start_log_spec truth last c2 d2 e2 Hok Hst Ht2 ltac:(lia)) as (s3 & d3 & e3 & w1 & -> & O3 & _ & _ & K3).
  destruct (O3 Ho2) as [-> Ho3]. destruct K3 as [[? _]|(Hcm & Hok3 & Hst3 & Hn3 & Hu & Hod)]; [done|].
  exists d3, e3, truth, last, c2. split_and!; [done|done|done|done| |lia|done]. by apply Hod, (cm_ok _ _ _ _ _ _ _ _ Hcm).
Qed.

End Recoverable.

(** ** Opening *)

Lemma new_cache_good o w st truth :
  0 <= block_cache_bytes o < 2 ^ 62 -> cache_good truth (mkEnv w (new_block_cache o) st).
Proof.
  intros Hc. unfold cache_good, new_block_cache. simpl. destruct (0 <? block_cache_bytes o); [|done].
  split; [by apply new_BlockCache_inv|apply new_cache_coherent].
Qed.

(** What [Open] asks of the directory. *)
Definition may_open (o : Options) (exists_ : bool) : Prop :=
  if exists_ then error_if_exists o = false else create_if_missing o = true.

Lemma Open_calm o dir exists_ time w v log bound E l0 deep M :
  recoverable dir o (w_files w) v log bound E l0 deep -> (forall key, latest (E ++ concat (sources l0 deep)) key = M key) ->
  bound < 2 ^ 32 - 2 -> w_oracle w = [] -> 0 <= block_cache_bytes o < 2 ^ 62 -> may_open o exists_ ->
  exists d e c, DB_Open o dir exists_ time w = Some (Status.OK, Some d, e) /\ session seed (mkSpec M ∅ []) c d e /\
    db_bg_error d = Status.OK /\ everything c ⊆+ E ++ concat (sources l0 deep) /\ w_oracle (e_world e) = [].
Proof.
  intros Hrc HM Hb Ho Hc Hmay.
  assert (exists s, (if exists_ then (Status.OK, w) else make_directory dir w) = (s, w) /\ s = Status.OK) as (s0 & Hdir & ->).
  { destruct exists_; [by eexists|]. unfold make_directory, next_ret. rewrite Ho. by eexists. }
  set (e0 := mkEnv w (new_block_cache o) ∅).
  destruct (Recover_calm dir o time v log bound E l0 deep e0 Hrc Hb Ho)
    as (d & e & truth & last & c & HR & Ho' & Hok & Hst & Hod & Hn & Hu); [intros truth; by apply new_cache_good|].
  exists d, e, c. split_and!; try done.
  - unfold DB_Open. rewrite Hdir. fold e0. unfold may_open in Hmay.
    assert (exists_ && error_if_exists o = false) as -> by (by destruct exists_).
    assert (negb exists_ && negb (create_if_missing o) = false) as -> by (destruct exists_; [done|by rewrite Hmay]).
    cbn [Status.ok negb]. by rewrite HR.
  - by eapply settled_session.
  - apply Hst.
  - apply Hst.
Qed.

Lemma Open_recovers o dir exists_ time w bound M :
  recovers dir o (w_files w) bound M -> bound < 2 ^ 32 - 2 -> w_oracle w = [] -> 0 <= block_cache_bytes o < 2 ^ 62 ->
  may_open o exists_ ->
  exists d e c, DB_Open o dir exists_ time w = Some (Status.OK, Some d, e) /\ session seed (mkSpec M ∅ []) c d e /\
    db_bg_error d = Status.OK /\ w_oracle (e_world e) = [].
Proof.
  intros (v & log & E & l0 & deep & Hrc & HM) Hb Ho Hc Hmay.
  destruct (Open_calm o dir exists_ time w v log bound E l0 deep M Hrc HM Hb Ho Hc Hmay) as (d & e & c & ? & ? & ? & _ & ?). by exists d, e, c.
Qed.

End Recovery.

(** ** An empty directory *)

Lemma recoverable_fresh dir o fs :
  writable o [] -> (forall name, fs !! (dir ++ "/" ++ name)%string = None) ->
  recoverable dir o fs new_Version 0 1 [] [] (replicate 6 []).
Proof.
  intros Hwr Hno.
  assert (dir_entries fs dir = []) as Hdir.
  { apply elem_of_nil_inv. intros name [b Hb]%elem_of_dir_entries. by rewrite Hno in Hb. }
  split; try done.
  - exists 1, 0. split_and!; try done; try lia; [|constructor..]. right. split_and!; [|done..].
    change (ManifestPath dir) with (dir ++ "/" ++ "MANIFEST")%string. apply Hno.
  - exists (fun _ => None). split; [apply new_Version_ok|done].
  - apply new_Version_describable.
  - constructor.
  - intros name n kind [b Hb]. by rewrite Hno in Hb.
  - exists []. unfold live_logs. rewrite Hdir. split_and!; [done|constructor|constructor].
  - constructor.
  - intros x y Hx. by apply elem_of_nil in Hx.
  - repeat (split; [intros x y Hx; by apply elem_of_nil in Hx|]). done.
  - intros x y Hx. by apply elem_of_nil in Hx.
Qed.
