(* ===== verification/Restart.v ===== *)
(** * Recovery that is cut short

    Recovery writes too: it adds a table, replaces the manifest twice and starts
    a log. Whatever the system calls do, the directory it leaves stands for the
    same contents as before, so it can be repeated until it succeeds, as long as
    no log older than the manifest is left and the directory can be listed. Both
    conditions are necessary. *)

From stdpp Require Import gmap strings.
From S2P Require Import Prelude Coding InternalKey Posix WriteBatch Wal Versions Iterator Skiplist MemTable Cache Block Merge DbIter Options Sstable Records Table Levels ReadPath Gc FileNames Manifest Db Flush Compaction Install Background Disk Session Write Upkeep Recovery.

(** ** Logs that hold the same *)

(** The logs from [log'] on of [fs'] are those from [log] on of [fs], and blank
    ones. *)
Record same_logs (dir : string) (fs : gmap string bytes) (log : Z) (fs' : gmap string bytes) (log' : Z) : Prop := {
  sl_kept : forall n b, 0 <= n < 2 ^ 64 -> log <= n -> fs !! LogPath dir n = Some b -> log' <= n /\ fs' !! LogPath dir n = Some b;
  sl_blank : forall n b, 0 <= n < 2 ^ 64 -> log' <= n -> fs' !! LogPath dir n = Some b ->
    (log <= n /\ is_Some (fs !! LogPath dir n)) \/ b `prefix_of` wal_header
}.

Lemma tabulate {A B} `{EqDecision A} (d : B) (l : list A) (l' : list B) :
  NoDup l -> length l = length l' -> exists f, l' = map f l /\ forall x, x ∉ l -> f x = d.
Proof.
  revert l'. induction l as [|a l IH]; intros [|b l'] Hnd Hlen; simplify_eq/=; [by exists (fun _ => d)|].
  apply NoDup_cons in Hnd as [Ha Hnd]. destruct (IH l' Hnd Hlen) as (f & -> & Hf).
  exists (fun x => if decide (x = a) then b else f x). split.
  - rewrite decide_True by done. f_equal. apply map_ext_in. intros x Hx%list_elem_of_In. rewrite decide_False; [done|by intros ->].
  - intros x [Hne Hx]%not_elem_of_cons. rewrite decide_False by done. by apply Hf.
Qed.

Lemma same_logs_records dir fs log bound fs' log' bound' rss :
  same_logs dir fs log fs' log' -> tidy dir fs bound -> bound <= 2 ^ 64 -> tidy dir fs' bound' -> bound' <= 2 ^ 64 ->
  Forall (Forall record_fits) rss ->
  Forall2 (fun n rs => exists b, fs !! LogPath dir n = Some b /\ replays b rs) (live_logs dir fs log) rss ->
  exists rss', concat (map logged rss') ≡ₚ concat (map logged rss) /\ Forall (Forall record_fits) rss' /\
    Forall2 (fun n rs => exists b, fs' !! LogPath dir n = Some b /\ replays b rs) (live_logs dir fs' log') rss'.
Proof.
  intros [Hk Hb] Ht Hbd Ht' Hbd' Hfit HF. pose proof (NoDup_live_logs dir fs log bound Ht) as Hnd.
  destruct (tabulate [] (live_logs dir fs log) rss Hnd (Forall2_length _ _ _ HF)) as (f & -> & Hnone).
  assert (forall n, n ∈ live_logs dir fs log <-> 0 <= n < bound /\ log <= n /\ is_Some (fs !! LogPath dir n)) as Hin
    by (intros n; by apply elem_of_live_logs).
  assert (forall n, n ∈ live_logs dir fs' log' <-> 0 <= n < bound' /\ log' <= n /\ is_Some (fs' !! LogPath dir n)) as Hin'
    by (intros n; by apply elem_of_live_logs).
  assert (forall n, n ∈ live_logs dir fs log -> exists b, fs !! LogPath dir n = Some b /\ replays b (f n) /\ Forall record_fits (f n)) as Hlive.
  { intros n Hn. rewrite Forall_map, Forall_forall in Hfit. pose proof (Hfit n Hn) as Hfn.
    apply list_elem_of_lookup in Hn as [i Hi]. rewrite Forall2_fmap_r in HF.
    destruct (Forall2_lookup_l _ _ _ _ _ HF Hi) as (m & Hm & b & ? & ?). rewrite Hi in Hm. injection Hm as <-. by exists b. }
  exists (map f (live_logs dir fs' log')). rewrite !map_map. split_and!.
  - apply concat_support; [by eapply NoDup_live_logs|done| |].
    + intros n Hn. destruct (Hlive n Hn) as (b & Hfb & _). apply Hin in Hn as (H1 & H2 & _).
      destruct (Hk n b ltac:(lia) H2 Hfb) as [H3 H4]. apply Hin'. split_and!; [lia| |done|by rewrite H4].
      destruct (Ht' (base_name n ".log") n "log"%string) as [? _]; [by exists b|apply parse_log; lia|lia].
    + intros n _ Hn. by rewrite Hnone.
  - apply Forall_map, Forall_forall. intros n _. destruct (decide (n ∈ live_logs dir fs log)) as [Hn|Hn].
    + by destruct (Hlive n Hn) as (_ & _ & _ & ?).
    + simpl. rewrite Hnone by done. constructor.
  - apply Forall2_fmap_r, Forall_Forall2_diag, Forall_forall. intros n (H1 & H2 & [b Hfb])%Hin'. exists b. split; [done|].
    destruct (decide (n ∈ live_logs dir fs log)) as [Hn|Hn].
    + destruct (Hlive n Hn) as (b' & Hfb' & Hr & _). apply Hin in Hn as (_ & H3 & _).
      destruct (Hk n b' ltac:(lia) H3 Hfb') as [_ H4]. rewrite H4 in Hfb. by injection Hfb as <-.
    + rewrite Hnone by done. apply replays_blank. destruct (Hb n b ltac:(lia) H2 Hfb) as [[H3 H4]|]; [|done].
      destruct Hn. apply Hin. split_and!; [lia| |done|done].
      destruct H4 as [b' Hb']. destruct (Ht (base_name n ".log") n "log"%string) as [? _]; [by exists b'|apply parse_log; lia|lia].
Qed.

(** ** What does not matter to recovery *)

Lemma recoverable_typed dir o fs v log bound E l0 deep :
  recoverable dir o fs v log bound E l0 deep -> entries_typed (E ++ concat (sources l0 deep)).
Proof.
  intros H. destruct (rc_version _ _ _ _ _ _ _ _ _ H) as (truth & Hv & _). destruct (rc_logs _ _ _ _ _ _ _ _ _ H) as (rss & -> & Hfit & _).
  apply Forall_app. split; [|by eapply version_typed]. apply Forall_concat in Hfit. rewrite <- logged_concat, logged_numbered.
  apply Forall_map, Forall_concat, Forall_map. eapply Forall_impl; [exact Hfit|]. intros r (_ & _ & Hf).
  eapply Forall_impl; [exact Hf|]. intros x Hx. by apply version_of_sequence.
Qed.

Lemma recoverable_recovers dir o fs v log bound E l0 deep es :
  recoverable dir o fs v log bound E l0 deep -> (forall x, x ∈ E ++ concat (sources l0 deep) <-> x ∈ es) ->
  recovers dir o fs bound (latest es).
Proof.
  intros H Hes. exists v, log, E, l0, deep. split; [done|]. intros key. apply latest_members; [apply H|by eapply recoverable_typed|done].
Qed.

(** The same manifest and tables, and logs that hold the same. *)
Lemma recoverable_frame dir o fs v log bound E l0 deep fs' bound' :
  recoverable dir o fs v log bound E l0 deep -> bound <= bound' <= 2 ^ 64 ->
  fs' !! ManifestPath dir = fs !! ManifestPath dir ->
  (forall f, f ∈ concat (levels v) -> fs' !! TablePath dir (number f) = fs !! TablePath dir (number f)) ->
  same_logs dir fs log fs' log -> tidy dir fs' bound' ->
  exists E', E' ≡ₚ E /\ recoverable dir o fs' v log bound' E' l0 deep.
Proof.
  intros H Hb Hm Hf Hl Ht. pose proof H as [R1 R2 R3 R4 R5 R6 (rss & HE & Hfit & HF) R8 R9 R10 R11 R12 R13].
  destruct (same_logs_records dir fs log bound fs' log bound' rss) as (rss' & Hp & Hfit' & HF'); [done|done|lia|done|lia|done|done|].
  rewrite <- HE in Hp. exists (concat (map logged rss')). split; [done|]. split; try done.
  - destruct R1 as (next & seq & R1 & Hn & Hrest). exists next, seq. unfold manifest_at. rewrite Hm. split_and!; [done|lia|lia|apply Hrest..].
  - by eapply describable_frame.
  - eauto.
  - by rewrite Hp.
  - by rewrite Hp.
  - eapply agree_subset; [|exact R10]. intros x. by rewrite Hp.
  - eapply writable_sub; [|exact R11]. by rewrite Hp.
  - intros x y Hx Hy Hk. setoid_rewrite Hp. rewrite Hp in Hx. eauto.
Qed.

(** No log from before the manifest is left. *)
Definition no_older_logs (dir : string) (fs : gmap string bytes) (log : Z) : Prop :=
  forall n, 0 <= n < log -> n < 2 ^ 64 -> fs !! LogPath dir n = None.

Lemma tidy_more dir fs next next' : tidy dir fs next -> next <= next' -> tidy dir fs next'.
Proof. intros H Hn name n kind H1 H2. destruct (H name n kind H1 H2). split; [lia|done]. Qed.

Section Restart.
Context {R : Type} (rnd : R -> Z * R) (seed : R).
Abbreviation DB := (@DB R).
Context (dir : string) (o : Options) (now : Z) (v : Version) (log bound : Z).
Context (E : list entry) (l0 : list (list entry)) (deep : list (list (list entry))).
Abbreviation loaded_db := (loaded_db (R := R)).

Lemma live_below fs next f :
  describable dir o fs v -> Forall (fun n => n < next) (live_tables v) -> f ∈ concat (levels v) -> 0 <= number f < next.
Proof.
  intros Hd Hl Hf. unfold live_tables in Hl. rewrite Forall_map, Forall_forall in Hl. specialize (Hl f Hf).
  pose proof (de_stored _ _ _ _ Hd) as Hs. rewrite Forall_forall in Hs. specialize (Hs f Hf). destruct Hs. simpl in Hl. lia.
Qed.

(** Only new tables and the temporary manifest. *)
Lemma frame_new fs fs' next next' :
  recoverable dir o fs v log bound E l0 deep -> 0 < next <= bound -> bound < 2 ^ 64 -> next' < 2 ^ 64 ->
  Forall (fun n => n < next) (live_tables v) -> tidy dir fs' next' ->
  (forall p, p <> TmpPath dir -> (forall n, next <= n < next' -> p <> TablePath dir n) -> fs' !! p = fs !! p) ->
  exists E', E' ≡ₚ E /\ recoverable dir o fs' v log (Z.max bound next') E' l0 deep.
Proof.
  intros H Hn Hb Hn' Hlive Ht Hp. assert (forall n, 0 <= n < 2 ^ 64 -> fs' !! LogPath dir n = fs !! LogPath dir n) as Hlog.
  { intros n Hx. destruct (LogPath_ne dir n Hx) as (_ & H2 & H3). apply Hp; [done|]. intros m Hm. apply H3. lia. }
  eapply recoverable_frame; [exact H|lia| | | |eapply tidy_more; [exact Ht|lia]].
  - apply Hp; [apply not_eq_sym, TmpPath_ne|]. intros m Hm. apply not_eq_sym, TablePath_ne. lia.
  - intros f Hf. pose proof (live_below fs next f (rc_files _ _ _ _ _ _ _ _ _ H) Hlive Hf). apply Hp; [apply TablePath_ne; lia|].
    intros m Hm Heq. apply TablePath_inj in Heq; lia.
  - split; [intros n b Hx Hy; by rewrite Hlog|]. intros n b Hx Hy. rewrite Hlog by done. eauto.
Qed.

Lemma flushed_recoverable truth w w1 s1 mem es next last (d' : DB) e' :
  let c1 := mkContents [] (Some es) l0 deep in
  let d1 := loaded_db o dir now v (new_MemTable seed) (Some mem) next last in
  recoverable dir o (w_files w) v log bound E l0 deep -> no_older_logs dir (w_files w) log ->
  writable o (E ++ E ++ concat (sources l0 deep)) -> sorted es -> es ≡ₚ E -> 0 < next ->
  Forall (fun x => sequence x <= last) (E ++ concat (sources l0 deep)) ->
  db_core truth last (flushed d1 c1) d' e' -> same_session d1 d' -> only_new d1 d' w w1 ->
  committed dir (db_current d') 0 (db_next_file_number d') last s1 w1 (e_world e') ->
  w_files (e_world e') !! ManifestPath dir = Some (manifest_bytes (db_current d') 0 (db_next_file_number d') last) ->
  tidy dir (w_files (e_world e')) (db_next_file_number d') -> bound < 2 ^ 64 ->
  exists E', E' ≡ₚ E /\
    recoverable dir o (w_files (e_world e')) (db_current d') 0 (db_next_file_number d') E' (kept d1 es :: l0) deep.
Proof.
  intros c1 d1 H Hold Hroom Hs Hp Hn Hsq Hok Hss Hnew Hcm Hman Ht Hb. pose proof (ok_next _ _ _ _ _ Hok) as Hnx.
  pose proof (ok_last _ _ _ _ _ Hok) as Hlast. rewrite (ss_last _ _ Hss) in Hlast. simpl in Hlast.
  assert (forall n, 0 <= n < 2 ^ 64 -> w_files (e_world e') !! LogPath dir n = w_files w !! LogPath dir n) as Hlog.
  { intros n Hx. destruct (committed_log _ _ _ _ _ _ _ _ n Hcm Hx) as [Hk _]. rewrite Hk by lia.
    apply (only_new_log d1 d'); [done|simpl; lia|lia|done]. }
  destruct (rc_logs _ _ _ _ _ _ _ _ _ H) as (rss & HE & Hfit & HF).
  destruct (same_logs_records dir (w_files w) log bound (w_files (e_world e')) 0 (db_next_file_number d') rss)
    as (rss' & Hpe & Hfit' & HF'); [|apply H|lia|done|lia|done|done|].
  { split; intros n b Hx Hy; rewrite Hlog by done; [intros ?; split; [lia|done]|]. intros Hfb. left. split; [|by exists b].
    destruct (Z.le_gt_cases log n); [done|]. by rewrite Hold in Hfb by lia. }
  rewrite <- HE in Hpe. set (E' := concat (map logged rss')) in *. exists E'. split; [done|].
  assert (sublist (kept d1 es) es) as Hsub by apply gc_filter_sublist.
  assert (forall x, x ∈ kept d1 es -> x ∈ E) as Hkept by (intros x Hx; rewrite <- Hp; by eapply sublist_mem).
  assert (concat (sources (kept d1 es :: l0) deep) = kept d1 es ++ concat (sources l0 deep)) as Hcat by done.
  assert (forall x, x ∈ E' ++ concat (sources (kept d1 es :: l0) deep) -> x ∈ E ++ concat (sources l0 deep)) as Hsubset.
  { intros x. rewrite Hcat, Hpe, !elem_of_app. pose proof (Hkept x). tauto. }
  split.
  - exists (db_next_file_number d'), last. split_and!; [by left|lia|lia|apply Hok|lia|lia|].
    rewrite Hcat. apply Forall_app in Hsq as [H1 H2]. apply Forall_app. split; [|done].
    rewrite Forall_forall in *. auto.
  - lia.
  - exists (restrict truth (db_current d')). split; [|apply restrict_fresh].
    eapply restrict_version; [apply (ok_files _ _ _ _ _ Hok)|]. apply (ok_version _ _ _ _ _ Hok).
  - pose proof (ok_files _ _ _ _ _ Hok) as Hd. by rewrite (ss_path _ _ Hss), (ss_options _ _ Hss) in Hd.
  - apply Hok.
  - done.
  - by exists rss'.
  - rewrite Hpe. apply H.
  - rewrite Hpe. apply H.
  - eapply agree_subset; [exact Hsubset|apply H].
  - eapply writable_sub; [|exact Hroom]. rewrite Hcat, Hpe, <- Hp. apply submseteq_app; [done|]. apply submseteq_app; [|done].
    by apply sublist_submseteq.
  - apply (flushed_tables_layered dir o v log bound E l0 deep (w_files w) es last d1); try done; [apply Hlast|by apply Forall_app in Hsq as [? _]].
  - intros x y Hx Hy Hk. rewrite Hcat in Hy. setoid_rewrite Hpe. rewrite Hpe in Hx. apply elem_of_app in Hy as [Hy|Hy].
    + exists y. split_and!; [by apply Hkept|done|lia].
    + by eapply H.
Qed.

(** The directory after the flush of what was replayed. *)
Lemma flush_restart e mem es next last :
  recoverable dir o (w_files (e_world e)) v log bound E l0 deep -> bound < 2 ^ 32 - 1 ->
  no_older_logs dir (w_files (e_world e)) log -> writable o (E ++ E ++ concat (sources l0 deep)) ->
  mem_ok mem es -> es ≡ₚ E -> (E = [] -> mem = new_MemTable seed) ->
  0 < next <= bound -> Forall (fun n => n < next) (live_tables v) -> tidy dir (w_files (e_world e)) next ->
  0 <= last < kMaxSequenceNumber -> Forall (fun x => sequence x <= last) (E ++ concat (sources l0 deep)) ->
  (forall truth, cache_good truth e) ->
  exists s d' e' truth c', flush_replayed seed (loaded_db o dir now v mem None next last) e = Some (s, d', e') /\
    (Status.ok s = true -> db_ok truth last c' d' e' /\ settled seed dir o E l0 deep last c' d') /\
    tidy dir (w_files (e_world e')) (db_next_file_number d') /\ 0 < db_next_file_number d' <= bound + 1 /\
    exists v' log' E' l0', recoverable dir o (w_files (e_world e')) v' log' (Z.max bound (db_next_file_number d')) E' l0' deep /\
      (forall x, x ∈ E' ++ concat (sources l0' deep) <-> x ∈ E ++ concat (sources l0 deep)) /\
      (Status.ok s = true -> v' = db_current d').
Proof.
  intros Hrc Hb Hold Hroom Hmem Hp Hnew Hn Hlive Ht Hlast Hsq Hc.
  destruct (flush_replayed_spec rnd seed dir o now v log bound E l0 deep e mem es next last Hrc Hb Hmem Hp Hnew Hn Hlive Hlast Hsq Hc)
    as (s & d' & e' & truth & c' & c1 & d1 & Hf & _ & Hok & Hout & Hgood).
  exists s, d', e', truth, c'. split; [done|]. split; [done|].
  destruct Hout as [(HE & -> & -> & ->)|(HE & -> & -> & Hc' & Hss & Hnx & Hdo)].
  { simpl. split_and!; [done|lia|lia|]. exists v, log, E, l0. rewrite Z.max_l by lia. by split_and!. }
  set (c1 := mkContents [] (Some es) l0 deep) in *. set (d1 := loaded_db o dir now v (new_MemTable seed) (Some mem) next last) in *.
  assert (tidy dir (w_files (e_world e')) (db_next_file_number d')) as Ht'
    by (apply (outcome_tidy _ _ _ _ _ _ _ Hdo Hss); simpl; [lia|lia|done]).
  split_and!; [done|lia|lia|].
  assert (forall fs', fs' = w_files (e_world e') ->
    (forall p, p <> TmpPath dir -> (forall n, next <= n < db_next_file_number d' -> p <> TablePath dir n) ->
      fs' !! p = w_files (e_world e) !! p) -> (Status.ok s = true -> v = db_current d') ->
    exists v' log' E' l0', recoverable dir o (w_files (e_world e')) v' log' (Z.max bound (db_next_file_number d')) E' l0' deep /\
      (forall x, x ∈ E' ++ concat (sources l0' deep) <-> x ∈ E ++ concat (sources l0 deep)) /\
      (Status.ok s = true -> v' = db_current d')) as Hsame.
  { intros fs' -> Hfr Hv. destruct (frame_new _ (w_files (e_world e')) next (db_next_file_number d') Hrc) as (E' & Hpe & Hrc'); [lia|lia|lia|done|done|done|].
    exists v, log, E', l0. split_and!; [done| |done]. intros x. by rewrite Hpe. }
  destruct Hc' as [(-> & Hon & Hcur)|[-> Hi]]; [eapply Hsame; [done| |done]; intros p _ Hx; by apply Hon|].
  destruct Hdo as [_ Hcc _ _ _|w1 s1 Hon Hs Hcm _]; [by apply (f_equal c_imm) in Hcc|].
  assert (OldestLiveLog d' = 0) as Hlog by (unfold OldestLiveLog; rewrite Hi; apply Hss).
  rewrite (ss_last _ _ Hss), Hlog in Hcm. change (db_last_sequence d1) with last in Hcm. change (db_path d1) with dir in Hcm.
  destruct (decide (w_files (e_world e') !! ManifestPath dir = Some (manifest_bytes (db_current d') 0 (db_next_file_number d') last))) as [Hm|Hm].
  - destruct (flushed_recoverable truth (e_world e) w1 s1 mem es next last d' e') as (E' & Hpe & Hrc'); try done; [apply Hmem|lia|lia|].
    destruct (recoverable_frame _ _ _ _ _ _ _ _ _ (w_files (e_world e')) (Z.max bound (db_next_file_number d')) Hrc')
      as (E2 & Hp2 & Hrc2); [lia|done|done|by split; eauto|eapply tidy_more; [exact Ht'|lia]|].
    exists (db_current d'), 0, E2, (kept d1 es :: l0). split_and!; [done| |done]. intros x.
    change (concat (sources (kept d1 es :: l0) deep)) with (kept d1 es ++ concat (sources l0 deep)).
    rewrite Hp2, Hpe, !elem_of_app. assert (x ∈ kept d1 es -> x ∈ E) as Hk; [|tauto].
    intros Hx. rewrite <- Hp. eapply sublist_mem; [apply gc_filter_sublist|exact Hx].
  - destruct (committed_failed _ _ _ _ _ _ _ _ Hcm Hm) as [Es Hfr]. eapply Hsame; [done| |congruence].
    intros p Hp1 Hp2. rewrite Hfr by done. by apply Hon.
Qed.

(** The directory after the new log. *)
Lemma start_restart truth last c (d : DB) e log' bound' E' l0' :
  let n := db_next_file_number d in
  recoverable dir o (w_files (e_world e)) (db_current d) log' bound' E' l0' deep ->
  (forall x, x ∈ E' ++ concat (sources l0' deep) <-> x ∈ E ++ concat (sources l0 deep)) ->
  db_ok truth last c d e -> settled seed dir o E l0 deep last c d -> tidy dir (w_files (e_world e)) n ->
  n <= bound' < 2 ^ 32 - 1 ->
  exists s d' e' b, start_log d e = (s, d', e') /\ b <= bound' + 1 /\
    recovers dir o (w_files (e_world e')) b (latest (E ++ concat (sources l0 deep))) /\
    (Status.ok s = true -> db_ok truth last c d' e' /\ settled seed dir o E l0 deep last c d' /\ on_disk true c d' (w_files (e_world e')) /\ unhooked d' /\
      db_next_file_number d' = n + 1).
Proof.
  intros n Hrc Hmem Hok Hst Ht Hn. pose proof (ok_next _ _ _ _ _ Hok) as Hn0. fold n in Hn0.
  destruct (start_log_spec seed dir o E l0 deep truth last c d e Hok Hst Ht ltac:(fold n; lia))
    as (s & d' & e' & w1 & Hs & _ & [T _] & Hblank & Hout). fold n in T, Hblank, Hout. exists s, d', e'.
  assert ((forall p, p <> TmpPath dir -> w_files (e_world e') !! p = w_files w1 !! p) ->
    recovers dir o (w_files (e_world e')) (bound' + 1) (latest (E ++ concat (sources l0 deep)))) as Hsame.
  { intros Hfr. destruct (LogPath_ne dir n ltac:(lia)) as (N1 & N2 & N3). pose proof (free_log dir _ n Ht ltac:(lia)) as Hfree.
    assert (forall m, 0 <= m < 2 ^ 64 -> m <> n -> w_files (e_world e') !! LogPath dir m = w_files (e_world e) !! LogPath dir m) as Hlog.
    { intros m Hm Hne. rewrite Hfr by (by apply LogPath_ne). apply T. intros Heq. apply LogPath_inj in Heq; lia. }
    destruct (recoverable_frame _ _ _ _ _ _ _ _ _ (w_files (e_world e')) (bound' + 1) Hrc) as (E2 & Hp2 & Hrc2).
    - lia.
    - rewrite Hfr by (apply not_eq_sym, TmpPath_ne). by apply T, not_eq_sym.
    - intros f Hf. pose proof (live_number _ _ _ _ _ f Hok Hf) as Hfn. rewrite Hfr by (apply TablePath_ne; lia). apply T, not_eq_sym, N3. lia.
    - split.
      + intros m b Hm Hl Hb. split; [done|]. destruct (decide (m = n)) as [->|]; [by rewrite Hfree in Hb by lia|by rewrite Hlog].
      + intros m b Hm Hl. destruct (decide (m = n)) as [->|]; [rewrite Hfr by done; intros Hb; right; by apply Hblank|].
        rewrite Hlog by done. eauto.
    - eapply (tidy_step dir (w_files (e_world e)) _ n); [done|lia|]. intros p Hp.
      destruct (decide (p = TmpPath dir)); [auto|]. rewrite Hfr in Hp by done. destruct (decide (p = LogPath dir n)) as [->|].
      + right; right; right. exists n. split; [lia|by right].
      + left. by rewrite <- T.
    - eapply recoverable_recovers; [exact Hrc2|]. intros x. by rewrite Hp2. }
  destruct Hout as [[Hs' Hfs]|(Hcm & Hok' & Hst' & Hnx & Hu & Hod)].
  { exists (bound' + 1). split_and!; [done|lia|apply Hsame; by rewrite Hfs|congruence]. }
  destruct (decide (w_files (e_world e') !! ManifestPath dir = Some (manifest_bytes (db_current d) n (n + 1) last))) as [Hm|Hm].
  - specialize (Hod Hm). exists (n + 1). split_and!; [done|lia| |done].
    pose proof (on_disk_now _ _ _ _ _ _ Hok' Hod) as Hr. destruct Hst' as [S1 S2 S3 S4 S5 S6 S7 S8 S9 S10 S11].
    rewrite S5, S6, Hnx in Hr. eapply recovers_ext; [exact Hr|]. intros key. simpl. by rewrite S7, S10.
  - destruct (committed_failed _ _ _ _ _ _ _ _ Hcm Hm) as [Es Hfr]. exists (bound' + 1). split_and!; [done|lia|by apply Hsame|congruence].
Qed.

(** Recovery under every outcome of the system calls. *)
Lemma Recover_any e :
  recoverable dir o (w_files (e_world e)) v log bound E l0 deep -> bound < 2 ^ 32 - 2 ->
  no_older_logs dir (w_files (e_world e)) log -> writable o (E ++ E ++ concat (sources l0 deep)) ->
  lists dir o e -> (forall truth, cache_good truth e) ->
  exists s d e' b, Recover rnd seed (new_DB seed o dir now) e = Some (s, d, e') /\ b <= bound + 2 /\
    recovers dir o (w_files (e_world e')) b (latest (E ++ concat (sources l0 deep))) /\
    (Status.ok s = true -> exists truth last c, db_ok truth last c d e' /\ settled seed dir o E l0 deep last c d /\
      on_disk true c d (w_files (e_world e')) /\ unhooked d /\ db_next_file_number d <= bound + 2 /\
      (E = [] -> w_files (e_world e) !! ManifestPath dir = None -> last = 0)).
Proof.
  intros Hrc Hb Hold Hroom Hl Hc. unfold Recover.
  destruct (load_state_spec rnd seed dir o now v log bound E l0 deep e Hrc ltac:(lia)) as (s1 & d1 & e1 & -> & R1 & _ & K1).
  cbn [mbind option_bind]. pose proof (or_files _ _ R1) as F1.
  destruct (Status.ok s1) eqn:Hs1; cbn [negb].
  2:{ exists s1, d1, e1, bound. split_and!; [done|lia| |congruence]. rewrite F1. by eapply recoverable_recovers. }
  destruct (K1 eq_refl (or_intror Hl)) as (_ & mem & es & next & last & -> & Hmem & Hp & Hnew & Hn & Hlive & Ht & Hlast & Hsq & Hzero).
  rewrite <- F1 in Hrc, Ht, Hold. assert (forall truth, cache_good truth e1) as Hc1 by (intros truth; unfold cache_good; rewrite (or_cache _ _ R1); apply Hc).
  destruct (flush_restart e1 mem es next last Hrc ltac:(lia) Hold Hroom Hmem Hp Hnew Hn Hlive Ht Hlast Hsq Hc1)
    as (s2 & d2 & e2 & truth & c2 & -> & K2 & Ht2 & Hn2 & v' & log' & E' & l0' & Hrc2 & Hmem2 & Hv). cbn [mbind option_bind].
  destruct (Status.ok s2) eqn:Hs2; cbn [negb].
  2:{ exists s2, d2, e2. eexists. split_and!; [done| |by eapply recoverable_recovers|congruence]. lia. }
  destruct (K2 eq_refl) as [Hok Hst]. rewrite (Hv eq_refl) in Hrc2.
  destruct (start_restart truth last c2 d2 e2 _ _ _ _ Hrc2 Hmem2 Hok Hst Ht2) as (s3 & d3 & e3 & b & -> & Hb3 & Hrec & K3); [lia|].
  exists s3, d3, e3, b. split_and!; [done|lia|done|]. intros Hs3. exists truth, last, c2.
  destruct (K3 Hs3) as (K4 & K5 & K6 & K7 & K8). split_and!; [done|done|done|done|lia|done].
Qed.

(** Opening under every outcome of the system calls. *)
Lemma Open_any w :
  recoverable dir o (w_files w) v log bound E l0 deep -> bound < 2 ^ 32 - 2 ->
  no_older_logs dir (w_files w) log -> writable o (E ++ E ++ concat (sources l0 deep)) ->
  lists dir o (mkEnv w (new_block_cache o) ∅) -> 0 <= block_cache_bytes o < 2 ^ 62 -> error_if_exists o = false ->
  exists s d e b, DB_Open rnd seed o dir true now w = Some (s, d, e) /\ b <= bound + 2 /\
    recovers dir o (w_files (e_world e)) b (latest (E ++ concat (sources l0 deep))) /\
    (Status.ok s = true -> exists d' c, d = Some d' /\
      session seed (mkSpec (latest (E ++ concat (sources l0 deep))) ∅ []) c d' e).
Proof.
  intros Hrc Hb Hold Hroom Hl Hc Herr. unfold DB_Open. rewrite Herr. cbn [andb negb Status.ok].
  destruct (Recover_any (mkEnv w (new_block_cache o) ∅) Hrc Hb Hold Hroom Hl) as (s & d & e & b & -> & Hbb & Hrec & Hgood);
    [intros truth; by apply new_cache_good|]. cbn [mbind option_bind]. destruct (Status.ok s) eqn:Hs; cbn [negb].
  - do 4 eexists. split_and!; [done|exact Hbb|exact Hrec|]. intros _.
    destruct (Hgood eq_refl) as (truth & last & c & Hok & Hst & Hod & Hu & _). exists d, c. split; [done|]. by eapply settled_session.
  - do 4 eexists. split_and!; [done|exact Hbb| |congruence]. by rewrite destroy_files.
Qed.

End Restart.

(** ** Opening a new database *)

Lemma fresh_entries (fs : gmap string bytes) dir : (forall name, fs !! (dir ++ "/" ++ name)%string = None) -> dir_entries fs dir = [].
Proof. intros Hno. apply elem_of_nil_inv. intros name [b Hb]%elem_of_dir_entries. by rewrite Hno in Hb. Qed.

Lemma make_directory_files path w s w' : make_directory path w = (s, w') -> w_files w' = w_files w.
Proof.
  unfold make_directory, next_ret. by destruct (w_oracle w) as [|[| | |] o]; intros [= <- <-].
Qed.

(** What a new database looks like. *)
Record new_database {R : Type} (seed : R) (o : Options) (dir : string) (c : contents) (d : @DB R) (e : Env) : Prop := {
  nd_session : session seed (mkSpec (fun _ => None) ∅ []) c d e;
  nd_empty : everything c = [];
  nd_options : db_options d = o;
  nd_path : db_path d = dir;
  nd_next : db_next_file_number d <= 3;
  nd_last : db_last_sequence d = 0;
  nd_error : db_bg_error d = Status.OK
}.

(** Under every outcome of the system calls: the directory stands for the empty
    map, and an open database is empty. *)
Lemma Open_fresh_any {R : Type} (rnd : R -> Z * R) (seed : R) o dir exists_ time w :
  writable o [] -> (forall name, w_files w !! (dir ++ "/" ++ name)%string = None) -> may_open o exists_ ->
  0 <= block_cache_bytes o < 2 ^ 62 ->
  exists s d e b, DB_Open rnd seed o dir exists_ time w = Some (s, d, e) /\ b <= 3 /\
    recovers dir o (w_files (e_world e)) b (fun _ => None) /\
    (if Status.ok s then exists d' c, d = Some d' /\ new_database seed o dir c d' e else d = None).
Proof.
  intros Hwr Hno Hmay Hc. assert (exists s0 w0, (if exists_ then (Status.OK, w) else make_directory dir w) = (s0, w0) /\ w_files w0 = w_files w)
    as (s0 & w0 & Hdir & F0).
  { destruct exists_; [by do 2 eexists|]. destruct (make_directory dir w) as [s0 w0] eqn:E. do 2 eexists. split; [done|]. by eapply make_directory_files. }
  pose proof (recoverable_fresh dir o (w_files w) Hwr Hno) as Hrc. rewrite <- F0 in Hrc.
  assert (recovers dir o (w_files w0) 1 (fun _ => None)) as Hr0 by (by do 5 eexists; split; [exact Hrc|]).
  unfold DB_Open. rewrite Hdir. unfold may_open in Hmay. assert (exists_ && error_if_exists o = false) as -> by (by destruct exists_).
  assert (negb exists_ && negb (create_if_missing o) = false) as -> by (destruct exists_; [done|by rewrite Hmay]).
  destruct (Status.ok s0) eqn:Hs0; cbn [negb]; cycle 1.
  { do 4 eexists. split_and!; [done| |exact Hr0|by rewrite Hs0]. lia. }
  destruct (Recover_any rnd seed dir o time new_Version 0 1 [] [] (replicate 6 []) (mkEnv w0 (new_block_cache o) ∅) Hrc)
    as (s & d & e & b & -> & Hb & Hrec & Hgood); [done|by intros n Hn; lia|done|left; cbn [e_world]; rewrite F0; by apply fresh_entries|
      intros truth; by apply new_cache_good|]. cbn [mbind option_bind]. destruct (Status.ok s) eqn:Hs; cbn [negb].
  - do 4 eexists. split_and!; [done|exact Hb|exact Hrec|]. simpl. exists d.
    destruct (Hgood eq_refl) as (truth & last & c & Hok & Hst & Hod & Hu & Hn & Hz). exists c. split; [done|]. split; try apply Hst.
    + by eapply settled_session.
    + by apply submseteq_nil_r, (st_shrinks _ _ _ _ _ _ _ _ _ Hst).
    + lia.
    + rewrite (st_last _ _ _ _ _ _ _ _ _ Hst). apply Hz; [done|]. cbn [e_world]. rewrite F0.
      change (ManifestPath dir) with (dir ++ "/" ++ "MANIFEST")%string. apply Hno.
  - do 4 eexists. split_and!; [done|exact Hb| |by rewrite Hs]. by rewrite destroy_files.
Qed.

(** ** Properties *)

Section Properties.
Context {R : Type} (rnd : R -> Z * R) (seed : R).

(** C4: Recovery restores the contents. For every directory that stands for a map
    [M] - a manifest with its tables, or none, and logs that may be torn, with
    versions possibly both in a log and in a table - opening it when no call
    fails succeeds with a database in use whose contents are [M]. *)
Theorem recovery_restores o dir exists_ time w bound M :
  recovers dir o (w_files w) bound M -> bound < 2 ^ 32 - 2 -> w_oracle w = [] -> 0 <= block_cache_bytes o < 2 ^ 62 ->
  may_open o exists_ ->
  exists d e c, DB_Open rnd seed o dir exists_ time w = Some (Status.OK, Some d, e) /\ session seed (mkSpec M ∅ []) c d e.
Proof.
  intros Hr Hb Ho Hc Hm. destruct (Open_recovers rnd seed o dir exists_ time w bound M Hr Hb Ho Hc Hm) as (d & e & c & H1 & H2 & _).
  by exists d, e, c.
Qed.


End Properties.

(** *** A directory with a log *)

(** The second record of the log is torn. *)
Definition torn_log : bytes :=
  take 40 (log_of [(1, [(kValue, [Byte.x61], [Byte.x31])]); (2, [(kValue, [Byte.x62], [Byte.x32])])]).
Definition torn_records : list record := [(1, [(kValue, [Byte.x61], [Byte.x31])])].
Definition torn_files : gmap string bytes := {[LogPath "db" 1 := torn_log]}.

Lemma torn_replays : replays torn_log torn_records.
Proof.
  intros St h path st. unfold torn_log. rewrite ReplayBuf_prefix; [|repeat constructor; vm_compute; done]. split; [done|].
  vm_compute complete_records. done.
Qed.

Lemma torn_recoverable :
  recoverable "db" default_Options torn_files new_Version 0 2 (logged torn_records) [] (replicate 6 []).
Proof.
  split; try done.
  - exists 1, 0. split_and!; try done; [|constructor..]. by right.
  - exists (fun _ => None). split; [apply new_Version_ok|done].
  - apply new_Version_describable.
  - constructor.
  - intros name n kind [b Hb] Hp. unfold torn_files in Hb. apply lookup_singleton_Some in Hb as [Hb _].
    apply (NumberedFile_name "db" 1 ".log" name) in Hb as ->. vm_compute in Hp. injection Hp as <- <-. done.
  - exists [torn_records]. split_and!; [done| |].
    + repeat constructor; vm_compute; done.
    + assert (live_logs "db" torn_files 0 = [1]) as -> by (vm_compute; done). constructor; [|constructor].
      exists torn_log. split; [apply lookup_singleton_eq|apply torn_replays].
  - apply NoDup_singleton.
  - repeat constructor.
  - intros x y Hx%list_elem_of_singleton Hy%list_elem_of_singleton _. congruence.
  - split; [repeat constructor|done|vm_compute; done|done|vm_compute; done].
  - repeat (split; [intros x y Hx; by apply elem_of_nil in Hx|]). done.
  - intros x y _ Hy. by apply elem_of_nil in Hy.
Qed.

Lemma recovery_restores_witness :
  exists d e c, DB_Open list_rnd [8; 3] default_Options "db" true 0 (mkWorld torn_files []) = Some (Status.OK, Some d, e) /\
    session [8; 3] (mkSpec (latest (logged torn_records)) ∅ []) c d e /\ latest (logged torn_records) [Byte.x61] = Some [Byte.x31].
Proof.
  destruct (recovery_restores list_rnd [8; 3] default_Options "db" true 0 (mkWorld torn_files []) 2 (latest (logged torn_records)))
    as (d & e & c & H1 & H2); [|done|done|done|done|].
  - eapply recoverable_recovers; [apply torn_recoverable|]. intros x. by rewrite app_nil_r.
  - exists d, e, c. split_and!; [done|done|]. vm_compute. done.
Defined.


(** *** What the conditions are for *)

Definition try_open (files : gmap string bytes) (oracle : list sysret) :=
  DB_Open list_rnd [8; 3] default_Options "db" true 0 (mkWorld files oracle).

(** What a reader finds after opening the directory when no call fails. *)
Definition find_after_open (key : bytes) (files : gmap string bytes) : option (Status * option bytes) :=
  '(_, d, e) ← try_open files []; d ← d;
  '(s, v, _, _) ← DB_Get default_ReadOptions key d e;
  Some (s, v).

(** A key is written to a new database; the database is closed and opened with
    the given outcomes, and again. *)
Definition write_and_reopen (oracle : list sysret) : option (Status * Status * (Status * option bytes)) :=
  '(_, d, e) ← try_open ∅ []; d ← d;
  '(s1, d, e) ← DB_Put list_rnd [8; 3] 3 2 0 0 default_WriteOptions [Byte.x61] [Byte.x31] d e;
  '(s2, _, e) ← try_open (w_files (e_world (destroy_DB d e))) oracle;
  r ← find_after_open [Byte.x61] (w_files (e_world e));
  Some (s1, s2, r).


(** The manifest names log 5 and no table; log 1 is from before it. *)
Definition stray_files : gmap string bytes :=
  <[ManifestPath "db" := manifest_bytes new_Version 5 6 2]>
  (<[LogPath "db" 1 := log_of [(1, [(kValue, [Byte.x61], [Byte.x31])])]]>
  (<[LogPath "db" 5 := log_of [(3, [(kValue, [Byte.x62], [Byte.x32])])]]> ∅)).

