(* ===== verification/System.v ===== *)
(** * The database refines a map with snapshots

    [exec] runs one call of the public interface on a database, with the outcomes
    of its system calls given in advance; a restart drops the process and opens
    the directory again. [spec_step] is what callers may rely on. Every call that
    fits the machine returns, and does what the specification allows. *)

From stdpp Require Import gmap strings.
From S2P Require Import Prelude Coding InternalKey Posix WriteBatch Wal Versions Iterator Skiplist MemTable Cache Block Merge DbIter Options Sstable Records Table Levels ReadPath Gc FileNames Manifest Db Flush Compaction Install Background Disk Session Write Upkeep Commit Recovery Restart.

Section System.
Context {R : Type} (rnd : R -> Z * R) (seed : R).
Abbreviation DB := (@DB R).
Abbreviation in_use := (in_use seed).
Abbreviation session := (session seed).

(** ** Calls *)

Inductive command :=
  | CWrite (first : Writer) (ws : list Writer)   (** a leader and the writers queued behind it *)
  | CGet (raw : option Z) (key : bytes)   (** at a live snapshot, or now *)
  | CSnapshot (raw : Z)
  | CRelease (raw : Z)
  | CTurn   (** a turn of the background thread *)
  | CFlush
  | CCompact
  | CRestart.

(** What a call is given besides its arguments: the outcomes of the system calls,
    the clock, and fuel for draining. *)
Record context := mkContext { x_oracle : list sysret; x_now : Z; x_after : Z; x_drain : nat }.

Definition result : Type := Status * option bytes * nat.   (** the number of writers served *)

Definition with_outcomes (oracle : list sysret) (e : Env) : Env :=
  mkEnv (with_oracle oracle (e_world e)) (e_cache e) (e_stats e).

Definition exec (cmd : command) (x : context) (d : DB) (e : Env) : option (result * DB * Env) :=
  let e := with_outcomes (x_oracle x) e in
  match cmd with
  | CWrite first ws =>
      '(s, retired, _, d, e) ← lead rnd seed 3 (x_drain x) (x_now x) (x_after x) first ws d e;
      Some (s, None, length retired, d, e)
  | CGet raw key =>
      let seq := match raw with Some raw => db_snapshots d !! raw | None => None end in
      '(s, v, d, e) ← DB_Get (mkReadOptions true true seq) key d e;
      Some (s, v, 0%nat, d, e)
  | CSnapshot raw => Some (Status.OK, None, 0%nat, GetSnapshot raw d, e)
  | CRelease raw => Some (Status.OK, None, 0%nat, ReleaseSnapshot (Some raw) d, e)
  | CTurn => '(d, e) ← BackgroundLoop_turn d e; Some (Status.OK, None, 0%nat, d, e)
  | CFlush => '(s, d, e) ← FlushMemTable seed (x_drain x) d e; Some (s, None, 0%nat, d, e)
  | CCompact => '(s, d, e) ← CompactAll seed (x_drain x) d e; Some (s, None, 0%nat, d, e)
  | CRestart =>
      '(s, d', e) ← DB_Open rnd seed (db_options d) (db_path d) true (x_now x) (e_world e);
      d ← d'; Some (s, None, 0%nat, d, e)
  end.

(** ** What they promise *)

(** The operations of the batches of a queue. *)
Definition queue_ops (ws : list Writer) (opss : list (list op)) : Prop :=
  Forall2 (fun w o => batch_repr (wr_batch w) o /\ o <> []) ws opss.

Inductive spec_step (A : Spec) : command -> result -> Spec -> Prop :=
| sp_wrote first ws opss k :
    queue_ops (first :: ws) opss -> (1 <= k <= length (first :: ws))%nat ->
    spec_step A (CWrite first ws) (Status.OK, None, k) (wrote (concat (take k opss)) A)
| sp_refused first ws s k :
    Status.ok s = false -> spec_step A (CWrite first ws) (s, None, k) A
| sp_in_doubt first ws opss s k :
    queue_ops (first :: ws) opss -> Status.ok s = false -> doubt A = [] ->
    spec_step A (CWrite first ws) (s, None, k) (failed (concat (take k opss)) A)
| sp_found key v : now A key = Some v -> spec_step A (CGet None key) (Status.OK, Some v, 0%nat) A
| sp_absent key : now A key = None -> spec_step A (CGet None key) (Status.NotFound "", None, 0%nat) A
| sp_found_then raw M key v :
    pinned A !! raw = Some M -> M key = Some v -> spec_step A (CGet (Some raw) key) (Status.OK, Some v, 0%nat) A
| sp_absent_then raw M key :
    pinned A !! raw = Some M -> M key = None -> spec_step A (CGet (Some raw) key) (Status.NotFound "", None, 0%nat) A
| sp_snapshot raw :
    spec_step A (CSnapshot raw) (Status.OK, None, 0%nat) (mkSpec (now A) (<[raw := now A]> (pinned A)) (doubt A))
| sp_release raw :
    spec_step A (CRelease raw) (Status.OK, None, 0%nat) (mkSpec (now A) (delete raw (pinned A)) (doubt A))
| sp_turn : spec_step A CTurn (Status.OK, None, 0%nat) A
| sp_flush s : spec_step A CFlush (s, None, 0%nat) A
| sp_compact s : spec_step A CCompact (s, None, 0%nat) A
| sp_restart M :
    (forall key, M key = now A key) \/ (forall key, M key = apply_ops (doubt A) (now A) key) ->
    spec_step A CRestart (Status.OK, None, 0%nat) (mkSpec M ∅ []).

(** What the machine must be able to hold. *)
Definition feasible (cmd : command) (x : context) (c : contents) (d : DB) : Prop :=
  let n := size (everything c) in
  match cmd with
  | CWrite first ws =>
      has_room seed (x_drain x) n d /\ exists opss, queue_ops (first :: ws) opss /\ storable c d first opss
  | CGet raw key =>
      benign false (x_oracle x) /\ size key + 8 < 2 ^ 32 /\
      match raw with Some raw => is_Some (db_snapshots d !! raw) | None => True end
  | CSnapshot raw => True
  | CRelease raw => True
  | CTurn => 0 < u64 (l0_compaction_trigger (db_options d)) /\ db_next_file_number d + n + 1 < 2 ^ 32 - 1
  | CFlush => affords seed (x_drain x) (drain_files n + 1) n d
  | CCompact => affords seed (x_drain x) (2 * drain_files n + 1) n d
  | CRestart =>
      x_oracle x = [] /\ db_next_file_number d < 2 ^ 32 - 2 /\ 0 <= block_cache_bytes (db_options d) < 2 ^ 62 /\
      error_if_exists (db_options d) = false
  end.

(** ** One call *)

Lemma session_outcomes A c d e oracle : session A c d e -> session A c d (with_outcomes oracle e).
Proof.
  intros [(truth & floor & Hok & [S1 S2 S3 S4 S5]) Hu]. split; [|done]. exists truth, floor. split; [|by split]. by apply ok_world.
Qed.

Lemma session_snapshot A c d e raw :
  session A c d e -> session (mkSpec (now A) (<[raw := now A]> (pinned A)) (doubt A)) c (GetSnapshot raw d) e.
Proof.
  intros [(truth & floor & Hok & [S1 S2 S3 S4 S5]) Hu]. split; [|done]. exists truth, floor. split.
  - destruct Hok as [Hok HL]. pose proof (ok_floor _ _ _ _ _ Hok). split; [|done]. split; try apply Hok. simpl.
    apply map_Forall_insert_2; [lia|apply Hok].
  - split; simpl; try done; [|intros Hb; by destruct (S4 Hb) as [[] ?]]. intros r. specialize (S2 r).
    destruct (decide (r = raw)) as [->|Hne]; [by rewrite !lookup_insert_eq|by rewrite !lookup_insert_ne].
Qed.

Lemma session_release A c d e raw :
  session A c d e -> session (mkSpec (now A) (delete raw (pinned A)) (doubt A)) c (ReleaseSnapshot (Some raw) d) e.
Proof.
  intros [(truth & floor & Hok & [S1 S2 S3 S4 S5]) Hu]. split; [|done]. exists truth, floor. split.
  - destruct Hok as [Hok HL]. split; [|done]. split; try apply Hok. simpl. apply map_Forall_delete, Hok.
  - split; simpl; try done; [|intros Hb; by destruct (S4 Hb) as [[] ?]]. intros r. specialize (S2 r).
    destruct (decide (r = raw)) as [->|Hne]; [by rewrite !lookup_delete_eq|by rewrite !lookup_delete_ne].
Qed.

Lemma use_restart A c d e :
  in_use A c d e ->
  exists M, recovers (db_path d) (db_options d) (w_files (e_world e)) (db_next_file_number d) M /\
    ((forall key, M key = now A key) \/ (forall key, M key = apply_ops (doubt A) (now A) key)).
Proof.
  intros (truth & floor & Hok & [S1 S2 S3 S4 S5]). destruct (Status.ok (db_bg_error d)) eqn:Hb; [|by apply S5].
  destruct (S4 eq_refl) as [Hod _]. eexists. split; [by eapply on_disk_now|]. left. intros key. by rewrite S1.
Qed.

(** A read answers from the map of its time. *)
Lemma session_get calm A c d e raw key :
  session A c d e -> benign calm (w_oracle (e_world e)) -> size key + 8 < 2 ^ 32 ->
  match raw with Some raw => is_Some (db_snapshots d !! raw) | None => True end ->
  exists s v d' e', DB_Get (mkReadOptions true true (match raw with Some raw => db_snapshots d !! raw | None => None end)) key d e =
    Some (s, v, d', e') /\ spec_step A (CGet raw key) (s, v, 0%nat) A /\ session A c d' e' /\ db_bg_error d' = db_bg_error d /\
    benign calm (w_oracle (e_world e')).
Proof.
  intros [(truth & floor & Hok & Hse) Hu] Ho Hk Hraw. set (opts := mkReadOptions true true _). pose proof (ok_last _ _ _ _ _ Hok) as Hlast.
  pose proof Hse as [S1 S2 S3 S4 S5].
  assert (0 <= read_seq opts d <= kMaxSequenceNumber) as Hseq.
  { unfold read_seq, opts. simpl. destruct raw as [raw|]; [|lia]. destruct Hraw as [s Hs]. rewrite Hs.
    pose proof (ok_snapshots _ _ _ _ _ Hok raw s Hs) as Hsn. simpl in Hsn. pose proof (ok_floor _ _ _ _ _ Hok). lia. }
  destruct (DB_Get_spec calm truth floor c d e opts key Hok Ho Hseq Hk) as (st & e' & Hg & Hok' & Hf & Ho').
  destruct (verdict (read (everything c) key (read_seq opts d))) as [s v] eqn:Ev. exists s, v. do 2 eexists. split; [exact Hg|]. split_and!; [| |done|done].
  - assert (exists M, match raw with Some raw => pinned A !! raw = Some M | None => M = now A end /\
      M key = value_of (read (everything c) key (read_seq opts d))) as (M & HM & HMk).
    { unfold read_seq, opts. simpl. destruct raw as [raw|]; [|by exists (now A)]. destruct Hraw as [q Hq]. rewrite Hq.
      specialize (S2 raw). rewrite Hq in S2. destruct (pinned A !! raw) as [M|]; [|done]. by exists M. }
    destruct (read (everything c) key (read_seq opts d)) as [[w|]|]; simpl in Ev, HMk; injection Ev as <- <-;
      (destruct raw; [|subst M]; by econstructor).
  - split; [|done]. exists truth, floor. split; [done|]. split; simpl; try done; rewrite Hf; [|exact S5]. intros Hb. by destruct (S4 Hb) as [[] ?].
Qed.

(** Nothing fails when no system call does. *)
Definition succeeds (cmd : command) (s : Status) : Prop :=
  match cmd with CGet _ _ => True | _ => s = Status.OK end.

Lemma upkeep_succeeds used c d e s c' d' e' :
  upkeep (R := R) used c d e s c' d' e' -> w_oracle (e_world e) = [] -> db_bg_error d = Status.OK ->
  s = Status.OK /\ db_bg_error d' = Status.OK.
Proof.
  intros Hup Ho Hb. destruct (up_calm _ _ _ _ _ _ _ _ Hup Ho Hb) as [-> _]. by rewrite (up_fine _ _ _ _ _ _ _ _ Hup).
Qed.

Lemma exec_spec A cmd x c d e :
  session A c d e -> feasible cmd x c d ->
  exists r d' e' A' c', exec cmd x d e = Some (r, d', e') /\ spec_step A cmd r A' /\ session A' c' d' e' /\
    (x_oracle x = [] -> db_bg_error d = Status.OK -> succeeds cmd r.1.1 /\ db_bg_error d' = Status.OK).
Proof.
  intros Hse Hf. pose proof (session_outcomes A c d e (x_oracle x) Hse) as Hx. unfold exec. set (e0 := with_outcomes _ e) in *. cbv zeta.
  destruct cmd as [first ws|raw key|raw|raw| | | |].
  - destruct Hf as (Haf & opss & Hq & Hsb).
    destruct (lead_spec rnd seed A c d e0 0 (x_drain x) (x_now x) (x_after x) first ws opss Hx Haf Hq Hsb)
      as (s & k & d' & e' & c' & -> & [L1 L2 L3 L4 L5 L6 L7 L8 L9 L10 L11]). cbn [mbind option_bind].
    simpl length in L1 |- *. rewrite length_map, length_take. replace (S ((k - 1) `min` length ws))%nat with k by lia.
    destruct (Status.ok s) eqn:Hs.
    + destruct (L9 eq_refl) as [-> Hse']. do 5 eexists. split_and!; [done|by econstructor|exact Hse'|].
      intros _ Hb. split; [done|]. rewrite L8; done.
    + assert (x_oracle x = [] -> db_bg_error d = Status.OK -> succeeds (CWrite first ws) s /\ db_bg_error d' = Status.OK) as Hcalm.
      { intros Ho Hb. destruct (L11 Ho Hb) as [-> _]. done. }
      destruct (L10 eq_refl) as [Hse'|(Hb & Hse' & _)]; do 5 eexists; (split_and!; [done| |exact Hse'|exact Hcalm]); [by constructor|].
      apply (sp_in_doubt _ _ _ opss); [done|done|]. destruct Hse as [(truth & floor & _ & Hseen) _]. by apply (se_disk _ _ _ _ _ Hseen Hb).
  - destruct Hf as (Ho & Hk & Hraw). destruct (session_get false A c d e0 raw key Hx Ho Hk Hraw) as (s & v & d' & e' & -> & Hst & Hse' & Hb' & _).
    do 5 eexists. split_and!; [done|exact Hst|exact Hse'|]. intros _ Hb. by rewrite Hb'.
  - do 5 eexists. split_and!; [done|constructor|by apply session_snapshot|done].
  - do 5 eexists. split_and!; [done|constructor|by apply session_release|done].
  - destruct Hf as [Ht Hn]. destruct Hx as [(truth & floor & Hok & Hseen) Hu].
    destruct (Status.ok (db_bg_error d) && HasPendingWork d) eqn:Ep.
    + apply andb_true_iff in Ep as [Hb Hp].
      destruct (loop_turn_seen seed A truth floor c d e0 Ht Hok Hseen Hb Hp Hn) as (s & d' & e' & truth' & c' & -> & Hok' & Hseen' & Hup & _).
      cbn [mbind option_bind]. do 5 eexists. split_and!; [done|constructor|split; [by exists truth', floor|exact (upkeep_unhooked _ _ _ _ _ _ _ _ Hup Hu)]|]. intros Ho Hbo. split; [done|].
      destruct (up_calm _ _ _ _ _ _ _ _ Hup Ho Hbo) as [-> _]. by rewrite (up_fine _ _ _ _ _ _ _ _ Hup).
    + unfold BackgroundLoop_turn. rewrite <- negb_andb, Ep. cbn [negb mbind option_bind].
      do 5 eexists. split_and!; [done|constructor|split; [by exists truth, floor|done]|done].
  - destruct (FlushMemTable_spec rnd seed A (x_drain x) c d e0 (proj1 Hx) Hf) as (s & d' & e' & c' & -> & Hse' & Hup & _). cbn [mbind option_bind].
    do 5 eexists. split_and!; [done|constructor|split; [exact Hse'|exact (upkeep_unhooked _ _ _ _ _ _ _ _ Hup (proj2 Hx))]|]. exact (upkeep_succeeds _ _ _ _ _ _ _ _ Hup).
  - destruct (CompactAll_spec rnd seed A (x_drain x) c d e0 (proj1 Hx) Hf) as (s & d' & e' & c' & -> & Hse' & Hup & _). cbn [mbind option_bind].
    do 5 eexists. split_and!; [done|constructor|split; [exact Hse'|exact (upkeep_unhooked _ _ _ _ _ _ _ _ Hup (proj2 Hx))]|]. exact (upkeep_succeeds _ _ _ _ _ _ _ _ Hup).
  - destruct Hf as (Ho & Hn & Hc & He). destruct (use_restart A c d e0 (proj1 Hx)) as (M & Hr & HM).
    destruct (Open_recovers rnd seed (db_options d) (db_path d) true (x_now x) (e_world e0) _ M Hr Hn Ho Hc He)
      as (d' & e' & c' & -> & Hse' & Hb & _). cbn [mbind option_bind].
    do 5 eexists. split_and!; [done|by constructor|exact Hse'|done].
Qed.

(** ** Any number of calls *)

(** The database holds the versions [c]. *)
Definition stores (c : contents) (d : DB) (e : Env) : Prop := exists truth floor, db_ok truth floor c d e.

(** As long as the next call is feasible it returns, and does what the
    specification says; [fine] tells that no system call has failed so far. *)
Fixpoint served (fine : bool) (calls : list (command * context)) (A : Spec) (c : contents) (d : DB) (e : Env) : Prop :=
  match calls with
  | [] => True
  | (cmd, x) :: calls =>
      feasible cmd x c d ->
      let fine := match x_oracle x with [] => fine | _ => false end in
      exists r d' e' A' c', exec cmd x d e = Some (r, d', e') /\ stores c' d' e' /\ spec_step A cmd r A' /\
        (fine = true -> succeeds cmd r.1.1) /\ served fine calls A' c' d' e'
  end.

Lemma session_stores A c d e : session A c d e -> stores c d e.
Proof. intros [(truth & floor & Hok & _) _]. by exists truth, floor. Qed.

Lemma session_served calls : forall fine A c d e,
  session A c d e -> (fine = true -> db_bg_error d = Status.OK) -> served fine calls A c d e.
Proof.
  induction calls as [|[cmd x] calls IH]; intros fine A c d e Hse Hfine; [done|]. cbn [served]. intros Hf.
  destruct (exec_spec A cmd x c d e Hse Hf) as (r & d' & e' & A' & c' & He & Hst & Hse' & Hcalm).
  exists r, d', e', A', c'. pose proof (session_stores _ _ _ _ Hse') as Hsto. destruct (x_oracle x) as [|y o].
  - split_and!; [done|done|done|intros H; by apply Hcalm, Hfine|]. apply IH; [done|]. intros H. by apply Hcalm, Hfine.
  - split_and!; [done|done|done|done|]. by apply IH.
Qed.


(** C3: A group of writes is atomic. Whatever the system calls do, the leader's
    turn ends; it retires a prefix of the queue with one status, and no follower
    that asked for a sync behind a leader that did not. On success exactly the
    batches of the prefix have been applied, in order; on failure none of them is
    seen, and recovery may find all of them or none. A calm system does not fail. *)
Theorem group_commit_atomic A c d e fuel drain t1 t2 first ws opss :
  session A c d e -> has_room seed drain (size (everything c)) d -> queue_ops (first :: ws) opss -> storable c d first opss ->
  exists s k d' e' c',
    lead rnd seed (S (S (S fuel))) drain t1 t2 first ws d e =
      Some (s, first :: map (fun w => mkWriter (wr_batch w) (wr_sync w) true s) (take (k - 1) ws), drop (k - 1) ws, d', e') /\
    (1 <= k <= length (first :: ws))%nat /\ Forall (fun w => wr_sync w = true -> wr_sync first = true) (take k (first :: ws)) /\
    (if Status.ok s then session (wrote (concat (take k opss)) A) c' d' e'
     else session A c' d' e' \/ session (failed (concat (take k opss)) A) c' d' e') /\
    (w_oracle (e_world e) = [] -> db_bg_error d = Status.OK -> s = Status.OK).
Proof.
  intros Hse Haf Hq Hsb. destruct (lead_spec rnd seed A c d e fuel drain t1 t2 first ws opss Hse Haf Hq Hsb)
    as (s & k & d' & e' & c' & -> & [L1 L2 L3 L4 L5 L6 L7 L8 L9 L10 L11]).
  exists s, k, d', e', c'. split_and!; [done|lia|lia|by apply L2| |intros Ho Hb; by apply L11].
  destruct (Status.ok s); [by apply L9|]. destruct (L10 eq_refl) as [|(_ & ? & _)]; auto.
Qed.

(** C9: Compacting on request ends and does it all. With enough fuel for the
    number of stored versions [CompactAll] returns under every outcome of the
    system calls, readers and recovery see no difference, and when it reports
    success the memtables are empty and no level is over its limit. A calm
    system succeeds. *)
Theorem compact_all_completes A drain c d e :
  let n := size (everything c) in
  session A c d e -> affords seed drain (2 * drain_files n + 1) n d ->
  exists s d' e' c', CompactAll seed drain d e = Some (s, d', e') /\ session A c' d' e' /\
    (Status.ok s = true -> c_mem c' = [] /\ db_imm d' = None /\ HasPendingWork d' = false) /\
    (w_oracle (e_world e) = [] -> db_bg_error d = Status.OK -> s = Status.OK).
Proof.
  intros n Hse Haf. destruct (CompactAll_spec rnd seed A drain c d e (proj1 Hse) Haf) as (s & d' & e' & c' & HC & Hse' & Hup & Hg).
  exists s, d', e', c'. split_and!; [done|split; [done|exact (upkeep_unhooked _ _ _ _ _ _ _ _ Hup (proj2 Hse))]| |intros Ho Hb; by apply (up_calm _ _ _ _ _ _ _ _ Hup)].
  intros Hs. destruct (Hg Hs) as (H1 & H2 & H3). split_and!; [done|done|]. unfold HasPendingWork. rewrite H2. by apply Z.leb_gt.
Qed.


End System.

(** ** A database to try it on *)

(** The default options, an empty directory, a random engine that repeats. *)
Lemma fresh_database :
  exists d e c, DB_Open list_rnd [8; 3] default_Options "db" false 0 (mkWorld ∅ []) = Some (Status.OK, Some d, e) /\
    session [8; 3] (mkSpec (fun _ => None) ∅ []) c d e /\ everything c = [] /\
    db_options d = default_Options /\ db_next_file_number d = 2 /\ db_last_sequence d = 0 /\ db_bg_error d = Status.OK /\
    w_oracle (e_world e) = [].
Proof.
  assert (writable default_Options []) as Hwr by (split; [constructor|done|done|done|done]).
  destruct (Open_calm list_rnd [8; 3] default_Options "db" false 0 (mkWorld ∅ []) _ _ _ _ _ _ (fun _ => None)
    (recoverable_fresh "db" default_Options ∅ Hwr ltac:(done))) as (d & e & c & HO & Hse & Hb & Hnil & _); [done|lia|done|done|done|].
  exists d, e, c. split; [done|]. split; [done|]. split; [by apply submseteq_nil_r|].
  clear Hse. vm_compute in HO. by injection HO as <- <-.
Qed.

Definition one_put : list op := [(kValue, [Byte.x61], [Byte.x31])].
Definition one_writer : Writer := new_Writer default_WriteOptions (WriteBatch.Put empty_batch [Byte.x61] [Byte.x31]).

Lemma one_queue : queue_ops [one_writer] [one_put].
Proof.
  constructor; [|constructor]. split; [|done]. by apply (Put_repr empty_batch [] [Byte.x61] [Byte.x31]); [apply empty_batch_repr|..].
Qed.

Lemma one_storable c (d : DB (R := list Z)) :
  everything c = [] -> db_options d = default_Options -> db_last_sequence d = 0 -> storable c d one_writer [one_put].
Proof.
  intros H1 H2 H3. split; rewrite ?H1, ?H2, ?H3; [vm_compute; done| |vm_compute; done].
  split; [repeat constructor|done|vm_compute; done|done|vm_compute; done].
Qed.

Lemma fresh_affords (d : DB (R := list Z)) used :
  db_options d = default_Options -> db_next_file_number d = 2 -> 0 <= used < 100 -> affords [8; 3] 2 used 0 d.
Proof. intros H1 H2 Hu. split; rewrite ?H1, ?H2; [vm_compute; done|vm_compute; done|vm_compute; done|]. change (drain_files 0) with 1. lia. Qed.

Lemma fresh_room (d : DB (R := list Z)) : db_options d = default_Options -> db_next_file_number d = 2 -> has_room [8; 3] 2 0 d.
Proof. intros H1 H2. split; rewrite ?H1, ?H2; vm_compute; done. Qed.


Lemma group_commit_atomic_witness :
  exists d e s k d' e' c', lead list_rnd [8; 3] 3 2 0 0 one_writer [] d e =
      Some (s, [one_writer], [], d', e') /\
    s = Status.OK /\ session [8; 3] (wrote (concat (take k [one_put])) (mkSpec (fun _ => None) ∅ [])) c' d' e'.
Proof.
  destruct fresh_database as (d & e & c & _ & Hse & Hnil & H1 & H2 & H3 & Hb & Ho).
  destruct (group_commit_atomic list_rnd [8; 3] _ c d e 0 2 0 0 one_writer [] [one_put] Hse)
    as (s & k & d' & e' & c' & He & _ & _ & Hout & Hcalm); [rewrite Hnil; by apply fresh_room|apply one_queue|by apply one_storable|].
  exists d, e, s, k, d', e', c'. rewrite take_nil, drop_nil in He. rewrite (Hcalm Ho Hb) in *. done.
Defined.

Lemma compact_all_completes_witness :
  exists d e d' e', CompactAll (R := list Z) [8; 3] 2 d e = Some (Status.OK, d', e') /\ HasPendingWork d' = false.
Proof.
  destruct fresh_database as (d & e & c & _ & Hse & Hnil & H1 & H2 & H3 & Hb & Ho).
  destruct (compact_all_completes list_rnd [8; 3] _ 2 c d e Hse) as (s & d' & e' & c' & HC & _ & Hg & Hcalm);
    [rewrite Hnil; by apply fresh_affords|].
  exists d, e, d', e'. rewrite (Hcalm Ho Hb) in *. split; [done|]. by apply Hg.
Defined.


(** ** A snapshot taken while a group is being written *)

(** A leader has reserved its sequence numbers and released the lock; another
    thread takes a snapshot, reads a key of the group at it, and reads the key
    again once the leader is done. *)
Definition snapshot_in_window : option ((Status * option bytes) * Status * (Status * option bytes)) :=
  '(_, d, e) ← DB_Open list_rnd [8; 3] default_Options "db" false 0 (mkWorld ∅ []); d ← d;
  let merged := wr_batch one_writer in
  let base := u64 (db_last_sequence d + 1) in
  let d := GetSnapshot 7 (reserve merged d) in
  let opts := mkReadOptions true true (db_snapshots d !! 7) in
  '(s1, v1, d, e) ← DB_Get opts [Byte.x61] d e;
  '(s, d, e) ← write_group list_rnd 0 0 false base merged d e;
  '(s2, v2, _, _) ← DB_Get opts [Byte.x61] d e;
  Some ((s1, v1), s, (s2, v2)).

