(* ===== verification/Text.v ===== *)
(** * Keys and values of the tools and benchmarks

    Numbered keys as [snprintf] prints them, and strings filled up to a length. *)

From Stdlib Require Import Ascii String.
From stdpp Require Import gmap strings.
From S2P Require Import Prelude FileNames.
Open Scope list_scope.

Definition text (l : chars) : bytes := map byte_of_ascii l.

(** [snprintf] into a buffer of [room] bytes: a word, and a number of at least
    [width] digits. *)
Definition print_numbered (room : nat) (word : string) (width : nat) (i : Z) : bytes :=
  text (take (room - 1) (list_ascii_of_string word ++ zero_padded width i)).

(** [std::string::resize]. *)
Definition resize (n : nat) (fill : byte) (b : bytes) : bytes := take n b ++ replicate (n - length b) fill.

(** ** Numbers can be told apart *)

Lemma text_inj a b : text a = text b -> a = b.
Proof.
  intros H. assert (Inj (=) (=) byte_of_ascii) as Hinj.
  { intros x y Hxy. by rewrite <- (ascii_of_byte_of_ascii x), Hxy, ascii_of_byte_of_ascii. }
  by apply (inj (fmap byte_of_ascii)) in H.
Qed.

Lemma print_numbered_fits room word width i :
  (1 <= width <= 20)%nat -> 0 <= i < 2 ^ 64 -> (length (list_ascii_of_string word) + 20 < room)%nat ->
  print_numbered room word width i = text (list_ascii_of_string word ++ zero_padded width i) /\
  (length (list_ascii_of_string word) + width <= length (print_numbered room word width i) <= length (list_ascii_of_string word) + 20)%nat.
Proof.
  intros Hw Hi Hr. destruct (zero_padded_spec width i Hw Hi) as (_ & _ & _ & Hl). unfold print_numbered.
  rewrite take_ge by (rewrite length_app; lia). unfold text. rewrite length_map, length_app. split; [done|lia].
Qed.

Lemma print_numbered_inj room word width i j :
  (1 <= width <= 20)%nat -> (length (list_ascii_of_string word) + 20 < room)%nat -> 0 <= i < 2 ^ 64 -> 0 <= j < 2 ^ 64 ->
  print_numbered room word width i = print_numbered room word width j -> i = j.
Proof.
  intros Hw Hr Hi Hj H. rewrite (proj1 (print_numbered_fits room word width i Hw Hi Hr)), (proj1 (print_numbered_fits room word width j Hw Hj Hr)) in H.
  apply text_inj, app_inv_head in H. apply (f_equal dec_value) in H.
  destruct (zero_padded_spec width i Hw Hi) as [Hv _]. destruct (zero_padded_spec width j Hw Hj) as [Hx _]. congruence.
Qed.

(** ** And are ordered as long as they fit *)

Lemma digit_range c : is_digit c = true -> 0 <= digit_value c <= 9.
Proof. unfold is_digit. lia. Qed.

Lemma dec_value_range l : Forall (fun c => is_digit c = true) l -> 0 <= dec_value l < 10 ^ Z.of_nat (length l).
Proof.
  induction 1 as [|c l Hc _ IH]; [by vm_compute|]. apply digit_range in Hc.
  unfold dec_value. cbn [fold_left length]. rewrite fold_value, Nat2Z.inj_succ, Z.pow_succ_r by lia. nia.
Qed.

(** Digit strings of one length are ordered as their values. *)
Lemma digits_order a : forall b,
  length a = length b -> Forall (fun c => is_digit c = true) a -> Forall (fun c => is_digit c = true) b ->
  dec_value a < dec_value b -> sv_compare (text a) (text b) < 0.
Proof.
  induction a as [|x a IH]; intros [|y b] Hl Ha Hb Hlt; try done.
  apply Forall_cons in Ha as [_ Ha], Hb as [_ Hb]. injection Hl as Hl.
  pose proof (dec_value_range a Ha). pose proof (dec_value_range b Hb). rewrite <- Hl in *.
  unfold dec_value in Hlt. cbn [fold_left] in Hlt. rewrite !fold_value in Hlt. rewrite <- Hl in Hlt.
  assert (forall c, byte.unsigned (byte_of_ascii c) = digit_value c + 48) as Hu by by intros [[] [] [] [] [] [] [] []].
  cbn [text map sv_compare]. rewrite !Hu.
  destruct (Z.ltb_spec (digit_value x + 48) (digit_value y + 48)); [lia|].
  destruct (Z.ltb_spec (digit_value y + 48) (digit_value x + 48)); [nia|].
  apply IH; try done. replace (digit_value x) with (digit_value y) in Hlt by lia. lia.
Qed.

Lemma sv_compare_app_l p a b : sv_compare (p ++ a) (p ++ b) = sv_compare a b.
Proof. induction p as [|x p IH]; [done|]. cbn [app sv_compare]. by rewrite Z.ltb_irrefl. Qed.

Lemma digits_short fuel : forall k n acc,
  0 <= n < 10 ^ Z.of_nat k -> (1 <= k <= fuel)%nat -> (length (digits fuel n acc) <= k + length acc)%nat.
Proof.
  induction fuel as [|fuel IH]; intros [|k] n acc Hn Hk; try lia. cbn [digits].
  destruct (Z.eqb_spec (n / 10) 0) as [Hz|Hz]; [simpl; lia|].
  assert (0 < n / 10 < 10 ^ Z.of_nat k) as Hd.
  { assert (0 <= n / 10) by (apply Z.div_pos; lia). split; [lia|].
    apply Z.div_lt_upper_bound; [lia|]. rewrite Nat2Z.inj_succ, Z.pow_succ_r in Hn by lia. lia. }
  assert (1 <= k)%nat by (destruct k; [simpl in Hd; lia|lia]).
  pose proof (IH k (n / 10) (digit_char (n mod 10) :: acc) ltac:(lia) ltac:(lia)). simpl in *. lia.
Qed.

Lemma zero_padded_width width n :
  (1 <= width <= 20)%nat -> 0 <= n < 2 ^ 64 -> n < 10 ^ Z.of_nat width -> length (zero_padded width n) = width.
Proof.
  intros Hw Hn Hs. destruct (zero_padded_spec width n Hw Hn) as (_ & _ & _ & Hl).
  pose proof (digits_short 20 width n [] ltac:(lia) ltac:(lia)) as Hd. unfold zero_padded in *.
  rewrite length_app, length_replicate in *. cbn [length] in Hd. lia.
Qed.

Lemma print_numbered_order room word width i j :
  (1 <= width <= 20)%nat -> (length (list_ascii_of_string word) + 20 < room)%nat -> 0 <= i < j -> j < 2 ^ 64 -> j < 10 ^ Z.of_nat width ->
  sv_compare (print_numbered room word width i) (print_numbered room word width j) < 0.
Proof.
  intros Hw Hr Hi Hj Hs.
  rewrite (proj1 (print_numbered_fits room word width i Hw ltac:(lia) Hr)), (proj1 (print_numbered_fits room word width j Hw ltac:(lia) Hr)).
  unfold text. rewrite !map_app, sv_compare_app_l.
  destruct (zero_padded_spec width i Hw ltac:(lia)) as (Vi & Di & _). destruct (zero_padded_spec width j Hw ltac:(lia)) as (Vj & Dj & _).
  apply digits_order; [|done|done|by rewrite Vi, Vj; lia]. by rewrite !zero_padded_width by lia.
Qed.
