(* ===== verification/Budget.v ===== *)
(** * What a run of calls uses

    Bounds on what a database stores and on the file numbers it has taken, through
    turns of the background thread and single writes, for clients that write small
    pairs. *)

From stdpp Require Import gmap strings.
From S2P Require Import Prelude Coding InternalKey Posix WriteBatch Wal Versions Iterator Skiplist MemTable Cache Block Merge DbIter Options Sstable Records Table Levels ReadPath Gc FileNames Manifest Db Flush Compaction Stats Install Background Disk Session Write Upkeep Commit Recovery Restart System.
Open Scope list_scope.

(** Pairs weigh at most this. *)
Definition heaviest : Z := 2000.

Section Budget.
Context {R : Type} (rnd : R -> Z * R) (seed : R).
Abbreviation DB := (@DB R).
Abbreviation in_use := (in_use seed).

(** Turns of the background thread. *)
Fixpoint background (turns : list (list sysret)) (d : DB) (e : Env) : option (DB * Env) :=
  match turns with
  | [] => Some (d, e)
  | oracle :: turns => '(d, e) ← BackgroundLoop_turn d (with_outcomes oracle e); background turns d e
  end.

(** What the options have to allow. *)
Record suits (o : Options) : Prop := {
  su_background : background_compaction o = true;
  su_trigger : 0 < u64 (l0_compaction_trigger o);
  su_memtable : ApproximateMemoryUsage (new_MemTable seed) <= memtable_size_bytes o;
  su_block : block_size_bytes o = 4096;
  su_bloom : bloom_bits_per_key o = 10
}.

Lemma light_writable o es : suits o -> Forall (fun x => weight x <= heaviest) es -> size es <= 2 ^ 32 -> writable o es.
Proof.
  intros [S1 S2 S3 S4 S5] Hf Hs. unfold heaviest in Hf. assert (total_weight es <= 2000 * size es) as Ht.
  { clear -Hf. induction Hf as [|x es Hx Hf IH]; [done|]. rewrite size_cons. simpl. lia. }
  split; rewrite ?S4, ?S5; [|lia..]. eapply Forall_impl; [exact Hf|]. intros x Hx. simpl in Hx. lia.
Qed.

(** At most [n] pairs were written; file numbers stay at or below [limit]. *)
Record sized (o : Options) (dir : string) (n limit : Z) (A : Spec) (c : contents) (d : DB) (e : Env) : Prop := {
  sz_use : in_use A c d e;
  sz_options : db_options d = o;
  sz_path : db_path d = dir;
  sz_count : size (everything c) <= n;
  sz_small : Forall (fun x => weight x <= heaviest) (everything c);
  sz_last : db_last_sequence d <= n;
  sz_next : db_next_file_number d <= limit
}.

Lemma sized_more o dir n limit limit' A c d e : limit <= limit' -> sized o dir n limit A c d e -> sized o dir n limit' A c d e.
Proof. intros Hl [Z1 Z2 Z3 Z4 Z5 Z6 Z7]. split; try done. lia. Qed.

Lemma sized_outcomes o dir n limit A c d e oracle :
  sized o dir n limit A c d e -> unhooked d -> sized o dir n limit A c d (with_outcomes oracle e).
Proof. intros [Z1 Z2 Z3 Z4 Z5 Z6 Z7] Hu. split; try done. by apply (session_outcomes seed A c d e oracle (conj Z1 Hu)). Qed.

(** What upkeep leaves. *)
Lemma sized_upkeep o dir n limit used A c d e s c' d' e' :
  sized o dir n limit A c d e -> upkeep used c d e s c' d' e' -> in_use A c' d' e' -> sized o dir n (limit + used) A c' d' e'.
Proof.
  intros [Z1 Z2 Z3 Z4 Z5 Z6 Z7] [U1 U2 U3 U4 U0 U5 U6 U7 U8] Hu. split; try congruence; try lia.
  - pose proof (size_submseteq _ _ U5). lia.
  - apply Forall_forall. intros x Hx. rewrite Forall_forall in Z5. by eapply Z5, elem_of_submseteq.
Qed.

(** ** The background thread *)

Lemma sized_turn o dir n limit A c d e oracle :
  0 < u64 (l0_compaction_trigger o) -> sized o dir n limit A c d e -> unhooked d -> limit + n + 1 < 2 ^ 32 - 1 ->
  exists c' d' e', BackgroundLoop_turn d (with_outcomes oracle e) = Some (d', e') /\ sized o dir n (limit + n + 1) A c' d' e' /\ unhooked d' /\
    (oracle = [] -> db_bg_error d = Status.OK -> db_bg_error d' = Status.OK).
Proof.
  intros Ht Hw Hu Hl. pose proof (sized_outcomes _ _ _ _ _ _ _ _ oracle Hw Hu) as Hw0. set (e0 := with_outcomes oracle e) in *.
  pose proof Hw0 as [(truth & floor & Hok & Hse) Z2 Z3 Z4 Z5 Z6 Z7]. pose proof (size_nonneg (everything c)).
  destruct (Status.ok (db_bg_error d) && HasPendingWork d) eqn:Ep.
  - apply andb_true_iff in Ep as [Hb Hp].
    destruct (loop_turn_seen seed A truth floor c d e0) as (s & d' & e' & truth' & c' & -> & Hok' & Hse' & Hup & _); [by rewrite Z2|done..|lia|].
    exists c', d', e'. split_and!; [done| |exact (upkeep_unhooked _ _ _ _ _ _ _ _ Hup Hu)|].
    + eapply (sized_more _ _ _ (limit + (size (everything c) + 1))); [lia|]. eapply sized_upkeep; [exact Hw0|exact Hup|by exists truth', floor].
    + intros Ho Hbo. by apply (upkeep_succeeds _ _ _ _ _ _ _ _ Hup).
  - unfold BackgroundLoop_turn. rewrite <- negb_andb, Ep. exists c, d, e0. split_and!; [done| |done|done]. eapply sized_more; [|done]. lia.
Qed.

Lemma sized_turns o dir n A turns : forall limit c d e,
  0 <= n -> 0 < u64 (l0_compaction_trigger o) -> sized o dir n limit A c d e -> unhooked d -> limit + size turns * (n + 1) < 2 ^ 32 - 1 ->
  exists c' d' e', background turns d e = Some (d', e') /\ sized o dir n (limit + size turns * (n + 1)) A c' d' e' /\ unhooked d' /\
    (Forall (fun oracle => oracle = []) turns -> db_bg_error d = Status.OK -> db_bg_error d' = Status.OK).
Proof.
  induction turns as [|oracle turns IH]; intros limit c d e H0 Ht Hw Hu Hl; cbn [background].
  { exists c, d, e. split_and!; [done| |done|done]. eapply sized_more; [|done]. change (size (@nil (list sysret))) with 0. lia. }
  rewrite size_cons in *. pose proof (size_nonneg turns).
  destruct (sized_turn o dir n limit A c d e oracle Ht Hw Hu) as (c1 & d1 & e1 & -> & Hw1 & Hu1 & Hb1); [nia|]. cbn [mbind option_bind].
  destruct (IH _ c1 d1 e1 H0 Ht Hw1 Hu1) as (c2 & d2 & e2 & -> & Hw2 & Hu2 & Hb2); [nia|]. exists c2, d2, e2. split_and!; [done| |done|].
  - eapply sized_more; [|exact Hw2]. nia.
  - intros [Ho Hos]%Forall_cons Hb. by apply Hb2, Hb1.
Qed.

(** ** One write *)

Definition put_batch (key value : bytes) : WriteBatch := WriteBatch.Put empty_batch key value.

(** A pair that is small enough. *)
Definition small_pair (key value : bytes) : Prop := 0 < size key <= 64 /\ size value <= 1800.

Lemma put_batch_repr key value : small_pair key value -> batch_repr (put_batch key value) [(kValue, key, value)].
Proof. intros [Hk Hv]. apply (Put_repr empty_batch []); [apply empty_batch_repr|lia|lia]. Qed.

Lemma put_weight seq key value : small_pair key value -> weight (version_of (seq, (kValue, key, value))) <= heaviest.
Proof. intros [Hk Hv]. unfold weight, version_of, heaviest. simpl. unfold EncodeInternalKey, PutFixed64. autorewrite with lsm. lia. Qed.

Lemma put_storable o dir n limit A c d e key value :
  suits o -> sized o dir n limit A c d e -> n < 2 ^ 32 -> small_pair key value ->
  storable c d (new_Writer default_WriteOptions (put_batch key value)) [[(kValue, key, value)]].
Proof.
  intros Hs [Z1 Z2 Z3 Z4 Z5 Z6 Z7] Hn Hp. assert (2 ^ 33 < kMaxSequenceNumber) by done. split; simpl.
  - change (size [(kValue, key, value)]) with 1. lia.
  - rewrite Z2. apply light_writable; [done| |rewrite size_cons; lia]. constructor; [|done]. by apply put_weight.
  - destruct Hp as [Hk Hv]. unfold ApproximateSize, put_batch, WriteBatch.Put, EncodeEntry. simpl.
    rewrite (PutVarint32_app (_ ++ key)), (PutVarint32_app [_]), !size_app.
    pose proof (size_PutVarint32 (u32 (size key)) ltac:(by apply Z.mod_pos_bound)).
    pose proof (size_PutVarint32 (u32 (size value)) ltac:(by apply Z.mod_pos_bound)).
    change (size [byte.of_Z 1]) with 1. lia.
Qed.

(** What a write that succeeds leaves. *)
Lemma sized_led o dir n limit used A c d e s c' d' e' key value ws :
  sized o dir n limit A c d e -> small_pair key value -> led seed A c d e ws [[(kValue, key, value)]] s 1 c' d' e' -> Status.ok s = true ->
  room_files o (size (everything c)) + 1 <= used ->
  sized o dir (n + 1) (limit + used) (wrote [(kValue, key, value)] A) c' d' e' /\ unhooked d'.
Proof.
  intros [Z1 Z2 Z3 Z4 Z5 Z6 Z7] Hp [L1 L2 L3 L4 L5 L6 L7 L8 L9 L10 L11] Hs Hu. rewrite Z2 in L6. simpl in L5, L7, L9.
  change (size [(kValue, key, value)]) with 1 in L5. destruct (L9 Hs) as [_ [Hu' Hh]]. split; [|done].
  split; try done; try congruence; try lia.
  - pose proof (size_submseteq _ _ L7) as Hsz. rewrite size_cons in Hsz. lia.
  - apply Forall_forall. intros x Hx. apply (elem_of_submseteq _ _ _ Hx), elem_of_cons in L7 as [->|Hin]; [by apply put_weight|].
    rewrite Forall_forall in Z5. by apply Z5.
Qed.

(** What a read leaves. *)
Lemma sized_read calm truth floor o dir n limit A c d e e' st :
  sized o dir n limit A c d e -> db_ok truth floor c d e -> seen seed A c d e -> env_inv calm truth (w_files (e_world e)) e' ->
  sized o dir n limit A c (with_db_stats st d) e'.
Proof.
  intros [Z1 Z2 Z3 Z4 Z5 Z6 Z7] Hok [S1 S2 S3 S4 S5] He. split; try done. exists truth, floor. split; [by eapply ok_read|].
  pose proof (env_files _ _ _ _ He) as Hf. split; simpl; try done; rewrite Hf; [|exact S5]. intros Hb. by destruct (S4 Hb) as [[] ?].
Qed.

(** A new database. *)
Lemma new_sized o dir c d e : new_database seed o dir c d e -> sized o dir 0 3 (mkSpec (fun _ => None) ∅ []) c d e /\ unhooked d.
Proof. intros [[N1 Hu] N2 N3 N4 N5 N6 N7]. split; [|done]. split; try done; rewrite ?N2, ?N6; done. Qed.

End Budget.
