(* ===== verification/Crash.v ===== *)
(** * The crash tests (tools/crash_worker.cpp, tools/crash_harness.cpp)

    The worker writes numbered keys to a new database and publishes how many
    writes were acknowledged; it is killed somewhere, or tears a record of its
    log and dies. The harness opens the directory again and checks that the keys
    found are a prefix of those written and contain all acknowledged ones.

    A run of the worker is given by what happens to it: the outcomes of its
    system calls, the turns its background thread gets between two writes, and
    where it is killed. A kill inside a call is a run of failing system calls from
    then on. Every round has a directory of its own. *)

From Stdlib Require Import Ascii String.
From stdpp Require Import gmap strings.
From S2P Require Import Prelude Coding InternalKey Posix WriteBatch Wal Versions Iterator Skiplist MemTable Cache Block Merge DbIter Options Sstable Records Table Levels ReadPath Gc FileNames Manifest Db Flush Compaction Stats Install Background Disk Session Write Upkeep Commit Recovery Restart System Text Budget.
Open Scope list_scope.

(** ** Keys and values *)

Definition crash_key (i : Z) : bytes := print_numbered 32 "key" 12 i.
Definition crash_value (i : Z) : bytes := resize 100 (byte_of_ascii "#") (print_numbered 64 "value" 12 i).

(** ** The worker *)

Definition crash_options (policy : SyncPolicy) (interval : Z) (background : bool) : Options :=
  mkOptions true false (64 * 1024) 4096 16 10 (Z.shiftl 8 20) 3 (512 * 1024) (256 * 1024) policy interval background true.

Definition worker_options (policy : string) : Options :=
  if String.eqb policy "every" then crash_options kEveryWrite 1000 true
  else if String.eqb policy "interval" then crash_options kInterval 5 true
  else crash_options kNever 1000 true.

(** The body of the hook; [draw] is what the generator returns. *)
Definition tear (draw : Z) (record : bytes) : bytes :=
  take (Z.to_nat (match record with [] => 0 | _ => draw mod size record end)) record.

(** What happens around one write. *)
Record moment := mkMoment {
  m_turns : list (list sysret);   (** turns of the background thread before it *)
  m_oracle : list sysret;
  m_now : Z;
  m_after : Z;
  m_killed : bool   (** between the return of [Put] and the store to the counter *)
}.

Section Crash.
Context {R : Type} (rnd : R -> Z * R) (seed : R).
Abbreviation DB := (@DB R).

Definition hooked (d : DB) : bool :=
  match db_log d with Some l => match hook_ l with Some _ => true | None => false end | None => false end.

(** [g_die_after_next_write]: the group took its sequence numbers, and its record
    went through a log that has the hook. *)
Definition hook_ran (d d' : DB) : bool := hooked d' && negb (db_last_sequence d' =? db_last_sequence d).

(** The exit status, the counter, and what is left. [None] is a kill between two
    calls; one inside a call shows as the failure it looks like to the code. *)
Definition worker_end : Type := option Z * Z * Env.

Fixpoint write_keys (num_writes tear_at draw : Z) (moments : list moment) (i acked : Z) (d : DB) (e : Env) : option worker_end :=
  if num_writes <=? i then Some (Some 0, acked, e)
  else
    match moments with
    | [] => Some (None, acked, e)
    | m :: moments =>
        '(d, e) ← background (m_turns m) d e;
        let d := if i =? tear_at then SetWalWriteHook (tear draw) d else d in
        '(put, d', e) ← DB_Put rnd seed 3 0 (m_now m) (m_after m) default_WriteOptions (crash_key i) (crash_value i) d
          (with_outcomes (m_oracle m) e);
        if hook_ran d d' then Some (Some 9, acked, e)
        else if negb (Status.ok put) then Some (Some 5, acked, destroy_DB d' e)
        else if m_killed m then Some (None, acked, e)
        else write_keys num_writes tear_at draw moments (i + 1) (i + 1) d' e
    end.

(** What happens to a worker: whether it gets its counter, the random numbers it
    draws, how opening goes, and the writes. *)
Record plan := mkPlan {
  p_mapped : bool;
  p_draws : Z * Z * Z;
  p_exists : bool;
  p_now : Z;
  p_oracle : list sysret;
  p_moments : list moment;
  p_read : bool;   (** the harness can read the counter *)
  p_found : bool;   (** and finds the directory *)
  p_later : Z
}.

Definition crash_worker (db_path policy : string) (num_writes : Z) (p : plan) (files : gmap string bytes) : option worker_end :=
  let w := mkWorld files (p_oracle p) in
  if negb (p_mapped p) then Some (Some 3, 0, mkEnv w None ∅)
  else
    '(s, db, e) ← DB_Open rnd seed (worker_options policy) db_path (p_exists p) (p_now p) w;
    if negb (Status.ok s) then Some (Some 4, 0, e)
    else
      d ← db;
      let '(first, second, third) := p_draws p in
      let tear_a_record := u32 first mod 3 =? 0 in
      let tear_at := if tear_a_record then u32 second mod Z.max 1 num_writes else u64 (num_writes + 1) in
      write_keys num_writes tear_at (u32 third) (p_moments p) 0 0 d e.

(** ** The harness *)

Definition PolicyName (i : Z) : string :=
  match i mod 3 with 0 => "every" | 1 => "interval" | _ => "never" end.

(** The first loop of [VerifyPrefix]; [more] is [upper_bound - i]. *)
Fixpoint find_prefix (more : nat) (i recovered : Z) (d : DB) (e : Env) : option (Z * string * DB * Env) :=
  match more with
  | O => Some (recovered, "", d, e)
  | S more =>
      '(s, value, d, e) ← DB_Get default_ReadOptions (crash_key i) d e;
      if Status.IsNotFound s then Some (recovered, "", d, e)
      else if negb (Status.ok s) then Some (-1, "read error at key " ++ decimal i ++ ": " ++ Status.ToString s, d, e)
      else if bool_decide (default [] value <> crash_value i) then Some (-1, "value mismatch at key " ++ decimal i, d, e)
      else find_prefix more (i + 1) (i + 1) d e
  end%string.

(** The second loop. *)
Fixpoint find_hole (more : nat) (i recovered : Z) (d : DB) (e : Env) : option (Z * string * DB * Env) :=
  match more with
  | O => Some (recovered, "", d, e)
  | S more =>
      '(s, _, d, e) ← DB_Get default_ReadOptions (crash_key i) d e;
      if Status.ok s then
        Some (-1, "hole in recovered range: key " ++ decimal recovered ++ " missing but key " ++ decimal i ++ " present", d, e)
      else find_hole more (i + 1) recovered d e
  end%string.

Definition VerifyPrefix (upper_bound : Z) (d : DB) (e : Env) : option (Z * string * DB * Env) :=
  '(recovered, error, d, e) ← find_prefix (Z.to_nat upper_bound) 0 0 d e;
  if recovered <? 0 then Some (recovered, error, d, e)
  else find_hole (Z.to_nat (Z.min upper_bound (u64 (recovered + 64)) - recovered)) recovered recovered d e.

Inductive round_result :=
  | ReopenFailed (s : Status)
  | Violated (error : string)
  | Lost (acked recovered : Z)
  | Passed (acked recovered : Z).

Definition judge (db_path : string) (writes : Z) (p : plan) (acked : Z) (w : World) : option round_result :=
  '(s, db, e) ← DB_Open rnd seed (crash_options kEveryWrite 1000 false) db_path (p_found p) (p_later p) (with_oracle [] w);
  if negb (Status.ok s) then Some (ReopenFailed s)
  else
    d ← db;
    '(recovered, error, _, _) ← VerifyPrefix writes d e;
    if recovered <? 0 then Some (Violated error)
    else if recovered <? acked then Some (Lost acked recovered)
    else Some (Passed acked recovered).

(** The counters of the harness that its result depends on. *)
Record tally := mkTally { failures : Z; total_acked : Z; total_recovered : Z }.

Definition count_round (v : round_result) (t : tally) : tally :=
  match v with
  | Passed acked recovered => mkTally (failures t) (u64 (total_acked t + acked)) (u64 (total_recovered t + recovered))
  | _ => mkTally (failures t + 1) (total_acked t) (total_recovered t)
  end.

(** One round; a counter that cannot be read counts as 0. *)
Definition crash_round (scratch_dir : string) (writes : Z) (round : Z) (p : plan) (t : tally) : option tally :=
  let db_path := (scratch_dir ++ "/db" ++ decimal round)%string in
  '(_, acked, e) ← crash_worker db_path (PolicyName round) writes p ∅;
  v ← judge db_path writes p (if p_read p then acked else 0) (e_world e);
  Some (count_round v t).

Fixpoint crash_rounds (scratch_dir : string) (writes : Z) (round : Z) (plans : list plan) (t : tally) : option tally :=
  match plans with
  | [] => Some t
  | p :: plans => t ← crash_round scratch_dir writes round p t; crash_rounds scratch_dir writes (round + 1) plans t
  end.

(** The exit status of the harness, once its arguments are read and the scratch
    directory is there; its workers can be started. *)
Definition crash_harness (scratch_dir : string) (writes : Z) (plans : list plan) : option Z :=
  t ← crash_rounds scratch_dir writes 0 plans (mkTally 0 0 0);
  Some (if 0 <? failures t then 1 else 0).

End Crash.

(** ** Keys are distinct *)

Lemma crash_key_inj i j : 0 <= i < 2 ^ 64 -> 0 <= j < 2 ^ 64 -> crash_key i = crash_key j -> i = j.
Proof. intros Hi Hj. apply print_numbered_inj; simpl; lia. Qed.

Lemma crash_sizes i : 0 <= i < 2 ^ 64 -> 0 < size (crash_key i) <= 23 /\ size (crash_value i) = 100.
Proof.
  intros Hi. destruct (print_numbered_fits 32 "key" 12 i ltac:(lia) Hi ltac:(simpl; lia)) as [_ Hk].
  destruct (print_numbered_fits 64 "value" 12 i ltac:(lia) Hi ltac:(simpl; lia)) as [_ Hv].
  change (length (list_ascii_of_string "key")) with 3%nat in Hk. change (length (list_ascii_of_string "value")) with 5%nat in Hv.
  unfold crash_key, crash_value, resize, size. rewrite length_app, length_take, length_replicate. lia.
Qed.

(** What the database holds after [n] writes. *)
Definition put_op (i : Z) : op := (kValue, crash_key i, crash_value i).

Fixpoint written_keys (n : nat) : Map :=
  match n with O => fun _ => None | S n => apply_ops [put_op (Z.of_nat n)] (written_keys n) end.

Lemma written_keys_lookup n j :
  Z.of_nat n < 2 ^ 64 -> 0 <= j < 2 ^ 64 -> written_keys n (crash_key j) = if j <? Z.of_nat n then Some (crash_value j) else None.
Proof.
  intros Hn Hj. induction n as [|n IH]; [by destruct (Z.ltb_spec j (Z.of_nat 0)); [lia|]|]. cbn [written_keys apply_ops fold_left apply_op1 put_op].
  destruct (sv_eqb (crash_key (Z.of_nat n)) (crash_key j)) eqn:E.
  - apply sv_eqb_true, crash_key_inj in E; [|lia..]. subst j. by destruct (Z.ltb_spec (Z.of_nat n) (Z.of_nat (S n))); [|lia].
  - apply sv_eqb_false in E. assert (j <> Z.of_nat n) by (by intros ->). rewrite IH by lia.
    destruct (Z.ltb_spec j (Z.of_nat n)), (Z.ltb_spec j (Z.of_nat (S n))); done || lia.
Qed.

(** ** A torn record *)

Lemma tear_proper draw r : 0 <= draw -> exists cut, tear draw (record_of r) ++ cut = record_of r /\ cut <> [].
Proof.
  intros Hd. pose proof (record_of_length r) as Hl. exists (drop (length (tear draw (record_of r))) (record_of r)). unfold tear.
  destruct (record_of r) as [|x b] eqn:E; [simpl in Hl; lia|]. rewrite <- E in *.
  assert (0 <= draw mod size (record_of r) < size (record_of r)) as Hm by (apply Z.mod_pos_bound; unfold size; lia).
  unfold size in *. rewrite length_take_le by lia. split; [apply take_drop|]. intros H. apply (f_equal length) in H. rewrite length_drop in H. simpl in H. lia.
Qed.

Section CrashProof.
Context {R : Type} (rnd : R -> Z * R) (seed : R).
Abbreviation DB := (@DB R).
Abbreviation db_ok := (@db_ok R).
Abbreviation seen := (seen seed).
Abbreviation in_use := (in_use seed).

(** The log has the worker's hook. *)
Definition tearing (d : DB) : Prop := exists l draw, db_log d = Some l /\ hook_ l = Some (tear draw) /\ 0 <= draw.

Lemma tearing_hooked d : tearing d -> hooked d = true.
Proof. intros (l & draw & Hl & Hh & _). unfold hooked. by rewrite Hl, Hh. Qed.

Lemma unhooked_hooked (d : DB) : unhooked d -> hooked d = false.
Proof. unfold unhooked, hooked. destruct (db_log d) as [l|]; [|done]. by intros ->. Qed.

(** A group whose record is torn: what was there before is still there. *)
Lemma torn_group A truth floor c d e t1 t2 sync merged ops :
  db_ok truth floor c d e -> seen A c d e -> Status.ok (db_bg_error d) = true -> tearing d -> addable c d ops -> batch_repr merged ops ->
  exists s d' e', commit_group rnd t1 t2 sync merged d e = Some (s, d', e') /\ hooked d' = true /\
    db_last_sequence d' = db_last_sequence d + size ops /\
    recovers (db_path d) (db_options d) (w_files (e_world e')) (db_next_file_number d) (now A).
Proof.
  intros Hok Hse Hb (l & draw & Hlog & Hhook & Hdraw) Had Hrep. destruct (se_disk _ _ _ _ _ Hse Hb) as [Hod _]. pose proof Had as [A1 A2 A3 A4 A5].
  pose proof (ok_last _ _ _ _ _ Hok) as Hl. assert (kMaxSequenceNumber < 2 ^ 64) as HK by done. pose proof (size_nonneg ops) as Hsz.
  pose proof (record_wf_count _ A3) as Hcount. simpl in Hcount.
  destruct (od_writer _ _ _ Hod) as (l0 & Hl0 & Hfd). rewrite Hlog in Hl0. injection Hl0 as <-.
  destruct (od_mem _ _ _ Hod) as (rs & b & Hf & -> & Hrf & Hrs).
  unfold commit_group, write_group, reserve. cbn [db_log with_last_sequence]. rewrite Hlog. cbn [mbind option_bind]. cbv zeta.
  unfold Count. rewrite (br_count _ _ Hrep), (u32_id (size ops)), !u64_id by lia.
  set (sync' := ShouldSyncNow _ _ _). clearbody sync'.
  destruct (AddRecord _ _ _ _) as [[s1 l'] w1] eqn:E1.
  destruct (AddRecord_torn _ _ _ _ _ _ _ _ _ _ _ (fits_wf _ Hrf) A3 Hrep A1 Hfd Hhook Hf (tear_proper draw _ Hdraw) E1) as (T & F1 & F2 & f & Hff & Hre).
  destruct (if Status.ok s1 && sync' then Sync l' w1 else (s1, w1)) as [s2 w2] eqn:E2.
  assert (touches (LogPath (db_path d) (db_log_number d)) (e_world e) w2 /\ w_files w2 = w_files w1) as [T2 W2].
  { destruct (Status.ok s1 && sync'); [|by injection E2 as <- <-]. destruct (Sync_files _ _ _ _ E2) as [Hw Ho]. split; [|done].
    etrans; [exact T|]. split; [by rewrite Hw|]. intros Ho1. apply Ho; [by rewrite F1, Hfd|done]. }
  destruct (group_lost seed A truth floor c d e ops l' w2 Hok Hse Hb A4 T2 ltac:(by rewrite F1)) as (_ & _ & Hlost).
  specialize (Hlost ltac:(exists rs, f; rewrite W2; by split_and!)).
  destruct (if Status.ok s2 then _ else _) as [s3 [n [mem ub]]].
  assert (forall d' : DB, db_log d' = Some l' -> hooked d' = true) as Hhd by (intros d' Hd; unfold hooked; by rewrite Hd, F2, Hhook).
  destruct (Status.ok s3); do 3 eexists; (split; [done|]); split_and!; try exact Hlost; try apply Hhd; by destruct sync'.
Qed.

(** Installing the hook changes nothing else. *)
Lemma hook_in_use A c d e draw :
  in_use A c d e -> in_use A c (SetWalWriteHook (tear draw) d) e.
Proof.
  unfold SetWalWriteHook. destruct (db_log d) as [l|] eqn:Hlog; [|done]. intros (truth & floor & Hok & Hse). exists truth, floor.
  split; [by same_db Hok|]. destruct Hse as [S1 S2 S3 S4 S5]. split; try done. intros Hb. destruct (S4 Hb) as [[M W N L I O D Ti] Hd].
  split; [|done]. split; try done. destruct W as (l0 & Hl0 & Hfd). rewrite Hlog in Hl0. injection Hl0 as <-. by eexists.
Qed.

(** ** The state of the worker *)

(** [n] keys are written. *)
Record writing (o : Options) (dir : string) (n : nat) (limit : Z) (A : Spec) (c : contents) (d : DB) (e : Env) : Prop := {
  wg_sized : sized seed o dir (Z.of_nat n) limit A c d e;
  wg_now : forall key, now A key = written_keys n key;
  wg_doubt : doubt A = []
}.

(** The directory stands for the first [n] keys. *)
Definition stands_for (o : Options) (dir : string) (n : nat) (limit : Z) (e : Env) : Prop :=
  exists b, b <= limit /\ recovers dir o (w_files (e_world e)) b (written_keys n).

Lemma writing_stands o dir n limit A c d e : writing o dir n limit A c d e -> stands_for o dir n limit e.
Proof.
  intros [[W1 W4 W5 W6 W7 W8 W9] W2 W3]. destruct (use_restart seed A c d e W1) as (M & Hr & HM). rewrite W4, W5 in Hr. eexists. split; [exact W9|].
  eapply recovers_ext; [exact Hr|]. intros key. rewrite <- W2. destruct HM as [HM|HM]; rewrite HM; [done|]. by rewrite W3.
Qed.

(** ** One write *)

Abbreviation put_key i := (put_batch (crash_key i) (crash_value i)).

Lemma crash_small i : 0 <= i < 2 ^ 64 -> small_pair (crash_key i) (crash_value i).
Proof. intros Hi. pose proof (crash_sizes i Hi). unfold small_pair. lia. Qed.

(** A process that stops in this state leaves the keys, with or without the one
    in doubt. *)
Lemma use_stands o dir n limit A c d e :
  in_use A c d e -> (forall key, now A key = written_keys n key) -> doubt A = [] \/ doubt A = [put_op (Z.of_nat n)] ->
  db_options d = o -> db_path d = dir -> db_next_file_number d <= limit -> exists m, (n <= m <= S n)%nat /\ stands_for o dir m limit e.
Proof.
  intros Hu Hn Hd <- <- Hl. destruct (use_restart seed A c d e Hu) as (M & Hr & HM).
  assert (exists m, (n <= m <= S n)%nat /\ forall key, M key = written_keys m key) as (m & Hm & Heq).
  { destruct HM as [HM|HM]; [exists n; split; [lia|]; intros key; by rewrite HM|]. destruct Hd as [Hd|Hd]; rewrite Hd in HM.
    - exists n. split; [lia|]. intros key. by rewrite HM, <- Hn.
    - exists (S n). split; [lia|]. intros key. rewrite HM. cbn [written_keys]. by apply apply_ops_ext. }
  exists m. split; [done|]. eexists. split; [exact Hl|]. by eapply recovers_ext.
Qed.

(** The state after making room: the hook is gone, or it is where it was. *)
Lemma room_hook used c (d : DB) e s c' d' e' :
  upkeep used c d e s c' d' e' -> unhooked d \/ tearing d -> unhooked d' \/ tearing d'.
Proof.
  intros Hup Hh. destruct (up_log _ _ _ _ _ _ _ _ Hup) as [Hl|]; [|by left]. unfold unhooked, tearing in *. by rewrite Hl.
Qed.

(** What a write by the worker can lead to: the process goes on with one more
    key, or it ends and leaves the keys, with or without the last. *)
Definition put_outcome (o : Options) (dir : string) (n : nat) (limit : Z) (d : DB) (s : Status) (d' : DB) (e' : Env) : Prop :=
  if hook_ran d d' || negb (Status.ok s) then exists m, (n <= m <= S n)%nat /\ stands_for o dir m limit e'
  else unhooked d' /\ exists A' c', writing o dir (S n) limit A' c' d' e'.

(** Without the hook. *)
Lemma served_outcome o dir n limit used A c d e s c' d' e' :
  writing o dir n limit A c d e -> Z.of_nat n < 2 ^ 32 ->
  led seed A c d e [new_Writer default_WriteOptions (put_key (Z.of_nat n))] [[put_op (Z.of_nat n)]] s 1 c' d' e' ->
  room_files o (size (everything c)) + 1 <= used -> put_outcome o dir n (limit + used) d s d' e'.
Proof.
  intros [Hsz W2 W3] Hn Hled Hu. pose proof (crash_small (Z.of_nat n) ltac:(lia)) as Hp. unfold put_outcome, hook_ran.
  destruct (Status.ok s) eqn:Hs; cbn [negb]; rewrite ?orb_true_r, ?orb_false_r.
  - destruct (sized_led seed _ _ _ _ _ _ _ _ _ _ _ _ _ _ _ _ Hsz Hp Hled Hs Hu) as [Hsz' Hh].
    rewrite (unhooked_hooked _ Hh). cbn [andb]. split; [done|]. exists (wrote [put_op (Z.of_nat n)] A), c'.
    split; [by replace (Z.of_nat (S n)) with (Z.of_nat n + 1) by lia| |done].
    intros key. by apply (apply_ops_ext [put_op (Z.of_nat n)] (now A) (written_keys n)).
  - destruct Hsz as [W1 W4 W5 W6 W7 W8 W9]. destruct Hled as [L1 L2 L3 L4 L5 L6 L7 L8 L9 L10 L11]. rewrite W4 in L6. simpl in L10.
    destruct (L10 Hs) as [[Hu' _]|(_ & [Hu' _] & _)]; (eapply use_stands; [exact Hu'|exact W2|simpl; auto|congruence|congruence|lia]).
Qed.

(** With it. *)
Lemma torn_outcome o dir n limit truth floor A c d c1 d1 e1 t1 t2 :
  db_ok truth floor c1 d1 e1 -> seen A c1 d1 e1 -> Status.ok (db_bg_error d1) = true -> tearing d1 ->
  writing o dir n limit A c1 d1 e1 -> db_last_sequence d1 = db_last_sequence d -> 0 <= db_last_sequence d ->
  everything c1 ⊆+ everything c -> db_options d = o ->
  let first := new_Writer default_WriteOptions (put_key (Z.of_nat n)) in
  storable c d first [[put_op (Z.of_nat n)]] -> Z.of_nat n < 2 ^ 32 ->
  exists s d' e', ('(s, _, _, d, e) ←
      (let '(covered, merged) := BuildBatchGroup first [] in
       '(s, d, e) ← commit_group rnd t1 t2 (wr_sync first) merged d1 e1;
       let '(retired, queue) := retire covered s [first] in Some (s, retired, queue, d, e)); Some (s, d, e)) = Some (s, d', e') /\
    put_outcome o dir n limit d s d' e'.
Proof.
  intros Hok Hse Hb Ht Hw Hlast Hl0 Hsub Ho first Hsb Hn. pose proof Hw as [[W1 W4 W5 W6 W7 W8 W9] W2 W3].
  destruct (BuildBatchGroup_spec first [] [put_op (Z.of_nat n)] []) as (k & Hk1 & Hk2 & Hk3 & Hk4 & _); [apply put_batch_repr, crash_small; lia|constructor|].
  destruct (BuildBatchGroup first []) as [covered merged]. simpl in Hk1, Hk2, Hk3, Hk4. replace k with 0%nat in * by lia. subst covered. simpl in Hk3.
  assert (addable c1 d1 [put_op (Z.of_nat n)]) as Had.
  { apply (storable_addable c d c1 d1 first [[put_op (Z.of_nat n)]] 1 merged); try done; congruence. }
  destruct (torn_group A truth floor c1 d1 e1 t1 t2 (wr_sync first) merged [put_op (Z.of_nat n)] Hok Hse Hb Ht Had Hk3)
    as (s & d' & e' & -> & Hh & Hl & Hr). cbn [mbind option_bind retire]. do 3 eexists. split; [done|]. unfold put_outcome, hook_ran.
  rewrite Hh, Hl, Hlast. change (size [put_op (Z.of_nat n)]) with 1. destruct (Z.eqb_spec (db_last_sequence d + 1) (db_last_sequence d)); [lia|].
  cbn [negb andb orb]. exists n. split; [lia|]. rewrite W4, W5 in Hr. eexists. split; [exact W9|]. by eapply recovers_ext.
Qed.

Lemma put_step o dir n limit A c d e t1 t2 :
  suits seed o -> writing o dir n limit A c d e -> unhooked d \/ tearing d -> Z.of_nat n < 2 ^ 32 -> limit + Z.of_nat n + 2 < 2 ^ 32 - 1 ->
  exists s d' e', DB_Put rnd seed 3 0 t1 t2 default_WriteOptions (crash_key (Z.of_nat n)) (crash_value (Z.of_nat n)) d e = Some (s, d', e') /\
    put_outcome o dir n (limit + (Z.of_nat n + 2)) d s d' e'.
Proof.
  intros Hsu Hw Hh Hn Hl. pose proof Hw as [[W1 W4 W5 W6 W7 W8 W9] W2 W3]. destruct W1 as (truth & floor & Hok & Hse). pose proof Hsu as [S1 S2 S3 S4 S5].
  pose proof (crash_small (Z.of_nat n) ltac:(lia)) as Hp.
  pose proof (put_storable seed o dir _ limit A c d e _ _ Hsu (wg_sized _ _ _ _ _ _ _ _ Hw) Hn Hp) as Hsb. pose proof (ok_last _ _ _ _ _ Hok) as Hlast.
  assert (room_files (db_options d) (size (everything c)) = size (everything c) + 1) as Hrf by (unfold room_files; by rewrite W4, S1).
  unfold DB_Put, DB_Write. change (WriteBatch.empty _) with false. cbn iota. fold (put_key (Z.of_nat n)). unfold lead.
  destruct (room_spec rnd seed A truth floor c d e 0 0 Hok Hse) as (s & d1 & e1 & truth1 & c1 & -> & Hok1 & Hse1 & Hup & Hb1).
  { split; rewrite ?Hrf, ?W4; [done|done|congruence|lia]. }
  cbn [mbind option_bind]. pose proof (put_batch_repr _ _ Hp) as Hrep. set (first := new_Writer _ _) in *.
  destruct (room_hook _ _ _ _ _ _ _ _ Hup Hh) as [Hu1|Ht1].
  { destruct (serve_spec rnd seed A truth1 floor c d e c1 d1 e1 s t1 t2 first [] [[put_op (Z.of_nat n)]]) as (s' & k & d' & e' & c' & -> & Hled);
      [done|done|done|done|done|lia|by constructor|done|]. cbn [mbind option_bind]. do 3 eexists. split; [done|].
    assert (k = 1%nat) as -> by (pose proof (le_covered _ _ _ _ _ _ _ _ _ _ _ _ Hled); simpl in *; lia).
    eapply served_outcome; [exact Hw|done|exact Hled|]. rewrite <- W4. lia. }
  assert (in_use A c1 d1 e1) as Huse1 by (by exists truth1, floor).
  assert (writing o dir n (limit + (Z.of_nat n + 2)) A c1 d1 e1) as Hw1.
  { split; [|done|done]. pose proof (sized_upkeep seed _ _ _ _ _ _ _ _ _ _ _ _ _ (wg_sized _ _ _ _ _ _ _ _ Hw) Hup Huse1) as Hz.
    rewrite Hrf in Hz. eapply sized_more; [|exact Hz]. lia. }
  pose proof (up_last _ _ _ _ _ _ _ _ Hup) as Hl1. unfold serve. destruct (Status.ok s) eqn:Hs.
  - eapply (torn_outcome o dir n _ truth1 floor A c d c1 d1 e1); [done|done|by apply Hb1|done|exact Hw1|done|lia|apply Hup|done|done|done].
  - do 3 eexists. split; [done|]. unfold put_outcome. rewrite Hs, orb_true_r. exists n. split; [lia|]. by eapply writing_stands.
Qed.

(** ** The worker *)

(** A bound for the file numbers that the moments can take. *)
Fixpoint cost (writes : Z) (moments : list moment) : Z :=
  match moments with
  | [] => 0
  | m :: moments => (size (m_turns m) + 1) * (writes + 1) + 1 + cost writes moments
  end.

Lemma cost_nonneg writes moments : 0 <= writes -> 0 <= cost writes moments.
Proof. intros Hw. induction moments as [|m moments IH]; simpl; [lia|]. pose proof (size_nonneg (m_turns m)). nia. Qed.

Lemma hook_writing o dir n limit A c d e (i tear_at draw : Z) :
  0 <= draw -> writing o dir n limit A c d e -> unhooked d ->
  let d' := if i =? tear_at then SetWalWriteHook (tear draw) d else d in
  writing o dir n limit A c d' e /\ (unhooked d' \/ tearing d').
Proof.
  intros Hd Hw Hu d'. unfold d'. destruct (i =? tear_at); [|by auto]. split.
  - destruct Hw as [[W1 W4 W5 W6 W7 W8 W9] W2 W3]. pose proof (hook_in_use A c d e draw W1) as Hx. unfold SetWalWriteHook in *. by destruct (db_log d); split; try split.
  - unfold SetWalWriteHook. destruct (db_log d) as [l|] eqn:El; [|by left]. right. by exists (SetWriteHook (tear draw) l), draw.
Qed.

Lemma stands_more o dir n limit limit' e : limit <= limit' -> stands_for o dir n limit e -> stands_for o dir n limit' e.
Proof. intros Hl (b & Hb & Hr). exists b. split; [lia|done]. Qed.

Lemma write_keys_spec o dir writes tear_at draw moments : suits seed o -> 0 <= draw -> 0 <= writes < 2 ^ 32 ->
  forall n limit acked A c d e,
  writing o dir n limit A c d e -> unhooked d -> Z.of_nat n <= writes -> 0 <= acked <= Z.of_nat n -> limit + cost writes moments < 2 ^ 32 - 2 ->
  exists code acked' e', write_keys rnd seed writes tear_at draw moments (Z.of_nat n) acked d e = Some (code, acked', e') /\
    exists m, 0 <= acked' <= Z.of_nat m /\ Z.of_nat m <= writes /\ stands_for o dir m (limit + cost writes moments) e'.
Proof.
  intros Hsu Hd Hwr. induction moments as [|mo moments IH]; intros n limit acked A c d e Hw Hu Hn Ha Hl; cbn [write_keys cost] in *.
  { pose proof (writing_stands _ _ _ _ _ _ _ _ Hw) as Hst. apply (stands_more _ _ _ _ (limit + 0)) in Hst; [|lia].
    destruct (Z.leb_spec writes (Z.of_nat n)); do 3 eexists; (split; [done|]); exists n; (split_and!; [lia|lia|lia|done]). }
  pose proof (cost_nonneg writes moments ltac:(lia)) as Hc. pose proof (size_nonneg (m_turns mo)) as Ht.
  destruct (Z.leb_spec writes (Z.of_nat n)) as [Hle|Hlt].
  { do 3 eexists. split; [done|]. exists n. split_and!; [lia|lia|lia|]. eapply stands_more; [|by eapply writing_stands]. nia. }
  pose proof Hw as [Hz W2 W3].
  destruct (sized_turns seed o dir (Z.of_nat n) A (m_turns mo) limit c d e) as (c1 & d1 & e1 & -> & Hz1 & Hu1 & _); [lia|apply Hsu|done|done|nia|].
  cbn [mbind option_bind].
  assert (writing o dir n (limit + size (m_turns mo) * (Z.of_nat n + 1)) A c1 d1 (with_outcomes (m_oracle mo) e1)) as Hw2
    by (split; [by apply sized_outcomes|done|done]).
  destruct (hook_writing _ _ _ _ _ _ _ _ (Z.of_nat n) tear_at draw Hd Hw2 Hu1) as [Hw3 Hh].
  set (d2 := if Z.of_nat n =? tear_at then _ else _) in *.
  destruct (put_step _ _ _ _ _ _ _ _ (m_now mo) (m_after mo) Hsu Hw3 Hh ltac:(lia) ltac:(nia)) as (s & d3 & e3 & -> & Hout). cbn [mbind option_bind].
  set (limit' := limit + _ + _) in Hout. assert (limit' <= limit + ((size (m_turns mo) + 1) * (writes + 1) + 1)) as Hl' by (unfold limit'; nia).
  unfold put_outcome in Hout. destruct (hook_ran d2 d3) eqn:Hr; cbn [orb] in Hout.
  { destruct Hout as (m & Hm & Hst). do 3 eexists. split; [done|]. exists m. split_and!; [lia|lia|lia|]. eapply stands_more; [|exact Hst]. lia. }
  destruct (Status.ok s) eqn:Hs; cbn [negb] in *.
  2:{ destruct Hout as (m & Hm & Hst). do 3 eexists. split; [done|]. exists m. split_and!; [lia|lia|lia|]. unfold stands_for. rewrite destroy_files.
      eapply stands_more; [|exact Hst]. lia. }
  destruct Hout as (Hu3 & A3 & c3 & Hw4). destruct (m_killed mo).
  { do 3 eexists. split; [done|]. exists (S n). split_and!; [lia|lia|lia|]. eapply stands_more; [|by eapply writing_stands]. lia. }
  replace (Z.of_nat n + 1) with (Z.of_nat (S n)) by lia.
  destruct (IH (S n) limit' (Z.of_nat (S n)) A3 c3 d3 e3 Hw4 Hu3) as (code & acked' & e' & -> & m & Hm1 & Hm2 & Hst); [lia|lia|lia|].
  do 3 eexists. split; [done|]. exists m. split_and!; [lia|lia|lia|]. eapply stands_more; [|exact Hst]. lia.
Qed.

Lemma worker_suits policy : suits seed (worker_options policy).
Proof. unfold worker_options. destruct (String.eqb policy "every"), (String.eqb policy "interval"); split; done. Qed.

Lemma new_writing o dir c d e : new_database seed o dir c d e -> writing o dir 0 3 (mkSpec (fun _ => None) ∅ []) c d e /\ unhooked d.
Proof. intros [Hz Hu]%new_sized. by split. Qed.

Lemma worker_spec dir policy writes p :
  0 <= writes < 2 ^ 32 -> 3 + cost writes (p_moments p) < 2 ^ 32 - 2 ->
  exists code acked e, crash_worker rnd seed dir policy writes p ∅ = Some (code, acked, e) /\
    exists m, 0 <= acked <= Z.of_nat m /\ Z.of_nat m <= writes /\
      stands_for (worker_options policy) dir m (3 + cost writes (p_moments p)) e.
Proof.
  intros Hw Hl. pose proof (cost_nonneg writes (p_moments p) ltac:(lia)) as Hc. unfold crash_worker. pose proof (worker_suits policy) as Hsu.
  pose proof (light_writable seed (worker_options policy) [] Hsu ltac:(constructor) ltac:(done)) as Hwr.
  assert (may_open (worker_options policy) (p_exists p) /\ 0 <= block_cache_bytes (worker_options policy) < 2 ^ 62) as [Hmay Hcache].
  { unfold worker_options, may_open. by destruct (String.eqb policy "every"), (String.eqb policy "interval"), (p_exists p). }
  destruct (p_mapped p); cbn [negb].
  2:{ do 3 eexists. split; [done|]. exists 0%nat. split_and!; [done|done|lia|]. exists 1. split; [lia|]. do 5 eexists.
      split; [by apply recoverable_fresh|done]. }
  destruct (Open_fresh_any rnd seed (worker_options policy) dir (p_exists p) (p_now p) (mkWorld ∅ (p_oracle p)) Hwr ltac:(done) Hmay Hcache)
    as (s & d & e & b & -> & Hb & Hr & Hgood). cbn [mbind option_bind]. destruct (Status.ok s); cbn [negb].
  2:{ do 3 eexists. split; [done|]. exists 0%nat. split_and!; [done|done|lia|]. exists b. split; [lia|done]. }
  destruct Hgood as (d' & c & -> & [Hwg Hu]%new_writing). cbn [mbind option_bind]. destruct (p_draws p) as [[first second] third].
  assert (0 <= u32 third) as Hd by (by apply Z.mod_pos_bound). cbv zeta.
  eapply (write_keys_spec _ dir writes _ _ (p_moments p) Hsu Hd Hw 0); [exact Hwg|done|lia|lia|lia].
Qed.

(** ** The harness *)

Lemma get_key A c d e n i :
  session seed A c d e -> benign false (w_oracle (e_world e)) -> (forall key, now A key = written_keys n key) ->
  0 <= i < 2 ^ 64 -> Z.of_nat n < 2 ^ 64 ->
  exists s v d' e', DB_Get default_ReadOptions (crash_key i) d e = Some (s, v, d', e') /\
    session seed A c d' e' /\ benign false (w_oracle (e_world e')) /\
    if i <? Z.of_nat n then s = Status.OK /\ v = Some (crash_value i) else s = Status.NotFound "".
Proof.
  intros Hse Ho Hnow Hi Hn. pose proof (crash_sizes i Hi) as [Hk _].
  destruct (session_get seed false A c d e None (crash_key i) Hse Ho ltac:(lia) I) as (s & v & d' & e' & Hg & Hst & Hse' & _ & Ho').
  exists s, v, d', e'. split_and!; [exact Hg|done|done|]. pose proof (written_keys_lookup n i Hn Hi) as Hw. rewrite <- Hnow in Hw.
  destruct (i <? Z.of_nat n); inversion Hst; subst; congruence || (split; congruence).
Qed.

Lemma find_prefix_spec A c n more : forall i d e,
  session seed A c d e -> benign false (w_oracle (e_world e)) -> (forall key, now A key = written_keys n key) ->
  0 <= i <= Z.of_nat n -> Z.of_nat n <= i + Z.of_nat more -> i + Z.of_nat more < 2 ^ 64 ->
  exists d' e', find_prefix more i i d e = Some (Z.of_nat n, ""%string, d', e') /\ session seed A c d' e' /\ benign false (w_oracle (e_world e')).
Proof.
  induction more as [|more IH]; intros i d e Hse Ho Hnow Hi Hm Hb; cbn [find_prefix]; [replace i with (Z.of_nat n) by lia; by exists d, e|].
  destruct (get_key A c d e n i Hse Ho Hnow ltac:(lia) ltac:(lia)) as (s & v & d1 & e1 & -> & Hse1 & Ho1 & Hv). cbn [mbind option_bind].
  destruct (Z.ltb_spec i (Z.of_nat n)) as [Hlt|Hge].
  - destruct Hv as [-> ->]. change (Status.IsNotFound Status.OK) with false. cbn [Status.ok negb default].
    rewrite bool_decide_false by (by intros H; apply H). apply IH; done || lia.
  - subst s. change (Status.IsNotFound (Status.NotFound "")) with true. cbn iota. replace i with (Z.of_nat n) by lia. by exists d1, e1.
Qed.

Lemma find_hole_spec A c n recovered more : forall i d e,
  session seed A c d e -> benign false (w_oracle (e_world e)) -> (forall key, now A key = written_keys n key) ->
  Z.of_nat n <= i -> i + Z.of_nat more < 2 ^ 64 ->
  exists d' e', find_hole more i recovered d e = Some (recovered, ""%string, d', e').
Proof.
  induction more as [|more IH]; intros i d e Hse Ho Hnow Hi Hb; cbn [find_hole]; [by exists d, e|].
  destruct (get_key A c d e n i Hse Ho Hnow ltac:(lia) ltac:(lia)) as (s & v & d1 & e1 & -> & Hse1 & Ho1 & Hv). cbn [mbind option_bind].
  destruct (Z.ltb_spec i (Z.of_nat n)); [lia|]. subst s. change (Status.ok (Status.NotFound "")) with false. cbn iota. apply IH; done || lia.
Qed.

Lemma VerifyPrefix_spec A c d e n upper :
  session seed A c d e -> benign false (w_oracle (e_world e)) -> (forall key, now A key = written_keys n key) ->
  Z.of_nat n <= upper < 2 ^ 32 -> exists d' e', VerifyPrefix upper d e = Some (Z.of_nat n, ""%string, d', e').
Proof.
  intros Hse Ho Hnow Hn. unfold VerifyPrefix.
  destruct (find_prefix_spec A c n (Z.to_nat upper) 0 d e Hse Ho Hnow) as (d1 & e1 & -> & Hse1 & Ho1); [lia..|]. cbn [mbind option_bind].
  destruct (Z.ltb_spec (Z.of_nat n) 0); [lia|]. rewrite u64_id by lia.
  eapply find_hole_spec; [exact Hse1|exact Ho1|exact Hnow|lia|lia].
Qed.

Lemma judge_spec dir policy writes p acked n limit e :
  stands_for (worker_options policy) dir n limit e -> limit < 2 ^ 32 - 2 -> acked <= Z.of_nat n -> Z.of_nat n <= writes < 2 ^ 32 ->
  judge rnd seed dir writes p acked (e_world e) = Some (Passed acked (Z.of_nat n)).
Proof.
  intros (b & Hb & Hr) Hl Ha Hn. unfold judge. set (o := crash_options kEveryWrite 1000 false).
  assert (recovers dir o (w_files (with_oracle [] (e_world e))) b (written_keys n)) as Hr'.
  { eapply recovers_options; [|exact Hr]. unfold worker_options. by destruct (String.eqb policy "every"), (String.eqb policy "interval"). }
  destruct (Open_recovers rnd seed o dir (p_found p) (p_later p) (with_oracle [] (e_world e)) b _ Hr') as (d & e1 & c & -> & Hse & _ & Ho);
    [lia|done|done|by destruct (p_found p)|]. cbn [mbind option_bind Status.ok negb].
  destruct (VerifyPrefix_spec _ c d e1 n writes Hse) as (d2 & e2 & ->); [rewrite Ho; constructor|done|lia|]. cbn [mbind option_bind].
  destruct (Z.ltb_spec (Z.of_nat n) 0); [lia|]. by destruct (Z.ltb_spec (Z.of_nat n) acked); [lia|].
Qed.


Lemma crash_rounds_spec scratch writes plans : 0 <= writes < 2 ^ 32 -> Forall (fun p => 3 + cost writes (p_moments p) < 2 ^ 32 - 2) plans ->
  forall round t, exists t', crash_rounds rnd seed scratch writes round plans t = Some t' /\ failures t' = failures t.
Proof.
  intros Hw. induction 1 as [|p plans Hp _ IH]; intros round t; cbn [crash_rounds]; [by exists t|]. unfold crash_round.
  destruct (worker_spec (scratch ++ "/db" ++ decimal round) (PolicyName round) writes p Hw Hp) as (code & acked & e & -> & m & Ha & Hm & Hst).
  cbn [mbind option_bind]. rewrite (judge_spec _ _ writes p (if p_read p then acked else 0) m _ e Hst) by (destruct (p_read p); lia).
  cbn [mbind option_bind]. edestruct IH as (t' & -> & Hf). by exists t'.
Qed.


End CrashProof.

(** Three writes: the first is acknowledged, the record of the second is torn. *)
Definition calm_moment : moment := mkMoment [[]] [] 0 0 false.
Definition torn_plan : plan := mkPlan true (0, 1, 30) false 0 [] [calm_moment; calm_moment; calm_moment] true true 0.


