(* ===== verification/Workload.v ===== *)
(** * The benchmark's workloads (bench/bench.cpp, the interface of bench/engine.h)

    Keys and values, the mix of operations, the recorded latencies, and the two
    drivers: the bulk load, and threads that run a mix. The drivers are written
    against the interface [Engine]; what they rely on is [EngineSpec].

    A run is given by its events: which thread goes on, what the clock shows, and
    what happens around the engine's call. Between two events a thread touches at
    most one shared object: the engine, or the counter of inserted keys. Random
    numbers are those of the standard's 64-bit Mersenne twister. *)

From Stdlib Require Import Ascii String SpecFloat.
From stdpp Require Import gmap strings sorting.
From S2P Require Import Prelude Coding Crc32c InternalKey WriteBatch Versions FileNames Options Bloom Compaction Stats Session Text.
Open Scope list_scope.

(** ** Keys and values *)

Record Config := mkConfig {
  num_keys : Z;
  num_ops : Z;
  value_size : Z;
  threads : Z;
  scan_length : Z;
  sync_policy_name : string;
  workloads : string;
  engine : string;
  cf_block_cache_bytes : Z;
  cf_verify_checksums : bool;
  zipf_theta : spec_float
}.

(** The double nearest to [p / q]. *)
Definition ratio (p q : Z) : spec_float := SFdiv 53 1024 (to_double p) (to_double q).

Definition default_Config : Config :=
  mkConfig 500000 500000 100 1 50 "never" "load,A,B,C,D,E,F" "lsmtree" (Z.shiftl 8 20) true (ratio 99 100).

Definition MakeKey (i : Z) : bytes := print_numbered 32 "user" 16 i.

Definition MakeValue (i : Z) (n : Z) : bytes :=
  resize (Z.to_nat n) (byte_of_ascii "x") (text (list_ascii_of_string ("v" ++ decimal i ++ ":"))).

Definition ParseSyncPolicy (name : string) : SyncPolicy :=
  if String.eqb name "every" then kEveryWrite
  else if String.eqb name "interval" then kInterval
  else kNever.

(** [Split]; [current] is the part read so far. *)
Fixpoint split_from (s : chars) (sep : ascii) (current : chars) : list chars :=
  match s with
  | [] => match current with [] => [] | _ => [current] end
  | c :: s =>
      if Ascii.eqb c sep then match current with [] => split_from s sep [] | _ => current :: split_from s sep [] end
      else split_from s sep (current ++ [c])
  end.

Definition Split (s : string) (sep : ascii) : list string :=
  map string_of_list_ascii (split_from (list_ascii_of_string s) sep []).

(** ** The mix of operations *)

Inductive Op := kRead | kUpdate | kInsert | kScan | kReadModifyWrite.

Record WorkloadSpec := mkWorkloadSpec {
  ws_name : string;
  ws_read : spec_float;
  ws_update : spec_float;
  ws_insert : spec_float;
  ws_scan : spec_float;
  ws_rmw : spec_float;
  latest_distribution : bool
}.

Abbreviation zero := (S754_zero false).

Definition SpecFor (name : string) : WorkloadSpec :=
  if String.eqb name "A" then mkWorkloadSpec name (ratio 50 100) (ratio 50 100) zero zero zero false
  else if String.eqb name "B" then mkWorkloadSpec name (ratio 95 100) (ratio 5 100) zero zero zero false
  else if String.eqb name "C" then mkWorkloadSpec name (to_double 1) zero zero zero zero false
  else if String.eqb name "D" then mkWorkloadSpec name (ratio 95 100) zero (ratio 5 100) zero zero true
  else if String.eqb name "E" then mkWorkloadSpec name zero zero (ratio 5 100) (ratio 95 100) zero false
  else if String.eqb name "F" then mkWorkloadSpec name (ratio 50 100) zero zero zero (ratio 50 100) false
  else mkWorkloadSpec name zero zero zero zero zero false.

Definition PickOp (spec : WorkloadSpec) (u : spec_float) : Op :=
  let acc := ws_read spec in
  if SFltb u acc then kRead
  else
    let acc := SFadd 53 1024 acc (ws_update spec) in
    if SFltb u acc then kUpdate
    else
      let acc := SFadd 53 1024 acc (ws_insert spec) in
      if SFltb u acc then kInsert
      else
        let acc := SFadd 53 1024 acc (ws_scan spec) in
        if SFltb u acc then kScan else kReadModifyWrite.

(** ** Latencies *)

Definition LatencyRecorder : Type := list Z.

Definition rec_Add (nanos : Z) (r : LatencyRecorder) : LatencyRecorder := r ++ [nanos].
Definition rec_Merge (other r : LatencyRecorder) : LatencyRecorder := r ++ other.
Definition Finalize (r : LatencyRecorder) : LatencyRecorder := merge_sort Z.le r.

Definition MaxMicros (r : LatencyRecorder) : spec_float :=
  match last r with None => zero | Some x => SFdiv 53 1024 (to_double x) (to_double 1000) end.

Definition TotalSeconds (r : LatencyRecorder) : spec_float :=
  SFdiv 53 1024 (fold_left (fun total s => SFadd 53 1024 total (to_double s)) r zero) (to_double 1000000000).

(** [static_cast] of a double to 64 bits: undefined when it does not fit. *)
Definition to_u64 (x : spec_float) : option Z :=
  match x with
  | S754_zero _ => Some 0
  | S754_finite _ _ _ => let n := trunc_int x in if (0 <=? n) && (n <? 2 ^ 64) then Some n else None
  | _ => None
  end.

Definition PercentileMicros (p : spec_float) (r : LatencyRecorder) : option spec_float :=
  match r with
  | [] => Some zero
  | _ =>
      index ← to_u64 (SFmul 53 1024 p (to_double (size r)));
      let index := if size r <=? index then size r - 1 else index in
      x ← r !! Z.to_nat index;
      Some (SFdiv 53 1024 (to_double x) (to_double 1000))
  end.

(** ** Random numbers *)

(** [std::mt19937_64]: the last 312 words, the oldest first. *)
Definition mt_state : Type := list Z.

Fixpoint mt_fill (count : nat) (i x : Z) : list Z :=
  match count with
  | O => []
  | S count => x :: mt_fill count (i + 1) (u64 (6364136223846793005 * Z.lxor x (Z.shiftr x 62) + (i + 1)))
  end.

Definition mt19937_64 (seed : Z) : mt_state := mt_fill 312 0 (u64 seed).

Definition temper (x : Z) : Z :=
  let x := Z.lxor x (Z.land (Z.shiftr x 29) 6148914691236517205) in
  let x := Z.lxor x (Z.land (u64 (Z.shiftl x 17)) 8202884508482404352) in
  let x := Z.lxor x (Z.land (u64 (Z.shiftl x 37)) 18444473444759240704) in
  Z.lxor x (Z.shiftr x 43).

Definition draw (s : mt_state) : Z * mt_state :=
  let word i := default 0 (s !! i) in
  let y := Z.lor (Z.land (word 0%nat) (2 ^ 64 - 2 ^ 31)) (Z.land (word 1%nat) (2 ^ 31 - 1)) in
  let x := Z.lxor (word 156%nat) (Z.lxor (Z.shiftr y 1) (if Z.odd y then 13043109905998158313 else 0)) in
  (temper x, tail s ++ [x]).

(** [static_cast<double>(rng()) / static_cast<double>(rng.max())]. *)
Definition unit_of (n : Z) : spec_float := SFdiv 53 1024 (to_double n) (to_double (2 ^ 64 - 1)).

Definition Uniform (s : mt_state) : spec_float * mt_state := let '(n, s) := draw s in (unit_of n, s).

Section Zipf.
Context (pow : spec_float -> spec_float -> spec_float).   (** [std::pow] *)

Local Notation "x +. y" := (SFadd 53 1024 x y) (at level 50, left associativity).
Local Notation "x -. y" := (SFsub 53 1024 x y) (at level 50, left associativity).
Local Notation "x *. y" := (SFmul 53 1024 x y) (at level 40, left associativity).
Local Notation "x /. y" := (SFdiv 53 1024 x y) (at level 40, left associativity).

Record ZipfGenerator := mkZipfGenerator {
  z_n : Z;
  z_theta : spec_float;
  z_zeta_n : spec_float;
  z_alpha : spec_float;
  z_eta : spec_float;
  z_rng : mt_state
}.

(** The loop of [Zeta]; [more] terms from [i] on. *)
Fixpoint zeta_sum (more : nat) (i : Z) (theta sum : spec_float) : spec_float :=
  match more with
  | O => sum
  | S more => zeta_sum more (i + 1) theta (sum +. to_double 1 /. pow (to_double i) theta)
  end.

Definition Zeta (n : Z) (theta : spec_float) : spec_float := zeta_sum (Z.to_nat n) 1 theta zero.

Definition new_ZipfGenerator (n : Z) (theta : spec_float) (seed : Z) : ZipfGenerator :=
  let zeta_n := Zeta n theta in
  mkZipfGenerator n theta zeta_n (to_double 1 /. (to_double 1 -. theta))
    ((to_double 1 -. pow (to_double 2 /. to_double n) (to_double 1 -. theta)) /. (to_double 1 -. Zeta 2 theta /. zeta_n))
    (mt19937_64 seed).

(** [Next] for a uniform draw. *)
Definition zipf_index (z : ZipfGenerator) (u : spec_float) : option Z :=
  let uz := u *. z_zeta_n z in
  if SFltb uz (to_double 1) then Some 0
  else if SFltb uz (to_double 1 +. pow (ratio 1 2) (z_theta z)) then Some 1
  else
    index ← to_u64 (to_double (z_n z) *. pow (z_eta z *. u -. z_eta z +. to_double 1) (z_alpha z));
    Some (if z_n z <=? index then z_n z - 1 else index).

Definition zipf_Next (z : ZipfGenerator) : option (Z * ZipfGenerator) :=
  let '(u, rng) := Uniform (z_rng z) in
  i ← zipf_index z u;
  Some (i, mkZipfGenerator (z_n z) (z_theta z) (z_zeta_n z) (z_alpha z) (z_eta z) rng).

End Zipf.

(** ** The engine *)

(** [X] is what happens around a call, [E] the state of the engine. *)
Class Engine (X E : Type) := {
  eng_Put : X -> bytes -> bytes -> E -> option (bool * E);
  eng_Get : X -> bytes -> E -> option (bool * option bytes * bool * E);   (** found, the value, an error *)
  eng_Scan : X -> bytes -> Z -> E -> option (Z * E);
  eng_Wait : X -> E -> option E;
  eng_name : string
}.

Record Result := mkResult {
  rs_name : string;
  rs_operations : Z;
  rs_nanos : Z;   (** of the wall; printed as seconds *)
  rs_latency : LatencyRecorder
}.

Definition elapsed (start now : Z) : Z := u64 (now - start).

Section Drivers.
Context {X E : Type} {eng : Engine X E}.
Context (pow : spec_float -> spec_float -> spec_float).

(** Around an operation of the load: the clock before and after, and the call. *)
Record load_event := mkLoadEvent { l_start : Z; l_stop : Z; l_call : X }.

(** The loop from [i] on; [inl] is the key at which the program exits. *)
Fixpoint load_keys (config : Config) (i : Z) (evs : list load_event) (latency : LatencyRecorder) (s : E)
  : option ((Z + LatencyRecorder) * E) :=
  match evs with
  | [] => Some (inr latency, s)
  | ev :: evs =>
      '(ok, s) ← eng_Put (l_call ev) (MakeKey i) (MakeValue i (value_size config)) s;
      let latency := rec_Add (elapsed (l_start ev) (l_stop ev)) latency in
      if negb ok then Some (inl i, s) else load_keys config (i + 1) evs latency s
  end.

(** There is an event for every key. *)
Definition RunLoad (config : Config) (start stop : Z) (evs : list load_event) (s : E) : option ((Z + Result) * E) :=
  if negb (size evs =? num_keys config) then None
  else
    '(r, s) ← load_keys config 0 evs [] s;
    match r with
    | inl i => Some (inl i, s)
    | inr latency => Some (inr (mkResult "load" (num_keys config) (elapsed start stop) latency), s)
    end.

(** *** Mixed workloads *)

(** Where a thread is in an iteration. *)
Inductive stage :=
  | Choosing
  | Reading (key_index : Z)
  | Writing (key_index value_index : Z)
  | Inserting
  | Scanning (key_index : Z)
  | Modifying (key_index : Z).

Record thread := mkThread {
  th_left : nat;   (** iterations to go *)
  th_rng : mt_state;
  th_zipf : ZipfGenerator;
  th_stage : stage;
  th_timer : Z;
  th_latency : LatencyRecorder
}.

Record shared := mkShared { sh_next_insert_key : Z; sh_errors : Z; sh_engine : E }.

Definition new_thread (config : Config) (ops_per_thread : Z) (t : Z) : thread :=
  mkThread (Z.to_nat ops_per_thread) (mt19937_64 (Z.lxor 24301 t))
    (new_ZipfGenerator pow (num_keys config) (zipf_theta config) (u32 (1234 + t))) Choosing 0 [].

Definition goto (st : stage) (th : thread) : thread :=
  mkThread (th_left th) (th_rng th) (th_zipf th) st (th_timer th) (th_latency th).

(** [latency.Add(timer.ElapsedNanos())], and the next iteration. *)
Definition finish (clock : Z) (th : thread) : thread :=
  mkThread (pred (th_left th)) (th_rng th) (th_zipf th) Choosing (th_timer th)
    (rec_Add (elapsed (th_timer th) clock) (th_latency th)).

Definition first_stage (op : Op) (key_index : Z) : stage :=
  match op with
  | kRead => Reading key_index
  | kUpdate => Writing key_index key_index
  | kInsert => Inserting
  | kScan => Scanning key_index
  | kReadModifyWrite => Modifying key_index
  end.

Definition key_choice (latest : bool) (ceiling back : Z) : Z :=
  if latest then (if back <? ceiling then ceiling - 1 - back else 0) else back.

Definition choose (spec : WorkloadSpec) (clock : Z) (th : thread) (sh : shared) : option thread :=
  let '(u, rng) := Uniform (th_rng th) in
  '(back, zipf) ← zipf_Next pow (th_zipf th);
  let key_index := key_choice (latest_distribution spec) (sh_next_insert_key sh) back in
  Some (mkThread (th_left th) rng zipf (first_stage (PickOp spec u) key_index) clock (th_latency th)).

Definition count_error (failed : bool) (sh : shared) (s : E) : shared :=
  mkShared (sh_next_insert_key sh) (if failed then u64 (sh_errors sh + 1) else sh_errors sh) s.

Definition thread_step (config : Config) (spec : WorkloadSpec) (clock : Z) (x : X) (th : thread) (sh : shared)
  : option (thread * shared) :=
  match th_stage th with
  | Choosing => th ← choose spec clock th sh; Some (th, sh)
  | Reading k =>
      '(_, _, error, s) ← eng_Get x (MakeKey k) (sh_engine sh);
      Some (finish clock th, count_error error sh s)
  | Writing k i =>
      '(ok, s) ← eng_Put x (MakeKey k) (MakeValue i (value_size config)) (sh_engine sh);
      Some (finish clock th, count_error (negb ok) sh s)
  | Inserting =>
      let id := sh_next_insert_key sh in
      Some (goto (Writing id id) th, mkShared (u64 (id + 1)) (sh_errors sh) (sh_engine sh))
  | Scanning k =>
      '(_, s) ← eng_Scan x (MakeKey k) (scan_length config) (sh_engine sh);
      Some (finish clock th, count_error false sh s)
  | Modifying k =>
      '(_, _, error, s) ← eng_Get x (MakeKey k) (sh_engine sh);
      Some (goto (Writing k (u64 (k + 1))) th, count_error error sh s)
  end.

Record mixed_event := mkMixedEvent { m_thread : nat; m_clock : Z; m_call : X }.

(** A thread that has finished, or was never started, does nothing. *)
Definition mixed_step (config : Config) (spec : WorkloadSpec) (ev : mixed_event) (st : list thread * shared)
  : option (list thread * shared) :=
  match st.1 !! m_thread ev with
  | Some th =>
      match th_left th with
      | O => Some st
      | _ => '(th, sh) ← thread_step config spec (m_clock ev) (m_call ev) th st.2; Some (<[m_thread ev := th]> st.1, sh)
      end
  | None => Some st
  end.

Fixpoint mixed_steps (config : Config) (spec : WorkloadSpec) (evs : list mixed_event) (st : list thread * shared)
  : option (list thread * shared) :=
  match evs with
  | [] => Some st
  | ev :: evs => st ← mixed_step config spec ev st; mixed_steps config spec evs st
  end.

(** The threads are joined: the events have to bring all of them to their end. It
    does not return for no threads, a division by zero, nor for a negative number,
    of which there is no vector. *)
Definition RunMixed (config : Config) (spec : WorkloadSpec) (start stop : Z) (evs : list mixed_event) (s : E)
  : option (Result * Z * E) :=
  if threads config <=? 0 then None
  else
    let ops_per_thread := num_ops config / threads config in
    let new := map (fun t => new_thread config ops_per_thread (Z.of_nat t)) (seq 0 (Z.to_nat (threads config))) in
    '(ths, sh) ← mixed_steps config spec evs (new, mkShared (num_keys config) 0 s);
    if forallb (fun th => Nat.eqb (th_left th) 0) ths then
      Some (mkResult (ws_name spec) (u64 (ops_per_thread * threads config)) (elapsed start stop)
              (fold_left (fun r th => rec_Merge (th_latency th) r) ths []), sh_errors sh, sh_engine sh)
    else None.

(** *** All workloads *)

Inductive run :=
  | LoadRun (start stop : Z) (evs : list load_event) (wait : X)
  | MixedRun (start stop : Z) (evs : list mixed_event).

(** The loop of [main]: the results and the errors counted, or the key at which
    the load gave up. *)
Fixpoint run_workloads (config : Config) (names : list string) (runs : list run) (s : E)
  : option ((Z + list (Result * Z)) * E) :=
  match names, runs with
  | [], _ => Some (inr [], s)
  | name :: names, r :: runs =>
      match String.eqb name "load", r with
      | true, LoadRun start stop evs wait =>
          '(r, s) ← RunLoad config start stop evs s;
          match r with
          | inl i => Some (inl i, s)
          | inr result =>
              s ← eng_Wait wait s;
              '(r, s) ← run_workloads config names runs s;
              Some (match r with inl i => inl i | inr results => inr ((result, 0) :: results) end, s)
          end
      | false, MixedRun start stop evs =>
          '(result, errors, s) ← RunMixed config (SpecFor name) start stop evs s;
          '(r, s) ← run_workloads config names runs s;
          Some (match r with inl i => inl i | inr results => inr ((result, errors) :: results) end, s)
      | _, _ => None
      end
  | _, [] => None
  end.

End Drivers.

(** ** Keys, values, parts *)

(** Keys are ordered as their numbers while these have at most 16 digits. *)
Lemma MakeKey_order i j : 0 <= i < j -> j < 10 ^ 16 -> sv_compare (MakeKey i) (MakeKey j) < 0.
Proof. intros Hi Hj. apply print_numbered_order; [lia|simpl; lia|lia|lia|]. change (Z.of_nat 16) with 16. lia. Qed.

Lemma MakeKey_inj i j : 0 <= i < 2 ^ 64 -> 0 <= j < 2 ^ 64 -> MakeKey i = MakeKey j -> i = j.
Proof. intros Hi Hj. apply print_numbered_inj; [lia|simpl; lia|done..]. Qed.

Lemma MakeKey_size i : 0 <= i < 2 ^ 64 -> 0 < size (MakeKey i) <= 24.
Proof.
  intros Hi. destruct (print_numbered_fits 32 "user" 16 i ltac:(lia) Hi ltac:(simpl; lia)) as [_ Hk].
  change (length (list_ascii_of_string "user")) with 4%nat in Hk. unfold MakeKey, size. lia.
Qed.

Lemma MakeValue_size i n : 0 <= n -> size (MakeValue i n) = n.
Proof. intros Hn. unfold MakeValue, resize, size. rewrite length_app, length_take, length_replicate. lia. Qed.

Lemma split_from_spec s sep : forall current, Forall (fun c => c <> sep) current ->
  concat (split_from s sep current) = current ++ List.filter (fun c => negb (Ascii.eqb c sep)) s /\
  Forall (fun part => part <> [] /\ Forall (fun c => c <> sep) part) (split_from s sep current).
Proof.
  induction s as [|c s IH]; intros current Hc; cbn [split_from List.filter].
  { destruct current as [|x current]; [by split|]. cbn [concat]. split; [reflexivity|by constructor]. }
  destruct (Ascii.eqb_spec c sep) as [->|Hne]; cbn [negb].
  - destruct (IH [] ltac:(constructor)) as [H1 H2].
    destruct current as [|x current]; [done|]. split; [cbn [concat]; by rewrite H1|]. by constructor.
  - destruct (IH (current ++ [c])) as [H1 H2]; [apply Forall_app; by repeat constructor|].
    split; [|done]. by rewrite H1, <- app_assoc.
Qed.

(** ** The mix *)

(** The operations of the table at the top of bench.cpp. *)
Definition mix (name : string) : list Op :=
  if String.eqb name "A" then [kRead; kUpdate]
  else if String.eqb name "B" then [kRead; kUpdate]
  else if String.eqb name "C" then [kRead]
  else if String.eqb name "D" then [kRead; kInsert]
  else if String.eqb name "E" then [kScan; kInsert]
  else [kRead; kReadModifyWrite].

(** The cumulative sums reach 1 exactly, so draws below 1 stay in the mix. *)
Lemma PickOp_mix name u : SFltb u zero = false -> SFltb u (to_double 1) = true -> PickOp (SpecFor name) u ∈ mix name.
Proof.
  intros H0 H1.
  assert (SFadd 53 1024 (ratio 50 100) (ratio 50 100) = to_double 1) as E1 by by vm_compute.
  assert (SFadd 53 1024 (ratio 95 100) (ratio 5 100) = to_double 1) as E2 by by vm_compute.
  assert (SFadd 53 1024 (ratio 5 100) (ratio 95 100) = to_double 1) as E3 by by vm_compute.
  assert (SFadd 53 1024 (ratio 95 100) zero = ratio 95 100) as E4 by by vm_compute.
  assert (SFadd 53 1024 (ratio 50 100) zero = ratio 50 100) as E5 by by vm_compute.
  assert (SFadd 53 1024 zero (ratio 5 100) = ratio 5 100) as E6 by by vm_compute.
  assert (SFadd 53 1024 zero zero = zero) as E7 by by vm_compute.
  unfold PickOp, SpecFor, mix.
  set (half := ratio 50 100) in *. set (many := ratio 95 100) in *. set (few := ratio 5 100) in *. set (one := to_double 1) in *.
  set (add := SFadd 53 1024) in *. set (lt := SFltb) in *. clearbody half many few one add lt.
  repeat match goal with |- context [String.eqb name ?c] => destruct (String.eqb name c) end; cbn [ws_read ws_update ws_insert ws_scan];
    repeat first [rewrite E1|rewrite E2|rewrite E3|rewrite E4|rewrite E5|rewrite E6|rewrite E7|rewrite H0|rewrite H1];
    repeat (case_match; simplify_eq); set_solver.
Qed.

(** The last of the draws is 1, and workload C, all reads, writes then. *)
Lemma read_only_writes : PickOp (SpecFor "C") (unit_of (2 ^ 64 - 1)) = kReadModifyWrite.
Proof. by vm_compute. Qed.

(** ** Latencies *)

Lemma Finalize_spec r : StronglySorted Z.le (Finalize r) /\ Finalize r ≡ₚ r.
Proof. split; [apply Sorted_StronglySorted; [exact Z.le_trans|]; apply Sorted_merge_sort; exact _|apply merge_sort_Permutation]. Qed.

(** A percentile is one of the samples, and none is above the maximum. *)
Lemma PercentileMicros_sample p r q :
  r <> [] -> PercentileMicros p (Finalize r) = Some q -> exists x, x ∈ r /\ q = SFdiv 53 1024 (to_double x) (to_double 1000).
Proof.
  intros Hr Hq. destruct (Finalize_spec r) as [_ Hp]. unfold PercentileMicros in Hq.
  destruct (Finalize r) as [|y l] eqn:E; [by apply Permutation_nil_l in Hp|]. rewrite <- E in *.
  apply bind_Some in Hq as (i & _ & Hq). apply bind_Some in Hq as (x & Hx & Hq). injection Hq as <-. exists x. split; [|done].
  rewrite <- Hp. by eapply list_elem_of_lookup_2.
Qed.

Lemma Finalize_last r x y : last (Finalize r) = Some y -> x ∈ r -> x <= y /\ y ∈ r.
Proof.
  intros Hy Hx. destruct (Finalize_spec r) as [Hs Hp]. rewrite <- Hp in Hx |- *. apply last_Some in Hy as [l Hl]. rewrite Hl in *.
  split; [|set_solver]. apply elem_of_app in Hx as [Hx|Hx]; [|apply list_elem_of_singleton in Hx; lia].
  clear Hl Hp. induction l as [|z l IH]; [by apply elem_of_nil in Hx|]. apply StronglySorted_inv in Hs as [Hs Hz].
  apply elem_of_cons in Hx as [->|Hx]; [|by apply IH]. rewrite Forall_forall in Hz. apply Hz. set_solver.
Qed.

(** ** Random numbers *)

Definition words (s : mt_state) : Prop := Forall (fun x => 0 <= x < 2 ^ 64) s.

Lemma shiftr_range x n : 0 <= n -> 0 <= x < 2 ^ 64 -> 0 <= Z.shiftr x n < 2 ^ 64.
Proof.
  intros Hn Hx. rewrite Z.shiftr_div_pow2 by done. assert (0 < 2 ^ n) by lia. split; [apply Z.div_pos; lia|].
  apply (Z.le_lt_trans _ x); [|lia]. apply Z.div_le_upper_bound; nia.
Qed.

Lemma land_le a b : 0 <= a -> 0 <= Z.land a b <= a.
Proof.
  intros Ha. assert (0 <= Z.land a b) by (apply Z.land_nonneg; lia). assert (0 <= Z.ldiff a b) by (apply Z.ldiff_nonneg; lia).
  pose proof (Z.add_lor_land (Z.ldiff a b) (Z.land a b)) as H'. rewrite Z.lor_ldiff_and in H'.
  replace (Z.land (Z.ldiff a b) (Z.land a b)) with 0 in H'; [lia|]. apply Z.bits_inj'. intros i Hi.
  rewrite Z.bits_0, !Z.land_spec, Z.ldiff_spec. by destruct (Z.testbit a i), (Z.testbit b i).
Qed.

Lemma land_range a b : 0 <= a < 2 ^ 64 -> 0 <= Z.land a b < 2 ^ 64.
Proof. intros Ha. pose proof (land_le a b ltac:(lia)). lia. Qed.

Lemma temper_range x : 0 <= x < 2 ^ 64 -> 0 <= temper x < 2 ^ 64.
Proof.
  intros Hx. unfold temper. repeat first [apply lxor_range; [lia| |]|apply land_range|apply shiftr_range; [lia|]|apply u64_range|exact Hx].
Qed.

Lemma draw_range s : words s -> 0 <= (draw s).1 < 2 ^ 64 /\ words (draw s).2.
Proof.
  intros Hs. assert (forall i, 0 <= default 0 (s !! i) < 2 ^ 64) as Hw.
  { intros i. destruct (s !! i) as [x|] eqn:E; [|simpl; lia]. by apply (Forall_lookup_1 _ _ _ _ Hs E). }
  unfold draw. cbn [fst snd]. set (y := Z.lor _ _). assert (0 <= y < 2 ^ 64) as Hy.
  { unfold y. set (a := Z.land _ _). set (b := Z.land (default 0 (s !! 1%nat)) _). pose proof (Z.add_lor_land a b).
    assert (0 <= a <= 2 ^ 64 - 2 ^ 31) by (unfold a; rewrite Z.land_comm; by apply land_le).
    assert (0 <= b <= 2 ^ 31 - 1) by (unfold b; rewrite Z.land_comm; by apply land_le).
    assert (0 <= Z.land a b) by (apply Z.land_nonneg; lia). assert (0 <= Z.lor a b) by (apply Z.lor_nonneg; lia). lia. }
  assert (0 <= Z.lxor (default 0 (s !! 156%nat)) (Z.lxor (Z.shiftr y 1) (if Z.odd y then 13043109905998158313 else 0)) < 2 ^ 64) as Hx.
  { apply lxor_range; [lia|done|]. apply lxor_range; [lia|by apply shiftr_range|]. destruct (Z.odd y); lia. }
  split; [by apply temper_range|]. apply Forall_app. split; [|by constructor]. destruct s; [done|]. by apply Forall_cons in Hs as [_ ?].
Qed.

Lemma mt_fill_words count : forall i x, 0 <= x < 2 ^ 64 -> words (mt_fill count i x).
Proof. induction count as [|count IH]; intros i x Hx; constructor; [done|]. apply IH, u64_range. Qed.

Lemma mt19937_64_words seed : words (mt19937_64 seed).
Proof. apply mt_fill_words, u64_range. Qed.

(** Indices stay below the number of keys, if there are two. *)
Lemma zipf_index_range pow z u i : 2 <= z_n z -> zipf_index pow z u = Some i -> 0 <= i < z_n z.
Proof.
  intros Hn. unfold zipf_index. repeat case_match; intros H'; try (injection H' as <-; lia).
  apply bind_Some in H' as (j & Hj & H'). unfold to_u64 in Hj. repeat case_match; simplify_eq; lia.
Qed.

(** ** What the drivers rely on *)

(** [holds w f M s]: the engine holds [M], and affords [w] more writes and calls
    that cost [f] in all. [fair] is what happens around a call that must succeed;
    waiting for the background costs [pause] more; values have at most [longest]
    bytes. *)
Class EngineSpec {X E} (eng : Engine X E) (fair : X -> Prop) (cost : X -> Z) (pause longest : Z) (holds : Z -> Z -> Map -> E -> Prop) := {
  es_cost x : 0 <= cost x;
  es_less w w' f f' M s : w' <= w -> f' <= f -> holds w f M s -> holds w' f' M s;
  es_put x key value w f M s :
    holds w f M s -> fair x -> 1 <= w -> cost x <= f -> 0 < size key <= 24 -> size value <= longest ->
    exists s', eng_Put x key value s = Some (true, s') /\ holds (w - 1) (f - cost x) (apply_op1 M (kValue, key, value)) s';
  es_get x key w f M s :
    holds w f M s -> fair x -> cost x <= f -> 0 < size key <= 24 ->
    exists s', eng_Get x key s = Some (bool_decide (is_Some (M key)), M key, false, s') /\ holds w (f - cost x) M s';
  es_scan x start max_entries w f M s :
    holds w f M s -> fair x -> cost x <= f -> 0 < size start <= 24 ->
    exists rows s', eng_Scan x start max_entries s = Some (Z.min (Z.max 0 max_entries) (size rows), s') /\
      StronglySorted (fun a b => sv_compare a.1 b.1 < 0) rows /\
      (forall k v, (k, v) ∈ rows <-> M k = Some v /\ 0 <= sv_compare k start) /\ holds w (f - cost x) M s';
  es_pause : 0 <= pause;
  es_wait x w f M s :
    holds w f M s -> fair x -> cost x + pause <= f -> exists s', eng_Wait x s = Some s' /\ holds w (f - (cost x + pause)) M s'
}.

(** Keys up to [next] are there. *)
Definition stocked (next : Z) (M : Map) : Prop := forall j, 0 <= j < next -> is_Some (M (MakeKey j)).

(** Nothing but keys up to [limit], with values of one size. *)
Definition tidy (limit length : Z) (M : Map) : Prop :=
  forall key v, M key = Some v -> size v = length /\ exists j, 0 <= j < limit /\ key = MakeKey j.

Definition total {A} (g : A -> Z) (l : list A) : Z := foldr (fun x n => g x + n) 0 l.

Lemma total_cons {A} (g : A -> Z) x l : total g (x :: l) = g x + total g l.
Proof. done. Qed.

Lemma total_ge_0 {A} (g : A -> Z) l : (forall x, 0 <= g x) -> 0 <= total g l.
Proof. intros Hg. induction l as [|x l IH]; [done|]. rewrite total_cons. specialize (Hg x). lia. Qed.

Lemma total_insert {A} (g : A -> Z) l : forall t x y, l !! t = Some x -> total g (<[t := y]> l) = total g l - g x + g y.
Proof.
  induction l as [|z l IH]; intros [|t] x y Ht; try done; simpl in Ht; simplify_eq; simpl; rewrite ?total_cons; [lia|].
  rewrite (IH t x y Ht). lia.
Qed.

Lemma total_lookup {A} (g : A -> Z) l t x : (forall x, 0 <= g x) -> l !! t = Some x -> g x <= total g l.
Proof.
  intros Hg. revert t. induction l as [|z l IH]; intros [|t] Ht; try done; simpl in Ht; simplify_eq; rewrite total_cons.
  - pose proof (total_ge_0 g l Hg). lia.
  - specialize (IH t Ht). specialize (Hg z). lia.
Qed.

Lemma put_lookup M k i n key :
  apply_op1 M (kValue, MakeKey k, MakeValue i n) key = if sv_eqb (MakeKey k) key then Some (MakeValue i n) else M key.
Proof. done. Qed.

Lemma put_stocked next M k v : stocked next M -> stocked next (apply_op1 M (kValue, k, v)).
Proof. intros H j Hj. simpl. destruct (sv_eqb k (MakeKey j)); [done|by apply H]. Qed.

Lemma put_tidy limit n M k i : 0 <= n -> 0 <= k < limit -> tidy limit n M -> tidy limit n (apply_op1 M (kValue, MakeKey k, MakeValue i n)).
Proof.
  intros Hn Hk HM key v. rewrite put_lookup. destruct (sv_eqb (MakeKey k) key) eqn:E; [|by apply HM].
  apply sv_eqb_true in E. intros [= <-]. rewrite MakeValue_size by done. split; [done|by exists k].
Qed.

(** *** Scans *)

Lemma MakeKey_from i j : 0 <= i < 10 ^ 16 -> 0 <= j < 10 ^ 16 -> 0 <= sv_compare (MakeKey j) (MakeKey i) <-> i <= j.
Proof.
  intros Hi Hj. destruct (Z.lt_trichotomy i j) as [Hlt|[->|Hlt]].
  - pose proof (MakeKey_order i j ltac:(lia) ltac:(lia)). rewrite sv_compare_antisym. lia.
  - rewrite sv_compare_refl. lia.
  - pose proof (MakeKey_order j i ltac:(lia) ltac:(lia)). lia.
Qed.

Lemma sorted_keys_distinct (rows : list (bytes * bytes)) : StronglySorted (fun a b => sv_compare a.1 b.1 < 0) rows -> NoDup (map fst rows).
Proof.
  induction 1 as [|x rows _ IH Hx]; [constructor|]. apply NoDup_cons. split; [|done]. intros Hin.
  apply list_elem_of_fmap in Hin as (y & Heq & Hy). rewrite Forall_forall in Hx. specialize (Hx y Hy). rewrite Heq, sv_compare_refl in Hx. lia.
Qed.

(** With exactly the keys up to [n], as many rows follow a key as there are
    numbers: keys are ordered as numbers are. *)
Lemma rows_from n m M rows i :
  0 <= i <= n -> n < 10 ^ 16 -> stocked n M -> tidy n m M -> StronglySorted (fun a b => sv_compare a.1 b.1 < 0) rows ->
  (forall k v, (k, v) ∈ rows <-> M k = Some v /\ 0 <= sv_compare k (MakeKey i)) -> size rows = n - i.
Proof.
  intros Hi Hn Hst Ht Hs Hr. set (keys := map (fun k => MakeKey (i + Z.of_nat k)) (seq 0 (Z.to_nat (n - i)))).
  assert (map fst rows ≡ₚ keys) as Hp.
  { apply list.NoDup_Permutation; [by apply sorted_keys_distinct| |].
    - apply NoDup_fmap_2_strong; [|apply NoDup_seq]. intros a b Ha%elem_of_seq Hb%elem_of_seq E%MakeKey_inj; lia.
    - intros k. unfold keys. split; intros Hin.
      + apply list_elem_of_fmap in Hin as ([k' v] & -> & [Hk Hge]%Hr). destruct (Ht _ _ Hk) as (_ & j & Hj & ->). cbn [fst] in *.
        rewrite MakeKey_from in Hge by lia. apply list_elem_of_fmap. exists (Z.to_nat (j - i)). split; [f_equal; lia|]. apply elem_of_seq. lia.
      + apply list_elem_of_fmap in Hin as (j & -> & Hj%elem_of_seq). destruct (Hst (i + Z.of_nat j) ltac:(lia)) as [v Hv].
        apply list_elem_of_fmap. exists (MakeKey (i + Z.of_nat j), v). split; [done|]. apply Hr. split; [done|]. apply MakeKey_from; lia. }
  apply Permutation_length in Hp. unfold keys in Hp. rewrite !length_map, length_seq in Hp. unfold size. lia.
Qed.

Section DriverProofs.
Context {X E : Type} {eng : Engine X E} {fair : X -> Prop} {cost : X -> Z} {pause longest : Z} {holds : Z -> Z -> Map -> E -> Prop}.
Context {spec_of : EngineSpec eng fair cost pause longest holds}.

(** *** The load *)

(** The map after the keys up to [n] are loaded. *)
Definition loaded (config : Config) (n : Z) (M : Map) : Prop :=
  forall j, 0 <= j < n -> M (MakeKey j) = Some (MakeValue j (value_size config)).

Lemma load_keys_spec config evs : forall i w f M s latency,
  holds w f M s -> Forall (fun ev => fair (l_call ev)) evs -> size evs <= w -> total (fun ev => cost (l_call ev)) evs <= f ->
  0 <= i -> i + size evs < 2 ^ 64 -> 0 <= value_size config <= longest -> loaded config i M ->
  exists lat M' s', load_keys config i evs latency s = Some (inr (latency ++ lat), s') /\ size lat = size evs /\
    holds (w - size evs) (f - total (fun ev => cost (l_call ev)) evs) M' s' /\ loaded config (i + size evs) M' /\
    forall limit, i + size evs <= limit -> tidy limit (value_size config) M -> tidy limit (value_size config) M'.
Proof.
  induction evs as [|ev evs IH]; intros i w f M s latency Hh Hf Hw Hc Hi Hn Hv HM; cbn [load_keys].
  { exists [], M, s. cbn [total foldr]. rewrite app_nil_r, !size_nil, !Z.sub_0_r, Z.add_0_r. by split_and!. }
  apply Forall_cons in Hf as [Hf1 Hf]. rewrite size_cons in *. rewrite total_cons in *. pose proof (size_nonneg evs) as Hs.
  pose proof (total_ge_0 (fun ev => cost (l_call ev)) evs (fun ev => es_cost (l_call ev))) as Ht.
  destruct (es_put (l_call ev) (MakeKey i) (MakeValue i (value_size config)) w f M s Hh Hf1) as (s1 & -> & Hh1);
    [lia|lia|apply MakeKey_size; lia|rewrite MakeValue_size; lia|]. cbn [mbind option_bind negb].
  destruct (IH (i + 1) _ _ _ s1 (rec_Add (elapsed (l_start ev) (l_stop ev)) latency) Hh1 Hf) as (lat & M' & s' & -> & Hl & Hh' & HM' & Ht');
    [lia|lia|lia|lia|done| |].
  { intros j Hj. rewrite put_lookup. destruct (sv_eqb (MakeKey i) (MakeKey j)) eqn:Ek.
    - apply sv_eqb_true, MakeKey_inj in Ek; [by subst|lia..].
    - apply HM. apply sv_eqb_false in Ek. assert (j <> i) by congruence. lia. }
  exists (elapsed (l_start ev) (l_stop ev) :: lat), M', s'. unfold rec_Add. rewrite <- app_assoc. split_and!; [done|rewrite size_cons; lia| | |].
  - eapply es_less; [| |exact Hh']; lia.
  - by replace (i + (1 + size evs)) with (i + 1 + size evs) by lia.
  - intros limit Hlim HT. apply Ht'; [lia|]. apply put_tidy; [lia|lia|done].
Qed.

(** *** Threads *)

Context (pow : spec_float -> spec_float -> spec_float) (config : Config) (spec : WorkloadSpec).
Let limit := num_keys config + num_ops config.
Let zipf0 := new_ZipfGenerator pow (num_keys config) (zipf_theta config) 0.

(** What a configuration has to allow. The conversions of the generator of
    skewed keys are defined. *)
Record runnable : Prop := {
  rn_keys : 2 <= num_keys config;
  rn_ops : 0 <= num_ops config;
  rn_limit : limit < 2 ^ 64;
  rn_threads : 0 < threads config;
  rn_value : 0 <= value_size config <= longest;
  rn_zipf : forall n, 0 <= n < 2 ^ 64 -> is_Some (zipf_index pow zipf0 (unit_of n))
}.

Definition steps_left (th : thread) : Z :=
  match th_left th with
  | O => 0
  | _ => 3 * Z.of_nat (th_left th) - match th_stage th with Choosing => 0 | Writing _ _ => 2 | _ => 1 end
  end.

Definition inserts_left (th : thread) : Z :=
  match th_left th with
  | O => 0
  | S n => match th_stage th with Writing _ _ => Z.of_nat n | _ => Z.of_nat n + 1 end
  end.

Definition ops_left (th : thread) : Z := Z.of_nat (th_left th).

Definition stage_ok (next : Z) (st : stage) : Prop :=
  match st with
  | Choosing | Inserting => True
  | Reading k | Writing k _ | Scanning k | Modifying k => 0 <= k < next
  end.

Record thread_ok (ops next : Z) (th : thread) : Prop := {
  to_rng : words (th_rng th);
  to_zipf_rng : words (z_rng (th_zipf th));
  to_zipf_n : z_n (th_zipf th) = num_keys config;
  to_zipf : forall u, zipf_index pow (th_zipf th) u = zipf_index pow zipf0 u;
  to_stage : stage_ok next (th_stage th);
  to_done : th_left th = O -> th_stage th = Choosing;
  to_latency : size (th_latency th) + Z.of_nat (th_left th) = ops
}.

Lemma inserts_left_nonneg th : 0 <= inserts_left th.
Proof. unfold inserts_left. repeat case_match; lia. Qed.

Lemma stage_ok_more next next' st : next <= next' -> stage_ok next st -> stage_ok next' st.
Proof. destruct st; simpl; lia. Qed.

Lemma thread_ok_more ops next next' th : next <= next' -> thread_ok ops next th -> thread_ok ops next' th.
Proof. intros Hn []. split; try done. by eapply stage_ok_more. Qed.

Lemma finish_ok ops next clock th : th_left th <> O -> thread_ok ops next th -> thread_ok ops next (finish clock th).
Proof. intros Hl []. split; simpl; try done. unfold rec_Add. rewrite size_app, size_cons, size_nil. lia. Qed.

Lemma goto_ok ops next st th : th_left th <> O -> stage_ok next st -> thread_ok ops next th -> thread_ok ops next (goto st th).
Proof. intros Hl Hst []. by split. Qed.

Lemma choose_ok ops clock th (sh : @shared E) :
  runnable -> thread_ok ops (sh_next_insert_key sh) th -> th_left th <> O -> num_keys config <= sh_next_insert_key sh ->
  exists th' op k, choose pow spec clock th sh = Some th' /\ thread_ok ops (sh_next_insert_key sh) th' /\ th_left th' = th_left th /\
    th_stage th' = first_stage op k.
Proof.
  intros [K1 K2 K3 K4 K5 K6] [T1 T2 T3 T4 T5 T6 T7] Hl Hn. unfold choose, Uniform.
  destruct (draw_range _ T1) as [_ W1]. destruct (draw (th_rng th)) as [n1 rng1]. unfold zipf_Next, Uniform.
  destruct (draw_range _ T2) as [Hd W2]. destruct (draw (z_rng (th_zipf th))) as [n2 rng2]. simpl in Hd, W1, W2.
  destruct (K6 n2 Hd) as [back Hback]. rewrite T4, Hback. cbn [mbind option_bind].
  assert (0 <= back < num_keys config) as Hb by (rewrite <- T3; eapply zipf_index_range; [lia|by rewrite T4]).
  do 3 eexists. split; [done|]. split_and!; [|done|done]. split; try done.
  - unfold key_choice. simpl. destruct (PickOp spec (unit_of n1)); simpl; try done; repeat case_match; lia.
Qed.

(** What one step of a thread leads to. *)
Record stepped (ops : Z) (M : Map) (th : thread) (sh : @shared E) (M' : Map) (th' : thread) (sh' : @shared E) : Prop := {
  sd_thread : thread_ok ops (sh_next_insert_key sh') th';
  sd_next : sh_next_insert_key sh <= sh_next_insert_key sh';
  sd_inserts : sh_next_insert_key sh' + inserts_left th' <= sh_next_insert_key sh + inserts_left th;
  sd_steps : steps_left th' <= steps_left th - 1;
  sd_left : ops_left th' <= ops_left th;
  sd_errors : sh_errors sh' = sh_errors sh;
  sd_kept : forall key, is_Some (M key) -> is_Some (M' key);
  sd_mine : forall j i, th_stage th = Writing j i -> is_Some (M' (MakeKey j));
  sd_new : forall j, sh_next_insert_key sh <= j < sh_next_insert_key sh' -> exists i, th_stage th' = Writing j i;
  sd_tidy : tidy limit (value_size config) M -> tidy limit (value_size config) M'
}.

Ltac measures := unfold steps_left, inserts_left, ops_left, goto, finish in *; simpl in *; repeat case_match; simpl in *; try done; lia.

Lemma finish_stepped ops clock th (sh : @shared E) s M M' :
  thread_ok ops (sh_next_insert_key sh) th -> th_left th <> O -> th_stage th <> Choosing ->
  (forall key, is_Some (M key) -> is_Some (M' key)) -> (forall j i, th_stage th = Writing j i -> is_Some (M' (MakeKey j))) ->
  (tidy limit (value_size config) M -> tidy limit (value_size config) M') ->
  stepped ops M th sh M' (finish clock th) (count_error false sh s).
Proof.
  intros Hth Hl Hst Hk Hm Ht. split; simpl; try done; try lia; try by apply finish_ok.
  all: destruct (th_left th) as [|n] eqn:El; [done|]; measures.
Qed.

Lemma thread_step_spec ops clock x th (sh : @shared E) w f M :
  runnable -> thread_ok ops (sh_next_insert_key sh) th -> th_left th <> O -> num_keys config <= sh_next_insert_key sh ->
  sh_next_insert_key sh + inserts_left th <= limit -> ops_left th <= w -> cost x <= f -> fair x -> holds w f M (sh_engine sh) ->
  exists M' th' sh', thread_step pow config spec clock x th sh = Some (th', sh') /\ stepped ops M th sh M' th' sh' /\
    holds (w - (ops_left th - ops_left th')) (f - cost x) M' (sh_engine sh').
Proof.
  intros Hrun Hth Hl Hn Hlim Hw Hc Hx Hh. pose proof Hrun as [K1 K2 K3 K4 K5 K6]. pose proof (es_cost x) as Hcx.
  pose proof (to_stage _ _ _ Hth) as Hst. pose proof (inserts_left_nonneg th) as Hi. unfold thread_step.
  assert (ops_left th = Z.of_nat (pred (th_left th)) + 1) as Hol by (unfold ops_left; lia).
  assert (forall k, 0 <= k < sh_next_insert_key sh -> 0 < size (MakeKey k) <= 24) as Hks by (intros k Hk; apply MakeKey_size; lia).
  destruct (th_stage th) as [|k|k i| |k|k] eqn:Es; simpl in Hst.
  - destruct (choose_ok ops clock th sh Hrun Hth Hl Hn) as (th' & op & k & -> & Hth' & Hl' & Hs'). cbn [mbind option_bind].
    exists M, th', sh. split; [done|]. split; [|eapply es_less; [| |exact Hh]; unfold ops_left; lia].
    split; try done; try lia; unfold inserts_left, steps_left, ops_left in *; rewrite ?Hl', ?Hs', ?Es in *; try lia;
      destruct (th_left th), op; simpl in *; done || lia.
  - destruct (es_get x (MakeKey k) w f M (sh_engine sh) Hh Hx Hc (Hks k Hst)) as (s' & -> & Hh'). cbn [mbind option_bind].
    do 3 eexists. split; [done|]. split; [apply (finish_stepped ops clock th sh s' M M); rewrite ?Es; done|].
    eapply es_less; [| |exact Hh']; unfold ops_left in *; simpl; lia.
  - destruct (es_put x (MakeKey k) (MakeValue i (value_size config)) w f M (sh_engine sh) Hh Hx) as (s' & -> & Hh');
      [lia|done|by apply Hks|rewrite MakeValue_size; lia|]. cbn [mbind option_bind negb].
    exists (apply_op1 M (kValue, MakeKey k, MakeValue i (value_size config))). do 2 eexists. split; [done|]. split.
    + apply finish_stepped; rewrite ?Es; try done.
      * intros key Hkey. simpl. by destruct (sv_eqb _ _).
      * intros j i' [= <- <-]. simpl. by rewrite (proj2 (sv_eqb_true _ _) eq_refl).
      * apply put_tidy; lia.
    + eapply es_less; [| |exact Hh']; unfold ops_left in *; simpl; lia.
  - assert (1 <= inserts_left th) as H1 by (unfold inserts_left; rewrite Es; destruct (th_left th); [done|lia]).
    exists M. do 2 eexists. split; [done|]. rewrite u64_id by lia. split.
    + split; simpl; try done; try lia.
      * apply goto_ok; [done|simpl; lia|]. eapply thread_ok_more; [|done]. lia.
      * unfold inserts_left in *. rewrite Es in *. simpl. destruct (th_left th); [done|lia].
      * unfold steps_left. rewrite Es. simpl. destruct (th_left th); [done|lia].
      * congruence.
      * intros j Hj. eexists. f_equal. lia.
    + eapply es_less; [| |exact Hh]; unfold ops_left; simpl; lia.
  - destruct (es_scan x (MakeKey k) (scan_length config) w f M (sh_engine sh) Hh Hx Hc (Hks k Hst)) as (rows & s' & -> & _ & _ & Hh').
    cbn [mbind option_bind]. do 3 eexists. split; [done|]. split; [apply (finish_stepped ops clock th sh s' M M); rewrite ?Es; done|].
    eapply es_less; [| |exact Hh']; unfold ops_left in *; simpl; lia.
  - destruct (es_get x (MakeKey k) w f M (sh_engine sh) Hh Hx Hc (Hks k Hst)) as (s' & -> & Hh'). cbn [mbind option_bind].
    exists M. do 2 eexists. split; [done|]. split; [|eapply es_less; [| |exact Hh']; unfold ops_left; simpl; lia].
    split; simpl; try done; try lia.
    + by apply goto_ok.
    + unfold inserts_left. rewrite Es. simpl. destruct (th_left th); lia.
    + unfold steps_left. rewrite Es. simpl. destruct (th_left th); [done|lia].
    + congruence.
Qed.

(** *** Any interleaving *)

(** [ops] operations per thread; [spare] more writes are afforded. *)
Record mixing (ops spare f : Z) (M : Map) (ths : list thread) (sh : @shared E) : Prop := {
  mx_holds : holds (total ops_left ths + spare) f M (sh_engine sh);
  mx_errors : sh_errors sh = 0;
  mx_keys : num_keys config <= sh_next_insert_key sh;
  mx_limit : sh_next_insert_key sh + total inserts_left ths <= limit;
  mx_tidy : tidy limit (value_size config) M;
  mx_stock : forall j, 0 <= j < sh_next_insert_key sh ->
    is_Some (M (MakeKey j)) \/ exists t th i, ths !! t = Some th /\ th_stage th = Writing j i;
  mx_threads : Forall (thread_ok ops (sh_next_insert_key sh)) ths
}.

(** The turns thread [t] gets. *)
Definition turns_of (t : nat) (evs : list mixed_event) : Z := total (fun ev : @mixed_event X => if Nat.eqb (m_thread ev) t then 1 else 0) evs.

Lemma turns_of_nonneg t evs : 0 <= turns_of t evs.
Proof. apply total_ge_0. intros ev. by destruct (Nat.eqb (m_thread ev) t). Qed.

Lemma stock_kept (t : nat) th th' (ths : list thread) M M' (sh sh' : @shared E) ops :
  ths !! t = Some th -> stepped ops M th sh M' th' sh' ->
  (forall j, 0 <= j < sh_next_insert_key sh -> is_Some (M (MakeKey j)) \/ exists t th i, ths !! t = Some th /\ th_stage th = Writing j i) ->
  forall j, 0 <= j < sh_next_insert_key sh' ->
    is_Some (M' (MakeKey j)) \/ exists u th i, <[t := th']> ths !! u = Some th /\ th_stage th = Writing j i.
Proof.
  intros Ht [D1 D2 D3 D4 D5 D6 D7 D8 D9 D10] Hst j Hj. pose proof (lookup_lt_Some _ _ _ Ht) as Hlen.
  destruct (Z.lt_ge_cases j (sh_next_insert_key sh)) as [Hlt|Hge].
  - destruct (Hst j ltac:(lia)) as [?|(u & thu & i & Hu & Hi)]; [by left; apply D7|].
    destruct (decide (u = t)) as [->|Hne]; [left; simplify_eq; by eapply D8|right]. exists u, thu, i. by rewrite list_lookup_insert_ne.
  - destruct (D9 j ltac:(lia)) as [i Hi]. right. exists t, th', i. by rewrite list_lookup_insert_eq.
Qed.

Lemma mixed_step_spec ops spare f M ths sh ev :
  runnable -> 0 <= spare -> mixing ops spare f M ths sh -> fair (m_call ev) -> cost (m_call ev) <= f ->
  exists M' ths' sh', mixed_step pow config spec ev (ths, sh) = Some (ths', sh') /\ mixing ops spare (f - cost (m_call ev)) M' ths' sh' /\
    length ths' = length ths /\
    forall t th', ths' !! t = Some th' -> exists th, ths !! t = Some th /\
      steps_left th' <= Z.max 0 (steps_left th - if Nat.eqb (m_thread ev) t then 1 else 0).
Proof.
  intros Hrun Hsp Hmx Hx Hc. pose proof Hmx as [X1 X2 X3 X4 X5 X6 X7]. pose proof (es_cost (m_call ev)) as Hcx.
  assert (forall th : thread, 0 <= ops_left th) as Ho by (intros; unfold ops_left; lia).
  assert (forall sh' : @shared E, sh' = sh -> mixing ops spare (f - cost (m_call ev)) M ths sh') as Hsame.
  { intros ? ->. split; try done. eapply es_less; [| |exact X1]; lia. }
  unfold mixed_step. cbn [fst snd]. destruct (ths !! m_thread ev) as [th|] eqn:Et.
  2:{ exists M, ths, sh. split_and!; [done|by apply Hsame|done|]. intros t th' Ht. exists th'. split; [done|].
      destruct (Nat.eqb_spec (m_thread ev) t); [congruence|lia]. }
  destruct (th_left th) as [|n] eqn:El.
  { exists M, ths, sh. split_and!; [done|by apply Hsame|done|]. intros t th' Ht. exists th'. split; [done|].
    destruct (Nat.eqb_spec (m_thread ev) t) as [<-|]; [|lia]. simplify_eq. unfold steps_left. rewrite El. lia. }
  pose proof (total_lookup inserts_left ths _ _ inserts_left_nonneg Et) as Hil. pose proof (total_lookup ops_left ths _ _ Ho Et) as Hol.
  destruct (thread_step_spec ops (m_clock ev) (m_call ev) th sh (total ops_left ths + spare) f M Hrun (Forall_lookup_1 _ _ _ _ X7 Et))
    as (M' & th' & sh' & -> & Hd & Hh); [congruence|done|lia|lia|done|done|done|]. cbn [mbind option_bind].
  pose proof Hd as [D1 D2 D3 D4 D5 D6 D7 D8 D9 D10].
  exists M', (<[m_thread ev := th']> ths), sh'. split; [done|]. split; [|split; [by rewrite length_insert|]].
  - split; try done; try congruence; try lia.
    + rewrite (total_insert _ _ _ _ _ Et). eapply es_less; [| |exact Hh]; lia.
    + rewrite (total_insert _ _ _ _ _ Et). lia.
    + by apply D10.
    + by eapply stock_kept.
    + apply Forall_insert; [|done]. eapply Forall_impl; [exact X7|]. intros y. by apply thread_ok_more.
  - intros t y Hy. destruct (Nat.eqb_spec (m_thread ev) t) as [<-|Hne].
    + rewrite list_lookup_insert_eq in Hy by (by eapply lookup_lt_Some). simplify_eq. exists th. split; [done|lia].
    + rewrite list_lookup_insert_ne in Hy by done. exists y. split; [done|lia].
Qed.

Lemma mixed_steps_spec ops spare evs : forall f M ths sh,
  runnable -> 0 <= spare -> mixing ops spare f M ths sh -> Forall (fun ev => fair (m_call ev)) evs ->
  total (fun ev => cost (m_call ev)) evs <= f -> (forall t th, ths !! t = Some th -> steps_left th <= turns_of t evs) ->
  exists M' ths' sh', mixed_steps pow config spec evs (ths, sh) = Some (ths', sh') /\
    mixing ops spare (f - total (fun ev => cost (m_call ev)) evs) M' ths' sh' /\ length ths' = length ths /\
    Forall (fun th => th_left th = O) ths'.
Proof.
  induction evs as [|ev evs IH]; intros f M ths sh Hrun Hsp Hmx Hf Hc Hst; cbn [mixed_steps].
  { exists M, ths, sh. cbn [total foldr]. rewrite Z.sub_0_r. split_and!; try done. apply Forall_lookup_2. intros t th Ht.
    specialize (Hst t th Ht). unfold turns_of, steps_left in Hst. simpl in Hst. destruct (th_left th); [done|]. destruct (th_stage th); lia. }
  apply Forall_cons in Hf as [Hf1 Hf]. rewrite total_cons in *.
  pose proof (total_ge_0 (fun ev => cost (m_call ev)) evs (fun ev => es_cost (m_call ev))) as Hnn.
  destruct (mixed_step_spec ops spare f M ths sh ev Hrun Hsp Hmx Hf1 ltac:(lia)) as (M1 & ths1 & sh1 & -> & Hmx1 & Hl1 & Hst1).
  cbn [mbind option_bind]. destruct (IH _ M1 ths1 sh1 Hrun Hsp Hmx1 Hf) as (M' & ths' & sh' & -> & Hmx' & Hl' & Hdone); [lia| |].
  { intros t th' Ht. destruct (Hst1 t th' Ht) as (th & Hth & Hle). specialize (Hst t th Hth). pose proof (turns_of_nonneg t evs).
    unfold turns_of in *. rewrite total_cons in Hst. lia. }
  exists M', ths', sh'. split_and!; [done| |congruence|done].
  by replace (f - (cost (m_call ev) + total (fun ev => cost (m_call ev)) evs)) with (f - cost (m_call ev) - total (fun ev => cost (m_call ev)) evs) by lia.
Qed.

Lemma merged_size ops ths : forall r next,
  Forall (thread_ok ops next) ths -> Forall (fun th => th_left th = O) ths ->
  size (fold_left (fun r th => rec_Merge (th_latency th) r) ths r) = size r + ops * size ths.
Proof.
  induction ths as [|th ths IH]; intros r next Hok Hl; [rewrite size_nil; simpl; lia|].
  apply Forall_cons in Hok as [H1 Hok], Hl as [L1 Hl]. cbn [fold_left]. rewrite (IH _ next Hok Hl), size_cons.
  pose proof (to_latency _ _ _ H1). unfold rec_Merge. rewrite size_app. lia.
Qed.

Lemma new_threads_total (g : thread -> Z) n ops :
  (forall t, g (new_thread pow config ops t) = ops) -> forall a, total g (map (fun t => new_thread pow config ops (Z.of_nat t)) (seq a n)) = ops * Z.of_nat n.
Proof.
  intros Hg. induction n as [|n IH]; intros a; [simpl; lia|]. cbn [seq map]. rewrite total_cons, Hg, IH. lia.
Qed.

Lemma RunMixed_spec start stop evs w f M s :
  runnable -> holds w f M s -> num_ops config <= w -> stocked (num_keys config) M -> tidy limit (value_size config) M ->
  Forall (fun ev => fair (m_call ev)) evs -> total (fun ev => cost (m_call ev)) evs <= f ->
  let ops := num_ops config / threads config in
  (forall t, (t < Z.to_nat (threads config))%nat -> 3 * ops <= turns_of t evs) ->
  exists r M' s', RunMixed pow config spec start stop evs s = Some (r, 0, s') /\
    rs_operations r = ops * threads config /\ size (rs_latency r) = rs_operations r /\
    holds (w - num_ops config) (f - total (fun ev => cost (m_call ev)) evs) M' s' /\
    stocked (num_keys config) M' /\ tidy limit (value_size config) M'.
Proof.
  intros Hrun Hh Hw Hst Hti Hf Hc ops Hev. pose proof Hrun as [K1 K2 K3 K4 K5 K6]. unfold RunMixed.
  destruct (Z.leb_spec (threads config) 0); [lia|]. cbv zeta. fold ops. set (new := map _ _).
  assert (0 <= ops) as Hops by (apply Z.div_pos; lia). assert (ops * threads config <= num_ops config) as Hle.
  { unfold ops. pose proof (Z.mul_div_le (num_ops config) (threads config) ltac:(lia)). lia. }
  assert (total ops_left new = ops * threads config) as Ho.
  { unfold new. rewrite new_threads_total, Z2Nat.id by first [lia|intros t; unfold ops_left; simpl; lia]. done. }
  assert (total inserts_left new = ops * threads config) as Hi.
  { unfold new. rewrite new_threads_total, Z2Nat.id by first [lia|intros t; unfold inserts_left; simpl; destruct (Z.to_nat ops) eqn:Eo; lia]. done. }
  assert (length new = Z.to_nat (threads config)) as Hlen by (unfold new; by rewrite length_map, length_seq).
  assert (forall t th, new !! t = Some th -> th = new_thread pow config ops (Z.of_nat t)) as Hnew.
  { intros t th Ht. unfold new in Ht. apply list_lookup_fmap_Some in Ht as (u & -> & Hu). by apply lookup_seq in Hu as [-> _]. }
  destruct (mixed_steps_spec ops (w - ops * threads config) evs f M new (mkShared (num_keys config) 0 s) Hrun ltac:(lia))
    as (M' & ths & sh & -> & [X1 X2 X3 X4 X5 X6 X7] & Hl & Hdone); [|done|done| |].
  - split; simpl; try done; try lia.
    + rewrite Ho. by replace (ops * threads config + (w - ops * threads config)) with w by lia.
    + intros j Hj. left. by apply Hst.
    + apply Forall_lookup_2. intros t th ->%Hnew. split; simpl; try done; try apply mt19937_64_words. rewrite size_nil. lia.
  - intros t th Ht. pose proof (lookup_lt_Some _ _ _ Ht) as Hlt. apply Hnew in Ht as ->. specialize (Hev t ltac:(lia)).
    unfold steps_left. simpl. destruct (Z.to_nat ops) eqn:Eo; lia.
  - cbn [mbind option_bind]. assert (forallb (fun th => Nat.eqb (th_left th) 0) ths = true) as ->.
    { apply forallb_forall. intros th Hin. rewrite Forall_forall in Hdone. apply Nat.eqb_eq, Hdone. by apply list_elem_of_In. }
    assert (size ths = threads config) as Hsz by (unfold size; lia).
    exists (mkResult (ws_name spec) (u64 (ops * threads config)) (elapsed start stop) (fold_left (fun r th => rec_Merge (th_latency th) r) ths [])), M', (sh_engine sh).
    rewrite X2. simpl. rewrite u64_id by (unfold limit in *; nia). split_and!; try done.
    + rewrite (merged_size ops ths [] _ X7 Hdone), size_nil, Hsz. lia.
    + eapply es_less; [| |exact X1]; [|lia]. assert (0 <= total ops_left ths) by (apply total_ge_0; intros; unfold ops_left; lia). lia.
    + intros j Hj. destruct (X6 j ltac:(lia)) as [?|(t & th & i & Ht & Hi')]; [done|].
      rewrite (to_done _ _ _ (Forall_lookup_1 _ _ _ _ X7 Ht) (Forall_lookup_1 _ _ _ _ Hdone Ht)) in Hi'. done.
Qed.

End DriverProofs.

(** ** All workloads *)

Section WorkloadProofs.
Context {X E : Type} {eng : Engine X E} {fair : X -> Prop} {cost : X -> Z} {pause longest : Z} {holds : Z -> Z -> Map -> E -> Prop}.
Context {spec_of : EngineSpec eng fair cost pause longest holds}.
Context (pow : spec_float -> spec_float -> spec_float) (config : Config).

(** What a workload uses. *)
Definition run_writes (r : @run X) : Z := match r with LoadRun _ _ _ _ => num_keys config | MixedRun _ _ _ => num_ops config end.

Definition run_cost (r : @run X) : Z :=
  match r with
  | LoadRun _ _ evs wait => total (fun ev => cost (l_call ev)) evs + (cost wait + pause)
  | MixedRun _ _ evs => total (fun ev => cost (m_call ev)) evs
  end.

(** The events belong to the workload, nothing fails around a call, and every
    thread gets the three turns an operation may take. *)
Definition run_fits (name : string) (r : @run X) : Prop :=
  match r with
  | LoadRun _ _ evs wait => name = "load"%string /\ size evs = num_keys config /\ Forall (fun ev => fair (l_call ev)) evs /\ fair wait
  | MixedRun _ _ evs =>
      name <> "load"%string /\ Forall (fun ev => fair (m_call ev)) evs /\
      forall t, (t < Z.to_nat (threads config))%nat -> 3 * (num_ops config / threads config) <= turns_of t evs
  end.

(** A result without errors, with a latency for every operation. *)
Definition flawless (name : string) (r : Result * Z) : Prop :=
  rs_operations r.1 = (if String.eqb name "load" then num_keys config else num_ops config / threads config * threads config) /\
  size (rs_latency r.1) = rs_operations r.1 /\ r.2 = 0.

(** Keys are there, unless the load is still to come. *)
Definition ready (names : list string) (M : Map) : Prop := head names = Some "load"%string \/ stocked (num_keys config) M.

Abbreviation limit := (num_keys config + num_ops config).

Lemma load_run_spec start stop evs wait w f M s :
  @runnable longest pow config -> holds w f M s -> tidy limit (value_size config) M -> run_fits "load" (LoadRun start stop evs wait) ->
  num_keys config <= w -> run_cost (LoadRun start stop evs wait) <= f ->
  exists r M' s1 s', RunLoad config start stop evs s = Some (inr r, s1) /\ eng_Wait wait s1 = Some s' /\ flawless "load" (r, 0) /\
    holds (w - num_keys config) (f - run_cost (LoadRun start stop evs wait)) M' s' /\ stocked (num_keys config) M' /\
    loaded config (num_keys config) M' /\ tidy limit (value_size config) M'.
Proof.
  intros [K1 K2 K3 K4 K5 K6] Hh Ht (_ & Hn & Hf & Hfw) Hw Hc. cbn [run_cost] in *. unfold RunLoad. rewrite Hn, Z.eqb_refl. cbn [negb].
  pose proof (es_cost wait) as Hcw. pose proof es_pause as Hp.
  destruct (load_keys_spec config evs 0 w f M s [] Hh Hf) as (lat & M' & s1 & -> & Hl & Hh1 & HM & HT); [lia..|intros j Hj; lia|].
  cbn [mbind option_bind]. rewrite Hn, Z.add_0_l in *. destruct (es_wait wait _ _ M' s1 Hh1 Hfw) as (s' & Hs' & Hh'); [lia|].
  do 4 eexists. split; [done|]. split; [exact Hs'|]. split_and!; [by unfold flawless| | |exact HM|apply HT; [lia|done]].
  - eapply es_less; [| |exact Hh']; lia.
  - intros j Hj. by rewrite (HM j Hj).
Qed.

Lemma run_cost_nonneg r : 0 <= run_cost r.
Proof.
  assert (forall A (g : A -> X) l, 0 <= total (fun a => cost (g a)) l) as Hg by (intros; apply total_ge_0; intros; apply es_cost).
  destruct r as [start stop evs wait|start stop evs]; simpl; [|apply Hg]. pose proof (Hg _ l_call evs). pose proof (es_cost wait). pose proof es_pause. lia.
Qed.

Lemma run_workloads_spec names : forall runs w f M s,
  @runnable longest pow config -> Forall2 run_fits names runs -> total run_writes runs <= w -> total run_cost runs <= f ->
  holds w f M s -> tidy limit (value_size config) M -> ready names M ->
  exists results M' s', run_workloads pow config names runs s = Some (inr results, s') /\ Forall2 flawless names results /\
    holds (w - total run_writes runs) (f - total run_cost runs) M' s' /\ tidy limit (value_size config) M' /\ stocked (num_keys config) M'.
Proof.
  induction names as [|name names IH]; intros runs w f M s Hrun Hfit Hw Hc Hh Ht Hr; inversion Hfit as [|? r ? runs' Hf1 Hfs E1 E2]; subst.
  { exists [], M, s. cbn [total foldr]. rewrite !Z.sub_0_r. destruct Hr as [|Hr]; [done|]. by split_and!. }
  rewrite !total_cons in *. pose proof Hrun as [K1 K2 K3 K4 K5 K6].
  assert (0 <= total run_writes runs') as Hw' by (apply total_ge_0; intros []; simpl; lia).
  pose proof (total_ge_0 run_cost runs' run_cost_nonneg) as Hc'.
  destruct r as [start stop evs wait|start stop evs]; cbn [run_workloads].
  - pose proof Hf1 as (-> & _). change (String.eqb "load" "load") with true. cbn iota. cbn [run_writes] in *.
    destruct (load_run_spec start stop evs wait w f M s Hrun Hh Ht Hf1) as (r & M1 & s1 & s2 & -> & Hs2 & Hfl & Hh2 & Hst & _ & Ht2); [lia..|].
    cbn [mbind option_bind]. rewrite Hs2. cbn [mbind option_bind].
    destruct (IH runs' (w - num_keys config) (f - run_cost (LoadRun start stop evs wait)) M1 s2 Hrun Hfs ltac:(lia) ltac:(lia) Hh2 Ht2 (or_intror Hst)) as (results & M' & s' & -> & Hres & Hh' & Ht' & Hst').
    cbn [mbind option_bind]. do 3 eexists. split; [done|]. split_and!; [by constructor| |done|done].
    eapply es_less; [| |exact Hh']; lia.
  - pose proof Hf1 as (Hne & Hfe & Hev). assert (String.eqb name "load" = false) as -> by (by apply String.eqb_neq). cbn [run_writes run_cost] in *.
    assert (stocked (num_keys config) M) as Hst by (destruct Hr as [[= ->]|]; [by destruct Hne|done]).
    destruct (RunMixed_spec pow config (SpecFor name) start stop evs w f M s Hrun Hh) as (r & M1 & s1 & -> & Ho & Hl & Hh1 & Hst1 & Ht1);
      [lia|done|done|done|lia|done|]. cbn [mbind option_bind].
    destruct (IH runs' (w - num_ops config) (f - total (fun ev => cost (m_call ev)) evs) M1 s1 Hrun Hfs ltac:(lia) ltac:(lia) Hh1 Ht1 (or_intror Hst1)) as (results & M' & s' & -> & Hres & Hh' & Ht' & Hst').
    cbn [mbind option_bind]. do 3 eexists. split; [done|]. split_and!; [|eapply es_less; [| |exact Hh']; lia|done|done].
    constructor; [|done]. unfold flawless. cbn [fst snd]. by rewrite (proj2 (String.eqb_neq _ _) Hne).
Qed.

End WorkloadProofs.
