(* ===== verification/Bench.v ===== *)
(** * The benchmark on this database (bench/engine.h, [main] of bench/bench.cpp)

    [LsmEngine] is the database behind the interface of the benchmark. It meets
    [EngineSpec], so the drivers of [Workload] run on it to their end. *)

From Stdlib Require Import Ascii String SpecFloat.
From stdpp Require Import gmap strings.
From S2P Require Import Prelude Coding InternalKey Posix WriteBatch Wal Versions Iterator Skiplist MemTable Cache Block Merge DbIter Options Sstable Records Table Levels ReadPath Gc FileNames Manifest Db Flush Compaction Stats Install Background Disk Session Write Upkeep Commit Recovery Restart System Text Budget Workload.
Open Scope list_scope.

Record EngineConfig := mkEngineConfig {
  ec_path : string;
  ec_memtable_size_bytes : Z;
  ec_block_size_bytes : Z;
  ec_bloom_bits_per_key : Z;
  ec_block_cache_bytes : Z;
  ec_sync_every_write : bool;
  ec_verify_checksums : bool
}.

Definition lsm_options (config : EngineConfig) (policy : SyncPolicy) : Options :=
  mkOptions true false (ec_memtable_size_bytes config) (ec_block_size_bytes config) 16 (ec_bloom_bits_per_key config)
    (ec_block_cache_bytes config) 4 (Z.shiftl 16 20) (Z.shiftl 4 20) policy 1000 true (ec_verify_checksums config).

(** What happens around a call: turns of the background thread before it, the
    outcomes of its own system calls, the clock, and fuel for its loops. *)
Record call := mkCall {
  k_turns : list (list sysret);
  k_oracle : list sysret;
  k_now : Z;
  k_after : Z;
  k_fuel : nat
}.

Section LsmEngine.
Context {R : Type} (rnd : R -> Z * R) (seed : R).
Abbreviation DB := (@DB R).

(** The error, or the engine. *)
Definition LsmEngine_Open (config : EngineConfig) (policy : SyncPolicy) (exists_ : bool) (now : Z) (w : World)
  : option ((string * Env) + (DB * Env)) :=
  '(s, db, e) ← DB_Open rnd seed (lsm_options config policy) (ec_path config) exists_ now w;
  if negb (Status.ok s) then Some (inl (Status.ToString s, e)) else d ← db; Some (inr (d, e)).

(** The state a call meets. *)
Definition arrive (x : call) (s : DB * Env) : option (DB * Env) :=
  '(d, e) ← background (k_turns x) s.1 s.2; Some (d, with_outcomes (k_oracle x) e).

Definition lsm_Put (x : call) (key value : bytes) (s : DB * Env) : option (bool * (DB * Env)) :=
  '(d, e) ← arrive x s;
  '(s, d, e) ← DB_Put rnd seed 3 0 (k_now x) (k_after x) default_WriteOptions key value d e;
  Some (Status.ok s, (d, e)).

Definition lsm_Get (x : call) (key : bytes) (s : DB * Env) : option (bool * option bytes * bool * (DB * Env)) :=
  '(d, e) ← arrive x s;
  '(s, value, d, e) ← DB_Get default_ReadOptions key d e;
  Some (Status.ok s, value, negb (Status.ok s) && negb (Status.IsNotFound s), (d, e)).

(** The loop of [Scan]; [more] is [max_entries - seen]. *)
Fixpoint count_rows {I} {ops : Iterator Env I} (more n : nat) (it : @DBIter I) (e : Env) (seen : Z) : Z * @DBIter I * Env :=
  match more with
  | O => (seen, it, e)
  | S more => if valid_ it then let '(it, e) := d_Next n it e in count_rows more n it e (seen + 1) else (seen, it, e)
  end.

Definition lsm_Scan (x : call) (start : bytes) (max_entries : Z) (s : DB * Env) : option (Z * (DB * Env)) :=
  '(d, e) ← arrive x s;
  let n := S (k_fuel x) in
  let '(it, e) := d_Seek n start (DB_NewIterator default_ReadOptions d) e in
  let '(seen, it, e) := count_rows (Z.to_nat max_entries) n it e 0 in
  Some (seen, (destroy_DBIter it d, e)).

Definition lsm_Wait (x : call) (s : DB * Env) : option (DB * Env) :=
  '(d, e) ← arrive x s; WaitForBackgroundWork (k_fuel x) d e.

#[export] Instance LsmEngine : Engine call (DB * Env) :=
  {| eng_Put := lsm_Put; eng_Get := lsm_Get; eng_Scan := lsm_Scan; eng_Wait := lsm_Wait; eng_name := "lsmtree" |}.

(** [main] once its arguments are read and the directory is cleared: the exit
    status, and the results when it is 0. *)
Definition engine_config (path : string) (config : Config) : EngineConfig :=
  mkEngineConfig path (Z.shiftl 4 20) 4096 10 (cf_block_cache_bytes config) (String.eqb (sync_policy_name config) "every")
    (cf_verify_checksums config).

Definition bench_main (pow : spec_float -> spec_float -> spec_float) (path : string) (config : Config) (exists_ : bool) (now : Z)
    (runs : list (@run call)) (last : call) (w : World) : option (Z * list (Result * Z) * Env) :=
  if negb (String.eqb (engine config) "lsmtree") then Some (2, [], mkEnv w None ∅)
  else
    db ← LsmEngine_Open (engine_config path config) (ParseSyncPolicy (sync_policy_name config)) exists_ now w;
    match db with
    | inl (_, e) => Some (1, [], e)
    | inr s =>
        '(r, s) ← run_workloads pow config (Split (workloads config) ",") runs s;
        match r with
        | inl _ => Some (1, [], s.2)
        | inr results => '(d, e) ← eng_Wait last s; Some (0, results, destroy_DB d e)
        end
    end.

End LsmEngine.

(** ** Counting rows *)

Lemma count_rows_at {I} {ops : Iterator Env I} (Winv : Env -> Prop) at_ {spec : IteratorSpec ops Winv at_} n more : forall it e es rs seen,
  db_at at_ n it es rs -> Winv e ->
  let r := count_rows more (S n) it e seen in r.1.1 = seen + Z.min (Z.of_nat more) (size rs) /\ Winv r.2.
Proof.
  induction more as [|more IH]; intros it e es rs seen Hat He; cbn [count_rows].
  { pose proof (size_nonneg rs). simpl. split; [lia|done]. }
  destruct rs as [|[k v] rs].
  - destruct Hat as (-> & _). unfold size. simpl. split; [lia|done].
  - destruct (d_Next_at Winv at_ n it e es k v rs Hat He) as (Hat' & He' & _). destruct Hat as (-> & _).
    destruct (d_Next (S n) it e) as [it' e']. cbn [fst snd] in *. destruct (IH it' e' es rs (seen + 1) Hat' He') as [H1 H2].
    split; [|done]. rewrite H1, size_cons. lia.
Qed.

(** ** The contract *)

Section LsmEngineSpec.
Context {R : Type} (rnd : R -> Z * R) (seed : R).
Abbreviation DB := (@DB R).
Context (o : Options) (dir : string) (most : Z).   (** the writes of the whole run *)
Context (Hsuits : suits seed o) (Hmost : 0 <= most < 2 ^ 32).

Definition lsm_holds (w f : Z) (M : Map) (s : DB * Env) : Prop :=
  exists A c, sized seed o dir (most - Z.max 0 w) (2 ^ 32 - 3 - f) A c s.1 s.2 /\ unhooked s.1 /\ db_bg_error s.1 = Status.OK /\
    (forall key, now A key = M key).

(** No system call fails, and there is fuel. *)
Definition lsm_fair (x : call) : Prop :=
  Forall (fun oracle => oracle = []) (k_turns x) /\ k_oracle x = [] /\ drain_turns most <= Z.of_nat (k_fuel x).

Definition lsm_cost (x : call) : Z := (size (k_turns x) + 1) * (most + 2).

Lemma arrive_spec x w f M s :
  lsm_holds w f M s -> lsm_fair x -> lsm_cost x <= f ->
  exists A c d e, arrive x s = Some (d, e) /\ w_oracle (e_world e) = [] /\ unhooked d /\ db_bg_error d = Status.OK /\
    (forall key, now A key = M key) /\ 0 <= most - Z.max 0 w <= most /\
    sized seed o dir (most - Z.max 0 w) (2 ^ 32 - 3 - f + size (k_turns x) * (most + 1)) A c d e.
Proof.
  intros (A & c & Hz & Hu & Hb & HM) (F1 & F2 & F3) Hc. pose proof Hz as [Z1 Z2 Z3 Z4 Z5 Z6 Z7]. pose proof (size_nonneg (everything c)) as Hn.
  pose proof (size_nonneg (k_turns x)) as Hs. unfold lsm_cost in Hc. unfold arrive.
  assert (size (k_turns x) * (most - Z.max 0 w + 1) <= size (k_turns x) * (most + 1)) as Hle by (apply Z.mul_le_mono_nonneg_l; lia).
  destruct (sized_turns seed o dir (most - Z.max 0 w) A (k_turns x) _ c s.1 s.2 ltac:(lia) (su_trigger _ _ Hsuits) Hz Hu) as (c' & d & e & -> & Hz' & Hu' & Hb'); [nia|].
  cbn [mbind option_bind]. rewrite F2. exists A, c', d, (with_outcomes [] e). split_and!; [done|done|done|by apply Hb'|done|lia|lia|].
  apply sized_outcomes; [|done]. eapply sized_more; [|exact Hz']. lia.
Qed.

Lemma holds_intro w f M A c d e limit n :
  sized seed o dir n limit A c d e -> unhooked d -> db_bg_error d = Status.OK -> (forall key, now A key = M key) ->
  n <= most - Z.max 0 w -> limit <= 2 ^ 32 - 3 - f -> lsm_holds w f M (d, e).
Proof.
  intros [Z1 Z2 Z3 Z4 Z5 Z6 Z7] Hu Hb HM Hn Hl. exists A, c. split_and!; try done. split; try done; simpl; lia.
Qed.

Lemma lsm_put_spec x key value w f M s :
  lsm_holds w f M s -> lsm_fair x -> 1 <= w -> lsm_cost x <= f -> 0 < size key <= 24 -> size value <= 1800 ->
  exists s', lsm_Put rnd seed x key value s = Some (true, s') /\ lsm_holds (w - 1) (f - lsm_cost x) (apply_op1 M (kValue, key, value)) s'.
Proof.
  intros Hh Hf Hw Hc Hk Hv. destruct (arrive_spec x w f M s Hh Hf Hc) as (A & c & d & e & Ha & Ho & Hu & Hb & HM & Hn & Hz).
  assert (small_pair key value) as Hp by (unfold small_pair; lia). pose proof Hz as [Z1 Z2 Z3 Z4 Z5 Z6 Z7]. pose proof Hsuits as [S1 S2 S3 S4 S5].
  pose proof (size_nonneg (k_turns x)) as Hs. unfold lsm_cost in *.
  unfold lsm_Put. rewrite Ha. cbn [mbind option_bind]. unfold DB_Put, DB_Write. change (WriteBatch.empty _) with false. cbn iota. fold (put_batch key value).
  assert (room_files (db_options d) (size (everything c)) = size (everything c) + 1) as Hrf by (unfold room_files; by rewrite Z2, S1).
  destruct (lead_spec rnd seed A c d e 0 0 (k_now x) (k_after x) (new_Writer default_WriteOptions (put_batch key value)) [] [[(kValue, key, value)]])
    as (s1 & k & d' & e' & c' & -> & Hled); [done| |constructor; [split; [by apply put_batch_repr|done]|constructor]|eapply put_storable; [done|exact Hz|lia|done]|].
  { split; rewrite ?Hrf, ?Z2; [done|done|congruence|nia]. }
  cbn [mbind option_bind]. assert (k = 1%nat) as -> by (pose proof (le_covered _ _ _ _ _ _ _ _ _ _ _ _ Hled); simpl in *; lia).
  destruct (le_calm _ _ _ _ _ _ _ _ _ _ _ _ Hled Ho Hb) as [-> _].
  destruct (sized_led seed _ _ _ _ (most + 2) _ _ _ _ _ _ _ _ _ _ _ Hz Hp Hled eq_refl) as [Hz' Hu']; [rewrite <- Z2; lia|].
  eexists. split; [done|]. eapply holds_intro; [exact Hz'|done| | |lia|nia].
  - by rewrite (le_fine _ _ _ _ _ _ _ _ _ _ _ _ Hled).
  - intros q. by apply (apply_op1_ext (now A) M (kValue, key, value) q).
Qed.

(** The state after a read. *)
Lemma read_holds x calm truth floor w f M A c d e e' st :
  sized seed o dir (most - Z.max 0 w) (2 ^ 32 - 3 - f + size (k_turns x) * (most + 1)) A c d e -> db_ok truth floor c d e -> seen seed A c d e ->
  env_inv calm truth (w_files (e_world e)) e' -> unhooked d -> db_bg_error d = Status.OK -> (forall key, now A key = M key) ->
  lsm_holds w (f - lsm_cost x) M (with_db_stats st d, e').
Proof.
  intros Hz Hok Hse He Hu Hb HM. pose proof (size_nonneg (k_turns x)). unfold lsm_cost. eapply holds_intro; [by eapply sized_read|done|done|done|lia|nia].
Qed.

Lemma lsm_get_spec x key w f M s :
  lsm_holds w f M s -> lsm_fair x -> lsm_cost x <= f -> 0 < size key <= 24 ->
  exists s', lsm_Get x key s = Some (bool_decide (is_Some (M key)), M key, false, s') /\ lsm_holds w (f - lsm_cost x) M s'.
Proof.
  intros Hh Hf Hc Hk. destruct (arrive_spec x w f M s Hh Hf Hc) as (A & c & d & e & Ha & Ho & Hu & Hb & HM & Hn & Hz).
  destruct (sz_use _ _ _ _ _ _ _ _ _ Hz) as (truth & floor & Hok & Hse). pose proof (ok_last _ _ _ _ _ Hok) as Hlast.
  unfold lsm_Get. rewrite Ha. cbn [mbind option_bind].
  destruct (view_Get_spec true truth (w_files (e_world e)) key (read_view default_ReadOptions d) c e) as (g & e' & Hg & He');
    [eapply ok_view; [exact Hok|change (0 <= db_last_sequence d <= kMaxSequenceNumber); lia]|by apply (ok_env true truth floor c d)|lia|].
  unfold DB_Get. rewrite Hg. cbn [mbind option_bind]. pose proof (se_now _ _ _ _ _ Hse key) as Hnow. rewrite HM in Hnow.
  change (concat (all_sources c)) with (everything c). change (rv_seq (read_view default_ReadOptions d)) with (db_last_sequence d).
  destruct (read (everything c) key (db_last_sequence d)) as [[v|]|]; cbn [value_of verdict mbind option_bind] in *; rewrite Hnow;
    (eexists; split; [reflexivity|by eapply read_holds]).
Qed.

Lemma lsm_scan_spec x start max_entries w f M s :
  lsm_holds w f M s -> lsm_fair x -> lsm_cost x <= f -> 0 < size start <= 24 ->
  exists rows s', lsm_Scan x start max_entries s = Some (Z.min (Z.max 0 max_entries) (size rows), s') /\
    StronglySorted (fun a b => sv_compare a.1 b.1 < 0) rows /\
    (forall k v, (k, v) ∈ rows <-> M k = Some v /\ 0 <= sv_compare k start) /\ lsm_holds w (f - lsm_cost x) M s'.
Proof.
  intros Hh Hf Hc Hk. destruct (arrive_spec x w f M s Hh Hf Hc) as (A & c & d & e & Ha & Ho & Hu & Hb & HM & Hn & Hz).
  destruct (sz_use _ _ _ _ _ _ _ _ _ Hz) as (truth & floor & Hok & Hse). pose proof (ok_last _ _ _ _ _ Hok) as Hlast.
  destruct Hf as (_ & _ & Hfuel). unfold drain_turns in Hfuel. pose proof (sz_count _ _ _ _ _ _ _ _ _ Hz) as Hcount.
  destruct (view_seek_spec true truth (w_files (e_world e)) start (read_view default_ReadOptions d) c e (k_fuel x)) as (es & rows & Hat & He1 & Hs & Hr);
    [eapply ok_view; [exact Hok|change (0 <= db_last_sequence d <= kMaxSequenceNumber); lia]|by apply (ok_env true truth floor c d)|lia|unfold everything, size in *; lia|].
  unfold lsm_Scan. rewrite Ha. cbn [mbind option_bind]. unfold DB_NewIterator. destruct (d_Seek _ start _ e) as [it e1]. cbn [fst snd] in Hat, He1.
  pose proof (count_rows_at _ _ _ (Z.to_nat max_entries) it e1 es rows 0 Hat He1) as [Hcnt He2].
  destruct (count_rows _ _ it e1 0) as [[seen it'] e2]. cbn [fst snd] in Hcnt, He2. exists rows. eexists. split; [do 2 f_equal; lia|].
  split_and!; [done| |by eapply read_holds]. intros k v. rewrite Hr. pose proof (se_now _ _ _ _ _ Hse k) as Hnow. rewrite HM in Hnow. rewrite Hnow.
  change (rv_seq (read_view default_ReadOptions d)) with (db_last_sequence d). unfold everything.
  destruct (read (concat (all_sources c)) k (db_last_sequence d)) as [[u|]|]; simpl; naive_solver.
Qed.

Lemma lsm_wait_spec x w f M s :
  lsm_holds w f M s -> lsm_fair x -> lsm_cost x + drain_files most <= f ->
  exists s', lsm_Wait x s = Some s' /\ lsm_holds w (f - (lsm_cost x + drain_files most)) M s'.
Proof.
  intros Hh Hf Hc. pose proof (drain_files_bounds most ltac:(lia)) as [Hdf _].
  destruct (arrive_spec x w f M s Hh Hf ltac:(lia)) as (A & c & d & e & Ha & Ho & Hu & Hb & HM & Hn & Hz).
  destruct Hf as (_ & _ & Hfuel). pose proof Hz as [(truth & floor & Hok & Hse) Z2 Z3 Z4 Z5 Z6 Z7]. pose proof (size_nonneg (everything c)) as Hs.
  destruct (drain_files_mono (size (everything c)) most ltac:(lia)) as [Hm1 Hm2]. pose proof (size_nonneg (k_turns x)) as Ht. unfold lsm_cost in *.
  unfold lsm_Wait. rewrite Ha. cbn [mbind option_bind].
  destruct (Wait_seen seed A (k_fuel x) truth floor c d e) as (d' & e' & truth' & c' & -> & Hok' & Hse' & Hup & _);
    [rewrite Z2; apply Hsuits|done|done|lia|nia|].
  destruct (upkeep_succeeds _ _ _ _ _ _ _ _ Hup Ho Hb) as [_ Hb']. eexists. split; [done|].
  eapply holds_intro; [eapply sized_upkeep; [exact Hz|exact Hup|by exists truth', floor]|exact (upkeep_unhooked _ _ _ _ _ _ _ _ Hup Hu)|done|done|lia|nia].
Qed.

#[export] Instance LsmEngine_spec : EngineSpec (LsmEngine rnd seed) lsm_fair lsm_cost (drain_files most) 1800 lsm_holds.
Proof.
  pose proof (drain_files_bounds most ltac:(lia)) as [Hdf _]. split; try exact lsm_put_spec; try exact lsm_get_spec; try exact lsm_scan_spec; try exact lsm_wait_spec.
  - intros x. unfold lsm_cost. pose proof (size_nonneg (k_turns x)). nia.
  - intros w w' f f' M [d e] Hw Hf (A & c & Hz & Hu & Hb & HM). by eapply holds_intro; [exact Hz|..]; try done; lia.
  - lia.
Qed.

End LsmEngineSpec.

(** ** The whole benchmark *)

Section BenchProof.
Context {R : Type} (rnd : R -> Z * R) (seed : R).
Context (path : string) (config : Config) (w : World).
Abbreviation options := (lsm_options (engine_config path config) (ParseSyncPolicy (sync_policy_name config))).

(** The directory is cleared, no system call fails, and the cache is of a size. *)
Record cleared : Prop := {
  cl_oracle : w_oracle w = [];
  cl_files : forall name, w_files w !! (path ++ "/" ++ name)%string = None;
  cl_cache : 0 <= cf_block_cache_bytes config < 2 ^ 62;
  cl_memtable : ApproximateMemoryUsage (new_MemTable seed) <= 2 ^ 22
}.

Lemma bench_suits : cleared -> suits seed options.
Proof. intros [C1 C2 C3 C4]. by split. Qed.

Lemma open_holds most time :
  cleared -> 0 <= most < 2 ^ 32 ->
  exists s, LsmEngine_Open rnd seed (engine_config path config) (ParseSyncPolicy (sync_policy_name config)) false time w = Some (inr s) /\
    lsm_holds seed options path most most (2 ^ 32 - 6) (fun _ => None) s.
Proof.
  intros Hcl Hm. pose proof (bench_suits Hcl) as Hsu. destruct Hcl as [C1 C2 C3 C4].
  pose proof (light_writable seed options [] Hsu ltac:(constructor) ltac:(done)) as Hwr.
  destruct (Open_fresh_any rnd seed options path false time w Hwr C2) as (s & db & e & b & HO & _ & _ & Hgood); [done|done|].
  destruct (Open_calm rnd seed options path false time w _ _ _ _ _ _ (fun _ => None) (recoverable_fresh path options (w_files w) Hwr C2))
    as (d0 & e0 & c0 & HO' & _); [done|lia|done|done|done|].
  rewrite HO in HO'. simplify_eq. simpl in Hgood. destruct Hgood as (d & c & [= ->] & Hnew).
  unfold LsmEngine_Open. change (ec_path (engine_config path config)) with path. rewrite HO. cbn [mbind option_bind Status.ok negb].
  eexists. split; [done|]. pose proof (nd_error _ _ _ _ _ _ Hnew) as Hb. destruct (new_sized seed _ _ _ _ _ Hnew) as [Hz Hu].
  eapply holds_intro; [exact Hz|done|done|done|lia|lia].
Qed.

End BenchProof.

Section Claims.
Context {R : Type} (rnd : R -> Z * R) (seed : R).


(** C27: What the benchmark loads can be read and scanned. After the load every
    key answers with its value, and a scan from the [i]-th key sees as many
    entries as were asked for or as there are from there on: keys are ordered
    as their numbers. *)
Theorem loaded_keys_scan path config time start stop evs x w :
  let most := num_keys config in
  cleared seed path config w -> 0 <= most < 2 ^ 32 -> 0 <= value_size config <= 1800 -> size evs = most ->
  Forall (fun ev => lsm_fair most (l_call ev)) evs -> lsm_fair most x ->
  total (fun ev => lsm_cost most (l_call ev)) evs + lsm_cost most x <= 2 ^ 32 - 6 ->
  exists s r s', LsmEngine_Open rnd seed (engine_config path config) (ParseSyncPolicy (sync_policy_name config)) false time w = Some (inr s) /\
    RunLoad (eng := LsmEngine rnd seed) config start stop evs s = Some (inr r, s') /\
    (forall j, 0 <= j < most -> exists s'', lsm_Get x (MakeKey j) s' = Some (true, Some (MakeValue j (value_size config)), false, s'')) /\
    (forall i max_entries, 0 <= i <= most ->
       exists s'', lsm_Scan x (MakeKey i) max_entries s' = Some (Z.min (Z.max 0 max_entries) (most - i), s'')).
Proof.
  intros most Hcl Hm Hv Hn Hf Hx Hc. destruct (open_holds rnd seed path config w most time Hcl Hm) as (s & HO & Hs).
  pose proof (LsmEngine_spec rnd seed _ path most (bench_suits seed path config w Hcl) Hm) as Hspec. pose proof (es_cost (EngineSpec := Hspec) x) as Hcx.
  destruct (load_keys_spec (spec_of := Hspec) config evs 0 _ _ _ s [] Hs Hf) as (lat & M & s' & Hl & _ & Hs' & HM & HT); [lia..|intros j Hj; lia|].
  rewrite Hn, Z.add_0_l in *. specialize (HT most ltac:(lia) ltac:(done)).
  exists s. do 2 eexists. split; [exact HO|]. split; [unfold RunLoad; fold most; rewrite Hn, Z.eqb_refl; cbn [negb]; by rewrite Hl|]. split.
  - intros j Hj. destruct (es_get (EngineSpec := Hspec) x (MakeKey j) _ _ M s' Hs' Hx) as (s'' & Hg & _); [lia|apply MakeKey_size; lia|].
    exists s''. rewrite (HM j Hj) in Hg. exact Hg.
  - intros i max_entries Hi.
    destruct (es_scan (EngineSpec := Hspec) x (MakeKey i) max_entries _ _ M s' Hs' Hx) as (rows & s'' & Hg & Hso & Hr & _); [lia|apply MakeKey_size; lia|].
    exists s''. assert (stocked most M) as Hst by (intros j Hj; by rewrite (HM j Hj)).
    rewrite (rows_from most _ M rows i Hi ltac:(lia) Hst HT Hso Hr) in Hg. exact Hg.
Qed.

End Claims.

(** ** A small run *)

Definition small_Config : Config := mkConfig 2 1 4 1 50 "never" "load,A" "lsmtree" (Z.shiftl 8 20) true (ratio 99 100).
Definition small_call : call := mkCall [[]] [] 0 0 40.
Definition small_loads : list (@load_event call) := [mkLoadEvent 0 1 small_call; mkLoadEvent 1 2 small_call].
Definition small_runs : list (@run call) :=
  [LoadRun 0 2 small_loads small_call; MixedRun 2 9 [mkMixedEvent 0 3 small_call; mkMixedEvent 0 4 small_call; mkMixedEvent 0 5 small_call]].

Lemma small_cleared : cleared [8; 3] "db" small_Config (mkWorld ∅ []).
Proof. split; [done|done|done|by vm_compute]. Qed.

(** With a flat distribution every conversion of the generator is defined. *)
Lemma small_runnable : @runnable 1800 (fun _ _ => to_double 1) small_Config.
Proof. split; try done. intros n _. unfold zipf_index. cbv zeta. destruct (SFltb _ _); [done|]. destruct (SFltb _ _); [done|]. by eexists. Qed.


Lemma loaded_keys_scan_witness :
  exists s r s', LsmEngine_Open list_rnd [8; 3] (engine_config "db" small_Config) kNever false 0 (mkWorld ∅ []) = Some (inr s) /\
    RunLoad (eng := LsmEngine list_rnd [8; 3]) small_Config 0 2 small_loads s = Some (inr r, s') /\
    exists s'', lsm_Scan small_call (MakeKey 1) 50 s' = Some (1, s'').
Proof.
  destruct (loaded_keys_scan list_rnd [8; 3] "db" small_Config 0 0 2 small_loads small_call (mkWorld ∅ []))
    as (s & r & s' & HO & HL & _ & HS); [exact small_cleared|done|done|done|by repeat constructor|by repeat constructor|by vm_compute|].
  exists s, r, s'. split; [exact HO|]. split; [exact HL|]. exact (HS 1 50 ltac:(done)).
Defined.
